(* ===== verification/_CoqProject ===== *)
-Q . S2P
Prelude.v
Wire.v
Queue.v
Events.v
Coro.v
Processor.v
PortLogic.v
Nodes.v
Sockets.v
Switcher.v
SwitcherInv.v
SwitcherSystem.v
NodeProtocol.v
NodeRun.v
Pipeline.v
PipelineInv.v
PipelineOps.v
Builder.v
Frame.v
Merge.v
Network.v
Termination.v
Flow.v
Link.v
Examples.v
Embed.v
Executor.v
Timer.v
Server.v
