(* ===== verification/Prelude.v ===== *)
(** * Tunnel: a verification development

    Tunnel (repository [chloro-pn/tunnel], headers under [src/include]) is a
    C++20 library of task pipelines.  A program builds a directed acyclic graph
    of processing nodes ([Processor] and its subclasses) with a [Pipeline]
    object; every edge is a bounded queue ([BoundedQueue]) held by [Channel]s;
    [Pipeline::Run] starts one coroutine per node, and the nodes talk through
    the queues only, ending each stream with an empty [std::optional] (an end of
    file).  A queue may have several writers and has one reader, which expects
    one end of file per writer ([input_count_]).  When a node throws, it says so
    in a shared abort channel, reads its inputs to their end and ends its
    outputs ("hosted mode").  [SocketSink] and [SocketSource] carry a stream
    between processes; the switcher ([switcher/switcher.h]) is a server that
    matches clients pushing to a topic with clients popping from it; coroutines
    run on a work-stealing pool ([executor/tunnel_executor.h]).

    ** Files

    - [Prelude] (this file): outcomes of C++ code, machine integers, lemmas on
      finite maps, the scope and the hint database of the development.
    - [Wire]: [tunnel/util.h], [sedeserialize.h], [tunnel_traits.h], [package.h]
      and the package types of [switcher/switcher.h].  Bytes are integers below
      256, a buffer is a list of bytes with an offset, the byte order of the
      host is a parameter ([Endian]); [Serializable] is the class of types with
      [Serialize] and [Deserialize].
    - [Queue]: [queue/boundedqueue.h].  [qstep] runs one coroutine to its next
      suspension point: taking the lock, parking on a condition variable, waking
      up, finishing the call.  [spec_call] is the atomic bounded queue that it
      refines.
    - [Events]: [event_collector.h], [event_count.h].
    - [Coro]: coroutines as trees of operations on the environment ([prog]), and
      a program logic for them ([WP]): the port protocol of a coroutine in an
      arbitrary environment.
    - [Processor]: [channel.h] and the base class of [processor.h]; [node] is
      the object, [M] the monad of its member functions.
    - [Nodes]: the node classes and [work_with_exception].
    - [Sockets]: [socket_source.h], [socket_sink.h] and the awaiters of
      [awaiter/asio/socket.h].  A connection is the bytes in flight and what
      follows them; asio is a record of operations with laws ([Asio]).
    - [Switcher]: [switcher/switcher.h] and [switcher_client.h]: the package
      functions of both sides, the operations of the client, and the handlers of
      the server as functions of its state (the table of waiting sockets, the
      sockets, the spawned coroutines).
    - [SwitcherInv]: where each socket of the server is ([placed]), for clients
      that send any bytes ([served]).
    - [SwitcherSystem]: clients and server interleaved ([reachable]).
    - [PortLogic], [NodeProtocol]: the rules for [Pop], [Push], [close_input],
      [close_output], and the protocol of every class; [behaves] says what a
      class promises about its outputs.
    - [NodeRun]: a node run to its end on given inputs ([eval], [run]).
    - [Pipeline]: [pipeline.h]: the builder, [Run], [MergePipeline], as
      functions of the state [world * Pipeline] that return, throw or crash.
    - [PipelineInv], [PipelineOps]: the invariant of the builder ([built]) and
      the specification of every operation.
    - [Builder]: sequences of calls ([reaches]); networks that are open to
      channels of the user ([open_network]) and closed ones ([closed_network]).
    - [Frame]: what a call leaves alone; two pipelines of one program, whose
      calls alternate in any way ([pair_reaches]), share nothing ([apart]).
    - [Merge]: [MergePipeline] on such pipelines; [assembled] is a complete
      pipeline, [origin] says where a node of the merged pipeline comes from.
    - [Network]: the coroutines of a launched pipeline in any interleaving.
    - [Termination]: coroutines that halt ([halts]), networks whose steps are
      well founded, runs that complete ([inevitably]).
    - [Flow]: what the reader of a queue reads, as a permutation of what its
      writers wrote ([flow], [results]); wiring tables and an executable check
      that a network is closed ([network_ok]).
    - [Link]: two pipelines joined by [ChannelSink]s and [ChannelSource]s on the
      same channels ([linked]), and a pipeline that a transform runs between its
      own input and output ([embeds]), as one closed network.
    - [Examples]: [example/number_handle.cc] and [example/hello_world.cc].
    - [Embed]: [example/embed_pipeline.cc], a pipeline that a node runs between
      its own ports through a [ChannelSource] and a [ChannelSink].
    - [Executor]: the worker pool, one step per access to a mutex, a condition
      variable or a queue ([thread_step], [reach]); the start of its threads.
    - [Timer]: [executor/timer.h] and the handler of
      [TimerManager::PushTimer]: the timer thread, the callers of [PushTimer] and
      the statements of [Stop] ([timer_step], [stop_step], [tm_move]).
    - [Server]: [src/switcher_server.cc] with the constructor, [Start] and
      [Stop] of [Switcher]: flags, set-up, and the threads of the program
      together with the clients and the coroutines that serve them
      ([server_moves]); executions and weak fairness ([execution], [fair]).

    ** How state and operations correspond

    The members of a C++ class are the fields of a record with the same names
    ([node], [Pipeline], [EventCollector], [queue_state], ...), its member
    functions definitions with the same names; overloads carry a suffix
    ([SetSink_leaves], [Merge_noop], [connect_MultiIOneO]).  [std::shared_ptr]
    to a queue is the queue's number, null is [None].  Subclasses are the
    constructors of [kind], which hold the user's virtual functions; these may
    keep state and throw.  [std::exception] is a value of a sum type; a failing
    [assert], undefined behaviour and [std::abort] are the three crashes.
    [size_t] and [uint64_t] are integers with [u64] where they can wrap around.
    [unordered_map] and [unordered_set] are finite maps and sets; the order of
    their iteration is a parameter ([HashOrder]) that visits every element once.

    ** What the theorems show

    - Whole pipelines ([Network]): for every pipeline built through the
      interface ([self_contained]: not joined to others by channels) and every
      interleaving of its coroutines, nothing crashes, no
      queue exceeds its capacity, and no element is lost, duplicated or
      reordered between the writers and the reader of a queue
      ([network_safety]); when all have returned, every queue is empty and every
      node did what its class promises ([network_finished]); without [Concat]
      and with a positive capacity there is no deadlock ([network_no_deadlock]);
      with [Concat] there can be one, and in every one a [Concat] waits at an
      empty input while another of its inputs is full ([deadlock_shape]).
    - Termination ([Termination]): every run of a pipeline whose sources end is
      finite ([network_halts]); with [bind_abort_channel], positive capacities
      and no [Concat], it completes whatever is thrown ([network_completes]);
      if nothing is thrown, every node succeeds ([network_succeeds]), with
      [bind_abort_channel] or without.
    - Joined pipelines ([Link]): two pipelines of one program whose
      [ChannelSink]s and [ChannelSource]s meet run as safely as one and end as
      surely ([linked_pipelines]); so do a pipeline and one that runs inside a
      transform of it ([embedded_pipeline]); if nothing is thrown, the reader of
      each queue reads a permutation of what its writers wrote.  Any other
      network, if its wiring passes a check ([checked_network]).
    - Examples ([Examples], [Embed]): in every interleaving [number_handle]
      ends with the sum it announces and without overflow
      ([number_handle_result]), [hello_world] prints its line
      ([hello_world_result]), and [embed_pipeline], whose runs refine those of
      one closed network of both pipelines, prints it three times
      ([embed_pipeline_result]).
    - Builder ([Builder]): every sequence of legal calls keeps the pipeline well
      formed ([builder_wellformed]) and its counters and ports exact
      ([builder_types]), a pipeline without leaves is a closed network
      ([completed_closed]), [Run] launches every node once
      ([Run_launches]), its errors ([Run_errors]) and results
      ([Run_results_empty]).
    - [MergePipeline] ([Merge], [Network]): its behaviour on every branch, and
      that the merged pipeline is again complete, with exact edges, sources and
      sinks ([MergePipeline_correct]); a merged pipeline runs as safely as one
      that was built ([merged_network]).
    - Nodes ([NodeRun]): every class keeps the end-of-file protocol in any
      environment ([node_protocol]), runs to its end on complete inputs
      ([node_total]) and then has the promised outputs ([node_returns]).
    - Queue ([Queue]): mutual exclusion and capacity, refinement of the atomic
      queue, first in first out, no lost wake-up, and the capacity 0.
    - Wire formats ([Wire]): the round trip between hosts of any byte order, the
      errors of [Deserialize<package>], and what is not checked.
    - Socket nodes ([Sockets]): what a [SocketSink] sends a [SocketSource]
      receives ([socket_transfer]); a stream that is cut gives a prefix and an
      exception ([socket_truncation]); a sink that cannot connect
      ([socket_sink_unconnected]).
    - Switcher: every value popped was pushed exactly once to that topic
      ([switcher_exactly_once]), no push and pop of a topic are both left
      waiting ([switcher_no_missed_match]), nothing fails with clients that keep
      to the protocol ([switcher_never_fails]); with arbitrary clients, the
      places of the sockets ([switcher_places]) and the request type that is not
      checked ([switcher_bad_request_type]); the package functions of client and
      server are equivalent ([package_functions_agree]).
    - Executor: no task is lost or run twice ([executor_exactly_once]), no lost
      wake-up and no deadlock ([executor_no_lost_wakeup]), [Stop] drains the
      queues ([executor_stop_drains]), the destructor ([executor_destructor]); the start-up race ([executor_start]), a
      task that comes after [Stop] is accepted and never run
      ([executor_late_task_lost]).
    - Timers ([Timer]): where each pushed task is, that [Stop] returns, and that
      nothing is scheduled afterwards ([timers_accounted]).
    - The switcher program, with its clients, ends after a signal in every fair
      execution, and [main] returns only then ([server_lifecycle]); its log file
      does not depend on the command line ([server_setup_flags]).
    - Statistics and latch ([Events]).

    ** Fuel and bounds

    [prog] has no fuel: a loop is unfolded one turn per step, and [WP] holds for
    every number of steps.  [eval] is a relation, [run] its executable form with
    fuel; [node_total] proves that some fuel suffices.  The termination of
    networks is stated without fuel, by [Acc] and [inevitably].  The queue capacity, the
    number of nodes and the length of streams are arbitrary; ids are below
    2^64, which [legal] states for the calls that allocate ids.

    ** What is not modelled

    - The lock and the condition variables of [async_simple], its executors and
      [collectAllPara] are outside the repository: [Queue] models the first two
      by their documented behaviour, [Network] lets any coroutine take the next
      step.
    - Asio and [rigtorp::MPMCQueue] are outside the repository too: the record
      [Asio] and the class [MPMCQueue] state what is used of them.  An operation
      on a socket is one step, so a coroutine of the switcher runs without
      interruption until it waits for bytes; this is sound because a socket
      belongs to one coroutine ([switcher_places]).  [get_remote_ipport] is a
      total function: that it throws on a connection that was reset is left out.
    - A task of the executor that throws (it ends the process), and the use of
      the executor by [async_simple]'s coroutines.  [TunnelExecutor::Stop] first
      calls [TimerManager::Stop], which is modelled apart ([Timer]).
    - [Deserialize<std::string>] may index a [std::string_view] with its length;
      theorems about strings on the wire take that as harmless
      ([strict_index = false]).
    - The examples are modelled up to the launch of their coroutines and for the
      iteration order of [sorted_order]; the lines that [number_handle] prints at
      its end and the tests are left out.
    - A transform that runs a pipeline waits for it; [embedded_pipeline] is about
      the nodes of both pipelines, the waiting itself is modelled in [Embed].
      More than two joined pipelines are covered by [checked_network] only.
      [MyTransform] of [embed_pipeline.cc] is a [NoOpTransform] for the builder, and its
      [work] is modelled without the wrapper [work_with_exception].
    - The constructors of [kind] are the node classes of the library with the
      virtual functions a user gives them; subclasses of [Transform] or
      [Processor] with a [work] of their own are left out, and the socket nodes
      are modelled apart ([Sockets]).
    - [asio::io_context] is its documented behaviour, for the switcher
      ([worker_step], [run_returns]) and for the timers ([timer_step]): a handler
      is run only while the context is not stopped, and [run] returns when it is
      stopped or nothing holds it.  A timer may complete at any time; clocks are
      left out.  What [schedule] answers to the handler of a timer is a choice.
    - [ParseCommandLineFlags] and the parsing of addresses are parameters. *)

From stdpp Require Import base gmap strings list fin_maps relations.

(** ** Notation and automation

    Notations of the development are in [tunnel_scope]; the facts that close
    the common side conditions are in the hint database [tunnel]. *)

Declare Scope tunnel_scope.
Delimit Scope tunnel_scope with tunnel.
#[global] Open Scope tunnel_scope.

Create HintDb tunnel.
#[export] Hint Resolve lookup_insert_eq elem_of_dom_2 : tunnel.

(** ** Outcomes of C++ code

    A piece of C++ code either returns, throws an exception derived from
    [std::exception] (represented by its [what()] message), or ends the
    process (or leaves the defined part of the language). *)

Inductive crash : Type :=
| AssertFail           (* a failing [assert] *)
| UndefinedBehaviour   (* e.g. a read out of bounds, a null dereference *)
| StdAbort.            (* a call of [std::abort] made by the library on purpose *)

#[global] Instance crash_eq_dec : EqDecision crash.
Proof. solve_decision. Defined.

Abbreviation exn := string (only parsing).

Inductive outcome (A : Type) : Type :=
| Ok (a : A)
| Throw (e : exn)
| Crash (c : crash).
Arguments Ok {A} _.
Arguments Throw {A} _.
Arguments Crash {A} _.

#[global] Instance outcome_ret : MRet outcome := λ A a, Ok a.
#[global] Instance outcome_bind : MBind outcome := λ A B f m,
  match m with Ok a => f a | Throw e => Throw e | Crash c => Crash c end.
#[global] Instance outcome_fmap : FMap outcome := λ A B f m,
  match m with Ok a => Ok (f a) | Throw e => Throw e | Crash c => Crash c end.

(** [assert(b)] *)
Definition cpp_assert (b : bool) : outcome unit :=
  if b then Ok tt else Crash AssertFail.

(** ** Machine integers *)

Definition wrap (w x : Z) : Z := x `mod` 2 ^ w.
Abbreviation u32 := (wrap 32).
Abbreviation u64 := (wrap 64).

(** The value of the [w]-bit two's complement pattern [x]. *)
Definition to_signed (w x : Z) : Z :=
  if decide (x < 2 ^ (w - 1))%Z then x else (x - 2 ^ w)%Z.

Definition uint_range (w x : Z) : Prop := (0 ≤ x < 2 ^ w)%Z.
Definition sint_range (w x : Z) : Prop := (- 2 ^ (w - 1) ≤ x < 2 ^ (w - 1))%Z.

Lemma wrap_small w x : uint_range w x → wrap w x = x.
Proof. unfold wrap, uint_range. intros. by rewrite Z.mod_small. Qed.

(** Removes the wrap-around of values in range. *)
(** A decidable goal about concrete data. *)
Ltac decide_now := apply (bool_decide_unpack _); vm_compute; exact I.

Ltac wrap_id := rewrite ?wrap_small by (unfold uint_range; lia).

Lemma wrap_range w x : (0 ≤ w)%Z → uint_range w (wrap w x).
Proof. unfold wrap, uint_range. intros. apply Z.mod_pos_bound. lia. Qed.
#[export] Hint Resolve wrap_range : tunnel.

Lemma to_signed_wrap w x :
  (0 < w)%Z → sint_range w x → to_signed w (wrap w x) = x.
Proof.
  unfold sint_range, to_signed, wrap. intros Hw Hx.
  assert (2 ^ w = 2 * 2 ^ (w - 1))%Z as Hp.
  { rewrite <- Z.pow_succ_r by lia. f_equal. lia. }
  destruct (decide (0 ≤ x)%Z).
  - rewrite Z.mod_small by lia. rewrite decide_True by lia. done.
  - assert (x `mod` 2 ^ w = x + 2 ^ w)%Z as ->.
    { symmetry. apply (Z.mod_unique_pos _ _ (-1)); lia. }
    rewrite decide_False by lia. lia.
Qed.

(** ** Lists *)

Lemma rev_reverse {A} (l : list A) : rev l = reverse l.
Proof. apply rev_alt. Qed.

Lemma list_delete_insert {A} (l : list A) i x : delete i (<[i := x]> l) = delete i l.
Proof. revert i. induction l as [|y l IH]; intros [|i]; simpl; [done..|]. f_equal. apply IH. Qed.

(** A prefix of an append ends within the first part or goes beyond it. *)
Lemma prefix_split {A} (k l1 l2 : list A) :
  k `prefix_of` l1 ++ l2 → (k `prefix_of` l1 ∧ k ≠ l1) ∨ ∃ k', k = l1 ++ k' ∧ k' `prefix_of` l2.
Proof.
  intros Hp. destruct (prefix_weak_total k l1 (l1 ++ l2)) as [[m ->]|[m ->]]; [done|by apply prefix_app_r|..].
  - destruct m as [|x m].
    + right. exists []. rewrite !app_nil_r. split; [done|apply prefix_nil].
    + left. split; [by apply prefix_app_r|]. intros Hk. apply (f_equal length) in Hk.
      rewrite length_app in Hk. simpl in Hk. lia.
  - right. exists m. split; [done|]. by apply prefix_app_inv in Hp.
Qed.

(** ** Finite maps *)

Lemma total_insert {K A} `{Countable K} `{Inhabited A} (m : gmap K A) i x j :
  <[i := x]> m !!! j = if decide (j = i) then x else m !!! j.
Proof.
  destruct (decide (j = i)) as [->|Hne]; [by rewrite lookup_total_insert, decide_True|].
  by rewrite lookup_total_insert_ne.
Qed.

(** ** Counting the values of a finite map *)

Section count_if.
Context `{Countable K} {A : Type}.

Definition count_if (f : A → bool) (m : gmap K A) : nat :=
  size (filter (λ kv, f kv.2 = true) m).

Lemma count_if_insert f (m : gmap K A) i x :
  count_if f (<[i:=x]> m) = Nat.b2n (f x) + count_if f (delete i m).
Proof.
  unfold count_if. destruct (f x) eqn:Hx.
  - rewrite map_filter_insert_True by done.
    rewrite <- insert_delete_eq, map_size_insert_None by apply lookup_delete_eq.
    by rewrite map_filter_delete.
  - rewrite map_filter_insert_False by (simpl; congruence). done.
Qed.

Lemma count_if_delete f (m : gmap K A) i x :
  m !! i = Some x → count_if f m = Nat.b2n (f x) + count_if f (delete i m).
Proof.
  intros Hx. rewrite <- (insert_id m i x) at 1 by done. apply count_if_insert.
Qed.

(** Replacing the value of a key changes the count by that value only. *)
Lemma count_if_update f (m : gmap K A) i x y :
  m !! i = Some x →
  count_if f (<[i:=y]> m) + Nat.b2n (f x) = count_if f m + Nat.b2n (f y).
Proof.
  intros Hx. rewrite count_if_insert, (count_if_delete f m i x) by done. lia.
Qed.

Lemma count_if_pos f (m : gmap K A) i x :
  m !! i = Some x → f x = true → 0 < count_if f m.
Proof. intros Hx Hf. rewrite (count_if_delete f m i x), Hf by done. simpl. lia. Qed.

Lemma count_if_zero f (m : gmap K A) :
  (∀ i x, m !! i = Some x → f x = false) → count_if f m = 0.
Proof.
  intros Hf. unfold count_if. apply map_size_empty_iff, map_empty. intros i.
  apply map_lookup_filter_None. right. intros x Hx. simpl. by rewrite (Hf i x Hx).
Qed.

Lemma count_if_exists f (m : gmap K A) :
  0 < count_if f m → ∃ i x, m !! i = Some x ∧ f x = true.
Proof.
  intros Hc. unfold count_if in Hc.
  destruct (map_choose (filter (λ kv, f kv.2 = true) m)) as (i & x & Hx).
  { intros He. rewrite He, map_size_empty in Hc. lia. }
  apply map_lookup_filter_Some in Hx as [? ?]. eauto.
Qed.
End count_if.

(** ** Sums over a finite map *)

Section sum_over.
Context `{Countable K} {A : Type}.

Definition sum_over (f : A → nat) (m : gmap K A) : nat := map_fold (λ _ x s, f x + s) 0 m.

Lemma sum_over_empty f : sum_over f (∅ : gmap K A) = 0.
Proof. apply map_fold_empty. Qed.

Lemma sum_over_insert f (m : gmap K A) i x :
  m !! i = None → sum_over f (<[i:=x]> m) = f x + sum_over f m.
Proof. intros Hi. unfold sum_over. rewrite map_fold_insert_L; [done|intros; lia|done]. Qed.

Lemma sum_over_delete f (m : gmap K A) i x :
  m !! i = Some x → sum_over f m = f x + sum_over f (delete i m).
Proof.
  intros Hi. rewrite <- (insert_delete_id m i x Hi) at 1.
  apply sum_over_insert, lookup_delete_eq.
Qed.

(** Replacing the value of a key changes the sum by that value only. *)
Lemma sum_over_update f (m : gmap K A) i x y :
  m !! i = Some x → sum_over f (<[i:=y]> m) + f x = sum_over f m + f y.
Proof.
  intros Hi. rewrite (sum_over_delete f m i x Hi), (sum_over_delete f (<[i:=y]> m) i y).
  - rewrite delete_insert_eq. lia.
  - apply lookup_insert_eq.
Qed.

Lemma sum_over_le f (m : gmap K A) i x : m !! i = Some x → f x ≤ sum_over f m.
Proof. intros Hi. rewrite (sum_over_delete f m i x Hi). lia. Qed.

Lemma sum_over_ext f g (m : gmap K A) :
  (∀ i x, m !! i = Some x → f x = g x) → sum_over f m = sum_over g m.
Proof.
  induction m as [|i x m Hi IH] using map_ind; intros Hfg; [done|].
  rewrite !sum_over_insert by done. rewrite (Hfg i x) by apply lookup_insert_eq. f_equal.
  apply IH. intros j y Hj. apply (Hfg j). rewrite lookup_insert_ne; [done|congruence].
Qed.

Lemma sum_over_zero f (m : gmap K A) : (∀ i x, m !! i = Some x → f x = 0) → sum_over f m = 0.
Proof.
  intros Hf. rewrite (sum_over_ext f (λ _, 0) m Hf). clear Hf.
  induction m as [|i x m Hi IH] using map_ind; [done|]. by rewrite sum_over_insert.
Qed.

Lemma sum_over_pos f (m : gmap K A) : 0 < sum_over f m → ∃ i x, m !! i = Some x ∧ 0 < f x.
Proof.
  induction m as [|i x m Hi IH] using map_ind; [rewrite sum_over_empty; lia|].
  rewrite sum_over_insert by done. intros Hs. destruct (decide (0 < f x)).
  - exists i, x. by rewrite lookup_insert_eq.
  - destruct IH as (j & y & Hj & Hy); [lia|]. exists j, y. split; [|done].
    rewrite lookup_insert_ne; [done|congruence].
Qed.

(** A sum with one non-zero term. *)
Lemma sum_over_single f (m : gmap K A) i x :
  m !! i = Some x → (∀ j y, m !! j = Some y → j ≠ i → f y = 0) → sum_over f m = f x.
Proof.
  intros Hi Hf. rewrite (sum_over_delete f m i x Hi), sum_over_zero; [lia|].
  intros j y [Hne Hj]%lookup_delete_Some. by apply (Hf j).
Qed.

Lemma sum_over_union f (m m' : gmap K A) :
  m ##ₘ m' → sum_over f (m ∪ m') = sum_over f m + sum_over f m'.
Proof.
  induction m as [|i x m Hi IH] using map_ind; intros Hd; [by rewrite (left_id_L ∅ (∪)), sum_over_empty|].
  apply map_disjoint_insert_l in Hd as [Hi' Hd].
  rewrite <- insert_union_l, !sum_over_insert, IH; [lia|done..|]. by apply lookup_union_None.
Qed.

(** Two sums with the same terms under other keys. *)
Lemma sum_over_plus f g (m : gmap K A) : sum_over (λ x, f x + g x) m = sum_over f m + sum_over g m.
Proof. induction m as [|i x m Hi IH] using map_ind; [done|]. rewrite !sum_over_insert, IH by done. lia. Qed.
Lemma sum_over_two f (m : gmap K A) i j x y :
  m !! i = Some x → m !! j = Some y → i ≠ j → f x + f y ≤ sum_over f m.
Proof.
  intros Hi Hj Hne. rewrite (sum_over_delete f m i x Hi).
  pose proof (sum_over_le f (delete i m) j y) as Hle. rewrite lookup_delete_ne in Hle by done. specialize (Hle Hj). lia.
Qed.
Lemma sum_over_reindex f (m m' : gmap K A) (h : K → K) :
  (∀ j y, m' !! j = Some y → ∃ x, m !! h j = Some x ∧ f y = f x) →
  (∀ j j', j ∈ dom m' → j' ∈ dom m' → h j = h j' → j = j') →
  (∀ i x, m !! i = Some x → 0 < f x → ∃ j, j ∈ dom m' ∧ h j = i) →
  sum_over f m' = sum_over f m.
Proof.
  revert m. induction m' as [|j y m' Hj IH] using map_ind; intros m Hterm Hinj Hcov.
  - rewrite sum_over_empty, sum_over_zero; [done|]. intros i x Hi. destruct (decide (f x = 0)); [done|].
    destruct (Hcov i x Hi) as (j & Hin & _); [lia|set_solver].
  - assert (∀ j', j' ∈ dom m' → h j ≠ h j') as Hne.
    { intros j' Hin He. apply not_elem_of_dom in Hj. apply Hinj in He; set_solver. }
    destruct (Hterm j y) as (x & Hx & Hfx); [apply lookup_insert_eq|].
    rewrite sum_over_insert, (sum_over_delete f m (h j) x Hx), Hfx by done. f_equal. apply IH.
    + intros j' y' Hj'. destruct (Hterm j' y') as (x' & Hx' & ?); [rewrite lookup_insert_ne; congruence|].
      exists x'. rewrite lookup_delete_ne; [done|]. apply Hne. by apply elem_of_dom_2 in Hj'.
    + set_solver.
    + intros i z [Hi Hz]%lookup_delete_Some Hpos. destruct (Hcov i z Hz Hpos) as (j' & Hin & <-).
      exists j'. set_solver.
Qed.

End sum_over.

Notation "'Σ[' x '∈' m ']' e" := (sum_over (λ x, e) m)
  (at level 50, x binder, m at level 60, e at level 49, format "Σ[ x  ∈  m ]  e") : tunnel_scope.

Lemma sum_over_fmap `{Countable K} {A A'} (f : A' → nat) (g : A → A') (m : gmap K A) :
  sum_over f (g <$> m) = sum_over (λ x, f (g x)) m.
Proof.
  induction m as [|i x m Hi IH] using map_ind; [by rewrite fmap_empty, !sum_over_empty|].
  rewrite fmap_insert, !sum_over_insert, IH; [done|done|]. by rewrite lookup_fmap, Hi.
Qed.
