(* ===== verification/Wire.v ===== *)
(** * Wire format: [tunnel/util.h], [tunnel/tunnel_traits.h],
      [tunnel/sedeserialize.h], [tunnel/package.h] and the packages of
      [switcher/switcher.h]

    Integers are modelled through their object representation: the bytes an
    object occupies on a host of either endianness.  [flipByByte] and the
    [memcpy]s of [sedeserialize.h] act on those bytes, so that the theorems of
    this file show that the wire format does not depend on the host.

    Reads of a [std::string_view] are bounds-checked by the model: a read past
    the end is [Crash UndefinedBehaviour]. *)

From stdpp Require Import base gmap strings list fin_maps.
From Stdlib Require Strings.Byte.
From coqutil Require Import Byte Word.LittleEndianList.
From S2P Require Import Prelude.

#[local] Open Scope Z_scope.

#[global] Instance byte_eq_dec : EqDecision byte := Byte.byte_eq_dec.

#[global] Program Instance byte_countable : Countable byte :=
  inj_countable Byte.to_N Byte.of_N _.
Next Obligation. intros b. apply Byte.of_to_N. Qed.

(** ** [util.h] *)

Module Endian.
Inductive Type_ := Big | Little.
End Endian.

#[global] Instance endian_eq_dec : EqDecision Endian.Type_.
Proof. solve_decision. Defined.

(** What the code depends on and does not fix: the endianness of the host,
    and whether [std::string_view::operator[]] enforces its precondition
    [pos < size()] (a hardened standard library) or merely computes an
    address. *)
Class Platform := {
  host : Endian.Type_;
  strict_index : bool;
}.

Definition sizeof_int : nat := 4.

(** The object representation of a 32-bit integer ([uint32_t] or [int]). *)
Definition store (e : Endian.Type_) (v : Z) : list byte :=
  match e with
  | Endian.Little => le_split sizeof_int v
  | Endian.Big => rev (le_split sizeof_int v)
  end.

Definition load (e : Endian.Type_) (bs : list byte) : Z :=
  match e with
  | Endian.Little => le_combine bs
  | Endian.Big => le_combine (rev bs)
  end.

(** [Endian::Endian()]: [int i = 1; type_ = ( *(char* )&i == 1) ? Little : Big]. *)
Definition GetEndianType `{Platform} : Endian.Type_ :=
  match store host 1 with
  | b :: _ => if decide (byte.unsigned b = 1) then Endian.Little else Endian.Big
  | [] => Endian.Big
  end.

(** The loop of [flipByByte]: [ptr1[sizeof(T) - 1 - i] = ptr2[i]]. *)
Definition flip_loop (ptr2 : list byte) (n : nat) (ptr1 : list byte) : list byte :=
  foldl (λ ptr1 i, match ptr2 !! i with
                   | Some c => <[(length ptr2 - 1 - i)%nat := c]> ptr1
                   | None => ptr1
                   end) ptr1 (seq 0 n).

Definition flip_bytes (ptr2 : list byte) : list byte :=
  flip_loop ptr2 (length ptr2) (replicate (length ptr2) Byte.x00).

(** The two instances of the macro [DECLARE_INTEGRAL_SERIALIZE]. *)
Inductive uint32_t := U32 (v : Z).
Inductive int_t := I32 (v : Z).

(** The value denoted by a 32-bit pattern, as [uint32_t] and as [int]. *)
Definition as_uint32 (bits : Z) : Z := bits.
Definition as_int (bits : Z) : Z := to_signed 32 bits.

Definition flipByByte `{Platform} (interp : Z → Z) (t : Z) : Z :=
  interp (load host (flip_bytes (store host t))).

(** ** Views and buffers *)

Abbreviation cpp_string := (list byte).

Definition size (s : cpp_string) : Z := Z.of_nat (length s).

(** [memcpy] of [n] bytes out of a view (or the construction of a
    [std::string] from a pointer and a length). *)
Definition read_mem (view : cpp_string) (offset n : Z) : outcome cpp_string :=
  if decide (0 ≤ offset ∧ 0 ≤ n ∧ offset + n ≤ size view)
  then Ok (take (Z.to_nat n) (drop (Z.to_nat offset) view))
  else Crash UndefinedBehaviour.

(** [&view[offset]]: an address.  The position one past the end is an address
    one may form, unless the library enforces the precondition. *)
Definition address_of `{Platform} (view : cpp_string) (offset : Z) : outcome unit :=
  if decide (0 ≤ offset ∧ offset + (if strict_index then 1 else 0) ≤ size view)
  then Ok tt else Crash UndefinedBehaviour.

(** [view[offset]] used as a value. *)
Definition char_at (view : cpp_string) (offset : Z) : outcome byte :=
  bs ← read_mem view offset 1;
  match bs with b :: _ => Ok b | [] => Crash UndefinedBehaviour end.

(** [appender.resize(old_size + n); memcpy(&appender[old_size], bs, n)] *)
Definition resize (s : cpp_string) (n : Z) : cpp_string :=
  take (Z.to_nat n) s ++ replicate (Z.to_nat n - length s) Byte.x00.

Definition memcpy_at (s : cpp_string) (pos : Z) (bs : cpp_string) : cpp_string :=
  take (Z.to_nat pos) s ++ bs ++ drop (Z.to_nat pos + length bs) s.

(** ** The interface of serializable types

    The concepts [HasTunnelSerializeSpecialization] and
    [HasTunnelDeserializeSpecialization]. *)

Class Serializable (A : Type) := {
  Serialize : A → cpp_string → outcome cpp_string;
  Deserialize_from : cpp_string → Z → outcome (A * Z);
}.

(** What a specialization promises to its users: serializing appends an
    encoding, and deserializing at the start of that encoding gives back the
    value and the offset after it, whatever surrounds it. *)
Class SerializableLaws (A : Type) `{Serializable A} := {
  wire_ok : A → Prop;
  encoding : A → cpp_string;
  Serialize_spec v app : wire_ok v → Serialize v app = Ok (app ++ encoding v);
  Deserialize_spec v pre post :
    wire_ok v →
    Deserialize_from (pre ++ encoding v ++ post) (size pre)
    = Ok (v, size pre + size (encoding v));
}.
#[global] Hint Mode SerializableLaws ! - : typeclass_instances.

(** [template <typename T> T Deserialize(std::string_view view)] *)
Definition Deserialize {A} `{Serializable A} (view : cpp_string) : outcome A :=
  '(v, offset) ← Deserialize_from view 0;
  _ ← cpp_assert (bool_decide (offset = size view));
  Ok v.

Section specializations.
Context `{Platform}.

(** [DECLARE_INTEGRAL_SERIALIZE(integral_type)] *)
Definition Serialize_integral (interp : Z → Z) (v : Z) (appender : cpp_string) : cpp_string :=
  let old_size := size appender in
  let appender := resize appender (old_size + Z.of_nat sizeof_int) in
  let rv := if decide (GetEndianType = Endian.Little) then flipByByte interp v else v in
  memcpy_at appender old_size (store host rv).

Definition Deserialize_integral (interp : Z → Z) (view : cpp_string) (offset : Z) : outcome (Z * Z) :=
  bs ← read_mem view offset (Z.of_nat sizeof_int);
  let v := interp (load host bs) in
  let offset := offset + Z.of_nat sizeof_int in
  let v := if decide (GetEndianType = Endian.Little) then flipByByte interp v else v in
  Ok (v, offset).

#[export] Instance uint32_serializable : Serializable uint32_t := {
  Serialize '(U32 v) app := Ok (Serialize_integral as_uint32 v app);
  Deserialize_from view off :=
    '(v, off) ← Deserialize_integral as_uint32 view off; Ok (U32 v, off);
}.

#[export] Instance int_serializable : Serializable int_t := {
  Serialize '(I32 v) app := Ok (Serialize_integral as_int v app);
  Deserialize_from view off :=
    '(v, off) ← Deserialize_integral as_int view off; Ok (I32 v, off);
}.

(** [Serialize(const std::string&, ...)] and [Deserialize<std::string>] *)
Definition Serialize_string (v : cpp_string) (appender : cpp_string) : outcome cpp_string :=
  _ ← cpp_assert (bool_decide (size v ≤ 2 ^ 32 - 1));
  appender ← Serialize (U32 (u32 (size v))) appender;
  Ok (appender ++ v).

Definition Deserialize_string (view : cpp_string) (offset : Z) : outcome (cpp_string * Z) :=
  '(U32 v, offset) ← Deserialize_from view offset;
  _ ← address_of view offset;
  s ← read_mem view offset v;
  Ok (s, offset + v).

#[export] Instance string_serializable : Serializable cpp_string := {
  Serialize := Serialize_string;
  Deserialize_from := Deserialize_string;
}.

(** [Serialize(const bool&, ...)] and [Deserialize<bool>] *)
Definition Serialize_bool (v : bool) (appender : cpp_string) : outcome cpp_string :=
  Ok (appender ++ [if v then Byte.x74 else Byte.x66]).

Definition Deserialize_bool (view : cpp_string) (offset : Z) : outcome (bool * Z) :=
  c ← char_at view offset;
  _ ← cpp_assert (bool_decide (c = Byte.x74 ∨ c = Byte.x66));
  Ok (bool_decide (c = Byte.x74), offset + 1).

#[export] Instance bool_serializable : Serializable bool := {
  Serialize := Serialize_bool;
  Deserialize_from := Deserialize_bool;
}.

End specializations.

(** ** [package.h] *)

Record package := Package { eof : bool; bin_data : cpp_string }.

Section packages.
Context `{Platform}.

Definition Serialize_package (v : package) (appender : cpp_string) : outcome cpp_string :=
  Serialize (bin_data v) (appender ++ [if eof v then Byte.x65 else Byte.x6e]).

Definition Deserialize_package (view : cpp_string) (offset : Z) : outcome (package * Z) :=
  if decide (view = []) then Throw "deserialize package error, empty" else
  c ← char_at view offset;
  if decide (c ≠ Byte.x65 ∧ c ≠ Byte.x6e)
  then Throw "deserialize package error, parse invalid field" else
  '(d, offset) ← Deserialize_from view (offset + 1);
  Ok (Package (bool_decide (c = Byte.x65)) d, offset).

#[export] Instance package_serializable : Serializable package := {
  Serialize := Serialize_package;
  Deserialize_from := Deserialize_package;
}.

End packages.

(** ** The packages of [switcher.h] *)

Record request_package := RequestPackage {
  rq_topic : cpp_string; rq_type : int_t; rq_timeout_ms : int_t }.

Record response_package := ResponsePackage {
  rs_topic : cpp_string; rs_wait_ms : int_t; rs_peer_addr : cpp_string; rs_response_code : int_t }.

Record data_package := DataPackage {
  dp_data : cpp_string; dp_meta_info : cpp_string; dp_eof : bool }.

Section switcher_packages.
Context `{Platform}.

Definition Serialize_request (v : request_package) (appender : cpp_string) : outcome cpp_string :=
  appender ← Serialize (rq_topic v) appender;
  appender ← Serialize (rq_type v) appender;
  Serialize (rq_timeout_ms v) appender.

Definition Deserialize_request (view : cpp_string) (offset : Z) : outcome (request_package * Z) :=
  '(topic, offset) ← Deserialize_from view offset;
  '(type, offset) ← Deserialize_from view offset;
  '(timeout_ms, offset) ← Deserialize_from view offset;
  Ok (RequestPackage topic type timeout_ms, offset).

#[export] Instance request_serializable : Serializable request_package := {
  Serialize := Serialize_request;
  Deserialize_from := Deserialize_request;
}.

Definition Serialize_response (v : response_package) (appender : cpp_string) : outcome cpp_string :=
  appender ← Serialize (rs_topic v) appender;
  appender ← Serialize (rs_wait_ms v) appender;
  appender ← Serialize (rs_peer_addr v) appender;
  Serialize (rs_response_code v) appender.

Definition Deserialize_response (view : cpp_string) (offset : Z) : outcome (response_package * Z) :=
  '(topic, offset) ← Deserialize_from view offset;
  '(wait_ms, offset) ← Deserialize_from view offset;
  '(peer_addr, offset) ← Deserialize_from view offset;
  '(response_code, offset) ← Deserialize_from view offset;
  Ok (ResponsePackage topic wait_ms peer_addr response_code, offset).

#[export] Instance response_serializable : Serializable response_package := {
  Serialize := Serialize_response;
  Deserialize_from := Deserialize_response;
}.

Definition Serialize_data (v : data_package) (appender : cpp_string) : outcome cpp_string :=
  appender ← Serialize (dp_data v) appender;
  appender ← Serialize (dp_meta_info v) appender;
  Serialize (dp_eof v) appender.

Definition Deserialize_data (view : cpp_string) (offset : Z) : outcome (data_package * Z) :=
  '(data, offset) ← Deserialize_from view offset;
  '(meta_info, offset) ← Deserialize_from view offset;
  '(eof, offset) ← Deserialize_from view offset;
  Ok (DataPackage data meta_info eof, offset).

#[export] Instance data_serializable : Serializable data_package := {
  Serialize := Serialize_data;
  Deserialize_from := Deserialize_data;
}.

End switcher_packages.

(** ** Facts about the object representation *)

Lemma length_flip_loop (l acc : list byte) n : length (flip_loop l n acc) = length acc.
Proof.
  unfold flip_loop. revert acc. induction (seq 0 n) as [|i idx IH]; intros acc; [done|].
  simpl. rewrite IH. destruct (l !! i); [by rewrite length_insert|done].
Qed.

Lemma flip_loop_S (l acc : list byte) n c :
  l !! n = Some c →
  flip_loop l (S n) acc = <[(length l - 1 - n)%nat := c]> (flip_loop l n acc).
Proof. intros Hc. unfold flip_loop. rewrite seq_S, foldl_app. simpl. by rewrite Hc. Qed.

Lemma flip_loop_lookup (l acc : list byte) (n j : nat) :
  (n ≤ length l)%nat → length acc = length l → (j < length l)%nat →
  flip_loop l n acc !! j =
    if decide (length l - 1 - j < n)%nat then l !! (length l - 1 - j)%nat else acc !! j.
Proof.
  revert j. induction n as [|n IH]; intros j Hn Hacc Hj; [done|].
  destruct (lookup_lt_is_Some_2 l n) as [c Hc]; [lia|].
  rewrite (flip_loop_S _ _ _ c) by done.
  destruct (decide (j = length l - 1 - n)%nat) as [->|Hne].
  - rewrite list_lookup_insert_eq by (rewrite length_flip_loop; lia).
    rewrite decide_True by lia. rewrite <- Hc. f_equal. lia.
  - rewrite list_lookup_insert_ne by lia. rewrite IH by lia.
    repeat case_decide; try done; lia.
Qed.

(** [flipByByte] reverses the object representation. *)
Lemma flip_bytes_rev l : flip_bytes l = rev l.
Proof.
  apply list_eq. intros j. unfold flip_bytes.
  destruct (decide (j < length l)%nat).
  - rewrite flip_loop_lookup by (try rewrite length_replicate; lia).
    rewrite decide_True by lia. rewrite rev_reverse, reverse_lookup by done.
    f_equal. lia.
  - rewrite !lookup_ge_None_2; rewrite ?length_flip_loop, ?length_replicate, ?length_rev; lia || done.
Qed.

Lemma length_store e v : length (store e v) = sizeof_int.
Proof. destruct e; unfold store; rewrite ?length_rev; apply length_le_split. Qed.

Lemma load_store e v : load e (store e v) = u32 v.
Proof. destruct e; unfold load, store; rewrite ?rev_involutive, le_combine_split; done. Qed.

Lemma rev_store_Little v : rev (store Endian.Little v) = store Endian.Big v.
Proof. done. Qed.

Lemma store_u32 e v : store e (u32 v) = store e v.
Proof.
  unfold store, wrap.
  assert (le_split sizeof_int (v `mod` 2 ^ 32) = le_split sizeof_int v) as Hs.
  { symmetry. apply (le_split_mod v sizeof_int). }
  by destruct e; rewrite Hs.
Qed.

(** The detection in [Endian::Endian] finds the endianness of the host. *)
Lemma GetEndianType_host `{Platform} : GetEndianType = host.
Proof. unfold GetEndianType. destruct host; vm_compute; done. Qed.

Lemma store_load e bs : length bs = sizeof_int → store e (load e bs) = bs.
Proof.
  intros Hl. unfold store, load. rewrite <- Hl. destruct e.
  - rewrite <- (length_rev bs), split_le_combine. apply rev_involutive.
  - apply split_le_combine.
Qed.

Lemma load_range e bs : length bs = sizeof_int → uint_range 32 (load e bs).
Proof.
  intros Hl. unfold uint_range, load. destruct e.
  - pose proof (le_combine_bound (rev bs)) as Hb. rewrite length_rev, Hl in Hb. done.
  - pose proof (le_combine_bound bs) as Hb. rewrite Hl in Hb. done.
Qed.

(** How a value of type [uint32_t] or [int] is read off a 32-bit pattern: the
    pattern can be recovered from the value. *)
Class Interp (interp : Z → Z) := interp_bits x : uint_range 32 x → u32 (interp x) = x.

#[global] Instance as_uint32_interp : Interp as_uint32.
Proof. intros x Hx. by apply wrap_small. Qed.

#[global] Instance as_int_interp : Interp as_int.
Proof.
  intros x Hx. unfold as_int, to_signed. case_decide; [by apply wrap_small|].
  unfold wrap, uint_range in *. symmetry. apply (Z.mod_unique_pos _ _ (-1)); lia.
Qed.

Lemma store_interp e interp `{!Interp interp} x :
  uint_range 32 x → store e (interp x) = store e x.
Proof. intros Hx. rewrite <- (store_u32 e (interp x)). by rewrite interp_bits. Qed.

Lemma size_app s1 s2 : size (s1 ++ s2) = size s1 + size s2.
Proof. unfold size. rewrite length_app. lia. Qed.

Lemma size_nonneg s : 0 ≤ size s.
Proof. unfold size. lia. Qed.

Lemma size_store e v : size (store e v) = 4.
Proof. unfold size. by rewrite length_store. Qed.

(** Reading the middle part of a buffer. *)
Lemma read_mem_middle (pre mid post : cpp_string) :
  read_mem (pre ++ mid ++ post) (size pre) (size mid) = Ok mid.
Proof.
  unfold read_mem. rewrite decide_True.
  - unfold size. rewrite !Nat2Z.id, drop_app_length, take_app_length. done.
  - rewrite !size_app. pose proof (size_nonneg pre). pose proof (size_nonneg mid).
    pose proof (size_nonneg post). lia.
Qed.

Lemma char_at_middle (pre : cpp_string) c post :
  char_at (pre ++ c :: post) (size pre) = Ok c.
Proof.
  pose proof (read_mem_middle pre [c] post) as Hr. unfold char_at.
  change (size [c]) with 1 in Hr. simpl in Hr. by rewrite Hr.
Qed.

Lemma char_at_head c (post : cpp_string) : char_at (c :: post) 0 = Ok c.
Proof. apply (char_at_middle [] c post). Qed.

Lemma read_mem_short view off n :
  size view < off + n → read_mem view off n = Crash UndefinedBehaviour.
Proof. intros. unfold read_mem. rewrite decide_False by lia. done. Qed.

Lemma memcpy_at_resize app bs :
  memcpy_at (resize app (size app + size bs)) (size app) bs = app ++ bs.
Proof.
  unfold memcpy_at, resize, size.
  rewrite Nat2Z.id, <- Nat2Z.inj_add, Nat2Z.id.
  rewrite (take_ge app) by lia. rewrite take_app_length.
  replace (length app + length bs - length app)%nat with (length bs) by lia.
  rewrite drop_ge by (rewrite length_app, length_replicate; lia).
  by rewrite app_nil_r.
Qed.

Section integral.
Context `{Platform} (interp : Z → Z) `{!Interp interp}.

Lemma flipByByte_Little v :
  host = Endian.Little → store host (flipByByte interp v) = store Endian.Big v.
Proof.
  intros Hh. unfold flipByByte. rewrite flip_bytes_rev.
  rewrite (store_interp _ interp) by (apply load_range; by rewrite length_rev, length_store).
  rewrite store_load by (by rewrite length_rev, length_store). by rewrite Hh.
Qed.

(** Serializing an integer appends its big-endian representation on every
    host. *)
Lemma Serialize_integral_wire v app :
  Serialize_integral interp v app = app ++ store Endian.Big v.
Proof.
  unfold Serialize_integral. rewrite GetEndianType_host.
  assert (store host (if decide (host = Endian.Little) then flipByByte interp v else v)
          = store Endian.Big v) as ->.
  { case_decide as Hh; [by apply flipByByte_Little|]. by destruct host. }
  rewrite <- (memcpy_at_resize app). by rewrite size_store.
Qed.

Lemma Deserialize_integral_wire v pre post :
  Deserialize_integral interp (pre ++ store Endian.Big v ++ post) (size pre)
  = Ok (interp (u32 v), size pre + 4).
Proof.
  unfold Deserialize_integral. rewrite GetEndianType_host.
  change (Z.of_nat sizeof_int) with 4.
  rewrite <- (size_store Endian.Big v) at 1. rewrite read_mem_middle.
  cbn [mbind outcome_bind]. do 2 f_equal. case_decide as Hh.
  - unfold flipByByte. rewrite flip_bytes_rev, (store_interp _ interp).
    2:{ apply load_range, length_store. }
    rewrite store_load by apply length_store. rewrite Hh.
    rewrite <- rev_store_Little, rev_involutive. f_equal. apply (load_store Endian.Little).
  - destruct host; [|done]. f_equal. apply (load_store Endian.Big).
Qed.

Lemma Deserialize_integral_short view off :
  size view < off + 4 → Deserialize_integral interp view off = Crash UndefinedBehaviour.
Proof. intros. unfold Deserialize_integral. by rewrite read_mem_short. Qed.

End integral.

#[local] Opaque store.
Arguments read_mem : simpl never.
Arguments char_at : simpl never.
Arguments Serialize_integral : simpl never.
Arguments Deserialize_integral : simpl never.

(** ** The specializations keep the promise of [SerializableLaws] *)

#[global] Instance uint32_laws `{Platform} : SerializableLaws uint32_t.
Proof.
  refine {| wire_ok := λ '(U32 v), uint_range 32 v;
            encoding := λ '(U32 v), store Endian.Big v |}.
  - intros [v] app Hv. simpl. by rewrite Serialize_integral_wire by apply _.
  - intros [v] pre post Hv. simpl. rewrite Deserialize_integral_wire by apply _.
    simpl. rewrite size_store. unfold as_uint32. by rewrite wrap_small.
Defined.

Definition int_encoding (v : int_t) : cpp_string := let '(I32 z) := v in store Endian.Big z.
Definition int_ok (v : int_t) : Prop := let '(I32 z) := v in sint_range 32 z.

#[global] Instance int_laws `{Platform} : SerializableLaws int_t.
Proof.
  refine {| wire_ok := int_ok; encoding := int_encoding |}.
  - intros [v] app Hv. simpl. by rewrite Serialize_integral_wire by apply _.
  - intros [v] pre post Hv. simpl. rewrite Deserialize_integral_wire by apply _.
    simpl. rewrite size_store. unfold as_int. by rewrite to_signed_wrap.
Defined.

(** Composite encodings: the second component starts where the first ends. *)
Lemma Deserialize_spec_at {A} `{SerializableLaws A} v view off pre post :
  wire_ok v → view = pre ++ encoding v ++ post → off = size pre →
  Deserialize_from view off = Ok (v, off + size (encoding v)).
Proof. intros Hv -> ->. by apply Deserialize_spec. Qed.

Lemma Serialize_spec_bind {A B} `{SerializableLaws A} v app (k : cpp_string → outcome B) :
  wire_ok v → Serialize v app ≫= k = k (app ++ encoding v).
Proof. intros Hv. by rewrite Serialize_spec. Qed.

(** The steps of a [Serialize] or [Deserialize] made of a sequence of fields:
    [wire_out] writes all fields, [wire_in v pre post] reads the field [v] between
    [pre] and [post], [wire_end] compares the final offsets. *)
Ltac wire_out :=
  repeat (rewrite Serialize_spec_bind; [|done]);
  rewrite Serialize_spec; [|done];
  unfold encoding; cbn; rewrite <- ?app_assoc; reflexivity.
Ltac wire_in v pre post :=
  rewrite (Deserialize_spec_at v _ _ pre post);
  [ cbn [mbind outcome_bind]
  | done
  | rewrite <- ?app_assoc; reflexivity
  | rewrite ?size_app; cbn; rewrite ?size_app; lia ].
Ltac wire_proj :=
  cbn [eof bin_data rq_topic rq_type rq_timeout_ms rs_topic rs_wait_ms rs_peer_addr
       rs_response_code dp_data dp_meta_info dp_eof app].
Ltac wire_end := rewrite ?size_app; cbn; rewrite ?size_app; do 2 f_equal; lia.

Section laws.
Context `{Platform} (lax : strict_index = false).

Lemma address_of_lax view off :
  0 ≤ off ≤ size view → address_of view off = Ok tt.
Proof using lax. intros. unfold address_of. rewrite lax, decide_True by lia. done. Qed.

Definition string_encoding (s : cpp_string) : cpp_string :=
  store Endian.Big (size s) ++ s.

Lemma Serialize_string_wire s app :
  size s < 2 ^ 32 → Serialize_string s app = Ok (app ++ string_encoding s).
Proof.
  intros Hs. pose proof (size_nonneg s). unfold Serialize_string, cpp_assert.
  rewrite bool_decide_true by lia. cbn [mbind outcome_bind].
  wrap_id.
  rewrite (Serialize_spec (U32 (size s))) by (simpl; unfold uint_range; lia).
  cbn. by rewrite <- app_assoc.
Qed.

Lemma Deserialize_string_wire s pre post :
  size s < 2 ^ 32 →
  Deserialize_string (pre ++ string_encoding s ++ post) (size pre)
  = Ok (s, size pre + size (string_encoding s)).
Proof using lax.
  intros Hs. pose proof (size_nonneg s). unfold Deserialize_string, string_encoding.
  rewrite (Deserialize_spec_at (U32 (size s)) _ _ pre (s ++ post));
    [|simpl; unfold uint_range; lia|by rewrite <- app_assoc|done].
  cbn. rewrite size_store, address_of_lax.
  2:{ rewrite !size_app, size_store. pose proof (size_nonneg pre).
      pose proof (size_nonneg post). lia. }
  cbn. rewrite <- (size_store Endian.Big (size s)), <- size_app.
  rewrite <- (app_assoc _ s post), (app_assoc pre), read_mem_middle. cbn.
  rewrite !size_app. do 2 f_equal. lia.
Qed.

Definition string_laws : SerializableLaws cpp_string.
Proof using lax.
  refine {| wire_ok := λ s : cpp_string, size s < 2 ^ 32; encoding := string_encoding |}.
  - intros. by apply Serialize_string_wire.
  - intros. by apply Deserialize_string_wire.
Defined.
#[local] Existing Instance string_laws.

Definition bool_laws : SerializableLaws bool.
Proof.
  refine {| wire_ok := λ _, True;
            encoding := λ b : bool, [if b then Byte.x74 else Byte.x66] |}.
  - done.
  - intros b pre post _. simpl. unfold Deserialize_bool.
    rewrite char_at_middle. by destruct b.
Defined.
#[local] Existing Instance bool_laws.

Definition package_encoding (p : package) : cpp_string :=
  (if eof p then Byte.x65 else Byte.x6e) :: string_encoding (bin_data p).

Definition package_laws : SerializableLaws package.
Proof using lax.
  refine {| wire_ok := λ p, size (bin_data p) < 2 ^ 32; encoding := package_encoding |}.
  - intros [e d] app Hd. simpl in *. unfold Serialize_package. simpl.
    rewrite Serialize_string_wire by done. by rewrite <- app_assoc.
  - intros [e d] pre post Hd. simpl in *. unfold Deserialize_package, package_encoding.
    rewrite decide_False by (by destruct pre). wire_proj.
    rewrite char_at_middle. cbn [mbind outcome_bind].
    rewrite decide_False by (destruct e; intros [? ?]; congruence).
    rewrite (Deserialize_spec_at d _ _ (pre ++ [if e then Byte.x65 else Byte.x6e]) post);
      [|done|by rewrite <- app_assoc|by rewrite size_app].
    cbn. unfold size; simpl. destruct e; cbn; do 2 f_equal; lia.
Defined.

(** The three packages of the switcher: concatenations of fields. *)

Definition request_encoding (v : request_package) : cpp_string :=
  string_encoding (rq_topic v) ++ int_encoding (rq_type v) ++ int_encoding (rq_timeout_ms v).

Definition request_laws : SerializableLaws request_package.
Proof using lax.
  refine {| wire_ok := λ v, size (rq_topic v) < 2 ^ 32 ∧ int_ok (rq_type v) ∧ int_ok (rq_timeout_ms v);
            encoding := request_encoding |}.
  - intros [t ty tm] app (Ht & Hty & Htm). simpl in *. unfold Serialize_request. wire_out.
  - intros [t ty tm] pre post (Ht & Hty & Htm). simpl in *.
    unfold Deserialize_request, request_encoding. wire_proj.
    wire_in t pre (int_encoding ty ++ int_encoding tm ++ post).
    wire_in ty (pre ++ string_encoding t) (int_encoding tm ++ post).
    wire_in tm (pre ++ string_encoding t ++ int_encoding ty) post.
    wire_end.
Defined.

Definition response_encoding (v : response_package) : cpp_string :=
  string_encoding (rs_topic v) ++ int_encoding (rs_wait_ms v) ++
  string_encoding (rs_peer_addr v) ++ int_encoding (rs_response_code v).

Definition response_laws : SerializableLaws response_package.
Proof using lax.
  refine {| wire_ok := λ v, size (rs_topic v) < 2 ^ 32 ∧ int_ok (rs_wait_ms v) ∧
                            size (rs_peer_addr v) < 2 ^ 32 ∧ int_ok (rs_response_code v);
            encoding := response_encoding |}.
  - intros [t w p c] app (Ht & Hw & Hp & Hc). simpl in *. unfold Serialize_response. wire_out.
  - intros [t w p c] pre post (Ht & Hw & Hp & Hc). simpl in *.
    unfold Deserialize_response, response_encoding. wire_proj.
    wire_in t pre (int_encoding w ++ string_encoding p ++ int_encoding c ++ post).
    wire_in w (pre ++ string_encoding t) (string_encoding p ++ int_encoding c ++ post).
    wire_in p (pre ++ string_encoding t ++ int_encoding w) (int_encoding c ++ post).
    wire_in c (pre ++ string_encoding t ++ int_encoding w ++ string_encoding p) post.
    wire_end.
Defined.

Definition data_encoding (v : data_package) : cpp_string :=
  string_encoding (dp_data v) ++ string_encoding (dp_meta_info v) ++
  [if dp_eof v then Byte.x74 else Byte.x66].

Definition data_laws : SerializableLaws data_package.
Proof using lax.
  refine {| wire_ok := λ v, size (dp_data v) < 2 ^ 32 ∧ size (dp_meta_info v) < 2 ^ 32;
            encoding := data_encoding |}.
  - intros [d m e] app (Hd & Hm). simpl in *. unfold Serialize_data. wire_out.
  - intros [d m e] pre post (Hd & Hm). simpl in *.
    unfold Deserialize_data, data_encoding. wire_proj.
    wire_in d pre (string_encoding m ++ [if e then Byte.x74 else Byte.x66] ++ post).
    wire_in m (pre ++ string_encoding d) ([if e then Byte.x74 else Byte.x66] ++ post).
    wire_in e (pre ++ string_encoding d ++ string_encoding m) post.
    wire_end.
Defined.

End laws.

(** ** Round trips *)

Lemma Deserialize_whole {A} `{SerializableLaws A} v :
  wire_ok v → Deserialize (encoding v) = Ok v.
Proof.
  intros Hv. unfold Deserialize.
  rewrite (Deserialize_spec_at v _ _ [] []) by (done || by rewrite app_nil_r).
  cbn. unfold cpp_assert. by rewrite bool_decide_true.
Qed.

(** The value put on the wire by one host is the value read by another one. *)
Definition roundtrip {A} (S1 S2 : Serializable A) (ok : A → Prop) : Prop :=
  ∀ v, ok v → ∃ bs, @Serialize A S1 v [] = Ok bs ∧ @Deserialize A S2 bs = Ok v.

Definition lax_host (P : Platform) : Platform := {| host := @host P; strict_index := false |}.

Lemma roundtrip_laws {A} (S1 S2 : Serializable A)
    (L1 : SerializableLaws A (H:=S1)) (L2 : SerializableLaws A (H:=S2)) :
  (∀ v, @encoding A S1 L1 v = @encoding A S2 L2 v) →
  (∀ v, @wire_ok A S1 L1 v ↔ @wire_ok A S2 L2 v) →
  roundtrip S1 S2 (@wire_ok A S1 L1).
Proof.
  intros He Ho v Hv. exists (@encoding A S1 L1 v). split.
  - by rewrite (@Serialize_spec A S1 L1 v []).
  - rewrite He. apply Deserialize_whole. by apply Ho.
Qed.

(** C32: Every package type of the library survives the wire between any two hosts:
    whatever the endianness of the sender and of the receiver, deserializing
    what was serialized gives back the package, provided that its integers fit
    into [int], its strings are shorter than [2 ^ 32] bytes, and the index of
    [std::string_view] may be its length. *)
Theorem wire_roundtrip_portable (P1 P2 : Platform) :
  @strict_index P2 = false →
  roundtrip (@package_serializable P1) (@package_serializable P2)
            (λ p, size (bin_data p) < 2 ^ 32) ∧
  roundtrip (@request_serializable P1) (@request_serializable P2)
            (λ v, size (rq_topic v) < 2 ^ 32 ∧ int_ok (rq_type v) ∧ int_ok (rq_timeout_ms v)) ∧
  roundtrip (@response_serializable P1) (@response_serializable P2)
            (λ v, size (rs_topic v) < 2 ^ 32 ∧ int_ok (rs_wait_ms v) ∧
                  size (rs_peer_addr v) < 2 ^ 32 ∧ int_ok (rs_response_code v)) ∧
  roundtrip (@data_serializable P1) (@data_serializable P2)
            (λ v, size (dp_data v) < 2 ^ 32 ∧ size (dp_meta_info v) < 2 ^ 32).
Proof.
  intros lax2. set (P1' := lax_host P1). assert (@strict_index P1' = false) as lax1 by done.
  repeat split.
  - apply (roundtrip_laws (@package_serializable P1') (@package_serializable P2)
             (package_laws lax1) (package_laws lax2)); done.
  - apply (roundtrip_laws (@request_serializable P1') (@request_serializable P2)
             (request_laws lax1) (request_laws lax2)); done.
  - apply (roundtrip_laws (@response_serializable P1') (@response_serializable P2)
             (response_laws lax1) (response_laws lax2)); done.
  - apply (roundtrip_laws (@data_serializable P1') (@data_serializable P2)
             (data_laws lax1) (data_laws lax2)); done.
Qed.

(** A length field is not checked against the buffer it comes from: when it
    announces more bytes than the buffer holds, [Deserialize<std::string>]
    reads out of bounds. *)
Theorem Deserialize_string_unchecked `{Platform} (n : Z) (rest : cpp_string) :
  uint_range 32 n → size rest < n →
  @Deserialize cpp_string string_serializable (store Endian.Big n ++ rest) = Crash UndefinedBehaviour.
Proof.
  intros Hn Hr. unfold Deserialize. cbn [Deserialize_from string_serializable].
  unfold Deserialize_string.
  rewrite (Deserialize_spec_at (U32 n) _ _ [] rest) by done. cbn.
  unfold address_of. case_decide; [|done]. cbn.
  rewrite read_mem_short; [done|]. rewrite size_app, size_store. lia.
Qed.

(** [Deserialize<package>] rejects an empty buffer and an unknown tag with an
    exception; in a buffer that starts with a valid tag, only the [bin_data]
    field can still go wrong. *)
Theorem Deserialize_package_errors `{Platform} (c : byte) (rest : cpp_string) :
  @Deserialize package package_serializable [] = Throw "deserialize package error, empty" ∧
  (c ≠ Byte.x65 → c ≠ Byte.x6e →
   @Deserialize package package_serializable (c :: rest)
   = Throw "deserialize package error, parse invalid field") ∧
  (c = Byte.x65 ∨ c = Byte.x6e →
   ∀ e, @Deserialize package package_serializable (c :: rest) ≠ Throw e).
Proof.
  split; [done|]. unfold Deserialize. cbn [Deserialize_from package_serializable].
  unfold Deserialize_package. rewrite (decide_False (P := c :: rest = [])) by done.
  rewrite char_at_head. cbn [mbind outcome_bind]. split.
  - intros. by rewrite decide_True.
  - intros Hc e. rewrite decide_False by (intros [? ?]; destruct Hc; congruence).
    unfold Deserialize_string. cbn. unfold Deserialize_integral, read_mem, address_of, cpp_assert.
    repeat (case_decide || case_bool_decide || cbn); done.
Qed.

(** Where [std::string_view::operator[]] enforces [pos < size()], the end of
    file package that [SocketSink] writes cannot be deserialized: its empty
    [bin_data] makes [Deserialize<std::string>] form [&view[view.size()]]. *)
Theorem eof_package_strict (P : Platform) :
  @strict_index P = true →
  ∃ bs, Serialize (Package true []) [] = Ok bs ∧
        @Deserialize package package_serializable bs = Crash UndefinedBehaviour.
Proof.
  intros Hs. eexists. split.
  - apply (Serialize_string_wire [] [Byte.x65]). done.
  - unfold string_encoding. rewrite app_nil_r. change (size []) with 0. unfold Deserialize. cbn [Deserialize_from package_serializable].
    unfold Deserialize_package. cbn [app eof bin_data].
    rewrite (decide_False (P := _ :: _ = [])) by done. rewrite char_at_head.
    cbn [mbind outcome_bind]. rewrite decide_False by (intros [? ?]; congruence).
    cbn [Deserialize_from string_serializable]. unfold Deserialize_string.
    rewrite (Deserialize_spec_at (U32 0) _ _ [Byte.x65] []) by done.
    cbn. unfold address_of. rewrite Hs, decide_False; [done|].
    unfold size. simpl length. rewrite length_store. unfold sizeof_int. lia.
Qed.

(** ** Witnesses *)

Definition little_host : Platform := {| host := Endian.Little; strict_index := false |}.
Definition big_host : Platform := {| host := Endian.Big; strict_index := false |}.
Definition hardened_host : Platform := {| host := Endian.Little; strict_index := true |}.

Definition sample_request : request_package :=
  RequestPackage [Byte.x74; Byte.x31] (I32 1) (I32 (-7)).

Lemma wire_roundtrip_portable_witness :
  ∃ bs, @Serialize _ (@request_serializable little_host) sample_request [] = Ok bs ∧
        @Deserialize _ (@request_serializable big_host) bs = Ok sample_request.
Proof.
  destruct (wire_roundtrip_portable little_host big_host eq_refl) as (_ & Hr & _).
  refine (Hr sample_request _). repeat split; done.
Defined.

Lemma Deserialize_string_unchecked_witness :
  @Deserialize cpp_string (@string_serializable little_host)
    (store Endian.Big 1000 ++ [Byte.x41]) = Crash UndefinedBehaviour.
Proof. apply (@Deserialize_string_unchecked little_host 1000 [Byte.x41]); done. Defined.

Lemma Deserialize_package_errors_witness :
  @Deserialize package (@package_serializable little_host) [Byte.x41]
  = Throw "deserialize package error, parse invalid field".
Proof.
  destruct (@Deserialize_package_errors little_host Byte.x41 []) as (_ & Hr & _).
  apply Hr; done.
Defined.

Lemma eof_package_strict_witness :
  ∃ bs, @Serialize _ (@package_serializable hardened_host) (Package true []) [] = Ok bs ∧
        @Deserialize package (@package_serializable hardened_host) bs = Crash UndefinedBehaviour.
Proof. apply (eof_package_strict hardened_host). done. Defined.
