(* ===== verification/Queue.v ===== *)
(** * The bounded queue: [queue/boundedqueue.h]

    Coroutines call [Pop], [TryPop], [Push] and [TryPush] on one shared queue.
    This file models the calls at the granularity of the coroutine mutex
    [mut_] and of the two condition variables [empty_cv_] and [filled_cv_]:
    a coroutine is suspended where [co_await] suspends it, and every other
    coroutine may run in between.  The theorems show that the mutex protects
    the queue, that the capacity is respected, that no wake-up is lost, and
    that each call takes effect atomically (the file [Node] builds on the
    atomic queue only). *)

From stdpp Require Import base gmap strings list fin_maps sorting.
From S2P Require Import Prelude.

(** ** Condition variables

    [async_simple::coro::ConditionVariable] is not part of the repository.
    What the queue relies on: [wait] suspends the caller, [notifyOne] wakes
    one of the suspended callers if there is one (which one is not said). *)
Class CondVar (tid : Type) := {
  cv : Type;
  cv_init : cv;
  cv_waiters : cv → list tid;
  cv_park : tid → cv → cv;
  cv_notifyOne : cv → option (tid * cv);
}.
Arguments cv tid {_}.

Class CondVarLaws (tid : Type) `{CondVar tid} := {
  cv_waiters_init : cv_waiters cv_init = [];
  cv_waiters_park t c : cv_waiters (cv_park t c) ≡ₚ t :: cv_waiters c;
  cv_notify_none c : cv_notifyOne c = None → cv_waiters c = [];
  cv_notify_some c t c' :
    cv_notifyOne c = Some (t, c') → cv_waiters c ≡ₚ t :: cv_waiters c';
}.

(** ** The calls and their program points *)

Section bounded_queue.
Context {T : Type} {tid : Type} `{Countable tid} `{CondVar tid}.

Inductive call : Type :=
| Pop | TryPop | Push (element : T) | TryPush (element : T).

Inductive result : Type :=
| PopResult (r : T) | TryPopResult (r : option T) | PushResult | TryPushResult (r : bool).

Inductive point : Type :=
| Start (c : call)     (* [co_await mut_.coScopedLock()] *)
| Locked (c : call)    (* lock held, before the [if] *)
| Predicate (c : call) (* lock held, inside [wait(mut_, pred)], before [pred()] *)
| Parked (c : call)    (* suspended by [wait], lock released *)
| Relock (c : call)    (* notified, before the lock is taken again *)
| Body (c : call)      (* lock held, before the element is moved *)
| Unlock (r : result)  (* before the scoped lock is released *)
| Returned (r : result).

Record queue_state := QueueState {
  queue_ : list T;
  capacity_ : Z;
  mut_ : option tid;
  empty_cv_ : cv tid;
  filled_cv_ : cv tid;
  points : gmap tid point;
}.

Definition full (s : queue_state) : bool :=
  bool_decide (Z.of_nat (length (queue_ s)) = capacity_ s).

Definition goto (t : tid) (p : point) (s : queue_state) : queue_state :=
  QueueState (queue_ s) (capacity_ s) (mut_ s) (empty_cv_ s) (filled_cv_ s) (<[t := p]> (points s)).

Definition set_mut (m : option tid) (s : queue_state) : queue_state :=
  QueueState (queue_ s) (capacity_ s) m (empty_cv_ s) (filled_cv_ s) (points s).

Definition set_queue (q : list T) (s : queue_state) : queue_state :=
  QueueState q (capacity_ s) (mut_ s) (empty_cv_ s) (filled_cv_ s) (points s).

(** A coroutine that [notifyOne] picks goes on to take the lock again. *)
Definition wake (t : tid) (ps : gmap tid point) : gmap tid point :=
  match ps !! t with
  | Some (Parked c) => <[t := Relock c]> ps
  | _ => ps
  end.

Definition notify_empty (s : queue_state) : queue_state :=
  match cv_notifyOne (empty_cv_ s) with
  | None => s
  | Some (t, c) =>
      QueueState (queue_ s) (capacity_ s) (mut_ s) c (filled_cv_ s) (wake t (points s))
  end.

Definition notify_filled (s : queue_state) : queue_state :=
  match cv_notifyOne (filled_cv_ s) with
  | None => s
  | Some (t, c) =>
      QueueState (queue_ s) (capacity_ s) (mut_ s) (empty_cv_ s) c (wake t (points s))
  end.

Definition park_empty (t : tid) (s : queue_state) : queue_state :=
  QueueState (queue_ s) (capacity_ s) None (cv_park t (empty_cv_ s)) (filled_cv_ s)
    (<[t := Parked Pop]> (points s)).

Definition park_filled (t : tid) (e : T) (s : queue_state) : queue_state :=
  QueueState (queue_ s) (capacity_ s) None (empty_cv_ s) (cv_park t (filled_cv_ s))
    (<[t := Parked (Push e)]> (points s)).

(** [if (queue_.empty())] / [if (queue_.size() == Capacity())] *)
Definition step_locked (t : tid) (c : call) (s : queue_state) : queue_state :=
  match c with
  | Pop => goto t (if decide (queue_ s = []) then Predicate Pop else Body Pop) s
  | TryPop => goto t (if decide (queue_ s = []) then Unlock (TryPopResult None) else Body TryPop) s
  | Push e => goto t (if full s then Predicate (Push e) else Body (Push e)) s
  | TryPush e => goto t (if full s then Unlock (TryPushResult false) else Body (TryPush e)) s
  end.

(** [while (!pred()) wait]: the predicates given to the condition variables. *)
Definition step_predicate (t : tid) (c : call) (s : queue_state) : option queue_state :=
  match c with
  | Pop => Some (if decide (queue_ s = []) then park_empty t s else goto t (Body Pop) s)
  | Push e => Some (if decide (Z.of_nat (length (queue_ s)) < capacity_ s)%Z
                    then goto t (Body (Push e)) s else park_filled t e s)
  | _ => None
  end.

(** The rest of the critical section: move the element, notify.  Nothing else
    can run here, since the lock is held. *)
Definition step_body (t : tid) (c : call) (s : queue_state) : option queue_state :=
  match c with
  | Pop =>
      match queue_ s with
      | x :: q => Some (goto t (Unlock (PopResult x)) (notify_filled (set_queue q s)))
      | [] => None
      end
  | TryPop =>
      match queue_ s with
      | x :: q => Some (goto t (Unlock (TryPopResult (Some x))) (notify_filled (set_queue q s)))
      | [] => None
      end
  | Push e =>
      Some (goto t (Unlock PushResult) (notify_empty (set_queue (queue_ s ++ [e]) s)))
  | TryPush e =>
      Some (goto t (Unlock (TryPushResult true)) (notify_empty (set_queue (queue_ s ++ [e]) s)))
  end.

(** One step of coroutine [t]; [None] when it cannot run. *)
Definition qstep (t : tid) (s : queue_state) : option queue_state :=
  match points s !! t with
  | Some (Start c) => if decide (mut_ s = None) then Some (goto t (Locked c) (set_mut (Some t) s)) else None
  | Some (Locked c) => Some (step_locked t c s)
  | Some (Predicate c) => step_predicate t c s
  | Some (Parked c) => None
  | Some (Relock c) => if decide (mut_ s = None) then Some (goto t (Predicate c) (set_mut (Some t) s)) else None
  | Some (Body c) => step_body t c s
  | Some (Unlock r) => Some (goto t (Returned r) (set_mut None s))
  | Some (Returned r) => None
  | None => None
  end.

(** The queue as [BoundedQueue(size_t capacity)] makes it, with the calls that
    the coroutines are about to make. *)
Definition initial (capacity : Z) (calls : gmap tid call) : queue_state :=
  QueueState [] capacity None cv_init cv_init (Start <$> calls).

Inductive reachable (capacity : Z) (calls : gmap tid call) : queue_state → Prop :=
| reachable_init : reachable capacity calls (initial capacity calls)
| reachable_step s t s' :
    reachable capacity calls s → qstep t s = Some s' → reachable capacity calls s'.

(** ** The abstract queue: every call is one atomic step *)

Definition spec_call (c : call) (q : list T) (capacity : Z) : option (result * list T) :=
  match c, q with
  | Pop, [] => None
  | Pop, x :: q => Some (PopResult x, q)
  | TryPop, [] => Some (TryPopResult None, [])
  | TryPop, x :: q => Some (TryPopResult (Some x), q)
  | Push e, q => if decide (Z.of_nat (length q) < capacity)%Z then Some (PushResult, q ++ [e]) else None
  | TryPush e, q =>
      if decide (Z.of_nat (length q) < capacity)%Z then Some (TryPushResult true, q ++ [e])
      else Some (TryPushResult false, q)
  end.

Record spec_state := SpecState {
  spec_queue : list T;
  spec_capacity : Z;
  spec_calls : gmap tid (call + result);
}.

Definition spec_step (t : tid) (a : spec_state) : option spec_state :=
  match spec_calls a !! t with
  | Some (inl c) =>
      '(r, q) ← spec_call c (spec_queue a) (spec_capacity a);
      Some (SpecState q (spec_capacity a) (<[t := inr r]> (spec_calls a)))
  | _ => None
  end.

(** A call is over, for the abstract queue, once its element has moved. *)
Definition abs_point (p : point) : call + result :=
  match p with
  | Start c | Locked c | Predicate c | Parked c | Relock c | Body c => inl c
  | Unlock r | Returned r => inr r
  end.

Definition abs (s : queue_state) : spec_state :=
  SpecState (queue_ s) (capacity_ s) (abs_point <$> points s).

(** ** Executions with the log of the calls that took effect, in order *)

Definition effect (t : tid) (s s' : queue_state) : list (call * result) :=
  match abs_point <$> points s !! t, abs_point <$> points s' !! t with
  | Some (inl c), Some (inr r) => [(c, r)]
  | _, _ => []
  end.

Inductive qexec (s : queue_state) : list (call * result) → queue_state → Prop :=
| qexec_refl : qexec s [] s
| qexec_step log s1 t s2 :
    qexec s log s1 → qstep t s1 = Some s2 → qexec s (log ++ effect t s1 s2) s2.

Definition removed (e : call * result) : list T :=
  match e.2 with PopResult x | TryPopResult (Some x) => [x] | _ => [] end.

Definition inserted (e : call * result) : list T :=
  match e with
  | (Push x, PushResult) | (TryPush x, TryPushResult true) => [x]
  | _ => []
  end.

(** ** Invariant *)

Definition in_critical (p : point) : bool :=
  match p with Locked _ | Predicate _ | Body _ | Unlock _ => true | _ => false end.

(** The poppers (pushers) that have been notified, or have not been suspended
    yet, and have not moved their element. *)
Definition awake_pop (p : point) : bool :=
  match p with Relock Pop | Predicate Pop | Body Pop => true | _ => false end.
Definition awake_push (p : point) : bool :=
  match p with Relock (Push _) | Predicate (Push _) | Body (Push _) => true | _ => false end.

Definition waits_for_element (p : point) : Prop := p = Parked Pop.
Definition waits_for_room (p : point) : Prop := ∃ e, p = Parked (Push e).

(** Only [Pop] and [Push] ever wait. *)
Definition blocking (c : call) : bool :=
  match c with Pop | Push _ => true | _ => false end.

Definition point_ok (s : queue_state) (p : point) : Prop :=
  match p with
  | Predicate c | Relock c | Parked c => blocking c = true
  | Body (Pop | TryPop) => queue_ s ≠ []
  | Body (Push _ | TryPush _) => (Z.of_nat (length (queue_ s)) < capacity_ s)%Z
  | _ => True
  end.

Record queue_inv (s : queue_state) : Prop := {
  inv_mutex t p : points s !! t = Some p → (mut_ s = Some t ↔ in_critical p = true);
  inv_owner t : mut_ s = Some t → is_Some (points s !! t);
  inv_capacity : (Z.of_nat (length (queue_ s)) ≤ capacity_ s)%Z;
  inv_points t p : points s !! t = Some p → point_ok s p;
  inv_empty_cv t : t ∈ cv_waiters (empty_cv_ s) ↔ points s !! t = Some (Parked Pop);
  inv_filled_cv t : t ∈ cv_waiters (filled_cv_ s) ↔ ∃ e, points s !! t = Some (Parked (Push e));
  inv_empty_nodup : NoDup (cv_waiters (empty_cv_ s));
  inv_filled_nodup : NoDup (cv_waiters (filled_cv_ s));
  (** no lost wake-up: while a popper is suspended, every element in the queue
      has an awake popper coming for it; and dually for free slots *)
  inv_wake_pop : cv_waiters (empty_cv_ s) ≠ [] →
    length (queue_ s) ≤ count_if awake_pop (points s);
  inv_wake_push : cv_waiters (filled_cv_ s) ≠ [] →
    (capacity_ s - Z.of_nat (length (queue_ s)) ≤ Z.of_nat (count_if awake_push (points s)))%Z;
}.

(** ** The invariant is preserved *)

Context `{!CondVarLaws tid}.
Implicit Types (s : queue_state) (t : tid) (c : call).

Lemma inv_init capacity calls : (0 ≤ capacity)%Z → queue_inv (initial capacity calls).
Proof.
  intros Hc.
  assert (∀ t p, (Start <$> calls) !! t = Some p → ∃ c, p = Start c) as Hstart.
  { intros t p Hp. apply lookup_fmap_Some in Hp as (c & <- & _). eauto. }
  split; simpl; try done.
  - intros t p (c & ->)%Hstart. split; done.
  - intros t p (c & ->)%Hstart. done.
  - intros t. rewrite cv_waiters_init. split; [by rewrite elem_of_nil|].
    intros (c & ?)%Hstart. done.
  - intros t. rewrite cv_waiters_init. split; [by rewrite elem_of_nil|].
    intros (e & (c & ?)%Hstart). done.
  - rewrite cv_waiters_init. constructor.
  - rewrite cv_waiters_init. constructor.
  - by rewrite cv_waiters_init.
  - by rewrite cv_waiters_init.
Qed.

Definition is_parked (p : point) : bool :=
  match p with Parked _ => true | _ => false end.

(** While [t] is in its critical section, nobody else is. *)
Lemma critical_unique s t t' p p' :
  queue_inv s → points s !! t = Some p → points s !! t' = Some p' →
  in_critical p = true → in_critical p' = true → t = t'.
Proof.
  intros Hinv Hp Hp' Hc Hc'.
  apply (inv_mutex _ Hinv t p Hp) in Hc. apply (inv_mutex _ Hinv t' p' Hp') in Hc'. congruence.
Qed.

Lemma others_not_critical s t p t' q :
  queue_inv s → points s !! t = Some p → in_critical p = true →
  t ≠ t' → points s !! t' = Some q → in_critical q = false.
Proof.
  intros Hinv Hp Hc Hne Hq. apply not_true_iff_false. intros Hc'.
  eauto using critical_unique.
Qed.

Lemma critical_owner s t p :
  queue_inv s → points s !! t = Some p → in_critical p = true → mut_ s = Some t.
Proof. intros Hinv Hp Hc. by apply (inv_mutex _ Hinv t p Hp). Qed.

(** Points that need nothing of the queue's contents. *)
Lemma point_ok_other s s' p :
  in_critical p = false → point_ok s p → point_ok s' p.
Proof. by destruct p. Qed.

(** A step that only moves [t] from a point to another one, none of them
    [Parked], and takes, keeps or releases the lock accordingly. *)
Lemma inv_goto s t p p' m :
  queue_inv s → points s !! t = Some p →
  is_parked p = false → is_parked p' = false →
  (mut_ s = None ∨ mut_ s = Some t) →
  m = (if in_critical p' then Some t else None) →
  point_ok s p' →
  Nat.b2n (awake_pop p) ≤ Nat.b2n (awake_pop p') →
  Nat.b2n (awake_push p) ≤ Nat.b2n (awake_push p') →
  queue_inv (goto t p' (set_mut m s)).
Proof.
  intros Hinv Hp Hnp Hnp' Hm -> Hok Hpop Hpush.
  pose proof (count_if_update awake_pop _ _ _ p' Hp) as Cpop.
  pose proof (count_if_update awake_push _ _ _ p' Hp) as Cpush.
  split; simpl.
  - intros t' q. rewrite lookup_insert. case_decide as Ht; intros Hq.
    + simplify_eq. destruct (in_critical q); naive_solver.
    + assert (in_critical q = false) as ->.
      { apply not_true_iff_false. intros Hc. apply (inv_mutex _ Hinv _ _ Hq) in Hc.
        destruct Hm; congruence. }
      destruct (in_critical p'); naive_solver.
  - intros t'. destruct (in_critical p'); [|done]. intros [= <-]. rewrite lookup_insert_eq. eauto.
  - apply (inv_capacity _ Hinv).
  - intros t' q. rewrite lookup_insert. case_decide; intros Hq; [by simplify_eq|].
    apply (inv_points _ Hinv _ _ Hq).
  - intros t'. rewrite (inv_empty_cv _ Hinv), lookup_insert. case_decide as Ht; [|done].
    subst. rewrite Hp. split; intros [= ->]; done.
  - intros t'. rewrite (inv_filled_cv _ Hinv), lookup_insert. case_decide as Ht; [|done].
    subst. rewrite Hp. split; intros (e & [= ->]); done.
  - apply (inv_empty_nodup _ Hinv).
  - apply (inv_filled_nodup _ Hinv).
  - intros Hw. apply (inv_wake_pop _ Hinv) in Hw. lia.
  - intros Hw. apply (inv_wake_push _ Hinv) in Hw. lia.
Qed.

Lemma elem_of_park t t' (c : cv tid) :
  t' ∈ cv_waiters (cv_park t c) ↔ t' = t ∨ t' ∈ cv_waiters c.
Proof. by rewrite cv_waiters_park, elem_of_cons. Qed.

(** Suspending [t] on [empty_cv_]. *)
Lemma inv_park_empty s t :
  queue_inv s → points s !! t = Some (Predicate Pop) → queue_ s = [] →
  queue_inv (park_empty t s).
Proof.
  intros Hinv Hp Hq.
  pose proof (count_if_update awake_push _ _ _ (Parked Pop) Hp) as Cpush. simpl in Cpush.
  split; simpl.
  - intros t' q. rewrite lookup_insert. case_decide as Ht; intros Hq'; [by simplify_eq|].
    by rewrite (others_not_critical s t _ t' q Hinv Hp).
  - done.
  - apply (inv_capacity _ Hinv).
  - intros t' q. rewrite lookup_insert. case_decide; intros Hq'; [by simplify_eq|].
    apply (inv_points _ Hinv _ _ Hq').
  - intros t'. rewrite elem_of_park, (inv_empty_cv _ Hinv), lookup_insert.
    case_decide; naive_solver.
  - intros t'. rewrite (inv_filled_cv _ Hinv), lookup_insert. case_decide as Ht; [|done].
    subst. rewrite Hp. naive_solver.
  - rewrite cv_waiters_park. constructor; [|apply (inv_empty_nodup _ Hinv)].
    rewrite (inv_empty_cv _ Hinv), Hp. done.
  - apply (inv_filled_nodup _ Hinv).
  - intros _. rewrite Hq. simpl. lia.
  - intros Hw. apply (inv_wake_push _ Hinv) in Hw. lia.
Qed.

(** Suspending [t] on [filled_cv_]. *)
Lemma inv_park_filled s t e :
  queue_inv s → points s !! t = Some (Predicate (Push e)) →
  (capacity_ s ≤ Z.of_nat (length (queue_ s)))%Z →
  queue_inv (park_filled t e s).
Proof.
  intros Hinv Hp Hq.
  pose proof (count_if_update awake_pop _ _ _ (Parked (Push e)) Hp) as Cpop. simpl in Cpop.
  split; simpl.
  - intros t' q. rewrite lookup_insert. case_decide as Ht; intros Hq'; [by simplify_eq|].
    by rewrite (others_not_critical s t _ t' q Hinv Hp).
  - done.
  - apply (inv_capacity _ Hinv).
  - intros t' q. rewrite lookup_insert. case_decide; intros Hq'; [by simplify_eq|].
    apply (inv_points _ Hinv _ _ Hq').
  - intros t'. rewrite (inv_empty_cv _ Hinv), lookup_insert. case_decide as Ht; [|done].
    subst. rewrite Hp. naive_solver.
  - intros t'. rewrite elem_of_park, (inv_filled_cv _ Hinv), lookup_insert.
    case_decide; naive_solver.
  - apply (inv_empty_nodup _ Hinv).
  - rewrite cv_waiters_park. constructor; [|apply (inv_filled_nodup _ Hinv)].
    rewrite (inv_filled_cv _ Hinv), Hp. naive_solver.
  - intros Hw. apply (inv_wake_pop _ Hinv) in Hw. lia.
  - intros _. lia.
Qed.

Lemma wake_parked t c (ps : gmap tid point) :
  ps !! t = Some (Parked c) → wake t ps = <[t := Relock c]> ps.
Proof. intros Hp. unfold wake. by rewrite Hp. Qed.

(** The state after an element has moved, when [t2] (if anybody) was woken:
    what has to be shown about it. *)
Lemma inv_moved s t p r q ecv fcv ps :
  queue_inv s → points s !! t = Some p → in_critical p = true →
  (Z.of_nat (length q) ≤ capacity_ s)%Z →
  (∀ t', t ≠ t' → ps !! t' = points s !! t' ∨
     (∃ c, points s !! t' = Some (Parked c) ∧ ps !! t' = Some (Relock c))) →
  ps !! t = Some p →
  (∀ t', t' ∈ cv_waiters ecv ↔ ps !! t' = Some (Parked Pop)) →
  (∀ t', t' ∈ cv_waiters fcv ↔ ∃ e, ps !! t' = Some (Parked (Push e))) →
  NoDup (cv_waiters ecv) → NoDup (cv_waiters fcv) →
  (cv_waiters ecv ≠ [] → length q + Nat.b2n (awake_pop p) ≤ count_if awake_pop ps) →
  (cv_waiters fcv ≠ [] → (capacity_ s - Z.of_nat (length q) + Z.of_nat (Nat.b2n (awake_push p))
                          ≤ Z.of_nat (count_if awake_push ps))%Z) →
  queue_inv (QueueState q (capacity_ s) (mut_ s) ecv fcv (<[t := Unlock r]> ps)).
Proof.
  intros Hinv Hp Hc Hcap Hps Ht Hecv Hfcv Hne Hnf Hpop Hpush.
  pose proof (critical_owner _ _ _ Hinv Hp Hc) as Hm.
  pose proof (count_if_update awake_pop _ _ _ (Unlock r) Ht) as Cpop.
  pose proof (count_if_update awake_push _ _ _ (Unlock r) Ht) as Cpush.
  assert (∀ t' p', t ≠ t' → ps !! t' = Some p' → in_critical p' = false ∧ point_ok s p') as Hother.
  { intros t' p' Hne' Hp'. destruct (Hps t' Hne') as [Heq|(c & Hpk & Hrl)].
    - rewrite Hp' in Heq. split; [eapply others_not_critical|eapply inv_points]; eauto.
    - rewrite Hrl in Hp'. simplify_eq. split; [done|]. apply (inv_points _ Hinv _ _ Hpk). }
  split; simpl.
  - intros t' p'. rewrite lookup_insert. case_decide as Hd; intros Hp'; [by simplify_eq|].
    destruct (Hother t' p' Hd Hp') as [-> _]. split; congruence.
  - intros t'. rewrite Hm. intros [= <-]. rewrite lookup_insert_eq. eauto.
  - done.
  - intros t' p'. rewrite lookup_insert. case_decide as Hd; intros Hp'; [by simplify_eq|].
    destruct (Hother t' p' Hd Hp'). by eapply point_ok_other.
  - intros t'. rewrite Hecv, lookup_insert. case_decide; [|done]. subst. rewrite Ht.
    split; [intros [= ->]|]; done.
  - intros t'. rewrite Hfcv, lookup_insert. case_decide; [|done]. subst. rewrite Ht.
    split; [intros (e & [= ->])|intros (e & [=])]; done.
  - done.
  - done.
  - intros Hw. specialize (Hpop Hw). simpl in *. lia.
  - intros Hw. specialize (Hpush Hw). simpl in *. lia.
Qed.

(** Waking [t'] up from one of the condition variables. *)
Lemma wake_waiters t' (cv1 cv1' : cv tid) :
  cv_waiters cv1 ≡ₚ t' :: cv_waiters cv1' → NoDup (cv_waiters cv1) →
  NoDup (cv_waiters cv1') ∧ t' ∈ cv_waiters cv1 ∧
  (∀ u, u ∈ cv_waiters cv1' ↔ u ∈ cv_waiters cv1 ∧ u ≠ t').
Proof.
  intros Hperm Hnd. rewrite Hperm in Hnd. apply NoDup_cons in Hnd as [Hni Hnd].
  split; [done|]. setoid_rewrite Hperm. split; [by left|].
  intros u. rewrite elem_of_cons. naive_solver.
Qed.

(** [queue_.pop_front(); filled_cv_.notifyOne()] *)
Lemma inv_take s t p x q r :
  queue_inv s → points s !! t = Some p → p = Body Pop ∨ p = Body TryPop →
  queue_ s = x :: q →
  queue_inv (goto t (Unlock r) (notify_filled (set_queue q s))).
Proof.
  intros Hinv Hp Hbody Hq.
  assert (in_critical p = true ∧ awake_push p = false ∧ is_parked p = false)
    as (Hc & Hpu & Hpk) by (by destruct Hbody as [-> | ->]).
  pose proof (inv_capacity _ Hinv) as Hcap. rewrite Hq in Hcap. simpl in Hcap.
  assert (cv_waiters (empty_cv_ s) ≠ [] →
          length q + Nat.b2n (awake_pop p) ≤ count_if awake_pop (points s)) as Hwp.
  { intros Hw. apply (inv_wake_pop _ Hinv) in Hw. rewrite Hq in Hw. simpl in Hw.
    destruct (awake_pop p); simpl; lia. }
  unfold goto, notify_filled, set_queue; simpl.
  destruct (cv_notifyOne (filled_cv_ s)) as [[t' c']|] eqn:Hn; simpl.
  - apply cv_notify_some in Hn.
    destruct (wake_waiters _ _ _ Hn (inv_filled_nodup _ Hinv)) as (Hnd & Hin & Hiff).
    pose proof Hin as (e & He)%(inv_filled_cv _ Hinv).
    rewrite (wake_parked _ _ _ He).
    assert (t ≠ t') as Hne by (intros ->; rewrite Hp in He; by simplify_eq).
    pose proof (count_if_update awake_pop _ _ _ (Relock (Push e)) He) as Cpop.
    pose proof (count_if_update awake_push _ _ _ (Relock (Push e)) He) as Cpush.
    simpl in Cpop, Cpush.
    apply (inv_moved s t p); try done.
    + lia.
    + intros u Hu. rewrite lookup_insert. case_decide; subst; eauto.
    + by rewrite lookup_insert_ne.
    + intros u. rewrite (inv_empty_cv _ Hinv), lookup_insert. case_decide; [|done].
      subst. rewrite He. naive_solver.
    + intros u. rewrite Hiff, (inv_filled_cv _ Hinv), lookup_insert. case_decide; naive_solver.
    + apply (inv_empty_nodup _ Hinv).
    + intros Hw. specialize (Hwp Hw). lia.
    + intros _. rewrite Hpu. simpl.
      assert (cv_waiters (filled_cv_ s) ≠ []) as Hw by (by intros Hw; rewrite Hw, elem_of_nil in Hin).
      apply (inv_wake_push _ Hinv) in Hw. rewrite Hq in Hw. simpl in Hw. lia.
  - apply cv_notify_none in Hn.
    apply (inv_moved s t p); try done; try apply Hinv; try lia; eauto.
Qed.

(** [queue_.emplace_back(element); empty_cv_.notifyOne()] *)
Lemma inv_put s t p e r :
  queue_inv s → points s !! t = Some p → p = Body (Push e) ∨ p = Body (TryPush e) →
  queue_inv (goto t (Unlock r) (notify_empty (set_queue (queue_ s ++ [e]) s))).
Proof.
  intros Hinv Hp Hbody.
  assert (in_critical p = true ∧ awake_pop p = false ∧ is_parked p = false)
    as (Hc & Hpo & Hpk) by (by destruct Hbody as [-> | ->]).
  assert (Z.of_nat (length (queue_ s)) < capacity_ s)%Z as Hroom.
  { pose proof (inv_points _ Hinv _ _ Hp). by destruct Hbody as [-> | ->]. }
  assert (length (queue_ s ++ [e]) = S (length (queue_ s))) as Hlen by (rewrite length_app; simpl; lia).
  assert (cv_waiters (filled_cv_ s) ≠ [] →
          (capacity_ s - Z.of_nat (length (queue_ s ++ [e])) + Z.of_nat (Nat.b2n (awake_push p))
           ≤ Z.of_nat (count_if awake_push (points s)))%Z) as Hwp.
  { intros Hw. apply (inv_wake_push _ Hinv) in Hw. rewrite Hlen.
    destruct (awake_push p); simpl; lia. }
  unfold goto, notify_empty, set_queue; simpl.
  destruct (cv_notifyOne (empty_cv_ s)) as [[t' c']|] eqn:Hn; simpl.
  - apply cv_notify_some in Hn.
    destruct (wake_waiters _ _ _ Hn (inv_empty_nodup _ Hinv)) as (Hnd & Hin & Hiff).
    pose proof Hin as He%(inv_empty_cv _ Hinv).
    rewrite (wake_parked _ _ _ He).
    assert (t ≠ t') as Hne by (intros ->; rewrite Hp in He; by simplify_eq).
    pose proof (count_if_update awake_pop _ _ _ (Relock Pop) He) as Cpop.
    pose proof (count_if_update awake_push _ _ _ (Relock Pop) He) as Cpush.
    simpl in Cpop, Cpush.
    apply (inv_moved s t p); try done.
    + lia.
    + intros u Hu. rewrite lookup_insert. case_decide; subst; eauto.
    + by rewrite lookup_insert_ne.
    + intros u. rewrite Hiff, (inv_empty_cv _ Hinv), lookup_insert. case_decide; naive_solver.
    + intros u. rewrite (inv_filled_cv _ Hinv), lookup_insert. case_decide; [|done].
      subst. rewrite He. naive_solver.
    + apply (inv_filled_nodup _ Hinv).
    + intros _. rewrite Hpo, Hlen. simpl.
      assert (cv_waiters (empty_cv_ s) ≠ []) as Hw by (by intros Hw; rewrite Hw, elem_of_nil in Hin).
      apply (inv_wake_pop _ Hinv) in Hw. lia.
    + intros Hw. specialize (Hwp Hw). lia.
  - apply cv_notify_none in Hn.
    apply (inv_moved s t p); try done; try apply Hinv; try lia; eauto.
Qed.

(** [goto] without a change of the lock, for a coroutine that holds it. *)
Lemma inv_goto_locked s t p p' :
  queue_inv s → points s !! t = Some p → in_critical p = true → in_critical p' = true →
  point_ok s p' →
  Nat.b2n (awake_pop p) ≤ Nat.b2n (awake_pop p') →
  Nat.b2n (awake_push p) ≤ Nat.b2n (awake_push p') →
  queue_inv (goto t p' s).
Proof.
  intros Hinv Hp Hc Hc' Hok Hpop Hpush.
  pose proof (critical_owner _ _ _ Hinv Hp Hc) as Hm.
  assert (goto t p' s = goto t p' (set_mut (Some t) s)) as ->.
  { destruct s; unfold goto, set_mut; simpl in *. by rewrite Hm. }
  apply (inv_goto s t p); try done; [by destruct p|by destruct p'|by right|by rewrite Hc'].
Qed.

(** The outcome of [if (queue_.empty())] / [if (queue_.size() == Capacity())]. *)
Lemma inv_locked s t c :
  queue_inv s → points s !! t = Some (Locked c) → queue_inv (step_locked t c s).
Proof.
  intros Hinv Hp. pose proof (inv_capacity _ Hinv) as Hcap. unfold step_locked, full.
  destruct c; repeat case_decide; try case_bool_decide;
    apply (inv_goto_locked s t _ _ Hinv Hp); simpl; try done; try lia.
Qed.

Lemma inv_predicate s t c s' :
  queue_inv s → points s !! t = Some (Predicate c) → step_predicate t c s = Some s' → queue_inv s'.
Proof.
  intros Hinv Hp Hstep. destruct c; simpl in Hstep; simplify_eq; case_decide.
  - by apply inv_park_empty.
  - by apply (inv_goto_locked s t (Predicate Pop)).
  - by apply (inv_goto_locked s t (Predicate (Push element))).
  - apply inv_park_filled; try done. lia.
Qed.

Lemma inv_body s t c s' :
  queue_inv s → points s !! t = Some (Body c) → step_body t c s = Some s' → queue_inv s'.
Proof.
  intros Hinv Hp Hstep. destruct c; simpl in Hstep; repeat case_match; simplify_eq;
    eauto using inv_take, inv_put.
Qed.

Lemma qstep_inv s t s' : queue_inv s → qstep t s = Some s' → queue_inv s'.
Proof.
  intros Hinv Hstep. unfold qstep in Hstep.
  destruct (points s !! t) as [p|] eqn:Hp; [|done].
  destruct p as [c|c|c|c|c|c|r|r]; try done.
  - case_decide; simplify_eq. apply (inv_goto s t _ _ _ Hinv Hp); naive_solver lia.
  - simplify_eq. by apply inv_locked.
  - by eapply inv_predicate.
  - case_decide; simplify_eq. pose proof (inv_points _ Hinv _ _ Hp) as Hok. simpl in Hok.
    apply (inv_goto s t _ _ _ Hinv Hp); try done; auto; by destruct c.
  - by eapply inv_body.
  - simplify_eq. apply (inv_goto s t _ _ _ Hinv Hp); try done.
    right. by eapply critical_owner.
Qed.

Lemma reachable_inv capacity calls s :
  (0 ≤ capacity)%Z → reachable capacity calls s → queue_inv s.
Proof. intros Hc. induction 1; eauto using inv_init, qstep_inv. Qed.

(** ** Refinement of the atomic queue *)

Lemma abs_wake t (ps : gmap tid point) : abs_point <$> wake t ps = abs_point <$> ps.
Proof.
  unfold wake. destruct (ps !! t) as [[]|] eqn:Hp; try done.
  rewrite fmap_insert. apply insert_id. by rewrite lookup_fmap, Hp.
Qed.

Lemma abs_goto_same t p p' s :
  points s !! t = Some p → abs_point p' = abs_point p → abs (goto t p' s) = abs s.
Proof.
  intros Hp Heq. unfold abs, goto; simpl. f_equal. rewrite fmap_insert.
  apply insert_id. by rewrite lookup_fmap, Hp, Heq.
Qed.

Lemma abs_notify_filled s : abs (notify_filled s) = abs s.
Proof.
  unfold notify_filled, abs. destruct (cv_notifyOne (filled_cv_ s)) as [[]|]; simpl; [|done].
  by rewrite abs_wake.
Qed.

Lemma abs_notify_empty s : abs (notify_empty s) = abs s.
Proof.
  unfold notify_empty, abs. destruct (cv_notifyOne (empty_cv_ s)) as [[]|]; simpl; [|done].
  by rewrite abs_wake.
Qed.

(** The state in which the call of [t] has taken effect. *)
Lemma abs_goto_done t r s :
  abs (goto t (Unlock r) s) = SpecState (queue_ s) (capacity_ s) (<[t := inr r]> (spec_calls (abs s))).
Proof. unfold abs, goto; simpl. by rewrite fmap_insert. Qed.

Lemma notify_filled_fields s :
  queue_ (notify_filled s) = queue_ s ∧ capacity_ (notify_filled s) = capacity_ s.
Proof. unfold notify_filled. by destruct (cv_notifyOne (filled_cv_ s)) as [[]|]. Qed.

Lemma notify_empty_fields s :
  queue_ (notify_empty s) = queue_ s ∧ capacity_ (notify_empty s) = capacity_ s.
Proof. unfold notify_empty. by destruct (cv_notifyOne (empty_cv_ s)) as [[]|]. Qed.

Lemma spec_step_call t c r q s p :
  points s !! t = Some p → abs_point p = inl c →
  spec_call c (queue_ s) (capacity_ s) = Some (r, q) →
  spec_step t (abs s) = Some (SpecState q (capacity_ s) (<[t := inr r]> (spec_calls (abs s)))).
Proof.
  intros Hp Ha Hc. unfold spec_step, abs; simpl. rewrite lookup_fmap, Hp. simpl. rewrite Ha.
  simpl. by rewrite Hc.
Qed.

Lemma abs_body s t c s' :
  queue_inv s → points s !! t = Some (Body c) → step_body t c s = Some s' →
  spec_step t (abs s) = Some (abs s').
Proof.
  intros Hinv Hp Hstep. pose proof (inv_points _ Hinv _ _ Hp) as Hok.
  destruct c; simpl in Hstep, Hok; repeat case_match; simplify_eq;
    rewrite abs_goto_done, ?abs_notify_filled, ?abs_notify_empty;
    rewrite ?(proj1 (notify_filled_fields _)), ?(proj2 (notify_filled_fields _)),
            ?(proj1 (notify_empty_fields _)), ?(proj2 (notify_empty_fields _));
    apply (spec_step_call _ _ _ _ _ _ Hp eq_refl); simpl;
    try (by rewrite decide_True by done); by case_match; simplify_eq.
Qed.

Lemma abs_locked s t c :
  queue_inv s → points s !! t = Some (Locked c) →
  abs (step_locked t c s) = abs s ∨ spec_step t (abs s) = Some (abs (step_locked t c s)).
Proof.
  intros Hinv Hp. pose proof (inv_capacity _ Hinv) as Hcap. unfold step_locked, full.
  destruct c; repeat case_decide; try case_bool_decide;
    try (left; by apply (abs_goto_same _ _ _ _ Hp)); right;
    rewrite abs_goto_done; apply (spec_step_call _ _ _ _ _ _ Hp eq_refl); simpl.
  - by case_match.
  - by rewrite decide_False by lia.
Qed.

(** Every step of the implementation is either invisible or one atomic call
    of the abstract queue. *)
Lemma qstep_refines s t s' :
  queue_inv s → qstep t s = Some s' →
  abs s' = abs s ∨ spec_step t (abs s) = Some (abs s').
Proof.
  intros Hinv Hstep. unfold qstep in Hstep.
  destruct (points s !! t) as [p|] eqn:Hp; [|done].
  destruct p as [c|c|c|c|c|c|r|r]; try done.
  - case_decide; simplify_eq. left. by apply (abs_goto_same t (Start c) _ (set_mut (Some t) s)).
  - simplify_eq. by apply abs_locked.
  - left. destruct c; simpl in Hstep; simplify_eq; case_decide;
      try (by apply (abs_goto_same t _ _ s Hp));
      unfold park_empty, park_filled, abs; simpl; f_equal; rewrite fmap_insert;
      apply insert_id; by rewrite lookup_fmap, Hp.
  - case_decide; simplify_eq. left. by apply (abs_goto_same t (Relock c) _ (set_mut (Some t) s)).
  - right. by eapply abs_body.
  - simplify_eq. left. by apply (abs_goto_same t (Unlock r) _ (set_mut None s)).
Qed.

(** ** First in, first out *)

Lemma spec_call_fifo c r q q' capacity :
  spec_call c q capacity = Some (r, q') → removed (c, r) ++ q' = q ++ inserted (c, r).
Proof.
  destruct c, q; simpl; repeat case_decide; intros; simplify_eq; simpl; rewrite ?app_nil_r; done.
Qed.

Lemma qstep_fifo s t s' :
  queue_inv s → qstep t s = Some s' →
  concat (removed <$> effect t s s') ++ queue_ s' = queue_ s ++ concat (inserted <$> effect t s s').
Proof.
  intros Hinv Hstep. unfold effect. destruct (qstep_refines _ _ _ Hinv Hstep) as [Heq|Hspec].
  - injection Heq as Hq _ Hp. rewrite <- !lookup_fmap, Hp.
    rewrite Hq. repeat case_match; simplify_eq; simpl; by rewrite ?app_nil_r.
  - unfold spec_step in Hspec. rewrite <- !lookup_fmap. simpl in Hspec.
    destruct ((abs_point <$> points s) !! t) as [[c|]|] eqn:Hc; try done.
    destruct (spec_call c (queue_ s) (capacity_ s)) as [[r q]|] eqn:Hcall; [|done].
    simpl in Hspec. injection Hspec as Hq _ Hp. rewrite <- Hp, lookup_insert_eq, <- Hq.
    simpl. rewrite !app_nil_r. by eapply spec_call_fifo.
Qed.

Lemma qexec_reachable capacity calls log s :
  qexec (initial capacity calls) log s → reachable capacity calls s.
Proof. induction 1; econstructor; eauto. Qed.

(** ** Nobody sleeps for nothing *)

(** The owner of the lock can always run. *)
Lemma owner_runs s t : queue_inv s → mut_ s = Some t → is_Some (qstep t s).
Proof.
  intros Hinv Hm. destruct (inv_owner _ Hinv t Hm) as [p Hp].
  pose proof (proj1 (inv_mutex _ Hinv t p Hp) Hm) as Hc.
  pose proof (inv_points _ Hinv _ _ Hp) as Hok. unfold qstep. rewrite Hp.
  destruct p as [c|c|c|c|c|c|r|r]; try done; destruct c; simpl in *; try done;
    by destruct (queue_ s).
Qed.

(** When nobody can run, every call has returned or waits for what is not
    there. *)
Lemma stuck_points s :
  queue_inv s → (∀ t, qstep t s = None) →
  mut_ s = None ∧ ∀ t p, points s !! t = Some p → (∃ r, p = Returned r) ∨ (∃ c, p = Parked c).
Proof.
  intros Hinv Hstuck.
  assert (mut_ s = None) as Hm.
  { destruct (mut_ s) as [t|] eqn:Hm; [|done].
    destruct (owner_runs s t Hinv Hm) as [s' Hs]. by rewrite Hstuck in Hs. }
  split; [done|]. intros t p Hp.
  destruct (in_critical p) eqn:Hc.
  { apply (inv_mutex _ Hinv _ _ Hp) in Hc. congruence. }
  specialize (Hstuck t). unfold qstep in Hstuck. rewrite Hp in Hstuck.
  destruct p; try done; eauto; by rewrite decide_True in Hstuck.
Qed.

(** Running a schedule, and testing that nobody can run. *)
Fixpoint run_schedule (ts : list tid) (s : queue_state) : option queue_state :=
  match ts with
  | [] => Some s
  | t :: ts => s' ← qstep t s; run_schedule ts s'
  end.

Fixpoint schedule_log (ts : list tid) (s : queue_state) : list (call * result) :=
  match ts with
  | [] => []
  | t :: ts =>
      match qstep t s with
      | Some s' => effect t s s' ++ schedule_log ts s'
      | None => []
      end
  end.

Definition stuckb (s : queue_state) : bool :=
  forallb (λ t, match qstep t s with None => true | Some _ => false end)
    (map_to_list (points s)).*1.

Lemma run_schedule_qexec ts s0 log s s' :
  qexec s0 log s → run_schedule ts s = Some s' → qexec s0 (log ++ schedule_log ts s) s'.
Proof.
  revert log s. induction ts as [|t ts IH]; intros log s Hexec; simpl.
  - intros [= <-]. by rewrite app_nil_r.
  - destruct (qstep t s) as [s1|] eqn:Hs; [|done]. simpl. intros Hrun.
    rewrite app_assoc. eapply IH; [|done]. by econstructor.
Qed.

Lemma run_schedule_reachable ts capacity calls s' :
  run_schedule ts (initial capacity calls) = Some s' → reachable capacity calls s'.
Proof.
  intros Hrun. eapply qexec_reachable, (run_schedule_qexec ts _ []); [constructor|done].
Qed.

Lemma stuckb_spec s : stuckb s = true → ∀ t, qstep t s = None.
Proof.
  unfold stuckb. rewrite forallb_forall. intros Hall t.
  destruct (points s !! t) as [p|] eqn:Hp.
  - specialize (Hall t). destruct (qstep t s); [|done].
    assert (false = true); [apply Hall|done]. apply list_elem_of_In, list_elem_of_fmap.
    exists (t, p). split; [done|]. by apply elem_of_map_to_list.
  - unfold qstep. by rewrite Hp.
Qed.

(** C30: In every reachable state at most one coroutine is between taking and
    releasing the lock, and the queue holds at most [capacity_] elements. *)
Theorem queue_mutual_exclusion_and_bound capacity calls s :
  (0 ≤ capacity)%Z → reachable capacity calls s →
  (∀ t t' p p', points s !! t = Some p → points s !! t' = Some p' →
     in_critical p = true → in_critical p' = true → t = t') ∧
  (Z.of_nat (length (queue_ s)) ≤ capacity_ s)%Z.
Proof.
  intros Hc Hr. pose proof (reachable_inv _ _ _ Hc Hr) as Hinv.
  split; [intros; by eapply critical_unique|apply (inv_capacity _ Hinv)].
Qed.

(** C29: No wake-up is lost: when no coroutine can run any more, every call has
    returned, except poppers suspended on an empty queue and pushers
    suspended on a full one. *)
Theorem queue_no_lost_wakeup capacity calls s :
  (0 ≤ capacity)%Z → reachable capacity calls s → (∀ t, qstep t s = None) →
  ∀ t p, points s !! t = Some p →
    (∃ r, p = Returned r) ∨
    (p = Parked Pop ∧ queue_ s = []) ∨
    (∃ e, p = Parked (Push e) ∧ Z.of_nat (length (queue_ s)) = capacity_ s).
Proof.
  intros Hc Hr Hstuck t p Hp. pose proof (reachable_inv _ _ _ Hc Hr) as Hinv.
  destruct (stuck_points _ Hinv Hstuck) as [Hm Hpts].
  destruct (Hpts _ _ Hp) as [?|(c & ->)]; [by left|right].
  pose proof (inv_points _ Hinv _ _ Hp) as Hb. simpl in Hb. destruct c as [| |e|]; try done.
  - left. split; [done|]. pose proof (proj2 (inv_empty_cv _ Hinv t) Hp) as Hin.
    assert (count_if awake_pop (points s) = 0) as Hz.
    { apply count_if_zero. intros u q Hq. destruct (Hpts _ _ Hq) as [(? & ->)|(? & ->)]; done. }
    destruct (queue_ s) as [|x q] eqn:Hq; [done|].
    pose proof (inv_wake_pop _ Hinv) as Hw. rewrite Hz, Hq in Hw. simpl in Hw.
    exfalso. assert (cv_waiters (empty_cv_ s) ≠ []) as Hne by (by intros Hn; rewrite Hn, elem_of_nil in Hin).
    specialize (Hw Hne). lia.
  - right. exists e. split; [done|].
    pose proof (proj2 (inv_filled_cv _ Hinv t) (ex_intro _ e Hp)) as Hin.
    assert (count_if awake_push (points s) = 0) as Hz.
    { apply count_if_zero. intros u q Hq. destruct (Hpts _ _ Hq) as [(? & ->)|(? & ->)]; done. }
    pose proof (inv_wake_push _ Hinv) as Hw. rewrite Hz in Hw.
    assert (cv_waiters (filled_cv_ s) ≠ []) as Hne by (by intros Hn; rewrite Hn, elem_of_nil in Hin).
    specialize (Hw Hne). pose proof (inv_capacity _ Hinv). lia.
Qed.

(** C19: Every step of the lock-and-condition-variable implementation is either
    invisible or exactly one atomic call of the abstract queue [spec_step]. *)
Theorem queue_refines_atomic capacity calls s t s' :
  (0 ≤ capacity)%Z → reachable capacity calls s → qstep t s = Some s' →
  abs s' = abs s ∨ spec_step t (abs s) = Some (abs s').
Proof. eauto using qstep_refines, reachable_inv. Qed.

(** First in, first out: in the order in which the calls take effect, the
    elements taken out followed by the elements still in the queue are the
    elements put in. *)
Theorem queue_fifo capacity calls log s :
  (0 ≤ capacity)%Z → qexec (initial capacity calls) log s →
  concat (removed <$> log) ++ queue_ s = concat (inserted <$> log).
Proof.
  intros Hc. induction 1 as [|log s1 t s2 Hexec IH Hstep]; [done|].
  pose proof (qstep_fifo s1 t s2 (reachable_inv _ _ _ Hc (qexec_reachable _ _ _ _ Hexec)) Hstep) as Hf.
  rewrite !fmap_app, !concat_app, <- app_assoc, Hf, app_assoc, IH. done.
Qed.

(** C31: On a queue of capacity 0, which is what a merged pipeline gives to the
    nodes added to it later, no [Push] ever completes and every [TryPush]
    fails. *)
Theorem queue_capacity_zero calls s t :
  reachable 0 calls s →
  abs_point <$> points s !! t ≠ Some (inr PushResult) ∧
  abs_point <$> points s !! t ≠ Some (inr (TryPushResult true)).
Proof.
  intros Hr. rewrite <- lookup_fmap.
  change (abs_point <$> points s) with (spec_calls (abs s)).
  assert (spec_capacity (abs s) = 0%Z ∧ ∀ t r, spec_calls (abs s) !! t = Some (inr r) →
            r ≠ PushResult ∧ r ≠ TryPushResult true) as [_ Hno]; [|naive_solver].
  clear t. induction Hr as [|s t s' Hr IH Hstep].
  { split; [done|]. intros t r. simpl. rewrite !lookup_fmap. by destruct (calls !! t). }
  destruct (qstep_refines _ _ _ (reachable_inv 0 _ _ ltac:(lia) Hr) Hstep) as [-> |Hspec]; [done|].
  destruct IH as [IHc IHr]. unfold spec_step in Hspec.
  destruct (spec_calls (abs s) !! t) as [[c|]|] eqn:Ht; try done.
  destruct (spec_call c (spec_queue (abs s)) (spec_capacity (abs s))) as [[r q]|] eqn:Hcall; [|done].
  injection Hspec as Hq Hcap Hcalls. rewrite IHc in *. split; [by simpl; rewrite <- Hcap|].
  intros u r'. simpl. rewrite <- Hcalls, lookup_insert. case_decide; [|apply IHr].
  intros [= <-]. destruct c, (spec_queue (abs s)); simpl in Hcall;
    repeat case_decide; simplify_eq; simpl in *; try lia; done.
Qed.

End bounded_queue.

(** ** A first-come-first-served condition variable, and witnesses *)

#[global] Instance fifo_condvar : CondVar nat := {
  cv := list nat;
  cv_init := [];
  cv_waiters c := c;
  cv_park t c := c ++ [t];
  cv_notifyOne c := match c with [] => None | t :: c => Some (t, c) end;
}.

#[global] Instance fifo_condvar_laws : CondVarLaws nat.
Proof.
  split; simpl.
  - done.
  - intros t c. apply (Permutation_app_comm c [t]).
  - by intros [].
  - intros [|u c] t c' [=]. by subst.
Qed.

(** Two pushers and a popper on a queue of capacity 1: pusher 1 is suspended
    until the popper has made room. *)
Definition sample_calls : gmap nat (call (T:=Z)) :=
  {[ 0 := Push 7%Z; 1 := Push 8%Z; 2 := Pop ]}.
Definition sample_schedule : list nat :=
  [0; 0; 0; 0; 1; 1; 1; 2; 2; 2; 2; 1; 1; 1; 1].
Definition sample_queue : queue_state :=
  match run_schedule sample_schedule (initial 1 sample_calls) with
  | Some s => s
  | None => initial 1 sample_calls
  end.

Lemma sample_reachable : reachable 1 sample_calls sample_queue.
Proof. apply (run_schedule_reachable sample_schedule). vm_compute. reflexivity. Qed.

Lemma queue_mutual_exclusion_and_bound_witness :
  (Z.of_nat (length (queue_ sample_queue)) ≤ capacity_ sample_queue)%Z.
Proof.
  apply (queue_mutual_exclusion_and_bound 1 sample_calls sample_queue); [lia|].
  apply sample_reachable.
Defined.

Lemma queue_no_lost_wakeup_witness :
  stuckb sample_queue = true ∧ ∀ p, points sample_queue !! 1 = Some p →
    (∃ r, p = Returned r) ∨ (p = Parked Pop ∧ queue_ sample_queue = []) ∨
    (∃ e, p = Parked (Push e) ∧ Z.of_nat (length (queue_ sample_queue)) = capacity_ sample_queue).
Proof.
  split; [vm_compute; reflexivity|].
  apply (queue_no_lost_wakeup 1 sample_calls sample_queue ltac:(lia) sample_reachable).
  apply stuckb_spec. vm_compute. reflexivity.
Defined.

Definition sample_prefix : queue_state :=
  match run_schedule [0; 0] (initial 1 sample_calls) with
  | Some s => s
  | None => initial 1 sample_calls
  end.

Lemma queue_refines_atomic_witness :
  ∃ s', qstep 0 sample_prefix = Some s' ∧
        (abs s' = abs sample_prefix ∨ spec_step 0 (abs sample_prefix) = Some (abs s')).
Proof.
  destruct (qstep 0 sample_prefix) as [s'|] eqn:Hs; [|by vm_compute in Hs].
  exists s'. split; [done|].
  apply (queue_refines_atomic 1 sample_calls sample_prefix 0 s'); [lia| |done].
  apply (run_schedule_reachable [0; 0]). vm_compute. reflexivity.
Defined.

Lemma queue_fifo_witness :
  concat (removed <$> schedule_log sample_schedule (initial 1 sample_calls)) ++ queue_ sample_queue
  = [7; 8]%Z.
Proof.
  etransitivity.
  - apply (queue_fifo 1 sample_calls); [lia|].
    apply (run_schedule_qexec sample_schedule _ []); [constructor|]. vm_compute. reflexivity.
  - vm_compute. reflexivity.
Defined.

(** On a queue of capacity 0 the first pusher is suspended for ever. *)
Definition stuck_push : queue_state :=
  match run_schedule [0; 0; 0] (initial 0 sample_calls) with
  | Some s => s
  | None => initial 0 sample_calls
  end.

Lemma queue_capacity_zero_witness :
  points stuck_push !! 0 = Some (Parked (Push 7%Z)) ∧
  abs_point <$> points stuck_push !! 0 ≠ Some (inr PushResult).
Proof.
  split; [vm_compute; reflexivity|].
  apply (queue_capacity_zero sample_calls stuck_push 0).
  apply (run_schedule_reachable [0; 0; 0]). vm_compute. reflexivity.
Defined.
