(* ===== verification/Events.v ===== *)
(** * Statistics: [tunnel/event_collector.h] and [tunnel/event_count.h]

    [EventCollector] is the record of what a node read and wrote; the calls of
    [std::chrono::system_clock::now()] are arguments of the operations here
    and steps of the coroutine in [Processor].  [EventCount] is a counting
    latch protected by a mutex: each operation is one atomic step. *)

From stdpp Require Import base gmap strings list fin_maps.
From S2P Require Import Prelude.

#[local] Open Scope Z_scope.

(** ** [EventCollector] *)

Record port_statistic := PortStatistic {
  count_ : Z; bytes_ : Z; first_time_ : Z; last_time_ : Z }.

Record EventCollector := MkEventCollector {
  collector_id_ : Z;
  collector_name_ : string;
  work_start_ : Z;
  work_end_ : Z;
  enter_hosted_mode_ : option Z;
  input_ports_statistic_ : gmap Z port_statistic;
  output_ports_statistic_ : gmap Z port_statistic;
}.

Definition EventCollector_init (id : Z) (name : string) : EventCollector :=
  MkEventCollector id name 0 0 None ∅ ∅.

Definition WorkStart (now : Z) (c : EventCollector) : EventCollector :=
  MkEventCollector (collector_id_ c) (collector_name_ c) now (work_end_ c)
    (enter_hosted_mode_ c) (input_ports_statistic_ c) (output_ports_statistic_ c).

Definition WorkEnd (now : Z) (c : EventCollector) : EventCollector :=
  MkEventCollector (collector_id_ c) (collector_name_ c) (work_start_ c) now
    (enter_hosted_mode_ c) (input_ports_statistic_ c) (output_ports_statistic_ c).

Definition EnterHostedMode (now : Z) (c : EventCollector) : EventCollector :=
  MkEventCollector (collector_id_ c) (collector_name_ c) (work_start_ c) (work_end_ c)
    (Some now) (input_ports_statistic_ c) (output_ports_statistic_ c).

(** The common body of [InputPortRead] and [OutputPortWrite]; [first] and
    [last] are the two readings of the clock. *)
Definition record_port (stats : gmap Z port_statistic) (index bytes : Z) (eof : bool)
    (first last : Z) : gmap Z port_statistic :=
  let st := default (PortStatistic 0 0 first 0) (stats !! index) in
  <[index := PortStatistic (u64 (count_ st + 1)) (u64 (bytes_ st + bytes)) (first_time_ st)
               (if eof then last else last_time_ st)]> stats.

Definition InputPortRead (index bytes : Z) (eof : bool) (first last : Z) (c : EventCollector) :=
  MkEventCollector (collector_id_ c) (collector_name_ c) (work_start_ c) (work_end_ c)
    (enter_hosted_mode_ c)
    (record_port (input_ports_statistic_ c) index bytes eof first last)
    (output_ports_statistic_ c).

Definition OutputPortWrite (index bytes : Z) (eof : bool) (first last : Z) (c : EventCollector) :=
  MkEventCollector (collector_id_ c) (collector_name_ c) (work_start_ c) (work_end_ c)
    (enter_hosted_mode_ c) (input_ports_statistic_ c)
    (record_port (output_ports_statistic_ c) index bytes eof first last).

(** ** [EventCount] *)

Record EventCount := MkEventCount { event_count_ : Z; succ_count_ : Z; fail_count_ : Z }.

Definition EventCount_init (ec : Z) : outcome EventCount :=
  _ ← cpp_assert (bool_decide (ec > 0)); Ok (MkEventCount ec 0 0).

Definition Succ (e : EventCount) : EventCount :=
  MkEventCount (event_count_ e) (u64 (succ_count_ e + 1)) (fail_count_ e).

Definition Fail_ (e : EventCount) : EventCount :=
  MkEventCount (event_count_ e) (succ_count_ e) (u64 (fail_count_ e + 1)).

(** The predicate [Wait] waits for. *)
Definition Wait_done (e : EventCount) : bool :=
  bool_decide (event_count_ e = u64 (succ_count_ e + fail_count_ e)).

Definition allSucc (e : EventCount) : bool := bool_decide (succ_count_ e = event_count_ e).
Definition allFail (e : EventCount) : bool := bool_decide (succ_count_ e = 0).

(** A history of reports: [true] for [Succ], [false] for [Fail]. *)
Definition report (e : EventCount) (ok : bool) : EventCount := if ok then Succ e else Fail_ e.

Fixpoint count_true (l : list bool) : Z :=
  match l with [] => 0 | b :: l => (if b then 1 else 0) + count_true l end.

Lemma count_true_bounds l :
  0 ≤ count_true l ≤ Z.of_nat (length l) ∧
  (forallb id l = true ↔ count_true l = Z.of_nat (length l)) ∧
  (forallb negb l = true ↔ count_true l = 0).
Proof.
  induction l as [|[] l IH]; cbn [count_true forallb length id negb andb].
  - naive_solver.
  - split; [lia|]. split; [|split; [done|lia]]. rewrite (proj1 (proj2 IH)). lia.
  - split; [lia|]. split; [split; [done|lia]|]. rewrite (proj2 (proj2 IH)). lia.
Qed.

Lemma report_all e l :
  0 ≤ succ_count_ e → 0 ≤ fail_count_ e →
  succ_count_ e + fail_count_ e + Z.of_nat (length l) < 2 ^ 64 →
  foldl report e l =
    MkEventCount (event_count_ e) (succ_count_ e + count_true l)
      (fail_count_ e + (Z.of_nat (length l) - count_true l)).
Proof.
  revert e. induction l as [|b l IH]; intros e Hs Hf Hlt; cbn [count_true foldl length] in *.
  - destruct e; simpl. f_equal; lia.
  - destruct b; simpl; (rewrite IH; simpl;
      wrap_id; [f_equal| | |]; lia).
Qed.

(** A latch made for [n] events opens exactly when [n] of them have been
    reported, and then tells whether all of them succeeded and whether none
    did. *)
Theorem EventCount_latch (n : Z) (e : EventCount) (l : list bool) :
  EventCount_init n = Ok e → Z.of_nat (length l) < 2 ^ 64 →
  Wait_done (foldl report e l) = bool_decide (Z.of_nat (length l) = n) ∧
  (Wait_done (foldl report e l) = true →
     allSucc (foldl report e l) = forallb id l ∧
     allFail (foldl report e l) = forallb negb l).
Proof.
  unfold EventCount_init, cpp_assert. case_bool_decide; [|done]. intros [= <-] Hl.
  rewrite report_all by (simpl; lia).
  pose proof (count_true_bounds l) as (Hb & Hid & Hneg).
  unfold Wait_done, allSucc, allFail. simpl. wrap_id.
  split; [apply bool_decide_ext; lia|]. rewrite bool_decide_eq_true. intros Hw.
  split; apply eq_true_iff_eq; rewrite bool_decide_eq_true, ?Hid, ?Hneg; lia.
Qed.

Lemma EventCount_latch_witness :
  Wait_done (foldl report (MkEventCount 2 0 0) [true; false]) = true.
Proof. rewrite (proj1 (EventCount_latch 2 (MkEventCount 2 0 0) [true; false] eq_refl ltac:(done))). done. Defined.

(** The port statistics count every operation and sum the bytes. *)
Definition record_all (stats : gmap Z port_statistic) (index : Z) (l : list (Z * bool)) (t : Z) :=
  foldl (λ st '(b, eof), record_port st index b eof t t) stats l.

Lemma record_all_snoc stats index l b eof t :
  record_all stats index (l ++ [(b, eof)]) t = record_port (record_all stats index l t) index b eof t t.
Proof. unfold record_all. by rewrite foldl_app. Qed.

(** After recording a sequence of reads (or writes) of one port, the
    statistics of that port hold their number and the sum of their bytes, at
    the width of [size_t]; the first time is the one of the first record, and
    other ports have no statistics. *)
Theorem record_port_totals index l (t : Z) (j : Z) :
  l ≠ [] →
  record_all ∅ index l t !! j =
    if decide (j = index)
    then Some (PortStatistic (u64 (Z.of_nat (length l))) (u64 (foldl Z.add 0 l.*1)) t
                 (if existsb snd l then t else 0))
    else None.
Proof.
  intros Hl. induction l as [|[b eof] l IH] using rev_ind; [done|].
  rewrite record_all_snoc. unfold record_port. rewrite lookup_insert.
  destruct (decide (l = [])) as [->|Hne].
  - simpl. destruct (decide (index = j)), (decide (j = index)); try congruence;
      simpl; by destruct eof.
  - specialize (IH Hne). destruct (decide (index = j)) as [<-|Hj].
    + rewrite IH, !decide_True by done. simpl.
      rewrite fmap_app, foldl_app, length_app, existsb_app. simpl.
      do 2 f_equal.
      * unfold wrap. rewrite Zplus_mod_idemp_l. f_equal. lia.
      * unfold wrap. by rewrite Zplus_mod_idemp_l.
      * rewrite orb_false_r. by destruct (existsb snd l), eof.
    + rewrite IH, !decide_False by done. done.
Qed.

Lemma record_port_totals_witness :
  record_all ∅ 0 [(4, false); (4, false); (0, true)] 9 !! 0 = Some (PortStatistic 3 8 9 9).
Proof.
  rewrite (record_port_totals 0 [(4, false); (4, false); (0, true)] 9 0) by done. reflexivity.
Defined.
