(* ===== verification/Coro.v ===== *)
(** * Coroutines and their program logic

    The coroutines of the library ([async_simple::coro::Lazy]) are modelled as
    values of [prog]: trees whose nodes are the operations through which a
    coroutine meets its environment (the shared queues, the clock, the end of
    the process) and whose loops are unfolded one turn at a time.  Everything
    between two such operations is ordinary Rocq computation, written in the
    style of the source.

    The second half of the file is a program logic for [prog]: [WP p g Φ]
    says that a coroutine [p], run in an arbitrary environment, keeps the
    port protocol described by the ghost state [g] and, if it returns, returns
    with [Φ].  The protocol is the contract between the nodes of a pipeline:
    read a queue only while an end of file is still expected from it, write a
    queue only until the end of file has been written, and return only when
    all expected ends of file have been read and written. *)

From stdpp Require Import base gmap strings list fin_maps.
From S2P Require Import Prelude.

(** Identities of the queues shared through [std::shared_ptr]: data queues
    [BoundedQueue<std::optional<T>>], and the queues of abort channels
    [BoundedQueue<std::optional<int>>]. *)
Abbreviation qid := nat.
Abbreviation aqid := nat.

Section prog.
Context {T : Type}.

Inductive prog (A : Type) : Type :=
| Ret (a : A)
| QPop (q : qid) (k : option T → prog A)               (* [co_await queue.Pop()] *)
| QPush (q : qid) (v : option T) (k : prog A)          (* [co_await queue.Push(v)] *)
| QTryPop (q : aqid) (k : option (option Z) → prog A)  (* [co_await abort.TryPop()] *)
| QTryPush (q : aqid) (v : option Z) (k : bool → prog A)
| Now (k : Z → prog A)                                 (* [system_clock::now()] *)
| Die (c : crash)
| Loop (S R : Type) (body : S → prog (S + R)) (s : S) (k : R → prog A).
Arguments Ret {A} _.
Arguments QPop {A} _ _.
Arguments QPush {A} _ _ _.
Arguments QTryPop {A} _ _.
Arguments QTryPush {A} _ _ _.
Arguments Now {A} _.
Arguments Die {A} _.
Arguments Loop {A S R} _ _ _.

Fixpoint pbind {A B} (f : A → prog B) (p : prog A) : prog B :=
  match p with
  | Ret a => f a
  | QPop q k => QPop q (λ v, pbind f (k v))
  | QPush q v k => QPush q v (pbind f k)
  | QTryPop q k => QTryPop q (λ r, pbind f (k r))
  | QTryPush q v k => QTryPush q v (λ b, pbind f (k b))
  | Now k => Now (λ t, pbind f (k t))
  | Die c => Die c
  | Loop body s k => Loop body s (λ r, pbind f (k r))
  end.

(** One turn of a loop. *)
Definition unroll {A S R} (body : S → prog (S + R)) (s : S) (k : R → prog A) : prog A :=
  pbind (λ r, match r with inl s' => Loop body s' k | inr r => k r end) (body s).

(** ** The port protocol *)

Inductive event : Type :=
| Got (q : qid) (v : option T)
| Put (q : qid) (v : option T).

(** [remaining]: how many ends of file are still to be read from each queue;
    [opened]: the queues whose end of file is still to be written; [trace]:
    what has been read and written so far; [may_abort]: whether the coroutine
    may end the process with [std::abort]. *)
Record ghost := Ghost {
  remaining : gmap qid nat;
  opened : gset qid;
  trace : list event;
  may_abort : bool;
}.

Definition after_pop (q : qid) (v : option T) (g : ghost) : ghost :=
  Ghost (match v with
         | Some _ => remaining g
         | None => <[q := pred (remaining g !!! q)]> (remaining g)
         end) (opened g) (trace g ++ [Got q v]) (may_abort g).

Definition after_push (q : qid) (v : option T) (g : ghost) : ghost :=
  Ghost (remaining g)
        (match v with Some _ => opened g | None => opened g ∖ {[q]} end)
        (trace g ++ [Put q v]) (may_abort g).

(** The duties of the protocol are over. *)
Definition settled (g : ghost) : Prop :=
  (∀ q, remaining g !!! q = 0) ∧ opened g = ∅.

Fixpoint wp {A} (n : nat) (p : prog A) (g : ghost) (Φ : A → ghost → Prop) : Prop :=
  match n with
  | 0 => True
  | S n =>
      match p with
      | Ret a => Φ a g
      | QPop q k => 0 < remaining g !!! q ∧ ∀ v, wp n (k v) (after_pop q v g) Φ
      | QPush q v k => q ∈ opened g ∧ wp n k (after_push q v g) Φ
      | QTryPop q k => ∀ r, wp n (k r) g Φ
      | QTryPush q v k => ∀ b, wp n (k b) g Φ
      | Now k => ∀ t, wp n (k t) g Φ
      | Die c => c = StdAbort ∧ may_abort g = true
      | Loop body s k =>
          wp n (body s) g (λ r g', match r with
                                   | inl s' => wp n (Loop body s' k) g' Φ
                                   | inr r => wp n (k r) g' Φ
                                   end)
      end
  end.

(** For every number of steps. *)
Definition WP {A} (p : prog A) (g : ghost) (Φ : A → ghost → Prop) : Prop :=
  ∀ n, wp n p g Φ.

(** ** Rules *)

Lemma wp_mono {A} n m (p : prog A) g (Φ Ψ : A → ghost → Prop) :
  m ≤ n → (∀ a g, Φ a g → Ψ a g) → wp n p g Φ → wp m p g Ψ.
Proof.
  revert A n p g Φ Ψ. induction m as [|m IH]; intros A [|n] p g Φ Ψ Hle HΦ; simpl; try done; [lia|].
  assert (m ≤ n) as Hle' by lia.
  destruct p as [a|q k|q v k|q k|q v k|k|c|S R body s k]; simpl; try naive_solver.
  apply IH; [done|]. intros [s'|r] g'; by apply IH.
Qed.

Lemma wp_pbind {A B} n (p : prog A) (f : A → prog B) g Φ :
  wp n p g (λ a g', wp n (f a) g' Φ) → wp n (pbind f p) g Φ.
Proof.
  revert p g. induction n as [|n IH]; intros p g; [done|].
  assert (∀ (p : prog A) g, wp n p g (λ a g', wp (S n) (f a) g' Φ) → wp n (pbind f p) g Φ) as Hk.
  { intros p' g' Hp'. apply IH. revert Hp'. apply wp_mono; [done|].
    intros a g''. apply wp_mono; [lia|done]. }
  destruct p as [a|q k|q v k|q k|q v k|k|c|S R body s k]; try (simpl in *; naive_solver).
  cbn [wp pbind]. apply wp_mono; [done|].
  intros [s'|r] g' Hw; [|by apply Hk]. by apply (Hk (Loop body s' k)).
Qed.

(** One turn of a loop keeps the protocol. *)
Lemma wp_unroll {A S R} n (body : S → prog (S + R)) s (k : R → prog A) g Φ :
  wp (Datatypes.S n) (Loop body s k) g Φ → wp n (unroll body s k) g Φ.
Proof.
  simpl. intros Hw. apply wp_pbind. revert Hw. apply wp_mono; [done|]. by intros [s'|r] g'.
Qed.

Lemma WP_mono {A} (p : prog A) g (Φ Ψ : A → ghost → Prop) :
  (∀ a g, Φ a g → Ψ a g) → WP p g Φ → WP p g Ψ.
Proof. intros HΦ Hp n. eapply wp_mono; eauto. Qed.

Lemma WP_Ret {A} (a : A) g (Φ : A → ghost → Prop) : Φ a g → WP (Ret a) g Φ.
Proof. by intros ? [|n]. Qed.

Lemma WP_pbind {A B} (p : prog A) (f : A → prog B) g Φ :
  WP p g (λ a g', WP (f a) g' Φ) → WP (pbind f p) g Φ.
Proof.
  intros Hp n. apply wp_pbind. apply (wp_mono n n _ _ _ _ (le_n n)) with (2 := Hp n).
  intros a g' Hf. apply Hf.
Qed.

Lemma WP_QPop {A} q (k : option T → prog A) g Φ :
  0 < remaining g !!! q → (∀ v, WP (k v) (after_pop q v g) Φ) → WP (QPop q k) g Φ.
Proof. intros Hq Hk [|n]; [done|]. split; [done|]. intros v. apply Hk. Qed.

Lemma WP_QPush {A} q v (k : prog A) g Φ :
  q ∈ opened g → WP k (after_push q v g) Φ → WP (QPush q v k) g Φ.
Proof. intros Hq Hk [|n]; [done|]. split; [done|]. apply Hk. Qed.

Lemma WP_QTryPop {A} q (k : option (option Z) → prog A) g Φ :
  (∀ r, WP (k r) g Φ) → WP (QTryPop q k) g Φ.
Proof. intros Hk [|n]; [done|]. intros r. apply Hk. Qed.

Lemma WP_QTryPush {A} q v (k : bool → prog A) g Φ :
  (∀ b, WP (k b) g Φ) → WP (QTryPush q v k) g Φ.
Proof. intros Hk [|n]; [done|]. intros b. apply Hk. Qed.

Lemma WP_Now {A} (k : Z → prog A) g Φ : (∀ t, WP (k t) g Φ) → WP (Now k) g Φ.
Proof. intros Hk [|n]; [done|]. intros t. apply Hk. Qed.

Lemma WP_StdAbort {A} g (Φ : A → ghost → Prop) : may_abort g = true → WP (Die StdAbort) g Φ.
Proof. by intros ? [|n]. Qed.

(** Loops: an invariant of the turns. *)
Lemma WP_Loop {A S R} (I : S → ghost → Prop) (body : S → prog (S + R)) s (k : R → prog A) g Φ :
  (∀ s g, I s g → WP (body s) g (λ r g', match r with
                                         | inl s' => I s' g'
                                         | inr r => WP (k r) g' Φ
                                         end)) →
  I s g → WP (Loop body s k) g Φ.
Proof.
  intros Hbody Hs n. revert s g Hs. induction n as [|n IH]; intros s g Hs; [done|].
  simpl. specialize (Hbody s g Hs n). revert Hbody. apply wp_mono; [done|].
  intros [s'|r] g'; [apply IH|]. intros Hk. apply Hk.
Qed.

(** Inversion: what one operation leaves to be kept. *)
Lemma WP_Ret_inv {A} (a : A) g (Φ : A → ghost → Prop) : WP (Ret a) g Φ → Φ a g.
Proof. intros Hp. apply (Hp 1). Qed.
Lemma WP_QPop_inv {A} q (k : option T → prog A) g Φ :
  WP (QPop q k) g Φ → 0 < remaining g !!! q ∧ ∀ v, WP (k v) (after_pop q v g) Φ.
Proof. intros Hp. split; [apply (Hp 1)|]. intros v n. apply (Hp (S n)). Qed.
Lemma WP_QPush_inv {A} q v (k : prog A) g Φ :
  WP (QPush q v k) g Φ → q ∈ opened g ∧ WP k (after_push q v g) Φ.
Proof. intros Hp. split; [apply (Hp 1)|]. intros n. apply (Hp (S n)). Qed.
Lemma WP_QTryPop_inv {A} q (k : option (option Z) → prog A) g Φ :
  WP (QTryPop q k) g Φ → ∀ r, WP (k r) g Φ.
Proof. intros Hp r n. apply (Hp (S n)). Qed.
Lemma WP_QTryPush_inv {A} q v (k : bool → prog A) g Φ :
  WP (QTryPush q v k) g Φ → ∀ b, WP (k b) g Φ.
Proof. intros Hp b n. apply (Hp (S n)). Qed.
Lemma WP_Now_inv {A} (k : Z → prog A) g Φ : WP (Now k) g Φ → ∀ t, WP (k t) g Φ.
Proof. intros Hp t n. apply (Hp (S n)). Qed.
Lemma WP_Die_inv {A} c g (Φ : A → ghost → Prop) : WP (Die c) g Φ → c = StdAbort ∧ may_abort g = true.
Proof. intros Hp. apply (Hp 1). Qed.
Lemma WP_Loop_inv {A S R} (body : S → prog (S + R)) s (k : R → prog A) g Φ :
  WP (Loop body s k) g Φ → WP (unroll body s k) g Φ.
Proof. intros Hp n. apply wp_unroll, Hp. Qed.

(** ** Returned values

    [rets P p]: whatever the environment does, a result of [p] satisfies [P]. *)
Fixpoint rets {A} (P : A → Prop) (p : prog A) : Prop :=
  match p with
  | Ret a => P a
  | QPop q k => ∀ v, rets P (k v)
  | QPush q v k => rets P k
  | QTryPop q k => ∀ r, rets P (k r)
  | QTryPush q v k => ∀ b, rets P (k b)
  | Now k => ∀ t, rets P (k t)
  | Die c => True
  | Loop body s k =>
      ∃ I, I s ∧ ∀ s, I s → rets (λ r, match r with inl s' => I s' | inr r => rets P (k r) end) (body s)
  end.

Lemma rets_mono {A} (P Q : A → Prop) p : (∀ a, P a → Q a) → rets P p → rets Q p.
Proof.
  revert P Q. induction p as [A a|A q k IH|A q v k IH|A q k IH|A q v k IH|A k IH|A c|A S R body IHb s k IHk];
    intros P Q HPQ; simpl; eauto.
  intros (I & Hs & Hb). exists I. split; [done|]. intros s' Hs'. eapply IHb; [|by apply Hb].
  intros [s''|r]; simpl; eauto.
Qed.

Lemma rets_pbind {A B} (P : A → Prop) (Q : B → Prop) (p : prog A) (f : A → prog B) :
  rets P p → (∀ a, P a → rets Q (f a)) → rets Q (pbind f p).
Proof.
  induction p as [A a|A q k IH|A q v k IH|A q k IH|A q v k IH|A k IH|A c|A S R body IHb s k IHk];
    simpl; eauto.
  intros (I & Hs & Hb) Hf. exists I. split; [done|]. intros s' Hs'.
  eapply rets_mono; [|by apply Hb]. intros [s''|r]; simpl; eauto.
Qed.

Lemma wp_rets {A} n (P : A → Prop) p g (Φ : A → ghost → Prop) :
  rets P p → wp n p g Φ → wp n p g (λ a g', Φ a g' ∧ P a).
Proof.
  revert A P p g Φ. induction n as [|n IH]; intros A P p g Φ; [done|].
  destruct p as [a|q k|q v k|q k|q v k|k|c|S R body s k]; simpl; try naive_solver.
  intros (I & Hs & Hb) Hw. pose proof (IH _ _ _ _ _ (Hb s Hs) Hw) as Hw'. revert Hw'.
  apply wp_mono; [done|]. intros [s'|r] g' [Hw' HI]; apply IH; try done. simpl. eauto.
Qed.

Lemma WP_rets {A} (P : A → Prop) p g (Φ : A → ghost → Prop) :
  rets P p → WP p g Φ → WP p g (λ a g', Φ a g' ∧ P a).
Proof. intros Hr Hp n. by apply wp_rets. Qed.

Lemma wp_may_abort {A} n (p : prog A) b g (Φ : A → ghost → Prop) :
  may_abort g = b → wp n p g Φ → wp n p g (λ a g', Φ a g' ∧ may_abort g' = b).
Proof.
  revert A p g Φ. induction n as [|n IH]; intros A p g Φ Hb; [done|].
  destruct p as [a|q k|q v k|q k|q v k|k|c|S R body s k]; simpl; try naive_solver.
  intros Hw. pose proof (IH _ _ _ _ Hb Hw) as Hw'. revert Hw'.
  apply wp_mono; [done|]. intros [s'|r] g' [Hw' HI]; by apply IH.
Qed.

Lemma WP_may_abort {A} (p : prog A) g (Φ : A → ghost → Prop) :
  WP p g Φ → WP p g (λ a g', Φ a g' ∧ may_abort g' = may_abort g).
Proof. intros Hp n. by apply wp_may_abort. Qed.

End prog.

Arguments prog : clear implicits.
Arguments event : clear implicits.
Arguments ghost : clear implicits.
Arguments Ret {T A} _.
Arguments QPop {T A} _ _.
Arguments QPush {T A} _ _ _.
Arguments QTryPop {T A} _ _.
Arguments QTryPush {T A} _ _ _.
Arguments Now {T A} _.
Arguments Die {T A} _.
Arguments Loop {T A S R} _ _ _.
