(* ===== verification/Processor.v ===== *)
(** * Processors: [tunnel/processor.h], [tunnel/channel.h]

    The state of a [Processor] object, the coroutine monad in which the member
    functions are written, and the member functions of the base class: [Pop],
    [Push], [close_input], [close_output].  [work], [hosted_mode] and
    [work_with_exception] are in [Nodes].

    A member function that is a coroutine is a value of [M A]: it passes the
    state of the object, may throw, and meets its environment through the
    operations of [prog]. *)

From stdpp Require Import base gmap strings list fin_maps.
From S2P Require Import Prelude Events Coro.

(** The result of a call that may throw: a value or the exception. *)
Inductive attempt (A : Type) : Type :=
| Value (a : A)
| Raised (e : exn).
Arguments Value {A} _.
Arguments Raised {A} _.

(** ** [channel.h] *)

Definition default_channel_size : Z := 1.

(** A channel is a (possibly null) shared pointer to a queue and an index. *)
Record channel := Channel { queue_ptr : option qid; index_ : Z }.

Definition Channel_null : channel := Channel None 0.
Definition Channel_of_queue (q : qid) : channel := Channel (Some q) 0.
(** [Channel(size_t capacity)] allocates the queue and leaves [index_]
    uninitialised: [garbage] stands for its indeterminate value. *)
Definition Channel_of_capacity (garbage : Z) (q : qid) : channel := Channel (Some q) garbage.

Definition Channel_bool (c : channel) : bool := match queue_ptr c with Some _ => true | None => false end.
Definition SetIndex (i : Z) (c : channel) : channel := Channel (queue_ptr c) i.
Definition GetIndex (c : channel) : Z := index_ c.
Definition Channel_reset (c : channel) : channel := Channel None (index_ c).

Section processor.
Context {T U : Type}.

(** ** The classes of nodes and the virtual functions their users provide

    A user function may keep state (of type [U], the data members of the
    user's class) and may throw. *)
Inductive kind : Type :=
| KSource (generate : U → U * attempt (option T))
| KEmptySource
| KChannelSource
| KSink (consume : U → T → U * attempt unit)
| KDumpSink
| KChannelSink
| KSimpleTransform (transform : U → T → U * attempt T)
| KNoOpTransform
| KFilter (filter : U → T → U * attempt bool)
| KAccumulate (consume : U → T → U * attempt unit) (generate : U → U * attempt T)
| KConcat
| KDispatch (dispatch : U → T → U * attempt Z)
| KFork.

Record node := Node {
  processor_id_ : Z;
  name_ : string;
  abort_port : channel;
  event_collector_ : EventCollector;
  ex_ : option Z;                     (* the bound executor, if any *)
  input_port : channel;
  output_port : channel;
  input_count_ : Z;
  inputs_ : list channel;             (* MultiIOneO *)
  input_size_ : Z;
  outputs_ : list channel;            (* OneIMultiO *)
  output_size_ : Z;
  local_count : Z;                    (* the local [input_count] of MultiIOneO *)
  node_kind : kind;
  user_state : U;
}.

Definition set_abort_port (c : channel) (n : node) : node :=
  Node (processor_id_ n) (name_ n) c (event_collector_ n) (ex_ n) (input_port n) (output_port n)
    (input_count_ n) (inputs_ n) (input_size_ n) (outputs_ n) (output_size_ n) (local_count n)
    (node_kind n) (user_state n).
Definition set_collector (e : EventCollector) (n : node) : node :=
  Node (processor_id_ n) (name_ n) (abort_port n) e (ex_ n) (input_port n) (output_port n)
    (input_count_ n) (inputs_ n) (input_size_ n) (outputs_ n) (output_size_ n) (local_count n)
    (node_kind n) (user_state n).
Definition set_ex (ex : option Z) (n : node) : node :=
  Node (processor_id_ n) (name_ n) (abort_port n) (event_collector_ n) ex (input_port n) (output_port n)
    (input_count_ n) (inputs_ n) (input_size_ n) (outputs_ n) (output_size_ n) (local_count n)
    (node_kind n) (user_state n).
Definition set_input_port (c : channel) (n : node) : node :=
  Node (processor_id_ n) (name_ n) (abort_port n) (event_collector_ n) (ex_ n) c (output_port n)
    (input_count_ n) (inputs_ n) (input_size_ n) (outputs_ n) (output_size_ n) (local_count n)
    (node_kind n) (user_state n).
Definition set_output_port (c : channel) (n : node) : node :=
  Node (processor_id_ n) (name_ n) (abort_port n) (event_collector_ n) (ex_ n) (input_port n) c
    (input_count_ n) (inputs_ n) (input_size_ n) (outputs_ n) (output_size_ n) (local_count n)
    (node_kind n) (user_state n).
Definition set_input_count (k : Z) (n : node) : node :=
  Node (processor_id_ n) (name_ n) (abort_port n) (event_collector_ n) (ex_ n) (input_port n) (output_port n)
    k (inputs_ n) (input_size_ n) (outputs_ n) (output_size_ n) (local_count n)
    (node_kind n) (user_state n).
Definition set_inputs (l : list channel) (n : node) : node :=
  Node (processor_id_ n) (name_ n) (abort_port n) (event_collector_ n) (ex_ n) (input_port n) (output_port n)
    (input_count_ n) l (input_size_ n) (outputs_ n) (output_size_ n) (local_count n)
    (node_kind n) (user_state n).
Definition set_outputs (l : list channel) (n : node) : node :=
  Node (processor_id_ n) (name_ n) (abort_port n) (event_collector_ n) (ex_ n) (input_port n) (output_port n)
    (input_count_ n) (inputs_ n) (input_size_ n) l (output_size_ n) (local_count n)
    (node_kind n) (user_state n).
Definition set_local_count (k : Z) (n : node) : node :=
  Node (processor_id_ n) (name_ n) (abort_port n) (event_collector_ n) (ex_ n) (input_port n) (output_port n)
    (input_count_ n) (inputs_ n) (input_size_ n) (outputs_ n) (output_size_ n) k
    (node_kind n) (user_state n).
Definition set_user_state (u : U) (n : node) : node :=
  Node (processor_id_ n) (name_ n) (abort_port n) (event_collector_ n) (ex_ n) (input_port n) (output_port n)
    (input_count_ n) (inputs_ n) (input_size_ n) (outputs_ n) (output_size_ n) (local_count n)
    (node_kind n) u.

(** [Processor(const std::string &name)] and the constructors of the derived
    classes: the id comes from [detail::GenerateId], the ports are null. *)
Definition make_node (id : Z) (name : string) (in_size out_size : Z) (k : kind) (u : U) : node :=
  Node id name Channel_null (EventCollector_init id name) None Channel_null Channel_null
    (match k with KChannelSource => 1 | _ => 0 end) [] in_size [] out_size 0 k u.

(** [SetInputPort], [SetOutputPort], [AddInputPort], [AddOutputPort],
    [BindAbortChannel], [SetBindExecutor] *)
Definition SetInputPort (c : channel) (n : node) : node :=
  set_input_count (u64 (input_count_ n + 1)) (set_input_port c n).
Definition SetOutputPort (c : channel) (n : node) : node := set_output_port c n.
Definition AddInputPort (c : channel) (n : node) : node := set_inputs (inputs_ n ++ [c]) n.
Definition AddOutputPort (c : channel) (n : node) : node := set_outputs (outputs_ n ++ [c]) n.
Definition BindAbortChannel (c : channel) (n : node) : node := set_abort_port c n.
(** [ChannelSource::SetInputChannel] and [ChannelSink::SetOutputChannel] do not
    count as a writer. *)
Definition SetInputChannel (c : channel) (n : node) : node := set_input_port c n.
Definition SetOutputChannel (c : channel) (n : node) : node := set_output_port c n.
Definition SetBindExecutor (ex : Z) (n : node) : node := set_ex (Some ex) n.

(** ** The coroutine monad *)

Definition M (A : Type) : Type := node → prog T (node * attempt A).

#[export] Instance M_ret : MRet M := λ A a n, Ret (n, Value a).
#[export] Instance M_bind : MBind M := λ A B f m n,
  pbind (λ '(n', r), match r with Value a => f a n' | Raised e => Ret (n', Raised e) end) (m n).

Definition raise {A} (e : exn) : M A := λ n, Ret (n, Raised e).
Definition die {A} (c : crash) : M A := λ n, Die c.
(** [co_await m.coAwaitTry()] *)
Definition co_try {A} (m : M A) : M (attempt A) := λ n,
  pbind (λ '(n', r), Ret (n', Value r)) (m n).
Definition gets {A} (f : node → A) : M A := λ n, Ret (n, Value (f n)).
Definition modify (f : node → node) : M unit := λ n, Ret (f n, Value tt).
Definition assert_ (b : bool) : M unit := if b then mret tt else die AssertFail.

(** [while (true) { ... }]: a turn goes on ([inl]) or leaves the loop with a
    result ([inr]); an exception leaves the loop too. *)
Definition while_true {R} (body : M (unit + R)) : M R := λ n,
  Loop (λ n, pbind (λ '(n', r), Ret (match r with
                                     | Value (inl _) => inl n'
                                     | Value (inr r) => inr (n', Value r)
                                     | Raised e => inr (n', Raised e)
                                     end)) (body n)) n Ret.

(** [for (size_t i = 0; i < size; ++i) { ... }] *)
Fixpoint for_each (l : list Z) (body : Z → M unit) : M unit :=
  match l with
  | [] => mret tt
  | i :: l => body i ;; for_each l body
  end.
Definition indices (size : Z) : list Z := Z.of_nat <$> seq 0 (Z.to_nat size).
Definition for_upto (size : Z) (body : Z → M unit) : M unit := for_each (indices size) body.

(** User functions: virtual calls with access to the user's data members. *)
Definition call_user {A} (f : U → U * attempt A) : M A := λ n,
  let '(u, r) := f (user_state n) in Ret (set_user_state u n, r).

(** Operations on queues. *)
Definition queue_Pop (q : qid) : M (option T) := λ n, QPop q (λ v, Ret (n, Value v)).
Definition queue_Push (q : qid) (v : option T) : M unit := λ n, QPush q v (Ret (n, Value tt)).
Definition abort_TryPop (q : aqid) : M (option (option Z)) := λ n, QTryPop q (λ r, Ret (n, Value r)).
Definition abort_TryPush (q : aqid) (v : option Z) : M bool := λ n, QTryPush q v (λ b, Ret (n, Value b)).
Definition clock_now : M Z := λ n, Now (λ t, Ret (n, Value t)).

(** ** References to channels and to counters

    [Channel<T>&] refers to [input_port], [output_port] or an element of
    [inputs_] or [outputs_]; [size_t&] to [input_count_] or to a local. *)
Inductive chan_ref := RefInput | RefOutput | RefInputs (i : nat) | RefOutputs (i : nat).
Inductive count_ref := RefInputCount | RefLocalCount.

Definition chan (r : chan_ref) (n : node) : channel :=
  match r with
  | RefInput => input_port n
  | RefOutput => output_port n
  | RefInputs i => default Channel_null (inputs_ n !! i)
  | RefOutputs i => default Channel_null (outputs_ n !! i)
  end.

Definition set_chan (r : chan_ref) (c : channel) (n : node) : node :=
  match r with
  | RefInput => set_input_port c n
  | RefOutput => set_output_port c n
  | RefInputs i => set_inputs (<[i := c]> (inputs_ n)) n
  | RefOutputs i => set_outputs (<[i := c]> (outputs_ n)) n
  end.

Definition count (r : count_ref) (n : node) : Z :=
  match r with RefInputCount => input_count_ n | RefLocalCount => local_count n end.
Definition set_count (r : count_ref) (k : Z) (n : node) : node :=
  match r with RefInputCount => set_input_count k n | RefLocalCount => set_local_count k n end.

(** [*queue_]: dereferencing a null pointer is undefined. *)
Definition GetQueue (r : chan_ref) : M qid :=
  p ← gets (λ n, queue_ptr (chan r n));
  match p with Some q => mret q | None => die UndefinedBehaviour end.

Definition reset (r : chan_ref) : M unit := modify (λ n, set_chan r (Channel_reset (chan r n)) n).

(** [MultiIOneO::GetChannel] and [OneIMultiO::GetChannel]: [at] throws when
    the index is out of range. *)
Definition GetChannel_in (index : Z) : M chan_ref :=
  l ← gets inputs_;
  if decide (0 ≤ index < Z.of_nat (length l))%Z then
    modify (λ n, set_chan (RefInputs (Z.to_nat index))
                   (SetIndex index (chan (RefInputs (Z.to_nat index)) n)) n) ;;
    mret (RefInputs (Z.to_nat index))
  else raise "vector::_M_range_check".

Definition GetChannel_out (index : Z) : M chan_ref :=
  l ← gets outputs_;
  if decide (0 ≤ index < Z.of_nat (length l))%Z then
    modify (λ n, set_chan (RefOutputs (Z.to_nat index))
                   (SetIndex index (chan (RefOutputs (Z.to_nat index)) n)) n) ;;
    mret (RefOutputs (Z.to_nat index))
  else raise "vector::_M_range_check".

(** ** Events *)

(** The byte counts of [RecordTransferredBytes<T>]; the constant 0 where the
    type does not have the trait. *)
Context (GetTransferredBytes : T → Z).

Definition transferred (v : option T) : Z :=
  match v with Some x => GetTransferredBytes x | None => 0 end.
Definition is_eof (v : option T) : bool := match v with Some _ => false | None => true end.

Definition record_input (index bytes : Z) (eof : bool) : M unit :=
  seen ← gets (λ n, input_ports_statistic_ (event_collector_ n) !! index);
  first ← match seen with None => clock_now | Some _ => mret 0%Z end;
  last ← (if eof then clock_now else mret 0%Z);
  modify (λ n, set_collector (InputPortRead index bytes eof first last (event_collector_ n)) n).

Definition record_output (index bytes : Z) (eof : bool) : M unit :=
  seen ← gets (λ n, output_ports_statistic_ (event_collector_ n) !! index);
  first ← match seen with None => clock_now | Some _ => mret 0%Z end;
  last ← (if eof then clock_now else mret 0%Z);
  modify (λ n, set_collector (OutputPortWrite index bytes eof first last (event_collector_ n)) n).

(** ** The base class *)

(** [if (abort_port) { ... TryPop() ... throw }] at the end of [Pop] and
    [Push]. *)
Definition check_abort : M unit :=
  p ← gets (λ n, queue_ptr (abort_port n));
  match p with
  | None => mret tt
  | Some a =>
      abort_info ← abort_TryPop a;
      match abort_info with
      | Some _ => raise "throw by abort channel"
      | None => mret tt
      end
  end.

(** [Processor<T>::Pop(Channel<T> &input, size_t &input_count)] *)
Definition Pop_counted (input : chan_ref) (input_count : count_ref) : M (option T) :=
  while_true (
    q ← GetQueue input;
    value ← queue_Pop q;
    index ← gets (λ n, GetIndex (chan input n));
    record_input index (transferred value) (is_eof value) ;;
    should_return ←
      (if is_eof value then
         k ← gets (count input_count);
         assert_ (bool_decide (k > 0)%Z) ;;
         modify (set_count input_count (k - 1)) ;;
         if decide (k - 1 = 0)%Z then reset input ;; mret true else mret false
       else mret true);
    if (should_return && is_eof value)%bool then mret (inr value)
    else
      check_abort ;;
      if should_return then mret (inr value) else mret (inl tt)).

(** [Processor<T>::Pop(Channel<T> &input)], and its override in MultiIOneO *)
Definition Pop_port (input : chan_ref) : M (option T) := Pop_counted input RefInputCount.
Definition Pop_multi (input : chan_ref) : M (option T) :=
  modify (set_local_count 1) ;; Pop_counted input RefLocalCount.

(** [Processor<T>::Push(std::optional<T> &&v, Channel<T> &output)] *)
Definition Push_port (v : option T) (output : chan_ref) : M unit :=
  q ← GetQueue output;
  queue_Push q v ;;
  index ← gets (λ n, GetIndex (chan output n));
  record_output index (transferred v) (is_eof v) ;;
  (if is_eof v then reset output else mret tt) ;;
  check_abort.

(** [close_input] and [close_output], used in hosted mode *)
Definition close_input (input : chan_ref) (input_count : count_ref) : M unit :=
  p ← gets (λ n, queue_ptr (chan input n));
  match p with
  | None => mret tt
  | Some q =>
      while_true (
        value ← queue_Pop q;
        if is_eof value then
          k ← gets (count input_count);
          assert_ (bool_decide (k > 0)%Z) ;;
          modify (set_count input_count (k - 1)) ;;
          if decide (k - 1 = 0)%Z then mret (inr tt) else mret (inl tt)
        else mret (inl tt))
  end.

Definition close_output (output : chan_ref) : M unit :=
  p ← gets (λ n, queue_ptr (chan output n));
  match p with
  | None => mret tt
  | Some q => queue_Push q None
  end.

End processor.

Arguments kind : clear implicits.
Arguments node : clear implicits.
Arguments M : clear implicits.
