(* ===== verification/PortLogic.v ===== *)
(** * The port protocol of the base class

    Rules of the program logic of [Coro] for the coroutine monad of
    [Processor], and the specifications of [Pop], [Push], [close_input] and
    [close_output] against the port protocol. *)

From stdpp Require Import base gmap strings list fin_maps.
From S2P Require Import Prelude Events Coro Processor.

Section rules.
Context {T U : Type}.
Implicit Types (n : node T U) (g : ghost T).

Definition wpM {A} (m : M T U A) n g (Φ : node T U → attempt A → ghost T → Prop) : Prop :=
  WP (m n) g (λ '(n', r) g', Φ n' r g').

Lemma wpM_mono {A} (m : M T U A) n g (Φ Ψ : node T U → attempt A → ghost T → Prop) :
  (∀ n' r g', Φ n' r g' → Ψ n' r g') → wpM m n g Φ → wpM m n g Ψ.
Proof. intros HΦ. apply WP_mono. intros [n' r] g'. apply HΦ. Qed.

Lemma wpM_ret {A} (a : A) n g Φ : Φ n (Value a) g → wpM (mret a) n g Φ.
Proof. intros H. by apply WP_Ret. Qed.

Lemma wpM_raise {A} e n g (Φ : node T U → attempt A → ghost T → Prop) :
  Φ n (Raised e) g → wpM (raise e) n g Φ.
Proof. intros H. by apply WP_Ret. Qed.

Lemma wpM_die {A} n g (Φ : node T U → attempt A → ghost T → Prop) :
  may_abort g = true → wpM (die StdAbort) n g Φ.
Proof. apply WP_StdAbort. Qed.

Lemma wpM_bind {A B} (m : M T U A) (f : A → M T U B) n g Φ :
  wpM m n g (λ n' r g', match r with
                        | Value a => wpM (f a) n' g' Φ
                        | Raised e => Φ n' (Raised e) g'
                        end) →
  wpM (m ≫= f) n g Φ.
Proof.
  intros Hm. apply WP_pbind. revert Hm. apply WP_mono.
  intros [n' [a|e]] g'; [done|]. intros. by apply WP_Ret.
Qed.

Lemma wpM_gets {A} (f : node T U → A) n g Φ : Φ n (Value (f n)) g → wpM (gets f) n g Φ.
Proof. intros H. by apply WP_Ret. Qed.

Lemma wpM_modify f n g (Φ : node T U → attempt unit → ghost T → Prop) :
  Φ (f n) (Value tt) g → wpM (modify f) n g Φ.
Proof. intros H. by apply WP_Ret. Qed.

Lemma wpM_assert b n g (Φ : node T U → attempt unit → ghost T → Prop) :
  b = true → Φ n (Value tt) g → wpM (assert_ b) n g Φ.
Proof. intros -> H. by apply WP_Ret. Qed.

Lemma wpM_co_try {A} (m : M T U A) n g Φ :
  wpM m n g (λ n' r g', Φ n' (Value r) g') → wpM (co_try m) n g Φ.
Proof.
  intros Hm. apply WP_pbind. revert Hm. apply WP_mono.
  intros [n' r] g' H. by apply WP_Ret.
Qed.

Lemma wpM_call_user {A} (f : U → U * attempt A) n g Φ :
  (∀ u r, f (user_state n) = (u, r) → Φ (set_user_state u n) r g) → wpM (call_user f) n g Φ.
Proof.
  intros H. unfold wpM, call_user. destruct (f (user_state n)) as [u r] eqn:Hf.
  apply WP_Ret. by apply H.
Qed.

Lemma wpM_queue_Pop q n g Φ :
  0 < remaining g !!! q → (∀ v, Φ n (Value v) (after_pop q v g)) → wpM (queue_Pop q) n g Φ.
Proof. intros Hq H. apply WP_QPop; [done|]. intros v. by apply WP_Ret. Qed.

Lemma wpM_queue_Push q v n g Φ :
  q ∈ opened g → Φ n (Value tt) (after_push q v g) → wpM (queue_Push q v) n g Φ.
Proof. intros Hq H. apply WP_QPush; [done|]. by apply WP_Ret. Qed.

Lemma wpM_abort_TryPop a n g Φ : (∀ r, Φ n (Value r) g) → wpM (abort_TryPop a) n g Φ.
Proof. intros H. apply WP_QTryPop. intros r. by apply WP_Ret. Qed.

Lemma wpM_abort_TryPush a v n g Φ : (∀ r, Φ n (Value r) g) → wpM (abort_TryPush a v) n g Φ.
Proof. intros H. apply WP_QTryPush. intros r. by apply WP_Ret. Qed.

Lemma wpM_clock n g Φ : (∀ t, Φ n (Value t) g) → wpM clock_now n g Φ.
Proof. intros H. apply WP_Now. intros r. by apply WP_Ret. Qed.

Lemma wpM_while_true {R} (I : node T U → ghost T → Prop) (body : M T U (unit + R)) n g Φ :
  (∀ n g, I n g → wpM body n g (λ n' r g', match r with
                                           | Value (inl _) => I n' g'
                                           | Value (inr r) => Φ n' (Value r) g'
                                           | Raised e => Φ n' (Raised e) g'
                                           end)) →
  I n g → wpM (while_true body) n g Φ.
Proof.
  intros Hbody Hn. apply (WP_Loop I); [|done]. clear n g Hn. intros n g Hn.
  apply WP_pbind. apply (WP_mono _ _ _ _) with (2 := Hbody n g Hn).
  intros [n' [[?|r]|e]] g' H; apply WP_Ret; [done| |]; by apply WP_Ret.
Qed.

Lemma wpM_for_each (I : list Z → node T U → ghost T → Prop) l (body : Z → M T U unit) n g Φ :
  (∀ i l n g, I (i :: l) n g →
     wpM (body i) n g (λ n' r g', match r with
                                  | Value _ => I l n' g'
                                  | Raised e => Φ n' (Raised e) g'
                                  end)) →
  (∀ n g, I [] n g → Φ n (Value tt) g) →
  I l n g → wpM (for_each l body) n g Φ.
Proof.
  intros Hbody Hend. revert n g. induction l as [|i l IH]; intros n g Hn; simpl.
  - apply wpM_ret. by apply Hend.
  - apply wpM_bind. eapply wpM_mono; [|by apply Hbody].
    intros n' [a|e] g' H; [by apply IH|done].
Qed.

(** Recording an event only changes the collector. *)
Lemma wpM_record_input index bytes eof n g (Φ : node T U → attempt unit → ghost T → Prop) :
  (∀ col, Φ (set_collector col n) (Value tt) g) → wpM (record_input index bytes eof) n g Φ.
Proof.
  intros H. unfold record_input. apply wpM_bind, wpM_gets, wpM_bind.
  assert (∀ t1, wpM (last ← (if eof then clock_now else mret 0%Z);
     modify (λ n, set_collector (InputPortRead index bytes eof t1 last (event_collector_ n)) n)) n g Φ) as Hl.
  { intros t1. apply wpM_bind. destruct eof; [apply wpM_clock; intros t|apply wpM_ret];
      by apply wpM_modify. }
  destruct (_ !! index); [apply wpM_ret|apply wpM_clock; intros t]; apply Hl.
Qed.

Lemma wpM_record_output index bytes eof n g (Φ : node T U → attempt unit → ghost T → Prop) :
  (∀ col, Φ (set_collector col n) (Value tt) g) → wpM (record_output index bytes eof) n g Φ.
Proof.
  intros H. unfold record_output. apply wpM_bind, wpM_gets, wpM_bind.
  assert (∀ t1, wpM (last ← (if eof then clock_now else mret 0%Z);
     modify (λ n, set_collector (OutputPortWrite index bytes eof t1 last (event_collector_ n)) n)) n g Φ) as Hl.
  { intros t1. apply wpM_bind. destruct eof; [apply wpM_clock; intros t|apply wpM_ret];
      by apply wpM_modify. }
  destruct (_ !! index); [apply wpM_ret|apply wpM_clock; intros t]; apply Hl.
Qed.

(** The abort channel can make any [Pop] or [Push] throw. *)
Lemma wpM_check_abort n g (Φ : node T U → attempt unit → ghost T → Prop) :
  Φ n (Value tt) g →
  (queue_ptr (abort_port n) ≠ None → Φ n (Raised "throw by abort channel") g) →
  wpM check_abort n g Φ.
Proof.
  intros Hv Hr. unfold check_abort. apply wpM_bind, wpM_gets.
  destruct (queue_ptr (abort_port n)) as [a|]; [|by apply wpM_ret].
  apply wpM_bind, wpM_abort_TryPop. intros [r|]; [apply wpM_raise; auto|by apply wpM_ret].
Qed.

Lemma wpM_GetQueue r q n g Φ :
  queue_ptr (chan r n) = Some q → Φ n (Value q) g → wpM (GetQueue r) n g Φ.
Proof. intros Hq H. unfold GetQueue. apply wpM_bind, wpM_gets. rewrite Hq. by apply wpM_ret. Qed.

Lemma wpM_reset r n g Φ :
  Φ (set_chan r (Channel_reset (chan r n)) n) (Value tt) g → wpM (reset r) n g Φ.
Proof. apply wpM_modify. Qed.

End rules.

(** Symbolic execution: apply the rule of the operation in front. *)
Ltac wp_step :=
  lazymatch goal with
  | |- wpM (mbind _ _) _ _ _ => apply wpM_bind
  | |- wpM (mret _) _ _ _ => apply wpM_ret
  | |- wpM (raise _) _ _ _ => apply wpM_raise
  | |- wpM (die StdAbort) _ _ _ => apply wpM_die
  | |- wpM (gets _) _ _ _ => apply wpM_gets
  | |- wpM (modify _) _ _ _ => apply wpM_modify
  | |- wpM (co_try _) _ _ _ => apply wpM_co_try
  | |- wpM (reset _) _ _ _ => apply wpM_reset
  | |- wpM clock_now _ _ _ => apply wpM_clock; intros ?
  | |- wpM (record_input _ _ _) _ _ _ => apply wpM_record_input; intros ?
  | |- wpM (record_output _ _ _) _ _ _ => apply wpM_record_output; intros ?
  end.
Ltac wp_steps := repeat wp_step.

(** ** Sequences of reads *)

Section pops.
Context {T : Type}.
Implicit Types (g : ghost T) (vs : list (option T)).

Definition pops (q : qid) (vs : list (option T)) (g : ghost T) : ghost T :=
  foldl (λ g v, after_pop q v g) g vs.

Fixpoint eofs (vs : list (option T)) : nat :=
  match vs with [] => 0 | None :: vs => S (eofs vs) | Some _ :: vs => eofs vs end.

(** The data in a sequence of reads. *)
Definition data (vs : list (option T)) : list T := omap id vs.

Lemma eofs_app vs ws : eofs (vs ++ ws) = eofs vs + eofs ws.
Proof. induction vs as [|[x|] vs IH]; simpl; lia. Qed.

Lemma eofs_replicate j : eofs (replicate j (@None T)) = j.
Proof. induction j; simpl; lia. Qed.

Lemma data_replicate j : data (replicate j (@None T)) = [].
Proof. by induction j. Qed.

Lemma data_app vs ws : data (vs ++ ws) = data vs ++ data ws.
Proof. apply omap_app. Qed.

Lemma pops_snoc q vs v g : pops q (vs ++ [v]) g = after_pop q v (pops q vs g).
Proof. unfold pops. by rewrite foldl_app. Qed.

Lemma trace_pops q vs g : trace (pops q vs g) = trace g ++ (Got q <$> vs).
Proof.
  induction vs as [|v vs IH] using rev_ind; [by rewrite app_nil_r|].
  rewrite pops_snoc, fmap_app, app_assoc, <- IH. done.
Qed.

Lemma opened_pops q vs g : opened (pops q vs g) = opened g.
Proof. induction vs using rev_ind; [done|]. by rewrite pops_snoc. Qed.

Lemma remaining_pops q vs g q' :
  remaining (pops q vs g) !!! q' =
    if decide (q = q') then remaining g !!! q - eofs vs else remaining g !!! q'.
Proof.
  induction vs as [|v vs IH] using rev_ind.
  - simpl. case_decide; subst; [lia|done].
  - rewrite pops_snoc, eofs_app. destruct v as [x|]; simpl.
    + rewrite IH. case_decide; [lia|done].
    + rewrite lookup_total_insert. case_decide as Hq; [|done].
      subst. rewrite IH. lia.
Qed.

Lemma remaining_pops_eq q vs g :
  remaining (pops q vs g) !!! q = remaining g !!! q - eofs vs.
Proof. by rewrite remaining_pops, decide_True. Qed.

Lemma remaining_pops_ne q q' vs g :
  q ≠ q' → remaining (pops q vs g) !!! q' = remaining g !!! q'.
Proof. intros. by rewrite remaining_pops, decide_False. Qed.
End pops.

(** ** Specifications of the base class *)

Section specs.
Context {T U : Type} (GetTransferredBytes : T → Z).
Implicit Types (n : node T U) (g : ghost T).

Lemma chan_touch r c col k n : chan r (set_collector col (set_count c k n)) = chan r n.
Proof. by destruct r, c, n. Qed.
Lemma count_touch c col k n : count c (set_collector col (set_count c k n)) = k.
Proof. by destruct c, n. Qed.
Lemma collector_twice col col' n : set_collector col' (set_collector col n) = set_collector col' n.
Proof. done. Qed.
Lemma touch_touch c k col' k' n :
  set_count c k' (set_collector col' (set_count c k n))
  = set_collector col' (set_count c k' n).
Proof. by destruct c, n. Qed.
Lemma abort_touch c col k n :
  abort_port (set_collector col (set_count c k n)) = abort_port n.
Proof. by destruct c, n. Qed.

(** [Pop]: skips the ends of file that are not the last one.  It returns a
    value, or the last end of file (then the port is reset), or throws
    because of the abort channel (then the counter is what it has to be). *)
Lemma Pop_counted_spec r c q K n g Φ :
  queue_ptr (chan r n) = Some q → count c n = Z.of_nat K → 0 < K → remaining g !!! q = K →
  (∀ col j x, j < K →
     Φ (set_collector col (set_count c (Z.of_nat (K - j)) n)) (Value (Some x))
       (pops q (replicate j None ++ [Some x]) g)) →
  (∀ col, Φ (set_collector col (set_chan r (Channel_reset (chan r n)) (set_count c 0 n))) (Value None)
            (pops q (replicate K None) g)) →
  (∀ col vs, eofs vs < K → queue_ptr (abort_port n) ≠ None →
     Φ (set_collector col (set_count c (Z.of_nat (K - eofs vs)) n)) (Raised "throw by abort channel")
       (pops q vs g)) →
  wpM (Pop_counted GetTransferredBytes r c) n g Φ.
Proof.
  intros Hq Hc HK Hrem Hval Heof Habort.
  apply (wpM_while_true (λ n1 g1, ∃ col j, j < K ∧
    n1 = set_collector col (set_count c (Z.of_nat (K - j)) n) ∧ g1 = pops q (replicate j None) g)).
  2:{ exists (event_collector_ n), 0. split; [done|]. rewrite Nat.sub_0_r, <- Hc.
      by destruct n, c. }
  clear Hc. intros n1 g1 (col & j & Hj & -> & ->).
  wp_step. apply (wpM_GetQueue _ q); [by rewrite chan_touch|].
  wp_step. apply wpM_queue_Pop; [rewrite remaining_pops_eq, eofs_replicate; lia|]. intros v.
  rewrite <- pops_snoc. do 5 wp_step. rewrite collector_twice. destruct v as [x|]; simpl.
  - wp_steps. cbn [andb]. wp_step. apply wpM_check_abort; [wp_steps; by apply Hval|].
    intros Ha. specialize (Habort col0 (replicate j None ++ [Some x])).
    rewrite eofs_app, eofs_replicate, Nat.add_0_r in Habort. rewrite <- (abort_touch c col0 (Z.of_nat (K - j))) in Habort.
    by apply Habort.
  - wp_step. wp_step. wp_step. rewrite (count_touch c col0). apply wpM_assert.
    { rewrite bool_decide_true by lia. done. }
    wp_step. wp_step. rewrite touch_touch.
    case_decide as Hlast.
    + assert (j = K - 1) as -> by lia. wp_steps. cbn [andb]. wp_steps.
      rewrite chan_touch. specialize (Heof col0). clear Habort Hval.
      rewrite <- (replicate_S_end (K - 1)). replace (S (K - 1)) with K by lia.
      replace (Z.of_nat (K - (K - 1)) - 1)%Z with 0%Z by lia.
      revert Heof. by destruct r, c, n.
    + wp_steps. cbn [andb]. wp_step. apply wpM_check_abort.
      * wp_steps. exists col0, (S j). split; [lia|]. rewrite <- replicate_S_end.
        split; [|done]. do 2 f_equal. lia.
      * intros Ha. rewrite abort_touch in Ha.
        specialize (Habort col0 (replicate (S j) None)). rewrite eofs_replicate in Habort.
        rewrite <- replicate_S_end. replace (Z.of_nat (K - j) - 1)%Z with (Z.of_nat (K - S j)) by lia.
        apply Habort; [lia|done].
Qed.

(** [Push]: writes, and resets the port after an end of file; the abort
    channel can make it throw after the write. *)
Lemma Push_port_spec r q v n g Φ :
  queue_ptr (chan r n) = Some q → q ∈ opened g →
  (∀ col res, res = Value tt ∨ (res = Raised "throw by abort channel" ∧ queue_ptr (abort_port n) ≠ None) →
     Φ (set_collector col (if is_eof v then set_chan r (Channel_reset (chan r n)) n else n)) res
       (after_push q v g)) →
  wpM (Push_port GetTransferredBytes v r) n g Φ.
Proof.
  intros Hq Ho HΦ. unfold Push_port.
  wp_step. apply (wpM_GetQueue _ q); [done|]. wp_step. apply wpM_queue_Push; [done|].
  wp_step. wp_step. wp_step. wp_step. wp_step.
  destruct v as [x|]; cbn [is_eof]; wp_steps.
  - apply wpM_check_abort; [apply HΦ; by left|]. intros Ha. apply HΦ. by right.
  - assert (∀ col, set_chan r (Channel_reset (chan r (set_collector col n))) (set_collector col n)
       = set_collector col (set_chan r (Channel_reset (chan r n)) n)) as Hset by (by destruct r, n).
    rewrite Hset. apply wpM_check_abort; [apply HΦ; by left|].
    intros Ha. apply HΦ. right. split; [done|]. revert Ha. by destruct r, n.
Qed.

(** [close_input]: reads until the last expected end of file. *)
Lemma close_input_spec r c q K n g Φ :
  queue_ptr (chan r n) = Some q → count c n = Z.of_nat K → 0 < K → remaining g !!! q = K →
  (∀ vs, eofs vs = K → Φ (set_count c 0 n) (Value tt) (pops q vs g)) →
  wpM (close_input r c) n g Φ.
Proof.
  intros Hq Hc HK Hrem HΦ. unfold close_input. wp_step. wp_step. rewrite Hq.
  apply (wpM_while_true (λ n1 g1, ∃ vs, eofs vs < K ∧
    n1 = set_count c (Z.of_nat (K - eofs vs)) n ∧ g1 = pops q vs g)).
  2:{ exists []. split; [done|]. simpl. rewrite Nat.sub_0_r, <- Hc. by destruct n, c. }
  clear Hc. intros n1 g1 (vs & Hvs & -> & ->).
  wp_step. apply wpM_queue_Pop; [rewrite remaining_pops_eq; lia|]. intros v.
  rewrite <- pops_snoc. destruct v as [x|]; cbn [is_eof].
  - wp_step. exists (vs ++ [Some x]). rewrite eofs_app. simpl. by rewrite Nat.add_0_r.
  - wp_step. wp_step.
    assert (∀ k, count c (set_count c k n) = k) as -> by (by destruct c, n).
    wp_step. apply wpM_assert; [rewrite bool_decide_true by lia; done|]. wp_step. wp_step.
    assert (∀ k k', set_count c k' (set_count c k n) = set_count c k' n) as -> by (by destruct c, n).
    case_decide; wp_steps.
    + assert (eofs (vs ++ [None]) = K) as Hvs' by (rewrite eofs_app; simpl; lia).
      specialize (HΦ _ Hvs'). replace (Z.of_nat (K - eofs vs) - 1)%Z with 0%Z by lia. done.
    + exists (vs ++ [None]). rewrite eofs_app. simpl. split; [lia|]. split; [|done].
      f_equal. lia.
Qed.

Lemma close_input_null r c n g (Φ : node T U → attempt unit → ghost T → Prop) :
  queue_ptr (chan r n) = None → Φ n (Value tt) g → wpM (close_input r c) n g Φ.
Proof. intros Hq HΦ. unfold close_input. wp_step. wp_step. rewrite Hq. by wp_step. Qed.

Lemma close_output_spec r n g (Φ : node T U → attempt unit → ghost T → Prop) :
  match queue_ptr (chan r n) with
  | Some q => q ∈ opened g ∧ Φ n (Value tt) (after_push q None g)
  | None => Φ n (Value tt) g
  end → wpM (close_output r) n g Φ.
Proof.
  intros HΦ. unfold close_output. wp_step. wp_step. destruct (queue_ptr (chan r n)).
  - destruct HΦ. by apply wpM_queue_Push.
  - by wp_step.
Qed.

End specs.
