(* ===== verification/Nodes.v ===== *)
(** * The node classes

    [tunnel/source.h], [sink.h], [transform.h], [simple_transform.h],
    [filter.h], [accumulate.h], [concat.h], [dispatch.h], [fork.h],
    [multi_input_one_output.h], [one_input_multi_output.h],
    [channel_source.h], [channel_sink.h], [empty_source.h], [dump_sink.h] and
    [Processor::work_with_exception].

    Each class contributes its [work], [hosted_mode], [before_work] and
    [after_work]; the virtual dispatch is on [node_kind]. *)

From stdpp Require Import base gmap strings list fin_maps.
From S2P Require Import Prelude Events Coro Processor.

Section nodes.
Context {T U : Type} (GetTransferredBytes : T → Z).


(** [Source<T>::work] *)
Definition work_Source (generate : M T U (option T)) : M T U unit :=
  while_true (
    v ← generate;
    let read_eof := is_eof v in
    Push_port GetTransferredBytes v RefOutput ;;
    if read_eof then mret (inr tt) else mret (inl tt)).

(** [Sink<T>::work] *)
Definition work_Sink (consume : T → M T U unit) : M T U unit :=
  while_true (
    value ← Pop_port GetTransferredBytes RefInput;
    match value with
    | Some x => consume x ;; mret (inl tt)
    | None => mret (inr tt)
    end).

(** [SimpleTransform<T>::work] *)
Definition work_SimpleTransform (transform : T → M T U T) : M T U unit :=
  while_true (
    v ← Pop_port GetTransferredBytes RefInput;
    match v with
    | Some x => new_v ← transform x; Push_port GetTransferredBytes (Some new_v) RefOutput ;; mret (inl tt)
    | None => Push_port GetTransferredBytes None RefOutput ;; mret (inr tt)
    end).

(** [Filter<T>::work] *)
Definition work_Filter (filter : T → M T U bool) : M T U unit :=
  while_true (
    v ← Pop_port GetTransferredBytes RefInput;
    match v with
    | Some x =>
        need_filter ← filter x;
        (if negb need_filter then Push_port GetTransferredBytes (Some x) RefOutput else mret tt) ;;
        mret (inl tt)
    | None => Push_port GetTransferredBytes None RefOutput ;; mret (inr tt)
    end).

(** [Accumulate<T>::work] *)
Definition work_Accumulate (consume : T → M T U unit) (generate : M T U T) : M T U unit :=
  while_true (
    v ← Pop_port GetTransferredBytes RefInput;
    match v with
    | Some x => consume x ;; mret (inl tt)
    | None =>
        v ← generate;
        Push_port GetTransferredBytes (Some v) RefOutput ;;
        Push_port GetTransferredBytes None RefOutput ;;
        mret (inr tt)
    end).

(** [Concat<T>::work] *)
Definition work_Concat : M T U unit :=
  size ← gets input_size_;
  for_upto size (λ i,
    input ← GetChannel_in i;
    while_true (
      v ← Pop_multi GetTransferredBytes input;
      match v with
      | Some x => Push_port GetTransferredBytes (Some x) RefOutput ;; mret (inl tt)
      | None => mret (inr tt)
      end)) ;;
  Push_port GetTransferredBytes None RefOutput.

(** The end of [Dispatch<T>::work] and of [Fork<T>::work] *)
Definition push_all_eof : M T U unit :=
  size ← gets output_size_;
  for_upto size (λ i, output ← GetChannel_out i; Push_port GetTransferredBytes None output).

(** [Dispatch<T>::work]: the index is taken modulo [Size()]. *)
Definition work_Dispatch (dispatch : T → M T U Z) : M T U unit :=
  while_true (
    v ← Pop_port GetTransferredBytes RefInput;
    match v with
    | None => push_all_eof ;; mret (inr tt)
    | Some x =>
        d ← dispatch x;
        size ← gets output_size_;
        if decide (size = 0)%Z then die UndefinedBehaviour else
        output ← GetChannel_out (u64 d `mod` size)%Z;
        Push_port GetTransferredBytes (Some x) output ;;
        mret (inl tt)
    end).

(** [Fork<T>::work]; [copy_] is the copy constructor. *)
Definition copy_ (v : T) : T := v.

Definition work_Fork : M T U unit :=
  while_true (
    v ← Pop_port GetTransferredBytes RefInput;
    match v with
    | None => push_all_eof ;; mret (inr tt)
    | Some x =>
        size ← gets output_size_;
        for_upto size (λ i,
          output ← GetChannel_out i;
          if decide (i = size - 1)%Z then Push_port GetTransferredBytes (Some x) output
          else Push_port GetTransferredBytes (Some (copy_ x)) output) ;;
        mret (inl tt)
    end).

(** [generate] of [EmptySource] and [ChannelSource] *)
Definition generate_EmptySource : M T U (option T) := mret None.
Definition generate_ChannelSource : M T U (option T) := Pop_port GetTransferredBytes RefInput.

(** [consume] of [DumpSink] and [ChannelSink] *)
Definition consume_DumpSink (value : T) : M T U unit := mret tt.
Definition consume_ChannelSink (value : T) : M T U unit :=
  Push_port GetTransferredBytes (Some value) RefOutput.

(** [NoOpTransform::transform] *)
Definition transform_NoOp (value : T) : M T U T := mret value.

(** ** Virtual functions *)

Definition work (k : kind T U) : M T U unit :=
  match k with
  | KSource generate => work_Source (call_user generate)
  | KEmptySource => work_Source generate_EmptySource
  | KChannelSource => work_Source generate_ChannelSource
  | KSink consume => work_Sink (λ x, call_user (λ u, consume u x))
  | KDumpSink => work_Sink consume_DumpSink
  | KChannelSink => work_Sink consume_ChannelSink
  | KSimpleTransform transform => work_SimpleTransform (λ x, call_user (λ u, transform u x))
  | KNoOpTransform => work_SimpleTransform transform_NoOp
  | KFilter filter => work_Filter (λ x, call_user (λ u, filter u x))
  | KAccumulate consume generate =>
      work_Accumulate (λ x, call_user (λ u, consume u x)) (call_user generate)
  | KConcat => work_Concat
  | KDispatch dispatch => work_Dispatch (λ x, call_user (λ u, dispatch u x))
  | KFork => work_Fork
  end.

(** [hosted_mode]: read the inputs to their end, then end the outputs. *)
Definition hosted_mode_Source : M T U unit := close_output RefOutput.

Definition hosted_mode_Sink : M T U unit := close_input RefInput RefInputCount.

Definition hosted_mode_Transform : M T U unit :=
  close_input RefInput RefInputCount ;; close_output RefOutput.

Definition hosted_mode_ChannelSource : M T U unit :=
  close_input RefInput RefInputCount ;; close_output RefOutput.

Definition hosted_mode_ChannelSink : M T U unit :=
  close_input RefInput RefInputCount ;; close_output RefOutput.

Definition hosted_mode_MultiIOneO : M T U unit :=
  size ← gets input_size_;
  for_upto size (λ i,
    input ← GetChannel_in i;
    modify (set_local_count 1) ;;
    close_input input RefLocalCount) ;;
  close_output RefOutput.

Definition hosted_mode_OneIMultiO : M T U unit :=
  close_input RefInput RefInputCount ;;
  size ← gets output_size_;
  for_upto size (λ i, output ← GetChannel_out i; close_output output).

Definition hosted_mode (k : kind T U) : M T U unit :=
  match k with
  | KSource _ | KEmptySource => hosted_mode_Source
  | KSink _ | KDumpSink => hosted_mode_Sink
  | KChannelSource => hosted_mode_ChannelSource
  | KChannelSink => hosted_mode_ChannelSink
  | KSimpleTransform _ | KNoOpTransform | KFilter _ | KAccumulate _ _ => hosted_mode_Transform
  | KConcat => hosted_mode_MultiIOneO
  | KDispatch _ | KFork => hosted_mode_OneIMultiO
  end.

(** [before_work]: [None] if the checks pass, the exception otherwise. *)
Definition before_work_ChannelSource (n : node T U) : option exn :=
  if Channel_bool (input_port n) then None
  else Some "channel source should set input channel before work".

Definition before_work_ChannelSink (n : node T U) : option exn :=
  if Channel_bool (output_port n) then None
  else Some "channel sink should set output channel before work".

Definition before_work_MultiIOneO (n : node T U) : option exn :=
  if decide (Z.of_nat (length (inputs_ n)) = input_size_ n) then None
  else Some "multi_input_one_output check error".

Definition before_work_OneIMultiO (n : node T U) : option exn :=
  if decide (Z.of_nat (length (outputs_ n)) = output_size_ n) then None
  else Some "one_input_multi_output check error".

Definition before_work (k : kind T U) (n : node T U) : option exn :=
  match k with
  | KChannelSource => before_work_ChannelSource n
  | KChannelSink => before_work_ChannelSink n
  | KConcat => before_work_MultiIOneO n
  | KDispatch _ | KFork => before_work_OneIMultiO n
  | _ => None
  end.

(** [after_work]: only [ChannelSink] has one; it ends the bound channel. *)
Definition after_work_ChannelSink : M T U unit := q ← GetQueue RefOutput; queue_Push q None.

Definition after_work (k : kind T U) : M T U unit :=
  match k with
  | KChannelSink => after_work_ChannelSink
  | _ => mret tt
  end.

(** [Processor<T>::work_with_exception] *)
Definition work_with_exception : M T U unit := λ n,
  let k := node_kind n in
  (match before_work k n with
   | Some _ => die StdAbort
   | None =>
       now ← clock_now;
       modify (λ n, set_collector (WorkStart now (event_collector_ n)) n) ;;
       result ← co_try (work k);
       match result with
       | Raised e =>
           p ← gets (λ n, queue_ptr (abort_port n));
           match p with
           | None => die StdAbort
           | Some a =>
               _ ← abort_TryPush a (Some 0%Z);
               now ← clock_now;
               modify (λ n, set_collector (EnterHostedMode now (event_collector_ n)) n) ;;
               hosted_mode k ;;
               raise e
           end
       | Value _ => after_work k
       end ;;
       now ← clock_now;
       modify (λ n, set_collector (WorkEnd now (event_collector_ n)) n)
   end) n.

End nodes.
