(* ===== verification/Sockets.v ===== *)
(** * Socket nodes: [tunnel/socket_source.h], [tunnel/socket_sink.h] and the
      awaiters of [awaiter/asio/socket.h]

    A socket is modelled by the bytes in flight to it, by what a read meets
    after them, and by the bytes written to it.  The operations of the network
    library are a parameter ([Asio]) with their documented behaviour as laws.
    A coroutine that waits for bytes that never come has no result
    ([None]). *)

From stdpp Require Import base gmap strings list fin_maps.
From Stdlib Require Strings.Byte.
From S2P Require Import Prelude Events Coro Processor Nodes Wire.

#[local] Open Scope Z_scope.

(** ** Sockets *)

Inductive error_code := ec_none | ec_eof | ec_other (message : exn).

Record socket := Socket {
  rx : cpp_string;        (* bytes that arrive *)
  rx_end : error_code;    (* what comes after them; [ec_none]: nothing, a read waits *)
  tx : cpp_string;        (* bytes written so far *)
  tx_end : error_code;    (* what a write meets; [ec_none]: it succeeds *)
  is_open : bool;
}.

(** A coroutine on a socket: it waits for ever, or ends in an outcome. *)
Definition IO (A : Type) : Type := socket → option (socket * outcome A).

#[export] Instance IO_ret : MRet IO := λ A a s, Some (s, Ok a).
#[export] Instance IO_bind : MBind IO := λ A B f m s,
  match m s with
  | Some (s, Ok a) => f a s
  | Some (s, Throw e) => Some (s, Throw e)
  | Some (s, Crash c) => Some (s, Crash c)
  | None => None
  end.
Definition lift {A} (o : outcome A) : IO A := λ s, Some (s, o).
Definition io_throw {A} (e : exn) : IO A := lift (Throw e).

(** A reliable stream of bytes: a read gets the next [n] bytes, waits for them,
    or reports what comes instead; a write appends its bytes or fails. *)
Definition stream_read (n : Z) (s : socket) : option (socket * (error_code * cpp_string)) :=
  if decide (n ≤ size (rx s)) then
    Some (Socket (drop (Z.to_nat n) (rx s)) (rx_end s) (tx s) (tx_end s) (is_open s),
          (ec_none, take (Z.to_nat n) (rx s)))
  else match rx_end s with
       | ec_none => None
       | ec => Some (Socket [] (rx_end s) (tx s) (tx_end s) (is_open s), (ec, rx s))
       end.
Definition stream_write (bs : cpp_string) (s : socket) : socket * error_code :=
  match tx_end s with
  | ec_none => (Socket (rx s) (rx_end s) (tx s ++ bs) (tx_end s) (is_open s), ec_none)
  | ec => (s, ec)
  end.

(** What the code uses of asio, with its documented behaviour: [async_read]
    completes when the buffer is full or an error has occurred, [async_write]
    when all bytes are written or an error has occurred. *)
Record Asio := {
  eof_message : exn;
  async_read : Z → socket → option (socket * (error_code * cpp_string));
  async_write : cpp_string → socket → socket * error_code;
  async_read_full n s : n ≤ size (rx s) →
    async_read n s = Some (Socket (drop (Z.to_nat n) (rx s)) (rx_end s) (tx s) (tx_end s) (is_open s),
                           (ec_none, take (Z.to_nat n) (rx s)));
  async_read_wait n s : size (rx s) < n → rx_end s = ec_none → async_read n s = None;
  async_read_error n s : size (rx s) < n → rx_end s ≠ ec_none →
    async_read n s = Some (Socket [] (rx_end s) (tx s) (tx_end s) (is_open s), (rx_end s, rx s));
  async_write_all bs s : tx_end s = ec_none →
    async_write bs s = (Socket (rx s) (rx_end s) (tx s ++ bs) (tx_end s) (is_open s), ec_none);
  async_write_error bs s : tx_end s ≠ ec_none → async_write bs s = (s, tx_end s);
}.

Lemma async_read_eq (asio : Asio) n s : async_read asio n s = stream_read n s.
Proof.
  unfold stream_read. case_decide as Hn; [by apply async_read_full|].
  destruct (rx_end s) eqn:He; [by apply async_read_wait; [lia|]|..]; rewrite async_read_error by (lia || congruence); by rewrite He.
Qed.
Lemma async_write_eq (asio : Asio) bs s : async_write asio bs s = stream_write bs s.
Proof.
  unfold stream_write. destruct (tx_end s) eqn:He; [|rewrite async_write_error by congruence; by rewrite He..].
  rewrite async_write_all by done. by rewrite He.
Qed.

Definition stream_asio : Asio.
Proof.
  refine {| eof_message := "End of file"; async_read := stream_read; async_write := stream_write |};
    unfold stream_read, stream_write; intros.
  - by rewrite decide_True.
  - rewrite decide_False by lia. by destruct (rx_end s).
  - rewrite decide_False by lia. by destruct (rx_end s).
  - by rewrite H.
  - by destruct (tx_end s).
Defined.

Definition close (s : socket) : socket := Socket (rx s) (rx_end s) (tx s) (tx_end s) false.

(** ** The awaiters *)

Section awaiters.
Context (asio : Asio).

Definition message (ec : error_code) : exn :=
  match ec with ec_none => "" | ec_eof => eof_message asio | ec_other m => m end.

Record SocketAwaiterBase := AwaiterBase { succ_ : bool; err_msg_ : exn }.
Definition SocketAwaiterBase_init : SocketAwaiterBase := AwaiterBase true "".

Definition handle_error (ec : error_code) (b : SocketAwaiterBase) : SocketAwaiterBase :=
  match ec with ec_none => b | ec => AwaiterBase false (message ec) end.

Definition await_resume_or_throw {A} (v : A) (b : SocketAwaiterBase) : outcome A :=
  if succ_ b then Ok v else Throw (err_msg_ b).

(** The result is the part of the buffer that was filled. *)
Definition SocketReadAwaiter (n : Z) (throw_eof : bool) : IO cpp_string := λ s,
  '(s, (ec, transferred)) ← async_read asio n s;
  let b := SocketAwaiterBase_init in
  let '(b, transferred_) :=
    match ec with
    | ec_other _ => (handle_error ec b, [])
    | ec_eof => if throw_eof then (handle_error ec b, []) else (b, transferred)
    | ec_none => (b, transferred)
    end in
  Some (s, await_resume_or_throw transferred_ b).

Definition SocketWriteAwaiter (buf : cpp_string) : IO Z := λ s,
  let '(s, ec) := async_write asio buf s in
  let b := SocketAwaiterBase_init in
  let '(b, transferred_) :=
    match ec with ec_none => (b, size buf) | ec => (handle_error ec b, 0) end in
  Some (s, await_resume_or_throw transferred_ b).

(** [SocketConnectAwaiter] reports success or failure, [SocketAcceptAwaiter]
    the accepted socket. *)
Definition SocketConnectAwaiter (ec : error_code) : bool := succ_ (handle_error ec SocketAwaiterBase_init).
Definition SocketAcceptAwaiter (ec : error_code) (s : socket) : outcome socket :=
  await_resume_or_throw s (handle_error ec SocketAwaiterBase_init).

(** ** [SocketSource] *)

Section nodes.
Context `{Platform} {T : Type} `{Serializable T}.

Definition Read : IO (option T) :=
  buf ← SocketReadAwaiter 4 true;
  if decide (size buf ≠ 4) then io_throw "socket source read package error" else
  '(U32 length) ← lift (Deserialize buf);
  databuf ← SocketReadAwaiter length true;
  if decide (size databuf ≠ length) then io_throw "socket source read package error" else
  pkg ← lift (@Deserialize package package_serializable databuf);
  if eof pkg then mret None else
  v ← lift (Deserialize (bin_data pkg));
  mret (Some v).

Record SocketSource := MkSocketSource { src_socket_ : socket; src_connected_ : bool }.

(** [accept] is what the acceptor meets: nothing ([None]), an error when it is
    constructed, or the completion of [async_accept]. *)
Definition generate (accept : option (outcome (error_code * socket))) (n : SocketSource) :
    option (SocketSource * outcome (option T)) :=
  let read (n : SocketSource) :=
    '(s, r) ← Read (src_socket_ n);
    Some (MkSocketSource s (src_connected_ n), r) in
  if src_connected_ n then read n else
  acc ← accept;
  match (acc ≫= λ '(ec, s), SocketAcceptAwaiter ec s) with
  | Ok s => read (MkSocketSource s true)
  | Throw e => Some (n, Throw e)
  | Crash c => Some (n, Crash c)
  end.

Definition CloseSocketIfNot (n : SocketSource) : outcome SocketSource :=
  if src_connected_ n then
    _ ← cpp_assert (is_open (src_socket_ n));
    Ok (MkSocketSource (close (src_socket_ n)) false)
  else Ok n.

(** A function on the data members of the derived class, in the monad of the
    member functions. *)
Definition on_members {U} (f : U → outcome U) : M T U unit := λ n,
  match f (user_state n) with
  | Ok u => Ret (set_user_state u n, Value tt)
  | Throw e => Ret (n, Raised e)
  | Crash c => Die c
  end.

Definition after_work_SocketSource : M T SocketSource unit := on_members CloseSocketIfNot.
Definition hosted_mode_SocketSource : M T SocketSource unit :=
  on_members CloseSocketIfNot ;; close_output RefOutput.

(** ** [SocketSink] *)

Definition Write (value : T) : IO unit :=
  bin_data ← lift (Serialize value []);
  buf ← lift (Serialize_package (Package false bin_data) []);
  let length := u32 (size buf) in
  length_buf ← lift (Serialize (U32 length) []);
  _ ← SocketWriteAwaiter length_buf;
  _ ← SocketWriteAwaiter buf;
  mret tt.

Definition WriteEof : IO unit :=
  buf ← lift (Serialize_package (Package true []) []);
  let length := u32 (size buf) in
  length_buf ← lift (Serialize (U32 length) []);
  _ ← SocketWriteAwaiter length_buf;
  _ ← SocketWriteAwaiter buf;
  mret tt.

(** [attempts] counts the connection attempts, [slept] lists the times slept. *)
Record SocketSink := MkSocketSink {
  snk_socket_ : socket; snk_connected_ : bool; attempts : nat; slept : list Z }.

Definition wait_ms : list Z := [10; 200; 1000; 5000; 30000].

(** [asio::ip::tcp::socket(executor)] *)
Definition new_socket : socket := Socket [] ec_none [] ec_none false.

(** The result of the [i]-th connection attempt: an error or the connection. *)
Context (connect_result : nat → error_code * socket).

(** [while (retry_count < 5) ...]: the turns that are left are the waiting times
    that are left. *)
Fixpoint connect_loop (waits : list Z) (n : SocketSink) : SocketSink * bool :=
  match waits with
  | [] => (n, false)
  | ms :: waits =>
      let '(ec, s) := connect_result (attempts n) in
      let succ := SocketConnectAwaiter ec in
      if succ then (MkSocketSink s (snk_connected_ n) (S (attempts n)) (slept n), true)
      else connect_loop waits
             (MkSocketSink new_socket (snk_connected_ n) (S (attempts n)) (slept n ++ [ms]))
  end.

Definition on_socket {A} (m : IO A) (n : SocketSink) : option (SocketSink * outcome A) :=
  '(s, r) ← m (snk_socket_ n);
  Some (MkSocketSink s (snk_connected_ n) (attempts n) (slept n), r).

Definition consume (value : T) (n : SocketSink) : option (SocketSink * outcome unit) :=
  if snk_connected_ n then on_socket (Write value) n
  else
    let '(n, succ) := connect_loop wait_ms n in
    if succ then
      on_socket (Write value) (MkSocketSink (snk_socket_ n) true (attempts n) (slept n))
    else Some (n, Throw "socket sink connect error").

Definition disconnect (n : SocketSink) : outcome SocketSink :=
  _ ← cpp_assert (is_open (snk_socket_ n));
  Ok (MkSocketSink (close (snk_socket_ n)) false (attempts n) (slept n)).

Definition after_work_SocketSink (n : SocketSink) : option (SocketSink * outcome unit) :=
  if snk_connected_ n then
    '(n, r) ← on_socket WriteEof n;
    match r with
    | Ok _ => match disconnect n with
              | Ok n => Some (n, Ok tt) | Throw e => Some (n, Throw e) | Crash c => Some (n, Crash c)
              end
    | r => Some (n, r)
    end
  else Some (n, Ok tt).

Definition hosted_mode_SocketSink : M T SocketSink unit :=
  on_members (λ n, if snk_connected_ n then disconnect n else Ok n) ;;
  close_input RefInput RefInputCount.

End nodes.
End awaiters.

(** ** Framing *)

#[local] Opaque store.

Definition set_rx (bs : cpp_string) (s : socket) : socket := Socket bs (rx_end s) (tx s) (tx_end s) (is_open s).
Definition set_tx (bs : cpp_string) (s : socket) : socket := Socket (rx s) (rx_end s) bs (tx_end s) (is_open s).

Section framing.
Context (asio : Asio).
Implicit Types (s : socket) (bs rest : cpp_string).

Lemma read_all bs rest b s :
  rx s = bs ++ rest → SocketReadAwaiter asio (size bs) b s = Some (set_rx rest s, Ok bs).
Proof.
  intros Hs. unfold SocketReadAwaiter. rewrite async_read_eq. unfold stream_read. rewrite Hs, decide_True.
  - unfold size. rewrite Nat2Z.id, take_app_length, drop_app_length. done.
  - rewrite size_app. pose proof (size_nonneg rest). lia.
Qed.

Lemma read_short n s :
  size (rx s) < n → rx_end s ≠ ec_none →
  SocketReadAwaiter asio n true s = Some (set_rx [] s, Throw (message asio (rx_end s))).
Proof.
  intros Hn He. unfold SocketReadAwaiter. rewrite async_read_eq. unfold stream_read. rewrite decide_False by lia.
  unfold set_rx. by destruct (rx_end s).
Qed.

Lemma write_all bs s :
  tx_end s = ec_none → SocketWriteAwaiter asio bs s = Some (set_tx (tx s ++ bs) s, Ok (size bs)).
Proof. intros Hs. unfold SocketWriteAwaiter. rewrite async_write_eq. unfold stream_write, set_tx. by rewrite !Hs. Qed.

(** The length field that precedes a package. *)
Lemma length_buf_spec `{Platform} bs :
  size bs < 2 ^ 32 → Serialize (U32 (u32 (size bs))) [] = Ok (store Endian.Big (size bs)).
Proof.
  intros Hb. pose proof (size_nonneg bs). wrap_id.
  rewrite (Serialize_spec (U32 (size bs)) []); [done|]. simpl. unfold uint_range. lia.
Qed.

Lemma length_of_spec `{Platform} n :
  uint_range 32 n → @Deserialize uint32_t _ (store Endian.Big n) = Ok (U32 n).
Proof. intros Hn. exact (@Deserialize_whole uint32_t _ uint32_laws (U32 n) Hn). Qed.

End framing.

Section transfer.
Context (asio : Asio) (P1 P2 : Platform) (lax : @strict_index P2 = false) {T : Type}.
Context (S1 S2 : Serializable T) (L1 : SerializableLaws T (H := S1)) (L2 : SerializableLaws T (H := S2)).
Hypothesis same_encoding : ∀ v, @encoding T S1 L1 v = @encoding T S2 L2 v.
Hypothesis same_ok : ∀ v, @wire_ok T S1 L1 v → @wire_ok T S2 L2 v.
Implicit Types (v : T) (vs : list T) (s : socket).

#[local] Abbreviation Read2 := (@Read asio P2 T S2).
#[local] Abbreviation Write1 := (@Write asio P1 T S1).
#[local] Abbreviation WriteEof1 := (@WriteEof asio P1).

(** A value that can be sent: its package is shorter than 2^32 bytes. *)
Definition fits v : Prop := @wire_ok T S1 L1 v ∧ size (@encoding T S1 L1 v) + 5 < 2 ^ 32.

Definition value_package v : package := Package false (@encoding T S1 L1 v).
Definition eof_package : package := Package true [].
Definition frame (p : package) : cpp_string := string_encoding (package_encoding p).
Definition stream vs : cpp_string := concat ((λ v, frame (value_package v)) <$> vs) ++ frame eof_package.

Lemma package_size p : size (package_encoding p) = size (bin_data p) + 5.
Proof. unfold package_encoding, string_encoding, size. simpl. rewrite length_app, length_store. unfold sizeof_int. lia. Qed.

Lemma Write_spec v s :
  fits v → tx_end s = ec_none → Write1 v s = Some (set_tx (tx s ++ frame (value_package v)) s, Ok tt).
Proof.
  intros [Hv Hsz] Hs. unfold Write, lift, mbind, IO_bind.
  rewrite (@Serialize_spec T S1 L1 v []) by done. simpl app.
  unfold Serialize_package. cbn [bin_data eof app Serialize string_serializable].
  rewrite Serialize_string_wire by lia.
  change ([Byte.x6e] ++ string_encoding (encoding v)) with (package_encoding (value_package v)).
  rewrite length_buf_spec by (rewrite package_size; simpl; lia).
  rewrite write_all by done. rewrite write_all by done. unfold set_tx, frame, string_encoding. simpl.
  by rewrite <- app_assoc.
Qed.

Lemma WriteEof_spec s :
  tx_end s = ec_none → WriteEof1 s = Some (set_tx (tx s ++ frame eof_package) s, Ok tt).
Proof.
  intros Hs. unfold WriteEof, lift, mbind, IO_bind.
  unfold Serialize_package. cbn [bin_data eof app Serialize string_serializable].
  rewrite Serialize_string_wire by done.
  change ([Byte.x65] ++ string_encoding []) with (package_encoding eof_package).
  rewrite length_buf_spec by (by rewrite package_size).
  rewrite write_all by done. rewrite write_all by done. unfold set_tx, frame, string_encoding. simpl.
  by rewrite <- app_assoc.
Qed.

Lemma package_whole p :
  size (bin_data p) < 2 ^ 32 → @Deserialize package (@package_serializable P2) (package_encoding p) = Ok p.
Proof using lax. intros Hp. exact (@Deserialize_whole package _ (package_laws lax) p Hp). Qed.

(** Reading the next frame. *)
Lemma Read_frame p rest s :
  size (bin_data p) + 5 < 2 ^ 32 → rx s = frame p ++ rest →
  Read2 s = if eof p then Some (set_rx rest s, Ok None)
            else (v ← lift (@Deserialize T S2 (bin_data p)); mret (Some v)) (set_rx rest s).
Proof using lax.
  intros Hsz Hs. unfold Read. unfold mbind at 1, IO_bind at 1.
  assert (size (package_encoding p) < 2 ^ 32) as Hp by (rewrite package_size; lia).
  pose proof (size_nonneg (package_encoding p)).
  rewrite <- (size_store Endian.Big (size (package_encoding p))).
  rewrite (read_all _ _ (package_encoding p ++ rest)) by (by rewrite Hs; unfold frame, string_encoding; rewrite <- app_assoc).
  rewrite size_store. rewrite decide_False by lia.
  unfold mbind at 1, IO_bind at 1, lift at 1. rewrite length_of_spec by (unfold uint_range; lia).
  unfold mbind at 1, IO_bind at 1. rewrite (read_all _ _ rest) by done.
  rewrite decide_False by lia. unfold mbind at 1, IO_bind at 1, lift at 1.
  rewrite (package_whole p) by lia. unfold set_rx. simpl. by destruct (eof p).
Qed.

Lemma Read_value v rest s :
  fits v → rx s = frame (value_package v) ++ rest → Read2 s = Some (set_rx rest s, Ok (Some v)).
Proof using lax same_encoding same_ok.
  intros [Hv Hsz] Hs. rewrite (Read_frame (value_package v) rest) by done. simpl.
  unfold mbind, IO_bind, lift. rewrite same_encoding.
  by rewrite (@Deserialize_whole T S2 L2 v) by auto.
Qed.

(** A frame that is cut off. *)
Lemma Read_cut p bs s :
  size (bin_data p) + 5 < 2 ^ 32 → rx s = bs → bs `prefix_of` frame p → bs ≠ frame p → rx_end s ≠ ec_none →
  ∃ s', Read2 s = Some (s', Throw (message asio (rx_end s))).
Proof using.
  intros Hsz Hs [k Hk] Hne He. set (e := package_encoding p) in *.
  assert (size e < 2 ^ 32) as Hp by (unfold e; rewrite package_size; lia). pose proof (size_nonneg e).
  assert (k ≠ []) as Hk0 by (intros ->; rewrite app_nil_r in Hk; congruence).
  unfold Read. unfold mbind at 1, IO_bind at 1. destruct (decide (size bs < 4)) as [Hlt|Hge].
  { rewrite read_short by (by rewrite ?Hs). eauto. }
  assert (bs = store Endian.Big (size e) ++ drop 4 bs) as Hbs.
  { rewrite <- (take_drop 4 bs) at 1. f_equal. unfold frame, string_encoding in Hk. fold e in Hk.
    apply (f_equal (take 4)) in Hk. rewrite !take_app_le in Hk; [|unfold size in *; lia|by rewrite length_store].
    by rewrite <- Hk, take_ge by (by rewrite length_store). }
  assert (size (drop 4 bs) < size e) as Hcut.
  { apply (f_equal size) in Hk. unfold frame, string_encoding in Hk. fold e in Hk.
    rewrite Hbs, !size_app in Hk. destruct k as [|b k]; [done|].
    assert (0 < size (b :: k)) by (unfold size; simpl; lia). lia. }
  rewrite <- (size_store Endian.Big (size e)).
  rewrite (read_all _ _ (drop 4 bs)) by congruence. rewrite size_store, decide_False by lia.
  unfold mbind at 1, IO_bind at 1, lift at 1. rewrite length_of_spec by (unfold uint_range; lia).
  unfold mbind at 1, IO_bind at 1. rewrite read_short by done. eauto.
Qed.

(** ** Whole streams *)

(** The loop of [Source::work] on a connected [SocketSource]: the values it
    gets, and how it ends. *)
Inductive ending := AtEof | Failed (e : exn) | Broken (c : crash) | Waiting | OutOfFuel.

Fixpoint receive (fuel : nat) (n : SocketSource) : list T * ending :=
  match fuel with
  | O => ([], OutOfFuel)
  | S fuel =>
      match @generate asio P2 T S2 None n with
      | Some (n, Ok (Some v)) => let '(vs, e) := receive fuel n in (v :: vs, e)
      | Some (_, Ok None) => ([], AtEof)
      | Some (_, Throw e) => ([], Failed e)
      | Some (_, Crash c) => ([], Broken c)
      | None => ([], Waiting)
      end
  end.

(** [Sink::work] of a [SocketSink] followed by [after_work]. *)
Fixpoint send (connect_result : nat → error_code * socket) vs (n : SocketSink) : option (SocketSink * outcome unit) :=
  match vs with
  | [] => @after_work_SocketSink asio P1 n
  | v :: vs =>
      '(n, r) ← @consume asio P1 T S1 connect_result v n;
      match r with Ok _ => send connect_result vs n | r => Some (n, r) end
  end.

(** The data members as the constructors leave them. *)
Definition SocketSink_init : SocketSink := MkSocketSink new_socket false 0 [].

(** A source that reads the bytes [bs], after which it meets [e]. *)
Definition source_on (bs : cpp_string) (e : error_code) : SocketSource :=
  MkSocketSource (Socket bs e [] ec_none true) true.

Lemma generate_connected n accept :
  src_connected_ n = true →
  @generate asio P2 T S2 accept n =
    '(s, r) ← Read2 (src_socket_ n); Some (MkSocketSource s true, r).
Proof using. intros Hn. unfold generate. by rewrite Hn. Qed.

Lemma stream_cons v vs : stream (v :: vs) = frame (value_package v) ++ stream vs.
Proof using. unfold stream. csimpl. by rewrite <- app_assoc. Qed.

Lemma receive_stream vs rest e fuel :
  Forall fits vs → (length vs < fuel)%nat → receive fuel (source_on (stream vs ++ rest) e) = (vs, AtEof).
Proof using lax same_encoding same_ok.
  intros Hvs. revert fuel. induction Hvs as [|v vs Hv _ IH]; intros [|fuel] Hf; simpl in Hf; try lia.
  - cbn [receive]. rewrite generate_connected by done.
    rewrite (Read_frame eof_package rest) by done. done.
  - cbn [receive]. rewrite generate_connected by done.
    rewrite (Read_value v (stream vs ++ rest)) by (done || by rewrite stream_cons, <- app_assoc).
    cbn. change (MkSocketSource _ true) with (source_on (stream vs ++ rest) e). by rewrite IH by lia.
Qed.

(** *** A connection that breaks *)

Lemma receive_cut vs bs e fuel :
  Forall fits vs → (length vs < fuel)%nat → bs `prefix_of` stream vs → bs ≠ stream vs → e ≠ ec_none →
  ∃ k, receive fuel (source_on bs e) = (take k vs, Failed (message asio e)).
Proof using lax same_encoding same_ok.
  intros Hvs. revert fuel bs. induction Hvs as [|v vs Hv _ IH]; intros [|fuel] bs Hf Hp Hne He; simpl in Hf; try lia.
  - exists O. cbn [receive]. rewrite generate_connected by done.
    destruct (Read_cut eof_package bs (Socket bs e [] ec_none true)) as [s' Hs]; try done.
    simpl src_socket_. by rewrite Hs.
  - rewrite stream_cons in Hp, Hne. apply prefix_split in Hp as [[Hp Hcut]|(bs' & -> & Hp)].
    + exists O. cbn [receive]. rewrite generate_connected by done.
      destruct (Read_cut (value_package v) bs (Socket bs e [] ec_none true)) as [s' Hs]; try done; [apply Hv|].
      simpl src_socket_. by rewrite Hs.
    + destruct (IH fuel bs') as [k Hk]; [lia|done|congruence|done|]. exists (S k).
      cbn [receive]. rewrite generate_connected by done. rewrite (Read_value v bs') by done.
      cbn. change (MkSocketSource _ true) with (source_on bs' e). by rewrite Hk.
Qed.

(** *** The sink *)

(** The attempts until the first one that succeeds. *)
Lemma connect_loop_spec connect_result waits k s n :
  (k < length waits)%nat → connect_result (attempts n + k)%nat = (ec_none, s) →
  (∀ j, (j < k)%nat → (connect_result (attempts n + j)%nat).1 ≠ ec_none) →
  ∃ n', @connect_loop asio connect_result waits n = (n', true) ∧ snk_socket_ n' = s ∧
    attempts n' = (attempts n + S k)%nat ∧ slept n' = slept n ++ take k waits ∧
    snk_connected_ n' = snk_connected_ n.
Proof using.
  revert k n. induction waits as [|ms waits IH]; intros k n Hk Hok Hfail; simpl in Hk; [lia|]. destruct k as [|k].
  - rewrite Nat.add_0_r in Hok. simpl. rewrite Hok. simpl. eexists. split; [done|]. simpl.
    rewrite app_nil_r. repeat split. lia.
  - simpl. pose proof (Hfail 0%nat) as H0. rewrite Nat.add_0_r in H0.
    destruct (connect_result (attempts n)) as [ec s0] eqn:Hc. simpl in H0.
    destruct (IH k (MkSocketSink new_socket (snk_connected_ n) (S (attempts n)) (slept n ++ [ms])))
      as (n' & Hl & Hs & Ha & Hsl & Hcn).
    + lia.
    + simpl. by rewrite <- Nat.add_succ_r.
    + intros j Hj. simpl. rewrite <- Nat.add_succ_r. apply Hfail. lia.
    + exists n'. destruct ec; [by destruct H0; [lia|]|..]; simpl; rewrite Hl; simpl in *;
        rewrite Hsl, <- app_assoc; repeat split; try done; lia.
Qed.

Lemma send_connected connect_result vs n :
  Forall fits vs → snk_connected_ n = true → is_open (snk_socket_ n) = true → tx_end (snk_socket_ n) = ec_none →
  send connect_result vs n =
    Some (MkSocketSink (close (set_tx (tx (snk_socket_ n) ++ stream vs) (snk_socket_ n))) false (attempts n) (slept n), Ok tt).
Proof using.
  intros Hvs. revert n. induction Hvs as [|v vs Hv _ IH]; intros n Hc Ho Ht.
  - simpl. unfold after_work_SocketSink, on_socket. rewrite Hc. cbn. rewrite WriteEof_spec by done. cbn.
    unfold disconnect. simpl. by rewrite Ho.
  - cbn [send]. unfold consume, on_socket. rewrite Hc. rewrite Write_spec by done. rewrite stream_cons.
    cbn -[stream]. rewrite IH by done. unfold set_tx, close. simpl. by rewrite <- app_assoc.
Qed.

(** C33: What a [SocketSink] sends is what a [SocketSource] receives, between
    hosts of any byte order: if the connection succeeds within five attempts,
    the sink sends all values and the end of file, closes its socket and has
    waited as the table of waiting times says; and a source that reads those
    bytes gets exactly those values, in order, and then the end of file,
    whatever comes after them. *)
Theorem socket_transfer connect_result k s vs :
  vs ≠ [] → Forall fits vs → (k < 5)%nat → connect_result k = (ec_none, s) →
  (∀ j, (j < k)%nat → (connect_result j).1 ≠ ec_none) →
  is_open s = true → tx s = [] → tx_end s = ec_none →
  ∃ n, send connect_result vs SocketSink_init = Some (n, Ok tt) ∧
    snk_connected_ n = false ∧ is_open (snk_socket_ n) = false ∧
    attempts n = S k ∧ slept n = take k wait_ms ∧
    ∀ rest e, receive (S (length vs)) (source_on (tx (snk_socket_ n) ++ rest) e) = (vs, AtEof).
Proof using lax same_encoding same_ok.
  intros Hne Hvs Hk Hok Hfail Ho Htx He. destruct Hvs as [|v vs Hv Hvs]; [done|].
  destruct (connect_loop_spec connect_result wait_ms k s SocketSink_init Hk Hok Hfail)
    as (n & Hl & Hs & Ha & Hsl & _).
  cbn [send]. unfold consume. simpl snk_connected_. cbv iota. rewrite Hl. unfold on_socket. simpl snk_socket_.
  rewrite Hs, Write_spec by done. cbn -[stream receive]. rewrite send_connected by done.
  eexists. split; [done|]. split; [done|]. split; [done|]. split; [done|]. split; [done|].
  intros rest e. cbn [tx snk_socket_ close set_tx]. rewrite Htx, app_nil_l, <- stream_cons.
  apply receive_stream; [by constructor|simpl; lia].
Qed.

(** C34: A connection that breaks is noticed: if a source gets only a part of
    what a sink sends, however small the missing part, and then the end of the
    connection or an error, it throws; before that it has got a prefix of the
    values, and never an end of file. *)
Theorem socket_truncation vs bs e :
  Forall fits vs → bs `prefix_of` stream vs → bs ≠ stream vs → e ≠ ec_none →
  ∃ k, receive (S (length vs)) (source_on bs e) = (take k vs, Failed (message asio e)).
Proof using lax same_encoding same_ok. intros. apply receive_cut; [done|lia|done..]. Qed.

(** C40: A [SocketSink] that cannot connect throws after five attempts, the last
    of which is followed by a wait of 30 seconds like the others, and has not
    changed its state otherwise; and a [SocketSink] that gets no value never
    connects and sends no end of file. *)
Theorem socket_sink_unconnected connect_result v vs :
  (∀ j, (j < 5)%nat → (connect_result j).1 ≠ ec_none) →
  send connect_result (v :: vs) SocketSink_init =
    Some (MkSocketSink new_socket false 5 [10; 200; 1000; 5000; 30000], Throw "socket sink connect error") ∧
  send connect_result [] SocketSink_init = Some (SocketSink_init, Ok tt).
Proof using.
  intros Hf. split; [|done]. cbn [send]. unfold consume. simpl snk_connected_. cbv iota.
  assert (∀ j n b, (j < 5)%nat → attempts n = j →
    @connect_loop asio connect_result b n =
    match b with
    | [] => (n, false)
    | ms :: b => @connect_loop asio connect_result b
                   (MkSocketSink new_socket (snk_connected_ n) (S j) (slept n ++ [ms]))
    end) as Hstep.
  { intros j n [|ms b] Hj Hn; [done|]. simpl. rewrite Hn. specialize (Hf j Hj).
    destruct (connect_result j) as [[] ?]; simpl in *; done. }
  unfold wait_ms. rewrite (Hstep 0%nat), (Hstep 1%nat), (Hstep 2%nat), (Hstep 3%nat), (Hstep 4%nat) by (done || lia). done.
Qed.

End transfer.

(** ** A transfer *)

Module SampleTransfer.

(** The third attempt succeeds. *)
Definition attempt_results (i : nat) : error_code * socket :=
  if decide (i < 2)%nat then (ec_other "refused", new_socket) else (ec_none, Socket [] ec_none [] ec_none true).

Definition values : list uint32_t := U32 <$> [1; 2; 4000000000].

Lemma values_fit : Forall (fits (@uint32_serializable little_host) uint32_laws) values.
Proof. repeat constructor; vm_compute; intuition congruence. Qed.

Lemma socket_transfer_witness :
  ∃ n, send stream_asio little_host (@uint32_serializable little_host) attempt_results values SocketSink_init
         = Some (n, Ok tt) ∧
    snk_connected_ n = false ∧ is_open (snk_socket_ n) = false ∧ attempts n = 3%nat ∧ slept n = [10; 200] ∧
    ∀ rest e, receive stream_asio big_host (@uint32_serializable big_host) 4 (source_on (tx (snk_socket_ n) ++ rest) e)
              = (values, AtEof).
Proof.
  apply (socket_transfer stream_asio little_host big_host eq_refl (@uint32_serializable little_host)
           (@uint32_serializable big_host) (@uint32_laws little_host) (@uint32_laws big_host)
           ltac:(by intros []) ltac:(by intros []) attempt_results 2 (Socket [] ec_none [] ec_none true) values).
  - discriminate.
  - apply values_fit.
  - lia.
  - reflexivity.
  - intros j Hj. unfold attempt_results. rewrite decide_True by lia. discriminate.
  - reflexivity.
  - reflexivity.
  - reflexivity.
Defined.

Definition sent : cpp_string := stream (@uint32_serializable little_host) uint32_laws values.

Lemma socket_truncation_witness :
  ∃ k, receive stream_asio big_host (@uint32_serializable big_host) 4 (source_on (take 20 sent) ec_eof)
       = (take k values, Failed "End of file").
Proof.
  apply (socket_truncation stream_asio big_host eq_refl (@uint32_serializable little_host)
           (@uint32_serializable big_host) (@uint32_laws little_host) (@uint32_laws big_host)
           ltac:(by intros []) ltac:(by intros []) values (take 20 sent) ec_eof).
  - apply values_fit.
  - exists (drop 20 sent). symmetry. apply take_drop.
  - vm_compute. discriminate.
  - discriminate.
Defined.

Lemma socket_sink_unconnected_witness :
  send stream_asio little_host (@uint32_serializable little_host) (λ _, (ec_other "refused", new_socket))
    values SocketSink_init =
    Some (MkSocketSink new_socket false 5 [10; 200; 1000; 5000; 30000], Throw "socket sink connect error") ∧
  send stream_asio little_host (@uint32_serializable little_host) (λ _, (ec_other "refused", new_socket))
    [] SocketSink_init = Some (SocketSink_init, Ok tt).
Proof.
  apply (socket_sink_unconnected stream_asio little_host (@uint32_serializable little_host)
           (λ _, (ec_other "refused", new_socket)) (U32 1) (U32 <$> [2; 4000000000])).
  discriminate.
Defined.

End SampleTransfer.
