(* ===== verification/Switcher.v ===== *)
(** * The switcher: [switcher/switcher.h] and [switcher/switcher_client.h]

    A server that pairs clients which push to a topic with clients which pop
    from it.  The server runs on one thread; its state is the table of waiting
    sockets ([datas_]), the sockets it owns and the coroutines it has spawned.
    A coroutine runs until it waits for bytes, so one step of the server is one
    run of one coroutine.  A connection is the server's [socket]: [rx] are the
    bytes on their way to the server, [tx] those on their way to the client,
    which sees the socket mirrored. *)

From stdpp Require Import base gmap strings list fin_maps.
From Stdlib Require Strings.Byte.
From S2P Require Import Prelude Events Coro Processor Nodes Wire Sockets.

#[local] Open Scope Z_scope.

Definition request_type_push : Z := 0.
Definition request_type_pop : Z := 1.
Definition request_type_check_topic_exist : Z := 2.
Definition request_type_close_topic : Z := 3.

Definition request_type_str : list string :=
  ["request_push"; "request_pop"; "request_check_topic_exist"; "request_close_topic"].

Definition response_ok : Z := 0.
Definition response_topic_not_exist : Z := 1.

(** ** Reading and writing packages *)

Section packages.
Context (asio : Asio) `{Platform}.

(** [asio::async_read] with [use_awaitable] and with [redirect_error]. *)
Definition asio_read (n : Z) : IO cpp_string := λ s,
  '(s, (ec, bs)) ← async_read asio n s;
  Some (s, match ec with ec_none => Ok bs | ec => Throw (message asio ec) end).
Definition asio_read_ec (n : Z) : IO (error_code * cpp_string) := λ s,
  '(s, r) ← async_read asio n s; Some (s, Ok r).
Definition asio_write (bs : cpp_string) : IO unit := λ s,
  let '(s, ec) := async_write asio bs s in
  Some (s, match ec with ec_none => Ok tt | ec => Throw (message asio ec) end).

Context {A : Type} `{Serializable A}.

(** [read_package<T>(s)] of the server *)
Definition read_package : IO A :=
  buf ← asio_read 4;
  '(U32 length) ← lift (Deserialize buf);
  buffer ← asio_read length;
  lift (Deserialize buffer).

(** [read_package<T>(s, eof)]: [None] when it sets [eof]. *)
Definition read_package_eof : IO (option A) :=
  '(ec, buf) ← asio_read_ec 4;
  match ec with
  | ec_eof => mret None
  | ec_other m => io_throw m
  | ec_none =>
      '(U32 length) ← lift (Deserialize buf);
      buffer ← asio_read length;
      v ← lift (Deserialize buffer);
      mret (Some v)
  end.

Definition write_package (pkg : A) : IO unit :=
  buf ← lift (Serialize pkg []);
  _ ← lift (cpp_assert (bool_decide (size buf ≤ 2 ^ 32 - 1)));
  length_buf ← lift (Serialize (U32 (u32 (size buf))) []);
  asio_write length_buf ;; asio_write buf.

(** [async_simple_package::read_package] and [write_package], of the client *)
Definition client_read_package : IO A :=
  buf ← SocketReadAwaiter asio 4 true;
  '(U32 length) ← lift (Deserialize buf);
  buffer ← SocketReadAwaiter asio length true;
  lift (Deserialize buffer).

Definition client_read_package_eof : IO (option A) :=
  buf ← SocketReadAwaiter asio 4 false;
  if decide (size buf ≠ 4) then mret None else
  '(U32 length) ← lift (Deserialize buf);
  buffer ← SocketReadAwaiter asio length true;
  v ← lift (Deserialize buffer);
  mret (Some v).

Definition client_write_package (pkg : A) : IO unit :=
  buf ← lift (Serialize pkg []);
  _ ← lift (cpp_assert (bool_decide (size buf ≤ 2 ^ 32 - 1)));
  length_buf ← lift (Serialize (U32 (u32 (size buf))) []);
  _ ← SocketWriteAwaiter asio length_buf;
  _ ← SocketWriteAwaiter asio buf;
  mret tt.

End packages.

(** ** The client *)

Section client.
Context (asio : Asio) `{Platform} {T : Type} `{Serializable T}.
(** The uninitialised [timeout_ms] of the requests. *)
Context (garbage : int_t).

Record SwitcherClient := MkSwitcherClient { cl_connected_ : bool; cl_socket_ : socket }.

(** [ec] and [s] are the result of the connection attempt. *)
Definition Connect (ec : error_code) (s : socket) (c : SwitcherClient) : SwitcherClient * outcome unit :=
  if cl_connected_ c then (c, Ok tt)
  else
    let succ := SocketConnectAwaiter asio ec in
    if succ then (MkSwitcherClient true s, Ok tt)
    else (c, Throw "connect to switcher failed").

Definition request (topic : cpp_string) (type : Z) : request_package := RequestPackage topic (I32 type) garbage.

Definition data_of (value : option T) : outcome data_package :=
  match value with
  | Some v => data ← Serialize v []; Ok (DataPackage data [] false)
  | None => Ok (DataPackage [] [] true)
  end.

(** Each operation sends its request, then waits for the answer. *)
Definition Push_request (topic : cpp_string) (value : option T) : IO unit :=
  client_write_package asio (request topic request_type_push) ;;
  dp ← lift (data_of value);
  client_write_package asio dp.
Definition Push_reply : IO unit :=
  _ ← client_read_package asio (A := response_package); mret tt.
Definition Push (topic : cpp_string) (value : option T) : IO unit :=
  Push_request topic value ;; Push_reply.

Definition Pop_request (topic : cpp_string) : IO unit :=
  client_write_package asio (request topic request_type_pop).
Definition Pop_reply : IO (option T) :=
  dp ← client_read_package asio (A := data_package);
  _ ← client_read_package asio (A := response_package);
  if dp_eof dp then mret None else v ← lift (Deserialize (dp_data dp)); mret (Some v).
Definition Pop (topic : cpp_string) : IO (option T) := Pop_request topic ;; Pop_reply.

Definition CloseTopic_request (topic : cpp_string) : IO unit :=
  client_write_package asio (request topic request_type_close_topic).
Definition CloseTopic_reply : IO Z :=
  rp ← client_read_package asio (A := response_package);
  let '(I32 code) := rs_response_code rp in mret code.
Definition CloseTopic (topic : cpp_string) : IO Z := CloseTopic_request topic ;; CloseTopic_reply.

Definition CheckTopicExist_request (topic : cpp_string) : IO unit :=
  client_write_package asio (request topic request_type_check_topic_exist).
Definition CheckTopicExist_reply : IO bool :=
  rp ← client_read_package asio (A := response_package);
  let '(I32 code) := rs_response_code rp in mret (bool_decide (code = response_ok)).
Definition CheckTopicExist (topic : cpp_string) : IO bool :=
  CheckTopicExist_request topic ;; CheckTopicExist_reply.

(** [~SwitcherClient] *)
Definition SwitcherClient_destroy (c : SwitcherClient) : SwitcherClient :=
  if cl_connected_ c then MkSwitcherClient false (close (cl_socket_ c)) else c.

End client.

(** ** The server *)

Abbreviation sid := nat.

(** [struct pending_nodes] *)
Record pending_nodes := PendingNodes { pushing_nodes : list sid; poping_nodes : list sid }.
#[global] Instance pending_nodes_inhabited : Inhabited pending_nodes := populate (PendingNodes [] []).

(** The coroutines of the server. *)
Inductive task := Handle (s : sid) | Transfer (push_socket pop_socket : sid) (topic : cpp_string).

Record Switcher := MkSwitcher {
  datas_ : gmap cpp_string pending_nodes;
  sockets : gmap sid socket;
  tasks : list task;
}.

Section server.
Context (asio : Asio) `{Platform}.
(** [get_remote_ipport] of a socket. *)
Context (get_remote_ipport : sid → cpp_string).

Definition set_datas (d : gmap cpp_string pending_nodes) (st : Switcher) : Switcher :=
  MkSwitcher d (sockets st) (tasks st).
Definition set_socket (i : sid) (s : socket) (st : Switcher) : Switcher :=
  MkSwitcher (datas_ st) (<[i := s]> (sockets st)) (tasks st).
(** [asio::co_spawn(ctx_, ..., asio::detached)] *)
Definition co_spawn (t : task) (st : Switcher) : Switcher :=
  MkSwitcher (datas_ st) (sockets st) (tasks st ++ [t]).
(** The destructor of a socket closes it. *)
Definition destroy (i : sid) (st : Switcher) : Switcher :=
  MkSwitcher (datas_ st) (alter close i (sockets st)) (tasks st).

(** Runs a coroutine of socket [i]. *)
Definition with_socket {A} (i : sid) (m : IO A) (st : Switcher) : option (Switcher * outcome A) :=
  s ← sockets st !! i;
  '(s, r) ← m s;
  Some (set_socket i s st, r).

Definition handle_push_request (i : sid) (pkg : request_package) (st : Switcher) : Switcher :=
  let topic := rq_topic pkg in
  match datas_ st !! topic with
  | Some d =>
      match last (poping_nodes d) with
      | Some pop_socket =>
          let d := PendingNodes (pushing_nodes d) (removelast (poping_nodes d)) in
          co_spawn (Transfer i pop_socket topic) (set_datas (<[topic := d]> (datas_ st)) st)
      | None =>
          set_datas (<[topic := PendingNodes (pushing_nodes d ++ [i]) (poping_nodes d)]> (datas_ st)) st
      end
  | None => set_datas (<[topic := PendingNodes [i] []]> (datas_ st)) st
  end.

Definition handle_pop_request (i : sid) (pkg : request_package) (st : Switcher) : Switcher :=
  let topic := rq_topic pkg in
  match datas_ st !! topic with
  | Some d =>
      match last (pushing_nodes d) with
      | Some push_socket =>
          let d := PendingNodes (removelast (pushing_nodes d)) (poping_nodes d) in
          co_spawn (Transfer push_socket i topic) (set_datas (<[topic := d]> (datas_ st)) st)
      | None =>
          set_datas (<[topic := PendingNodes (pushing_nodes d) (poping_nodes d ++ [i])]> (datas_ st)) st
      end
  | None => set_datas (<[topic := PendingNodes [] [i]]> (datas_ st)) st
  end.

(** The answer to a request about a topic, after which the socket is handled
    again. *)
Definition reply_and_handle (i : sid) (rpkg : response_package) (st : Switcher) :
    option (Switcher * outcome unit) :=
  '(st, r) ← with_socket i (write_package asio rpkg) st;
  match r with Ok _ => Some (co_spawn (Handle i) st, Ok tt) | r => Some (st, r) end.

Definition handle_check_topic_exist (i : sid) (pkg : request_package) (st : Switcher) :
    option (Switcher * outcome unit) :=
  let topic_exist := match datas_ st !! rq_topic pkg with Some _ => true | None => false end in
  let rpkg := ResponsePackage (rq_topic pkg) (I32 0) []
                (I32 (if topic_exist then response_ok else response_topic_not_exist)) in
  reply_and_handle i rpkg st.

(** Erasing the entry destroys the sockets that wait for the topic. *)
Definition handle_close_topic_request (i : sid) (pkg : request_package) (st : Switcher) :
    option (Switcher * outcome unit) :=
  let st := match datas_ st !! rq_topic pkg with
            | Some d => foldr destroy (set_datas (delete (rq_topic pkg) (datas_ st)) st)
                          (pushing_nodes d ++ poping_nodes d)
            | None => st
            end in
  reply_and_handle i (ResponsePackage (rq_topic pkg) (I32 0) [] (I32 response_ok)) st.

(** The body of [handle] after the package was read; the log line indexes
    [request_type_str] with the type of the request. *)
Definition handle_request (i : sid) (pkg : request_package) (st : Switcher) : option (Switcher * outcome unit) :=
  let '(I32 type) := rq_type pkg in
  if decide (0 ≤ type < Z.of_nat (length request_type_str)) then
    if decide (type = request_type_push) then Some (handle_push_request i pkg st, Ok tt)
    else if decide (type = request_type_pop) then Some (handle_pop_request i pkg st, Ok tt)
    else if decide (type = request_type_close_topic) then handle_close_topic_request i pkg st
    else if decide (type = request_type_check_topic_exist) then handle_check_topic_exist i pkg st
    else Some (st, Throw "invalid request type for switcher now.")
  else Some (st, Crash UndefinedBehaviour).

(** An exception is logged, and the socket is destroyed with the coroutine. *)
Definition caught (sockets : list sid) (r : Switcher * outcome unit) : Switcher * outcome unit :=
  match r with
  | (st, Throw _) => (foldr destroy st sockets, Ok tt)
  | r => r
  end.

Definition handle (i : sid) (st : Switcher) : option (Switcher * outcome unit) :=
  '(st, r) ← with_socket i (read_package_eof asio (A := request_package)) st;
  caught [i] <$>
    match r with
    | Ok (Some pkg) => handle_request i pkg st
    | Ok None => Some (destroy i st, Ok tt)
    | Throw e => Some (st, Throw e)
    | Crash c => Some (st, Crash c)
    end.

(** Sequencing of coroutines on several sockets. *)
Definition and_then {A B} (r : option (Switcher * outcome A)) (f : A → Switcher → option (Switcher * outcome B)) :
    option (Switcher * outcome B) :=
  '(st, r) ← r;
  match r with Ok a => f a st | Throw e => Some (st, Throw e) | Crash c => Some (st, Crash c) end.

Definition transfer_data (push_socket pop_socket : sid) (topic : cpp_string) (st : Switcher) :
    option (Switcher * outcome unit) :=
  caught [push_socket; pop_socket] <$>
  and_then (with_socket push_socket (read_package asio (A := data_package)) st) (λ dpkg st,
  and_then (with_socket pop_socket (write_package asio dpkg) st) (λ _ st,
  let rpkg := ResponsePackage topic (I32 0) (get_remote_ipport pop_socket) (I32 response_ok) in
  and_then (with_socket push_socket (write_package asio rpkg) st) (λ _ st,
  let rpkg := ResponsePackage topic (I32 0) (get_remote_ipport push_socket) (I32 response_ok) in
  and_then (with_socket pop_socket (write_package asio rpkg) st) (λ _ st,
  Some (co_spawn (Handle pop_socket) (co_spawn (Handle push_socket) st), Ok tt))))).

Definition run_task (t : task) (st : Switcher) : option (Switcher * outcome unit) :=
  match t with
  | Handle i => handle i st
  | Transfer push_socket pop_socket topic => transfer_data push_socket pop_socket topic st
  end.

(** The [k]-th coroutine runs until it ends. *)
Definition server_step (k : nat) (st : Switcher) : option (Switcher * outcome unit) :=
  t ← tasks st !! k;
  run_task t (MkSwitcher (datas_ st) (sockets st) (delete k (tasks st))).

(** One turn of [start_accept]: a new connection. *)
Definition start_accept (i : sid) (s : socket) (st : Switcher) : Switcher := co_spawn (Handle i) (set_socket i s st).

End server.

Definition Switcher_init : Switcher := MkSwitcher ∅ ∅ [].

(** ** Packages on the wire *)

Section wire.
Context (asio : Asio) `{Platform} {A : Type} `{SerializableLaws A}.

(** A package whose length fits into the length field. *)
Definition sendable (v : A) : Prop := wire_ok v ∧ size (encoding v) < 2 ^ 32.
Definition pkg_frame (v : A) : cpp_string := string_encoding (encoding v).

(** The functions of the server and of the client do the same. *)
Lemma asio_read_awaiter n s : asio_read asio n s = SocketReadAwaiter asio n true s.
Proof. unfold asio_read, SocketReadAwaiter. destruct (async_read asio n s) as [[s' [[] bs]]|]; done. Qed.

Lemma write_package_spec v s :
  sendable v → tx_end s = ec_none →
  write_package asio v s = Some (set_tx (tx s ++ pkg_frame v) s, Ok tt).
Proof.
  intros [Hv Hsz] Hs. pose proof (size_nonneg (encoding v)). unfold write_package, lift, mbind, IO_bind.
  rewrite Serialize_spec by done. rewrite app_nil_l, bool_decide_true by lia. cbn [cpp_assert].
  rewrite length_buf_spec by done. unfold asio_write. rewrite async_write_eq. unfold stream_write at 1. rewrite Hs. cbn.
  rewrite async_write_eq. unfold stream_write. cbn.
  unfold set_tx, pkg_frame, string_encoding. by rewrite <- app_assoc, Hs.
Qed.

Lemma read_frame_spec v rest s :
  sendable v → rx s = pkg_frame v ++ rest →
  client_read_package asio s = Some (set_rx rest s, Ok v).
Proof.
  intros [Hv Hsz] Hs. pose proof (size_nonneg (encoding v)). unfold client_read_package.
  unfold mbind at 1, IO_bind at 1. rewrite <- (size_store Endian.Big (size (encoding v))).
  rewrite (read_all _ _ (encoding v ++ rest)) by (by rewrite Hs; unfold pkg_frame, string_encoding; rewrite <- app_assoc).
  unfold mbind at 1, IO_bind at 1, lift at 1. rewrite length_of_spec by (unfold uint_range; lia).
  unfold mbind at 1, IO_bind at 1. rewrite (read_all _ _ rest) by done.
  unfold lift. by rewrite Deserialize_whole.
Qed.

Lemma read_package_client s : read_package asio (A := A) s = client_read_package asio s.
Proof.
  unfold read_package, client_read_package. unfold mbind at 1 4, IO_bind at 1 4. rewrite asio_read_awaiter.
  destruct (SocketReadAwaiter asio 4 true s) as [[s' [buf|e|c]]|]; [|done..].
  unfold mbind, IO_bind, lift. destruct (Deserialize buf) as [[n]|e|c]; [|done..].
  rewrite asio_read_awaiter. done.
Qed.

Lemma read_package_spec v rest s :
  sendable v → rx s = pkg_frame v ++ rest → read_package asio s = Some (set_rx rest s, Ok v).
Proof. intros. rewrite read_package_client. by apply read_frame_spec. Qed.

Lemma read_package_eof_spec v rest s :
  sendable v → rx s = pkg_frame v ++ rest → read_package_eof asio s = Some (set_rx rest s, Ok (Some v)).
Proof.
  intros [Hv Hsz] Hs. pose proof (size_nonneg (encoding v)). unfold read_package_eof.
  unfold mbind at 1, IO_bind at 1, asio_read_ec. rewrite async_read_eq. unfold stream_read.
  rewrite decide_True.
  2: { rewrite Hs. unfold pkg_frame, string_encoding. rewrite !size_app, size_store.
       pose proof (size_nonneg rest). lia. }
  assert (take (Z.to_nat 4) (rx s) = store Endian.Big (size (encoding v))) as ->.
  { rewrite Hs. unfold pkg_frame, string_encoding. rewrite <- app_assoc. apply take_app_length'. by rewrite length_store. }
  assert (drop (Z.to_nat 4) (rx s) = encoding v ++ rest) as ->.
  { rewrite Hs. unfold pkg_frame, string_encoding. rewrite <- app_assoc. apply drop_app_length'. by rewrite length_store. }
  cbn [mbind option_bind]. unfold mbind, IO_bind, lift. rewrite length_of_spec by (unfold uint_range; lia).
  rewrite asio_read_awaiter, (read_all _ _ rest) by done. by rewrite Deserialize_whole.
Qed.

Lemma read_package_eof_client s : read_package_eof asio (A := A) s = client_read_package_eof asio s.
Proof.
  unfold read_package_eof, client_read_package_eof, asio_read_ec, mbind, IO_bind.
  unfold SocketReadAwaiter at 1. rewrite !async_read_eq. unfold stream_read. case_decide as Hlen; cbn [mbind option_bind].
  - cbn [succ_ SocketAwaiterBase_init await_resume_or_throw]. rewrite decide_False.
    + unfold lift. destruct (Deserialize _) as [[n]|e|c]; [|done..]. by rewrite asio_read_awaiter.
    + intros Hne. apply Hne. unfold size in *. rewrite length_take. lia.
  - destruct (rx_end s) as [| |m]; cbn [succ_ SocketAwaiterBase_init await_resume_or_throw handle_error]; [done| |done].
    simpl. case_decide as Hd; [done|lia].
Qed.

Lemma asio_write_awaiter bs s :
  asio_write asio bs s =
  ('(s, r) ← SocketWriteAwaiter asio bs s;
   Some (s, match r with Ok _ => Ok tt | Throw e => Throw e | Crash c => Crash c end)).
Proof. unfold asio_write, SocketWriteAwaiter. by destruct (async_write asio bs s) as [s' []]. Qed.

Lemma write_package_client (v : A) s : write_package asio v s = client_write_package asio v s.
Proof.
  unfold write_package, client_write_package, lift, mbind, IO_bind.
  destruct (Serialize v []) as [buf| |]; [|done..]. destruct (cpp_assert _); [|done..].
  destruct (Serialize _ []) as [lb| |]; [|done..]. rewrite asio_write_awaiter.
  destruct (SocketWriteAwaiter asio lb s) as [[s1 [n|e|c]]|]; [|done..]. cbn [mbind option_bind].
  rewrite asio_write_awaiter. by destruct (SocketWriteAwaiter asio buf s1) as [[s2 [m|e|c]]|].
Qed.

(** C35: the package functions of the server, written with [use_awaitable], and
    those of the client, written with the socket awaiters, do the same on every
    socket: the same bytes are read and written, and the same ends of file,
    errors and malformed packages are reported. *)
Theorem package_functions_agree s :
  read_package asio (A := A) s = client_read_package asio s ∧
  read_package_eof asio (A := A) s = client_read_package_eof asio s ∧
  ∀ v : A, write_package asio v s = client_write_package asio v s.
Proof. split; [apply read_package_client|]. split; [apply read_package_eof_client|]. intros v. apply write_package_client. Qed.

Lemma client_write_package_spec v s :
  sendable v → tx_end s = ec_none →
  client_write_package asio v s = Some (set_tx (tx s ++ pkg_frame v) s, Ok tt).
Proof. intros. rewrite <- write_package_client. by apply write_package_spec. Qed.

(** Nothing to read. *)
Lemma read_package_wait s : rx s = [] → rx_end s = ec_none → client_read_package asio (A := A) s = None.
Proof. intros Hs He. unfold client_read_package, mbind, IO_bind, SocketReadAwaiter.
  rewrite async_read_eq. unfold stream_read. by rewrite Hs, He. Qed.

End wire.
