(* ===== verification/SwitcherInv.v ===== *)
(** * Places of the switcher's sockets

    Every socket of the server is owned by one coroutine or waits in one list
    of [datas_]: its [role].  A topic never has waiting sockets on both sides. *)

From stdpp Require Import base gmap strings list fin_maps.
From S2P Require Import Prelude Events Coro Processor Nodes Wire Sockets Switcher.

Inductive role : Type :=
| RHandle
| RPush (topic : cpp_string)
| RPop (topic : cpp_string)
| RTransferPush (pop_socket : sid) (topic : cpp_string)
| RTransferPop (push_socket : sid) (topic : cpp_string).

#[global] Instance role_eq_dec : EqDecision role.
Proof. solve_decision. Defined.

Section places.
Implicit Types (R : gmap sid role) (tk : list task) (d : gmap cpp_string pending_nodes) (t : cpp_string) (i j : sid).

(** [datas_[topic]], read without creating the entry. *)
Definition waiting d t : pending_nodes := default (PendingNodes [] []) (d !! t).

Record placed R tk d : Prop := {
  pl_tasks : NoDup tk;
  pl_handle i : Handle i ∈ tk ↔ R !! i = Some RHandle;
  pl_transfer_push i j t : Transfer i j t ∈ tk ↔ R !! i = Some (RTransferPush j t);
  pl_transfer_pop i j t : Transfer i j t ∈ tk ↔ R !! j = Some (RTransferPop i t);
  pl_push i t : i ∈ pushing_nodes (waiting d t) ↔ R !! i = Some (RPush t);
  pl_pop i t : i ∈ poping_nodes (waiting d t) ↔ R !! i = Some (RPop t);
  pl_nodup t : NoDup (pushing_nodes (waiting d t)) ∧ NoDup (poping_nodes (waiting d t));
  pl_one_sided t : pushing_nodes (waiting d t) = [] ∨ poping_nodes (waiting d t) = [];
}.

Lemma placed_empty : placed ∅ [] ∅.
Proof.
  split; try (intros; rewrite ?lookup_empty; unfold waiting; rewrite ?lookup_empty; simpl; by split; set_solver).
  - constructor.
  - intros t. split; constructor.
  - by left.
Qed.

Lemma waiting_insert d t t' w : waiting (<[t := w]> d) t' = if decide (t' = t) then w else waiting d t'.
Proof.
  unfold waiting. destruct (decide (t' = t)) as [->|Hne]; [by rewrite lookup_insert_eq|].
  by rewrite lookup_insert_ne.
Qed.

Lemma waiting_delete d t t' : waiting (delete t d) t' = if decide (t' = t) then PendingNodes [] [] else waiting d t'.
Proof.
  unfold waiting. destruct (decide (t' = t)) as [->|Hne]; [by rewrite lookup_delete_eq|].
  by rewrite lookup_delete_ne.
Qed.

Lemma elem_of_delete_task tk k x y :
  NoDup tk → tk !! k = Some x → y ∈ delete k tk ↔ y ∈ tk ∧ y ≠ x.
Proof.
  intros Hnd Hk. pose proof (delete_Permutation tk k x Hk) as Hp.
  rewrite Hp, NoDup_cons in Hnd. destruct Hnd as [Hx _].
  rewrite (elem_of_Permutation_proper y _ _ Hp), elem_of_cons. split; [|naive_solver].
  intros Hy. split; [by right|]. by intros ->.
Qed.

Lemma NoDup_delete_task tk k x : NoDup tk → tk !! k = Some x → NoDup (delete k tk).
Proof. intros Hnd Hk. rewrite (delete_Permutation tk k x Hk), NoDup_cons in Hnd. apply Hnd. Qed.

(** Lookups in an updated map of roles. *)
Lemma role_insert R i r j r' : (<[i := r]> R !! j = Some r') ↔ (j = i ∧ r' = r) ∨ (j ≠ i ∧ R !! j = Some r').
Proof. rewrite lookup_insert_Some. naive_solver. Qed.
Lemma role_delete R i j r' : (delete i R !! j = Some r') ↔ j ≠ i ∧ R !! j = Some r'.
Proof. rewrite lookup_delete_Some. naive_solver. Qed.

Ltac roles := intros; rewrite ?role_insert, ?role_delete.

(** *** A coroutine ends *)

Lemma placed_end_handle R tk d k i :
  placed R tk d → tk !! k = Some (Handle i) →
  R !! i = Some RHandle ∧ placed (delete i R) (delete k tk) d.
Proof.
  intros [Hnd Hh Htu Hto Hpu Hpo Hn Ho] Hk.
  assert (R !! i = Some RHandle) as Hi by (by apply Hh, list_elem_of_lookup_2 with k).
  split; [done|]. split; try done.
  - by eapply NoDup_delete_task.
  - roles. rewrite (elem_of_delete_task tk k _ _ Hnd Hk), Hh. naive_solver.
  - roles. rewrite (elem_of_delete_task tk k _ _ Hnd Hk), Htu. naive_solver.
  - roles. rewrite (elem_of_delete_task tk k _ _ Hnd Hk), Hto. naive_solver.
  - roles. rewrite Hpu. naive_solver.
  - roles. rewrite Hpo. naive_solver.
Qed.

Lemma placed_end_transfer R tk d k i j t :
  placed R tk d → tk !! k = Some (Transfer i j t) →
  R !! i = Some (RTransferPush j t) ∧ R !! j = Some (RTransferPop i t) ∧ i ≠ j ∧
  placed (delete i (delete j R)) (delete k tk) d.
Proof.
  intros [Hnd Hh Htu Hto Hpu Hpo Hn Ho] Hk.
  pose proof (list_elem_of_lookup_2 _ _ _ Hk) as Hin.
  pose proof (proj1 (Htu i j t) Hin) as Hi. pose proof (proj1 (Hto i j t) Hin) as Hj.
  split; [done|]. split; [done|]. split; [congruence|]. split; try done.
  - by eapply NoDup_delete_task.
  - roles. rewrite (elem_of_delete_task tk k _ _ Hnd Hk), Hh. naive_solver.
  - roles. rewrite (elem_of_delete_task tk k _ _ Hnd Hk), Htu. split; [|naive_solver].
    intros [Hr Hne]. split; [naive_solver|]. split; [naive_solver|done].
  - roles. rewrite (elem_of_delete_task tk k _ _ Hnd Hk), Hto. split; [|naive_solver].
    intros [Hr Hne]. split; [naive_solver|]. split; [naive_solver|done].
  - roles. rewrite Hpu. naive_solver.
  - roles. rewrite Hpo. naive_solver.
Qed.

(** *** A coroutine is spawned *)

Lemma placed_handle R tk d i :
  placed R tk d → R !! i = None → placed (<[i := RHandle]> R) (tk ++ [Handle i]) d.
Proof.
  intros [Hnd Hh Htu Hto Hpu Hpo Hn Ho] Hi. split; try done.
  - apply NoDup_app. split; [done|]. split; [|repeat constructor; set_solver].
    intros x Hx ->%list_elem_of_singleton. apply Hh in Hx. congruence.
  - roles. rewrite elem_of_app, list_elem_of_singleton, Hh. naive_solver.
  - roles. rewrite elem_of_app, list_elem_of_singleton, Htu. naive_solver.
  - roles. rewrite elem_of_app, list_elem_of_singleton, Hto. naive_solver.
  - roles. rewrite Hpu. naive_solver.
  - roles. rewrite Hpo. naive_solver.
Qed.

Lemma placed_transfer R tk d i j t :
  placed R tk d → R !! i = None → R !! j = None → i ≠ j →
  placed (<[i := RTransferPush j t]> (<[j := RTransferPop i t]> R)) (tk ++ [Transfer i j t]) d.
Proof.
  intros [Hnd Hh Htu Hto Hpu Hpo Hn Ho] Hi Hj Hne. split; try done.
  - apply NoDup_app. split; [done|]. split; [|repeat constructor; set_solver].
    intros x Hx ->%list_elem_of_singleton. apply Htu in Hx. congruence.
  - roles. rewrite elem_of_app, list_elem_of_singleton, Hh. naive_solver.
  - roles. rewrite elem_of_app, list_elem_of_singleton, Htu. naive_solver.
  - roles. rewrite elem_of_app, list_elem_of_singleton, Hto. naive_solver.
  - roles. rewrite Hpu. naive_solver.
  - roles. rewrite Hpo. naive_solver.
Qed.

(** *** A socket waits *)

Lemma placed_wait_push R tk d i t :
  placed R tk d → R !! i = None → poping_nodes (waiting d t) = [] →
  placed (<[i := RPush t]> R) tk
    (<[t := PendingNodes (pushing_nodes (waiting d t) ++ [i]) (poping_nodes (waiting d t))]> d).
Proof.
  intros [Hnd Hh Htu Hto Hpu Hpo Hn Ho] Hi He. split; try done.
  - roles. rewrite Hh. naive_solver.
  - roles. rewrite Htu. naive_solver.
  - roles. rewrite Hto. naive_solver.
  - roles. rewrite waiting_insert. case_decide as Ht; simpl.
    + rewrite elem_of_app, list_elem_of_singleton, Hpu. naive_solver.
    + rewrite Hpu. naive_solver.
  - roles. rewrite waiting_insert. case_decide as Ht; simpl; rewrite ?Hpo; naive_solver.
  - intros t'. rewrite waiting_insert. case_decide; [simpl|done]. split; [|apply Hn].
    apply NoDup_app. split; [apply Hn|]. split; [|repeat constructor; set_solver].
    intros x Hx%Hpu ->%list_elem_of_singleton. congruence.
  - intros t'. rewrite waiting_insert. case_decide; [by right|done].
Qed.

Lemma placed_wait_pop R tk d i t :
  placed R tk d → R !! i = None → pushing_nodes (waiting d t) = [] →
  placed (<[i := RPop t]> R) tk
    (<[t := PendingNodes (pushing_nodes (waiting d t)) (poping_nodes (waiting d t) ++ [i])]> d).
Proof.
  intros [Hnd Hh Htu Hto Hpu Hpo Hn Ho] Hi He. split; try done.
  - roles. rewrite Hh. naive_solver.
  - roles. rewrite Htu. naive_solver.
  - roles. rewrite Hto. naive_solver.
  - roles. rewrite waiting_insert. case_decide as Ht; simpl; rewrite ?Hpu; naive_solver.
  - roles. rewrite waiting_insert. case_decide as Ht; simpl.
    + rewrite elem_of_app, list_elem_of_singleton, Hpo. naive_solver.
    + rewrite Hpo. naive_solver.
  - intros t'. rewrite waiting_insert. case_decide; [simpl|done]. split; [apply Hn|].
    apply NoDup_app. split; [apply Hn|]. split; [|repeat constructor; set_solver].
    intros x Hx%Hpo ->%list_elem_of_singleton. congruence.
  - intros t'. rewrite waiting_insert. case_decide; [by left|done].
Qed.

(** *** A waiting socket is taken from the back *)

Lemma removelast_elem {A} (l : list A) x y :
  NoDup l → last l = Some x → (y ∈ removelast l ↔ y ∈ l ∧ y ≠ x) ∧ NoDup (removelast l).
Proof.
  intros Hnd [l' ->]%last_Some. rewrite removelast_last. apply NoDup_app in Hnd as (Hl & Hx & _).
  split; [|done]. rewrite elem_of_app, list_elem_of_singleton. split; [|naive_solver].
  intros Hy. split; [by left|]. intros ->. apply (Hx x Hy). by left.
Qed.

Lemma placed_take_pop R tk d t j :
  placed R tk d → last (poping_nodes (waiting d t)) = Some j →
  R !! j = Some (RPop t) ∧
  placed (delete j R) tk
    (<[t := PendingNodes (pushing_nodes (waiting d t)) (removelast (poping_nodes (waiting d t)))]> d).
Proof.
  intros [Hnd Hh Htu Hto Hpu Hpo Hn Ho] Hl.
  assert (j ∈ poping_nodes (waiting d t)) as Hin.
  { apply last_Some in Hl as [l' ->]. apply elem_of_app. right. by left. }
  pose proof (proj1 (Hpo _ _) Hin) as Hj. split; [done|]. split; try done.
  - roles. rewrite Hh. naive_solver.
  - roles. rewrite Htu. naive_solver.
  - roles. rewrite Hto. naive_solver.
  - roles. rewrite waiting_insert. case_decide as Ht; simpl; rewrite ?Hpu; naive_solver.
  - roles. rewrite waiting_insert. case_decide as Ht; simpl.
    + subst. rewrite (proj1 (removelast_elem _ _ i (proj2 (Hn t)) Hl)), Hpo. naive_solver.
    + rewrite Hpo. naive_solver.
  - intros t'. rewrite waiting_insert. case_decide; [simpl|done]. split; [apply Hn|].
    by apply (removelast_elem _ j j (proj2 (Hn t))).
  - intros t'. rewrite waiting_insert. case_decide; [|done]. left. simpl.
    destruct (Ho t) as [->|He]; [done|]. by rewrite He in Hin; apply not_elem_of_nil in Hin.
Qed.

Lemma placed_take_push R tk d t j :
  placed R tk d → last (pushing_nodes (waiting d t)) = Some j →
  R !! j = Some (RPush t) ∧
  placed (delete j R) tk
    (<[t := PendingNodes (removelast (pushing_nodes (waiting d t))) (poping_nodes (waiting d t))]> d).
Proof.
  intros [Hnd Hh Htu Hto Hpu Hpo Hn Ho] Hl.
  assert (j ∈ pushing_nodes (waiting d t)) as Hin.
  { apply last_Some in Hl as [l' ->]. apply elem_of_app. right. by left. }
  pose proof (proj1 (Hpu _ _) Hin) as Hj. split; [done|]. split; try done.
  - roles. rewrite Hh. naive_solver.
  - roles. rewrite Htu. naive_solver.
  - roles. rewrite Hto. naive_solver.
  - roles. rewrite waiting_insert. case_decide as Ht; simpl.
    + subst. rewrite (proj1 (removelast_elem _ _ i (proj1 (Hn t)) Hl)), Hpu. naive_solver.
    + rewrite Hpu. naive_solver.
  - roles. rewrite waiting_insert. case_decide as Ht; simpl; rewrite ?Hpo; naive_solver.
  - intros t'. rewrite waiting_insert. case_decide; [simpl|done]. split; [|apply Hn].
    by apply (removelast_elem _ j j (proj1 (Hn t))).
  - intros t'. rewrite waiting_insert. case_decide; [|done]. right. simpl.
    destruct (Ho t) as [He| ->]; [|done]. by rewrite He in Hin; apply not_elem_of_nil in Hin.
Qed.

(** *** A topic is closed *)

Definition off_topic t (r : role) : bool :=
  match r with RPush t' | RPop t' => bool_decide (t' ≠ t) | _ => true end.
Definition close_roles t R : gmap sid role := filter (λ ir, off_topic t ir.2 = true) R.

Lemma role_close t R i r : close_roles t R !! i = Some r ↔ R !! i = Some r ∧ off_topic t r = true.
Proof. apply map_lookup_filter_Some. Qed.

Lemma placed_close R tk d t : placed R tk d → placed (close_roles t R) tk (delete t d).
Proof.
  intros [Hnd Hh Htu Hto Hpu Hpo Hn Ho]. split; try done.
  - intros i. rewrite role_close, Hh. naive_solver.
  - intros i j t'. rewrite role_close, Htu. naive_solver.
  - intros i j t'. rewrite role_close, Hto. naive_solver.
  - intros i t'. rewrite role_close, waiting_delete. simpl. case_decide as Ht; simpl.
    + subst. rewrite bool_decide_false by naive_solver. split; [set_solver|naive_solver].
    + rewrite bool_decide_true by done. rewrite Hpu. naive_solver.
  - intros i t'. rewrite role_close, waiting_delete. simpl. case_decide as Ht; simpl.
    + subst. rewrite bool_decide_false by naive_solver. split; [set_solver|naive_solver].
    + rewrite bool_decide_true by done. rewrite Hpo. naive_solver.
  - intros t'. rewrite waiting_delete. case_decide; [split; constructor|done].
  - intros t'. rewrite waiting_delete. case_decide; [by left|done].
Qed.

End places.

(** ** The server keeps its sockets in their places *)

Section server.
Context (asio : Asio) `{Platform}.
Implicit Types (R : gmap sid role) (st : Switcher) (i j : sid) (t : cpp_string) (s : socket).

Definition open_socket st i : Prop := ∃ s, sockets st !! i = Some s ∧ is_open s = true.

Record srv_inv R st : Prop := {
  sv_placed : placed R (tasks st) (datas_ st);
  sv_open i : is_Some (R !! i) → open_socket st i;
}.

(** *** The handlers *)

Lemma handle_push_request_eq i pkg st (t := rq_topic pkg) (d := waiting (datas_ st) t) :
  handle_push_request i pkg st =
  match last (poping_nodes d) with
  | Some j => co_spawn (Transfer i j t)
      (set_datas (<[t := PendingNodes (pushing_nodes d) (removelast (poping_nodes d))]> (datas_ st)) st)
  | None => set_datas (<[t := PendingNodes (pushing_nodes d ++ [i]) (poping_nodes d)]> (datas_ st)) st
  end.
Proof. unfold handle_push_request, d, waiting. fold t. by destruct (datas_ st !! t). Qed.

Lemma handle_pop_request_eq i pkg st (t := rq_topic pkg) (d := waiting (datas_ st) t) :
  handle_pop_request i pkg st =
  match last (pushing_nodes d) with
  | Some j => co_spawn (Transfer j i t)
      (set_datas (<[t := PendingNodes (removelast (pushing_nodes d)) (poping_nodes d)]> (datas_ st)) st)
  | None => set_datas (<[t := PendingNodes (pushing_nodes d) (poping_nodes d ++ [i])]> (datas_ st)) st
  end.
Proof. unfold handle_pop_request, d, waiting. fold t. by destruct (datas_ st !! t). Qed.

(** The roles after a push request and after a pop request of socket [i]. *)
Definition push_roles i t st R : gmap sid role :=
  match last (poping_nodes (waiting (datas_ st) t)) with
  | Some j => <[i := RTransferPush j t]> (<[j := RTransferPop i t]> R)
  | None => <[i := RPush t]> R
  end.
Definition pop_roles i t st R : gmap sid role :=
  match last (pushing_nodes (waiting (datas_ st) t)) with
  | Some j => <[i := RTransferPop j t]> (<[j := RTransferPush i t]> R)
  | None => <[i := RPop t]> R
  end.

Lemma handle_push_inv R st i pkg :
  srv_inv R st → R !! i = None → open_socket st i →
  srv_inv (push_roles i (rq_topic pkg) st R) (handle_push_request i pkg st) ∧
  sockets (handle_push_request i pkg st) = sockets st.
Proof.
  intros [Hp Ho] Hi Hs. rewrite handle_push_request_eq. unfold push_roles. set (t := rq_topic pkg).
  destruct (last (poping_nodes (waiting (datas_ st) t))) as [j|] eqn:Hl.
  - destruct (placed_take_pop _ _ _ _ _ Hp Hl) as [Hj Hp']. split; [|done].
    assert (i ≠ j) as Hne by congruence. split; simpl.
    + rewrite <- (insert_delete_eq R j). apply placed_transfer; [done|by rewrite lookup_delete_ne|apply lookup_delete_eq|done].
    + intros i'. rewrite !lookup_insert_is_Some'. intros [<-|[<-|Hr]]; [done|..]; apply Ho; [by rewrite Hj|done].
  - apply last_None in Hl. split; [|done]. split; simpl; [by apply placed_wait_push|].
    intros i'. rewrite lookup_insert_is_Some'. intros [<-|Hr]; [done|]. by apply Ho.
Qed.

Lemma handle_pop_inv R st i pkg :
  srv_inv R st → R !! i = None → open_socket st i →
  srv_inv (pop_roles i (rq_topic pkg) st R) (handle_pop_request i pkg st) ∧
  sockets (handle_pop_request i pkg st) = sockets st.
Proof.
  intros [Hp Ho] Hi Hs. rewrite handle_pop_request_eq. unfold pop_roles. set (t := rq_topic pkg).
  destruct (last (pushing_nodes (waiting (datas_ st) t))) as [j|] eqn:Hl.
  - destruct (placed_take_push _ _ _ _ _ Hp Hl) as [Hj Hp']. split; [|done].
    assert (i ≠ j) as Hne by congruence. split; simpl.
    + rewrite insert_insert_ne, <- insert_delete_eq, delete_insert_ne by done.
      apply placed_transfer; [done|apply lookup_delete_eq|by rewrite lookup_delete_ne|done].
    + intros i'. rewrite !lookup_insert_is_Some'. intros [<-|[<-|Hr]]; [done|..]; apply Ho; [by rewrite Hj|done].
  - apply last_None in Hl. split; [|done]. split; simpl; [by apply placed_wait_pop|].
    intros i'. rewrite lookup_insert_is_Some'. intros [<-|Hr]; [done|]. by apply Ho.
Qed.

(** Closing a topic closes the sockets that wait for it. *)
Definition close_topic t st : Switcher :=
  match datas_ st !! t with
  | Some d => foldr destroy (set_datas (delete t (datas_ st)) st) (pushing_nodes d ++ poping_nodes d)
  | None => st
  end.

Lemma destroy_all l st :
  datas_ (foldr destroy st l) = datas_ st ∧ tasks (foldr destroy st l) = tasks st ∧
  ∀ i, sockets (foldr destroy st l) !! i = if decide (i ∈ l) then close <$> sockets st !! i else sockets st !! i.
Proof.
  induction l as [|j l (Hd & Ht & Hs)]; cbn [foldr].
  - split; [done|]. split; [done|]. intros i. by rewrite decide_False by set_solver.
  - split; [done|]. split; [done|]. intros i. destruct (decide (i = j)) as [->|Hne].
    + simpl. rewrite lookup_alter_eq, Hs, (decide_True (P := j ∈ j :: l)) by set_solver.
      case_decide; [|done]. by destruct (sockets st !! j).
    + simpl. rewrite lookup_alter_ne, Hs by done. repeat case_decide; try done; set_solver.
Qed.

Lemma close_topic_inv R st t :
  srv_inv R st →
  srv_inv (close_roles t R) (close_topic t st) ∧ tasks (close_topic t st) = tasks st ∧
  datas_ (close_topic t st) = delete t (datas_ st) ∧
  (∀ i, sockets (close_topic t st) !! i =
     if decide (R !! i = Some (RPush t) ∨ R !! i = Some (RPop t)) then close <$> sockets st !! i else sockets st !! i).
Proof.
  intros [Hp Ho]. unfold close_topic. destruct (datas_ st !! t) as [d|] eqn:Hd.
  - destruct (destroy_all (pushing_nodes d ++ poping_nodes d) (set_datas (delete t (datas_ st)) st)) as (Hd' & Ht' & Hs').
    assert (waiting (datas_ st) t = d) as Hw by (unfold waiting; by rewrite Hd).
    assert (∀ i, i ∈ pushing_nodes d ++ poping_nodes d ↔ R !! i = Some (RPush t) ∨ R !! i = Some (RPop t)) as Hin.
    { intros i. rewrite elem_of_app, <- Hw. by rewrite (pl_push _ _ _ Hp), (pl_pop _ _ _ Hp). }
    assert (∀ i, sockets (foldr destroy (set_datas (delete t (datas_ st)) st) (pushing_nodes d ++ poping_nodes d)) !! i =
      if decide (R !! i = Some (RPush t) ∨ R !! i = Some (RPop t)) then close <$> sockets st !! i else sockets st !! i) as Hs.
    { intros i. rewrite Hs'. apply decide_ext, Hin. }
    split; [|done]. split.
    + rewrite Ht', Hd'. by apply placed_close.
    + intros i [r [Hr Hoff]%role_close]. destruct (Ho i) as (s & Hsi & Hop); [by rewrite Hr|].
      exists s. split; [|done]. rewrite Hs, decide_False; [done|]. rewrite Hr.
      intros [[= ->]|[= ->]]; simpl in Hoff; by rewrite bool_decide_false in Hoff by naive_solver.
  - assert (∀ i, ¬ (R !! i = Some (RPush t) ∨ R !! i = Some (RPop t))) as Hno.
    { intros i. rewrite <- (pl_push _ _ _ Hp), <- (pl_pop _ _ _ Hp). unfold waiting. rewrite Hd. simpl. set_solver. }
    assert (close_roles t R = R) as HR.
    { apply map_filter_id. intros i r Hr. simpl. unfold off_topic.
      destruct r; try done; apply bool_decide_true; intros ->; by apply (Hno i); rewrite Hr; auto. }
    rewrite HR. split; [done|]. split; [done|]. split; [by rewrite delete_id|].
    intros i. by rewrite decide_False.
Qed.

(** *** Coroutines on one socket *)

(** Reading and writing does not close a socket. *)
Definition keeps_open {A} (m : IO A) : Prop := ∀ s s' r, m s = Some (s', r) → is_open s' = is_open s.

Lemma keeps_bind {A B} (m : IO A) (f : A → IO B) :
  keeps_open m → (∀ a, keeps_open (f a)) → keeps_open (m ≫= f).
Proof.
  intros Hm Hf s s' r. unfold mbind, IO_bind. destruct (m s) as [[s1 [a|e|c]]|] eqn:Hs; [|naive_solver..].
  intros Hfa. rewrite (Hf a _ _ _ Hfa). by eapply Hm.
Qed.
Lemma keeps_lift {A} (o : outcome A) : keeps_open (lift o).
Proof. by intros s s' r [= <- <-]. Qed.
Lemma keeps_ret {A} (a : A) : keeps_open (mret a).
Proof. by intros s s' r [= <- <-]. Qed.
Lemma keeps_async_read n s s' r : async_read asio n s = Some (s', r) → is_open s' = is_open s.
Proof. rewrite async_read_eq. unfold stream_read. case_decide; [|destruct (rx_end s)]; naive_solver. Qed.
Lemma keeps_asio_read n : keeps_open (asio_read asio n).
Proof.
  intros s s' r. unfold asio_read. destruct (async_read asio n s) as [[s1 [ec bs]]|] eqn:Hr; simpl; [|done].
  intros [= <- <-]. by eapply keeps_async_read.
Qed.
Lemma keeps_asio_write bs : keeps_open (asio_write asio bs).
Proof. intros s s' r. unfold asio_write. rewrite async_write_eq. unfold stream_write. destruct (tx_end s); naive_solver. Qed.

Lemma keeps_write_package {A} `{Serializable A} (v : A) : keeps_open (write_package asio v).
Proof.
  unfold write_package. repeat (apply keeps_bind; [|intros ?]); auto using keeps_lift, keeps_asio_write.
Qed.
Lemma keeps_read_package {A} `{Serializable A} : keeps_open (read_package asio (A := A)).
Proof.
  unfold read_package. repeat (apply keeps_bind; [|intros ?]); auto using keeps_lift, keeps_asio_read.
  destruct a0. apply keeps_bind; auto using keeps_asio_read, keeps_lift.
Qed.
Lemma keeps_read_package_eof {A} `{Serializable A} : keeps_open (read_package_eof asio (A := A)).
Proof.
  unfold read_package_eof. apply keeps_bind.
  - intros s s' r. unfold asio_read_ec. destruct (async_read asio 4 s) as [[s1 p]|] eqn:Hr; simpl; [|done].
    intros [= <- <-]. by eapply keeps_async_read.
  - intros [[] buf]; [|apply keeps_ret|apply keeps_lift]. apply keeps_bind; [apply keeps_lift|]. intros [n].
    apply keeps_bind; [apply keeps_asio_read|]. intros b. apply keeps_bind; [apply keeps_lift|]. intros v. apply keeps_ret.
Qed.

Lemma with_socket_inv {A} R st i (m : IO A) st' r :
  srv_inv R st → keeps_open m → with_socket i m st = Some (st', r) →
  srv_inv R st' ∧ tasks st' = tasks st ∧ datas_ st' = datas_ st ∧ (∀ j, open_socket st j → open_socket st' j).
Proof.
  intros [Hp Ho] Hk. unfold with_socket. destruct (sockets st !! i) as [s|] eqn:Hs; simpl; [|done].
  destruct (m s) as [[s' r']|] eqn:Hm; simpl; [|done]. intros [= <- <-].
  assert (∀ j, open_socket st j → open_socket (set_socket i s' st) j) as Hop.
  { intros j (sj & Hj & Hoj). unfold open_socket. simpl. destruct (decide (j = i)) as [->|Hne].
    - exists s'. rewrite lookup_insert_eq. split; [done|]. rewrite (Hk _ _ _ Hm). naive_solver.
    - exists sj. by rewrite lookup_insert_ne. }
  split; [|done]. split; [done|]. intros j Hj. by apply Hop, Ho.
Qed.

(** A socket without a role may be destroyed. *)
Lemma destroy_inv R st i : srv_inv R st → R !! i = None → srv_inv R (destroy i st).
Proof.
  intros [Hp Ho] Hi. split; [done|]. intros j Hj. destruct (Ho j Hj) as (s & Hs & Hop). exists s. split; [|done].
  simpl. rewrite lookup_alter_ne; [done|]. intros ->. rewrite Hi in Hj. by destruct Hj.
Qed.

Lemma caught_inv R st st' l r r' :
  srv_inv R st → (∀ i, i ∈ l → R !! i = None) → caught l (st, r) = (st', r') → (∀ e, r' ≠ Throw e) ∧
  (r = Ok tt → st' = st ∧ r' = Ok tt) ∧ (r ≠ Ok tt → srv_inv R st').
Proof.
  intros Hinv Hl. destruct r as [[]|e|c]; simpl; intros [= <- <-]; try naive_solver.
  split; [naive_solver|]. split; [done|]. intros _. induction l as [|i l IH]; [done|]. simpl.
  apply destroy_inv; [|apply Hl; by left]. apply IH. intros j Hj. apply Hl. by right.
Qed.

(** *** One run of a coroutine *)

Lemma spawn_handle_inv R st i :
  srv_inv R st → R !! i = None → open_socket st i → srv_inv (<[i := RHandle]> R) (co_spawn (Handle i) st).
Proof.
  intros [Hp Ho] Hi Hs. split; [by apply placed_handle|].
  intros j. rewrite lookup_insert_is_Some'. intros [<-|Hj]; [done|]. by apply Ho.
Qed.

(** The coroutine of socket [i] ends well or with a failure, after which the
    socket has no role. *)
Definition run_ok (l : list sid) (x : Switcher * outcome unit) : Prop :=
  match x.2 with
  | Ok _ => ∃ R, srv_inv R x.1
  | _ => ∃ R, srv_inv R x.1 ∧ ∀ i, i ∈ l → R !! i = None
  end.

Lemma reply_ok R st i rpkg x :
  srv_inv R st → R !! i = None → open_socket st i → reply_and_handle asio i rpkg st = Some x → run_ok [i] x.
Proof.
  intros Hinv Hi Hs. unfold reply_and_handle.
  destruct (with_socket i _ st) as [[st1 r]|] eqn:Hw; simpl; [|done].
  destruct (with_socket_inv _ _ _ _ _ _ Hinv (keeps_write_package rpkg) Hw) as (Hinv1 & _ & _ & Hop).
  assert (∀ j, j ∈ [i] → R !! j = None) as Hl by (by intros j ->%list_elem_of_singleton).
  destruct r; intros [= <-]; [|by exists R..]. exists (<[i := RHandle]> R). apply spawn_handle_inv; auto.
Qed.

Lemma handle_request_ok R st i pkg x :
  srv_inv R st → R !! i = None → open_socket st i → handle_request asio i pkg st = Some x → run_ok [i] x.
Proof.
  intros Hinv Hi Hs. unfold handle_request. destruct (rq_type pkg) as [type].
  assert (∀ j, j ∈ [i] → R !! j = None) as Hl by (by intros j ->%list_elem_of_singleton).
  case_decide; [|intros [= <-]; by exists R]. case_decide.
  { intros [= <-]. eexists. by apply handle_push_inv. }
  case_decide.
  { intros [= <-]. eexists. by apply handle_pop_inv. }
  case_decide; [|case_decide; [|intros [= <-]; by exists R]].
  - unfold handle_close_topic_request. fold (close_topic (rq_topic pkg) st).
    destruct (close_topic_inv R st (rq_topic pkg) Hinv) as (Hinv' & _ & _ & Hsk). apply reply_ok with (close_roles (rq_topic pkg) R).
    + done.
    + apply eq_None_not_Some. intros [r [Hr _]%role_close]. congruence.
    + destruct Hs as (s & Hsi & Hop). exists s. rewrite Hsk, decide_False by (rewrite Hi; naive_solver). done.
  - by apply (reply_ok R).
Qed.

Lemma caught_ok l x : run_ok l x → run_ok [] (caught l x) ∧ ∀ e, (caught l x).2 ≠ Throw e.
Proof.
  destruct x as [st [[]|e|c]]; unfold run_ok; simpl; [done| |].
  2: { intros (R & Hinv & _). split; [exists R; split; [done|set_solver]|done]. }
  intros (R & Hinv & Hl). split; [|done]. exists R. induction l as [|i l IH]; [done|]. simpl.
  apply destroy_inv; [|apply Hl; by left]. apply IH. intros j Hj. apply Hl. by right.
Qed.

Lemma handle_ok R st i x :
  srv_inv R st → R !! i = None → open_socket st i → handle asio i st = Some x →
  run_ok [] x ∧ ∀ e, x.2 ≠ Throw e.
Proof.
  intros Hinv Hi Hs. unfold handle. destruct (with_socket i _ st) as [[st1 r]|] eqn:Hw; simpl; [|done].
  destruct (with_socket_inv _ _ _ _ _ _ Hinv keeps_read_package_eof Hw) as (Hinv1 & _ & _ & Hop).
  intros (y & Hy & ->)%fmap_Some. apply caught_ok.
  assert (∀ j, j ∈ [i] → R !! j = None) as Hl by (by intros j ->%list_elem_of_singleton).
  destruct r as [[pkg|]|e|c]; simplify_eq; try (by exists R).
  - apply (handle_request_ok R st1 i pkg); auto.
  - exists R. by apply destroy_inv.
Qed.

(** A sequence of coroutines on the sockets [l]. *)
Lemma and_then_ok {A} R st l i (m : IO A) (f : A → Switcher → option (Switcher * outcome unit)) x :
  srv_inv R st → (∀ j, j ∈ l → R !! j = None) → (∀ j, j ∈ l → open_socket st j) → keeps_open m →
  (∀ a st' y, srv_inv R st' → (∀ j, j ∈ l → open_socket st' j) → f a st' = Some y → run_ok l y) →
  and_then (with_socket i m st) f = Some x → run_ok l x.
Proof.
  intros Hinv Hl Hop Hk Hf. unfold and_then. destruct (with_socket i m st) as [[st1 r]|] eqn:Hw; simpl; [|done].
  destruct (with_socket_inv _ _ _ _ _ _ Hinv Hk Hw) as (Hinv1 & _ & _ & Hop1).
  destruct r; [apply Hf; auto|intros [= <-]; by exists R..].
Qed.

Context (get_remote_ipport : sid → cpp_string).

Lemma transfer_ok R st i j t x :
  srv_inv R st → R !! i = None → R !! j = None → i ≠ j → open_socket st i → open_socket st j →
  transfer_data asio get_remote_ipport i j t st = Some x → run_ok [] x ∧ ∀ e, x.2 ≠ Throw e.
Proof.
  intros Hinv Hi Hj Hne Hsi Hsj. unfold transfer_data. intros (y & Hy & ->)%fmap_Some. apply caught_ok.
  assert (∀ k, k ∈ [i; j] → R !! k = None) as Hl by set_solver.
  assert (∀ k, k ∈ [i; j] → open_socket st k) as Hop by set_solver.
  revert Hy. apply (and_then_ok R); auto using keeps_read_package. intros dpkg st1 y1 Hinv1 Hop1.
  apply (and_then_ok R); auto using keeps_write_package. intros _ st2 y2 Hinv2 Hop2.
  apply (and_then_ok R); auto using keeps_write_package. intros _ st3 y3 Hinv3 Hop3.
  apply (and_then_ok R); auto using keeps_write_package. intros _ st4 y4 Hinv4 Hop4 [= <-].
  exists (<[j := RHandle]> (<[i := RHandle]> R)). apply spawn_handle_inv.
  - apply spawn_handle_inv; [done..|]. apply Hop4. set_solver.
  - by rewrite lookup_insert_ne.
  - destruct (Hop4 j) as (s & ? & ?); [set_solver|]. by exists s.
Qed.

Lemma server_step_ok R k st x :
  srv_inv R st → server_step asio get_remote_ipport k st = Some x → run_ok [] x ∧ ∀ e, x.2 ≠ Throw e.
Proof.
  intros [Hp Ho]. unfold server_step. destruct (tasks st !! k) as [[i|i j t]|] eqn:Hk; simpl; [..|done].
  - destruct (placed_end_handle _ _ _ _ _ Hp Hk) as [Hi Hp'].
    apply (handle_ok (delete i R)); [|apply lookup_delete_eq|by apply Ho; rewrite Hi].
    split; [done|]. intros j [r [Hne Hr]%role_delete]. apply Ho. by exists r.
  - destruct (placed_end_transfer _ _ _ _ _ _ _ Hp Hk) as (Hi & Hj & Hne & Hp').
    apply (transfer_ok (delete i (delete j R))); try done.
    + split; [done|]. intros i' [r Hr]. rewrite !role_delete in Hr. apply Ho. exists r. apply Hr.
    + apply lookup_delete_eq.
    + rewrite lookup_delete_ne by done. apply lookup_delete_eq.
    + apply Ho. by rewrite Hi.
    + apply Ho. by rewrite Hj.
Qed.

(** The states of the server, with clients that send any bytes, or break off, at
    any time. *)
Inductive served : Switcher → Prop :=
| served_init : served Switcher_init
| served_accept i s st : served st → sockets st !! i = None → is_open s = true → served (start_accept i s st)
| served_client i s s' st :
    served st → sockets st !! i = Some s → is_open s' = is_open s → served (set_socket i s' st)
| served_step k st st' :
    served st → server_step asio get_remote_ipport k st = Some (st', Ok tt) → served st'.

Lemma accept_inv R st i s :
  srv_inv R st → R !! i = None → is_open s = true → srv_inv (<[i := RHandle]> R) (start_accept i s st).
Proof.
  intros [Hp Ho] Hi Hs. apply spawn_handle_inv; [|done|exists s; simpl; by rewrite lookup_insert_eq].
  split; [done|]. intros j Hj. destruct (Ho j Hj) as (sj & Hsj & Hoj). exists sj. simpl.
  rewrite lookup_insert_ne; [done|]. intros ->. rewrite Hi in Hj. by destruct Hj.
Qed.

Lemma srv_inv_set_socket R st i s s' :
  srv_inv R st → sockets st !! i = Some s → is_open s' = is_open s → srv_inv R (set_socket i s' st).
Proof.
  intros [Hp Ho] Hs Hop. split; [done|]. intros j Hj. destruct (Ho j Hj) as (sj & Hsj & Hoj).
  unfold open_socket. simpl. destruct (decide (j = i)) as [->|Hne].
  - exists s'. rewrite lookup_insert_eq. split; [done|]. congruence.
  - exists sj. by rewrite lookup_insert_ne.
Qed.

Lemma served_inv st : served st → ∃ R, srv_inv R st.
Proof.
  induction 1 as [|i s st _ [R Hinv] Hi Hs|i s s' st _ [R Hinv] Hs Ho|k st st' _ [R Hinv] Hst].
  - exists ∅. split; [apply placed_empty|]. intros i. rewrite lookup_empty. by intros [].
  - exists (<[i := RHandle]> R). apply accept_inv; try done. apply eq_None_not_Some. intros Hr.
    destruct (sv_open _ _ Hinv i Hr) as (s' & Hs' & _). congruence.
  - exists R. by eapply srv_inv_set_socket.
  - destruct (server_step_ok R k st _ Hinv Hst) as [[R' Hinv'] _]. by exists R'.
Qed.

(** C23: whatever bytes the clients send, every socket the server holds has one
    place ([placed]: one coroutine, or one list of waiting sockets), its
    connection is open, a topic never has sockets waiting on both sides, and an
    exception of a coroutine never leaves it: the other clients are unaffected. *)
Theorem switcher_places st :
  served st →
  (∃ R, placed R (tasks st) (datas_ st) ∧ ∀ i, is_Some (R !! i) → open_socket st i) ∧
  (∀ t, pushing_nodes (waiting (datas_ st) t) = [] ∨ poping_nodes (waiting (datas_ st) t) = []) ∧
  (∀ k x e, server_step asio get_remote_ipport k st = Some x → x.2 ≠ Throw e).
Proof.
  intros [R Hinv]%served_inv. split; [exists R; by destruct Hinv|]. split; [apply (sv_placed _ _ Hinv)|].
  intros k x e Hx. by apply (server_step_ok R k st x Hinv Hx).
Qed.

(** a request whose type is none of the four makes the server index
    [request_type_str] out of bounds before the type is checked: the branch that
    throws for such a type is never reached. *)
Theorem switcher_bad_request_type (lax : strict_index = false) k i s st pkg rest ty :
  tasks st !! k = Some (Handle i) → sockets st !! i = Some s →
  rx s = pkg_frame (H1 := request_laws lax) pkg ++ rest → sendable (H1 := request_laws lax) pkg →
  rq_type pkg = I32 ty → (ty < 0 ∨ 4 ≤ ty)%Z →
  ∃ st', server_step asio get_remote_ipport k st = Some (st', Crash UndefinedBehaviour).
Proof.
  intros Hk Hs Hrx Hsend Hty Hbad. unfold server_step. rewrite Hk. cbn [mbind option_bind run_task].
  unfold handle, with_socket. cbn [sockets]. rewrite Hs. cbn [mbind option_bind].
  rewrite (read_package_eof_spec (H1 := request_laws lax) asio pkg rest s Hsend Hrx). cbn [mbind option_bind].
  unfold handle_request. rewrite Hty. rewrite decide_False by (simpl; lia). simpl. by eexists.
Qed.

End server.

(** ** A client that sends a request of unknown type *)

Module SampleServer.

Definition peers (i : sid) : cpp_string := [].
Definition odd_request : request_package := RequestPackage [] (I32 4) (I32 0).
Definition odd_bytes : cpp_string := pkg_frame (H1 := request_laws (H := little_host) eq_refl) odd_request.
Definition accepted : Switcher := start_accept 0 (Socket [] ec_none [] ec_none true) Switcher_init.
Definition attacked : Switcher := set_socket 0 (Socket odd_bytes ec_none [] ec_none true) accepted.

Lemma attacked_served : @served stream_asio little_host peers attacked.
Proof.
  apply (served_client _ _ 0 (Socket [] ec_none [] ec_none true)); [|vm_compute; reflexivity|reflexivity].
  apply served_accept; [apply served_init|reflexivity|reflexivity].
Qed.

Lemma switcher_places_witness :
  (∃ R, placed R (tasks attacked) (datas_ attacked) ∧ ∀ i, is_Some (R !! i) → open_socket attacked i) ∧
  (∀ t, pushing_nodes (waiting (datas_ attacked) t) = [] ∨ poping_nodes (waiting (datas_ attacked) t) = []) ∧
  (∀ k x e, @server_step stream_asio little_host peers k attacked = Some x → x.2 ≠ Throw e).
Proof. apply (@switcher_places stream_asio little_host peers attacked attacked_served). Defined.

Lemma switcher_bad_request_type_witness :
  ∃ st', @server_step stream_asio little_host peers 0 attacked = Some (st', Crash UndefinedBehaviour).
Proof.
  apply (@switcher_bad_request_type stream_asio little_host peers eq_refl 0 0
           (Socket odd_bytes ec_none [] ec_none true) attacked odd_request [] 4%Z).
  - reflexivity.
  - vm_compute. reflexivity.
  - symmetry. apply app_nil_r.
  - split; [vm_compute; intuition congruence|vm_compute; reflexivity].
  - reflexivity.
  - right. lia.
Defined.

End SampleServer.
