(* ===== verification/SwitcherSystem.v ===== *)
(** * Clients and server of the switcher together

    Any number of [SwitcherClient]s, each running one operation after the
    other, and the server, interleaved in any order.  A client's operation is
    its request, sent at once, and the reading of the answer, which happens
    when the answer has arrived.  The theorems say that every value popped was
    pushed, exactly once, to the same topic. *)

From stdpp Require Import base gmap strings list fin_maps.
From Stdlib Require Strings.Byte.
From S2P Require Import Prelude Events Coro Processor Nodes Wire Sockets Switcher SwitcherInv.

#[local] Open Scope Z_scope.

(** What a client does at the moment; [Gone]: destroyed, or an operation has
    thrown; [Broke]: undefined behaviour or a failed assertion. *)
Inductive activity (T : Type) : Type :=
| Idle
| Pushing (topic : cpp_string) (value : option T)
| Popping (topic : cpp_string)
| Closing (topic : cpp_string)
| Checking (topic : cpp_string)
| Gone
| Broke.
Arguments Idle {T}.
Arguments Pushing {T} _ _.
Arguments Popping {T} _.
Arguments Closing {T} _.
Arguments Checking {T} _.
Arguments Gone {T}.
Arguments Broke {T}.

(** A client with its history: the values it has sent, those whose [Push] has
    returned, and those its [Pop]s have returned. *)
Record client (T : Type) := Client {
  act : activity T;
  pushed : list (cpp_string * option T);
  acked : list (cpp_string * option T);
  popped : list (cpp_string * option T);
}.
Arguments Client {T} _ _ _ _.
Arguments act {T} _.
Arguments pushed {T} _.
Arguments acked {T} _.
Arguments popped {T} _.

Record system (T : Type) := System { server : Switcher; clients : gmap sid (client T) }.
Arguments System {T} _ _.
Arguments server {T} _.
Arguments clients {T} _.

(** The client's side of a connection: a closed connection is read to its end
    and cannot be written. *)
Definition mirror (s : socket) : socket :=
  Socket (tx s) (if is_open s then ec_none else ec_eof)
         (rx s) (if is_open s then ec_none else ec_other "broken pipe") true.
Definition unmirror (c s : socket) : socket := Socket (tx c) (rx_end s) (rx c) (tx_end s) (is_open s).

Definition on_client {A} (i : sid) (m : IO A) (st : Switcher) : option (Switcher * outcome A) :=
  s ← sockets st !! i;
  '(c, r) ← m (mirror s);
  Some (set_socket i (unmirror c s) st, r).

Section system.
Context (asio : Asio) (Ps Pc : Platform) {T : Type} (ST : Serializable T).
Context (garbage : int_t) (get_remote_ipport : sid → cpp_string).
Implicit Types (t : cpp_string) (v : option T) (c : client T) (sys : system T) (i j : sid) (st : Switcher).

Inductive op := OpPush t v | OpPop t | OpClose t | OpCheck t.

Definition activity_of (o : op) : activity T :=
  match o with OpPush t v => Pushing t v | OpPop t => Popping t | OpClose t => Closing t | OpCheck t => Checking t end.

Definition request_of (o : op) : IO unit :=
  match o with
  | OpPush t v => @Push_request asio Pc T ST garbage t v
  | OpPop t => @Pop_request asio Pc garbage t
  | OpClose t => @CloseTopic_request asio Pc garbage t
  | OpCheck t => @CheckTopicExist_request asio Pc garbage t
  end.

Definition set_act (a : activity T) c : client T := Client a (pushed c) (acked c) (popped c).
Definition set_client i c (st : Switcher) sys : system T := System st (<[i := c]> (clients sys)).

(** The client after the outcome of a part of its operation. *)
Definition settle {A} (r : outcome A) (f : A → client T) c : client T :=
  match r with Ok a => f a | Throw _ => set_act Gone c | Crash _ => set_act Broke c end.

(** An idle client sends a request. *)
Definition start i (o : op) sys : option (system T) :=
  c ← clients sys !! i;
  match act c with
  | Idle =>
      '(st, r) ← on_client i (request_of o) (server sys);
      let sent _ := Client (activity_of o)
                      (match o with OpPush t v => pushed c ++ [(t, v)] | _ => pushed c end) (acked c) (popped c) in
      Some (set_client i (settle r sent c) st sys)
  | _ => None
  end.

(** A client whose answer has arrived reads it. *)
Definition finish i sys : option (system T) :=
  c ← clients sys !! i;
  match act c with
  | Pushing t v =>
      '(st, r) ← on_client i (@Push_reply asio Pc) (server sys);
      Some (set_client i (settle r (λ _, Client Idle (pushed c) (acked c ++ [(t, v)]) (popped c)) c) st sys)
  | Popping t =>
      '(st, r) ← on_client i (@Pop_reply asio Pc T ST) (server sys);
      Some (set_client i (settle r (λ v, Client Idle (pushed c) (acked c) (popped c ++ [(t, v)])) c) st sys)
  | Closing t =>
      '(st, r) ← on_client i (@CloseTopic_reply asio Pc) (server sys);
      Some (set_client i (settle r (λ _, set_act Idle c) c) st sys)
  | Checking t =>
      '(st, r) ← on_client i (@CheckTopicExist_reply asio Pc) (server sys);
      Some (set_client i (settle r (λ _, set_act Idle c) c) st sys)
  | _ => None
  end.

(** The destructor of an idle client: the server reads the end of file. *)
Definition leave i sys : option (system T) :=
  c ← clients sys !! i;
  s ← sockets (server sys) !! i;
  match act c with
  | Idle => Some (set_client i (set_act Gone c)
                    (set_socket i (Socket (rx s) ec_eof (tx s) (tx_end s) (is_open s)) (server sys)) sys)
  | _ => None
  end.

(** A new client connects. *)
Definition fresh_connection : socket := Socket [] ec_none [] ec_none true.
Definition join i sys : system T :=
  System (start_accept i fresh_connection (server sys)) (<[i := Client Idle [] [] []]> (clients sys)).

(** Requests whose packages fit into their length fields. *)
Context (wire_ok_T : T → Prop) (encoding_T : T → cpp_string).

Definition topic_fits t : Prop :=
  size t + 12 < 2 ^ 32 ∧ ∀ i, size (get_remote_ipport i) < 2 ^ 32 ∧ size t + size (get_remote_ipport i) + 16 < 2 ^ 32.
Definition value_fits v : Prop :=
  match v with Some x => wire_ok_T x ∧ size (encoding_T x) + 9 < 2 ^ 32 | None => True end.
Definition op_fits (o : op) : Prop :=
  match o with OpPush t v => topic_fits t ∧ value_fits v | OpPop t | OpClose t | OpCheck t => topic_fits t end.

Inductive reachable : system T → Prop :=
| reachable_init : reachable (System Switcher_init ∅)
| reachable_join i sys : reachable sys → clients sys !! i = None → reachable (join i sys)
| reachable_start i o sys sys' : reachable sys → op_fits o → start i o sys = Some sys' → reachable sys'
| reachable_finish i sys sys' : reachable sys → finish i sys = Some sys' → reachable sys'
| reachable_leave i sys sys' : reachable sys → leave i sys = Some sys' → reachable sys'
| reachable_server k sys st :
    reachable sys → @server_step asio Ps get_remote_ipport k (server sys) = Some (st, Ok tt) →
    reachable (System st (clients sys)).

End system.

(** ** The invariant *)

Section protocol.
Context (asio : Asio) (Ps Pc : Platform) (laxs : @strict_index Ps = false) (laxc : @strict_index Pc = false).
Context {T : Type} (ST : Serializable T) (LT : SerializableLaws T (H := ST)).
Context (garbage : int_t) (Hgarbage : int_ok garbage) (get_remote_ipport : sid → cpp_string).
Implicit Types (t : cpp_string) (v : option T) (c : client T) (sys : system T) (i j : sid) (st : Switcher) (s : socket)
  (R : gmap sid role) (log : list (sid * sid * (cpp_string * option T))).

#[local] Abbreviation topic_ok := (topic_fits get_remote_ipport).
#[local] Abbreviation value_ok := (value_fits (@wire_ok T ST LT) (@encoding T ST LT)).
#[local] Abbreviation reach :=
  (reachable asio Ps Pc ST garbage get_remote_ipport (@wire_ok T ST LT) (@encoding T ST LT)).

(** *** Frames *)

Definition data_pkg v : data_package :=
  match v with Some x => DataPackage (@encoding T ST LT x) [] false | None => DataPackage [] [] true end.

Definition fr_request t ty : cpp_string := string_encoding (request_encoding (request garbage t ty)).
Definition fr_data v : cpp_string := string_encoding (data_encoding (data_pkg v)).
Definition fr_response (rp : response_package) : cpp_string := string_encoding (response_encoding rp).

Definition response_fits (rp : response_package) : Prop :=
  ∃ t a code, topic_ok t ∧ rp = ResponsePackage t (I32 0) a (I32 code) ∧ sint_range 32 code ∧
    (a = [] ∨ ∃ i, a = get_remote_ipport i).

Lemma size_string_encoding (b : cpp_string) : size (string_encoding b) = size b + 4.
Proof. unfold string_encoding. rewrite size_app, size_store. lia. Qed.
Lemma size_int_encoding (n : int_t) : size (int_encoding n) = 4.
Proof. destruct n. apply size_store. Qed.

Lemma request_sendable (P : Platform) (lax : @strict_index P = false) t ty :
  topic_ok t → sint_range 32 ty → @sendable _ _ (request_laws lax) (request garbage t ty).
Proof using Hgarbage.
  intros [Ht _] Hty. split; simpl.
  - split; [lia|]. split; [done|]. apply Hgarbage.
  - change (size (request_encoding (request garbage t ty)) < 2 ^ 32). unfold request_encoding, request.
    cbn [rq_topic rq_type rq_timeout_ms int_encoding]. rewrite !size_app, size_string_encoding, !size_store, size_int_encoding. lia.
Qed.

Lemma data_sendable (P : Platform) (lax : @strict_index P = false) v :
  value_ok v → @sendable _ _ (data_laws lax) (data_pkg v).
Proof using.
  intros Hv. pose proof (size_nonneg (dp_data (data_pkg v))) as Hpos.
  assert (size (dp_data (data_pkg v)) + 9 < 2 ^ 32 ∧ dp_meta_info (data_pkg v) = []) as [Hd Hm].
  { destruct v as [x|]; simpl in *; [by destruct Hv|done]. }
  split; simpl.
  - rewrite Hm. split; [lia|done].
  - change (size (data_encoding (data_pkg v)) < 2 ^ 32). unfold data_encoding.
    rewrite !size_app, !size_string_encoding, Hm. change (size []) with 0. change (size [_]) with 1. lia.
Qed.

Lemma response_sendable (P : Platform) (lax : @strict_index P = false) rp :
  response_fits rp → @sendable _ _ (response_laws lax) rp.
Proof using.
  intros (t & a & code & [Ht1 Ht2] & -> & Hc & Ha).
  assert (size a < 2 ^ 32 ∧ size t + size a + 16 < 2 ^ 32) as [Ha1 Ha2].
  { destruct Ha as [->|[i ->]]; [|apply Ht2]. destruct (Ht2 0%nat) as [? ?].
    pose proof (size_nonneg (get_remote_ipport 0%nat)). change (size []) with 0. lia. }
  pose proof (size_nonneg a). split; simpl.
  - split; [lia|]. split; [done|]. split; [lia|done].
  - change (size (response_encoding (ResponsePackage t (I32 0) a (I32 code))) < 2 ^ 32). unfold response_encoding.
    cbn [rs_topic rs_wait_ms rs_peer_addr rs_response_code int_encoding]. rewrite !size_app, !size_string_encoding, !size_store. lia.
Qed.

(** *** The phases of a connection

    [phase act role rx tx a u p]: a client doing [act] on a socket with [role]
    and the bytes [rx] and [tx] in flight; [a] is the push that was answered
    and not yet acknowledged to the client, [u] the one that is unanswered, [p]
    the pop whose answer is under way. *)
Inductive phase : activity T → role → cpp_string → cpp_string →
    list (cpp_string * option T) → list (cpp_string * option T) → list (cpp_string * option T) → Prop :=
| ph_idle : phase Idle RHandle [] [] [] [] []
| ph_push_sent t v : topic_ok t → value_ok v →
    phase (Pushing t v) RHandle (fr_request t request_type_push ++ fr_data v) [] [] [(t, v)] []
| ph_push_waits t v : topic_ok t → value_ok v → phase (Pushing t v) (RPush t) (fr_data v) [] [] [(t, v)] []
| ph_push_paired t v j : topic_ok t → value_ok v →
    phase (Pushing t v) (RTransferPush j t) (fr_data v) [] [] [(t, v)] []
| ph_push_answered t v rp : response_fits rp → phase (Pushing t v) RHandle [] (fr_response rp) [(t, v)] [] []
| ph_pop_sent t : topic_ok t → phase (Popping t) RHandle (fr_request t request_type_pop) [] [] [] []
| ph_pop_waits t : topic_ok t → phase (Popping t) (RPop t) [] [] [] [] []
| ph_pop_paired t j : topic_ok t → phase (Popping t) (RTransferPop j t) [] [] [] [] []
| ph_pop_answered t v rp : value_ok v → response_fits rp →
    phase (Popping t) RHandle [] (fr_data v ++ fr_response rp) [] [] [(t, v)]
| ph_close_sent t : topic_ok t → phase (Closing t) RHandle (fr_request t request_type_close_topic) [] [] [] []
| ph_close_answered t rp : response_fits rp → phase (Closing t) RHandle [] (fr_response rp) [] [] []
| ph_check_sent t : topic_ok t → phase (Checking t) RHandle (fr_request t request_type_check_topic_exist) [] [] [] []
| ph_check_answered t rp : response_fits rp → phase (Checking t) RHandle [] (fr_response rp) [] [] [].

(** The history of a client against the pushes [P] and pops [Q] that the server
    has matched for it. *)
Definition hist_ok (P Q : list (cpp_string * option T)) c : Prop :=
  acked c `prefix_of` P ∧ P `prefix_of` pushed c ∧ popped c `prefix_of` Q.

Inductive conn_ok (ro : option role) (P Q : list (cpp_string * option T)) c s : Prop :=
| conn_live r a u p :
    ro = Some r → is_open s = true → rx_end s = ec_none → tx_end s = ec_none →
    phase (act c) r (rx s) (tx s) a u p →
    P = acked c ++ a → pushed c = P ++ u → Q = popped c ++ p → conn_ok ro P Q c s
| conn_leaving :
    ro = Some RHandle → is_open s = true → rx s = [] → rx_end s = ec_eof → tx s = [] → act c = Gone →
    hist_ok P Q c → conn_ok ro P Q c s
| conn_closed :
    ro = None → is_open s = false → tx s = [] → act c ≠ Broke → hist_ok P Q c → conn_ok ro P Q c s.

(** The matches of a client, as the pushing and as the popping side. *)
Definition pushes i log : list (cpp_string * option T) := omap (λ m, if decide (m.1.1 = i) then Some m.2 else None) log.
Definition pops i log : list (cpp_string * option T) := omap (λ m, if decide (m.1.2 = i) then Some m.2 else None) log.

Record sys_inv R log sys : Prop := {
  y_server : srv_inv R (server sys);
  y_dom i : is_Some (clients sys !! i) ↔ is_Some (sockets (server sys) !! i);
  y_conn i c s : clients sys !! i = Some c → sockets (server sys) !! i = Some s →
    conn_ok (R !! i) (pushes i log) (pops i log) c s;
  y_log m : m ∈ log → is_Some (clients sys !! m.1.1) ∧ is_Some (clients sys !! m.1.2);
}.

Lemma phase_idle r x y a u p :
  phase Idle r x y a u p → r = RHandle ∧ x = [] ∧ y = [] ∧ a = [] ∧ u = [] ∧ p = [].
Proof using. intros Hph. by inversion Hph. Qed.

Lemma conn_hist ro P Q c s : conn_ok ro P Q c s → hist_ok P Q c ∧ act c ≠ Broke.
Proof using.
  intros [r a u p Hr Ho _ _ Hph HP Hpu HQ|_ _ _ _ _ Hg Hh|_ _ _ Hb Hh]; [|split; congruence || done..]. subst. split.
  - split; [by apply prefix_app_r|]. split; [rewrite Hpu; by apply prefix_app_r|by apply prefix_app_r].
  - inversion Hph; congruence.
Qed.

(** The connections after a step: unchanged ones, and those it touched. *)
Lemma sys_inv_update R R' log log' sys st' cl' :
  sys_inv R log sys → srv_inv R' st' →
  (∀ i, is_Some (cl' !! i) ↔ is_Some (sockets st' !! i)) →
  (∀ i, (R' !! i = R !! i ∧ cl' !! i = clients sys !! i ∧ sockets st' !! i = sockets (server sys) !! i ∧
         pushes i log' = pushes i log ∧ pops i log' = pops i log) ∨
        (∀ c s, cl' !! i = Some c → sockets st' !! i = Some s → conn_ok (R' !! i) (pushes i log') (pops i log') c s)) →
  (∀ m, m ∈ log' → is_Some (cl' !! m.1.1) ∧ is_Some (cl' !! m.1.2)) →
  sys_inv R' log' (System st' cl').
Proof using.
  intros [Hs Hd Hc Hl] Hs' Hd' Hall Hl'. split; [done|done| |done]. simpl. intros i c s Hi Hsi.
  destruct (Hall i) as [(HR & Hcl & Hsk & HP & HQ)|Hin]; [|by apply Hin].
  rewrite HR, HP, HQ. apply Hc; congruence.
Qed.

(** *** What the parts of the operations do *)

Lemma mirror_open s : is_open s = true → mirror s = Socket (tx s) ec_none (rx s) ec_none true.
Proof. intros Ho. unfold mirror. by rewrite Ho. Qed.

Lemma write_request t ty s :
  topic_ok t → sint_range 32 ty → tx_end s = ec_none →
  @client_write_package asio Pc _ _ (request garbage t ty) s = Some (set_tx (tx s ++ fr_request t ty) s, Ok tt).
Proof using Hgarbage laxc.
  intros. exact (@client_write_package_spec asio Pc _ _ (request_laws laxc) (request garbage t ty) s
                   (request_sendable Pc laxc t ty ltac:(done) ltac:(done)) ltac:(done)).
Qed.

Lemma data_of_spec v : value_ok v → data_of v = Ok (data_pkg v).
Proof using. destruct v as [x|]; [|done]. intros [Hx _]. simpl. by rewrite (@Serialize_spec T ST LT x []). Qed.

Lemma write_data v s :
  value_ok v → tx_end s = ec_none →
  @client_write_package asio Pc _ _ (data_pkg v) s = Some (set_tx (tx s ++ fr_data v) s, Ok tt).
Proof using laxc.
  intros Hv Hs. exact (@client_write_package_spec asio Pc _ _ (data_laws laxc) (data_pkg v) s
                         (data_sendable Pc laxc v Hv) Hs).
Qed.

(** The bytes of a request. *)
Definition request_bytes (o : op (T := T)) : cpp_string :=
  match o with
  | OpPush t v => fr_request t request_type_push ++ fr_data v
  | OpPop t => fr_request t request_type_pop
  | OpClose t => fr_request t request_type_close_topic
  | OpCheck t => fr_request t request_type_check_topic_exist
  end.

Lemma request_spec (o : op) s :
  op_fits get_remote_ipport (@wire_ok T ST LT) (@encoding T ST LT) o → tx_end s = ec_none →
  request_of asio Pc ST garbage o s = Some (set_tx (tx s ++ request_bytes o) s, Ok tt).
Proof using Hgarbage laxc.
  assert (sint_range 32 request_type_push ∧ sint_range 32 request_type_pop ∧
          sint_range 32 request_type_close_topic ∧ sint_range 32 request_type_check_topic_exist) as (H0 & H1 & H2 & H3).
  { repeat split; done. }
  intros Ho Hs. destruct o as [t v|t|t|t]; simpl in *;
    unfold Pop_request, CloseTopic_request, CheckTopicExist_request; [destruct Ho as [Ht Hv]|by rewrite write_request..].
  unfold Push_request, mbind, IO_bind, lift. rewrite write_request by done. rewrite data_of_spec by done.
  rewrite write_data by done. unfold set_tx. simpl. by rewrite <- app_assoc.
Qed.

Lemma client_write_fails {A} `{L : SerializableLaws A} (x : A) s m :
  sendable x → tx_end s = ec_other m → @client_write_package asio Pc _ _ x s = Some (s, Throw m).
Proof using.
  intros [Hx Hsz] Hs. pose proof (size_nonneg (encoding x)). unfold client_write_package, mbind, IO_bind, lift.
  rewrite Serialize_spec by done. rewrite app_nil_l, bool_decide_true by lia. cbn [cpp_assert].
  rewrite length_buf_spec by done. unfold SocketWriteAwaiter. rewrite async_write_eq. unfold stream_write. by rewrite Hs.
Qed.

Lemma request_fails (o : op) s m :
  op_fits get_remote_ipport (@wire_ok T ST LT) (@encoding T ST LT) o → tx_end s = ec_other m →
  request_of asio Pc ST garbage o s = Some (s, Throw m).
Proof using Hgarbage laxc.
  intros Ho Hs.
  assert (∀ t ty, topic_ok t → sint_range 32 ty →
    @client_write_package asio Pc _ _ (request garbage t ty) s = Some (s, Throw m)) as Hw.
  { intros t ty Ht Hty. apply (client_write_fails (L := request_laws laxc)); [|done]. by apply request_sendable. }
  destruct o as [t v|t|t|t]; simpl in *; unfold Push_request, Pop_request, CloseTopic_request, CheckTopicExist_request;
    [destruct Ho as [Ht Hv]; unfold mbind, IO_bind; by rewrite Hw|by rewrite Hw..].
Qed.

Lemma read_response rp rest s :
  response_fits rp → rx s = fr_response rp ++ rest →
  @client_read_package asio Pc _ (@response_serializable Pc) s = Some (set_rx rest s, Ok rp).
Proof using laxc.
  intros Hr Hs. exact (@read_frame_spec asio Pc _ _ (response_laws laxc) rp rest s
                         (response_sendable Pc laxc rp Hr) Hs).
Qed.
Lemma read_data v rest s :
  value_ok v → rx s = fr_data v ++ rest →
  @client_read_package asio Pc _ (@data_serializable Pc) s = Some (set_rx rest s, Ok (data_pkg v)).
Proof using laxc.
  intros Hr Hs. exact (@read_frame_spec asio Pc _ _ (data_laws laxc) (data_pkg v) rest s
                         (data_sendable Pc laxc v Hr) Hs).
Qed.

Lemma Pop_reply_spec v rp s :
  value_ok v → response_fits rp → rx s = fr_data v ++ fr_response rp →
  @Pop_reply asio Pc T ST s = Some (set_rx [] s, Ok v).
Proof using laxc.
  intros Hv Hr Hs. unfold Pop_reply, mbind, IO_bind. rewrite (read_data v (fr_response rp)) by done.
  rewrite (read_response rp []) by (done || by rewrite app_nil_r). destruct v as [x|]; simpl; [|done].
  unfold lift. destruct Hv as [Hx _]. by rewrite (@Deserialize_whole T ST LT x).
Qed.

(** The reply parts wait on an open connection without bytes, and throw on a
    closed one. *)
Definition waits_and_throws {A} (m : IO A) : Prop :=
  ∀ s, rx s = [] → (rx_end s = ec_none → m s = None) ∧ (rx_end s = ec_eof → m s = Some (set_rx [] s, Throw (eof_message asio))).

Lemma read_waits_and_throws {A B} `{Serializable A} (f : A → IO B) :
  waits_and_throws (@client_read_package asio Pc A _ ≫= f).
Proof using.
  intros s Hs. unfold client_read_package, mbind, IO_bind, SocketReadAwaiter.
  rewrite async_read_eq. unfold stream_read. rewrite Hs.
  split; intros He; rewrite He; [done|]. simpl. unfold set_rx. by rewrite He.
Qed.

(** *** The server's side *)

Lemma write_response rp s :
  response_fits rp → tx_end s = ec_none →
  @write_package asio Ps _ (@response_serializable Ps) rp s = Some (set_tx (tx s ++ fr_response rp) s, Ok tt).
Proof using laxs.
  intros Hr Hs. exact (@write_package_spec asio Ps _ _ (response_laws laxs) rp s
                         (response_sendable Ps laxs rp Hr) Hs).
Qed.
Lemma serve_data v s :
  value_ok v → tx_end s = ec_none →
  @write_package asio Ps _ (@data_serializable Ps) (data_pkg v) s = Some (set_tx (tx s ++ fr_data v) s, Ok tt).
Proof using laxs.
  intros Hv Hs. exact (@write_package_spec asio Ps _ _ (data_laws laxs) (data_pkg v) s
                         (data_sendable Ps laxs v Hv) Hs).
Qed.
Lemma take_data v rest s :
  value_ok v → rx s = fr_data v ++ rest →
  @read_package asio Ps _ (@data_serializable Ps) s = Some (set_rx rest s, Ok (data_pkg v)).
Proof using laxs.
  intros Hv Hs. exact (@read_package_spec asio Ps _ _ (data_laws laxs) (data_pkg v) rest s
                         (data_sendable Ps laxs v Hv) Hs).
Qed.
Lemma take_request t ty rest s :
  topic_ok t → sint_range 32 ty → rx s = fr_request t ty ++ rest →
  @read_package_eof asio Ps _ (@request_serializable Ps) s = Some (set_rx rest s, Ok (Some (request garbage t ty))).
Proof using laxs Hgarbage.
  intros Ht Hty Hs. exact (@read_package_eof_spec asio Ps _ _ (request_laws laxs) (request garbage t ty) rest s
                         (request_sendable Ps laxs t ty Ht Hty) Hs).
Qed.

(** ** Steps of the clients *)

(** A step of client [i]. *)
Lemma inv_client R log sys i c s s' c' :
  sys_inv R log sys → clients sys !! i = Some c → sockets (server sys) !! i = Some s → is_open s' = is_open s →
  conn_ok (R !! i) (pushes i log) (pops i log) c' s' →
  sys_inv R log (set_client i c' (set_socket i s' (server sys)) sys).
Proof using.
  intros Hinv Hc Hs Hop Hok. apply (sys_inv_update R R log log sys); [done|..].
  - eapply srv_inv_set_socket; [apply Hinv|done..].
  - intros j. simpl. rewrite !lookup_insert_is_Some', (y_dom _ _ _ Hinv). done.
  - intros j. simpl. destruct (decide (j = i)) as [->|Hne].
    + right. rewrite !lookup_insert_eq. by intros ? ? [= <-] [= <-].
    + left. by rewrite !lookup_insert_ne.
  - intros m Hm. rewrite !lookup_insert_is_Some'. destruct (y_log _ _ _ Hinv m Hm). auto.
Qed.

Lemma inv_start R log sys i o sys' :
  sys_inv R log sys → op_fits get_remote_ipport (@wire_ok T ST LT) (@encoding T ST LT) o →
  start asio Pc ST garbage i o sys = Some sys' → sys_inv R log sys'.
Proof using Hgarbage laxc.
  intros Hinv Ho. unfold start. destruct (clients sys !! i) as [c|] eqn:Hc; simpl; [|done].
  destruct (act c) eqn:Ha; try done. unfold on_client.
  destruct (sockets (server sys) !! i) as [s|] eqn:Hs; simpl; [|done].
  destruct (y_conn _ _ _ Hinv i c s Hc Hs) as [r a u p Hr Hop Hrx Htx Hph HP Hpu HQ|_ _ _ _ _ Hg _|Hr Hop Htx Hb Hh].
  - rewrite (mirror_open s Hop), request_spec by done. simpl. intros [= <-].
    apply (inv_client R log sys i c s); try done.
    rewrite Ha in Hph. apply phase_idle in Hph as (-> & Hrx0 & Htx0 & -> & -> & ->).
    rewrite app_nil_r in HP, HQ, Hpu. rewrite HP in Hpu |- *. rewrite Hr, HQ. simpl. rewrite Hrx0, Htx0. simpl.
    destruct o as [t v|t|t|t]; simpl in *; econstructor; simpl; try done; try (by rewrite app_nil_r);
      try (constructor; naive_solver); rewrite ?app_nil_r; congruence.
  - congruence.
  - assert (tx_end (mirror s) = ec_other "broken pipe") as Hte by (unfold mirror; simpl; by rewrite Hop).
    rewrite (request_fails o _ _ Ho Hte). simpl. intros [= <-]. apply (inv_client R log sys i c s); try done.
    by apply conn_closed.
Qed.

Lemma inv_leave R log sys i sys' : sys_inv R log sys → leave i sys = Some sys' → sys_inv R log sys'.
Proof using.
  intros Hinv. unfold leave. destruct (clients sys !! i) as [c|] eqn:Hc; simpl; [|done].
  destruct (sockets (server sys) !! i) as [s|] eqn:Hs; simpl; [|done].
  destruct (act c) eqn:Ha; try done. intros [= <-]. apply (inv_client R log sys i c s); try done.
  pose proof (y_conn _ _ _ Hinv i c s Hc Hs) as Hok. destruct (conn_hist _ _ _ _ _ Hok) as [Hh _].
  destruct Hok as [r a u p Hr Hop Hrx Htx Hph HP Hpu HQ|_ _ _ _ _ Hg _|Hr Hop Htx Hb _]; [|congruence|by apply conn_closed].
  rewrite Ha in Hph. inversion Hph; subst. by apply conn_leaving.
Qed.

Lemma inv_join R log sys i :
  sys_inv R log sys → clients sys !! i = None → sys_inv (<[i := RHandle]> R) log (join i sys).
Proof using.
  intros Hinv Hi.
  assert (∀ m, m ∈ log → m.1.1 ≠ i ∧ m.1.2 ≠ i) as Hlog.
  { intros m Hm. destruct (y_log _ _ _ Hinv m Hm) as [[? ?] [? ?]]. split; congruence. } destruct (sockets (server sys) !! i) as [s0|] eqn:Hs0.
  { destruct (proj2 (y_dom _ _ _ Hinv i)); [by rewrite Hs0|congruence]. }
  assert (R !! i = None) as HRi.
  { apply eq_None_not_Some. intros Hr. destruct (sv_open _ _ (y_server _ _ _ Hinv) i Hr) as (s & Hs & _). congruence. }
  apply (sys_inv_update R _ log log sys); [done|..].
  - by apply accept_inv; [apply Hinv|..].
  - intros j. simpl. rewrite !lookup_insert_is_Some', (y_dom _ _ _ Hinv). done.
  - intros j. simpl. destruct (decide (j = i)) as [->|Hne].
    + right. rewrite !lookup_insert_eq. intros ? ? [= <-] [= <-].
      assert (pushes i log = [] ∧ pops i log = []) as [-> ->].
      { clear -Hlog. induction log as [|m log IH]; [done|]. simpl.
        destruct (Hlog m) as [H1 H2]; [by left|]. rewrite !decide_False by done. apply IH. intros m' Hm'. apply Hlog. by right. }
      eapply conn_live; simpl; try done; [constructor|done..].
    + left. by rewrite !lookup_insert_ne.
  - intros m Hm. rewrite !lookup_insert_is_Some'. destruct (y_log _ _ _ Hinv m Hm). auto.
Qed.

(** A client reads its answer: it waits when there is none, and gives up when
    the server has closed the connection. *)
Lemma inv_reply {A} (m : IO A) (f : A → client T) R log sys i c sys' :
  sys_inv R log sys → clients sys !! i = Some c → act c ≠ Gone → waits_and_throws m →
  (∀ r x y a u p, phase (act c) r x y a u p →
     y = [] ∨ (r = RHandle ∧ x = [] ∧ u = [] ∧ ∃ z, (∀ cs, rx cs = y → m cs = Some (set_rx [] cs, Ok z)) ∧
                 f z = Client Idle (pushed c) (acked c ++ a) (popped c ++ p))) →
  ('(st, r) ← on_client i m (server sys); Some (set_client i (settle r f c) st sys)) = Some sys' →
  sys_inv R log sys'.
Proof using.
  intros Hinv Hc Hg Hm Hans. unfold on_client.
  destruct (sockets (server sys) !! i) as [s|] eqn:Hs; simpl; [|done].
  destruct (y_conn _ _ _ Hinv i c s Hc Hs) as [r a u p Hr Hop Hrx Htx Hph HP Hpu HQ|_ _ _ _ _ Hg' _|Hr Hop Htx Hb Hh].
  - rewrite (mirror_open s Hop). destruct (Hans _ _ _ _ _ _ Hph) as [Hy|(-> & Hx & -> & v & Hv & Hf)].
    + by rewrite (proj1 (Hm (Socket (tx s) ec_none (rx s) ec_none true) Hy)).
    + rewrite Hv by done. simpl. intros [= <-]. apply (inv_client R log sys i c s); try done.
      rewrite Hf, Hr, HP, HQ. rewrite app_nil_r, HP in Hpu.
      eapply conn_live; simpl; try done; try (by rewrite app_nil_r). rewrite Hx. constructor.
  - congruence.
  - rewrite (proj2 (Hm (mirror s) Htx)) by (simpl; by rewrite Hop). simpl. intros [= <-].
    apply (inv_client R log sys i c s); try done. by apply conn_closed.
Qed.

Lemma inv_finish R log sys i sys' :
  sys_inv R log sys → finish asio Pc ST i sys = Some sys' → sys_inv R log sys'.
Proof using laxc.
  intros Hinv. unfold finish. destruct (clients sys !! i) as [c|] eqn:Hc; simpl; [|done].
  assert (∀ rp cs, response_fits rp → rx cs = fr_response rp →
    @client_read_package asio Pc _ (@response_serializable Pc) cs = Some (set_rx [] cs, Ok rp)) as Hread.
  { intros rp cs Hrp Hcs. apply read_response; [done|by rewrite app_nil_r]. }
  destruct (act c) as [|t v|t|t|t| |] eqn:Ha; try done;
    apply inv_reply; try done; try congruence; try apply read_waits_and_throws;
    rewrite Ha; intros r x y a u p Hph; inversion Hph; subst; auto; right; repeat split; rewrite ?app_nil_r.
  - exists tt. split; [|done]. intros cs Hcs. unfold Push_reply, mbind, IO_bind. by erewrite Hread.
  - eexists. split; [|done]. intros cs Hcs. by eapply Pop_reply_spec.
  - exists (let '(I32 code) := rs_response_code rp in code). split; [|by destruct c].
    intros cs Hcs. unfold CloseTopic_reply, mbind, IO_bind. erewrite Hread by done.
    by destruct (rs_response_code rp).
  - exists (let '(I32 code) := rs_response_code rp in bool_decide (code = response_ok)). split; [|by destruct c].
    intros cs Hcs. unfold CheckTopicExist_reply, mbind, IO_bind. erewrite Hread by done.
    by destruct (rs_response_code rp).
Qed.

(** ** Steps of the server *)

Lemma with_socket_run {A} i (m : IO A) st s s' r :
  sockets st !! i = Some s → m s = Some (s', r) → with_socket i m st = Some (set_socket i s' st, r).
Proof using. intros Hs Hm. unfold with_socket. rewrite Hs. simpl. by rewrite Hm. Qed.

(** The server without the coroutine it runs. *)
Definition running (k : nat) (st : Switcher) : Switcher := MkSwitcher (datas_ st) (sockets st) (delete k (tasks st)).

Lemma running_handle R st k i :
  srv_inv R st → tasks st !! k = Some (Handle i) →
  R !! i = Some RHandle ∧ srv_inv (delete i R) (running k st).
Proof using.
  intros [Hp Ho] Hk. destruct (placed_end_handle _ _ _ _ _ Hp Hk) as [Hi Hp']. split; [done|]. split; [done|].
  intros j [r [Hne Hr]%role_delete]. apply Ho. by exists r.
Qed.

Lemma running_transfer R st k i j t :
  srv_inv R st → tasks st !! k = Some (Transfer i j t) →
  R !! i = Some (RTransferPush j t) ∧ R !! j = Some (RTransferPop i t) ∧ i ≠ j ∧
  srv_inv (delete i (delete j R)) (running k st).
Proof using.
  intros [Hp Ho] Hk. destruct (placed_end_transfer _ _ _ _ _ _ _ Hp Hk) as (Hi & Hj & Hne & Hp').
  split; [done|]. split; [done|]. split; [done|]. split; [done|].
  intros i' [r Hr]. rewrite !role_delete in Hr. apply Ho. exists r. apply Hr.
Qed.

(** The connection of a socket that has a role. *)
Lemma role_conn R log sys i r :
  sys_inv R log sys → R !! i = Some r →
  ∃ c s, clients sys !! i = Some c ∧ sockets (server sys) !! i = Some s ∧ is_open s = true ∧
    conn_ok (Some r) (pushes i log) (pops i log) c s.
Proof using.
  intros Hinv Hr. destruct (sv_open _ _ (y_server _ _ _ Hinv) i) as (s & Hs & Ho); [by rewrite Hr|].
  destruct (proj2 (y_dom _ _ _ Hinv i)) as [c Hc]; [by rewrite Hs|]. exists c, s.
  split; [done|]. split; [done|]. split; [done|]. rewrite <- Hr. by apply (y_conn _ _ _ Hinv).
Qed.

(** A step of the server in which only sockets with a role change. *)
Lemma inv_server_update R R' log log' sys st' :
  sys_inv R log sys → srv_inv R' st' →
  (∀ i, is_Some (sockets st' !! i) ↔ is_Some (sockets (server sys) !! i)) →
  (∀ i c s', clients sys !! i = Some c → sockets st' !! i = Some s' →
     (R' !! i = R !! i ∧ sockets (server sys) !! i = Some s' ∧
        pushes i log' = pushes i log ∧ pops i log' = pops i log) ∨
     conn_ok (R' !! i) (pushes i log') (pops i log') c s') →
  (∀ m, m ∈ log' → is_Some (clients sys !! m.1.1) ∧ is_Some (clients sys !! m.1.2)) →
  sys_inv R' log' (System st' (clients sys)).
Proof using.
  intros Hinv Hs' Hdom Hall Hlog. split; simpl; [done| |..|done].
  - intros i. rewrite Hdom. apply (y_dom _ _ _ Hinv).
  - intros i c s' Hc Hsi. destruct (Hall i c s' Hc Hsi) as [(-> & Hs & -> & ->)|Hok]; [|done].
    by apply (y_conn _ _ _ Hinv).
Qed.

Lemma handle_take i t ty rest st s :
  sockets st !! i = Some s → topic_ok t → sint_range 32 ty → rx s = fr_request t ty ++ rest →
  @handle asio Ps i st =
  caught [i] <$> @handle_request asio Ps i (request garbage t ty) (set_socket i (set_rx rest s) st).
Proof using laxs Hgarbage.
  intros Hs Ht Hty Hrx. unfold handle.
  by rewrite (with_socket_run i _ st s _ _ Hs (take_request t ty rest s Ht Hty Hrx)).
Qed.

(** [handle] waits for the next request, or ends with the connection. *)
Lemma handle_nothing i st s :
  sockets st !! i = Some s → rx s = [] →
  (rx_end s = ec_none → @handle asio Ps i st = None) ∧
  (rx_end s = ec_eof → @handle asio Ps i st = Some (destroy i (set_socket i s st), Ok tt)).
Proof using.
  intros Hs Hrx. split; intros He.
  - unfold handle, with_socket. rewrite Hs. simpl. unfold read_package_eof, mbind, IO_bind, asio_read_ec.
    rewrite async_read_eq. unfold stream_read. by rewrite Hrx, He.
  - unfold handle. erewrite (with_socket_run i _ st s); [|done|].
    2: { unfold read_package_eof, mbind, IO_bind, asio_read_ec. rewrite async_read_eq. unfold stream_read. by rewrite Hrx, He. }
    destruct s; simpl in *. by subst.
Qed.

Lemma insert_is_Some_same {A} (m : gmap sid A) i x j : is_Some (m !! i) → is_Some (<[i := x]> m !! j) ↔ is_Some (m !! j).
Proof using. intros Hi. rewrite lookup_insert_is_Some'. split; [by intros [<-|?]|by right]. Qed.

(** A socket that waits for a partner, and one that has one. *)
Definition pairing (r r' : role) : Prop :=
  match r, r' with
  | RPush t, RTransferPush _ t' => t' = t
  | RPop t, RTransferPop _ t' => t' = t
  | _, _ => False
  end.
Lemma phase_pairing ac r r' x y a u p : pairing r r' → phase ac r x y a u p → phase ac r' x y a u p.
Proof using. intros Hr Hph. destruct Hph, r'; try done; simpl in Hr; subst; by constructor. Qed.
Lemma conn_pairing r r' P Q c s : pairing r r' → conn_ok (Some r) P Q c s → conn_ok (Some r') P Q c s.
Proof using.
  intros Hrr [r0 a u p [= <-] Ho Hrx Htx Hph HP Hpu HQ|[= ->]|]; [|by destruct r'|done].
  eapply conn_live; try done. by eapply phase_pairing.
Qed.
(** Closing the topic closes a waiting socket. *)
Lemma conn_waits_closed r t P Q c s :
  conn_ok (Some r) P Q c s → r = RPush t ∨ r = RPop t → conn_ok None P Q c (close s).
Proof using.
  intros Hok Hr. destruct (conn_hist _ _ _ _ _ Hok) as [Hh Hb].
  destruct Hok as [r' a u p [= <-] Ho Hrx Htx Hph HP Hpu HQ|[= ->]|]; [|by destruct Hr|done].
  apply conn_closed; try done. simpl. destruct Hr as [-> | ->]; by inversion Hph.
Qed.

(** The server answers the request of socket [i]. *)
Lemma reply_run R st i s rp :
  srv_inv R st → R !! i = None → sockets st !! i = Some s → is_open s = true → tx_end s = ec_none → response_fits rp →
  let st' := co_spawn (Handle i) (set_socket i (set_tx (tx s ++ fr_response rp) s) st) in
  @reply_and_handle asio Ps i rp st = Some (st', Ok tt) ∧ srv_inv (<[i := RHandle]> R) st'.
Proof using laxs.
  intros Hinv Hi Hs Ho Htx Hrp st'. split.
  - unfold reply_and_handle. by rewrite (with_socket_run i _ st s _ _ Hs (write_response rp s Hrp Htx)).
  - apply spawn_handle_inv; [|done|].
    + by eapply srv_inv_set_socket.
    + eexists. simpl. by rewrite lookup_insert_eq.
Qed.

(** The roles after a request: that of the socket, and that of its partner. *)
Lemma push_roles_spec R st i t :
  srv_inv R st → R !! i = None →
  (∃ r, push_roles i t st R !! i = Some r ∧ (r = RPush t ∨ pairing (RPush t) r)) ∧
  ∀ j, j ≠ i → push_roles i t st R !! j = R !! j ∨
    ∃ r r', R !! j = Some r ∧ push_roles i t st R !! j = Some r' ∧ pairing r r'.
Proof using.
  intros [Hp _] Hi. unfold push_roles. destruct (last (poping_nodes (waiting (datas_ st) t))) as [j|] eqn:Hl.
  - destruct (placed_take_pop _ _ _ _ _ Hp Hl) as [Hj _]. split.
    + rewrite lookup_insert_eq. eexists. split; [done|]. by right.
    + intros j' Hne. rewrite lookup_insert_ne by done. destruct (decide (j' = j)) as [->|Hne'].
      * right. rewrite lookup_insert_eq. by do 2 eexists.
      * left. by rewrite lookup_insert_ne.
  - split; [|intros j Hne; left; by rewrite lookup_insert_ne]. rewrite lookup_insert_eq. eexists. split; [done|]. by left.
Qed.
Lemma pop_roles_spec R st i t :
  srv_inv R st → R !! i = None →
  (∃ r, pop_roles i t st R !! i = Some r ∧ (r = RPop t ∨ pairing (RPop t) r)) ∧
  ∀ j, j ≠ i → pop_roles i t st R !! j = R !! j ∨
    ∃ r r', R !! j = Some r ∧ pop_roles i t st R !! j = Some r' ∧ pairing r r'.
Proof using.
  intros [Hp _] Hi. unfold pop_roles. destruct (last (pushing_nodes (waiting (datas_ st) t))) as [j|] eqn:Hl.
  - destruct (placed_take_push _ _ _ _ _ Hp Hl) as [Hj _]. split.
    + rewrite lookup_insert_eq. eexists. split; [done|]. by right.
    + intros j' Hne. rewrite lookup_insert_ne by done. destruct (decide (j' = j)) as [->|Hne'].
      * right. rewrite lookup_insert_eq. by do 2 eexists.
      * left. by rewrite lookup_insert_ne.
  - split; [|intros j Hne; left; by rewrite lookup_insert_ne]. rewrite lookup_insert_eq. eexists. split; [done|]. by left.
Qed.

(** A push or pop request leaves socket [i] waiting in role [w] or paired. *)
Lemma inv_wait R R' log sys i c s s' st' w :
  sys_inv R log sys → clients sys !! i = Some c → sockets (server sys) !! i = Some s →
  srv_inv R' st' → sockets st' = <[i := s']> (sockets (server sys)) →
  (∃ r, R' !! i = Some r ∧ (r = w ∨ pairing w r)) →
  (∀ j, j ≠ i → R' !! j = delete i R !! j ∨ ∃ r r', delete i R !! j = Some r ∧ R' !! j = Some r' ∧ pairing r r') →
  conn_ok (Some w) (pushes i log) (pops i log) c s' →
  sys_inv R' log (System st' (clients sys)).
Proof using.
  intros Hinv Hc Hs Hsv Hsk (r & Hr & Hw) Hoth Hok. apply (inv_server_update R _ log); [done|done|..].
  - intros j. rewrite Hsk. by apply insert_is_Some_same; rewrite Hs.
  - intros j cj sj Hcj. rewrite Hsk. destruct (decide (j = i)) as [->|Hne].
    + rewrite lookup_insert_eq. intros [= <-]. right. rewrite Hr. simplify_eq. destruct Hw as [->|Hw]; [done|].
      by eapply conn_pairing.
    + rewrite lookup_insert_ne by done. intros Hsj. destruct (Hoth j Hne) as [HR|(r1 & r2 & H1 & H2 & Hpr)].
      * left. rewrite HR. by rewrite lookup_delete_ne.
      * right. rewrite H2. rewrite lookup_delete_ne in H1 by done. eapply conn_pairing; [done|]. rewrite <- H1.
        by apply (y_conn _ _ _ Hinv).
  - apply (y_log _ _ _ Hinv).
Qed.

Lemma inv_handle_push R log sys k i c s t v :
  sys_inv R log sys → tasks (server sys) !! k = Some (Handle i) →
  clients sys !! i = Some c → sockets (server sys) !! i = Some s →
  is_open s = true → rx s = fr_request t request_type_push ++ fr_data v → topic_ok t →
  conn_ok (Some (RPush t)) (pushes i log) (pops i log) c (set_rx (fr_data v) s) →
  ∃ st' R', @handle asio Ps i (running k (server sys)) = Some (st', Ok tt) ∧
    sys_inv R' log (System st' (clients sys)).
Proof using laxs Hgarbage.
  intros Hinv Hk Hc Hs Ho Hrx Ht Hok. destruct (running_handle _ _ _ _ (y_server _ _ _ Hinv) Hk) as [Hi Hsv].
  rewrite (handle_take i t request_type_push (fr_data v) (running k (server sys)) s Hs Ht) by done.
  set (st1 := set_socket i (set_rx (fr_data v) s) (running k (server sys))).
  assert (srv_inv (delete i R) st1) as Hsv1 by (by eapply srv_inv_set_socket).
  assert (delete i R !! i = None) as Hni by apply lookup_delete_eq.
  destruct (handle_push_inv (delete i R) st1 i (request garbage t request_type_push) Hsv1 Hni) as [Hsv2 Hsk].
  { eexists. simpl. by rewrite lookup_insert_eq. }
  destruct (push_roles_spec (delete i R) st1 i t Hsv1 Hni) as [Hri Hrj].
  eexists _, _. split; [done|]. eapply (inv_wait R _ log sys i c s); try done. by rewrite Hsk.
Qed.

Lemma inv_handle_pop R log sys k i c s t :
  sys_inv R log sys → tasks (server sys) !! k = Some (Handle i) →
  clients sys !! i = Some c → sockets (server sys) !! i = Some s →
  is_open s = true → rx s = fr_request t request_type_pop → topic_ok t →
  conn_ok (Some (RPop t)) (pushes i log) (pops i log) c (set_rx [] s) →
  ∃ st' R', @handle asio Ps i (running k (server sys)) = Some (st', Ok tt) ∧
    sys_inv R' log (System st' (clients sys)).
Proof using laxs Hgarbage.
  intros Hinv Hk Hc Hs Ho Hrx Ht Hok. destruct (running_handle _ _ _ _ (y_server _ _ _ Hinv) Hk) as [Hi Hsv].
  rewrite (handle_take i t request_type_pop [] (running k (server sys)) s Hs Ht) by (done || by rewrite app_nil_r).
  set (st1 := set_socket i (set_rx [] s) (running k (server sys))).
  assert (srv_inv (delete i R) st1) as Hsv1 by (by eapply srv_inv_set_socket).
  assert (delete i R !! i = None) as Hni by apply lookup_delete_eq.
  destruct (handle_pop_inv (delete i R) st1 i (request garbage t request_type_pop) Hsv1 Hni) as [Hsv2 Hsk].
  { eexists. simpl. by rewrite lookup_insert_eq. }
  destruct (pop_roles_spec (delete i R) st1 i t Hsv1 Hni) as [Hri Hrj].
  eexists _, _. split; [done|]. eapply (inv_wait R _ log sys i c s); try done. by rewrite Hsk.
Qed.

(** The other sockets, when topic [t] is closed. *)
Lemma inv_close_other R log sys t i j c s' :
  sys_inv R log sys → clients sys !! j = Some c → j ≠ i →
  (if decide (R !! j = Some (RPush t) ∨ R !! j = Some (RPop t)) then close <$> sockets (server sys) !! j
   else sockets (server sys) !! j) = Some s' →
  (close_roles t (delete i R) !! j = R !! j ∧ sockets (server sys) !! j = Some s' ∧
     pushes j log = pushes j log ∧ pops j log = pops j log) ∨
  conn_ok (close_roles t (delete i R) !! j) (pushes j log) (pops j log) c s'.
Proof using.
  intros Hinv Hc Hne. case_decide as Hd.
  - intros (s & Hs & ->)%fmap_Some. right.
    assert (∃ r, R !! j = Some r ∧ (r = RPush t ∨ r = RPop t)) as (r & Hr & Hrt) by naive_solver.
    replace (close_roles t (delete i R) !! j) with (None : option role).
    + eapply conn_waits_closed; [|done]. rewrite <- Hr. by apply (y_conn _ _ _ Hinv).
    + symmetry. apply eq_None_not_Some. intros [r' [Hr' Hoff]%role_close]. rewrite lookup_delete_ne, Hr in Hr' by done.
      simplify_eq. destruct Hrt as [-> | ->]; simpl in Hoff; by rewrite bool_decide_false in Hoff by naive_solver.
  - intros Hs. left. split; [|done]. apply option_eq. intros r. rewrite role_close, lookup_delete_ne by done.
    split; [naive_solver|]. intros Hr. split; [done|]. destruct r; try done; simpl; apply bool_decide_true; naive_solver.
Qed.

Lemma inv_handle_check R log sys k i c s t :
  sys_inv R log sys → tasks (server sys) !! k = Some (Handle i) →
  clients sys !! i = Some c → sockets (server sys) !! i = Some s →
  is_open s = true → tx_end s = ec_none → rx s = fr_request t request_type_check_topic_exist → topic_ok t →
  (∀ rp, response_fits rp →
     conn_ok (Some RHandle) (pushes i log) (pops i log) c (set_tx (tx s ++ fr_response rp) (set_rx [] s))) →
  ∃ st' R', @handle asio Ps i (running k (server sys)) = Some (st', Ok tt) ∧
    sys_inv R' log (System st' (clients sys)).
Proof using laxs Hgarbage.
  intros Hinv Hk Hc Hs Ho Htx Hrx Ht Hok. destruct (running_handle _ _ _ _ (y_server _ _ _ Hinv) Hk) as [Hi Hsv].
  rewrite (handle_take i t request_type_check_topic_exist [] (running k (server sys)) s Hs Ht) by (done || by rewrite app_nil_r).
  set (st1 := set_socket i (set_rx [] s) (running k (server sys))).
  assert (srv_inv (delete i R) st1) as Hsv1 by (by eapply srv_inv_set_socket).
  change (@handle_request _ _ i _ st1) with (@handle_check_topic_exist asio Ps i
    (request garbage t request_type_check_topic_exist) st1). unfold handle_check_topic_exist.
  assert (∀ b : bool, response_fits (ResponsePackage t (I32 0) [] (I32 (if b then response_ok else response_topic_not_exist)))) as Hrp.
  { intros b. exists t, [], (if b then response_ok else response_topic_not_exist).
    split; [done|]. split; [done|]. split; [by destruct b|by left]. }
  edestruct (reply_run (delete i R) st1 i (set_rx [] s)) as [-> Hsv2];
    [done|apply lookup_delete_eq|simpl; apply lookup_insert_eq|done|done|apply Hrp|].
  eexists _, _. split; [done|]. simpl in Hsv2. rewrite insert_delete_eq in Hsv2.
  apply (inv_server_update R _ log); [done|done|..|apply (y_log _ _ _ Hinv)]; simpl.
  - intros j. rewrite insert_insert_eq. by apply insert_is_Some_same; rewrite Hs.
  - intros j cj sj Hcj. rewrite insert_insert_eq. destruct (decide (j = i)) as [->|Hne].
    + rewrite lookup_insert_eq. intros [= <-]. right. simplify_eq. rewrite lookup_insert_eq. apply Hok, Hrp.
    + rewrite !lookup_insert_ne by done. intros Hsj. by left.
Qed.

Lemma inv_handle_close R log sys k i c s t :
  sys_inv R log sys → tasks (server sys) !! k = Some (Handle i) →
  clients sys !! i = Some c → sockets (server sys) !! i = Some s →
  is_open s = true → tx_end s = ec_none → rx s = fr_request t request_type_close_topic → topic_ok t →
  (∀ rp, response_fits rp →
     conn_ok (Some RHandle) (pushes i log) (pops i log) c (set_tx (tx s ++ fr_response rp) (set_rx [] s))) →
  ∃ st' R', @handle asio Ps i (running k (server sys)) = Some (st', Ok tt) ∧
    sys_inv R' log (System st' (clients sys)).
Proof using laxs Hgarbage.
  intros Hinv Hk Hc Hs Ho Htx Hrx Ht Hok. destruct (running_handle _ _ _ _ (y_server _ _ _ Hinv) Hk) as [Hi Hsv].
  rewrite (handle_take i t request_type_close_topic [] (running k (server sys)) s Hs Ht) by (done || by rewrite app_nil_r).
  set (st1 := set_socket i (set_rx [] s) (running k (server sys))).
  assert (srv_inv (delete i R) st1) as Hsv1 by (by eapply srv_inv_set_socket).
  change (@handle_request _ _ i _ st1) with (@handle_close_topic_request asio Ps i
    (request garbage t request_type_close_topic) st1). unfold handle_close_topic_request.
  change (rq_topic (request garbage t request_type_close_topic)) with t. fold (close_topic t st1).
  assert (delete i R !! i = None) as Hni by apply lookup_delete_eq.
  destruct (close_topic_inv (delete i R) st1 t Hsv1) as (Hsv2 & _ & _ & Hsk).
  assert (response_fits (ResponsePackage t (I32 0) [] (I32 response_ok))) as Hrp.
  { exists t, [], response_ok. split; [done|]. split; [done|]. split; [done|]. by left. }
  edestruct (reply_run (close_roles t (delete i R)) (close_topic t st1) i (set_rx [] s)) as [-> Hsv3]; [done|..|done|done|apply Hrp|].
  { apply eq_None_not_Some. intros [r [Hr _]%role_close]. congruence. }
  { rewrite Hsk, decide_False by (rewrite Hni; naive_solver). simpl. apply lookup_insert_eq. }
  eexists _, _. split; [done|].
  apply (inv_server_update R _ log); [done|exact Hsv3|..|apply (y_log _ _ _ Hinv)]; simpl.
  - intros j. rewrite lookup_insert_is_Some', Hsk. simpl. rewrite <- (insert_is_Some_same _ i (set_rx [] s) j) by (by rewrite Hs).
    rewrite lookup_insert_is_Some'. case_decide; rewrite ?fmap_is_Some, ?lookup_insert_is_Some'; naive_solver.
  - intros j cj sj Hcj. destruct (decide (j = i)) as [->|Hne].
    + rewrite !lookup_insert_eq. intros [= <-]. right. simplify_eq. by apply Hok.
    + rewrite !(lookup_insert_ne _ i j) by done. rewrite Hsk. simpl. rewrite lookup_insert_ne, lookup_delete_ne by done.
      by apply inv_close_other.
Qed.

(** A pushing and a popping socket that were paired. *)
Lemma conn_push_paired j t P Q c s :
  conn_ok (Some (RTransferPush j t)) P Q c s →
  ∃ v, act c = Pushing t v ∧ rx s = fr_data v ∧ tx s = [] ∧ rx_end s = ec_none ∧ tx_end s = ec_none ∧ topic_ok t ∧ value_ok v ∧
    acked c = P ∧ pushed c = P ++ [(t, v)] ∧ popped c = Q.
Proof using.
  intros [r a u p [= <-] Ho Hrx Htx Hph HP Hpu HQ| |]; [|done..].
  inversion Hph; subst. rewrite !app_nil_r in *. eexists. by split_and!.
Qed.
Lemma conn_pop_paired j t P Q c s :
  conn_ok (Some (RTransferPop j t)) P Q c s →
  act c = Popping t ∧ rx s = [] ∧ tx s = [] ∧ rx_end s = ec_none ∧ tx_end s = ec_none ∧ topic_ok t ∧
    acked c = P ∧ pushed c = P ∧ popped c = Q.
Proof using.
  intros [r a u p [= <-] Ho Hrx Htx Hph HP Hpu HQ| |]; [|done..].
  inversion Hph; subst. rewrite !app_nil_r in *. by split_and!.
Qed.

Lemma transfer_run st i j t v s1 s2 rp1 rp2 :
  sockets st !! i = Some s1 → sockets st !! j = Some s2 → i ≠ j → value_ok v →
  rx s1 = fr_data v → tx s1 = [] → tx s2 = [] → tx_end s1 = ec_none → tx_end s2 = ec_none →
  rp1 = ResponsePackage t (I32 0) (get_remote_ipport j) (I32 response_ok) → response_fits rp1 →
  rp2 = ResponsePackage t (I32 0) (get_remote_ipport i) (I32 response_ok) → response_fits rp2 →
  ∃ st', @transfer_data asio Ps get_remote_ipport i j t st =
    Some (co_spawn (Handle j) (co_spawn (Handle i) st'), Ok tt) ∧
  datas_ st' = datas_ st ∧ tasks st' = tasks st ∧
  sockets st' = <[j := set_tx (fr_data v ++ fr_response rp2) s2]> (<[i := set_tx (fr_response rp1) (set_rx [] s1)]> (sockets st)).
Proof using laxs.
  intros Hs1 Hs2 Hne Hv Hrx Htx1 Htx2 He1 He2 Hp1 Hr1 Hp2 Hr2. unfold transfer_data.
  rewrite (with_socket_run i _ st s1 (set_rx [] s1) (Ok (data_pkg v))); [|done|apply take_data; [done|by rewrite app_nil_r]].
  cbn [and_then mbind option_bind].
  erewrite (with_socket_run j _ _ s2); [|simpl; by rewrite lookup_insert_ne|by apply serve_data].
  cbn [and_then mbind option_bind]. rewrite <- Hp1, <- Hp2.
  erewrite (with_socket_run i _ _ (set_rx [] s1)).
  2: { simpl. rewrite lookup_insert_ne by done. apply lookup_insert_eq. }
  2: { by apply write_response. }
  cbn [and_then mbind option_bind].
  erewrite (with_socket_run j _ _ (set_tx (tx s2 ++ fr_data v) s2)).
  2: { simpl. rewrite lookup_insert_ne by done. apply lookup_insert_eq. }
  2: { by apply write_response. }
  eexists. split; [done|]. split; [done|]. split; [done|]. simpl. rewrite Htx1, Htx2. simpl.
  by rewrite (insert_insert_ne _ i j), !insert_insert_eq by done.
Qed.

Lemma log_pushes_snoc i log m : pushes i (log ++ [m]) = pushes i log ++ (if decide (m.1.1 = i) then [m.2] else []).
Proof using. unfold pushes. rewrite omap_app. simpl. by case_decide. Qed.
Lemma log_pops_snoc i log m : pops i (log ++ [m]) = pops i log ++ (if decide (m.1.2 = i) then [m.2] else []).
Proof using. unfold pops. rewrite omap_app. simpl. by case_decide. Qed.

(** A match moves one value. *)
Lemma inv_transfer R log sys k i j t :
  sys_inv R log sys → tasks (server sys) !! k = Some (Transfer i j t) →
  ∃ st' R' v, @transfer_data asio Ps get_remote_ipport i j t (running k (server sys)) = Some (st', Ok tt) ∧
    sys_inv R' (log ++ [(i, j, (t, v))]) (System st' (clients sys)).
Proof using laxs.
  intros Hinv Hk. destruct (running_transfer _ _ _ _ _ _ (y_server _ _ _ Hinv) Hk) as (Hi & Hj & Hne & Hsv).
  destruct (role_conn _ _ _ _ _ Hinv Hi) as (c1 & s1 & Hc1 & Hs1 & Ho1 & Hok1).
  destruct (role_conn _ _ _ _ _ Hinv Hj) as (c2 & s2 & Hc2 & Hs2 & Ho2 & Hok2).
  destruct (conn_push_paired _ _ _ _ _ _ Hok1) as (v & Ha1 & Hrx1 & Htx1 & Hre1 & Hte1 & Ht & Hv & HP1 & Hpu1 & HQ1).
  destruct (conn_pop_paired _ _ _ _ _ _ Hok2) as (Ha2 & Hrx2 & Htx2 & Hre2 & Hte2 & _ & HP2 & Hpu2 & HQ2).
  assert (∀ a, response_fits (ResponsePackage t (I32 0) (get_remote_ipport a) (I32 response_ok))) as Hrp.
  { intros a. exists t, (get_remote_ipport a), response_ok. split; [done|]. split; [done|]. split; [done|]. right. by exists a. }
  destruct (transfer_run (running k (server sys)) i j t v s1 s2 _ _ Hs1 Hs2 Hne Hv Hrx1 Htx1 Htx2 Hte1 Hte2
    eq_refl (Hrp j) eq_refl (Hrp i)) as (st' & -> & Hd & Htk & Hsk).
  eexists _, (<[j := RHandle]> (<[i := RHandle]> (delete i (delete j R)))), v. split; [done|].
  apply (inv_server_update R _ log); [done|..].
  - assert (srv_inv (delete i (delete j R)) st') as Hsv'.
    { split; [rewrite Hd, Htk; apply Hsv|]. intros i' Hr'. destruct (sv_open _ _ Hsv i' Hr') as (s' & Hs' & Ho').
      exists s'. rewrite Hsk, !lookup_insert_ne; [done|..]; intros <-; destruct Hr' as [r Hr']; by rewrite !role_delete in Hr'; naive_solver. }
    apply spawn_handle_inv; [apply spawn_handle_inv; [done|apply lookup_delete_eq|]|..].
    + eexists. rewrite Hsk, lookup_insert_ne, lookup_insert_eq by done. done.
    + by rewrite lookup_insert_ne, lookup_delete_ne, lookup_delete_eq by done.
    + eexists. simpl. by rewrite Hsk, lookup_insert_eq.
  - intros i'. simpl. rewrite Hsk, insert_is_Some_same; [apply insert_is_Some_same; by exists s1|].
    rewrite lookup_insert_ne by done. by exists s2.
  - intros i' c' s'. simpl. rewrite Hsk, log_pushes_snoc, log_pops_snoc. simpl. intros Hc'. destruct (decide (i' = j)) as [->|Hnj].
    { rewrite !lookup_insert_eq. intros [= <-]. right. simplify_eq. rewrite decide_False, decide_True, app_nil_r by done.
      eapply (conn_live _ _ _ _ _ RHandle [] [] [(t, v)]); simpl; rewrite ?app_nil_r; try congruence.
      rewrite Hrx2, Ha2. by constructor. }
    rewrite !(lookup_insert_ne _ j i') by done. destruct (decide (i' = i)) as [->|Hni].
    + rewrite !lookup_insert_eq. intros [= <-]. right. simplify_eq. rewrite decide_True, decide_False, app_nil_r by done.
      eapply (conn_live _ _ _ _ _ RHandle [(t, v)] [] []); simpl; rewrite ?app_nil_r; try congruence.
      rewrite Ha1. by constructor.
    + rewrite !(lookup_insert_ne _ i i'), !lookup_delete_ne by done. rewrite !decide_False, !app_nil_r by done. by left.
  - intros m [Hm| ->%list_elem_of_singleton]%elem_of_app; [by apply (y_log _ _ _ Hinv)|]. simpl. by rewrite Hc1, Hc2.
Qed.

(** What a socket whose next request is awaited may have received. *)
Lemma phase_handle ac x y a u p :
  phase ac RHandle x y a u p →
  x = [] ∨
  (∃ t v, x = fr_request t request_type_push ++ fr_data v ∧ topic_ok t ∧ phase ac (RPush t) (fr_data v) y a u p) ∨
  (∃ t, x = fr_request t request_type_pop ∧ topic_ok t ∧ phase ac (RPop t) [] y a u p) ∨
  (∃ t, x = fr_request t request_type_close_topic ∧ topic_ok t ∧
     ∀ rp, response_fits rp → phase ac RHandle [] (y ++ fr_response rp) a u p) ∨
  (∃ t, x = fr_request t request_type_check_topic_exist ∧ topic_ok t ∧
     ∀ rp, response_fits rp → phase ac RHandle [] (y ++ fr_response rp) a u p).
Proof using.
  intros Hph. inversion Hph; subst; try (by left); right.
  - left. do 2 eexists. split; [done|]. split; [done|]. by constructor.
  - right; left. eexists. split; [done|]. split; [done|]. by constructor.
  - right; right; left. eexists. split; [done|]. split; [done|]. intros. by constructor.
  - right; right; right. eexists. split; [done|]. split; [done|]. intros. by constructor.
Qed.

(** [handle] waits on an open connection without bytes, or runs to its end. *)
Lemma handle_cases R log sys k i :
  sys_inv R log sys → tasks (server sys) !! k = Some (Handle i) →
  (∃ s, sockets (server sys) !! i = Some s ∧ rx s = [] ∧ rx_end s = ec_none) ∨
  (∃ st' R', @handle asio Ps i (running k (server sys)) = Some (st', Ok tt) ∧
     sys_inv R' log (System st' (clients sys))).
Proof using laxs Hgarbage.
  intros Hinv Hk. destruct (running_handle _ _ _ _ (y_server _ _ _ Hinv) Hk) as [Hi Hsv].
  destruct (role_conn _ _ _ _ _ Hinv Hi) as (c & s & Hc & Hs & Ho & Hok).
  destruct Hok as [r a u p [= <-] _ Hrx Htx Hph HP Hpu HQ|_ _ Hrx Hre Htx Hg Hh|]; [..|done].
  - destruct (phase_handle _ _ _ _ _ _ Hph) as
      [Hx|[(t & v & Hx & Ht & Hp)|[(t & Hx & Ht & Hp)|[(t & Hx & Ht & Hp)|(t & Hx & Ht & Hp)]]]]; [left; by exists s|right..].
    + apply (inv_handle_push R log sys k i c s t v); try done. by eapply conn_live.
    + apply (inv_handle_pop R log sys k i c s t); try done. by eapply conn_live.
    + apply (inv_handle_close R log sys k i c s t); try done. intros rp Hrp. eapply conn_live; try done. by apply Hp.
    + apply (inv_handle_check R log sys k i c s t); try done. intros rp Hrp. eapply conn_live; try done. by apply Hp.
  - right. exists (destroy i (set_socket i s (running k (server sys)))), (delete i R).
    split; [by apply handle_nothing|]. apply (inv_server_update R _ log); [done|..|apply (y_log _ _ _ Hinv)]; simpl.
    + apply destroy_inv; [|apply lookup_delete_eq]. by eapply srv_inv_set_socket.
    + intros j. rewrite lookup_alter_is_Some. apply insert_is_Some_same. by exists s.
    + intros j cj sj Hcj. destruct (decide (j = i)) as [->|Hne].
      * rewrite lookup_alter_eq, lookup_insert_eq, lookup_delete_eq. intros [= <-]. simplify_eq. right.
        apply conn_closed; try done. by rewrite Hg.
      * rewrite lookup_alter_ne, lookup_insert_ne, lookup_delete_ne by done. by left.
Qed.

Lemma inv_handle R log sys k i x :
  sys_inv R log sys → tasks (server sys) !! k = Some (Handle i) →
  @handle asio Ps i (running k (server sys)) = Some x →
  x.2 = Ok tt ∧ ∃ R', sys_inv R' log (System x.1 (clients sys)).
Proof using laxs Hgarbage.
  intros Hinv Hk Hrun. destruct (handle_cases R log sys k i Hinv Hk) as [(s & Hs & Hrx & Hre)|(st' & R' & Hst & Hinv')].
  - by rewrite (proj1 (handle_nothing i (running k (server sys)) s Hs Hrx) Hre) in Hrun.
  - rewrite Hrun in Hst. simplify_eq. split; [done|]. by exists R'.
Qed.

(** Every step of the server ends well and moves at most one value. *)
Lemma inv_server R log sys k x :
  sys_inv R log sys → @server_step asio Ps get_remote_ipport k (server sys) = Some x →
  x.2 = Ok tt ∧ ∃ R' log', log `prefix_of` log' ∧ sys_inv R' log' (System x.1 (clients sys)).
Proof using laxs Hgarbage.
  intros Hinv. unfold server_step. destruct (tasks (server sys) !! k) as [[i|i j t]|] eqn:Hk; cbn [mbind option_bind run_task].
  - intros Hrun. destruct (inv_handle R log sys k i x Hinv Hk Hrun) as [Hx [R' Hinv']]. split; [done|]. by exists R', log.
  - destruct (inv_transfer R log sys k i j t Hinv Hk) as (st' & R' & v & Hrun & Hinv'). unfold running in Hrun.
    rewrite Hrun. intros [= <-]. split; [done|]. exists R', (log ++ [(i, j, (t, v))]). split; [by apply prefix_app_r|done].
  - done.
Qed.

Lemma inv_reachable sys : reach sys → ∃ R log, sys_inv R log sys.
Proof using laxs laxc Hgarbage.
  induction 1 as [|i sys _ (R & log & Hinv) Hi|i o sys sys' _ (R & log & Hinv) Ho Hst|i sys sys' _ (R & log & Hinv) Hf
                 |i sys sys' _ (R & log & Hinv) Hl|k sys st _ (R & log & Hinv) Hst].
  - exists ∅, []. split; simpl; [|intros i; rewrite !lookup_empty; by split; intros []|done|set_solver].
    split; [apply placed_empty|]. intros i. rewrite lookup_empty. by intros [].
  - exists (<[i := RHandle]> R), log. by apply inv_join.
  - exists R, log. by eapply inv_start.
  - exists R, log. by eapply inv_finish.
  - exists R, log. by eapply inv_leave.
  - destruct (inv_server R log sys k _ Hinv Hst) as [_ (R' & log' & _ & Hinv')]. by exists R', log'.
Qed.

(** ** Guarantees *)

(** C20: exactly-once delivery.  In every state that clients and the server can
    reach there is a log of the matches made so far such that, for every client,
    the pushes that have returned are a prefix of its matched pushes, these are
    a prefix of the values it has pushed, and what its pops returned is a prefix
    of the values matched to it, topics included: nothing is lost, duplicated,
    reordered or delivered to another topic, and a [Push] returns only after its
    value was sent to one [Pop]. *)
Theorem switcher_exactly_once sys :
  reach sys →
  ∃ log : list (sid * sid * (cpp_string * option T)),
    (∀ m, m ∈ log → is_Some (clients sys !! m.1.1) ∧ is_Some (clients sys !! m.1.2)) ∧
    ∀ i c, clients sys !! i = Some c → hist_ok (pushes i log) (pops i log) c.
Proof using laxs laxc Hgarbage.
  intros (R & log & Hinv)%inv_reachable. exists log. split; [apply (y_log _ _ _ Hinv)|]. intros i c Hc.
  destruct (proj1 (y_dom _ _ _ Hinv i)) as [s Hs]; [by exists c|]. by eapply conn_hist, (y_conn _ _ _ Hinv).
Qed.

(** C22: with clients that keep to the protocol no coroutine of the server fails,
    whatever the order of the steps, and no client meets undefined behaviour or
    a failed assertion. *)
Theorem switcher_never_fails sys :
  reach sys →
  (∀ k x, @server_step asio Ps get_remote_ipport k (server sys) = Some x → x.2 = Ok tt) ∧
  (∀ i c, clients sys !! i = Some c → act c ≠ Broke).
Proof using laxs laxc Hgarbage.
  intros (R & log & Hinv)%inv_reachable. split.
  - intros k x Hx. by apply (inv_server R log sys k x Hinv Hx).
  - intros i c Hc. destruct (proj1 (y_dom _ _ _ Hinv i)) as [s Hs]; [by exists c|]. by eapply conn_hist, (y_conn _ _ _ Hinv).
Qed.

(** No coroutine of the server can run, and no client has an answer to read. *)
Definition quiescent sys : Prop :=
  (∀ k, @server_step asio Ps get_remote_ipport k (server sys) = None) ∧
  (∀ i, finish asio Pc ST i sys = None).

Lemma quiet_task R log sys (t : task) :
  sys_inv R log sys → quiescent sys → t ∈ tasks (server sys) →
  ∃ i s, t = Handle i ∧ sockets (server sys) !! i = Some s ∧ rx s = [].
Proof using laxs Hgarbage.
  intros Hinv [Hq _] [k Hk]%list_elem_of_lookup. specialize (Hq k). unfold server_step in Hq. rewrite Hk in Hq.
  destruct t as [i|i j t]; cbn [mbind option_bind run_task] in Hq.
  - destruct (handle_cases R log sys k i Hinv Hk) as [(s & Hs & Hrx & _)|(st' & R' & Hst & _)]; [by exists i, s|].
    unfold running in Hst. by rewrite Hst in Hq.
  - destruct (inv_transfer R log sys k i j t Hinv Hk) as (st' & R' & v & Hst & _). unfold running in Hst. by rewrite Hst in Hq.
Qed.

(** A client that has nothing to read. *)
Lemma quiet_client sys i c s :
  quiescent sys → clients sys !! i = Some c → sockets (server sys) !! i = Some s →
  match act c with
  | Pushing _ _ => @Push_reply asio Pc (mirror s) = None
  | Popping _ => @Pop_reply asio Pc T ST (mirror s) = None
  | Closing _ => @CloseTopic_reply asio Pc (mirror s) = None
  | Checking _ => @CheckTopicExist_reply asio Pc (mirror s) = None
  | _ => True
  end.
Proof using.
  intros [_ Hq] Hc Hs. specialize (Hq i). unfold finish, on_client in Hq. rewrite Hc in Hq. simpl in Hq.
  destruct (act c); try done; rewrite Hs in Hq; simpl in Hq;
    match goal with |- ?m = None => by destruct m as [[? ?]|] end.
Qed.

Lemma string_encoding_nonnil (b : cpp_string) : string_encoding b ≠ [].
Proof using.
  intros He. apply (f_equal size) in He. rewrite size_string_encoding in He.
  pose proof (size_nonneg b). change (size []) with 0 in He. lia.
Qed.

(** An unanswered client on a quiet connection: the socket waits. *)
Lemma quiet_phase R log sys i c s :
  sys_inv R log sys → quiescent sys → clients sys !! i = Some c → sockets (server sys) !! i = Some s →
  match act c with
  | Idle | Gone => True
  | Pushing t _ => R !! i = Some (RPush t)
  | Popping t => R !! i = Some (RPop t)
  | Closing _ | Checking _ | Broke => False
  end.
Proof using laxs laxc Hgarbage.
  intros Hinv Hq Hc Hs. pose proof (quiet_client sys i c s Hq Hc Hs) as Hr.
  assert (∀ rp, response_fits rp → tx s = fr_response rp → is_open s = true →
    @client_read_package asio Pc _ (@response_serializable Pc) (mirror s) = Some (set_rx [] (mirror s), Ok rp)) as Hread.
  { intros rp Hrp Htx Ho. apply read_response; [done|]. simpl. by rewrite app_nil_r. }
  destruct (y_conn _ _ _ Hinv i c s Hc Hs) as [r a u p HR Ho Hrx Htx Hph HP Hpu HQ|_ _ _ _ _ Hg' _|_ Hop Htx Hb Hh].
  - assert (r = RHandle → rx s = []) as Hh.
    { intros ->. apply (pl_handle _ _ _ (sv_placed _ _ (y_server _ _ _ Hinv))) in HR.
      destruct (quiet_task R log sys _ Hinv Hq HR) as (i' & s' & [= <-] & Hs' & Hx). congruence. }
    assert (∀ j t, r ≠ RTransferPush j t ∧ r ≠ RTransferPop j t) as Hnt.
    { intros j t. split; intros ->; [apply (pl_transfer_push _ _ _ (sv_placed _ _ (y_server _ _ _ Hinv))) in HR
        |apply (pl_transfer_pop _ _ _ (sv_placed _ _ (y_server _ _ _ Hinv))) in HR];
        by destruct (quiet_task R log sys _ Hinv Hq HR) as (? & ? & ? & _). }
    assert (∀ t ty rest, r = RHandle → fr_request t ty ++ rest = rx s → False) as Hsent.
    { intros t ty rest Hrh Hx. rewrite (Hh Hrh) in Hx. apply app_nil in Hx as [Hx _]. exact (string_encoding_nonnil _ Hx). }
    clear HP Hpu HQ. remember (act c) as ac eqn:Hac. remember (rx s) as x eqn:Hx. remember (tx s) as y eqn:Hy.
    destruct Hph as [|t v|t v|t v j|t v rp Hrp|t|t|t j|t v rp Hv Hrp|t|t rp Hrp|t|t rp Hrp].
    + done.
    + by destruct (Hsent t request_type_push (fr_data v)).
    + done.
    + by destruct (Hnt j t).
    + unfold Push_reply, mbind, IO_bind in Hr. by rewrite (Hread rp) in Hr.
    + destruct (Hsent t request_type_pop []); [done|]. by rewrite app_nil_r.
    + done.
    + by destruct (Hnt j t).
    + by rewrite (Pop_reply_spec v rp) in Hr.
    + destruct (Hsent t request_type_close_topic []); [done|]. by rewrite app_nil_r.
    + unfold CloseTopic_reply, mbind, IO_bind in Hr. rewrite (Hread rp) in Hr by done. by destruct (rs_response_code rp).
    + destruct (Hsent t request_type_check_topic_exist []); [done|]. by rewrite app_nil_r.
    + unfold CheckTopicExist_reply, mbind, IO_bind in Hr. rewrite (Hread rp) in Hr by done. by destruct (rs_response_code rp).
  - by rewrite Hg'.
  - assert (∀ A B (H : Serializable A) (f : A → IO B), (@client_read_package asio Pc A _ ≫= f) (mirror s) = None → False) as Hno.
    { intros A B H f Hf. destruct (read_waits_and_throws f (mirror s) Htx) as [_ Ht]. rewrite Ht in Hf; [done|].
      simpl. by rewrite Hop. }
    unfold Push_reply, Pop_reply, CloseTopic_reply, CheckTopicExist_reply in Hr.
    destruct (act c); try done; exact (False_ind _ (Hno _ _ _ _ Hr)).
Qed.

(** C21: no match is missed.  When the server can make no step and no client has
    an answer to read, every client is idle, gone, or in a [Push] or [Pop] whose
    socket is registered under its topic, and no topic has both: a [Push] and a
    [Pop] of the same topic are never both left waiting, and no other request is
    left without an answer. *)
Theorem switcher_no_missed_match sys :
  reach sys → quiescent sys →
  (∀ i c, clients sys !! i = Some c →
     match act c with
     | Idle | Gone => True
     | Pushing t _ => i ∈ pushing_nodes (waiting (datas_ (server sys)) t)
     | Popping t => i ∈ poping_nodes (waiting (datas_ (server sys)) t)
     | Closing _ | Checking _ | Broke => False
     end) ∧
  (∀ i j ci cj t v, clients sys !! i = Some ci → clients sys !! j = Some cj → act ci = Pushing t v → act cj ≠ Popping t).
Proof using laxs laxc Hgarbage.
  intros (R & log & Hinv)%inv_reachable Hq. pose proof (sv_placed _ _ (y_server _ _ _ Hinv)) as Hp.
  assert (∀ i c, clients sys !! i = Some c →
     match act c with
     | Idle | Gone => True
     | Pushing t _ => i ∈ pushing_nodes (waiting (datas_ (server sys)) t)
     | Popping t => i ∈ poping_nodes (waiting (datas_ (server sys)) t)
     | Closing _ | Checking _ | Broke => False
     end) as Hall.
  { intros i c Hc. destruct (proj1 (y_dom _ _ _ Hinv i)) as [s Hs]; [by exists c|].
    pose proof (quiet_phase R log sys i c s Hinv Hq Hc Hs) as Hph.
    destruct (act c); try done; [by apply (pl_push _ _ _ Hp)|by apply (pl_pop _ _ _ Hp)]. }
  split; [done|]. intros i j ci cj t v Hi Hj Ha Hb.
  pose proof (Hall i ci Hi) as H1. pose proof (Hall j cj Hj) as H2. rewrite Ha in H1. rewrite Hb in H2.
  destruct (pl_one_sided _ _ _ Hp t) as [He|He]; rewrite He in *; set_solver.
Qed.

End protocol.

(** ** A run with two clients *)

Module SampleSwitch.

Definition peers (i : sid) : cpp_string := [Byte.x31].
Definition stale : int_t := I32 (-1).
Definition topic : cpp_string := [Byte.x61; Byte.x62].
Definition ST := @uint32_serializable big_host.
Definition LT := @uint32_laws big_host.

Inductive cmd := CJoin (i : sid) | CStart (i : sid) (o : op (T := uint32_t)) | CFinish (i : sid) | CLeave (i : sid) | CServe (k : nat).

Definition exec1 (c : cmd) (sys : system uint32_t) : option (system uint32_t) :=
  match c with
  | CJoin i => match clients sys !! i with None => Some (join i sys) | Some _ => None end
  | CStart i o => start stream_asio big_host ST stale i o sys
  | CFinish i => finish stream_asio big_host ST i sys
  | CLeave i => leave i sys
  | CServe k => match @server_step stream_asio little_host peers k (server sys) with
                | Some (st, Ok _) => Some (System st (clients sys)) | _ => None end
  end.
Fixpoint exec (cs : list cmd) (sys : system uint32_t) : option (system uint32_t) :=
  match cs with [] => Some sys | c :: cs => sys ← exec1 c sys; exec cs sys end.

Definition reached : system uint32_t → Prop :=
  reachable stream_asio little_host big_host ST stale peers (@wire_ok uint32_t ST LT) (@encoding uint32_t ST LT).
Definition fitting (c : cmd) : Prop :=
  match c with CStart _ o => op_fits peers (@wire_ok uint32_t ST LT) (@encoding uint32_t ST LT) o | _ => True end.

Lemma exec_reached cs sys sys' : reached sys → Forall fitting cs → exec cs sys = Some sys' → reached sys'.
Proof.
  revert sys. induction cs as [|c cs IH]; intros sys Hr Hf; simpl; [by intros [= <-]|].
  destruct (exec1 c sys) as [sys1|] eqn:H1; simpl; [|done]. apply IH; [|by inversion Hf].
  apply Forall_inv in Hf. destruct c as [i|i o|i|i|k]; simpl in *.
  - destruct (clients sys !! i) eqn:Hi; [done|]. injection H1 as <-. by apply reachable_join.
  - by eapply reachable_start.
  - by eapply reachable_finish.
  - by eapply reachable_leave.
  - destruct (server_step _ _ _ _) as [[st [[]| |]]|] eqn:Hs; simplify_eq. by eapply reachable_server.
Qed.

(** Client 0 pushes, client 1 pops, and both read their answers; then client 0
    pushes again and its socket waits. *)
Definition script : list cmd :=
  [CJoin 0; CJoin 1; CStart 0 (OpPush topic (Some (U32 7))); CServe 0; CStart 1 (OpPop topic); CServe 0; CServe 0;
   CFinish 0; CFinish 1; CStart 0 (OpPush topic None); CServe 0].
Definition final : system uint32_t :=
  default (System Switcher_init ∅) (exec script (System Switcher_init ∅)).

Lemma script_fits : Forall fitting script.
Proof. repeat constructor; simpl; try done; by intros. Qed.

Lemma final_reached : reached final.
Proof.
  apply (exec_reached script (System Switcher_init ∅)); [apply reachable_init|apply script_fits|].
  vm_compute. reflexivity.
Qed.

(** The value has arrived. *)
Example final_histories :
  (popped <$> clients final !! 1%nat) = Some [(topic, Some (U32 7))] ∧
  (acked <$> clients final !! 0%nat) = Some [(topic, Some (U32 7))] ∧
  (pushed <$> clients final !! 0%nat) = Some [(topic, Some (U32 7)); (topic, None)].
Proof. vm_compute. repeat split. Qed.

Lemma switcher_exactly_once_witness :
  ∃ log : list (sid * sid * (cpp_string * option uint32_t)),
    (∀ m, m ∈ log → is_Some (clients final !! m.1.1) ∧ is_Some (clients final !! m.1.2)) ∧
    ∀ i c, clients final !! i = Some c → hist_ok (pushes i log) (pops i log) c.
Proof.
  apply (switcher_exactly_once stream_asio little_host big_host eq_refl eq_refl ST LT stale ltac:(done) peers final).
  apply final_reached.
Defined.

Lemma switcher_never_fails_witness :
  (∀ k x, @server_step stream_asio little_host peers k (server final) = Some x → x.2 = Ok tt) ∧
  (∀ i c, clients final !! i = Some c → act c ≠ Broke).
Proof.
  apply (switcher_never_fails stream_asio little_host big_host eq_refl eq_refl ST LT stale ltac:(done) peers final).
  apply final_reached.
Defined.

Lemma final_quiescent : quiescent stream_asio little_host big_host ST peers final.
Proof.
  split.
  - intros k. destruct (decide (k < 2)%nat) as [Hk|Hk].
    + destruct k as [|[|k]]; [vm_compute; reflexivity..|lia].
    + unfold server_step. rewrite lookup_ge_None_2; [done|]. vm_compute (length _). lia.
  - intros i. destruct (decide (i < 2)%nat) as [Hi|Hi].
    + destruct i as [|[|i]]; [vm_compute; reflexivity..|lia].
    + unfold finish. replace (clients final !! i) with (None : option (client uint32_t)); [done|].
      symmetry. apply not_elem_of_dom. intros Hin.
      assert (dom (clients final) = ({[0%nat; 1%nat]} : gset sid)) as Hd by (vm_compute; reflexivity).
      clear -Hd Hin Hi. rewrite Hd in Hin. apply elem_of_union in Hin as [Hin|Hin]; apply elem_of_singleton in Hin; lia.
Qed.

Lemma switcher_no_missed_match_witness :
  0%nat ∈ pushing_nodes (waiting (datas_ (server final)) topic) ∧
  (∀ i j ci cj t v, clients final !! i = Some ci → clients final !! j = Some cj →
     act ci = Pushing t v → act cj ≠ Popping t).
Proof.
  destruct (switcher_no_missed_match stream_asio little_host big_host eq_refl eq_refl ST LT stale ltac:(done) peers final
    final_reached final_quiescent) as [Hall Hno].
  split; [|exact Hno]. vm_compute. left.
Defined.

End SampleSwitch.
