(* ===== verification/NodeProtocol.v ===== *)
(** * Every node class keeps the port protocol

    For each class: run in any environment, with user functions that may
    throw at any call, [work_with_exception] never reads a queue past its last
    end of file, never writes to a queue it has ended, never dereferences a
    null port, and returns only after it has read every expected end of file
    and written exactly one to each of its outputs.  When it returns without
    an exception, what it wrote is the function of what it read that the class
    promises ([behaves]). *)

From stdpp Require Import base gmap strings list fin_maps.
From S2P Require Import Prelude Events Coro Processor PortLogic Nodes.

Section protocol.
Context {T U : Type} (GetTransferredBytes : T → Z).
Implicit Types (n : node T U) (g : ghost T) (tr : list (event T)).

(** ** What was read from and written to a queue *)

Definition got (q : qid) tr : list (option T) :=
  omap (λ e, match e with
             | Got q' v => if decide (q' = q) then Some v else None
             | Put _ _ => None
             end) tr.
Definition put (q : qid) tr : list (option T) :=
  omap (λ e, match e with
             | Put q' v => if decide (q' = q) then Some v else None
             | Got _ _ => None
             end) tr.

(** ** The duties of a node, from its ports *)

Definition inq n : option qid := queue_ptr (input_port n).
Definition outq n : option qid := queue_ptr (output_port n).
Definition ptrs (l : list channel) : list qid := omap queue_ptr l.

Definition in_duty n : gmap qid nat :=
  match node_kind n with
  | KSource _ | KEmptySource => ∅
  | KConcat => list_to_map ((λ q, (q, 1)) <$> ptrs (inputs_ n))
  | _ => match inq n with Some q => {[ q := Z.to_nat (input_count_ n) ]} | None => ∅ end
  end.

Definition out_duty n : gset qid :=
  match node_kind n with
  | KSink _ | KDumpSink => ∅
  | KDispatch _ | KFork => list_to_set (ptrs (outputs_ n))
  | _ => match outq n with Some q => {[ q ]} | None => ∅ end
  end.

(** The process may be ended by a node that fails the checks of [before_work]
    or has no abort channel. *)
Definition may_end n : bool :=
  match before_work (node_kind n) n with Some _ => true | None => negb (Channel_bool (abort_port n)) end.

Definition duty n : ghost T := Ghost (in_duty n) (out_duty n) [] (may_end n).

(** A node whose ports are connected. *)
Definition in_wired n : Prop := inq n ≠ None ∧ (0 < input_count_ n)%Z.
Definition out_wired n : Prop := outq n ≠ None.

Definition multi_wired (l : list channel) : Prop :=
  NoDup (ptrs l) ∧ Forall (λ c, queue_ptr c ≠ None) l.

Definition wired n : Prop :=
  match node_kind n with
  | KSource _ | KEmptySource => out_wired n
  | KSink _ | KDumpSink => in_wired n
  | KConcat => multi_wired (inputs_ n) ∧ out_wired n
  | KDispatch _ | KFork => in_wired n ∧ multi_wired (outputs_ n) ∧ (0 < output_size_ n)%Z
  | _ => in_wired n ∧ out_wired n
  end.

(** ** What each class promises *)

(** Successive calls of a user function that all return. *)
Inductive folds {B} (R : U → T → U → B → Prop) (u0 : U) : list T → list B → U → Prop :=
| folds_nil : folds R u0 [] [] u0
| folds_snoc xs ys u x y u' :
    folds R u0 xs ys u → R u x u' y → folds R u0 (xs ++ [x]) (ys ++ [y]) u'.

Definition calls {B} (f : U → T → U * attempt B) : U → T → U → B → Prop :=
  λ u x u' y, f u x = (u', Value y).

Inductive generates (R : U → U → option T → Prop) (u0 : U) : list T → U → Prop :=
| generates_nil : generates R u0 [] u0
| generates_snoc xs u x u' :
    generates R u0 xs u → R u u' (Some x) → generates R u0 (xs ++ [x]) u'.

Definition returns {B} (f : U → U * attempt B) : U → U → B → Prop :=
  λ u u' b, f u = (u', Value b).

(** A stream of data, ended. *)
Definition ended (xs : list T) : list (option T) := (Some <$> xs) ++ [None].

(** The elements the filter lets through. *)
Definition kept (xs : list T) (bs : list bool) : list T :=
  (filter (λ xb : T * bool, xb.2 = false) (zip xs bs)).*1.

(** The elements dispatched to output [i] of [size]. *)
Definition dispatched (size i : Z) (xs : list T) (ds : list Z) : list T :=
  (filter (λ xd : T * Z, (u64 xd.2 `mod` size)%Z = i) (zip xs ds)).*1.

Definition behaves n0 (u1 : U) tr : Prop :=
  let u0 := user_state n0 in
  let read := match inq n0 with Some q => data (got q tr) | None => [] end in
  let written := match outq n0 with Some q => put q tr | None => [] end in
  match node_kind n0 with
  | KSource generate =>
      ∃ xs u, generates (returns generate) u0 xs u ∧ generate u = (u1, Value None) ∧ written = ended xs
  | KEmptySource => written = [None]
  | KChannelSource | KChannelSink | KNoOpTransform => written = ended read
  | KSink consume => ∃ ys, folds (calls consume) u0 read ys u1
  | KDumpSink => True
  | KSimpleTransform transform => ∃ ys, folds (calls transform) u0 read ys u1 ∧ written = ended ys
  | KFilter filter => ∃ bs, folds (calls filter) u0 read bs u1 ∧ written = ended (kept read bs)
  | KAccumulate consume generate =>
      ∃ ys u y, folds (calls consume) u0 read ys u ∧ generate u = (u1, Value y) ∧ written = ended [y]
  | KConcat => written = ended (concat ((λ q, data (got q tr)) <$> ptrs (inputs_ n0)))
  | KDispatch dispatch =>
      ∃ ds, folds (calls dispatch) u0 read ds u1 ∧
        ∀ i q, ptrs (outputs_ n0) !! i = Some q →
          put q tr = ended (dispatched (output_size_ n0) (Z.of_nat i) read ds)
  | KFork => ∀ i q, ptrs (outputs_ n0) !! i = Some q → put q tr = ended read
  end.

(** ** Lemmas on traces *)

Lemma got_app q tr tr' : got q (tr ++ tr') = got q tr ++ got q tr'.
Proof. apply omap_app. Qed.
Lemma put_app q tr tr' : put q (tr ++ tr') = put q tr ++ put q tr'.
Proof. apply omap_app. Qed.
Lemma got_Got q vs : got q (Got q <$> vs) = vs.
Proof. induction vs as [|v vs IH]; simpl; [done|]. rewrite decide_True by done. by f_equal. Qed.
Lemma got_Got_ne q q' vs : q ≠ q' → got q (Got q' <$> vs) = [].
Proof. intros. induction vs as [|v vs IH]; simpl; [done|]. by rewrite decide_False by done. Qed.
Lemma put_Got q q' vs : put q (Got q' <$> vs) = [].
Proof. by induction vs. Qed.

Lemma got_pops q vs g : got q (trace (pops q vs g)) = got q (trace g) ++ vs.
Proof. by rewrite trace_pops, got_app, got_Got. Qed.
Lemma got_pops_ne q q' vs g : q ≠ q' → got q (trace (pops q' vs g)) = got q (trace g).
Proof. intros. by rewrite trace_pops, got_app, got_Got_ne, app_nil_r. Qed.
Lemma put_pops q q' vs g : put q (trace (pops q' vs g)) = put q (trace g).
Proof. by rewrite trace_pops, put_app, put_Got, app_nil_r. Qed.

Lemma got_push q q' v g : got q (trace (after_push q' v g)) = got q (trace g).
Proof. simpl. by rewrite got_app, app_nil_r. Qed.
Lemma put_push q v g : put q (trace (after_push q v g)) = put q (trace g) ++ [v].
Proof. simpl. rewrite put_app. simpl. by rewrite decide_True. Qed.
Lemma put_push_ne q q' v g : q ≠ q' → put q (trace (after_push q' v g)) = put q (trace g).
Proof. intros. simpl. rewrite put_app. simpl. by rewrite decide_False, app_nil_r by done. Qed.

(** ** One input, one output *)

Definition in_ok n g : Prop :=
  match inq n with
  | Some q => (0 < input_count_ n)%Z ∧ Z.of_nat (remaining g !!! q) = input_count_ n ∧
              ∀ q', q' ≠ q → remaining g !!! q' = 0
  | None => ∀ q, remaining g !!! q = 0
  end.

Definition out_ok n g : Prop :=
  opened g = match outq n with Some q => {[ q ]} | None => ∅ end.

Lemma Pop_in q n g Φ :
  in_ok n g → inq n = Some q →
  (∀ col k x vs, data vs = [x] → in_ok (set_collector col (set_input_count k n)) (pops q vs g) →
     Φ (set_collector col (set_input_count k n)) (Value (Some x)) (pops q vs g)) →
  (∀ col vs, data vs = [] → (∀ q', remaining (pops q vs g) !!! q' = 0) →
     Φ (set_collector col (set_input_port (Channel_reset (input_port n)) (set_input_count 0 n)))
       (Value None) (pops q vs g)) →
  (∀ col k vs, queue_ptr (abort_port n) ≠ None →
     in_ok (set_collector col (set_input_count k n)) (pops q vs g) →
     Φ (set_collector col (set_input_count k n)) (Raised "throw by abort channel") (pops q vs g)) →
  wpM (Pop_port GetTransferredBytes RefInput) n g Φ.
Proof.
  intros Hin Hq Hval Heof Habort. unfold in_ok in Hin. rewrite Hq in Hin.
  destruct Hin as (Hpos & Hrem & Hother).
  assert (∀ col k vs, eofs vs < remaining g !!! q → k = Z.of_nat (remaining g !!! q - eofs vs) →
            in_ok (set_collector col (set_input_count k n)) (pops q vs g)) as Hok.
  { intros col k vs Hlt ->. unfold in_ok. replace (inq _) with (Some q) by done.
    split; [simpl; lia|]. rewrite remaining_pops_eq. split; [done|].
    intros q' Hne. rewrite remaining_pops_ne by done. auto. }
  apply (Pop_counted_spec _ RefInput RefInputCount q (remaining g !!! q)); [done|done|lia|done|..].
  - intros col j x Hj. apply Hval.
    + by rewrite data_app, data_replicate.
    + apply Hok; rewrite eofs_app, eofs_replicate; simpl; [lia|f_equal; lia].
  - intros col. apply Heof; [apply data_replicate|]. intros q'. rewrite remaining_pops, eofs_replicate.
    case_decide; [subst; lia|]. auto.
  - intros col vs Hlt Ha. apply Habort; [done|]. by apply Hok.
Qed.

Lemma Push_out v q n g Φ :
  out_ok n g → outq n = Some q →
  (∀ col res, res = Value tt ∨ (res = Raised "throw by abort channel" ∧ queue_ptr (abort_port n) ≠ None) →
     let n' := set_collector col (if is_eof v then set_output_port (Channel_reset (output_port n)) n else n) in
     out_ok n' (after_push q v g) → Φ n' res (after_push q v g)) →
  wpM (Push_port GetTransferredBytes v RefOutput) n g Φ.
Proof.
  intros Hout Hq HΦ. unfold out_ok in Hout. rewrite Hq in Hout.
  apply (Push_port_spec _ RefOutput q); [done|rewrite Hout; set_solver|].
  intros col res Hres. apply HΦ; [done|].
  unfold out_ok. simpl. rewrite Hout. destruct v as [x|]; simpl.
  - replace (outq _) with (Some q) by done. done.
  - unfold outq. simpl. set_solver.
Qed.

(** Hosted mode of the classes with one input and at most one output. *)
Lemma close_in n g (Φ : node T U → attempt unit → ghost T → Prop) :
  in_ok n g →
  (∀ k g', (∀ q, remaining g' !!! q = 0) → opened g' = opened g →
     Φ (set_input_count k n) (Value tt) g') →
  wpM (close_input RefInput RefInputCount) n g Φ.
Proof.
  intros Hin HΦ. unfold in_ok in Hin. destruct (inq n) as [q|] eqn:Hq.
  - destruct Hin as (Hpos & Hrem & Hother).
    apply (close_input_spec RefInput RefInputCount q (remaining g !!! q)); [done|done|lia|done|].
    intros vs Hvs. apply HΦ; [|apply opened_pops].
    intros q'. rewrite remaining_pops, Hvs. case_decide; [lia|auto].
  - apply close_input_null; [done|]. specialize (HΦ (input_count_ n) g Hin eq_refl).
    by destruct n.
Qed.

Lemma close_out n g (Φ : node T U → attempt unit → ghost T → Prop) :
  out_ok n g →
  (∀ g', remaining g' = remaining g → opened g' = ∅ → Φ n (Value tt) g') →
  wpM (close_output RefOutput) n g Φ.
Proof.
  intros Hout HΦ. apply close_output_spec. unfold out_ok, outq in Hout. simpl.
  destruct (queue_ptr (output_port n)) as [q|].
  - split; [rewrite Hout; set_solver|]. apply HΦ; [done|]. simpl. rewrite Hout. set_solver.
  - by apply HΦ.
Qed.

(** ** User functions

    An action that only touches the user's data members, and may throw. *)
Definition user_action {B} (m : M T U B) (R : U → U → B → Prop) : Prop :=
  ∀ n g (Φ : node T U → attempt B → ghost T → Prop),
    (∀ u b, R (user_state n) u b → Φ (set_user_state u n) (Value b) g) →
    (∀ u e, Φ (set_user_state u n) (Raised e) g) → wpM m n g Φ.

Lemma user_action_call {B} (f : U → U * attempt B) : user_action (call_user f) (returns f).
Proof. intros n g Φ Hv Hr. apply wpM_call_user. intros u [b|e] Hf; [by apply Hv|apply Hr]. Qed.

Lemma set_user_state_id n : set_user_state (user_state n) n = n.
Proof. by destruct n. Qed.

Lemma user_action_ret {B} (b : B) : user_action (mret b) (λ u u' b', u' = u ∧ b' = b).
Proof.
  intros n g Φ Hv Hr. apply wpM_ret. rewrite <- (set_user_state_id n) at 1. by apply Hv.
Qed.

Lemma folds_id u0 xs ys u :
  folds (λ u x u' y, u' = u ∧ y = x) u0 xs ys u → ys = xs ∧ u = u0.
Proof. induction 1; [done|]. naive_solver. Qed.

(** ** The classes with one input and one output *)

Definition stopped n g : Prop := in_ok n g ∧ out_ok n g.

(** The invariant of the loops: the ports are open, and [J] relates the user's
    state, the data read and what was written. *)
Definition loop_inv (qi qo : qid) (J : U → list T → list (option T) → Prop) n g : Prop :=
  in_ok n g ∧ out_ok n g ∧ inq n = Some qi ∧ outq n = Some qo ∧
  J (user_state n) (data (got qi (trace g))) (put qo (trace g)).

(** After a [Pop] of a value, a user action and a [Push] of a value. *)
Lemma Push_value_inv qi qo (J : U → list T → list (option T) → Prop) y n g
    (Φ : node T U → attempt (unit + unit) → ghost T → Prop) :
  in_ok n g → out_ok n g → inq n = Some qi → outq n = Some qo →
  J (user_state n) (data (got qi (trace g))) (put qo (trace g) ++ [Some y]) →
  (∀ n g, loop_inv qi qo J n g → Φ n (Value (inl tt)) g) →
  (∀ n e g, stopped n g → Φ n (Raised e) g) →
  wpM (_ ← Push_port GetTransferredBytes (Some y) RefOutput; mret (inl tt)) n g Φ.
Proof.
  intros Hin Hout Hqi Hqo HJ Hgo Hstop. wp_step. apply (Push_out _ qo); [done|done|].
  intros col res Hres n' Hout'. destruct Hres as [->|[-> _]].
  - wp_step. apply Hgo. split; [done|]. split; [done|]. split; [done|]. split; [done|].
    rewrite got_push, put_push. done.
  - apply Hstop. done.
Qed.

(** After the last [Pop], the [Push] of the end of file. *)
Lemma Push_eof_end qi qo n g (Φ : node T U → attempt (unit + unit) → ghost T → Prop) :
  inq n = None → (∀ q, remaining g !!! q = 0) → out_ok n g → outq n = Some qo →
  (∀ n' g', user_state n' = user_state n → settled g' →
     got qi (trace g') = got qi (trace g) → put qo (trace g') = put qo (trace g) ++ [None] →
     Φ n' (Value (inr tt)) g') →
  (∀ n e g, stopped n g → Φ n (Raised e) g) →
  wpM (_ ← Push_port GetTransferredBytes None RefOutput; mret (inr tt)) n g Φ.
Proof.
  intros Hin Hrem Hout Hqo Hend Hstop. wp_step. apply (Push_out _ qo); [done|done|].
  intros col res Hres n' Hout'. destruct Hres as [->|[-> _]].
  - wp_step. apply Hend; [done| |by rewrite got_push|by rewrite put_push].
    split; [done|]. done.
  - apply Hstop. split; [|done]. unfold in_ok. by replace (inq n') with (@None qid) by done.
Qed.

Lemma data_got_pops q vs g : data (got q (trace (pops q vs g))) = data (got q (trace g)) ++ data vs.
Proof. by rewrite got_pops, data_app. Qed.

Lemma work_SimpleTransform_spec (transform : T → M T U T) (R : U → T → U → T → Prop) qi qo u0 n g
    (Φ : node T U → attempt unit → ghost T → Prop) :
  (∀ x, user_action (transform x) (λ u u' y, R u x u' y)) →
  loop_inv qi qo (λ u xs w, ∃ ys, folds R u0 xs ys u ∧ w = Some <$> ys) n g →
  (∀ n g ys, settled g → folds R u0 (data (got qi (trace g))) ys (user_state n) →
     put qo (trace g) = ended ys → Φ n (Value tt) g) →
  (∀ n e g, stopped n g → Φ n (Raised e) g) →
  wpM (work_SimpleTransform GetTransferredBytes transform) n g Φ.
Proof.
  intros Huser Hinv Hend Hstop. eapply wpM_while_true; [|exact Hinv].
  clear n g Hinv. intros n g (Hin & Hout & Hqi & Hqo & ys & Hf & Hw).
  wp_step. apply (Pop_in qi); [done|done|..].
  - intros col k x vs Hvs Hin'. wp_step. apply Huser.
    + intros u y HR.
      apply (Push_value_inv qi qo (λ u xs w, ∃ ys, folds R u0 xs ys u ∧ w = Some <$> ys));
        [done|unfold out_ok; by rewrite opened_pops|done|done| |done|done].
      rewrite put_pops, data_got_pops, Hvs, Hw. exists (ys ++ [y]).
      split; [by econstructor|by rewrite fmap_app].
    + intros u e. apply Hstop. split; [done|]. unfold out_ok. by rewrite opened_pops.
  - intros col vs Hvs Hrem.
    apply (Push_eof_end qi qo); [done|done|unfold out_ok; by rewrite opened_pops|done| |done].
    intros n' g' Hu Hset Hgot Hput. apply (Hend n' g' ys); [done| |].
    + rewrite Hgot, Hu, data_got_pops, Hvs, app_nil_r. done.
    + rewrite Hput, put_pops, Hw. done.
  - intros col k vs Ha Hin'. apply Hstop. split; [done|]. unfold out_ok. by rewrite opened_pops.
Qed.

Lemma out_ok_pops q vs n n' g : out_ok n g → outq n' = outq n → out_ok n' (pops q vs g).
Proof. unfold out_ok. intros Ho ->. by rewrite opened_pops. Qed.

Lemma kept_snoc xs bs x b :
  length xs = length bs → kept (xs ++ [x]) (bs ++ [b]) = kept xs bs ++ (if b then [] else [x]).
Proof.
  intros Hl. unfold kept. rewrite zip_with_app by done. rewrite filter_app, fmap_app.
  f_equal. simpl. by destruct b.
Qed.

Lemma folds_length {B} (R : U → T → U → B → Prop) u0 xs ys u :
  folds R u0 xs ys u → length xs = length ys.
Proof. induction 1; [done|]. rewrite !length_app. simpl. lia. Qed.

Lemma work_Filter_spec (filter : T → M T U bool) (R : U → T → U → bool → Prop) qi qo u0 n g
    (Φ : node T U → attempt unit → ghost T → Prop) :
  (∀ x, user_action (filter x) (λ u u' y, R u x u' y)) →
  loop_inv qi qo (λ u xs w, ∃ bs, folds R u0 xs bs u ∧ w = Some <$> kept xs bs) n g →
  (∀ n g bs, settled g → folds R u0 (data (got qi (trace g))) bs (user_state n) →
     put qo (trace g) = ended (kept (data (got qi (trace g))) bs) → Φ n (Value tt) g) →
  (∀ n e g, stopped n g → Φ n (Raised e) g) →
  wpM (work_Filter GetTransferredBytes filter) n g Φ.
Proof.
  intros Huser Hinv Hend Hstop. eapply wpM_while_true; [|exact Hinv].
  clear n g Hinv. intros n g (Hin & Hout & Hqi & Hqo & bs & Hf & Hw).
  wp_step. apply (Pop_in qi); [done|done|..].
  - intros col k x vs Hvs Hin'. wp_step. apply Huser.
    + intros u b HR. pose proof (kept_snoc _ _ x b (folds_length _ _ _ _ _ Hf)) as Hkept.
      destruct b; cbn [negb].
      * wp_steps. repeat split; try done; [by eapply out_ok_pops|].
        rewrite put_pops, data_got_pops, Hvs, Hw. exists (bs ++ [true]).
        split; [by econstructor|]. by rewrite Hkept, app_nil_r.
      * apply (Push_value_inv qi qo (λ u xs w, ∃ bs, folds R u0 xs bs u ∧ w = Some <$> kept xs bs));
          [done|by eapply out_ok_pops|done|done| |done|done].
        rewrite put_pops, data_got_pops, Hvs, Hw. exists (bs ++ [false]).
        split; [by econstructor|]. by rewrite Hkept, fmap_app.
    + intros u e. apply Hstop. split; [done|]. by eapply out_ok_pops.
  - intros col vs Hvs Hrem.
    apply (Push_eof_end qi qo); [done|done|by eapply out_ok_pops|done| |done].
    intros n' g' Hu Hset Hgot Hput. rewrite put_pops in Hput.
    pose proof (data_got_pops qi vs g) as Hd. rewrite Hvs, app_nil_r in Hd.
    apply (Hend n' g' bs); [done| |]; rewrite ?Hput, ?Hgot, ?Hu, Hd; [done|by rewrite Hw].
  - intros col k vs Ha Hin'. apply Hstop. split; [done|]. by eapply out_ok_pops.
Qed.

Lemma work_Accumulate_spec (consume : T → M T U unit) (generate : M T U T)
    (R : U → T → U → unit → Prop) (G : U → U → T → Prop) qi qo u0 n g
    (Φ : node T U → attempt unit → ghost T → Prop) :
  (∀ x, user_action (consume x) (λ u u' y, R u x u' y)) → user_action generate G →
  loop_inv qi qo (λ u xs w, ∃ ys, folds R u0 xs ys u ∧ w = []) n g →
  (∀ n g ys u y, settled g → folds R u0 (data (got qi (trace g))) ys u →
     G u (user_state n) y → put qo (trace g) = ended [y] → Φ n (Value tt) g) →
  (∀ n e g, stopped n g → Φ n (Raised e) g) →
  wpM (work_Accumulate GetTransferredBytes consume generate) n g Φ.
Proof.
  intros Huser Hgen Hinv Hend Hstop. eapply wpM_while_true; [|exact Hinv].
  clear n g Hinv. intros n g (Hin & Hout & Hqi & Hqo & ys & Hf & Hw).
  wp_step. apply (Pop_in qi); [done|done|..].
  - intros col k x vs Hvs Hin'. wp_step. apply Huser.
    + intros u b HR. wp_step. repeat split; try done; [by eapply out_ok_pops|].
      rewrite put_pops, data_got_pops, Hvs, Hw. exists (ys ++ [b]). split; [by econstructor|done].
    + intros u e. apply Hstop. split; [done|]. by eapply out_ok_pops.
  - intros col vs Hvs Hrem. wp_step.
    assert (∀ n' g', inq n' = None → (∀ q, remaining g' !!! q = 0) → in_ok n' g') as Hok.
    { intros n' g' Hn' Hr. unfold in_ok. by rewrite Hn'. }
    apply Hgen.
    + intros u y HG. wp_step. apply (Push_out _ qo); [by eapply out_ok_pops|done|].
      intros col1 res Hres n1 Hout1. destruct Hres as [->|[-> _]].
      * apply (Push_eof_end qi qo); [done|done|done|done| |done].
        intros n' g' Hu Hset Hgot Hput. rewrite put_push, put_pops, Hw in Hput.
        apply (Hend n' g' ys (user_state n) y); [done| |by rewrite Hu|done].
        rewrite Hgot, got_push, data_got_pops, Hvs, app_nil_r. done.
      * apply Hstop. split; [by apply Hok|done].
    + intros u e. apply Hstop. split; [by apply Hok|by eapply out_ok_pops].
  - intros col k vs Ha Hin'. apply Hstop. split; [done|]. by eapply out_ok_pops.
Qed.

(** ** Sinks *)

Lemma work_Sink_spec (consume : T → M T U unit) (R : U → T → U → unit → Prop) qi u0 n g
    (Φ : node T U → attempt unit → ghost T → Prop) :
  (∀ x, user_action (consume x) (λ u u' y, R u x u' y)) →
  in_ok n g → inq n = Some qi → opened g = ∅ →
  (∃ ys, folds R u0 (data (got qi (trace g))) ys (user_state n)) →
  (∀ n g ys, settled g → folds R u0 (data (got qi (trace g))) ys (user_state n) →
     Φ n (Value tt) g) →
  (∀ n e g, in_ok n g → opened g = ∅ → Φ n (Raised e) g) →
  wpM (work_Sink GetTransferredBytes consume) n g Φ.
Proof.
  intros Huser Hin Hqi Hout Hf Hend Hstop.
  apply (wpM_while_true (λ n g, in_ok n g ∧ inq n = Some qi ∧ opened g = ∅ ∧
    ∃ ys, folds R u0 (data (got qi (trace g))) ys (user_state n))); [|done].
  clear n g Hin Hqi Hout Hf. intros n g (Hin & Hqi & Hout & ys & Hf).
  wp_step. apply (Pop_in qi); [done|done|..].
  - intros col k x vs Hvs Hin'. wp_step. apply Huser.
    + intros u b HR. wp_step. repeat split; try done; [by rewrite opened_pops|].
      rewrite data_got_pops, Hvs. exists (ys ++ [b]). by econstructor.
    + intros u e. apply Hstop; [done|]. by rewrite opened_pops.
  - intros col vs Hvs Hrem. wp_step. apply (Hend _ _ ys).
    + split; [done|]. by rewrite opened_pops.
    + rewrite data_got_pops, Hvs, app_nil_r. done.
  - intros col k vs Ha Hin'. apply Hstop; [done|]. by rewrite opened_pops.
Qed.

Lemma work_ChannelSink_spec qi qo n g (Φ : node T U → attempt unit → ghost T → Prop) :
  loop_inv qi qo (λ u xs w, w = Some <$> xs) n g →
  (∀ n g, (∀ q, remaining g !!! q = 0) → out_ok n g → outq n = Some qo →
     put qo (trace g) = Some <$> data (got qi (trace g)) → Φ n (Value tt) g) →
  (∀ n e g, stopped n g → Φ n (Raised e) g) →
  wpM (work_Sink GetTransferredBytes (λ x, Push_port GetTransferredBytes (Some x) RefOutput)) n g Φ.
Proof.
  intros Hinv Hend Hstop. eapply wpM_while_true; [|exact Hinv].
  clear n g Hinv. intros n g (Hin & Hout & Hqi & Hqo & Hw).
  wp_step. apply (Pop_in qi); [done|done|..].
  - intros col k x vs Hvs Hin'.
    apply (Push_value_inv qi qo (λ u xs w, w = Some <$> xs));
      [done|by eapply out_ok_pops|done|done| |done|done].
    by rewrite put_pops, data_got_pops, Hvs, Hw, fmap_app.
  - intros col vs Hvs Hrem. wp_step. apply Hend; [done|by eapply out_ok_pops|done|].
    by rewrite put_pops, data_got_pops, Hvs, app_nil_r.
  - intros col k vs Ha Hin'. apply Hstop. split; [done|]. by eapply out_ok_pops.
Qed.

(** ** Sources *)

Lemma work_Source_spec (generate : M T U (option T)) (R : U → U → option T → Prop) qo u0 n g
    (Φ : node T U → attempt unit → ghost T → Prop) :
  user_action generate R →
  (∀ q, remaining g !!! q = 0) → out_ok n g → outq n = Some qo →
  (∃ xs, generates R u0 xs (user_state n) ∧ put qo (trace g) = Some <$> xs) →
  (∀ n g xs u, settled g → generates R u0 xs u → R u (user_state n) None →
     put qo (trace g) = ended xs → Φ n (Value tt) g) →
  (∀ n e g, (∀ q, remaining g !!! q = 0) → out_ok n g → Φ n (Raised e) g) →
  wpM (work_Source GetTransferredBytes generate) n g Φ.
Proof.
  intros Huser Hrem Hout Hqo Hf Hend Hstop.
  apply (wpM_while_true (λ n g, (∀ q, remaining g !!! q = 0) ∧ out_ok n g ∧ outq n = Some qo ∧
    ∃ xs, generates R u0 xs (user_state n) ∧ put qo (trace g) = Some <$> xs)); [|done].
  clear n g Hrem Hout Hqo Hf. intros n g (Hrem & Hout & Hqo & xs & Hf & Hw).
  wp_step. apply Huser.
  - intros u v HR. cbv zeta. wp_step. apply (Push_out _ qo); [done|done|].
    intros col res Hres n' Hout'. destruct Hres as [->|[-> _]]; [|by apply Hstop].
    destruct v as [x|]; cbn [is_eof]; wp_step.
    + repeat split; try done. exists (xs ++ [x]).
      split; [by econstructor|]. by rewrite put_push, Hw, fmap_app.
    + apply (Hend _ _ xs (user_state n)); [by split|done|done|]. by rewrite put_push, Hw.
  - intros u e. by apply Hstop.
Qed.

Lemma work_ChannelSource_spec qi qo n g (Φ : node T U → attempt unit → ghost T → Prop) :
  loop_inv qi qo (λ u xs w, w = Some <$> xs) n g →
  (∀ n g, settled g → put qo (trace g) = ended (data (got qi (trace g))) → Φ n (Value tt) g) →
  (∀ n e g, stopped n g → Φ n (Raised e) g) →
  wpM (work_Source GetTransferredBytes (Pop_port GetTransferredBytes RefInput)) n g Φ.
Proof.
  intros Hinv Hend Hstop. eapply wpM_while_true; [|exact Hinv].
  clear n g Hinv. intros n g (Hin & Hout & Hqi & Hqo & Hw).
  wp_step. apply (Pop_in qi); [done|done|..].
  - intros col k x vs Hvs Hin'. cbv zeta. cbn [is_eof].
    apply (Push_value_inv qi qo (λ u xs w, w = Some <$> xs));
      [done|by eapply out_ok_pops|done|done| |done|done].
    by rewrite put_pops, data_got_pops, Hvs, Hw, fmap_app.
  - intros col vs Hvs Hrem. cbv zeta. cbn [is_eof].
    apply (Push_eof_end qi qo); [done|done|by eapply out_ok_pops|done| |done].
    intros n' g' _ Hset Hgot Hput. apply Hend; [done|].
    by rewrite Hput, Hgot, put_pops, data_got_pops, Hvs, app_nil_r, Hw.
  - intros col k vs Ha Hin'. apply Hstop. split; [done|]. by eapply out_ok_pops.
Qed.

(** ** Several outputs *)

Definition outs n : list (option qid) := queue_ptr <$> outputs_ n.
Definition ins n : list (option qid) := queue_ptr <$> inputs_ n.

Lemma ptrs_omap l : ptrs l = omap id (queue_ptr <$> l).
Proof. induction l as [|c l IH]; simpl; [done|]. unfold ptrs in *. simpl. by rewrite IH. Qed.

Definition outs_ok n g : Prop :=
  NoDup (omap id (outs n)) ∧ opened g = list_to_set (omap id (outs n)) ∧
  Z.of_nat (length (outputs_ n)) = output_size_ n.

(** What an operation on the outputs leaves alone. *)
Record keeps_in n n' : Prop := {
  keeps_input_port : input_port n' = input_port n;
  keeps_input_count : input_count_ n' = input_count_ n;
  keeps_user_state : user_state n' = user_state n;
  keeps_output_size : output_size_ n' = output_size_ n;
  keeps_abort : abort_port n' = abort_port n;
}.

Lemma in_ok_keeps n n' g g' :
  in_ok n g → keeps_in n n' → remaining g' = remaining g → in_ok n' g'.
Proof. unfold in_ok, inq. intros Hin [-> -> _ _ _] ->. done. Qed.

Lemma omap_id_app (l l' : list (option qid)) : omap id (l ++ l') = omap id l ++ omap id l'.
Proof. apply omap_app. Qed.

Lemma omap_id_Some (qs : list qid) : omap id (Some <$> qs) = qs.
Proof. induction qs as [|q qs IH]; simpl; [done|]. by f_equal. Qed.

Lemma omap_id_None j : omap id (replicate j (@None qid)) = [].
Proof. by induction j. Qed.

(** Closing one port of a list of ports with distinct queues. *)
Lemma live_insert_None (l : list (option qid)) i q :
  l !! i = Some (Some q) → NoDup (omap id l) →
  NoDup (omap id (<[i:=None]> l)) ∧ q ∈ omap id l ∧
  list_to_set (C := gset qid) (omap id (<[i:=None]> l)) = list_to_set (omap id l) ∖ {[q]}.
Proof.
  intros Hi. assert (i < length l) as Hlt by (by eapply lookup_lt_Some).
  rewrite insert_take_drop by done. rewrite <- (take_drop_middle l i (Some q) Hi) at 1 4 7.
  generalize (take i l) (drop (S i) l). intros l1 l2. rewrite !omap_id_app. simpl. intros Hnd.
  apply NoDup_app in Hnd as (H1 & H2 & H3). apply NoDup_cons in H3 as [H3 H4].
  assert (q ∉ omap id l1) as Hq by (intros Hq; apply (H2 q Hq); set_solver).
  split; [|split; [set_solver|]].
  - apply NoDup_app. split; [done|]. split; [|done]. intros x Hx Hx'. apply (H2 x Hx). set_solver.
  - rewrite !list_to_set_app_L, list_to_set_cons.
    apply set_eq. intros x. rewrite !elem_of_difference, !elem_of_union, !elem_of_list_to_set, elem_of_singleton.
    destruct (decide (x = q)) as [->|]; naive_solver.
Qed.

Lemma length_outs n : length (outs n) = length (outputs_ n).
Proof. apply length_fmap. Qed.

Lemma wpM_GetChannel_out i p n g (Φ : node T U → attempt chan_ref → ghost T → Prop) :
  outs n !! i = Some p →
  (∀ n', keeps_in n n' → outs n' = outs n → queue_ptr (chan (RefOutputs i) n') = p →
     Φ n' (Value (RefOutputs i)) g) →
  wpM (GetChannel_out (Z.of_nat i)) n g Φ.
Proof.
  intros (c & -> & Hi)%list_lookup_fmap_Some HΦ.
  assert (i < length (outputs_ n)) as Hlt by (by eapply lookup_lt_Some).
  unfold GetChannel_out. wp_step. wp_step. rewrite decide_True by lia.
  rewrite Nat2Z.id. wp_step. wp_step. wp_step. apply HΦ; [done|..].
  - unfold outs. simpl. rewrite list_fmap_insert. apply list_insert_id.
    simpl. by rewrite list_lookup_fmap, Hi.
  - simpl. rewrite list_lookup_insert_eq by done. simpl. by rewrite Hi.
Qed.

(** [Push] to the output [i], after [GetChannel(i)]. *)
Lemma Push_outs_get v i q n g (Φ : node T U → attempt unit → ghost T → Prop) :
  outs_ok n g → outs n !! i = Some (Some q) →
  (∀ n' res, res = Value tt ∨ (res = Raised "throw by abort channel" ∧ queue_ptr (abort_port n) ≠ None) →
     keeps_in n n' → outs n' = (if is_eof v then <[i:=None]> (outs n) else outs n) →
     outs_ok n' (after_push q v g) → Φ n' res (after_push q v g)) →
  wpM (GetChannel_out (Z.of_nat i)) n g (λ n1 r g1, match r with
    | Value o => wpM (Push_port GetTransferredBytes v o) n1 g1 Φ
    | Raised e => Φ n1 (Raised e) g1
    end).
Proof.
  intros (Hnd & Hop & Hlen) Hi HΦ.
  destruct (live_insert_None _ _ _ Hi Hnd) as (Hnd' & Hel & Hset).
  apply (wpM_GetChannel_out _ (Some q)); [done|].
  intros n1 [Hk1 Hk2 Hk3 Hk4 Hk5] Houts Hptr.
  apply (Push_port_spec _ (RefOutputs i) q); [done|rewrite Hop; by apply elem_of_list_to_set|].
  rewrite Hk5. intros col res Hres. rewrite <- length_outs, <- Houts in Hlen.
  set (n' := set_collector _ _).
  assert (outs n' = (if is_eof v then <[i:=None]> (outs n) else outs n)) as Houts'.
  { unfold n'. destruct v as [x|]; cbn [is_eof]; [done|].
    unfold outs at 1. simpl. rewrite list_fmap_insert. simpl. by rewrite <- Houts. }
  assert (keeps_in n n') as Hk by (unfold n'; by destruct v).
  apply HΦ; [done|done|done|]. split; [|split].
  - rewrite Houts'. by destruct v.
  - rewrite Houts'. simpl. rewrite Hop. by destruct v.
  - rewrite <- length_outs, Houts', (keeps_output_size _ _ Hk), <- Hlen.
    rewrite Houts. by destruct v; cbn [is_eof]; rewrite ?length_insert.
Qed.

Lemma Push_outs v i q n g (Φ : node T U → attempt unit → ghost T → Prop) :
  outs_ok n g → outs n !! i = Some (Some q) →
  (∀ n' res, res = Value tt ∨ (res = Raised "throw by abort channel" ∧ queue_ptr (abort_port n) ≠ None) →
     keeps_in n n' → outs n' = (if is_eof v then <[i:=None]> (outs n) else outs n) →
     outs_ok n' (after_push q v g) → Φ n' res (after_push q v g)) →
  wpM (o ← GetChannel_out (Z.of_nat i); Push_port GetTransferredBytes v o) n g Φ.
Proof. intros. wp_step. by eapply Push_outs_get. Qed.

Lemma Push_outs_then {B} v i q (k : M T U B) n g (Φ : node T U → attempt B → ghost T → Prop) :
  outs_ok n g → outs n !! i = Some (Some q) →
  (∀ n' res, res = Value tt ∨ (res = Raised "throw by abort channel" ∧ queue_ptr (abort_port n) ≠ None) →
     keeps_in n n' → outs n' = (if is_eof v then <[i:=None]> (outs n) else outs n) →
     outs_ok n' (after_push q v g) →
     match res with
     | Value _ => wpM k n' (after_push q v g) Φ
     | Raised e => Φ n' (Raised e) (after_push q v g)
     end) →
  wpM (o ← GetChannel_out (Z.of_nat i); Push_port GetTransferredBytes v o ;; k) n g Φ.
Proof.
  intros Hok Hi HΦ. wp_step.
  apply (wpM_mono _ _ _ (λ n1 r g1, match r with
    | Value o => wpM (Push_port GetTransferredBytes v o) n1 g1
        (λ n2 r2 g2, match r2 with Value _ => wpM k n2 g2 Φ | Raised e => Φ n2 (Raised e) g2 end)
    | Raised e => Φ n1 (Raised e) g1
    end)).
  - intros n1 [o|e] g1 Hw; [by apply wpM_bind|done].
  - apply (Push_outs_get v i q _ _
      (λ n2 r2 g2, match r2 with Value _ => wpM k n2 g2 Φ | Raised e => Φ n2 (Raised e) g2 end)); auto.
Qed.

(** The ports after [j] of the outputs have been given [v]. *)
Definition outs_after (v : option T) (j : nat) (qs : list qid) : list (option qid) :=
  if is_eof v then replicate j None ++ (Some <$> drop j qs) else Some <$> qs.

Lemma outs_after_lookup v j qs q :
  qs !! j = Some q → outs_after v j qs !! j = Some (Some q).
Proof.
  intros Hq. unfold outs_after. destruct v; simpl; [by rewrite list_lookup_fmap, Hq|].
  rewrite lookup_app_r by (rewrite length_replicate; lia).
  rewrite length_replicate, Nat.sub_diag, list_lookup_fmap, lookup_drop, Nat.add_0_r, Hq. done.
Qed.

Lemma outs_after_S v j qs q :
  qs !! j = Some q →
  (if is_eof v then <[j:=None]> (outs_after v j qs) else outs_after v j qs) = outs_after v (S j) qs.
Proof.
  intros Hq. unfold outs_after. destruct v as [x|]; cbn [is_eof]; [done|].
  rewrite insert_app_r_alt by (rewrite length_replicate; lia).
  rewrite length_replicate, Nat.sub_diag, (drop_S _ q) by done.
  by rewrite replicate_S_end, <- app_assoc.
Qed.

(** Pushing [v] to all outputs in order. *)
Lemma push_all_spec v qs (w : qid → list (option T)) (body : Z → M T U unit) n g
    (Φ : node T U → attempt unit → ghost T → Prop) :
  (∀ i n g Φ, wpM (o ← GetChannel_out i; Push_port GetTransferredBytes v o) n g Φ →
     wpM (body i) n g Φ) →
  outs_ok n g → outs n = Some <$> qs → (∀ q, q ∈ qs → put q (trace g) = w q) →
  (∀ n' g', keeps_in n n' → outs_ok n' g' → outs n' = outs_after v (length qs) qs →
     remaining g' = remaining g → (∀ q, got q (trace g') = got q (trace g)) →
     (∀ q, q ∈ qs → put q (trace g') = w q ++ [v]) → Φ n' (Value tt) g') →
  (∀ n' g' e, keeps_in n n' → outs_ok n' g' → remaining g' = remaining g → Φ n' (Raised e) g') →
  wpM (for_upto (output_size_ n) body) n g Φ.
Proof.
  intros Hbody Hok Houts Hw Hend Hstop.
  assert (NoDup qs ∧ output_size_ n = Z.of_nat (length qs)) as [Hnd Hsize].
  { destruct Hok as (Hnd & _ & Hlen). rewrite Houts, omap_id_Some in Hnd. split; [done|].
    rewrite <- Hlen. f_equal. apply (f_equal length) in Houts. unfold outs in Houts.
    by rewrite !length_fmap in Houts. }
  unfold for_upto, indices. rewrite Hsize, Nat2Z.id.
  apply (wpM_for_each (λ l n1 g1, ∃ j, j ≤ length qs ∧ l = Z.of_nat <$> seq j (length qs - j) ∧
    keeps_in n n1 ∧ outs_ok n1 g1 ∧ outs n1 = outs_after v j qs ∧ remaining g1 = remaining g ∧
    (∀ q, got q (trace g1) = got q (trace g)) ∧
    ∀ i q, qs !! i = Some q → put q (trace g1) = w q ++ (if decide (i < j) then [v] else []))).
  - intros i l n1 g1 (j & Hj & Hl & Hk & Hok1 & Houts1 & Hr1 & Hg1 & Hp1).
    destruct (length qs - j) as [|m] eqn:Hm; [done|]. injection Hl as -> ->.
    destruct (lookup_lt_is_Some_2 qs j) as [q Hq]; [lia|].
    apply Hbody. apply (Push_outs v j q); [done|by rewrite Houts1; apply outs_after_lookup|].
    rewrite Houts1, (outs_after_S _ _ _ q) by done.
    intros n' res Hres Hk' Houts' Hok'.
    assert (keeps_in n n') as Hk'' by (destruct Hk, Hk'; split; congruence).
    destruct Hres as [->|[-> _]]; [|by apply Hstop].
    exists (S j). split; [lia|]. replace (length qs - S j) with m by lia. split; [done|].
    refine (conj Hk'' (conj Hok' (conj Houts' (conj Hr1 (conj _ _))))).
    { intros. by rewrite got_push. }
    intros i q' Hq'. destruct (decide (i = j)) as [->|Hne].
    + simplify_eq. rewrite put_push, (Hp1 j q) by done.
      rewrite decide_False, decide_True by lia. by rewrite app_nil_r.
    + rewrite put_push_ne by (intros ->; apply Hne; by eapply NoDup_lookup).
      rewrite (Hp1 i q') by done. repeat case_decide; try done; lia.
  - intros n1 g1 (j & Hj & Hl & Hk & Hok1 & Houts1 & Hr1 & Hg1 & Hp1).
    assert (j = length qs) as ->.
    { destruct (length qs - j) eqn:Hm; [lia|done]. }
    apply Hend; try done. intros q (i & Hi)%list_elem_of_lookup_1.
    rewrite (Hp1 i q Hi), decide_True; [done|]. by eapply lookup_lt_Some.
  - exists 0. rewrite Nat.sub_0_r. split; [lia|]. split; [done|]. split; [done|]. split; [done|].
    split; [rewrite Houts; unfold outs_after; by destruct v|]. split; [done|]. split; [done|].
    intros i q Hq. rewrite decide_False, app_nil_r by lia. apply Hw.
    by eapply list_elem_of_lookup_2.
Qed.

Definition stopped_multi n g : Prop := in_ok n g ∧ outs_ok n g.

Lemma outs_ok_pops q vs n n' g :
  outs_ok n g → outputs_ n' = outputs_ n → output_size_ n' = output_size_ n → outs_ok n' (pops q vs g).
Proof. unfold outs_ok, outs. intros (? & ? & ?) -> ->. by rewrite opened_pops. Qed.

Lemma outs_closed n g qs : outs_ok n g → outs n = outs_after None (length qs) qs → opened g = ∅.
Proof.
  intros (_ & -> & _) ->. unfold outs_after. cbn [is_eof].
  rewrite omap_id_app, omap_id_None, drop_ge by done. done.
Qed.

(** The end of [Dispatch::work] and [Fork::work]. *)
Lemma push_all_eof_spec qi qs (w : qid → list (option T)) n g
    (Φ : node T U → attempt (unit + unit) → ghost T → Prop) :
  inq n = None → (∀ q, remaining g !!! q = 0) → outs_ok n g → outs n = Some <$> qs →
  (∀ q, q ∈ qs → put q (trace g) = w q) →
  (∀ n' g', settled g' → user_state n' = user_state n → got qi (trace g') = got qi (trace g) →
     (∀ q, q ∈ qs → put q (trace g') = w q ++ [None]) → Φ n' (Value (inr tt)) g') →
  (∀ n e g, stopped_multi n g → Φ n (Raised e) g) →
  wpM (_ ← push_all_eof GetTransferredBytes; mret (inr tt)) n g Φ.
Proof.
  intros Hqi Hrem Hok Houts Hw Hend Hstop. unfold push_all_eof. do 3 wp_step.
  apply (push_all_spec None qs w); [done|done|done|done|..].
  - intros n' g' Hk Hok' Houts' Hr Hg Hp. wp_step. apply Hend; [|apply Hk|apply Hg|done].
    split; [by rewrite Hr|]. by eapply outs_closed.
  - intros n' g' e Hk Hok' Hr. apply Hstop. split; [|done].
    apply (in_ok_keeps n n' g g'); [|done|done]. unfold in_ok. by rewrite Hqi.
Qed.

Lemma work_Fork_spec qi qs n g (Φ : node T U → attempt unit → ghost T → Prop) :
  in_ok n g → inq n = Some qi → outs_ok n g → outs n = Some <$> qs →
  (∀ q, q ∈ qs → put q (trace g) = Some <$> data (got qi (trace g))) →
  (∀ n g, settled g → (∀ q, q ∈ qs → put q (trace g) = ended (data (got qi (trace g)))) →
     Φ n (Value tt) g) →
  (∀ n e g, stopped_multi n g → Φ n (Raised e) g) →
  wpM (work_Fork GetTransferredBytes) n g Φ.
Proof.
  intros Hin Hqi Hok Houts Hput Hend Hstop.
  apply (wpM_while_true (λ n g, in_ok n g ∧ inq n = Some qi ∧ outs_ok n g ∧ outs n = Some <$> qs ∧
    ∀ q, q ∈ qs → put q (trace g) = Some <$> data (got qi (trace g)))); [|done].
  clear n g Hin Hqi Hok Houts Hput. intros n g (Hin & Hqi & Hok & Houts & Hput).
  wp_step. apply (Pop_in qi); [done|done|..].
  - intros col k x vs Hvs Hin'. do 3 wp_step.
    apply (push_all_spec (Some x) qs (λ _, Some <$> data (got qi (trace g))));
      [|by eapply outs_ok_pops|done|intros q Hq; rewrite put_pops; auto|..].
    + intros i n1 g1 Φ1 Hw. unfold copy_. by case_decide.
    + intros n' g' Hk Hok' Houts' Hr Hg Hp. wp_step.
      split; [by eapply (in_ok_keeps _ _ _ _ Hin')|].
      split; [unfold inq; by rewrite (keeps_input_port _ _ Hk)|].
      split; [done|]. split; [done|]. intros q Hq.
      by rewrite Hp, Hg, data_got_pops, Hvs, fmap_app by done.
    + intros n' g' e Hk Hok' Hr. apply Hstop. split; [|done]. by eapply (in_ok_keeps _ _ _ _ Hin').
  - intros col vs Hvs Hrem.
    apply (push_all_eof_spec qi qs (λ _, Some <$> data (got qi (trace g))));
      [done|done|by eapply outs_ok_pops|done|intros q Hq; rewrite put_pops; auto| |done].
    intros n' g' Hset Hu Hgot Hp. apply Hend; [done|]. intros q Hq.
    by rewrite Hp, Hgot, data_got_pops, Hvs, app_nil_r by done.
  - intros col k vs Ha Hin'. apply Hstop. split; [done|]. by eapply outs_ok_pops.
Qed.

Lemma dispatched_snoc size i xs ds x d :
  length xs = length ds →
  dispatched size i (xs ++ [x]) (ds ++ [d]) =
    dispatched size i xs ds ++ (if decide (u64 d `mod` size = i)%Z then [x] else []).
Proof.
  intros Hl. unfold dispatched. rewrite zip_with_app by done. rewrite filter_app, fmap_app.
  f_equal. cbn [zip_with]. rewrite filter_cons, filter_nil. by repeat case_decide.
Qed.

Lemma outs_length n g qs :
  outs_ok n g → outs n = Some <$> qs → output_size_ n = Z.of_nat (length qs).
Proof.
  intros (_ & _ & <-) Houts. f_equal. apply (f_equal length) in Houts. unfold outs in Houts.
  by rewrite !length_fmap in Houts.
Qed.

Lemma outs_NoDup n g qs : outs_ok n g → outs n = Some <$> qs → NoDup qs.
Proof. intros (Hnd & _) Houts. by rewrite Houts, omap_id_Some in Hnd. Qed.

(** The invariant of the loop of [Dispatch::work]. *)
Definition dispatch_inv (R : U → T → U → Z → Prop) qi qs u0 n g : Prop :=
  in_ok n g ∧ inq n = Some qi ∧ outs_ok n g ∧ outs n = Some <$> qs ∧
  ∃ ds, folds R u0 (data (got qi (trace g))) ds (user_state n) ∧
    ∀ i q, qs !! i = Some q →
      put q (trace g) = Some <$> dispatched (Z.of_nat (length qs)) (Z.of_nat i) (data (got qi (trace g))) ds.

Lemma Dispatch_value_spec (R : U → T → U → Z → Prop) qi qs u0 n g ds d x u1
    (Φ : node T U → attempt (unit + unit) → ghost T → Prop) :
  0 < length qs →
  in_ok n g → inq n = Some qi → outs_ok n g → outs n = Some <$> qs →
  (∃ xs, data (got qi (trace g)) = xs ++ [x] ∧ folds R u0 xs ds u1 ∧ R u1 x (user_state n) d ∧
    ∀ i q, qs !! i = Some q →
      put q (trace g) = Some <$> dispatched (Z.of_nat (length qs)) (Z.of_nat i) xs ds) →
  (∀ n g, dispatch_inv R qi qs u0 n g → Φ n (Value (inl tt)) g) →
  (∀ n e g, stopped_multi n g → Φ n (Raised e) g) →
  wpM (size ← gets output_size_;
       if decide (size = 0)%Z then die UndefinedBehaviour else
       output ← GetChannel_out (u64 d `mod` size)%Z;
       Push_port GetTransferredBytes (Some x) output ;; mret (inl tt)) n g Φ.
Proof.
  intros Hpos Hin Hqi Hok Houts (xs & Hxs & Hf & HR & Hput) Hgo Hstop. do 2 wp_step.
  rewrite (outs_length _ _ _ Hok Houts), decide_False by lia.
  pose proof (Z.mod_pos_bound (u64 d) (Z.of_nat (length qs)) ltac:(lia)) as Hb.
  set (j := Z.to_nat (u64 d `mod` Z.of_nat (length qs))).
  assert (u64 d `mod` Z.of_nat (length qs) = Z.of_nat j)%Z as Hj by lia. rewrite Hj. clearbody j.
  destruct (lookup_lt_is_Some_2 qs j) as [q Hq]; [lia|].
  assert (outs n !! j = Some (Some q)) as Hoj by (by rewrite Houts, list_lookup_fmap, Hq).
  apply (Push_outs_then (Some x) j q); [done|done|]. cbn [is_eof].
  intros n' res Hres Hk Houts' Hok'. destruct Hres as [->|[-> _]].
  2:{ apply Hstop. split; [|done]. by eapply in_ok_keeps. }
  wp_step. apply Hgo. split; [by eapply in_ok_keeps|].
  split; [unfold inq; by rewrite (keeps_input_port _ _ Hk)|]. split; [done|].
  split; [by rewrite Houts'|]. exists (ds ++ [d]). rewrite got_push, Hxs, (keeps_user_state _ _ Hk).
  split; [by econstructor|]. intros i q' Hq'.
  rewrite dispatched_snoc, Hj by (by eapply folds_length). rewrite fmap_app, <- (Hput i q' Hq').
  destruct (decide (i = j)) as [->|Hne].
  - simplify_eq. rewrite put_push, decide_True by done. done.
  - rewrite put_push_ne, decide_False, app_nil_r; [done|lia|].
    intros ->. apply Hne. eapply NoDup_lookup; eauto using outs_NoDup.
Qed.

Lemma work_Dispatch_spec (dispatch : T → M T U Z) (R : U → T → U → Z → Prop) qi qs u0 n g
    (Φ : node T U → attempt unit → ghost T → Prop) :
  0 < length qs →
  (∀ x, user_action (dispatch x) (λ u u' y, R u x u' y)) →
  dispatch_inv R qi qs u0 n g →
  (∀ n g ds, settled g → folds R u0 (data (got qi (trace g))) ds (user_state n) →
     (∀ i q, qs !! i = Some q →
        put q (trace g)
        = ended (dispatched (Z.of_nat (length qs)) (Z.of_nat i) (data (got qi (trace g))) ds)) →
     Φ n (Value tt) g) →
  (∀ n e g, stopped_multi n g → Φ n (Raised e) g) →
  wpM (work_Dispatch GetTransferredBytes dispatch) n g Φ.
Proof.
  intros Hpos Huser Hinv Hend Hstop. eapply wpM_while_true; [|exact Hinv].
  clear n g Hinv. intros n g (Hin & Hqi & Hok & Houts & ds & Hf & Hput).
  wp_step. apply (Pop_in qi); [done|done|..].
  - intros col k x vs Hvs Hin'. wp_step. apply Huser.
    + intros u d HR.
      apply (Dispatch_value_spec R qi qs u0 _ _ ds d x (user_state n));
        [done|done|done|by eapply outs_ok_pops|done| |done|done].
      exists (data (got qi (trace g))). rewrite data_got_pops, Hvs. split; [done|].
      split; [done|]. split; [done|]. intros i q Hq. by rewrite put_pops, (Hput i q).
    + intros u e. apply Hstop. split; [done|]. by eapply outs_ok_pops.
  - intros col vs Hvs Hrem.
    apply (push_all_eof_spec qi qs (λ q, put q (trace g)));
      [done|done|by eapply outs_ok_pops|done|intros; by rewrite put_pops| |done].
    intros n' g' Hset Hu Hgot Hp.
    pose proof (data_got_pops qi vs g) as Hd. rewrite Hvs, app_nil_r in Hd.
    apply (Hend n' g' ds); [done|by rewrite Hgot, Hu, Hd|].
    intros i q Hq. rewrite Hgot, Hd, Hp by (by eapply list_elem_of_lookup_2).
    by rewrite (Hput i q).
  - intros col k vs Ha Hin'. apply Hstop. split; [done|]. by eapply outs_ok_pops.
Qed.

Lemma NoDup_live_drop (l : list (option qid)) j : NoDup (omap id l) → NoDup (omap id (drop j l)).
Proof.
  rewrite <- (take_drop j l) at 1. rewrite omap_id_app. intros (_ & _ & ?)%NoDup_app. done.
Qed.

Lemma live_drop_Some (l : list (option qid)) j q :
  l !! j = Some (Some q) → NoDup (omap id l) →
  omap id (drop j l) = q :: omap id (drop (S j) l) ∧ q ∉ omap id (drop (S j) l).
Proof.
  intros Hj Hnd%(NoDup_live_drop _ j). rewrite (drop_S _ (Some q)) in * by done. simpl in Hnd.
  apply NoDup_cons in Hnd as [? ?]. done.
Qed.

(** Hosted mode of [Dispatch] and [Fork]. *)
Lemma close_outs_spec n g (Φ : node T U → attempt unit → ghost T → Prop) :
  outs_ok n g → (∀ q, remaining g !!! q = 0) →
  (∀ n' g', settled g' → Φ n' (Value tt) g') →
  wpM (for_upto (output_size_ n) (λ i, output ← GetChannel_out i; close_output output)) n g Φ.
Proof.
  intros (Hnd & Hop & Hlen) Hrem Hend. unfold for_upto, indices.
  rewrite <- Hlen, Nat2Z.id, <- length_outs. set (m := length (outs n)).
  apply (wpM_for_each (λ l n1 g1, ∃ j, j ≤ m ∧ l = Z.of_nat <$> seq j (m - j) ∧
    outs n1 = outs n ∧ (∀ q, remaining g1 !!! q = 0) ∧
    opened g1 = list_to_set (omap id (drop j (outs n))))).
  - intros i l n1 g1 (j & Hj & Hl & Houts1 & Hr1 & Ho1).
    destruct (m - j) as [|m'] eqn:Hm; [done|]. injection Hl as -> ->.
    destruct (lookup_lt_is_Some_2 (outs n) j) as [p Hp]; [lia|].
    wp_step. apply (wpM_GetChannel_out _ p); [by rewrite Houts1|]. intros n2 _ Houts2 Hptr.
    apply close_output_spec. rewrite Hptr. rewrite (drop_S _ p) in Ho1 by done.
    assert (∀ g2, (∀ q, remaining g2 !!! q = 0) →
       opened g2 = list_to_set (omap id (drop (S j) (outs n))) →
       ∃ j', j' ≤ m ∧ Z.of_nat <$> seq (S j) m' = Z.of_nat <$> seq j' (m - j') ∧
         outs n2 = outs n ∧ (∀ q, remaining g2 !!! q = 0) ∧
         opened g2 = list_to_set (omap id (drop j' (outs n)))) as Hnext.
    { intros g2 Hr2 Ho2. exists (S j). replace (m - S j) with m' by lia.
      split; [lia|]. by rewrite Houts2. }
    destruct p as [q|]; [|by apply Hnext].
    destruct (live_drop_Some _ _ _ Hp Hnd) as [_ Hni]. simpl in Ho1.
    split; [rewrite Ho1; set_solver|]. apply Hnext; [done|]. simpl. rewrite Ho1. set_solver.
  - intros n1 g1 (j & Hj & Hl & _ & Hr1 & Ho1). apply Hend. split; [done|].
    destruct (m - j) eqn:Hm; [|done]. rewrite Ho1, drop_ge; [done|lia].
  - exists 0. rewrite Nat.sub_0_r. by repeat split; try lia.
Qed.

(** ** Several inputs *)

Definition ins_ok n g : Prop :=
  NoDup (omap id (ins n)) ∧
  (∀ q, remaining g !!! q = if decide (q ∈ omap id (ins n)) then 1 else 0) ∧
  Z.of_nat (length (inputs_ n)) = input_size_ n.

(** What an operation on the inputs leaves alone. *)
Record keeps_out n n' : Prop := {
  keeps_output_port : output_port n' = output_port n;
  keeps_user_state' : user_state n' = user_state n;
  keeps_input_size : input_size_ n' = input_size_ n;
  keeps_abort' : abort_port n' = abort_port n;
}.

Lemma keeps_out_trans n1 n2 n3 : keeps_out n1 n2 → keeps_out n2 n3 → keeps_out n1 n3.
Proof. intros [] []. split; congruence. Qed.

Lemma length_ins n : length (ins n) = length (inputs_ n).
Proof. apply length_fmap. Qed.

Lemma out_ok_keeps n n' g g' :
  out_ok n g → keeps_out n n' → opened g' = opened g → out_ok n' g'.
Proof. unfold out_ok, outq. intros Ho [-> _ _ _] ->. done. Qed.

Lemma wpM_GetChannel_in i p n g (Φ : node T U → attempt chan_ref → ghost T → Prop) :
  ins n !! i = Some p →
  (∀ n', keeps_out n n' → ins n' = ins n → queue_ptr (chan (RefInputs i) n') = p →
     Φ n' (Value (RefInputs i)) g) →
  wpM (GetChannel_in (Z.of_nat i)) n g Φ.
Proof.
  intros (c & -> & Hi)%list_lookup_fmap_Some HΦ.
  assert (i < length (inputs_ n)) as Hlt by (by eapply lookup_lt_Some).
  unfold GetChannel_in. wp_step. wp_step. rewrite decide_True by lia.
  rewrite Nat2Z.id. wp_step. wp_step. wp_step. apply HΦ; [done|..].
  - unfold ins. simpl. rewrite list_fmap_insert. apply list_insert_id.
    simpl. by rewrite list_lookup_fmap, Hi.
  - simpl. rewrite list_lookup_insert_eq by done. simpl. by rewrite Hi.
Qed.

Lemma ins_chan i q n : ins n !! i = Some (Some q) → queue_ptr (chan (RefInputs i) n) = Some q.
Proof. intros (c & -> & Hi)%list_lookup_fmap_Some. simpl. by rewrite Hi. Qed.

(** The expected ends of file after the one of [q] has been read. *)
Lemma ins_ok_close i q n n' g vs :
  ins_ok n g → ins n !! i = Some (Some q) → eofs vs = 1 →
  ins n' = <[i:=None]> (ins n) → input_size_ n' = input_size_ n →
  ins_ok n' (pops q vs g).
Proof.
  intros (Hnd & Hrem & Hlen) Hi Hvs Hins' Hsize.
  destruct (live_insert_None _ _ _ Hi Hnd) as (Hnd' & Hel & Hset).
  split; [by rewrite Hins'|]. split.
  - intros q'. rewrite Hins', remaining_pops, Hvs.
    assert (q' ∈ omap id (<[i:=None]> (ins n)) ↔ q' ∈ omap id (ins n) ∧ q' ≠ q) as Hiff.
    { rewrite <- !(elem_of_list_to_set (C := gset qid)), Hset. set_solver. }
    rewrite !Hrem. repeat case_decide; subst; naive_solver.
  - rewrite Hsize, <- Hlen, <- !length_ins, Hins'. by rewrite length_insert.
Qed.

Lemma ins_ok_same q n n' g vs :
  ins_ok n g → eofs vs = 0 → ins n' = ins n → input_size_ n' = input_size_ n →
  ins_ok n' (pops q vs g).
Proof.
  intros (Hnd & Hrem & Hlen) Hvs Hins' Hsize. split; [by rewrite Hins'|]. split.
  - intros q'. rewrite Hins', remaining_pops, Hvs, Nat.sub_0_r.
    case_decide; subst; apply Hrem.
  - by rewrite Hsize, <- Hlen, <- !length_ins, Hins'.
Qed.

(** [MultiIOneO::Pop] *)
Lemma Pop_ins i q n g (Φ : node T U → attempt (option T) → ghost T → Prop) :
  ins_ok n g → ins n !! i = Some (Some q) →
  (∀ n' x, keeps_out n n' → ins n' = ins n → ins_ok n' (pops q [Some x] g) →
     Φ n' (Value (Some x)) (pops q [Some x] g)) →
  (∀ n', keeps_out n n' → ins n' = <[i:=None]> (ins n) → ins_ok n' (pops q [None] g) →
     Φ n' (Value None) (pops q [None] g)) →
  (∀ n' vs, keeps_out n n' → ins_ok n' (pops q vs g) →
     Φ n' (Raised "throw by abort channel") (pops q vs g)) →
  wpM (Pop_multi GetTransferredBytes (RefInputs i)) n g Φ.
Proof.
  intros Hok Hi Hval Heof Habort. unfold Pop_multi. wp_step. wp_step.
  assert (remaining g !!! q = 1) as Hr.
  { destruct Hok as (Hnd & -> & _). rewrite decide_True; [done|]. by eapply live_insert_None. }
  apply (Pop_counted_spec _ (RefInputs i) RefLocalCount q 1); [by apply ins_chan|done|lia|done|..].
  - intros col j x Hj. assert (j = 0) as -> by lia. apply Hval; [done|done|].
    by apply (ins_ok_same q n).
  - intros col. apply Heof; [done| |].
    + unfold ins. simpl. by rewrite list_fmap_insert.
    + apply (ins_ok_close i q n); try done. unfold ins. simpl. by rewrite list_fmap_insert.
  - intros col vs Hvs Ha. apply Habort; [done|]. apply (ins_ok_same q n); try done. lia.
Qed.

(** The data read from the queues [qs], one queue after the other. *)
Definition streams (qs : list qid) tr : list T := concat ((λ q, data (got q tr)) <$> qs).

Lemma streams_nil qs tr :
  (∀ q, q ∈ qs → got q tr = []) → concat ((λ q, data (got q tr)) <$> qs) = [].
Proof.
  induction qs as [|q qs IH]; intros Hg; [done|]. simpl.
  rewrite Hg by (by left). simpl. apply IH. intros. apply Hg. by right.
Qed.

(** Reading more from queue [j] while nothing was read from the later ones. *)
Lemma streams_extend qs j q tr tr' vs :
  qs !! j = Some q → NoDup qs →
  (∀ i q', qs !! i = Some q' → j < i → got q' tr = []) →
  got q tr' = got q tr ++ vs → (∀ q', q' ≠ q → got q' tr' = got q' tr) →
  streams qs tr' = streams qs tr ++ data vs.
Proof.
  intros Hj Hnd Hlater Hq Hother. unfold streams.
  assert (j < length qs) as Hlt by (by eapply lookup_lt_Some).
  rewrite <- (take_drop_middle qs j q Hj) in Hnd |- *.
  apply NoDup_app in Hnd as (_ & Hd1 & [Hd2 _]%NoDup_cons).
  rewrite !fmap_app, !fmap_cons, !concat_app. simpl. rewrite Hq, data_app.
  assert ((λ q', data (got q' tr')) <$> take j qs = (λ q', data (got q' tr)) <$> take j qs) as ->.
  { apply list_fmap_ext. intros i q' Hi. f_equal. apply Hother. intros ->.
    eapply Hd1; [by eapply list_elem_of_lookup_2|by left]. }
  assert (∀ q', q' ∈ drop (S j) qs → got q' tr = []) as Hl.
  { intros q' (i & Hi)%list_elem_of_lookup_1. rewrite lookup_drop in Hi.
    eapply Hlater; [done|lia]. }
  rewrite (streams_nil (drop (S j) qs) tr) by done.
  rewrite (streams_nil (drop (S j) qs) tr'); [by rewrite !app_nil_r, <- app_assoc|].
  intros q' Hq'. rewrite Hother by (intros ->; done). by apply Hl.
Qed.

(** The invariant of [Concat::work]: inputs below [j] are closed, inputs from
    [j'] on have not been touched. *)
Definition concat_inv qs qo (j j' : nat) n g : Prop :=
  ins_ok n g ∧ ins n = outs_after None j qs ∧ out_ok n g ∧ outq n = Some qo ∧
  (∀ i q, qs !! i = Some q → j' ≤ i → got q (trace g) = []) ∧
  put qo (trace g) = Some <$> streams qs (trace g).

Definition stopped_ins n g : Prop := ins_ok n g ∧ out_ok n g.

(** Reading input [j] to its end. *)
Lemma concat_inner_spec qs qo j q n g (Φ : node T U → attempt unit → ghost T → Prop) :
  NoDup qs → qs !! j = Some q → concat_inv qs qo j (S j) n g →
  (∀ n g, concat_inv qs qo (S j) (S j) n g → Φ n (Value tt) g) →
  (∀ n e g, stopped_ins n g → Φ n (Raised e) g) →
  wpM (while_true (
      v ← Pop_multi GetTransferredBytes (RefInputs j);
      match v with
      | Some x => Push_port GetTransferredBytes (Some x) RefOutput ;; mret (inl tt)
      | None => mret (inr tt)
      end)) n g Φ.
Proof.
  intros Hnd Hj Hinv Hend Hstop. eapply wpM_while_true; [|exact Hinv].
  clear n g Hinv. intros n g (Hok & Hins & Hout & Hqo & Hlater & Hput).
  assert (∀ vs, streams qs (trace (pops q vs g)) = streams qs (trace g) ++ data vs) as Hstr.
  { intros vs. apply (streams_extend qs j q); try done;
      [apply got_pops|intros; by apply got_pops_ne]. }
  assert (∀ vs i q', qs !! i = Some q' → S j ≤ i → got q' (trace (pops q vs g)) = []) as Hlater'.
  { intros vs i q' Hi Hle. rewrite got_pops_ne; [by apply (Hlater i)|].
    intros ->. assert (i = j); [by eapply NoDup_lookup|lia]. }
  wp_step. apply (Pop_ins j q); [done|by rewrite Hins; apply outs_after_lookup|..].
  - intros n' x Hk Hins' Hok'. wp_step.
    apply (Push_out _ qo); [by eapply out_ok_keeps|unfold outq; by rewrite (keeps_output_port _ _ Hk)|].
    intros col res Hres n2 Hout2. destruct Hres as [->|[-> _]]; [wp_step|by apply Hstop].
    split; [done|]. split; [by rewrite <- Hins, <- Hins'|]. split; [done|].
    split; [unfold outq; simpl; by rewrite (keeps_output_port _ _ Hk)|].
    split; [intros i q' Hi Hle; rewrite got_push; by apply (Hlater' _ i)|].
    rewrite put_push, put_pops, Hput.
    assert (∀ g', streams qs (trace (after_push qo (Some x) g')) = streams qs (trace g')) as ->.
    { intros g'. unfold streams. f_equal. apply list_fmap_ext. intros. by rewrite got_push. }
    by rewrite Hstr, fmap_app.
  - intros n' Hk Hins' Hok'. wp_step. apply Hend. split; [done|].
    split; [rewrite Hins', Hins; by apply (outs_after_S None j qs q)|].
    split; [by eapply out_ok_keeps|].
    split; [unfold outq; by rewrite (keeps_output_port _ _ Hk)|].
    split; [intros i q' Hi Hle; by apply (Hlater' _ i)|].
    by rewrite put_pops, Hput, Hstr, app_nil_r.
  - intros n' vs Hk Hok'. apply Hstop. split; [done|]. eapply out_ok_keeps; [done|done|].
    by rewrite opened_pops.
Qed.

Lemma work_Concat_spec qs qo n g (Φ : node T U → attempt unit → ghost T → Prop) :
  NoDup qs → concat_inv qs qo 0 0 n g →
  (∀ n g, settled g → put qo (trace g) = ended (streams qs (trace g)) → Φ n (Value tt) g) →
  (∀ n e g, stopped_ins n g → Φ n (Raised e) g) →
  wpM (work_Concat GetTransferredBytes) n g Φ.
Proof.
  intros Hnd Hinv Hend Hstop. unfold work_Concat. wp_step. wp_step. wp_step.
  assert (input_size_ n = Z.of_nat (length qs)) as Hsize.
  { destruct Hinv as ((_ & _ & <-) & Hins & _). f_equal. rewrite <- length_ins, Hins. unfold outs_after. cbn [is_eof replicate app drop]. by rewrite length_fmap. }
  unfold for_upto, indices. rewrite Hsize, Nat2Z.id.
  apply (wpM_for_each (λ l n1 g1, ∃ j, j ≤ length qs ∧ l = Z.of_nat <$> seq j (length qs - j) ∧
    concat_inv qs qo j j n1 g1)).
  - intros i l n1 g1 (j & Hj & Hl & Hok & Hins & Hout & Hqo & Hlater & Hput).
    destruct (length qs - j) as [|m] eqn:Hm; [done|]. injection Hl as -> ->.
    destruct (lookup_lt_is_Some_2 qs j) as [q Hq]; [lia|].
    wp_step. apply (wpM_GetChannel_in _ (Some q)); [rewrite Hins; by apply outs_after_lookup|].
    intros n2 Hk Hins2 Hptr.
    apply (concat_inner_spec qs qo j q); [done|done|..|done].
    + split; [apply (ins_ok_same q n1 n2 g1 []); [done|done|done|apply Hk]|].
      split; [by rewrite Hins2|]. split; [by eapply out_ok_keeps|].
      split; [unfold outq; by rewrite (keeps_output_port _ _ Hk)|].
      split; [intros i q' Hi Hle; apply (Hlater i q' Hi); lia|done].
    + intros n3 g3 Hinv3. exists (S j). split; [lia|]. by replace (length qs - S j) with m by lia.
  - intros n1 g1 (j & Hj & Hl & Hok & Hins & Hout & Hqo & Hlater & Hput).
    destruct (length qs - j) eqn:Hm; [|done]. assert (j = length qs) as -> by lia.
    assert (∀ q, remaining g1 !!! q = 0) as Hrem.
    { destruct Hok as (_ & Hr & _). intros q. rewrite Hr, Hins. unfold outs_after. cbn [is_eof].
      rewrite omap_id_app, omap_id_None, drop_ge by done. by rewrite decide_False by set_solver. }
    apply (Push_out _ qo); [done|done|]. intros col res Hres n' Hout'. destruct Hres as [->|[-> _]].
    + apply Hend; [by split|]. rewrite put_push, Hput. unfold ended, streams. do 3 f_equal.
      apply list_fmap_ext. intros. by rewrite got_push.
    + apply Hstop. split; [|done]. apply (ins_ok_same 0 n1 n' (after_push qo None g1) []); done.
  - exists 0. rewrite Nat.sub_0_r. split; [lia|]. by split.
Qed.

(** Hosted mode of [Concat]. *)
Lemma close_ins_spec n g (Φ : node T U → attempt unit → ghost T → Prop) :
  ins_ok n g →
  (∀ n' g', (∀ q, remaining g' !!! q = 0) → opened g' = opened g → keeps_out n n' → Φ n' (Value tt) g') →
  wpM (for_upto (input_size_ n) (λ i,
         input ← GetChannel_in i; modify (set_local_count 1) ;; close_input input RefLocalCount)) n g Φ.
Proof.
  intros (Hnd & Hrem & Hlen) Hend. unfold for_upto, indices.
  rewrite <- Hlen, Nat2Z.id, <- length_ins. set (m := length (ins n)).
  apply (wpM_for_each (λ l n1 g1, ∃ j, j ≤ m ∧ l = Z.of_nat <$> seq j (m - j) ∧
    ins n1 = ins n ∧ keeps_out n n1 ∧ opened g1 = opened g ∧
    ∀ q, remaining g1 !!! q = if decide (q ∈ omap id (drop j (ins n))) then 1 else 0)).
  - intros i l n1 g1 (j & Hj & Hl & Hins1 & Hk1 & Ho1 & Hr1).
    destruct (m - j) as [|m'] eqn:Hm; [done|]. injection Hl as -> ->.
    destruct (lookup_lt_is_Some_2 (ins n) j) as [p Hp]; [lia|].
    wp_step. apply (wpM_GetChannel_in _ p); [by rewrite Hins1|]. intros n2 Hk2 Hins2 Hptr.
    wp_step. wp_step. rewrite (drop_S _ p) in Hr1 by done.
    assert (∀ k g2, opened g2 = opened g →
       (∀ q, remaining g2 !!! q = if decide (q ∈ omap id (drop (S j) (ins n))) then 1 else 0) →
       ∃ j', j' ≤ m ∧ Z.of_nat <$> seq (S j) m' = Z.of_nat <$> seq j' (m - j') ∧
         ins (set_local_count k n2) = ins n ∧ keeps_out n (set_local_count k n2) ∧ opened g2 = opened g ∧
         ∀ q, remaining g2 !!! q = if decide (q ∈ omap id (drop j' (ins n))) then 1 else 0) as Hnext.
    { intros k g2 Ho2 Hr2. exists (S j). replace (m - S j) with m' by lia. split; [lia|].
      split; [done|]. split; [by rewrite <- Hins1, <- Hins2|]. split; [|done].
      eapply keeps_out_trans; [done|]. by destruct Hk2. }
    destruct p as [q|].
    + destruct (live_drop_Some _ _ _ Hp Hnd) as [_ Hni]. simpl in Hr1.
      apply (close_input_spec (RefInputs j) RefLocalCount q 1); [done|done|lia|..].
      { rewrite Hr1, decide_True; [done|]. set_solver. }
      intros vs Hvs. apply Hnext; [by rewrite opened_pops|]. intros q'. rewrite remaining_pops, Hvs, !Hr1.
      repeat case_decide; subst; set_solver.
    + apply close_input_null; [done|]. by apply Hnext.
  - intros n1 g1 (j & Hj & Hl & _ & Hk1 & Ho1 & Hr1). apply Hend; [|done|done].
    destruct (m - j) eqn:Hm; [|done]. intros q. rewrite Hr1, drop_ge by lia.
    by rewrite decide_False by set_solver.
  - exists 0. rewrite Nat.sub_0_r. split; [lia|]. done.
Qed.

(** ** Hosted mode *)

Definition hosted (k : kind T U) n g : Prop :=
  ∀ col, wpM (hosted_mode k) (set_collector col n) g (λ _ r g', r = Value tt ∧ settled g').

Lemma hosted_in_out n g :
  stopped n g →
  wpM (close_input RefInput RefInputCount ;; close_output RefOutput) n g
    (λ _ r g', r = Value tt ∧ settled g').
Proof.
  intros [Hin Hout]. wp_step. apply close_in; [done|]. intros k g' Hr Ho.
  apply close_out; [unfold out_ok; by rewrite Ho|]. intros g'' Hr' Ho'. by repeat split; rewrite ?Hr'.
Qed.

Lemma hosted_sink n g :
  in_ok n g → opened g = ∅ →
  wpM (close_input RefInput RefInputCount) n g (λ _ r g', r = Value tt ∧ settled g').
Proof. intros Hin Ho. apply close_in; [done|]. intros k g' Hr Ho'. by repeat split; rewrite ?Ho'. Qed.

Lemma hosted_source n g :
  (∀ q, remaining g !!! q = 0) → out_ok n g →
  wpM (close_output RefOutput) n g (λ _ r g', r = Value tt ∧ settled g').
Proof. intros Hr Ho. apply close_out; [done|]. intros g' Hr' Ho'. by repeat split; rewrite ?Hr'. Qed.

Lemma hosted_outs n g :
  stopped_multi n g →
  wpM (close_input RefInput RefInputCount ;; size ← gets output_size_;
       for_upto size (λ i, output ← GetChannel_out i; close_output output)) n g
    (λ _ r g', r = Value tt ∧ settled g').
Proof.
  intros [Hin (Hnd & Ho & Hl)]. wp_step. apply close_in; [done|]. intros k g' Hr Ho'. wp_step. wp_step.
  apply (close_outs_spec (set_input_count k n)); [|done|done].
  split; [done|]. split; [by rewrite Ho'|done].
Qed.

Lemma hosted_ins n g :
  stopped_ins n g →
  wpM (size ← gets input_size_;
       for_upto size (λ i, input ← GetChannel_in i; modify (set_local_count 1) ;;
                           close_input input RefLocalCount) ;;
       close_output RefOutput) n g
    (λ _ r g', r = Value tt ∧ settled g').
Proof.
  intros [Hin Hout]. wp_step. wp_step. wp_step. apply (close_ins_spec n); [done|].
  intros n' g' Hr Ho Hk. apply hosted_source; [done|]. by eapply out_ok_keeps.
Qed.

(** ** From the duties of a connected node to the invariants *)

Lemma in_wired_inq n : in_wired n → ∃ q, inq n = Some q ∧ (0 < input_count_ n)%Z.
Proof. intros [Hq Hc]. destruct (inq n) as [q|]; [by exists q|done]. Qed.

Lemma out_wired_outq n : out_wired n → ∃ q, outq n = Some q.
Proof. intros Hq. destruct (outq n) as [q|] eqn:E; [by exists q|done]. Qed.

Lemma in_ok_start n g q :
  inq n = Some q → (0 < input_count_ n)%Z → remaining g = {[ q := Z.to_nat (input_count_ n) ]} →
  in_ok n g.
Proof.
  intros Hq Hc Hr. unfold in_ok. rewrite Hq, Hr. split; [done|]. split.
  - rewrite lookup_total_singleton, decide_True by done. lia.
  - intros q' Hne. by rewrite lookup_total_singleton, decide_False by done.
Qed.

Lemma multi_wired_ptrs l :
  multi_wired l → NoDup (ptrs l) ∧ queue_ptr <$> l = Some <$> ptrs l.
Proof.
  intros [Hnd Hall]. split; [done|]. clear Hnd. unfold ptrs.
  induction Hall as [|c l Hc Hl IH]; [done|]. csimpl. destruct (queue_ptr c) as [q|]; [|done].
  csimpl. by f_equal.
Qed.

Lemma outs_ok_start n g :
  multi_wired (outputs_ n) → opened g = list_to_set (ptrs (outputs_ n)) →
  Z.of_nat (length (outputs_ n)) = output_size_ n →
  outs_ok n g ∧ outs n = Some <$> ptrs (outputs_ n).
Proof.
  intros [Hnd Hq]%multi_wired_ptrs Ho Hl. unfold outs_ok, outs.
  rewrite Hq, omap_id_Some. done.
Qed.

Lemma ins_ok_start n g :
  multi_wired (inputs_ n) → remaining g = list_to_map ((λ q, (q, 1)) <$> ptrs (inputs_ n)) →
  Z.of_nat (length (inputs_ n)) = input_size_ n →
  ins_ok n g ∧ ins n = Some <$> ptrs (inputs_ n).
Proof.
  intros [Hnd Hq]%multi_wired_ptrs Hr Hl. unfold ins_ok, ins.
  rewrite Hq, omap_id_Some, Hr. split; [|done]. split; [done|]. split; [|done].
  clear. intros q. induction (ptrs (inputs_ n)) as [|q' l IH]; [done|]. csimpl.
  destruct (decide (q = q')) as [->|Hne].
  - rewrite lookup_total_insert, !decide_True; [done|by left|done].
  - rewrite lookup_total_insert_ne by done. rewrite IH.
    repeat case_decide; try done; set_solver.
Qed.

(** ** [work] of every class *)

(** What must hold when [work] returns or throws. *)
Definition work_post n0 n (r : attempt unit) g : Prop :=
  match r with
  | Value _ => wpM (after_work (node_kind n0)) n g (λ n' r' g',
                 r' = Value tt ∧ settled g' ∧ behaves n0 (user_state n') (trace g'))
  | Raised _ => hosted (node_kind n0) n g
  end.

Lemma after_work_nothing n0 n g :
  match node_kind n0 with KChannelSink => False | _ => True end →
  settled g → behaves n0 (user_state n) (trace g) → work_post n0 n (Value tt) g.
Proof. unfold work_post. intros Hk Hs Hb. by destruct (node_kind n0); try done; apply wpM_ret. Qed.

(** The two sides of a connected node. *)
Lemma loop_inv_start n col (J : U → list T → list (option T) → Prop) :
  in_wired n → out_wired n →
  in_duty n = match inq n with Some q => {[ q := Z.to_nat (input_count_ n) ]} | None => ∅ end →
  out_duty n = match outq n with Some q => {[ q ]} | None => ∅ end →
  J (user_state n) [] [] →
  ∃ qi qo, inq n = Some qi ∧ outq n = Some qo ∧ loop_inv qi qo J (set_collector col n) (duty n).
Proof.
  intros (qi & Hqi & Hc)%in_wired_inq (qo & Hqo)%out_wired_outq Hin Hout HJ. exists qi, qo.
  rewrite Hqi in Hin. split; [done|]. split; [done|].
  split; [by apply (in_ok_start _ _ qi)|]. by repeat split.
Qed.

Ltac start_with J :=
  let qi := fresh "qi" in let qo := fresh "qo" in
  match goal with
  | Hwi : in_wired ?n, Hwo : out_wired ?n, Hin : in_duty ?n = _, Hout : out_duty ?n = _
    |- wpM _ (set_collector ?col ?n) _ _ =>
      destruct (loop_inv_start n col J Hwi Hwo Hin Hout) as (qi & qo & Hqi & Hqo & Hinv); [try done|]
  end.
Ltac finish_with :=
  intros; apply after_work_nothing; [by match goal with H : node_kind _ = _ |- _ => rewrite H end|done|];
  unfold behaves;
  match goal with
  | Hk : node_kind ?n = _, Hqi : inq ?n = _, Hqo : outq ?n = _ |- _ => rewrite Hk, Hqi, Hqo
  end; try done.

Lemma work_kind_in_out n col :
  match node_kind n with
  | KChannelSource | KChannelSink | KSimpleTransform _ | KNoOpTransform | KFilter _ | KAccumulate _ _ => True
  | _ => False
  end →
  wired n → wpM (work GetTransferredBytes (node_kind n)) (set_collector col n) (duty n) (work_post n).
Proof.
  unfold wired. intros Hkind Hw. set (k := node_kind n) in *. assert (node_kind n = k) as Hk by done.
  assert (in_duty n = match inq n with Some q => {[ q := Z.to_nat (input_count_ n) ]} | None => ∅ end)
    as Hin by (unfold in_duty; by destruct (node_kind n)).
  assert (out_duty n = match outq n with Some q => {[ q ]} | None => ∅ end)
    as Hout by (unfold out_duty; by destruct (node_kind n)).
  assert (in_wired n ∧ out_wired n) as [Hwi Hwo] by (by destruct k).
  assert (∀ n' e g, stopped n' g → work_post n n' (Raised e) g) as Hstop.
  { intros n' e g Hs. intros col'. rewrite Hk. destruct k; try done; by apply hosted_in_out. }
  clearbody k. destruct k; try done; cbn [work].
  - start_with (λ (u : U) (xs : list T) w, w = Some <$> xs).
    apply (work_ChannelSource_spec qi qo); [done| |done]. finish_with.
  - start_with (λ (u : U) (xs : list T) w, w = Some <$> xs).
    apply (work_ChannelSink_spec qi qo); [done| |done]. intros n' g Hr Ho Hq Hp.
    unfold work_post. rewrite Hk. cbn [after_work]. unfold after_work_ChannelSink. wp_step. apply (wpM_GetQueue _ qo); [done|].
    unfold out_ok in Ho. rewrite Hq in Ho. apply wpM_queue_Push; [rewrite Ho; set_solver|].
    split; [done|]. split; [split; [done|simpl; rewrite Ho; set_solver]|].
    unfold behaves. by rewrite Hk, Hqi, Hqo, put_push, got_push, Hp.
  - start_with (λ u xs w, ∃ ys, folds (calls transform) (user_state n) xs ys u ∧ w = Some <$> ys).
    { exists []. split; [constructor|done]. }
    apply (work_SimpleTransform_spec _ (calls transform) qi qo (user_state n));
      [intros; apply user_action_call|done| |done]. finish_with. by exists ys.
  - start_with (λ u xs w, ∃ ys, folds (λ u x u' y, u' = u ∧ y = x) (user_state n) xs ys u ∧ w = Some <$> ys).
    { exists []. split; [constructor|done]. }
    apply (work_SimpleTransform_spec _ (λ u x u' y, u' = u ∧ y = x) qi qo (user_state n));
      [intros; apply user_action_ret|done| |done].
    intros n' g ys Hs [-> _]%folds_id Hp. finish_with.
  - start_with (λ u xs w, ∃ bs, folds (calls filter) (user_state n) xs bs u ∧ w = Some <$> kept xs bs).
    { exists []. split; [constructor|done]. }
    apply (work_Filter_spec _ (calls filter) qi qo (user_state n));
      [intros; apply user_action_call|done| |done]. finish_with. by exists bs.
  - start_with (λ u xs w, ∃ ys, folds (calls consume) (user_state n) xs ys u ∧ w = @nil (option T)).
    { exists []. split; [constructor|done]. }
    apply (work_Accumulate_spec _ _ (calls consume) (returns generate) qi qo (user_state n));
      [intros; apply user_action_call|apply user_action_call|done| |done].
    finish_with. exists ys, u, y. done.
Qed.

Lemma generates_none u0 xs u :
  generates (λ u u' b, u' = u ∧ b = @None T) u0 xs u → xs = [].
Proof. destruct 1; [done|]. naive_solver. Qed.

Lemma work_kind_source n col :
  match node_kind n with KSource _ | KEmptySource => True | _ => False end →
  wired n → wpM (work GetTransferredBytes (node_kind n)) (set_collector col n) (duty n) (work_post n).
Proof.
  unfold wired. intros Hkind Hw. set (k := node_kind n) in *. assert (node_kind n = k) as Hk by done.
  assert (out_wired n) as (qo & Hqo)%out_wired_outq by (by destruct k).
  assert (∀ q, remaining (duty n) !!! q = 0) as Hr by (unfold duty, in_duty; by destruct (node_kind n)).
  assert (out_ok (set_collector col n) (duty n)) as Ho.
  { unfold out_ok, duty, out_duty. simpl. by destruct (node_kind n). }
  assert (∀ n' e g, (∀ q, remaining g !!! q = 0) → out_ok n' g → work_post n n' (Raised e) g) as Hstop.
  { intros n' e g Hr' Ho'. intros col'. rewrite Hk. destruct k; try done; by apply hosted_source. }
  clearbody k. destruct k; try done; cbn [work].
  - apply (work_Source_spec _ (returns generate) qo (user_state n));
      [apply user_action_call|done|done|done|exists []; split; [constructor|done]| |done].
    intros n' g xs u Hs Hg Hu Hp. apply after_work_nothing; [by rewrite Hk|done|].
    unfold behaves. rewrite Hk, Hqo. by exists xs, u.
  - apply (work_Source_spec _ (λ u u' b, u' = u ∧ b = None) qo (user_state n));
      [apply user_action_ret|done|done|done|exists []; split; [constructor|done]| |done].
    intros n' g xs u Hs ->%generates_none Hu Hp. apply after_work_nothing; [by rewrite Hk|done|].
    unfold behaves. by rewrite Hk, Hqo.
Qed.

Lemma work_kind_sink n col :
  match node_kind n with KSink _ | KDumpSink => True | _ => False end →
  wired n → wpM (work GetTransferredBytes (node_kind n)) (set_collector col n) (duty n) (work_post n).
Proof.
  unfold wired. intros Hkind Hw. set (k := node_kind n) in *. assert (node_kind n = k) as Hk by done.
  assert (in_wired n) as (qi & Hqi & Hc)%in_wired_inq by (by destruct k).
  assert (opened (duty n) = ∅) as Ho by (unfold duty, out_duty; by destruct (node_kind n)).
  assert (in_ok (set_collector col n) (duty n)) as Hin.
  { apply (in_ok_start _ _ qi); [done|done|]. unfold duty, in_duty. simpl. rewrite Hqi.
    by destruct (node_kind n). }
  assert (∀ n' e g, in_ok n' g → opened g = ∅ → work_post n n' (Raised e) g) as Hstop.
  { intros n' e g Hr' Ho'. intros col'. rewrite Hk. destruct k; try done; by apply hosted_sink. }
  clearbody k. destruct k; try done; cbn [work].
  - apply (work_Sink_spec _ (calls consume) qi (user_state n));
      [intros; apply user_action_call|done|done|done|exists []; constructor| |done].
    intros n' g ys Hs Hf. apply after_work_nothing; [by rewrite Hk|done|].
    unfold behaves. rewrite Hk, Hqi. by exists ys.
  - apply (work_Sink_spec _ (λ u x u' y, u' = u ∧ y = tt) qi (user_state n));
      [intros; apply user_action_ret|done|done|done|exists []; constructor| |done].
    intros n' g ys Hs Hf. apply after_work_nothing; [by rewrite Hk|done|]. unfold behaves. by rewrite Hk.
Qed.

Lemma work_kind_outs n col :
  match node_kind n with KDispatch _ | KFork => True | _ => False end →
  Z.of_nat (length (outputs_ n)) = output_size_ n →
  wired n → wpM (work GetTransferredBytes (node_kind n)) (set_collector col n) (duty n) (work_post n).
Proof.
  unfold wired. intros Hkind Hlen Hw. set (k := node_kind n) in *. assert (node_kind n = k) as Hk by done.
  assert (in_wired n ∧ multi_wired (outputs_ n) ∧ (0 < output_size_ n)%Z) as (Hwi & Hwo & Hpos)
    by (by destruct k).
  apply in_wired_inq in Hwi as (qi & Hqi & Hc).
  assert (in_ok (set_collector col n) (duty n)) as Hin.
  { apply (in_ok_start _ _ qi); [done|done|]. unfold duty, in_duty. simpl. rewrite Hqi.
    by destruct (node_kind n). }
  destruct (outs_ok_start (set_collector col n) (duty n)) as [Hok Houts]; [done| |done|].
  { unfold duty, out_duty. simpl. by destruct (node_kind n). }
  set (qs := ptrs (outputs_ n)) in *.
  assert (0 < length qs ∧ output_size_ n = Z.of_nat (length qs)) as [Hpos' Hsize].
  { apply (outs_length _ _ qs) in Hok; [|done]. simpl in Hok. split; [lia|done]. }
  assert (∀ n' e g, stopped_multi n' g → work_post n n' (Raised e) g) as Hstop.
  { intros n' e g Hs. intros col'. rewrite Hk. destruct k; try done; by apply hosted_outs. }
  clearbody k. destruct k; try done; cbn [work].
  - apply (work_Dispatch_spec _ (calls dispatch) qi qs (user_state n));
      [done|intros; apply user_action_call| | |done].
    { split; [done|]. split; [done|]. split; [done|]. split; [done|].
      exists []. split; [constructor|]. intros i q _. done. }
    intros n' g ds Hs Hf Hp. apply after_work_nothing; [by rewrite Hk|done|].
    unfold behaves. rewrite Hk, Hqi, Hsize. by exists ds.
  - apply (work_Fork_spec qi qs); try done.
    intros n' g Hs Hp. apply after_work_nothing; [by rewrite Hk|done|].
    unfold behaves. rewrite Hk, Hqi. intros i q Hq. apply Hp. by eapply list_elem_of_lookup_2.
Qed.

Lemma work_kind_concat n col :
  node_kind n = KConcat → Z.of_nat (length (inputs_ n)) = input_size_ n →
  wired n → wpM (work GetTransferredBytes (node_kind n)) (set_collector col n) (duty n) (work_post n).
Proof.
  unfold wired. intros Hk Hlen Hw. rewrite Hk in Hw. destruct Hw as [Hwi (qo & Hqo)%out_wired_outq].
  destruct (ins_ok_start (set_collector col n) (duty n)) as [Hok Hins]; [done| |done|].
  { unfold duty, in_duty. simpl. by rewrite Hk. }
  assert (NoDup (ptrs (inputs_ n))) as Hnd by (by destruct Hwi).
  assert (∀ n' e g, stopped_ins n' g → work_post n n' (Raised e) g) as Hstop.
  { intros n' e g Hs. intros col'. rewrite Hk. by apply hosted_ins. }
  rewrite Hk. cbn [work]. apply (work_Concat_spec (ptrs (inputs_ n)) qo); [done| | |done].
  - split; [done|]. split; [by rewrite Hins; unfold outs_after; rewrite drop_0|].
    split; [unfold out_ok, duty, out_duty; simpl; by rewrite Hk|]. split; [done|].
    split; [done|]. unfold streams. by rewrite (streams_nil _ []).
  - intros n' g Hs Hp. apply after_work_nothing; [by rewrite Hk|done|].
    unfold behaves. by rewrite Hk, Hqo.
Qed.

(** ** Members that an action leaves as they are

    The abort channel stays bound; the base class does not touch the user's
    data members. *)

Definition steady {X A} (member : node T U → X) (m : M T U A) : Prop :=
  ∀ n, rets (λ nr : node T U * attempt A, member nr.1 = member n) (m n).

Lemma steady_bind {X A B} (member : node T U → X) (m : M T U A) (f : A → M T U B) :
  steady member m → (∀ a, steady member (f a)) → steady member (m ≫= f).
Proof.
  intros Hm Hf n. eapply rets_pbind; [apply Hm|]. intros [n' [a|e]] Hn'; simpl in *; [|done].
  eapply rets_mono; [|apply Hf]. simpl. intros. congruence.
Qed.

Lemma steady_while {X R} (member : node T U → X) (body : M T U (unit + R)) :
  steady member body → steady member (while_true body).
Proof.
  intros Hb n. exists (λ n', member n' = member n). split; [done|]. intros n1 Hn1.
  eapply rets_pbind; [apply Hb|]. intros [n2 [[u|r]|e]] Hn2; simpl in *; congruence.
Qed.

Lemma steady_for {X} (member : node T U → X) l (body : Z → M T U unit) :
  (∀ i, steady member (body i)) → steady member (for_each l body).
Proof. intros Hb. induction l as [|i l IH]; [done|]. by apply steady_bind. Qed.

Lemma steady_user {A} (f : U → U * attempt A) : steady abort_port (call_user f).
Proof. intros n. unfold call_user. by destruct (f (user_state n)). Qed.

Lemma steady_modify {X} (member : node T U → X) f :
  (∀ n, member (f n) = member n) → steady member (modify f).
Proof. intros Hf n. apply Hf. Qed.

Ltac keeps_with known :=
  repeat first
    [ progress intros
    | known
    | apply steady_bind | apply steady_while | apply steady_for | apply steady_user
    | apply steady_modify
    | match goal with
      | |- steady _ (match ?x with _ => _ end) => destruct x
      | |- steady _ (if ?x then _ else _) => destruct x
      end
    | done ].
Ltac keeps := keeps_with fail.

Lemma abort_kept_Pop input count : steady abort_port (Pop_counted GetTransferredBytes input count).
Proof. unfold Pop_counted, GetQueue, record_input, check_abort, assert_, reset. keeps; by destruct input, count. Qed.

Lemma abort_kept_Push v output : steady abort_port (Push_port GetTransferredBytes v output).
Proof. unfold Push_port, GetQueue, record_output, check_abort, reset. keeps. by destruct output. Qed.

Lemma user_kept_Push v output : steady user_state (Push_port GetTransferredBytes v output).
Proof. unfold Push_port, GetQueue, record_output, check_abort, reset. keeps. by destruct output. Qed.

Lemma abort_kept_work k : steady abort_port (work GetTransferredBytes k).
Proof.
  destruct k; cbn [work];
    unfold work_Source, work_Sink, work_SimpleTransform, work_Filter, work_Accumulate, work_Concat,
      work_Dispatch, work_Fork, generate_ChannelSource, consume_ChannelSink, push_all_eof, for_upto, Pop_port, Pop_multi, GetChannel_in, GetChannel_out;
    keeps_with ltac:(first [ apply abort_kept_Pop | apply abort_kept_Push ]).
Qed.

(** [before_work] lets through only the multi-port nodes whose ports are all
    there. *)
Lemma work_spec n col :
  before_work (node_kind n) n = None → wired n →
  wpM (work GetTransferredBytes (node_kind n)) (set_collector col n) (duty n) (work_post n).
Proof.
  intros Hb Hw. destruct (node_kind n) eqn:Hk; rewrite <- Hk; simpl in Hb;
    unfold before_work_MultiIOneO, before_work_OneIMultiO in Hb; try case_decide; try done;
    first [by apply work_kind_source; rewrite ?Hk|by apply work_kind_sink; rewrite ?Hk
          |by apply work_kind_in_out; rewrite ?Hk|by apply work_kind_outs; rewrite ?Hk
          |by apply work_kind_concat].
Qed.

(** ** [work_with_exception] *)

Definition finishes n0 n (r : attempt unit) g : Prop :=
  settled g ∧ (r = Value tt → behaves n0 (user_state n) (trace g)).

Lemma work_with_exception_spec n :
  wired n → wpM (work_with_exception GetTransferredBytes) n (duty n) (finishes n).
Proof.
  intros Hw. unfold wpM, work_with_exception. destruct (before_work (node_kind n) n) eqn:Hb.
  { apply WP_StdAbort. simpl. unfold may_end. by rewrite Hb. }
  match goal with |- WP (?m n) _ _ => change (wpM m n (duty n) (finishes n)) end.
  wp_steps. set (col := WorkStart _ _).
  pose proof (work_spec n col Hb Hw) as Hwork.
  apply WP_may_abort, (WP_rets _ _ _ _ (abort_kept_work _ _)) in Hwork.
  revert Hwork. apply WP_mono. intros [n' r] g [[Hpost Hmay] Hkeep]. simpl in Hkeep, Hmay.
  destruct r as [u|e]; simpl in Hpost.
  - wp_step. revert Hpost. apply wpM_mono. intros n'' r g'' (-> & Hs & Hbeh). wp_steps. by split.
  - wp_step. wp_step. wp_step. rewrite Hkeep. simpl. destruct (queue_ptr (abort_port n)) as [a|] eqn:Ha.
    + wp_step. apply wpM_abort_TryPush. intros b. do 4 wp_step.
      wp_step. eapply wpM_mono; [|apply Hpost]. intros n'' r g'' [-> Hs]. wp_steps. by split.
    + apply wpM_die. rewrite Hmay. unfold may_end, Channel_bool. by rewrite Hb, Ha.
Qed.

End protocol.
