(* ===== verification/NodeRun.v ===== *)
(** * Running one node on given inputs

    An executable run of a coroutine against finite input streams, its
    adequacy with respect to the program logic of [Coro], and the termination
    of every node class on complete inputs: a coroutine all of whose loop turns
    read from a queue ends when its inputs end. *)

From stdpp Require Import base gmap strings list fin_maps.
From S2P Require Import Prelude Events Coro Processor PortLogic Nodes NodeProtocol.

(** ** Executions *)

Section run.
Context {T : Type}.

(** What a node finds when it runs alone: what is still to be read from each
    queue, the answers of the abort channel, and what was read and written. *)
Record env := Env {
  stream : gmap qid (list (option T));
  answers : list (option (option Z));
  history : list (event T);
}.

Inductive final (A : Type) : Type :=
| Returned (a : A) (e : env)
| Blocked (q : qid) (e : env)
| Crashed (c : crash) (e : env).
Arguments Returned {A} _ _.
Arguments Blocked {A} _ _.
Arguments Crashed {A} _ _.

Definition read_env (q : qid) (v : option T) (vs : list (option T)) (e : env) : env :=
  Env (<[q := vs]> (stream e)) (answers e) (history e ++ [Got q v]).
Definition write_env (q : qid) (v : option T) (e : env) : env :=
  Env (stream e) (answers e) (history e ++ [Put q v]).

(** The clock stands still at 0 and the abort channel always has room. *)
Fixpoint run {A} (fuel : nat) (p : prog T A) (e : env) : option (final A) :=
  match fuel with
  | 0 => None
  | S fuel =>
      match p with
      | Ret a => Some (Returned a e)
      | QPop q k =>
          match stream e !!! q with
          | [] => Some (Blocked q e)
          | v :: vs => run fuel (k v) (read_env q v vs e)
          end
      | QPush q v k => run fuel k (write_env q v e)
      | QTryPop q k =>
          run fuel (k (default None (head (answers e)))) (Env (stream e) (tail (answers e)) (history e))
      | QTryPush q v k => run fuel (k true) e
      | Now k => run fuel (k 0%Z) e
      | Die c => Some (Crashed c e)
      | Loop body s k => run fuel (unroll body s k) e
      end
  end.

(** The same as a relation, without fuel. *)
Inductive eval {A} : prog T A → env → final A → Prop :=
| eval_Ret a e : eval (Ret a) e (Returned a e)
| eval_Blocked q k e : stream e !!! q = [] → eval (QPop q k) e (Blocked q e)
| eval_Pop q k v vs e r :
    stream e !!! q = v :: vs → eval (k v) (read_env q v vs e) r → eval (QPop q k) e r
| eval_Push q v k e r : eval k (write_env q v e) r → eval (QPush q v k) e r
| eval_TryPop q k e r :
    eval (k (default None (head (answers e)))) (Env (stream e) (tail (answers e)) (history e)) r →
    eval (QTryPop q k) e r
| eval_TryPush q v k e r : eval (k true) e r → eval (QTryPush q v k) e r
| eval_Now k e r : eval (k 0%Z) e r → eval (Now k) e r
| eval_Die c e : eval (Die c) e (Crashed c e)
| eval_Loop S R (body : S → prog T (S + R)) s k e r :
    eval (unroll body s k) e r → eval (Loop body s k) e r.

Lemma eval_run {A} (p : prog T A) e r : eval p e r ↔ ∃ fuel, run fuel p e = Some r.
Proof.
  split.
  - induction 1 as [a e|q k e Hq|q k v vs e r Hq _ [f IH]|q v k e r _ [f IH]|q k e r _ [f IH]
      |q v k e r _ [f IH]|k e r _ [f IH]|c e|S R body s k e r _ [f IH]];
      first [by exists 1; simpl; rewrite ?Hq | by exists (S f); simpl; rewrite ?Hq | idtac].
    exists (Datatypes.S f). done.
  - intros [f Hf]. revert p e Hf. induction f as [|f IH]; intros p e; [done|].
    destruct p as [a|q k|q v k|q k|q v k|k|c|S R body s k]; simpl; intros Hf; simplify_eq;
      try by (econstructor; eauto).
    destruct (stream e !!! q) eqn:Hq; simplify_eq; by econstructor; eauto.
Qed.

(** ** Adequacy *)

(** The inputs hold every end of file that is expected from them. *)
Definition complete (g : ghost T) (e : env) : Prop := ∀ q, remaining g !!! q ≤ eofs (stream e !!! q).

(** A trace that follows the protocol, and the ghost state it leads to. *)
Fixpoint lawful (g : ghost T) (tr : list (event T)) : Prop :=
  match tr with
  | [] => True
  | Got q v :: tr => 0 < remaining g !!! q ∧ lawful (after_pop q v g) tr
  | Put q v :: tr => q ∈ opened g ∧ lawful (after_push q v g) tr
  end.
Fixpoint replay (g : ghost T) (tr : list (event T)) : ghost T :=
  match tr with
  | [] => g
  | Got q v :: tr => replay (after_pop q v g) tr
  | Put q v :: tr => replay (after_push q v g) tr
  end.

Definition final_env {A} (r : final A) : env :=
  match r with Returned _ e | Blocked _ e | Crashed _ e => e end.

Definition adequate {A} (Φ : A → ghost T → Prop) (b : bool) (r : final A) (g' : ghost T) : Prop :=
  match r with
  | Returned a e => Φ a g'
  | Blocked q e => False
  | Crashed c e => c = StdAbort ∧ b = true
  end.

Lemma complete_pop g e q v vs :
  complete g e → stream e !!! q = v :: vs → complete (after_pop q v g) (read_env q v vs e).
Proof.
  intros Hc Hq q'. unfold read_env. simpl. specialize (Hc q') as Hq'.
  destruct (decide (q' = q)) as [->|Hne].
  - rewrite lookup_total_insert, decide_True by done. rewrite Hq in Hq'. destruct v; simpl in *; [done|].
    rewrite lookup_total_insert, decide_True by done. lia.
  - rewrite lookup_total_insert_ne by done. destruct v; simpl; [done|].
    by rewrite lookup_total_insert_ne by done.
Qed.

Lemma eval_adequate {A} (p : prog T A) e r g Φ :
  WP p g Φ → complete g e → eval p e r →
  ∃ tr, history (final_env r) = history e ++ tr ∧ lawful g tr ∧
    adequate Φ (may_abort g) r (replay g tr).
Proof.
  intros Hwp Hc [f Hr]%eval_run. specialize (Hwp f). revert p e r g Hwp Hc Hr.
  induction f as [|f IH]; intros p e r g Hwp Hc Hr; [done|].
  destruct p as [a|q k|q v k|q k|q v k|k|c|S R body s k]; simpl in Hr; simplify_eq.
  - exists []. by rewrite app_nil_r.
  - destruct Hwp as [Hpos Hk]. specialize (Hc q) as Hcq.
    destruct (stream e !!! q) as [|v vs] eqn:Hq; [simpl in Hcq; lia|].
    destruct (IH _ _ _ _ (Hk v) (complete_pop _ _ _ _ _ Hc Hq) Hr) as (tr & Hh & Hl & Ha).
    exists (Got q v :: tr). rewrite Hh. simpl. by rewrite <- app_assoc.
  - destruct Hwp as [Hpos Hk].
    destruct (IH _ (write_env q v e) _ _ Hk Hc Hr) as (tr & Hh & Hl & Ha).
    exists (Put q v :: tr). rewrite Hh. simpl. by rewrite <- app_assoc.
  - by apply (IH _ _ _ _ (Hwp _)) in Hr.
  - by apply (IH _ _ _ _ (Hwp _)) in Hr.
  - by apply (IH _ _ _ _ (Hwp _)) in Hr.
  - exists []. by rewrite app_nil_r.
  - apply (IH (unroll body s k) e); [by apply wp_unroll|done|done].
Qed.

(** ** Termination *)

Definition total (e : env) : nat := map_fold (λ _ vs n, length vs + n) 0 (stream e).

Lemma total_read q v vs e : stream e !!! q = v :: vs → total (read_env q v vs e) < total e.
Proof.
  intros Hq. unfold total, read_env. simpl. rewrite lookup_total_alt in Hq.
  destruct (stream e !! q) as [ws|] eqn:Hl; simpl in Hq; [|done]. subst ws.
  rewrite <- (insert_delete_id (stream e) q (v :: vs) Hl), insert_insert_eq.
  rewrite !map_fold_insert_L; try (by apply lookup_delete_eq); try (intros; lia). simpl. lia.
Qed.

(** [unpopped P p]: a result reached without any read satisfies [P]. *)
Fixpoint unpopped {A} (P : A → Prop) (p : prog T A) : Prop :=
  match p with
  | Ret a => P a
  | QPop q k => True
  | QPush q v k => unpopped P k
  | QTryPop q k => ∀ r, unpopped P (k r)
  | QTryPush q v k => ∀ b, unpopped P (k b)
  | Now k => ∀ t, unpopped P (k t)
  | Die c => True
  | Loop body s k => unpopped (λ r, match r with inl _ => False | inr r => unpopped P (k r) end) (body s)
  end.

(** Every turn of every loop that goes on has read something. *)
Fixpoint productive {A} (p : prog T A) : Prop :=
  match p with
  | Ret a => True
  | QPop q k => ∀ v, productive (k v)
  | QPush q v k => productive k
  | QTryPop q k => ∀ r, productive (k r)
  | QTryPush q v k => ∀ b, productive (k b)
  | Now k => ∀ t, productive (k t)
  | Die c => True
  | Loop body s k =>
      (∀ s, productive (body s) ∧ unpopped (λ r, match r with inl _ => False | inr _ => True end) (body s)) ∧
      ∀ r, productive (k r)
  end.

Lemma unpopped_mono {A} (P Q : A → Prop) p : (∀ a, P a → Q a) → unpopped P p → unpopped Q p.
Proof.
  revert P Q. induction p as [A a|A q k IH|A q v k IH|A q k IH|A q v k IH|A k IH|A c|A S R body IHb s k IHk];
    intros P Q HPQ; simpl; eauto.
  apply IHb. intros [s''|r]; simpl; eauto.
Qed.

Lemma unpopped_pbind {A B} (P : A → Prop) (Q : B → Prop) (p : prog T A) (f : A → prog T B) :
  unpopped P p → (∀ a, P a → unpopped Q (f a)) → unpopped Q (pbind f p).
Proof.
  induction p as [A a|A q k IH|A q v k IH|A q k IH|A q v k IH|A k IH|A c|A S R body IHb s k IHk];
    simpl; eauto.
  intros Hb Hf. eapply unpopped_mono; [|exact Hb]. intros [s''|r]; simpl; eauto.
Qed.

Lemma productive_pbind {A B} (p : prog T A) (f : A → prog T B) :
  productive p → (∀ a, productive (f a)) → productive (pbind f p).
Proof.
  induction p as [A a|A q k IH|A q v k IH|A q k IH|A q v k IH|A k IH|A c|A S R body IHb s k IHk];
    simpl; eauto.
  intros [Hb Hk] Hf. split; eauto.
Qed.

Lemma unpopped_True {A} (p : prog T A) : productive p → unpopped (λ _, True) p.
Proof.
  induction p as [A a|A q k IH|A q v k IH|A q k IH|A q v k IH|A k IH|A c|A S R body IHb s k IHk];
    simpl; eauto.
  intros [Hb Hk]. eapply unpopped_mono; [|apply Hb]. intros [s'|r]; simpl; [done|eauto].
Qed.

(** [f] ends on every environment that [p] may leave behind. *)
Definition ends_after {A B} (P : A → Prop) (f : A → prog T B) (e : env) : Prop :=
  ∀ a e', total e' ≤ total e → P a ∨ total e' < total e → ∃ r, eval (f a) e' r.

Definition bind_ends {A} (p : prog T A) : Prop :=
  ∀ B (f : A → prog T B) P e,
    productive p → unpopped P p → ends_after P f e → ∃ r, eval (pbind f p) e r.

(** A loop whose turns read ends: induction on what is left to be read. *)
Lemma loop_ends {A S R} (body : S → prog T (S + R)) (k : R → prog T A) (P : R → Prop) s e :
  (∀ s, bind_ends (body s)) →
  (∀ s, productive (body s) ∧ unpopped (λ r, match r with inl _ => False | inr _ => True end) (body s)) →
  unpopped (λ r, match r with inl _ => False | inr r => P r end) (body s) →
  ends_after P k e → ∃ r, eval (Loop body s k) e r.
Proof.
  intros Hbind Hb Hu Hk.
  assert (∀ m e' s, total e' < m → total e' < total e → ∃ r, eval (Loop body s k) e' r) as Hloop.
  { intros m. induction m as [|m IHm]; intros e' s' Hm Hlt; [lia|]. destruct (Hb s') as [Hp' Hu'].
    edestruct (Hbind s') as [r Hr]; [exact Hp'|exact Hu'| |exists r; apply eval_Loop, Hr].
    intros [s''|r] e'' Hle Hor; [apply IHm; destruct Hor; [done|lia|done|lia]|].
    apply Hk; [lia|right; lia]. }
  edestruct (Hbind s) as [r Hr]; [apply Hb|exact Hu| |exists r; apply eval_Loop, Hr].
  intros [s''|r] e'' Hle Hor; [|by apply Hk].
  destruct Hor as [[]|Hlt]. by apply (Hloop (Datatypes.S (total e''))); [lia|].
Qed.

Lemma eval_pbind {A} (p : prog T A) : bind_ends p.
Proof.
  induction p as [A a|A q k IH|A q v k IH|A q k IH|A q v k IH|A k IH|A c|A S R body IHb s k IHk];
    intros B f P e Hp Hu Hf; simpl in *.
  - destruct (Hf a e) as [r Hr]; eauto.
  - destruct (stream e !!! q) as [|v vs] eqn:Hq; [eexists; by apply eval_Blocked|].
    pose proof (total_read _ _ _ _ Hq) as Hlt.
    destruct (IH v B f (λ _, True) (read_env q v vs e)) as [r Hr]; [done|by apply unpopped_True| |].
    + intros a e' Hle _. apply Hf; [lia|right; lia].
    + exists r. by eapply eval_Pop.
  - destruct (IH B f P (write_env q v e)) as [r Hr]; [done..|]. exists r. by apply eval_Push.
  - destruct (IH (default None (head (answers e))) B f P
      (Env (stream e) (tail (answers e)) (history e))) as [r Hr]; [done..|]. exists r. by apply eval_TryPop.
  - destruct (IH true B f P e) as [r Hr]; [done..|]. exists r. by apply eval_TryPush.
  - destruct (IH 0%Z B f P e) as [r Hr]; [done..|]. exists r. by apply eval_Now.
  - eexists. apply eval_Die.
  - destruct Hp as [Hb Hk]. apply (loop_ends _ _ (λ r, unpopped P (k r))); [done|done|done|].
    intros r e' Hle [Hu'|Hlt].
    + apply (IHk r B f P); [done|done|]. intros a e'' Hle' Hor. apply Hf; [lia|]. naive_solver lia.
    + apply (IHk r B f (λ _, True)); [done|by apply unpopped_True|].
      intros a e'' Hle' _. apply Hf; [lia|right; lia].
Qed.

(** A productive coroutine ends on every finite input. *)
Lemma eval_total {A} (p : prog T A) e : productive p → ∃ r, eval p e r.
Proof.
  revert e. induction p as [A a|A q k IH|A q v k IH|A q k IH|A q v k IH|A k IH|A c|A S R body _ s k IHk];
    intros e Hp; simpl in Hp; try (edestruct IH as [r Hr]; [by eauto|eexists; by constructor]).
  - eexists. constructor.
  - destruct (stream e !!! q) as [|v vs] eqn:Hq; [eexists; by apply eval_Blocked|].
    destruct (IH v (read_env q v vs e)) as [r Hr]; [done|]. exists r. by eapply eval_Pop.
  - eexists. constructor.
  - destruct Hp as [Hb Hk]. apply (loop_ends _ _ (λ _, True)); [intros; apply eval_pbind|done| |].
    + apply Hb.
    + intros r e' _ _. auto.
Qed.

(** ** Runs without interruption

    [unaborted P p]: as long as the abort channel is empty, [p] does not write
    to it nor call [std::abort], and a result of [p] satisfies [P]. *)
Fixpoint unaborted {A} (P : A → Prop) (p : prog T A) : Prop :=
  match p with
  | Ret a => P a
  | QPop q k => ∀ v, unaborted P (k v)
  | QPush q v k => unaborted P k
  | QTryPop q k => unaborted P (k None)
  | QTryPush q v k => False
  | Now k => ∀ t, unaborted P (k t)
  | Die c => c ≠ StdAbort
  | Loop body s k =>
      ∃ I, I s ∧
        ∀ s, I s → unaborted (λ r, match r with inl s' => I s' | inr r => unaborted P (k r) end) (body s)
  end.

Lemma unaborted_mono {A} (P Q : A → Prop) p : (∀ a, P a → Q a) → unaborted P p → unaborted Q p.
Proof.
  revert P Q. induction p as [A a|A q k IH|A q v k IH|A q k IH|A q v k IH|A k IH|A c|A S R body IHb s k IHk];
    intros P Q HPQ; simpl; eauto.
  intros (I & Hs & Hb). exists I. split; [done|]. intros s' Hs'. eapply IHb; [|by apply Hb].
  intros [s''|r]; simpl; eauto.
Qed.

Lemma unaborted_pbind {A B} (P : A → Prop) (Q : B → Prop) (p : prog T A) (f : A → prog T B) :
  unaborted P p → (∀ a, P a → unaborted Q (f a)) → unaborted Q (pbind f p).
Proof.
  induction p as [A a|A q k IH|A q v k IH|A q k IH|A q v k IH|A k IH|A c|A S R body IHb s k IHk];
    simpl; eauto.
  intros (I & Hs & Hb) Hf. exists I. split; [done|]. intros s' Hs'.
  eapply unaborted_mono; [|by apply Hb]. intros [s''|r]; simpl; eauto.
Qed.

Lemma eval_unaborted {A} (P : A → Prop) p e a e' :
  unaborted P p → answers e = [] → eval p e (Returned a e') → P a.
Proof.
  intros Hp Ha He. remember (Returned a e') as r eqn:Hr. revert Hp Ha Hr.
  induction He as [b e| |q k v vs e r Hq He IH|q v k e r He IH|q k e r He IH|q v k e r He IH
    |k e r He IH|c e|S R body s k e r He IH]; intros Hp Ha Hr; simplify_eq/=; try done; eauto.
  - apply IH; [by rewrite Ha|by rewrite Ha|done].
  - apply IH; [|done|done]. destruct Hp as (I & Hs & Hb). eapply unaborted_pbind; [by apply Hb|].
    intros [s'|r]; [|done]. intros Hs'. by exists I.
Qed.

(** What was read is what the streams held. *)
Lemma eval_reads {A} (p : prog T A) e r q :
  eval p e r →
  got q (history (final_env r)) ++ stream (final_env r) !!! q = got q (history e) ++ stream e !!! q.
Proof.
  induction 1 as [| |q' k v vs e r Hq He IH|q' v k e r He IH| | | | |]; try done; rewrite IH; simpl.
  - rewrite got_app. simpl. destruct (decide (q' = q)) as [->|Hne].
    + rewrite lookup_total_insert, decide_True, Hq by done. by rewrite <- app_assoc.
    + by rewrite lookup_total_insert_ne, app_nil_r.
  - by rewrite got_app, app_nil_r.
Qed.

End run.

Arguments env : clear implicits.
Arguments final : clear implicits.
Arguments Returned {T A} _ _.
Arguments Blocked {T A} _ _.
Arguments Crashed {T A} _ _.

(** ** The node classes are productive *)

Section nodes.
Context {T U : Type} (GetTransferredBytes : T → Z).
Implicit Types (n : node T U).

Definition prodM {A} (m : M T U A) : Prop := ∀ n, productive (m n).

(** A result obtained without reading from a queue is an exception. *)
Definition reads {A} (m : M T U A) : Prop :=
  ∀ n, unpopped (λ nr : node T U * attempt A, match nr.2 with Value _ => False | Raised _ => True end) (m n).

Lemma prodM_bind {A B} (m : M T U A) (f : A → M T U B) :
  prodM m → (∀ a, prodM (f a)) → prodM (m ≫= f).
Proof. intros Hm Hf n. apply productive_pbind; [apply Hm|]. intros [n' [a|e]]; [apply Hf|done]. Qed.

Lemma prodM_while {R} (body : M T U (unit + R)) : prodM body → reads body → prodM (while_true body).
Proof.
  intros Hp Hr n. split; [|done]. intros n'. split.
  - apply productive_pbind; [apply Hp|]. by intros [n1 [[]|]].
  - eapply unpopped_pbind; [apply Hr|]. by intros [n1 [[]|]].
Qed.

Lemma prodM_for l (body : Z → M T U unit) : (∀ i, prodM (body i)) → prodM (for_each l body).
Proof. intros Hb. induction l as [|i l IH]; [done|]. by apply prodM_bind. Qed.

Lemma prodM_user {A} (f : U → U * attempt A) : prodM (call_user f).
Proof. intros n. unfold call_user. by destruct (f (user_state n)). Qed.

Lemma prodM_co_try {A} (m : M T U A) : prodM m → prodM (co_try m).
Proof. intros Hm n. apply productive_pbind; [apply Hm|]. by intros []. Qed.

Lemma reads_bind {A B} (m : M T U A) (f : A → M T U B) : reads m → reads (m ≫= f).
Proof. intros Hm n. eapply unpopped_pbind; [apply Hm|]. by intros [n' [a|e]]. Qed.

Lemma reads_bind_r {A B} (m : M T U A) (f : A → M T U B) :
  prodM m → (∀ a, reads (f a)) → reads (m ≫= f).
Proof.
  intros Hm Hf n. eapply unpopped_pbind; [apply unpopped_True, Hm|]. intros [n' [a|e]] _; [apply Hf|done].
Qed.

Lemma reads_while {R} (body : M T U (unit + R)) : reads body → reads (while_true body).
Proof.
  intros Hr n. simpl. eapply unpopped_pbind; [apply Hr|]. by intros [n1 [[]|]].
Qed.

(** Case analysis on the head of the term; [known] solves the goals about
    operations with lemmas of their own. *)
Ltac prod_with known :=
  intros; cbv zeta;
  lazymatch goal with
  | |- prodM (mbind _ _) => apply prodM_bind; prod_with known
  | |- prodM (for_each _ _) => apply prodM_for; prod_with known
  | |- prodM (for_upto _ _) => apply prodM_for; prod_with known
  | |- prodM (call_user _) => apply prodM_user
  | |- prodM (co_try _) => apply prodM_co_try; prod_with known
  | |- prodM (while_true _) => apply prodM_while; prod_with known
  | |- prodM (mret _) => done
  | |- prodM (raise _) => done
  | |- prodM (die _) => done
  | |- prodM (gets _) => done
  | |- prodM (modify _) => done
  | |- prodM (reset _) => done
  | |- prodM clock_now => done
  | |- prodM (queue_Pop _) => done
  | |- prodM (queue_Push _ _) => done
  | |- prodM (abort_TryPop _) => done
  | |- prodM (abort_TryPush _ _) => done
  | |- prodM (match ?x with _ => _ end) => destruct x; prod_with known
  | |- reads (mbind _ _) => apply reads_bind; prod_with known
  | |- reads (queue_Pop _) => done
  | |- _ => known
  end.

Lemma prodM_GetQueue r : prodM (@GetQueue T U r).
Proof. unfold GetQueue. prod_with fail. Qed.

Lemma reads_Pop_counted input count : reads (Pop_counted (U := U) GetTransferredBytes input count).
Proof.
  unfold Pop_counted. apply reads_while, reads_bind_r; [apply prodM_GetQueue|]. intros q.
  by apply reads_bind.
Qed.

Lemma prodM_Pop_counted input count : prodM (Pop_counted (U := U) GetTransferredBytes input count).
Proof.
  unfold Pop_counted. apply prodM_while.
  - unfold record_input, check_abort, assert_, GetQueue. prod_with fail.
  - apply reads_bind_r; [apply prodM_GetQueue|]. intros q. by apply reads_bind.
Qed.

Lemma prodM_Push_port v output : prodM (Push_port (U := U) GetTransferredBytes v output).
Proof. unfold Push_port, record_output, check_abort, GetQueue. prod_with fail. Qed.

Lemma prodM_close_input input count : prodM (@close_input T U input count).
Proof.
  unfold close_input, assert_. prod_with fail.
Qed.

Lemma prodM_close_output output : prodM (@close_output T U output).
Proof. unfold close_output. prod_with fail. Qed.

(** The generators of [Source] are the user's; all other classes end with
    their inputs. *)
Definition reads_inputs (k : kind T U) : Prop := match k with KSource _ => False | _ => True end.

Lemma reads_Pop_port input : reads (Pop_port (U := U) GetTransferredBytes input).
Proof. apply reads_Pop_counted. Qed.
Lemma reads_Pop_multi input : reads (Pop_multi (U := U) GetTransferredBytes input).
Proof. apply reads_bind_r; [done|]. intros. apply reads_Pop_counted. Qed.
Lemma prodM_Pop_port input : prodM (Pop_port (U := U) GetTransferredBytes input).
Proof. apply prodM_Pop_counted. Qed.
Lemma prodM_Pop_multi input : prodM (Pop_multi (U := U) GetTransferredBytes input).
Proof. apply prodM_bind; [done|]. intros. apply prodM_Pop_counted. Qed.
Lemma prodM_GetChannel_in i : prodM (@GetChannel_in T U i).
Proof. unfold GetChannel_in. prod_with fail. Qed.
Lemma prodM_GetChannel_out i : prodM (@GetChannel_out T U i).
Proof. unfold GetChannel_out. prod_with fail. Qed.

Ltac known_ops :=
  idtac; lazymatch goal with
  | |- prodM (Pop_port _ _) => apply prodM_Pop_port
  | |- prodM (Pop_multi _ _) => apply prodM_Pop_multi
  | |- prodM (Push_port _ _ _) => apply prodM_Push_port
  | |- prodM (close_input _ _) => apply prodM_close_input
  | |- prodM (close_output _) => apply prodM_close_output
  | |- prodM (GetChannel_in _) => apply prodM_GetChannel_in
  | |- prodM (GetChannel_out _) => apply prodM_GetChannel_out
  | |- prodM (GetQueue _) => apply prodM_GetQueue
  | |- reads (Pop_port _ _) => apply reads_Pop_port
  | |- reads (Pop_multi _ _) => apply reads_Pop_multi
  end.

Lemma prodM_EmptySource : prodM (work_Source (U := U) GetTransferredBytes (mret None)).
Proof.
  intros n. split; [|done]. intros n'. split.
  - apply productive_pbind; [|by intros [n1 [[]|]]].
    refine (prodM_bind (mret None) _ _ _ n'); [done|]. intros [x|]; prod_with known_ops.
  - eapply unpopped_pbind with (P := λ nr, match nr.2 with Value (inl _) => False | _ => True end);
      [|by intros [n1 [[]|]]].
    eapply (unpopped_pbind (λ nr, nr.2 = Value None)); [done|]. intros [n1 [a|e]]; [intros [= ->]|done].
    eapply unpopped_pbind; [apply unpopped_True, prodM_Push_port|]. by intros [n2 [[]|]].
Qed.

Lemma prodM_work k : reads_inputs k → prodM (work GetTransferredBytes k).
Proof.
  intros Hk. destruct k; try done; cbn [work]; try apply prodM_EmptySource;
    unfold work_Source, work_Sink, work_SimpleTransform, work_Filter, work_Accumulate, work_Concat,
      work_Dispatch, work_Fork, push_all_eof, for_upto, generate_ChannelSource, consume_DumpSink,
      consume_ChannelSink, transform_NoOp; prod_with known_ops.
Qed.

Lemma prodM_hosted_mode k : prodM (@hosted_mode T U k).
Proof. destruct k; cbn [hosted_mode];
    unfold hosted_mode_Source, hosted_mode_Sink, hosted_mode_ChannelSource, hosted_mode_ChannelSink,
      hosted_mode_Transform, hosted_mode_MultiIOneO, hosted_mode_OneIMultiO, for_upto;
    prod_with known_ops. Qed.

(** What [work_with_exception] does after [work]. *)
Lemma prodM_after_work k (result : attempt unit) :
  prodM (match result with
         | Raised e =>
             p ← gets (λ n : node T U, queue_ptr (abort_port n));
             match p with
             | None => die StdAbort
             | Some a =>
                 _ ← abort_TryPush a (Some 0%Z);
                 now ← clock_now;
                 modify (λ n, set_collector (EnterHostedMode now (event_collector_ n)) n) ;;
                 @hosted_mode T U k ;;
                 raise e
             end
         | Value _ => after_work k
         end ;;
         now ← clock_now;
         modify (λ n, set_collector (WorkEnd now (event_collector_ n)) n)).
Proof.
  unfold after_work, after_work_ChannelSink. prod_with ltac:(first [known_ops|apply prodM_hosted_mode]).
Qed.

Lemma prodM_work_with_exception n :
  reads_inputs (node_kind n) → productive (work_with_exception GetTransferredBytes n).
Proof.
  intros Hk. unfold work_with_exception. destruct (before_work (node_kind n) n); [done|].
  match goal with |- productive (?m n) => assert (prodM m) as Hm; [|apply Hm] end.
  apply prodM_bind; [done|]. intros t. apply prodM_bind; [done|]. intros _.
  apply prodM_bind; [by apply prodM_co_try, prodM_work|]. apply prodM_after_work.
Qed.

(** ** Without abort and without an exception of the user, nothing is thrown *)

Definition sized n : nat * Z * nat * Z :=
  (length (inputs_ n), input_size_ n, length (outputs_ n), output_size_ n).

Definition calm {A} (sz : nat * Z * nat * Z) (m : M T U A) : Prop :=
  ∀ n, sized n = sz →
    unaborted (λ nr : node T U * attempt A, sized nr.1 = sz ∧ ∃ a, nr.2 = Value a) (m n).

Lemma calm_bind {A B} sz (m : M T U A) (f : A → M T U B) :
  calm sz m → (∀ a, calm sz (f a)) → calm sz (m ≫= f).
Proof.
  intros Hm Hf n Hn. eapply unaborted_pbind; [by apply Hm|]. intros [n' r] [Hn' [a Ha]].
  simpl in *. subst r. by apply Hf.
Qed.

Lemma calm_gets {A B} sz (h : node T U → A) (f : A → M T U B) :
  (∀ n, sized n = sz → calm sz (f (h n))) → calm sz (gets h ≫= f).
Proof. intros Hf n Hn. simpl. by apply Hf. Qed.

Lemma calm_modify sz h : (∀ n, sized (h n) = sized n) → calm sz (modify h).
Proof. intros Hh n Hn. simpl. rewrite Hh. eauto. Qed.

Lemma calm_ret {A} sz (a : A) : calm sz (mret a).
Proof. intros n Hn. simpl. eauto. Qed.

Lemma calm_while {R} sz (body : M T U (unit + R)) : calm sz body → calm sz (while_true body).
Proof.
  intros Hb n Hn. exists (λ n', sized n' = sz). split; [done|]. intros n1 Hn1.
  eapply unaborted_pbind; [by apply Hb|]. intros [n2 r] [Hn2 [a Ha]]; simpl in *. subst r.
  destruct a; simpl; eauto.
Qed.

Lemma calm_for sz l (body : Z → M T U unit) :
  (∀ i, i ∈ l → calm sz (body i)) → calm sz (for_each l body).
Proof.
  induction l as [|i l IH]; intros Hb; [apply calm_ret|]. apply calm_bind; [apply Hb; by left|].
  intros _. apply IH. intros j Hj. apply Hb. by right.
Qed.

Lemma elem_of_indices (i m : Z) : i ∈ indices m → (0 ≤ i < m)%Z.
Proof. unfold indices. intros (j & -> & Hj)%list_elem_of_fmap. apply elem_of_seq in Hj. lia. Qed.

Lemma sized_set_chan r c n : sized (set_chan r c n) = sized n.
Proof. unfold sized. destruct r; simpl; by rewrite ?length_insert. Qed.
Lemma sized_set_count r c n : sized (set_count r c n) = sized n.
Proof. by destruct r. Qed.

Lemma calm_GetChannel_in sz i :
  (0 ≤ i < Z.of_nat (sz.1.1.1))%Z → calm sz (GetChannel_in i).
Proof.
  intros Hi. unfold GetChannel_in. apply calm_gets. intros n Hn.
  rewrite decide_True by (rewrite <- Hn in Hi; done).
  apply calm_bind; [apply calm_modify; intros; apply sized_set_chan|intros; apply calm_ret].
Qed.

Lemma calm_GetChannel_out sz i :
  (0 ≤ i < Z.of_nat (sz.1.2))%Z → calm sz (GetChannel_out i).
Proof.
  intros Hi. unfold GetChannel_out. apply calm_gets. intros n Hn.
  rewrite decide_True by (rewrite <- Hn in Hi; done).
  apply calm_bind; [apply calm_modify; intros; apply sized_set_chan|intros; apply calm_ret].
Qed.

(** The user's functions do not throw. *)
Definition returns_value {A} (r : U * attempt A) : Prop := ∃ a, r.2 = Value a.
Definition never_throws (k : kind T U) : Prop :=
  match k with
  | KSource generate => ∀ u, returns_value (generate u)
  | KSink consume => ∀ u x, returns_value (consume u x)
  | KSimpleTransform transform => ∀ u x, returns_value (transform u x)
  | KFilter filter => ∀ u x, returns_value (filter u x)
  | KAccumulate consume generate =>
      (∀ u x, returns_value (consume u x)) ∧ ∀ u, returns_value (generate u)
  | KDispatch dispatch => ∀ u x, returns_value (dispatch u x)
  | _ => True
  end.

Lemma calm_user {A} sz (f : U → U * attempt A) : (∀ u, returns_value (f u)) → calm sz (call_user f).
Proof.
  intros Hf n Hn. unfold call_user. destruct (f (user_state n)) as [u r] eqn:Hr.
  destruct (Hf (user_state n)) as [a Ha]. rewrite Hr in Ha. simpl in *. eauto.
Qed.

Ltac calm_with known :=
  intros; cbv zeta;
  lazymatch goal with
  | |- calm _ (mbind _ (gets _)) => apply calm_gets; calm_with known
  | |- calm _ (mbind _ _) => apply calm_bind; calm_with known
  | |- calm _ (for_upto _ _) => apply calm_for; calm_with known
  | |- calm _ (while_true _) => apply calm_while; calm_with known
  | |- calm _ (mret _) => apply calm_ret
  | |- calm _ (modify _) => apply calm_modify; intros; by rewrite ?sized_set_chan, ?sized_set_count
  | |- calm _ (reset _) => apply calm_modify; intros; apply sized_set_chan
  | |- calm _ (match ?x with _ => _ end) => destruct x; calm_with known
  | |- calm _ (die _) => done
  | |- calm _ _ => first [known | by intros ? ?; simpl; intros; eauto]
  end.

Lemma calm_check_abort sz : calm sz check_abort.
Proof.
  apply calm_gets. intros n _. destruct (queue_ptr (abort_port n)); [|apply calm_ret].
  intros n' Hn'. simpl. eauto.
Qed.

Lemma calm_Pop_counted sz input count : calm sz (Pop_counted GetTransferredBytes input count).
Proof.
  unfold Pop_counted, record_input, assert_, GetQueue. calm_with ltac:(apply calm_check_abort).
Qed.

Lemma calm_Push_port sz v output : calm sz (Push_port GetTransferredBytes v output).
Proof.
  unfold Push_port, record_output, GetQueue. calm_with ltac:(apply calm_check_abort).
Qed.

Lemma calm_for_in sz (body : Z → M T U unit) :
  Z.of_nat (sz.1.1.1) = sz.1.1.2 → (∀ i, (0 ≤ i < sz.1.1.2)%Z → calm sz (body i)) →
  ∀ n, sized n = sz → calm sz (for_upto (input_size_ n) body).
Proof.
  intros Hsz Hb n Hn. apply calm_for. intros i Hi%elem_of_indices. apply Hb. by rewrite <- Hn.
Qed.

Lemma calm_for_out sz (body : Z → M T U unit) :
  Z.of_nat (sz.1.2) = sz.2 → (∀ i, (0 ≤ i < sz.2)%Z → calm sz (body i)) →
  ∀ n, sized n = sz → calm sz (for_upto (output_size_ n) body).
Proof.
  intros Hsz Hb n Hn. apply calm_for. intros i Hi%elem_of_indices. apply Hb. by rewrite <- Hn.
Qed.

Ltac calm_ops :=
  idtac; lazymatch goal with
  | |- calm _ (Pop_port _ _) => apply calm_Pop_counted
  | |- calm _ (Pop_counted _ _ _) => apply calm_Pop_counted
  | |- calm _ (Push_port _ _ _) => apply calm_Push_port
  | |- calm _ (call_user _) => apply calm_user; naive_solver
  | |- calm _ (GetChannel_in _) => apply calm_GetChannel_in; lia
  | |- calm _ (GetChannel_out _) => apply calm_GetChannel_out; lia
  end.

(** [before_work] has checked the number of ports. *)
Definition ports_checked (k : kind T U) (sz : nat * Z * nat * Z) : Prop :=
  match k with
  | KConcat => Z.of_nat sz.1.1.1 = sz.1.1.2
  | KDispatch _ | KFork => Z.of_nat sz.1.2 = sz.2
  | _ => True
  end.

Lemma calm_push_all_eof sz : Z.of_nat sz.1.2 = sz.2 → calm sz (push_all_eof GetTransferredBytes).
Proof.
  intros Hs. unfold push_all_eof. apply calm_gets. apply calm_for_out; [done|]. intros i Hi.
  calm_with calm_ops.
Qed.

Lemma calm_work k sz : never_throws k → ports_checked k sz → calm sz (work GetTransferredBytes k).
Proof.
  intros Hk Hs. destruct k; simpl in Hs; cbn [work];
    unfold work_Source, work_Sink, work_SimpleTransform, work_Filter, work_Accumulate,
      generate_EmptySource, generate_ChannelSource, consume_DumpSink, consume_ChannelSink, transform_NoOp;
    try (calm_with calm_ops; fail).
  - unfold work_Concat, Pop_multi. apply calm_gets. intros n Hn.
    apply calm_bind; [apply calm_for_in; [done| |done]; intros i Hi; calm_with calm_ops|calm_with calm_ops].
  - unfold work_Dispatch. apply calm_while, calm_bind; [calm_ops|]. intros [x|].
    + apply calm_bind; [calm_ops|]. intros d. apply calm_gets. intros n Hn. case_decide; [done|].
      assert (output_size_ n = sz.2) as Hsz by (by rewrite <- Hn).
      pose proof (Z.mod_pos_bound (u64 d) (output_size_ n)).
      calm_with calm_ops.
    + apply calm_bind; [by apply calm_push_all_eof|]. calm_with calm_ops.
  - unfold work_Fork. apply calm_while, calm_bind; [calm_ops|]. intros [x|].
    + apply calm_gets. intros n Hn. apply calm_bind; [|calm_with calm_ops].
      apply calm_for_out; [done| |done]. intros i Hi. calm_with calm_ops.
    + apply calm_bind; [by apply calm_push_all_eof|]. calm_with calm_ops.
Qed.

Lemma calm_co_try {A B} sz (m : M T U A) (f : attempt A → M T U B) :
  calm sz m → (∀ a, calm sz (f (Value a))) → calm sz (co_try m ≫= f).
Proof.
  intros Hm Hf n Hn. eapply (unaborted_pbind (λ nr, sized nr.1 = sz ∧ ∃ a, nr.2 = Value (Value a))).
  - eapply unaborted_pbind; [by apply Hm|]. intros [n' r] [Hn' [a Ha]]. simpl in *. subst r. eauto.
  - intros [n' r] [Hn' [a Ha]]. simpl in *. subst r. by apply Hf.
Qed.

Lemma calm_work_with_exception n :
  never_throws (node_kind n) → before_work (node_kind n) n = None →
  unaborted (λ nr : node T U * attempt unit, ∃ a, nr.2 = Value a)
    (work_with_exception GetTransferredBytes n).
Proof.
  intros Hk Hb. unfold work_with_exception. rewrite Hb.
  assert (ports_checked (node_kind n) (sized n)) as Hs.
  { unfold ports_checked. destruct (node_kind n); try done; simpl in Hb;
      unfold before_work_MultiIOneO, before_work_OneIMultiO in Hb; by case_decide. }
  match goal with |- unaborted _ (?m n) => assert (calm (sized n) m) as Hm end.
  - apply calm_bind; [calm_with fail|]. intros t. apply calm_bind; [calm_with fail|]. intros _.
    apply calm_co_try; [by apply calm_work|]. intros u.
    apply calm_bind; [unfold after_work, after_work_ChannelSink, GetQueue; calm_with fail|]. calm_with fail.
  - eapply unaborted_mono; [|by apply Hm]. by intros nr [_ ?].
Qed.

(** ** Theorems *)

Lemma replay_trace (g : ghost T) tr : trace (replay g tr) = trace g ++ tr.
Proof.
  revert g. induction tr as [|[q v|q v] tr IH]; intros g; simpl; [by rewrite app_nil_r|..];
    by rewrite IH; simpl; rewrite <- app_assoc.
Qed.

(** C13: [Processor::work_with_exception] of a connected node ([wired]) of every
    class, whatever the other nodes, the abort channel, the clock and the user's
    functions do:
    no null port is dereferenced, no assertion fails, no queue is read after
    its last expected end of file nor written after its own, the process is
    ended only by a node that has no abort channel or whose ports fail the
    checks of [before_work], and when the coroutine returns it has read every
    expected end of file and written one to each output.  If it returns
    without an exception, its outputs are what the class promises for the data
    it read. *)
Theorem node_protocol n :
  wired n →
  WP (work_with_exception GetTransferredBytes n) (duty n)
     (λ '(n', r) g, settled g ∧ (r = Value tt → behaves n (user_state n') (trace g))).
Proof. intros Hw. apply (work_with_exception_spec GetTransferredBytes n Hw). Qed.

(** C14: on inputs that hold the expected ends of file, a connected node of every
    class other than a user's [Source] runs to its end: it returns after a trace that follows
    the protocol and fulfils all duties, and without an exception its outputs
    are what the class promises; or the process is ended, which only a node
    without abort channel or with missing ports does. *)
Theorem node_total n e :
  wired n → reads_inputs (node_kind n) → complete (duty n) e → history e = [] →
  ∃ fuel r, run fuel (work_with_exception GetTransferredBytes n) e = Some r ∧
    lawful (duty n) (history (final_env r)) ∧
    match r with
    | Returned (n', res) e' =>
        settled (replay (duty n) (history e')) ∧
        (res = Value tt → behaves n (user_state n') (history e'))
    | Blocked _ _ => False
    | Crashed c _ => c = StdAbort ∧ may_end n = true
    end.
Proof.
  intros Hw Hk Hc Hh. destruct (eval_total (work_with_exception GetTransferredBytes n) e) as [r Hr].
  { by apply prodM_work_with_exception. }
  destruct (eval_adequate _ _ _ _ _ (work_with_exception_spec GetTransferredBytes n Hw) Hc Hr)
    as (tr & Htr & Hl & Ha).
  rewrite Hh in Htr. simpl in Htr. apply eval_run in Hr as [fuel Hr]. exists fuel, r.
  split; [done|]. rewrite Htr. split; [done|].
  destruct r as [[n' res] e'|q e'|c e']; simpl in *; [|done|done].
  rewrite Htr. destruct Ha as [Hs Hb]. rewrite replay_trace in Hb. done.
Qed.

(** C15: a connected node other than a user's [Source], bound to an abort channel
    that stays empty, with user functions that do not throw and input queues that
    hold all the ends of file it expects, returns without an exception, and its
    outputs are what its class promises for what the input queues held. *)
Theorem node_returns n e :
  wired n → may_end n = false → reads_inputs (node_kind n) → never_throws (node_kind n) →
  complete (duty n) e → history e = [] → answers e = [] →
  ∃ fuel n' e', run fuel (work_with_exception GetTransferredBytes n) e = Some (Returned (n', Value tt) e') ∧
    settled (replay (duty n) (history e')) ∧ behaves n (user_state n') (history e') ∧
    ∀ q, got q (history e') ++ stream e' !!! q = stream e !!! q.
Proof.
  intros Hw Hm Hk Hnt Hc Hh Ha. destruct (eval_total (work_with_exception GetTransferredBytes n) e) as [r Hr].
  { by apply prodM_work_with_exception. }
  destruct (eval_adequate _ _ _ _ _ (work_with_exception_spec GetTransferredBytes n Hw) Hc Hr)
    as (tr & Htr & Hl & Had).
  pose proof (λ q, eval_reads _ _ _ q Hr) as Hreads. rewrite Hh in Htr, Hreads. simpl in Htr.
  destruct r as [[n' res] e'|q e'|c e']; simpl in *; [|done|by rewrite Hm in Had; destruct Had].
  assert (before_work (node_kind n) n = None) as Hb.
  { unfold may_end in Hm. by destruct (before_work (node_kind n) n). }
  destruct (eval_unaborted _ _ _ _ _ (calm_work_with_exception n Hnt Hb) Ha Hr) as [[] Hres].
  simpl in Hres. subst res. destruct Had as [Hs Hbeh]. rewrite replay_trace in Hbeh.
  apply eval_run in Hr as [fuel Hr]. exists fuel, n', e'. rewrite <- Htr in Hs, Hbeh. auto.
Qed.

End nodes.

(** ** Concrete nodes *)

Module Samples.

Definition bytes (x : Z) : Z := 8.

(** A filter that drops odd numbers, between the queues 0 and 1. *)
Definition drop_odd : node Z unit :=
  SetInputPort (Channel_of_queue 0) (SetOutputPort (Channel_of_queue 1)
    (BindAbortChannel (Channel_of_queue 0)
      (make_node 7 "filter" 0 0 (KFilter (λ u x, (u, Value (Z.odd x)))) tt))).

(** A dispatcher to the queues 1, 2, 3, whose input is fed by two writers. *)
Definition by_value : node Z unit :=
  SetInputPort (Channel_of_queue 0) (SetInputPort (Channel_of_queue 0)
    (AddOutputPort (Channel_of_queue 3) (AddOutputPort (Channel_of_queue 2)
      (AddOutputPort (Channel_of_queue 1)
        (BindAbortChannel (Channel_of_queue 0)
          (make_node 8 "dispatch" 0 3 (KDispatch (λ u x, (u, Value x))) tt)))))).

Definition numbers : env Z :=
  Env {[ 0 := [Some 1%Z; Some 2%Z; Some 3%Z; None; Some 4%Z; None] ]} [] [].

Lemma complete_numbers (n : node Z unit) k :
  in_duty n = {[ 0 := k ]} → k ≤ 2 → complete (duty n) numbers.
Proof.
  intros Hn Hk q. simpl. rewrite Hn. destruct (decide (q = 0)) as [->|Hne].
  - rewrite lookup_total_singleton, decide_True by done. exact Hk.
  - rewrite lookup_total_singleton, decide_False by done. apply Nat.le_0_l.
Qed.

Lemma wired_drop_odd : wired drop_odd.
Proof. by repeat split. Qed.

Lemma wired_by_value : wired by_value.
Proof. repeat split; try done; [|by repeat constructor]. simpl. repeat constructor; set_solver. Qed.

Lemma node_protocol_witness :
  WP (work_with_exception bytes drop_odd) (duty drop_odd)
     (λ '(n', r) g, settled g ∧ (r = Value tt → behaves drop_odd (user_state n') (trace g))).
Proof. apply (node_protocol bytes drop_odd). apply wired_drop_odd. Defined.

Lemma node_total_witness :
  ∃ fuel r, run fuel (work_with_exception bytes by_value) numbers = Some r ∧
    lawful (duty by_value) (history (final_env r)) ∧
    match r with
    | Returned (n', res) e' =>
        settled (replay (duty by_value) (history e')) ∧
        (res = Value tt → behaves by_value (user_state n') (history e'))
    | Blocked _ _ => False
    | Crashed c _ => c = StdAbort ∧ may_end by_value = true
    end.
Proof.
  apply (node_total bytes by_value numbers).
  - apply wired_by_value.
  - exact I.
  - apply (complete_numbers by_value 2); reflexivity || lia.
  - reflexivity.
Defined.

Lemma node_returns_witness :
  (∃ fuel n' e', run fuel (work_with_exception bytes drop_odd) numbers = Some (Returned (n', Value tt) e') ∧
    settled (replay (duty drop_odd) (history e')) ∧ behaves drop_odd (user_state n') (history e') ∧
    ∀ q, got q (history e') ++ stream e' !!! q = stream numbers !!! q) ∧
  match run 200 (work_with_exception bytes drop_odd) numbers with
  | Some (Returned (_, Value tt) e') => put 1 (history e') = [Some 2%Z; None]
  | _ => False
  end.
Proof.
  split; [|reflexivity]. apply (node_returns bytes drop_odd numbers).
  - apply wired_drop_odd.
  - reflexivity.
  - exact I.
  - intros u x. by eexists.
  - apply (complete_numbers drop_odd 1); reflexivity || lia.
  - reflexivity.
  - reflexivity.
Defined.

End Samples.
