(* ===== verification/Pipeline.v ===== *)
(** * Pipelines: [tunnel/pipeline.h]

    The builder: a pipeline owns its nodes, connects a node added behind one
    or more leaves by a new queue, and keeps the leaves, the edges and the
    lists of sources and sinks.  An operation is a function of the program's
    shared state ([world]: the id counter and the queues allocated so far) and
    of the pipeline; it returns, throws or crashes, and keeps the changes made
    until then. *)

From stdpp Require Import base gmap strings list fin_maps fin_sets pretty.
From S2P Require Import Prelude Events Coro Processor Nodes.

(** ** Shared state *)

(** [detail::GenerateId]'s counter; the capacities of the data queues and of
    the queues of abort channels, by identity. *)
Record world := World {
  id_ : Z;
  queues : list Z;
  abort_queues : list Z;
}.

Definition initial_world : world := World 1 [] [].

(** ** Iteration over unordered containers

    The order of [std::unordered_set] and [std::unordered_map] is unspecified;
    every element is visited once. *)
Class HashOrder := {
  set_order : gset Z → list Z;
  map_order : ∀ {A}, gmap Z A → list (Z * A);
}.
Class HashOrderLaws `{HashOrder} := {
  set_order_perm X : set_order X ≡ₚ elements X;
  map_order_perm {A} (m : gmap Z A) : map_order m ≡ₚ map_to_list m;
}.

(** [struct PipelineOption] *)
Record PipelineOption := MkPipelineOption {
  bind_abort_channel : bool;
  channel_size : Z;
  name : string;
}.
Definition PipelineOption_default : PipelineOption :=
  MkPipelineOption false default_channel_size "default".

Section pipeline.
Context {T U : Type} `{Inhabited U} `{HashOrder}.

(** The data members of [Pipeline<T>]. *)
Record Pipeline := MkPipeline {
  option_ : PipelineOption;
  nodes_ : gmap Z (node T U);
  leaves_ : gset Z;
  dags_ : gmap Z (gset Z);
  sources_ : list Z;
  sinks_ : list Z;
  abort_channel_ : channel;
}.

Definition Pipeline_init (option : PipelineOption) : Pipeline :=
  MkPipeline option ∅ ∅ ∅ [] [] Channel_null.

Definition set_nodes (m : gmap Z (node T U)) (p : Pipeline) : Pipeline :=
  MkPipeline (option_ p) m (leaves_ p) (dags_ p) (sources_ p) (sinks_ p) (abort_channel_ p).
Definition set_leaves (l : gset Z) (p : Pipeline) : Pipeline :=
  MkPipeline (option_ p) (nodes_ p) l (dags_ p) (sources_ p) (sinks_ p) (abort_channel_ p).
Definition set_dags (d : gmap Z (gset Z)) (p : Pipeline) : Pipeline :=
  MkPipeline (option_ p) (nodes_ p) (leaves_ p) d (sources_ p) (sinks_ p) (abort_channel_ p).
Definition set_sources (l : list Z) (p : Pipeline) : Pipeline :=
  MkPipeline (option_ p) (nodes_ p) (leaves_ p) (dags_ p) l (sinks_ p) (abort_channel_ p).
Definition set_sinks (l : list Z) (p : Pipeline) : Pipeline :=
  MkPipeline (option_ p) (nodes_ p) (leaves_ p) (dags_ p) (sources_ p) l (abort_channel_ p).
Definition set_abort_channel (c : channel) (p : Pipeline) : Pipeline :=
  MkPipeline (option_ p) (nodes_ p) (leaves_ p) (dags_ p) (sources_ p) (sinks_ p) c.

(** ** The builder monad *)

Definition state : Type := world * Pipeline.
Definition B (A : Type) : Type := state → state * outcome A.

#[export] Instance B_ret : MRet B := λ A a s, (s, Ok a).
#[export] Instance B_bind : MBind B := λ A A' f m s,
  match m s with
  | (s', Ok a) => f a s'
  | (s', Throw e) => (s', Throw e)
  | (s', Crash c) => (s', Crash c)
  end.

Definition throw {A} (e : exn) : B A := λ s, (s, Throw e).
Definition crash_with {A} (c : crash) : B A := λ s, (s, Crash c).
Definition get {A} (f : Pipeline → A) : B A := λ s, (s, Ok (f s.2)).
Definition update (f : Pipeline → Pipeline) : B unit := λ s, ((s.1, f s.2), Ok tt).
Definition assert_that (b : bool) : B unit := if b then mret tt else crash_with AssertFail.

Fixpoint for_all {A} (l : list A) (body : A → B unit) : B unit :=
  match l with
  | [] => mret tt
  | x :: l => body x ;; for_all l body
  end.

(** A loop that threads a local variable. *)
Fixpoint for_all_with {A S} (l : list A) (s : S) (body : A → S → B S) : B S :=
  match l with
  | [] => mret s
  | x :: l => s' ← body x s; for_all_with l s' body
  end.

(** ** Allocation *)

Definition GenerateId : B Z := λ '(w, p),
  ((World (u64 (id_ w + 1)) (queues w) (abort_queues w), p), Ok (id_ w)).
(** [std::make_shared<BoundedQueue<std::optional<T>>>(capacity)] *)
Definition make_queue (capacity : Z) : B qid := λ '(w, p),
  ((World (id_ w) (queues w ++ [capacity]) (abort_queues w), p), Ok (length (queues w))).
Definition make_abort_queue (capacity : Z) : B aqid := λ '(w, p),
  ((World (id_ w) (queues w) (abort_queues w ++ [capacity]), p), Ok (length (abort_queues w))).

Definition make_NoOpTransform : B (node T U) :=
  id ← GenerateId; mret (make_node id "no_op" 0 0 KNoOpTransform inhabitant).
(** [MultiIOneO] and [OneIMultiO] assert that they have ports. *)
Definition make_Concat (input_size : Z) : B (node T U) :=
  id ← GenerateId; assert_that (bool_decide (input_size > 0)%Z) ;;
  mret (make_node id "concat" input_size 0 KConcat inhabitant).
Definition make_Fork (output_size : Z) : B (node T U) :=
  id ← GenerateId; assert_that (bool_decide (output_size > 0)%Z) ;;
  mret (make_node id "fork" 0 output_size KFork inhabitant).

(** ** [connect] *)

(** [connect(Processor<T>&, Processor<T>&, size_t)] *)
Definition connect (input output : node T U) (capacity : Z) : B (node T U * node T U) :=
  q ← make_queue capacity;
  let channel := Channel_of_queue q in
  mret (SetOutputPort channel input, SetInputPort channel output).

(** [connect(Processor<T>&, Processor<T>&, std::shared_ptr<BoundedQueue>&)] *)
Definition connect_queue (input output : node T U) (queue : qid) : node T U * node T U :=
  let channel := Channel_of_queue queue in
  (SetOutputPort channel input, SetInputPort channel output).

(** [connect(Processor<T>&, MultiIOneO<T>&, size_t)] *)
Definition connect_MultiIOneO (input output : node T U) (capacity : Z) : B (node T U * node T U) :=
  q ← make_queue capacity;
  let channel := Channel_of_queue q in
  mret (SetOutputPort channel input, AddInputPort channel output).

(** [connect(OneIMultiO<T>&, Processor<T>&, size_t)] *)
Definition connect_OneIMultiO (input output : node T U) (capacity : Z) : B (node T U * node T U) :=
  q ← make_queue capacity;
  let channel := Channel_of_queue q in
  mret (AddOutputPort channel input, SetInputPort channel output).

(** ** Private members *)

(** [*nodes_[id]]: a missing key gives a null pointer. *)
Definition node_at (id : Z) : B (node T U) :=
  found ← get (λ p, nodes_ p !! id);
  match found with Some n => mret n | None => crash_with UndefinedBehaviour end.
Definition store_node (id : Z) (n : node T U) : B unit :=
  update (λ p, set_nodes (<[id := n]> (nodes_ p)) p).

(** [nodes_.insert({id, std::move(node)})] does not replace. *)
Definition insert_new {A} (id : Z) (a : A) (m : gmap Z A) : gmap Z A :=
  match m !! id with Some _ => m | None => <[id := a]> m end.
Definition insert_node (id : Z) (n : node T U) : B unit :=
  update (λ p, set_nodes (insert_new id n (nodes_ p)) p).

Definition insert_leaf (id : Z) : B unit := update (λ p, set_leaves (leaves_ p ∪ {[id]}) p).
Definition erase_leaf (id : Z) : B unit := update (λ p, set_leaves (leaves_ p ∖ {[id]}) p).

Definition add_edge (from to : Z) : B unit :=
  update (λ p, set_dags (<[from := default ∅ (dags_ p !! from) ∪ {[to]}]> (dags_ p)) p).

Definition new_node_check (id : Z) : B unit :=
  found ← get (λ p, nodes_ p !! id);
  match found with Some _ => throw "add duplicate node to pipeline" | None => mret tt end.

Definition leaf_check (leaf_id : Z) : B unit :=
  leaves ← get leaves_;
  if decide (leaf_id ∈ leaves) then mret tt else throw "invalid leaf node for pipeline".

(** [leaves_check] for sets and for vectors *)
Definition leaves_check_set (leaves : gset Z) : B unit := for_all (set_order leaves) leaf_check.
Definition leaves_check_vector (leaves : list Z) : B unit := for_all leaves leaf_check.

(** [assert(nodes_.find(id) != nodes_.end())] *)
Definition assert_node (id : Z) : B unit :=
  found ← get (λ p, nodes_ p !! id);
  assert_that (match found with Some _ => true | None => false end).

(** The body of the loops of [merge_to] and [merge]. *)
Definition connect_leaf (queue : qid) (id each : Z) (n : node T U) : B (node T U) :=
  leaf ← node_at each;
  let '(leaf', n') := connect_queue leaf n queue in
  store_node each leaf' ;;
  add_edge each id ;;
  mret n'.

Definition merge_to (insert_to_leaves : bool) (n : node T U) (leaves : gset Z) : B Z :=
  let id := processor_id_ n in
  new_node_check id ;;
  leaves_check_set leaves ;;
  size ← get (λ p, channel_size (option_ p));
  queue ← make_queue size;
  n' ← for_all_with (set_order leaves) n (λ each n,
         n' ← connect_leaf queue id each n;
         erase_leaf each ;;
         mret n');
  insert_node id n' ;;
  (if insert_to_leaves then insert_leaf id else mret tt) ;;
  mret id.

Definition merge (insert_to_leaves : bool) (n : node T U) : B Z :=
  leaves ← get leaves_;
  if decide (leaves = ∅) then throw "can not merge for empty_leaves pipeline" else
  let id := processor_id_ n in
  new_node_check id ;;
  size ← get (λ p, channel_size (option_ p));
  queue ← make_queue size;
  n' ← for_all_with (set_order leaves) n (connect_leaf queue id);
  update (set_leaves ∅) ;;
  insert_node id n' ;;
  (if insert_to_leaves then insert_leaf id else mret tt) ;;
  mret id.

(** ** The interface *)

Definition AddSource (source : node T U) : B Z :=
  let id := processor_id_ source in
  new_node_check id ;;
  insert_node id source ;;
  insert_leaf id ;;
  update (λ p, set_sources (sources_ p ++ [id]) p) ;;
  mret id.

Definition AddTransform (leaf_id : Z) (transform : node T U) : B Z :=
  let trans_id := processor_id_ transform in
  new_node_check trans_id ;;
  leaf_check leaf_id ;;
  assert_node leaf_id ;;
  leaf ← node_at leaf_id;
  size ← get (λ p, channel_size (option_ p));
  '(leaf', transform') ← connect leaf transform size;
  store_node leaf_id leaf' ;;
  add_edge leaf_id trans_id ;;
  erase_leaf leaf_id ;;
  insert_leaf trans_id ;;
  insert_node trans_id transform' ;;
  mret trans_id.

(** [AddTransform(creater)]: [creater i] is the node the user's function gives
    at its [i]-th call. *)
Definition AddTransform_all (creater : nat → node T U) : B (gset Z) :=
  leaves ← get leaves_;
  '(_, new_leaves) ← for_all_with (set_order leaves) (0, ∅) (λ each '(i, new_leaves),
    let transform := creater i in
    let new_id := processor_id_ transform in
    new_node_check new_id ;;
    assert_node each ;;
    leaf ← node_at each;
    size ← get (λ p, channel_size (option_ p));
    '(leaf', transform') ← connect leaf transform size;
    store_node each leaf' ;;
    add_edge each new_id ;;
    insert_node new_id transform' ;;
    mret (S i, new_leaves ∪ {[new_id]}));
  update (set_leaves new_leaves) ;;
  mret new_leaves.

Definition SetSink (sink : node T U) : B Z :=
  id ← merge false sink;
  update (λ p, set_sinks (sinks_ p ++ [id]) p) ;;
  mret id.

Definition SetSink_leaves (sink : node T U) (leaves : gset Z) : B Z :=
  id ← merge_to false sink leaves;
  update (λ p, set_sinks (sinks_ p ++ [id]) p) ;;
  mret id.

Definition Merge_leaves (transform : node T U) (leaves : gset Z) : B Z := merge_to true transform leaves.

Definition Merge_noop_leaves (leaves : gset Z) : B Z :=
  no_op ← make_NoOpTransform;
  merge_to true no_op leaves.

Definition Merge (transform : node T U) : B Z := merge true transform.

Definition Merge_noop : B Z :=
  no_op ← make_NoOpTransform;
  merge true no_op.

(** One output of [DispatchFrom] and of [ForkFrom]: a NoOp behind a new queue. *)
Definition add_output (from_id : Z) (n : node T U) (result : gset Z) : B (node T U * gset Z) :=
  no_op ← make_NoOpTransform;
  size ← get (λ p, channel_size (option_ p));
  '(n', no_op') ← connect_OneIMultiO n no_op size;
  let noop_id := processor_id_ no_op' in
  add_edge from_id noop_id ;;
  insert_node noop_id no_op' ;;
  mret (n', result ∪ {[noop_id]}).

(** The end of [DispatchFrom] and of [ForkFrom]. *)
Definition attach (leaf from_id : Z) (n : node T U) (result : gset Z) : B (gset Z) :=
  leaf_node ← node_at leaf;
  size ← get (λ p, channel_size (option_ p));
  '(leaf', n') ← connect leaf_node n size;
  store_node leaf leaf' ;;
  add_edge leaf from_id ;;
  erase_leaf leaf ;;
  for_all (set_order result) insert_leaf ;;
  insert_node from_id n' ;;
  mret result.

Definition DispatchFrom (leaf : Z) (n : node T U) : B (gset Z) :=
  leaf_check leaf ;;
  let new_size := output_size_ n in
  let dispatch_id := processor_id_ n in
  '(n', result) ← for_all_with (seq 0 (Z.to_nat new_size)) (n, ∅)
                    (λ _ '(n, result), add_output dispatch_id n result);
  attach leaf dispatch_id n' result.

Definition ConcatFrom (leaves : list Z) : B Z :=
  leaves_check_vector leaves ;;
  concat_node ← make_Concat (Z.of_nat (length leaves));
  let id := processor_id_ concat_node in
  concat_node' ← for_all_with leaves concat_node (λ each n,
    leaf ← node_at each;
    size ← get (λ p, channel_size (option_ p));
    '(leaf', n') ← connect_MultiIOneO leaf n size;
    store_node each leaf' ;;
    add_edge each id ;;
    erase_leaf each ;;
    mret n');
  insert_leaf id ;;
  insert_node id concat_node' ;;
  mret id.

Definition ForkFrom (leaf size : Z) : B (gset Z) :=
  leaf_check leaf ;;
  fork ← make_Fork size;
  let fork_id := processor_id_ fork in
  '(fork', result) ← for_all_with (seq 0 (Z.to_nat size)) (fork, ∅)
                       (λ _ '(n, result), add_output fork_id n result);
  attach leaf fork_id fork' result.

Definition SetAbortChannel (c : channel) : B unit := update (set_abort_channel c).

(** A null executor is [None]. *)
Definition BindExecutorForProcessor (id : Z) (ex : option Z) : B unit :=
  match ex with
  | None => crash_with AssertFail
  | Some ex =>
      found ← get (λ p, nodes_ p !! id);
      match found with
      | None => throw "bind executor error, invalid processor id"
      | Some n => store_node id (SetBindExecutor ex n)
      end
  end.

(** ** Queries *)

Definition IsCompleted (p : Pipeline) : bool := bool_decide (leaves_ p = ∅).
Definition GetProcessorSize (p : Pipeline) : nat := size (nodes_ p).
Definition CurrentLeaves (p : Pipeline) : gset Z := leaves_ p.
Definition GetSources (p : Pipeline) : list Z := sources_ p.
Definition IsSource (id : Z) (p : Pipeline) : bool := bool_decide (id ∈ sources_ p).
Definition GetSinks (p : Pipeline) : list Z := sinks_ p.
Definition IsSink (id : Z) (p : Pipeline) : bool := bool_decide (id ∈ sinks_ p).
Definition GetName (p : Pipeline) : string := name (option_ p).
Definition GetAbortChannel (p : Pipeline) : channel := abort_channel_ p.

Definition newline : string := String (Ascii.ascii_of_nat 10) EmptyString.

Definition Dump_node (p : Pipeline) (each : Z * node T U) : string :=
  pretty each.1 +:+ " (" +:+ name_ each.2 +:+ ") : " +:+
  match dags_ p !! each.1 with
  | Some edges => String.concat "" ((λ to, pretty to +:+ " ") <$> set_order edges) +:+ newline
  | None => newline
  end.

Definition Dump (p : Pipeline) : string :=
  "pipeline : " +:+ name (option_ p) +:+ newline +:+
  "node size : " +:+ pretty (Z.of_nat (size (nodes_ p))) +:+ newline +:+
  String.concat "" (Dump_node p <$> map_order (nodes_ p)) +:+
  "the pipeline is " +:+ (if IsCompleted p then "completed" else "incompleted") +:+ newline.

(** [DumpToFile]: [files] are the contents of the files; a file that cannot be
    opened is not written, and no error is reported. *)
Definition DumpToFile (writable : string → bool) (file : string) (p : Pipeline)
    (files : gmap string string) : gmap string string :=
  let dump := Dump p in
  if writable file then <[file := dump]> files else files.

(** ** [Run] *)

(** The coroutines given to [collectAllPara]: an executor and the node whose
    [work_with_exception] runs there.  [garbage] is the uninitialised index of
    [Channel<int>(10)]. *)
Definition Run_launch (garbage : Z) (ex : option Z) : B (list (Z * node T U)) :=
  completed ← get IsCompleted;
  if negb completed then throw "try to run incompleted pipeline" else
  nodes ← get nodes_;
  if decide (nodes = ∅) then throw "try to run empty pipeline" else
  match ex with
  | None => throw "pipeline can not run without executor"
  | Some ex =>
      abort_channel ← get GetAbortChannel;
      abort_channel ← (if Channel_bool abort_channel then mret abort_channel
                       else q ← make_abort_queue 10; mret (Channel_of_capacity garbage q));
      bind ← get (λ p, bind_abort_channel (option_ p));
      (if bind : bool then update (λ p, set_nodes (BindAbortChannel abort_channel <$> nodes_ p) p) else mret tt) ;;
      nodes ← get nodes_;
      mret ((λ each : Z * node T U, (default ex (ex_ each.2), each.2)) <$> map_order nodes)
  end.

(** [ProcessorWorkResult], and the loop over [lazy_results] at the end of
    [Run]: each turn builds a result from the next lazy result and the node's
    events, and [results] is returned. *)
Record ProcessorWorkResult := MkProcessorWorkResult {
  work_result : attempt unit;
  event_collector : EventCollector;
}.

Fixpoint Run_results_loop (nodes : list (node T U)) (each_lazy : list (attempt unit))
    (results : list ProcessorWorkResult) : outcome (list ProcessorWorkResult) :=
  match nodes with
  | [] => Ok results
  | n :: nodes =>
      match each_lazy with
      | [] => Crash UndefinedBehaviour
      | r :: each_lazy =>
          let result := MkProcessorWorkResult r (event_collector_ n) in
          Run_results_loop nodes each_lazy results
      end
  end.
Definition Run_results (nodes : list (node T U)) (lazy_results : list (attempt unit)) :=
  Run_results_loop nodes lazy_results [].


(** ** [MergePipeline] *)

(** A map of [std::unique_ptr]: [None] is a pointer that has been moved from. *)
Definition slots : Type := gmap Z (option (node T U)).
Definition take (id : Z) (m : slots) : option (node T U) * slots :=
  (default None (m !! id), <[id := None]> m).

(** [NoOpTransform<T>::MergeSinkAndSource] *)
Definition MergeSinkAndSource (sink source : option (node T U)) : B (node T U) :=
  no_op ← make_NoOpTransform;
  match sink, source with
  | Some sink, Some source =>
      mret (BindAbortChannel (abort_port sink)
             (set_output_port (output_port source)
               (set_input_port (input_port sink)
                 (set_input_count (input_count_ sink) no_op))))
  | _, _ => crash_with UndefinedBehaviour
  end.

(** [detail::ReplaceSinkIdInDags] *)
Definition replace_sink (old_id new_id : Z) (to : gset Z) : gset Z :=
  if decide (old_id ∈ to) then (to ∖ {[old_id]}) ∪ {[new_id]} else to.
Definition ReplaceSinkIdInDags (dags : gmap Z (gset Z)) (old_sink_id new_id : list Z) :
    B (gmap Z (gset Z)) :=
  assert_that (bool_decide (length old_sink_id = length new_id)) ;;
  mret (foldl (λ dags '(o, n), replace_sink o n <$> dags) dags (zip old_sink_id new_id)).

(** [detail::ReplaceSourceIdInDags]: [add_dag] keeps its keys from one turn to
    the next; [publish] inserts its entries into [dags], and the sets moved out
    of it are empty. *)
Definition publish (dags add_dag : gmap Z (gset Z)) : gmap Z (gset Z) * gmap Z (gset Z) :=
  (dags ∪ add_dag, map_imap (λ k to, Some (if decide (k ∈ dom dags) then to else ∅)) add_dag).
Definition ReplaceSourceIdInDags (dags : gmap Z (gset Z)) (old_source_id new_id : list Z) :
    B (gmap Z (gset Z)) :=
  '(dags, _) ← for_all_with (imap pair old_source_id) (dags, ∅) (λ '(i, old_id) '(dags, add_dag),
    match dags !! old_id with
    | Some to =>
        match new_id !! i with
        | Some new_id => mret (publish (delete old_id dags) (insert_new new_id to add_dag))
        | None => crash_with UndefinedBehaviour
        end
    | None => mret (publish dags add_dag)
    end);
  mret dags.

(** The loop that merges the sinks of [left] with the sources of [right]. *)
Definition merge_ends (left right : Pipeline) : B (slots * slots * list (node T U)) :=
  for_all_with (seq 0 (length (GetSinks left)))
    (Some <$> nodes_ left, Some <$> nodes_ right, [])
    (λ i '(lnodes, rnodes, noops),
      match sinks_ left !! i, sources_ right !! i with
      | Some sink_id, Some source_id =>
          let '(sink, lnodes) := take sink_id lnodes in
          let '(source, rnodes) := take source_id rnodes in
          no_op ← MergeSinkAndSource sink source;
          mret (lnodes, rnodes, noops ++ [no_op])
      | _, _ => crash_with UndefinedBehaviour
      end).

(** The members of the new pipeline; [insert] keeps the entry that is there. *)
Definition merged (left right : Pipeline) (lnodes rnodes : slots) (noops : list (node T U))
    (ldags rdags : gmap Z (gset Z)) : Pipeline :=
  MkPipeline
    (MkPipelineOption (bind_abort_channel (option_ left) && bind_abort_channel (option_ right)) 0
       (name (option_ left) +:+ "-merge-" +:+ name (option_ right)))
    (omap id (filter (λ kv, IsSink kv.1 left = false) lnodes)
       ∪ omap id (filter (λ kv, IsSource kv.1 right = false) rnodes)
       ∪ list_to_map ((λ n, (processor_id_ n, n)) <$> noops))
    ∅ (ldags ∪ rdags) (sources_ left) (sinks_ right) Channel_null.

Definition MergePipeline (left right : Pipeline) : B Pipeline :=
  if negb (IsCompleted left && IsCompleted right) then
    throw "can only merge two completed pipeline"
  else if decide (GetProcessorSize left = 0) then mret right
  else if decide (GetProcessorSize right = 0) then mret left
  else if decide (length (GetSinks left) ≠ length (GetSources right)) then
    throw "the number of sources and sinks in the merged pipeline is not equal"
  else
    '(lnodes, rnodes, noops) ← merge_ends left right;
    let noop_ids := processor_id_ <$> noops in
    ldags ← ReplaceSinkIdInDags (dags_ left) (sinks_ left) noop_ids;
    rdags ← ReplaceSourceIdInDags (dags_ right) (sources_ right) noop_ids;
    mret (merged left right lnodes rnodes noops ldags rdags).

End pipeline.

Arguments Pipeline : clear implicits.
Arguments state : clear implicits.
Arguments B : clear implicits.
