(* ===== verification/PipelineInv.v ===== *)
(** * The builder keeps pipelines well formed

    [wiring] relates the ports of the nodes, the queues and the edges of a
    pipeline: every queue between its nodes has one reader, which expects as many
    ends of file as the queue has writers; the edges are exactly the
    writer-reader pairs; and they form no cycle.  The ports of a
    [ChannelSource] and a [ChannelSink] to channels of the user are left out.  [built] adds that every node has its inputs
    connected and every node that is not a leaf its outputs.  Each operation
    of the builder keeps [built], and a completed pipeline is a network
    of connected nodes. *)

From stdpp Require Import base functions gmap strings fin_maps fin_sets list.
From S2P Require Import Prelude Events Coro Processor Nodes PortLogic NodeProtocol Pipeline.

Section wiring.
Context {T U : Type}.
Implicit Types (n : node T U) (ns : gmap Z (node T U)) (qs : list Z) (d : gmap Z (gset Z)).

Definition writes n (q : qid) : nat := if decide (q ∈ out_duty n) then 1 else 0.
Definition expects n (q : qid) : nat := in_duty n !!! q.

(** A [ChannelSource] reads from, and a [ChannelSink] writes to, a channel of
    the user: their ports to the outside are no business of the builder. *)
Definition outside_in (k : kind T U) : bool := match k with KChannelSource => true | _ => false end.
Definition outside_out (k : kind T U) : bool := match k with KChannelSink => true | _ => false end.
Definition inner_writes n (q : qid) : nat := if outside_out (node_kind n) then 0 else writes n q.
Definition inner_expects n (q : qid) : nat := if outside_in (node_kind n) then 0 else expects n q.

(** [cap]: the capacity of all queues; [rank]: a topological order. *)
Record wiring (cap : Z) qs (rank : Z → nat) (bound : nat) d ns : Prop := {
  w_balance q : Σ[n ∈ ns] inner_writes n q = Σ[n ∈ ns] inner_expects n q;
  w_reader q a b na nb :
    ns !! a = Some na → ns !! b = Some nb → 0 < inner_expects na q → 0 < inner_expects nb q → a = b;
  w_cap q a n : ns !! a = Some n → 0 < inner_writes n q + inner_expects n q → qs !! q = Some cap;
  w_edges a b : b ∈ default ∅ (d !! a) ↔
    ∃ q na nb, ns !! a = Some na ∧ ns !! b = Some nb ∧ 0 < inner_writes na q ∧ 0 < inner_expects nb q;
  w_rank q a b na nb :
    ns !! a = Some na → ns !! b = Some nb → 0 < inner_writes na q → 0 < inner_expects nb q → rank a < rank b;
  w_bound a n : ns !! a = Some n → rank a < bound;
}.

Lemma wiring_empty cap qs : wiring cap qs (λ _, 0) 0 ∅ ∅.
Proof.
  split; try (intros; by simplify_map_eq).
  intros a b. split; [|naive_solver]. by rewrite lookup_empty.
Qed.

Lemma wiring_new_queue cap qs c rank bound d ns :
  wiring cap qs rank bound d ns → wiring cap (qs ++ [c]) rank bound d ns.
Proof.
  intros [Hb Hr Hc He Hk Hd]. split; try done.
  intros q a n Hn Hq. apply lookup_app_l_Some. eauto.
Qed.

(** A node without duties. *)
Lemma wiring_add cap qs rank bound d ns id n :
  wiring cap qs rank bound d ns → ns !! id = None →
  (∀ q, inner_writes n q = 0) → (∀ q, inner_expects n q = 0) →
  wiring cap qs (<[id := bound]> rank) (S bound) d (<[id := n]> ns).
Proof.
  intros [Hb Hr Hc He Hk Hd] Hid Hw Hx.
  assert (∀ a m q, <[id := n]> ns !! a = Some m → 0 < inner_writes m q ∨ 0 < inner_expects m q →
            ns !! a = Some m ∧ a ≠ id) as Hold.
  { intros a m q [[-> ->]|[Hne Hm]]%lookup_insert_Some Hq; [rewrite Hw, Hx in Hq; lia|done]. }
  split.
  - intros q. rewrite !sum_over_insert by done. by rewrite Hw, Hx, Hb.
  - intros q a b na nb Ha Hb' Hqa Hqb.
    apply (Hold _ _ q) in Ha as [Ha _]; [|lia]. apply (Hold _ _ q) in Hb' as [Hb' _]; [|lia]. eauto.
  - intros q a m Hm Hq. apply (Hold _ _ q) in Hm as [Hm _]; [|lia]. eauto.
  - intros a b. rewrite He. split; intros (q & na & nb & Ha & Hb' & Hq1 & Hq2); exists q, na, nb.
    + assert (a ≠ id) by congruence. assert (b ≠ id) by congruence. by rewrite !lookup_insert_ne.
    + apply (Hold _ _ q) in Ha as [Ha _]; [|lia]. apply (Hold _ _ q) in Hb' as [Hb' _]; [|lia]. done.
  - intros q a b na nb Ha Hb' Hq1 Hq2.
    apply (Hold _ _ q) in Ha as [Ha Hna]; [|lia]. apply (Hold _ _ q) in Hb' as [Hb' Hnb]; [|lia].
    rewrite !fn_lookup_insert_ne by done. eauto.
  - intros a m Hm. destruct (decide (a = id)) as [->|Hne]; [rewrite fn_lookup_insert; lia|].
    rewrite lookup_insert_ne in Hm by done. rewrite fn_lookup_insert_ne by done. apply Hd in Hm. lia.
Qed.

(** A new pair of writer and reader on queue [q]. *)
Section connect.
Context (cap : Z) qs (rank : Z → nat) (bound : nat) d ns (a b : Z) (na nb na' nb' : node T U) (q : qid).
Hypothesis Hwiring : wiring cap qs rank bound d ns.
Hypothesis Ha : ns !! a = Some na.
Hypothesis Hbn : ns !! b = Some nb.
Hypothesis Hrank : rank a < rank b.
Hypothesis Hq : qs !! q = Some cap.
Hypothesis Hna : inner_writes na q = 0.
Hypothesis Hwa : ∀ q', inner_writes na' q' = if decide (q' = q) then 1 else inner_writes na q'.
Hypothesis Hxa : ∀ q', inner_expects na' q' = inner_expects na q'.
Hypothesis Hwb : ∀ q', inner_writes nb' q' = inner_writes nb q'.
Hypothesis Hxb : ∀ q', inner_expects nb' q' = if decide (q' = q) then S (inner_expects nb q) else inner_expects nb q'.
Hypothesis Huniq : ∀ c nc, ns !! c = Some nc → 0 < inner_expects nc q → c = b.

#[local] Abbreviation ns' := (<[a := na']> (<[b := nb']> ns)).

Lemma connect_ne : a ≠ b.
Proof. intros ->. lia. Qed.

Lemma connect_balance q' : sum_over (λ n, inner_writes n q') ns' = sum_over (λ n, inner_expects n q') ns'.
Proof.
  pose proof (sum_over_update (λ n, inner_writes n q') (<[b := nb']> ns) a na na') as H1.
  pose proof (sum_over_update (λ n, inner_writes n q') ns b nb nb' Hbn) as H2.
  pose proof (sum_over_update (λ n, inner_expects n q') (<[b := nb']> ns) a na na') as H3.
  pose proof (sum_over_update (λ n, inner_expects n q') ns b nb nb' Hbn) as H4.
  rewrite lookup_insert_ne in H1, H3 by (apply not_eq_sym, connect_ne).
  specialize (H1 Ha). specialize (H3 Ha). simpl in *.
  rewrite Hwa in H1. rewrite Hwb in H2. rewrite Hxa in H3. rewrite Hxb in H4.
  pose proof (w_balance _ _ _ _ _ _ Hwiring q'). case_decide; subst; lia.
Qed.

(** The duties of the nodes of the new network, from those of the old one. *)
Lemma connect_new c nc :
  ns' !! c = Some nc → ∃ nc0, ns !! c = Some nc0 ∧
    (∀ q', inner_writes nc q' = if decide (c = a ∧ q' = q) then 1 else inner_writes nc0 q') ∧
    (∀ q', inner_expects nc q' = if decide (c = b ∧ q' = q) then S (inner_expects nc0 q) else inner_expects nc0 q').
Proof.
  pose proof connect_ne as Hne.
  intros [[<- <-]|[Hca [[<- <-]|[Hcb Hc']]%lookup_insert_Some]]%lookup_insert_Some.
  - exists na. split; [done|]. split; intros q'; rewrite ?Hwa, ?Hxa; repeat case_decide; naive_solver.
  - exists nb. split; [done|]. split; intros q'; rewrite ?Hwb, ?Hxb; repeat case_decide; naive_solver.
  - exists nc. split; [done|]. split; intros q'; repeat case_decide; naive_solver.
Qed.

Lemma connect_old c nc : ns !! c = Some nc → ∃ nc', ns' !! c = Some nc'.
Proof.
  intros Hc. destruct (decide (c = a)) as [->|]; [rewrite lookup_insert_eq; eauto|].
  rewrite lookup_insert_ne by done.
  destruct (decide (c = b)) as [->|]; [rewrite lookup_insert_eq; eauto|].
  rewrite lookup_insert_ne by done. eauto.
Qed.

(** The only reader of [q] is [b]; the readers of the other queues stay. *)
Lemma connect_reads c nc0 q' :
  ns !! c = Some nc0 →
  0 < (if decide (c = b ∧ q' = q) then S (inner_expects nc0 q) else inner_expects nc0 q') →
  c = b ∧ q' = q ∨ q' ≠ q ∧ 0 < inner_expects nc0 q'.
Proof.
  intros Hc Hx. destruct (decide (q' = q)) as [->|Hq']; [left|right].
  - split; [|done]. destruct (decide (c = b)); [done|].
    rewrite decide_False in Hx by (by intros [? _]). eauto.
  - by rewrite decide_False in Hx by (by intros [_ ?]).
Qed.

(** A writer of [q] in the old network has [b] as its reader. *)
Lemma connect_writer c nc : ns !! c = Some nc → 0 < inner_writes nc q → 0 < inner_expects nb q.
Proof.
  intros Hc Hw. pose proof (sum_over_le (λ n, inner_writes n q) ns c nc Hc) as Hle. simpl in Hle.
  destruct (sum_over_pos (λ n, inner_expects n q) ns) as (e & ne & Hen & Hex).
  { rewrite <- (w_balance _ _ _ _ _ _ Hwiring). lia. }
  assert (e = b) as -> by eauto. congruence.
Qed.

(** The pairs of writer and reader: the old ones and [(a, b)]. *)
Lemma connect_pairs q' c e nc ne :
  ns' !! c = Some nc → ns' !! e = Some ne → 0 < inner_writes nc q' → 0 < inner_expects ne q' →
  c = a ∧ e = b ∨
  ∃ nc0 ne0, ns !! c = Some nc0 ∧ ns !! e = Some ne0 ∧ 0 < inner_writes nc0 q' ∧ 0 < inner_expects ne0 q'.
Proof.
  intros (nc0 & Hc0 & Hwc & _)%connect_new (ne0 & He0 & _ & Hxe)%connect_new Hw Hx.
  rewrite Hwc in Hw. rewrite Hxe in Hx.
  destruct (decide (c = a ∧ q' = q)) as [[-> ->]|Hnot].
  - destruct (connect_reads _ _ _ He0 Hx) as [[-> _]|[? _]]; [by left|done].
  - right. exists nc0, ne0. split; [done|]. split; [done|]. split; [done|].
    destruct (connect_reads _ _ _ He0 Hx) as [[-> ->]|[_ ?]]; [|done].
    simplify_eq. by eapply connect_writer.
Qed.

Lemma connect_edges c e :
  e ∈ default ∅ (<[a := default ∅ (d !! a) ∪ {[b]}]> d !! c) ↔
  ∃ q' nc ne, ns' !! c = Some nc ∧ ns' !! e = Some ne ∧ 0 < inner_writes nc q' ∧ 0 < inner_expects ne q'.
Proof.
  assert (e ∈ default ∅ (<[a := default ∅ (d !! a) ∪ {[b]}]> d !! c) ↔
          c = a ∧ e = b ∨ e ∈ default ∅ (d !! c)) as ->.
  { destruct (decide (c = a)) as [->|]; [rewrite lookup_insert_eq|rewrite lookup_insert_ne by done];
      simpl; set_solver. }
  rewrite (w_edges _ _ _ _ _ _ Hwiring). split.
  - intros [[-> ->]|(q' & nc & ne & Hc & He & Hw & Hx)].
    + exists q, na', nb'. rewrite lookup_insert_eq, lookup_insert_ne, lookup_insert_eq by apply connect_ne.
      rewrite Hwa, Hxb, !decide_True by done. repeat split; lia.
    + destruct (connect_old _ _ Hc) as [nc' Hc']. destruct (connect_old _ _ He) as [ne' He'].
      exists q', nc', ne'. split; [done|]. split; [done|].
      apply connect_new in Hc' as (nc0 & Hc0 & Hwc & _). apply connect_new in He' as (ne0 & He0 & _ & Hxe).
      simplify_eq. rewrite Hwc, Hxe. repeat case_decide; lia.
  - intros (q' & nc & ne & Hc & He & Hw & Hx).
    destruct (connect_pairs _ _ _ _ _ Hc He Hw Hx) as [|(nc0 & ne0 & ?)]; [by left|right]. by exists q', nc0, ne0.
Qed.

Lemma wiring_connect : wiring cap qs rank bound (<[a := default ∅ (d !! a) ∪ {[b]}]> d) ns'.
Proof.
  split.
  - apply connect_balance.
  - intros q' c e nc ne (nc0 & Hc0 & _ & Hxc)%connect_new (ne0 & He0 & _ & Hxe)%connect_new Hqc Hqe.
    rewrite Hxc in Hqc. rewrite Hxe in Hqe.
    destruct (connect_reads _ _ _ Hc0 Hqc) as [[-> ->]|[? ?]], (connect_reads _ _ _ He0 Hqe) as [[-> ?]|[? ?]];
      try done. eapply (w_reader _ _ _ _ _ _ Hwiring); eauto.
  - intros q' c nc (nc0 & Hc0 & Hwc & Hxc)%connect_new Hpos.
    destruct (decide (q' = q)) as [->|Hq']; [done|].
    rewrite Hwc, Hxc, !decide_False in Hpos by (by intros [_ ?]).
    eapply (w_cap _ _ _ _ _ _ Hwiring); eauto.
  - apply connect_edges.
  - intros q' c e nc ne Hc He Hw Hx.
    destruct (connect_pairs _ _ _ _ _ Hc He Hw Hx) as [[-> ->]|(nc0 & ne0 & ? & ? & ? & ?)]; [done|].
    eapply (w_rank _ _ _ _ _ _ Hwiring); eauto.
  - intros c nc (nc0 & Hc0 & _)%connect_new. eapply (w_bound _ _ _ _ _ _ Hwiring); eauto.
Qed.

End connect.

(** A queue that does not exist yet has no duties on it. *)
Lemma wiring_unused cap qs rank bound d ns a n q :
  wiring cap qs rank bound d ns → ns !! a = Some n → length qs ≤ q → inner_writes n q = 0 ∧ inner_expects n q = 0.
Proof.
  intros Hw Ha Hq. destruct (decide (inner_writes n q + inner_expects n q = 0)); [lia|].
  assert (qs !! q = Some cap) as Hl by (eapply (w_cap _ _ _ _ _ _ Hw); [done|lia]).
  apply lookup_lt_Some in Hl. lia.
Qed.

(** Connecting two nodes by a new queue. *)
Lemma wiring_link cap qs rank bound d ns a b na nb na' nb' :
  let q := length qs in
  wiring cap qs rank bound d ns → ns !! a = Some na → ns !! b = Some nb → rank a < rank b →
  (∀ q', inner_writes na' q' = if decide (q' = q) then 1 else inner_writes na q') →
  (∀ q', inner_expects na' q' = inner_expects na q') →
  (∀ q', inner_writes nb' q' = inner_writes nb q') →
  (∀ q', inner_expects nb' q' = if decide (q' = q) then S (inner_expects nb q) else inner_expects nb q') →
  wiring cap (qs ++ [cap]) rank bound (<[a := default ∅ (d !! a) ∪ {[b]}]> d) (<[a := na']> (<[b := nb']> ns)).
Proof.
  intros q Hw Ha Hb Hrank Hwa Hxa Hwb Hxb.
  apply (wiring_connect _ _ _ _ _ _ _ _ na nb _ _ q); try done.
  - by apply wiring_new_queue.
  - by rewrite lookup_app_r, Nat.sub_diag by lia.
  - by eapply wiring_unused.
  - intros c nc Hc Hx. destruct (wiring_unused _ _ _ _ _ _ _ _ q Hw Hc) as [_ Hx']; [done|]. lia.
Qed.

(** Appending a new node by a new queue. *)
Lemma wiring_append cap qs rank bound d ns a na na' id n n' :
  let q := length qs in
  wiring cap qs rank bound d ns → ns !! a = Some na → ns !! id = None →
  (∀ q', inner_writes n q' = 0) → (∀ q', inner_expects n q' = 0) →
  (∀ q', inner_writes na' q' = if decide (q' = q) then 1 else inner_writes na q') →
  (∀ q', inner_expects na' q' = inner_expects na q') →
  (∀ q', inner_writes n' q' = 0) → (∀ q', inner_expects n' q' = if decide (q' = q) then 1 else 0) →
  wiring cap (qs ++ [cap]) (<[id := bound]> rank) (S bound) (<[a := default ∅ (d !! a) ∪ {[id]}]> d)
    (<[id := n']> (<[a := na']> ns)).
Proof.
  intros q Hw Ha Hid Hwn Hxn Hwa Hxa Hwn' Hxn'. assert (a ≠ id) as Hne by congruence.
  rewrite insert_insert_ne, <- (insert_insert_eq ns id n' n) by done.
  eapply (wiring_link _ _ _ _ _ _ _ _ na n); try done.
  - by apply wiring_add.
  - by rewrite lookup_insert_ne.
  - apply lookup_insert_eq.
  - rewrite fn_lookup_insert, fn_lookup_insert_ne by done. by eapply (w_bound _ _ _ _ _ _ Hw).
  - intros q'. by rewrite Hwn, Hwn'.
  - intros q'. rewrite Hxn', !Hxn. done.
Qed.

End wiring.

(** ** Duties and ports *)

Section duties.
Context {T U : Type}.
Implicit Types (n : node T U) (k : kind T U).

Definition is_source k : bool := match k with KSource _ | KEmptySource | KChannelSource => true | _ => false end.
Definition is_sink k : bool := match k with KSink _ | KDumpSink | KChannelSink => true | _ => false end.
Definition is_transform k : bool :=
  match k with KSimpleTransform _ | KNoOpTransform | KFilter _ | KAccumulate _ _ => true | _ => false end.
Definition is_split k : bool := match k with KDispatch _ | KFork => true | _ => false end.
Definition is_concat k : bool := match k with KConcat => true | _ => false end.

(** The kinds with [input_port] and with [output_port]. *)
Definition one_input k : bool := is_sink k || is_transform k || is_split k.
Definition one_output k : bool := is_source k || is_transform k || is_concat k.

(** A node as its constructor leaves it, its ports to the outside excepted. *)
Record unconnected n : Prop := {
  un_in : outside_in (node_kind n) = false → inq n = None;
  un_out : outside_out (node_kind n) = false → outq n = None;
  un_count : input_count_ n = if outside_in (node_kind n) then 1%Z else 0%Z;
  un_ins : inputs_ n = [];
  un_outs : outputs_ n = [];
}.

Definition in_connected n : Prop :=
  if is_source (node_kind n) then True
  else if is_concat (node_kind n) then
    multi_wired (inputs_ n) ∧ Z.of_nat (length (inputs_ n)) = input_size_ n
  else in_wired n.

Definition out_connected n : Prop :=
  if is_sink (node_kind n) then True
  else if is_split (node_kind n) then
    multi_wired (outputs_ n) ∧ Z.of_nat (length (outputs_ n)) = output_size_ n ∧ (0 < output_size_ n)%Z
  else out_wired n.

Lemma one_input_inside k : one_input k = true → outside_in k = false.
Proof. by destruct k. Qed.
Lemma one_output_inside k : one_output k = true → outside_out k = false.
Proof. by destruct k. Qed.

Lemma unconnected_input n :
  unconnected n → one_input (node_kind n) = true → inq n = None ∧ input_count_ n = 0%Z.
Proof. intros [Hi _ Hc _ _] Hk%one_input_inside. rewrite Hc, Hk. auto. Qed.
Lemma unconnected_output n : unconnected n → one_output (node_kind n) = true → outq n = None.
Proof. intros Hu Hk%one_output_inside. by apply (un_out _ Hu). Qed.

Lemma expects_one_input n :
  one_input (node_kind n) = true →
  ∀ q, inner_expects n q = match inq n with
                     | Some q' => if decide (q' = q) then Z.to_nat (input_count_ n) else 0
                     | None => 0
                     end.
Proof.
  intros Hk q. unfold inner_expects, expects, in_duty.
  destruct (node_kind n); try done; destruct (inq n) as [q'|]; try done;
    by rewrite lookup_total_singleton.
Qed.

Lemma expects_source n : is_source (node_kind n) = true → ∀ q, inner_expects n q = 0.
Proof. intros Hk q. unfold inner_expects, expects, in_duty. by destruct (node_kind n). Qed.

Lemma expects_concat n :
  is_concat (node_kind n) = true → ∀ q, inner_expects n q = if decide (q ∈ ptrs (inputs_ n)) then 1 else 0.
Proof.
  intros Hk q. unfold inner_expects, expects, in_duty. destruct (node_kind n); try done. simpl.
  induction (ptrs (inputs_ n)) as [|q' l IH]; [done|]. csimpl.
  destruct (decide (q = q')) as [->|Hne].
  - rewrite lookup_total_insert, !decide_True; [done|by left|done].
  - rewrite lookup_total_insert_ne by done. rewrite IH. repeat case_decide; try done; set_solver.
Qed.

Lemma writes_one_output n :
  one_output (node_kind n) = true → ∀ q, inner_writes n q = if decide (outq n = Some q) then 1 else 0.
Proof.
  intros Hk q. unfold inner_writes, writes, out_duty.
  destruct (node_kind n); try done; destruct (outq n); repeat case_decide; try done; set_solver.
Qed.

Lemma writes_sink n : is_sink (node_kind n) = true → ∀ q, inner_writes n q = 0.
Proof. intros Hk q. unfold inner_writes, writes, out_duty. by destruct (node_kind n). Qed.

Lemma writes_split n :
  is_split (node_kind n) = true → ∀ q, inner_writes n q = if decide (q ∈ ptrs (outputs_ n)) then 1 else 0.
Proof.
  intros Hk q. unfold inner_writes, writes, out_duty.
  destruct (node_kind n); try done; repeat case_decide; try done; set_solver.
Qed.

Lemma unconnected_duties n :
  unconnected n → ∀ q, inner_writes n q = 0 ∧ inner_expects n q = 0.
Proof.
  intros [Hin Hout Hc Hins Houts] q. unfold inner_writes, inner_expects, writes, expects, in_duty, out_duty.
  rewrite Hins, Houts. destruct (node_kind n); rewrite ?Hin, ?Hout by done; done.
Qed.

(** *** The port setters *)

Lemma writes_SetOutputPort n q :
  one_output (node_kind n) = true → outq n = None →
  ∀ q', inner_writes (SetOutputPort (Channel_of_queue q) n) q' = if decide (q' = q) then 1 else inner_writes n q'.
Proof.
  intros Hk Ho q'. rewrite !writes_one_output by done. rewrite Ho. unfold outq. simpl.
  repeat case_decide; naive_solver.
Qed.

Lemma expects_SetOutputPort n c q : inner_expects (SetOutputPort c n) q = inner_expects n q.
Proof. done. Qed.

Lemma writes_SetInputPort n c q : inner_writes (SetInputPort c n) q = inner_writes n q.
Proof. done. Qed.

Lemma expects_SetInputPort n q :
  one_input (node_kind n) = true → (0 ≤ input_count_ n < 2 ^ 64 - 1)%Z →
  inq n = Some q ∨ inq n = None ∧ input_count_ n = 0%Z →
  ∀ q', inner_expects (SetInputPort (Channel_of_queue q) n) q'
        = if decide (q' = q) then S (inner_expects n q) else inner_expects n q'.
Proof.
  intros Hk Hc Hq q'. rewrite !expects_one_input by done. unfold inq at 1. simpl.
  wrap_id.
  destruct Hq as [Hq|[Hq H0]]; rewrite Hq; repeat case_decide; subst; try done; lia.
Qed.

Lemma ptrs_app l l' : ptrs (l ++ l') = ptrs l ++ ptrs l'.
Proof. apply omap_app. Qed.

Lemma expects_AddInputPort n q :
  is_concat (node_kind n) = true → q ∉ ptrs (inputs_ n) →
  ∀ q', inner_expects (AddInputPort (Channel_of_queue q) n) q'
        = if decide (q' = q) then S (inner_expects n q) else inner_expects n q'.
Proof.
  intros Hk Hq q'. rewrite !expects_concat by done. simpl. rewrite ptrs_app. simpl.
  repeat case_decide; subst; try done; set_solver.
Qed.

Lemma writes_AddOutputPort n q :
  is_split (node_kind n) = true →
  ∀ q', inner_writes (AddOutputPort (Channel_of_queue q) n) q' = if decide (q' = q) then 1 else inner_writes n q'.
Proof.
  intros Hk q'. rewrite !writes_split by done. simpl. rewrite ptrs_app. simpl.
  repeat case_decide; subst; try done; set_solver.
Qed.

Lemma multi_wired_snoc l q :
  multi_wired l → q ∉ ptrs l → multi_wired (l ++ [Channel_of_queue q]).
Proof.
  intros [Hnd Hall] Hq. split.
  - rewrite ptrs_app. apply NoDup_app. split; [done|]. split; [|by repeat constructor; set_solver].
    simpl. set_solver.
  - apply Forall_app. split; [done|]. by repeat constructor.
Qed.

End duties.

(** ** The invariant of the builder *)

Section built.
Context {T U : Type} `{Inhabited U} `{HashOrder}.
Implicit Types (n : node T U) (p : Pipeline T U) (w : world) (s : state T U) (D L : gset Z)
  (ns : gmap Z (node T U)).

(** A leaf: a node that still needs a successor. *)
Definition leafy n : Prop := one_output (node_kind n) = true ∧ outq n = None.

(** A node of a pipeline in the making. *)
Record sound w (leaf : bool) (id : Z) n : Prop := {
  so_id : processor_id_ n = id;
  so_range : (0 < id < id_ w)%Z;
  so_count : outside_in (node_kind n) = true → input_count_ n = 1%Z;
  so_in : in_connected n;
  so_out : if leaf then leafy n else out_connected n;
}.

Definition wired_up s : Prop :=
  ∃ rank bound, wiring (channel_size (option_ s.2)) (queues s.1) rank bound (dags_ s.2) (nodes_ s.2).

Record built s : Prop := {
  bt_wiring : wired_up s;
  bt_nodes id n : nodes_ s.2 !! id = Some n → sound s.1 (bool_decide (id ∈ leaves_ s.2)) id n;
  bt_leaves : leaves_ s.2 ⊆ dom (nodes_ s.2);
  bt_id : (0 < id_ s.1 < 2 ^ 64)%Z;
}.

Lemma built_init option w : (0 < id_ w < 2 ^ 64)%Z → built (w, Pipeline_init option).
Proof.
  intros Hw. split; simpl; [|by intros; simplify_map_eq|set_solver|done].
  exists (λ _, 0), 0. apply wiring_empty.
Qed.

(** *** Weakest preconditions of builder actions *)

Definition wpB {A} (m : B T U A) s (Φ : A → state T U → Prop) (Ψ : state T U → Prop) : Prop :=
  match m s with
  | (s', Ok a) => Φ a s'
  | (s', Throw _) => Ψ s'
  | (s', Crash _) => False
  end.

Lemma wpB_ret {A} (a : A) s Φ Ψ : Φ a s → wpB (mret a) s Φ Ψ.
Proof. done. Qed.
Lemma wpB_throw {A} e s (Φ : A → _) Ψ : Ψ s → wpB (throw e) s Φ Ψ.
Proof. done. Qed.
Lemma wpB_get {A} (f : Pipeline T U → A) s Φ Ψ : Φ (f s.2) s → wpB (get f) s Φ Ψ.
Proof. done. Qed.
Lemma wpB_update f s Φ Ψ : Φ tt (s.1, f s.2) → wpB (update f) s Φ Ψ.
Proof. done. Qed.
Lemma wpB_bind {A A'} (m : B T U A) (f : A → B T U A') s Φ Ψ :
  wpB m s (λ a s', wpB (f a) s' Φ Ψ) Ψ → wpB (m ≫= f) s Φ Ψ.
Proof. unfold wpB, mbind, B_bind. by destruct (m s) as [s' [a|e|c]]. Qed.
Lemma wpB_mono {A} (m : B T U A) s (Φ Φ' : A → _) Ψ :
  (∀ a s', Φ a s' → Φ' a s') → wpB m s Φ Ψ → wpB m s Φ' Ψ.
Proof. unfold wpB. intros HΦ. destruct (m s) as [s' [a|e|c]]; auto. Qed.
Lemma wpB_weaken {A} (m : B T U A) s (Φ' Φ : A → _) (Ψ' Ψ : state T U → Prop) :
  (∀ a s', Φ' a s' → Φ a s') → (∀ s', Ψ' s' → Ψ s') → wpB m s Φ' Ψ' → wpB m s Φ Ψ.
Proof. unfold wpB. intros HΦ HΨ. destruct (m s) as [s' [a|e|c]]; auto. Qed.
Lemma wpB_assert b s Φ Ψ : b = true → Φ tt s → wpB (assert_that b) s Φ Ψ.
Proof. by intros ->. Qed.
Lemma wpB_GenerateId w p Φ Ψ :
  (0 < id_ w)%Z → (id_ w + 1 < 2 ^ 64)%Z →
  Φ (id_ w) (World (id_ w + 1) (queues w) (abort_queues w), p) → wpB GenerateId (w, p) Φ Ψ.
Proof. intros ? ? HΦ. unfold wpB. simpl. wrap_id. done. Qed.
Lemma wpB_make_queue c w p Φ Ψ :
  Φ (length (queues w)) (World (id_ w) (queues w ++ [c]) (abort_queues w), p) →
  wpB (make_queue c) (w, p) Φ Ψ.
Proof. done. Qed.
Lemma wpB_node_at id n s Φ Ψ : nodes_ s.2 !! id = Some n → Φ n s → wpB (node_at id) s Φ Ψ.
Proof. intros Hn HΦ. apply wpB_bind, wpB_get. by rewrite Hn. Qed.
Lemma wpB_new_node_check id s Φ Ψ :
  (nodes_ s.2 !! id = None → Φ tt s) → Ψ s → wpB (new_node_check id) s Φ Ψ.
Proof. intros HΦ HΨ. apply wpB_bind, wpB_get. destruct (nodes_ s.2 !! id); [done|]. by apply HΦ. Qed.
Lemma wpB_leaf_check id s Φ Ψ :
  (id ∈ leaves_ s.2 → Φ tt s) → Ψ s → wpB (leaf_check id) s Φ Ψ.
Proof. intros HΦ HΨ. apply wpB_bind, wpB_get. case_decide; [by apply HΦ|done]. Qed.

Lemma wpB_for_all_check l s Φ Ψ :
  ((∀ id, id ∈ l → id ∈ leaves_ s.2) → Φ tt s) → Ψ s → wpB (for_all l leaf_check) s Φ Ψ.
Proof.
  revert Φ. induction l as [|id l IH]; intros Φ HΦ HΨ; [apply HΦ; set_solver|]. simpl.
  apply wpB_bind, wpB_leaf_check; [|done]. intros Hid. apply IH; [|done]. intros Hl. apply HΦ. set_solver.
Qed.

Lemma wpB_for_all_with {A S} (I : list A → S → state T U → Prop) l (body : A → S → B T U S) x s Φ Ψ :
  (∀ a l x s, I (a :: l) x s → wpB (body a x) s (λ x' s', I l x' s') Ψ) →
  (∀ x s, I [] x s → Φ x s) → I l x s → wpB (for_all_with l x body) s Φ Ψ.
Proof.
  intros Hbody Hend. revert x s. induction l as [|a l IH]; intros x s Hs; simpl; [by apply wpB_ret, Hend|].
  apply wpB_bind. eapply wpB_mono; [|by apply Hbody]. intros x' s' Hs'. by apply IH.
Qed.

(** *** Attaching leaves *)

(** [ns'] is [ns] after the nodes [D] were given an output. *)
Definition attached D ns ns' : Prop :=
  ∀ id, match ns !! id with
        | None => ns' !! id = None
        | Some n => if decide (id ∈ D) then ∃ q, ns' !! id = Some (SetOutputPort (Channel_of_queue q) n)
                    else ns' !! id = Some n
        end.

Lemma attached_refl ns : attached ∅ ns ns.
Proof. intros id. destruct (ns !! id); [|done]. by rewrite decide_False by set_solver. Qed.

Lemma attached_insert D ns ns' id n q :
  attached D ns ns' → ns !! id = Some n → id ∉ D →
  attached (D ∪ {[id]}) ns (<[id := SetOutputPort (Channel_of_queue q) n]> ns').
Proof.
  intros Ha Hn Hid id'. specialize (Ha id'). destruct (decide (id' = id)) as [->|Hne].
  - rewrite Hn, decide_True, lookup_insert_eq by set_solver. by exists q.
  - rewrite lookup_insert_ne by done. destruct (ns !! id'); [|done].
    destruct (decide (id' ∈ D)); [rewrite decide_True by set_solver|rewrite decide_False by set_solver]; done.
Qed.

Lemma attached_lookup D ns ns' id n :
  attached D ns ns' → ns !! id = Some n → id ∉ D → ns' !! id = Some n.
Proof. intros Ha Hn Hid. specialize (Ha id). by rewrite Hn, decide_False in Ha by done. Qed.

Lemma attached_None D ns ns' id : attached D ns ns' → ns !! id = None → ns' !! id = None.
Proof. intros Ha Hn. specialize (Ha id). by rewrite Hn in Ha. Qed.

(** A leaf that was given an output is a complete node. *)
Lemma leafy_out n c : leafy n → queue_ptr c ≠ None →
  out_connected (SetOutputPort c n).
Proof.
  intros [Hk Ho] Hc. unfold out_connected. simpl.
  destruct (node_kind n); try done; unfold out_wired, outq; simpl; done.
Qed.

Lemma in_connected_out n c : in_connected n → in_connected (SetOutputPort c n).
Proof. done. Qed.

(** The result of an operation: the nodes [D] of the old pipeline were given
    outputs, the nodes [N] were added and [L] are the new leaves. *)
Lemma built_extend s s' D (N : gmap Z (node T U)) L ns' :
  built s → D ⊆ leaves_ s.2 → attached D (nodes_ s.2) ns' →
  nodes_ s'.2 = N ∪ ns' → leaves_ s'.2 = (leaves_ s.2 ∖ D) ∪ L → L ⊆ dom N →
  (∀ id n, N !! id = Some n → nodes_ s.2 !! id = None ∧ sound s'.1 (bool_decide (id ∈ L)) id n) →
  (id_ s.1 ≤ id_ s'.1 < 2 ^ 64)%Z → wired_up s' → built s'.
Proof.
  intros [Hw Hn Hl Hid] HD Ha HN HL HLN HNs Hids Hw'. split; [done|..|lia].
  - rewrite HN, HL. intros id n Hidn.
    apply lookup_union_Some_raw in Hidn as [Hidn|[HNone Hidn]].
    + destruct (HNs _ _ Hidn) as [Hnone Hs].
      assert (bool_decide (id ∈ leaves_ s.2 ∖ D ∪ L) = bool_decide (id ∈ L)) as ->; [|done].
      apply bool_decide_ext. assert (id ∉ leaves_ s.2); [|set_solver].
      intros Hin%Hl%elem_of_dom. by rewrite Hnone in Hin.
    + pose proof (Ha id) as Hai. destruct (nodes_ s.2 !! id) as [n0|] eqn:Hn0; [|congruence].
      assert (id ∉ L) as HidL by (intros Hin%HLN%elem_of_dom; by rewrite HNone in Hin).
      destruct (Hn _ _ Hn0) as [Hi Hr Hp Hic Hoc].
      destruct (decide (id ∈ D)) as [HidD|HidD].
      * destruct Hai as [q Hq]. rewrite Hq in Hidn. injection Hidn as <-. rewrite bool_decide_false by set_solver.
        rewrite bool_decide_true in Hoc by set_solver. split; try done; [lia|]. by apply leafy_out.
      * assert (n0 = n) as -> by congruence.
        assert (bool_decide (id ∈ leaves_ s.2 ∖ D ∪ L) = bool_decide (id ∈ leaves_ s.2)) as ->.
        { apply bool_decide_ext. set_solver. }
        split; try done. lia.
  - rewrite HL, HN, dom_union_L. intros id [[Hin _]%elem_of_difference|Hin]%elem_of_union; [|set_solver].
    apply elem_of_union_r. apply Hl, elem_of_dom in Hin as [n Hin]. specialize (Ha id). rewrite Hin in Ha.
    apply elem_of_dom. case_decide; [destruct Ha as [q ->]|rewrite Ha]; eauto.
Qed.

End built.

Ltac step_B :=
  lazymatch goal with
  | |- wpB (mbind _ _) _ _ _ => apply wpB_bind
  | |- wpB (mret _) _ _ _ => apply wpB_ret
  | |- wpB (get _) _ _ _ => apply wpB_get
  | |- wpB (update _) _ _ _ => apply wpB_update
  | |- wpB (insert_node _ _) _ _ _ => apply wpB_update
  | |- wpB (store_node _ _) _ _ _ => apply wpB_update
  | |- wpB (insert_leaf _) _ _ _ => apply wpB_update
  | |- wpB (erase_leaf _) _ _ _ => apply wpB_update
  | |- wpB (add_edge _ _) _ _ _ => apply wpB_update
  | |- wpB (make_queue _) _ _ _ => apply wpB_make_queue
  end.
Ltac steps_B := repeat (step_B; cbn [fst snd]).
