(* ===== verification/PipelineOps.v ===== *)
(** * The operations of the builder

    Each operation of [Pipeline] either throws and leaves the pipeline as it
    was, or keeps [built]. *)

From Stdlib Require Import Btauto.
From stdpp Require Import base functions gmap strings fin_maps fin_sets list.
From S2P Require Import Prelude Events Coro Processor Nodes PortLogic NodeProtocol Pipeline PipelineInv.

Section ops.
Context {T U : Type} `{Inhabited U} `{HashOrderLaws}.
Implicit Types (n : node T U) (p : Pipeline T U) (w : world) (s : state T U) (D L : gset Z)
  (ns : gmap Z (node T U)).

(** A node the user has constructed and not connected. *)
Definition user_node s n : Prop := unconnected n ∧ (0 < processor_id_ n < id_ s.1)%Z.

(** What every operation does to the rest of the pipeline. *)
Record grows s s' D L : Prop := {
  gr_built : built s';
  gr_option : option_ s'.2 = option_ s.2;
  gr_leaves : leaves_ s'.2 = (leaves_ s.2 ∖ D) ∪ L;
  gr_nodes : dom (nodes_ s.2) ∪ L ⊆ dom (nodes_ s'.2);
}.

Lemma built_size s : built s → (Z.of_nat (size (nodes_ s.2)) < id_ s.1)%Z.
Proof.
  intros [_ Hn _ Hid].
  assert (dom (nodes_ s.2) ⊆ list_to_set (C := gset Z) (seqZ 1 (id_ s.1 - 1))) as Hsub.
  { intros id [n Hidn]%elem_of_dom. apply Hn in Hidn as [_ Hr _ _ _].
    apply elem_of_list_to_set, elem_of_seqZ. lia. }
  apply subseteq_size in Hsub. rewrite size_dom in Hsub.
  pose proof (size_list_to_set (C := gset Z) (seqZ 1 (id_ s.1 - 1)) (NoDup_seqZ _ _)) as Hs.
  rewrite length_seqZ in Hs. lia.
Qed.

Lemma built_leaves_size s D : built s → D ⊆ leaves_ s.2 → (Z.of_nat (size D) < 2 ^ 64 - 1)%Z.
Proof.
  intros Hb HD. pose proof (built_size s Hb). destruct Hb as [_ _ Hl Hid].
  assert (size D ≤ size (nodes_ s.2)).
  { rewrite <- size_dom. apply subseteq_size. set_solver. }
  lia.
Qed.

Lemma built_leaf s id :
  built s → id ∈ leaves_ s.2 →
  ∃ n, nodes_ s.2 !! id = Some n ∧ leafy n.
Proof.
  intros [_ Hn Hl _] Hid. destruct (proj1 (elem_of_dom _ _) (Hl _ Hid)) as [n Hidn].
  exists n. destruct (Hn _ _ Hidn) as [_ _ _ _ Ho]. by rewrite bool_decide_true in Ho.
Qed.

(** One new node. *)
Lemma built_one s s' D (leaf : bool) ns' id n :
  built s → D ⊆ leaves_ s.2 → attached D (nodes_ s.2) ns' → nodes_ s.2 !! id = None →
  nodes_ s'.2 = <[id := n]> ns' → option_ s'.2 = option_ s.2 →
  leaves_ s'.2 = (leaves_ s.2 ∖ D) ∪ (if leaf then {[id]} else ∅) →
  sound s'.1 leaf id n → (id_ s.1 ≤ id_ s'.1 < 2 ^ 64)%Z → wired_up s' →
  grows s s' D (if leaf then {[id]} else ∅).
Proof.
  intros Hb HD Ha Hid HN Ho HL Hs Hids Hw. split; [|done|done|].
  - apply (built_extend s s' D {[id := n]} (if leaf then {[id]} else ∅) ns'); try done.
    + rewrite HN. by rewrite insert_union_singleton_l.
    + destruct leaf; set_solver.
    + intros id' n' [<- <-]%lookup_singleton_Some. split; [done|].
      replace (bool_decide _) with leaf; [done|]. symmetry. destruct leaf; [by apply bool_decide_true; set_solver|].
      by apply bool_decide_false; set_solver.
  - rewrite HN. intros id' [[n0 Hn0]%elem_of_dom|Hin]%elem_of_union.
    + specialize (Ha id'). rewrite Hn0 in Ha. apply elem_of_dom. rewrite lookup_insert_is_Some'.
      right. case_decide; [destruct Ha as [q ->]|rewrite Ha]; eauto.
    + destruct leaf; [|set_solver]. apply elem_of_singleton in Hin as ->. set_solver.
Qed.

Lemma unconnected_sound_source s n :
  user_node s n → is_source (node_kind n) = true → sound s.1 true (processor_id_ n) n.
Proof.
  intros [Hu Hr] Hk. assert (one_output (node_kind n) = true) as Hk' by (unfold one_output; by rewrite Hk).
  split; try done.
  - intros Hout. by rewrite (un_count _ Hu), Hout.
  - unfold in_connected. by rewrite Hk.
  - split; [done|]. by apply unconnected_output.
Qed.

Lemma insert_new_None {A} id (a : A) (m : gmap Z A) : m !! id = None → insert_new id a m = <[id := a]> m.
Proof. unfold insert_new. by intros ->. Qed.

Lemma AddSource_spec s n :
  built s → user_node s n → is_source (node_kind n) = true →
  wpB (AddSource n) s
    (λ id s', id = processor_id_ n ∧ grows s s' ∅ {[id]} ∧ sources_ s'.2 = sources_ s.2 ++ [id])
    (λ s', s' = s).
Proof.
  intros Hb Hu Hk. unfold AddSource. step_B. apply wpB_new_node_check; [|done]. intros Hid.
  steps_B. split; [done|]. split; [|done].
  apply (built_one _ _ ∅ true (nodes_ s.2) (processor_id_ n) n); simpl; try done.
  - apply attached_refl.
  - by rewrite insert_new_None.
  - set_solver.
  - by apply unconnected_sound_source.
  - pose proof (bt_id s Hb). lia.
  - destruct (bt_wiring s Hb) as (rank & bound & Hw). rewrite insert_new_None by done.
    exists (<[processor_id_ n := bound]> rank), (S bound).
    by apply wiring_add; [|done|intros q; apply unconnected_duties, Hu..].
Qed.

(** *** Feeding a new node from leaves, through one queue *)

Definition fed (q : qid) (k : nat) n : node T U := Nat.iter k (SetInputPort (Channel_of_queue q)) n.

Lemma fed_kind q k n : node_kind (fed q k n) = node_kind n.
Proof. by induction k. Qed.
Lemma fed_id q k n : processor_id_ (fed q k n) = processor_id_ n.
Proof. by induction k. Qed.
Lemma fed_outq q k n : outq (fed q k n) = outq n.
Proof. by induction k. Qed.
Lemma fed_inq q k n : inq (fed q k n) = match k with 0 => inq n | _ => Some q end.
Proof. by destruct k. Qed.
Lemma fed_outputs q k n : outputs_ (fed q k n) = outputs_ n.
Proof. by induction k. Qed.
Lemma fed_output_size q k n : output_size_ (fed q k n) = output_size_ n.
Proof. by induction k. Qed.
Lemma fed_count q k n :
  input_count_ n = 0%Z → (Z.of_nat k < 2 ^ 64)%Z → input_count_ (fed q k n) = Z.of_nat k.
Proof.
  intros Hc. induction k as [|k IH]; intros Hk; [done|]. simpl. rewrite IH by lia.
  wrap_id. lia.
Qed.

(** The state of the loop: the leaves [D] are attached to [q], which only the
    new node reads, once per leaf; the new node, not yet in the pipeline, is
    counted in the wiring. *)
Record feeding s0 w (q : qid) n0 D s : Prop := {
  fe_world : s.1 = w;
  fe_option : option_ s.2 = option_ s0.2;
  fe_ends : sources_ s.2 = sources_ s0.2 ∧ sinks_ s.2 = sinks_ s0.2;
  fe_attached : attached D (nodes_ s0.2) (nodes_ s.2);
  fe_wiring : ∃ rank bound,
    wiring (channel_size (option_ s0.2)) (queues w) rank bound (dags_ s.2)
      (<[processor_id_ n0 := fed q (size D) n0]> (nodes_ s.2)) ∧
    (∀ a na, nodes_ s0.2 !! a = Some na → rank a < rank (processor_id_ n0)) ∧
    (∀ a na, nodes_ s.2 !! a = Some na → inner_expects na q = 0);
}.

Lemma feeding_start s0 s (q : qid) n0 :
  built s0 → nodes_ s0.2 !! processor_id_ n0 = None → unconnected n0 →
  s.2 = s0.2 → queues s.1 = queues s0.1 ++ [channel_size (option_ s0.2)] → q = length (queues s0.1) →
  feeding s0 s.1 q n0 ∅ s.
Proof.
  intros Hb Hid Hu Hs2 Hqs ->. split; [done|by rewrite Hs2|by rewrite Hs2|rewrite Hs2; apply attached_refl|].
  destruct (bt_wiring s0 Hb) as (rank & bound & Hw).
  exists (<[processor_id_ n0 := bound]> rank), (S bound). rewrite Hs2. split; [|split].
  - rewrite Hqs. apply wiring_new_queue, wiring_add; [done|done|..]; intros q; by apply unconnected_duties.
  - intros a na Ha. rewrite fn_lookup_insert, fn_lookup_insert_ne by congruence.
    eapply (w_bound _ _ _ _ _ _ Hw); eauto.
  - intros a na Ha. destruct (decide (inner_expects na (length (queues s0.1)) = 0)); [done|].
    assert (queues s0.1 !! length (queues s0.1) = Some (channel_size (option_ s0.2))) as Hl.
    { eapply (w_cap _ _ _ _ _ _ Hw); [exact Ha|]. lia. }
    apply lookup_lt_Some in Hl. lia.
Qed.

Lemma connect_leaf_spec s0 w q n0 D each s Φ Ψ :
  built s0 → nodes_ s0.2 !! processor_id_ n0 = None → unconnected n0 → one_input (node_kind n0) = true →
  D ⊆ leaves_ s0.2 → each ∈ leaves_ s0.2 → each ∉ D →
  queues w !! q = Some (channel_size (option_ s0.2)) →
  feeding s0 w q n0 D s →
  (∀ s', feeding s0 w q n0 (D ∪ {[each]}) s' → leaves_ s'.2 = leaves_ s.2 →
     Φ (fed q (size (D ∪ {[each]})) n0) s') →
  wpB (connect_leaf q (processor_id_ n0) each (fed q (size D) n0)) s Φ Ψ.
Proof.
  intros Hb Hid Hu Hk HD Heach HeD Hq [Hfw Hfo Hfe Hfa (rank & bound & Hw & Hrank & Hun)] HΦ.
  destruct (built_leaf _ _ Hb Heach) as (leaf & Hleaf & [Hlo Hlout]).
  pose proof (attached_lookup _ _ _ _ _ Hfa Hleaf HeD) as Hleaf'.
  assert (each ≠ processor_id_ n0) as Hne by congruence.
  assert (Z.of_nat (size D) < 2 ^ 64 - 1)%Z as Hsz by (by eapply built_leaves_size).
  unfold connect_leaf. step_B. apply (wpB_node_at _ leaf); [done|]. unfold connect_queue. steps_B.
  assert (size (D ∪ {[each]}) = S (size D)) as HS by (rewrite size_union, size_singleton by set_solver; lia).
  specialize (HΦ (s.1, set_dags (<[each := default ∅ (dags_ s.2 !! each) ∪ {[processor_id_ n0]}]> (dags_ s.2))
    (set_nodes (<[each := SetOutputPort (Channel_of_queue q) leaf]> (nodes_ s.2)) s.2))).
  rewrite HS in HΦ. apply HΦ; [|done]. clear HΦ.
  split; [done|done|done|by apply attached_insert|]. exists rank, bound. simpl. split; [|split].
  - rewrite HS, insert_insert_ne by done.
    rewrite <- (insert_insert_eq (nodes_ s.2) (processor_id_ n0) (fed q (S (size D)) n0) (fed q (size D) n0)).
    eapply (wiring_connect _ _ _ _ _ _ _ _ leaf (fed q (size D) n0)); try done.
    + by rewrite lookup_insert_ne.
    + apply lookup_insert_eq.
    + eauto.
    + rewrite writes_one_output by done. by rewrite Hlout.
    + by apply writes_SetOutputPort.
    + apply expects_SetInputPort; [by rewrite fed_kind|rewrite fed_count; [lia|by apply unconnected_input|lia]|].
      rewrite fed_inq. destruct (size D) eqn:HsD; [|by left]. right. by apply unconnected_input.
    + intros c nc [[<- <-]|[Hcne Hc]]%lookup_insert_Some Hx; [done|]. rewrite (Hun c nc Hc) in Hx. lia.
  - done.
  - intros a na [[<- <-]|[Hane Ha]]%lookup_insert_Some; [|by eapply Hun].
    rewrite expects_SetOutputPort. by eapply Hun.
Qed.

Lemma feed_loop (erase : bool) (body : Z → node T U → B T U (node T U)) s0 w q n0 l D s Φ Ψ :
  (∀ each n s Φ Ψ,
     wpB (connect_leaf q (processor_id_ n0) each n) s
       (λ n' s', Φ n' (s'.1, if erase then set_leaves (leaves_ s'.2 ∖ {[each]}) s'.2 else s'.2)) Ψ →
     wpB (body each n) s Φ Ψ) →
  built s0 → nodes_ s0.2 !! processor_id_ n0 = None → unconnected n0 → one_input (node_kind n0) = true →
  queues w !! q = Some (channel_size (option_ s0.2)) →
  NoDup l → D ## list_to_set l → D ∪ list_to_set l ⊆ leaves_ s0.2 →
  feeding s0 w q n0 D s → leaves_ s.2 = (if erase then leaves_ s0.2 ∖ D else leaves_ s0.2) →
  (∀ s', feeding s0 w q n0 (D ∪ list_to_set l) s' →
     leaves_ s'.2 = (if erase then leaves_ s0.2 ∖ (D ∪ list_to_set l) else leaves_ s0.2) →
     Φ (fed q (size (D ∪ list_to_set l)) n0) s') →
  wpB (for_all_with l (fed q (size D) n0) body) s Φ Ψ.
Proof.
  intros Hbody Hb Hid Hu Hk Hq. revert D s. induction l as [|each l IH]; intros D s Hnd Hdis Hsub Hf Hl HΦ.
  { simpl. apply wpB_ret. replace D with (D ∪ list_to_set []) at 1 by set_solver.
    apply HΦ; [by replace (D ∪ list_to_set []) with D by set_solver|].
    rewrite Hl. destruct erase; set_solver. }
  apply NoDup_cons in Hnd as [Heach Hnd]. simpl in *. step_B. apply Hbody.
  apply (connect_leaf_spec s0 w); try done; [set_solver..|].
  intros s' [Hfw Hfo Hfe Hfa Hfwi] Hl'. replace (D ∪ ({[each]} ∪ list_to_set l)) with ((D ∪ {[each]}) ∪ list_to_set l)
    in HΦ by set_solver.
  apply IH; try done; [set_solver|set_solver|by destruct erase; split|].
  simpl. destruct erase; simpl; rewrite Hl', Hl; set_solver.
Qed.

Lemma set_order_NoDup D : NoDup (set_order D).
Proof. rewrite set_order_perm. apply NoDup_elements. Qed.
Lemma set_order_set D : list_to_set (set_order D) = D.
Proof. apply set_eq. intros x. rewrite elem_of_list_to_set, set_order_perm, elem_of_elements. done. Qed.

Lemma feed_all (erase : bool) (body : Z → node T U → B T U (node T U)) s0 w q n0 D s Φ Ψ :
  (∀ each n s Φ Ψ,
     wpB (connect_leaf q (processor_id_ n0) each n) s
       (λ n' s', Φ n' (s'.1, if erase then set_leaves (leaves_ s'.2 ∖ {[each]}) s'.2 else s'.2)) Ψ →
     wpB (body each n) s Φ Ψ) →
  built s0 → nodes_ s0.2 !! processor_id_ n0 = None → unconnected n0 → one_input (node_kind n0) = true →
  queues w !! q = Some (channel_size (option_ s0.2)) →
  D ⊆ leaves_ s0.2 → feeding s0 w q n0 ∅ s → leaves_ s.2 = leaves_ s0.2 →
  (∀ s', feeding s0 w q n0 D s' → leaves_ s'.2 = (if erase then leaves_ s0.2 ∖ D else leaves_ s0.2) →
     Φ (fed q (size D) n0) s') →
  wpB (for_all_with (set_order D) n0 body) s Φ Ψ.
Proof.
  intros Hbody Hb Hid Hu Hk Hq HD Hf Hl HΦ.
  pose proof (set_order_set D) as Hset.
  assert (wpB (for_all_with (set_order D) (fed q (size (∅ : gset Z)) n0) body) s Φ Ψ) as Hgoal;
    [|by rewrite size_empty in Hgoal].
  apply (feed_loop erase body s0 w q n0 (set_order D) ∅ s Φ Ψ Hbody Hb Hid Hu Hk Hq); rewrite ?Hset.
  - apply set_order_NoDup.
  - apply disjoint_empty_l.
  - by rewrite (left_id_L ∅ (∪)).
  - done.
  - rewrite Hl. destruct erase; [|done]. by rewrite difference_empty_L.
  - by rewrite (left_id_L ∅ (∪)).
Qed.

(** The new node after the loop. *)
Lemma fed_sound w q k n0 (leaf : bool) :
  unconnected n0 → (0 < processor_id_ n0 < id_ w)%Z → 0 < k → (Z.of_nat k < 2 ^ 64)%Z →
  (if leaf then is_transform (node_kind n0) else is_sink (node_kind n0)) = true →
  sound w leaf (processor_id_ n0) (fed q k n0).
Proof.
  intros Hu Hr Hk Hk64 Hkind.
  assert (one_input (node_kind n0) = true) as Hin1 by (by destruct leaf, (node_kind n0)).
  assert (in_wired (fed q k n0)) as Hin.
  { split; [rewrite fed_inq; by destruct k; [lia|]|]. rewrite fed_count; [lia|by apply unconnected_input|done]. }
  split; [apply fed_id|done|..].
  - rewrite fed_kind. by rewrite one_input_inside.
  - unfold in_connected. rewrite fed_kind. destruct leaf, (node_kind n0); done.
  - destruct leaf.
    + assert (one_output (node_kind n0) = true) by (unfold one_output; rewrite Hkind; btauto).
      split; [by rewrite fed_kind|]. rewrite fed_outq. by apply unconnected_output.
    + unfold out_connected. by rewrite fed_kind, Hkind.
Qed.

Lemma feeding_finish s0 w q n0 D s s' (leaf : bool) :
  built s0 → nodes_ s0.2 !! processor_id_ n0 = None → unconnected n0 →
  (0 < processor_id_ n0 < id_ s0.1)%Z → id_ w = id_ s0.1 →
  (if leaf then is_transform (node_kind n0) else is_sink (node_kind n0)) = true →
  D ⊆ leaves_ s0.2 → D ≠ ∅ → feeding s0 w q n0 D s → s'.1 = w →
  nodes_ s'.2 = <[processor_id_ n0 := fed q (size D) n0]> (nodes_ s.2) →
  dags_ s'.2 = dags_ s.2 → option_ s'.2 = option_ s0.2 →
  leaves_ s'.2 = (leaves_ s0.2 ∖ D) ∪ (if leaf then {[processor_id_ n0]} else ∅) →
  grows s0 s' D (if leaf then {[processor_id_ n0]} else ∅).
Proof.
  intros Hb Hid Hu Hr Hw Hkind HD HDne [Hfw Hfo Hfe Hfa (rank & bound & Hwi & _)] Hs1 Hn Hd Ho Hl.
  assert (0 < size D) as Hpos.
  { apply Nat.neq_0_lt_0. intros Hz%size_empty_inv. set_solver. }
  apply (built_one s0 s' D leaf (nodes_ s.2) (processor_id_ n0) (fed q (size D) n0)); try done.
  - apply fed_sound; try done; [rewrite Hs1; lia|]. pose proof (built_leaves_size s0 D Hb HD). lia.
  - rewrite Hs1, Hw. pose proof (bt_id s0 Hb). lia.
  - exists rank, bound. by rewrite Ho, Hs1, Hd, Hn.
Qed.

(** The kinds of node the two versions of [merge] accept. *)
Definition merge_kind (insert_to_leaves : bool) n : Prop :=
  (if insert_to_leaves then is_transform (node_kind n) else is_sink (node_kind n)) = true.

Lemma merge_kind_in leaf n : merge_kind leaf n → one_input (node_kind n) = true.
Proof. unfold merge_kind, one_input. by destruct leaf, (node_kind n). Qed.

Lemma merge_to_spec s n leaf D :
  built s → user_node s n → merge_kind leaf n → D ≠ ∅ →
  wpB (merge_to leaf n D) s
    (λ id s', id = processor_id_ n ∧ grows s s' D (if leaf then {[id]} else ∅) ∧
       sources_ s'.2 = sources_ s.2 ∧ sinks_ s'.2 = sinks_ s.2)
    (λ s', s' = s).
Proof.
  intros Hb [Hu Hr] Hkind HD. pose proof (merge_kind_in _ _ Hkind) as Hk.
  unfold merge_to. step_B. apply wpB_new_node_check; [|done]. intros Hid.
  step_B. apply wpB_for_all_check; [|done]. intros Hl. destruct s as [w p].
  assert (D ⊆ leaves_ p) as Hsub.
  { intros x Hx. apply Hl. by rewrite set_order_perm, elem_of_elements. }
  steps_B. set (w' := World _ _ _). cbn [fst snd] in *.
  apply (feed_all true _ (w, p) w' (length (queues w)) n D); try done.
  - intros each n' s' Φ Ψ Hw. step_B. eapply wpB_mono; [|exact Hw]. intros n2 s2 HΦ. by steps_B.
  - simpl. by rewrite lookup_app_r, Nat.sub_diag by lia.
  - by apply (feeding_start (w, p) (w', p)).
  - intros s' Hf Hl'. step_B. step_B. step_B.
    assert (insert_new (processor_id_ n) (fed (length (queues w)) (size D) n) (nodes_ s'.2)
            = <[processor_id_ n := fed (length (queues w)) (size D) n]> (nodes_ s'.2)) as Hins.
    { apply insert_new_None. by apply (attached_None D (nodes_ p)); [apply Hf|]. }
    assert (∀ s2, s2.1 = w' → dags_ s2.2 = dags_ s'.2 → option_ s2.2 = option_ s'.2 →
      nodes_ s2.2 = insert_new (processor_id_ n) (fed (length (queues w)) (size D) n) (nodes_ s'.2) →
      leaves_ s2.2 = leaves_ s'.2 ∪ (if leaf then {[processor_id_ n]} else ∅) →
      grows (w, p) s2 D (if leaf then {[processor_id_ n]} else ∅)) as Hfin.
    { intros s2 H2w H2d H2o H2n H2l. rewrite Hins in H2n. rewrite (fe_option _ _ _ _ _ _ Hf) in H2o.
      rewrite Hl' in H2l. by apply (feeding_finish (w, p) w' (length (queues w)) n D s' s2 leaf). }
    pose proof (fe_world _ _ _ _ _ _ Hf). pose proof (fe_ends _ _ _ _ _ _ Hf).
    destruct leaf; steps_B; (split; [done|]); (split; [|done]); apply Hfin; try done; simpl;
      by rewrite ?(right_id_L ∅ (∪)).
Qed.

Lemma merge_spec s n leaf :
  built s → user_node s n → merge_kind leaf n →
  wpB (merge leaf n) s
    (λ id s', id = processor_id_ n ∧ grows s s' (leaves_ s.2) (if leaf then {[id]} else ∅) ∧
       sources_ s'.2 = sources_ s.2 ∧ sinks_ s'.2 = sinks_ s.2)
    (λ s', s' = s).
Proof.
  intros Hb [Hu Hr] Hkind. pose proof (merge_kind_in _ _ Hkind) as Hk.
  unfold merge. step_B. step_B. case_decide as HD; [done|].
  step_B. apply wpB_new_node_check; [|done]. intros Hid. destruct s as [w p].
  steps_B. set (w' := World _ _ _). cbn [fst snd] in *.
  apply (feed_all false _ (w, p) w' (length (queues w)) n (leaves_ p)); try done.
  - intros each n' s' Φ Ψ Hw. eapply wpB_mono; [|exact Hw]. by intros n2 [].
  - simpl. by rewrite lookup_app_r, Nat.sub_diag by lia.
  - by apply (feeding_start (w, p) (w', p)).
  - intros s' Hf Hl'. do 5 step_B. cbn [fst snd].
    assert (insert_new (processor_id_ n) (fed (length (queues w)) (size (leaves_ p)) n) (nodes_ s'.2)
            = <[processor_id_ n := fed (length (queues w)) (size (leaves_ p)) n]> (nodes_ s'.2)) as Hins.
    { apply insert_new_None. by apply (attached_None (leaves_ p) (nodes_ p)); [apply Hf|]. }
    assert (∀ s2, s2.1 = w' → dags_ s2.2 = dags_ s'.2 → option_ s2.2 = option_ s'.2 →
      nodes_ s2.2 = insert_new (processor_id_ n) (fed (length (queues w)) (size (leaves_ p)) n) (nodes_ s'.2) →
      leaves_ s2.2 = (if leaf then {[processor_id_ n]} else ∅) →
      grows (w, p) s2 (leaves_ p) (if leaf then {[processor_id_ n]} else ∅)) as Hfin.
    { intros s2 H2w H2d H2o H2n H2l. rewrite Hins in H2n. rewrite (fe_option _ _ _ _ _ _ Hf) in H2o.
      apply (feeding_finish (w, p) w' (length (queues w)) n (leaves_ p) s' s2 leaf); try done.
      rewrite H2l. simpl. by rewrite difference_diag_L, (left_id_L ∅ (∪)). }
    pose proof (fe_world _ _ _ _ _ _ Hf). pose proof (fe_ends _ _ _ _ _ _ Hf).
    destruct leaf; steps_B; (split; [done|]); (split; [|done]); apply Hfin; try done; simpl;
      by rewrite ?(left_id_L ∅ (∪)).
Qed.

Lemma SetSink_spec s n :
  built s → user_node s n → is_sink (node_kind n) = true →
  wpB (SetSink n) s
    (λ id s', id = processor_id_ n ∧ grows s s' (leaves_ s.2) ∅ ∧ sinks_ s'.2 = sinks_ s.2 ++ [id])
    (λ s', s' = s).
Proof.
  intros Hb Hu Hk. unfold SetSink. step_B. eapply wpB_mono; [|by apply merge_spec].
  intros id s' (-> & [Hb' Ho Hl Hn] & _ & Hs). steps_B. split; [done|]. split; [|by rewrite Hs].
  split; [|done|done|done]. destruct Hb' as [Hw Hnn Hl' Hid]. split; done.
Qed.

Lemma SetSink_leaves_spec s n D :
  built s → user_node s n → is_sink (node_kind n) = true → D ≠ ∅ →
  wpB (SetSink_leaves n D) s
    (λ id s', id = processor_id_ n ∧ grows s s' D ∅ ∧ sinks_ s'.2 = sinks_ s.2 ++ [id])
    (λ s', s' = s).
Proof.
  intros Hb Hu Hk HD. unfold SetSink_leaves. step_B. eapply wpB_mono; [|by apply merge_to_spec].
  intros id s' (-> & [Hb' Ho Hl Hn] & _ & Hs). steps_B. split; [done|]. split; [|by rewrite Hs].
  split; [|done|done|done]. destruct Hb' as [Hw Hnn Hl' Hid]. split; done.
Qed.

(** *** Appending one node to one leaf *)

Lemma wpB_assert_node id n s Φ Ψ :
  nodes_ s.2 !! id = Some n → Φ tt s → wpB (assert_node id) s Φ Ψ.
Proof. intros Hn HΦ. unfold assert_node. step_B. step_B. rewrite Hn. by apply wpB_assert. Qed.

Lemma wpB_connect (input output : node T U) c w p Φ Ψ :
  (let q := length (queues w) in
   Φ (SetOutputPort (Channel_of_queue q) input, SetInputPort (Channel_of_queue q) output)
     (World (id_ w) (queues w ++ [c]) (abort_queues w), p)) →
  wpB (connect input output c) (w, p) Φ Ψ.
Proof. intros HΦ. unfold connect. by steps_B. Qed.

(** A new node with one input, fed once. *)
Lemma append_expects n q :
  one_input (node_kind n) = true → unconnected n →
  ∀ q', inner_expects (SetInputPort (Channel_of_queue q) n) q' = if decide (q' = q) then 1 else 0.
Proof.
  intros Hk Hu q'. destruct (unconnected_input _ Hu Hk) as [Hi Hc].
  rewrite expects_SetInputPort; [|done|lia|by right].
  destruct (unconnected_duties _ Hu q) as [_ ->]. by destruct (unconnected_duties _ Hu q') as [_ ->].
Qed.

Lemma wiring_append_leaf cap qs rank bound d ns a na n :
  let q := length qs in
  wiring cap qs rank bound d ns → ns !! a = Some na → leafy na → ns !! processor_id_ n = None →
  one_input (node_kind n) = true → unconnected n →
  wiring cap (qs ++ [cap]) (<[processor_id_ n := bound]> rank) (S bound)
    (<[a := default ∅ (d !! a) ∪ {[processor_id_ n]}]> d)
    (<[processor_id_ n := SetInputPort (Channel_of_queue q) n]>
      (<[a := SetOutputPort (Channel_of_queue q) na]> ns)).
Proof.
  intros q Hw Ha [Hlo Hl] Hid Hk Hu.
  apply (wiring_append _ _ _ _ _ _ _ na _ _ n); try done;
    try (intros q'; by destruct (unconnected_duties _ Hu q')).
  - by apply writes_SetOutputPort.
  - by apply append_expects.
Qed.

Lemma fed_once_sound w q n :
  unconnected n → (0 < processor_id_ n < id_ w)%Z → is_transform (node_kind n) = true →
  sound w true (processor_id_ n) (SetInputPort (Channel_of_queue q) n).
Proof. intros. apply (fed_sound w q 1 n true); try done; lia. Qed.

Lemma transform_kinds n :
  is_transform (node_kind n) = true → one_input (node_kind n) = true.
Proof. unfold one_input. intros ->. btauto. Qed.

Lemma AddTransform_spec s leaf n :
  built s → user_node s n → is_transform (node_kind n) = true →
  wpB (AddTransform leaf n) s
    (λ id s', id = processor_id_ n ∧ leaf ∈ leaves_ s.2 ∧ grows s s' {[leaf]} {[id]})
    (λ s', s' = s).
Proof.
  intros Hb [Hu Hr] Hk. pose proof (transform_kinds _ Hk) as Hi.
  unfold AddTransform. step_B. apply wpB_new_node_check; [|done]. intros Hid.
  step_B. apply wpB_leaf_check; [|done]. intros Hleaf.
  destruct (built_leaf _ _ Hb Hleaf) as (ln & Hln & Hll & Hlp). destruct s as [w p]. cbn [fst snd] in *.
  assert (leaf ≠ processor_id_ n) as Hne by congruence.
  step_B. apply (wpB_assert_node _ ln); [done|]. step_B. apply (wpB_node_at _ ln); [done|].
  step_B. step_B. step_B. apply wpB_connect. steps_B. split; [done|]. split; [done|].
  apply (built_one (w, p) _ {[leaf]} true
    (<[leaf := SetOutputPort (Channel_of_queue (length (queues w))) ln]> (nodes_ p)) (processor_id_ n)
    (SetInputPort (Channel_of_queue (length (queues w))) n)); try done; simpl.
  - set_solver.
  - replace {[leaf]} with (∅ ∪ {[leaf]} : gset Z) by set_solver.
    apply attached_insert; [apply attached_refl|done|set_solver].
  - by rewrite insert_new_None by (by rewrite lookup_insert_ne).
  - by apply fed_once_sound.
  - pose proof (bt_id _ Hb). simpl in *. lia.
  - destruct (bt_wiring _ Hb) as (rank & bound & Hw). simpl in Hw.
    exists (<[processor_id_ n := bound]> rank), (S bound). simpl.
    rewrite insert_new_None by (by rewrite lookup_insert_ne). by apply wiring_append_leaf.
Qed.

(** *** Appending a node to every leaf *)

(** The nodes the user's function returns: new, and different at each call. *)
Record fresh_nodes s (creater : nat → node T U) (count : nat) : Prop := {
  fn_user i : i < count → user_node s (creater i) ∧ is_transform (node_kind (creater i)) = true;
  fn_new i : i < count → nodes_ s.2 !! processor_id_ (creater i) = None;
  fn_inj i j : i < count → j < count → processor_id_ (creater i) = processor_id_ (creater j) → i = j;
}.

(** The state of the loop after [i] turns: [D] are the leaves that have been
    given a successor, [N] the new nodes. *)
Record appending s0 (creater : nat → node T U) (i : nat) D (N : gmap Z (node T U)) s : Prop := {
  ap_world : id_ s.1 = id_ s0.1;
  ap_option : option_ s.2 = option_ s0.2;
  ap_leaves : leaves_ s.2 = leaves_ s0.2;
  ap_new id n : N !! id = Some n →
    (∃ j, j < i ∧ id = processor_id_ (creater j)) ∧ nodes_ s0.2 !! id = None ∧ sound s0.1 true id n;
  ap_nodes : ∃ ns', attached D (nodes_ s0.2) ns' ∧ nodes_ s.2 = N ∪ ns';
  ap_wiring : wired_up s;
}.

(** What the loop finds under the ids of the next leaf and of the next node. *)
Lemma appending_lookups s0 creater count i D N each ns' ln s :
  fresh_nodes s0 creater count → i < count → appending s0 creater i D N s → each ∉ D →
  nodes_ s0.2 !! each = Some ln → attached D (nodes_ s0.2) ns' → nodes_ s.2 = N ∪ ns' →
  N !! each = None ∧ N !! processor_id_ (creater i) = None ∧
  nodes_ s.2 !! each = Some ln ∧ nodes_ s.2 !! processor_id_ (creater i) = None.
Proof.
  intros Hf Hi [_ _ _ Han _ _] HeD Hln Hat Hns.
  assert (N !! each = None) as HNe.
  { destruct (N !! each) as [m|] eqn:Hm; [|done]. apply Han in Hm as (_ & Hm & _). congruence. }
  assert (N !! processor_id_ (creater i) = None) as HNi.
  { destruct (N !! processor_id_ (creater i)) as [m|] eqn:Hm; [|done].
    apply Han in Hm as ((j & Hj & Hij) & _ & _). apply (fn_inj _ _ _ Hf i j) in Hij; lia. }
  split; [done|]. split; [done|]. rewrite Hns. split.
  - rewrite lookup_union_r by done. by eapply attached_lookup.
  - apply lookup_union_None. split; [done|]. eapply attached_None; [done|]. by eapply fn_new.
Qed.

Lemma appending_step s0 creater count i D N each ns' ln s s' :
  built s0 → fresh_nodes s0 creater count → i < count →
  appending s0 creater i D N s → each ∈ leaves_ s0.2 → each ∉ D →
  nodes_ s0.2 !! each = Some ln → attached D (nodes_ s0.2) ns' → nodes_ s.2 = N ∪ ns' →
  let q := length (queues s.1) in let id := processor_id_ (creater i) in
  let n' := SetInputPort (Channel_of_queue q) (creater i) in
  id_ s'.1 = id_ s.1 → queues s'.1 = queues s.1 ++ [channel_size (option_ s.2)] →
  option_ s'.2 = option_ s.2 → leaves_ s'.2 = leaves_ s.2 →
  dags_ s'.2 = <[each := default ∅ (dags_ s.2 !! each) ∪ {[id]}]> (dags_ s.2) →
  nodes_ s'.2 = <[id := n']> (<[each := SetOutputPort (Channel_of_queue q) ln]> (nodes_ s.2)) →
  appending s0 creater (S i) (D ∪ {[each]}) (<[id := n']> N) s'.
Proof.
  intros Hb Hf Hi Hap Heach HeD Hln Hat Hns q id n' Hs1 Hs2 Hs3 Hs4 Hs5 Hs6.
  destruct (appending_lookups _ _ _ _ _ _ _ _ _ _ Hf Hi Hap HeD Hln Hat Hns) as (HNe & HNi & Hse & Hsi).
  destruct Hap as [Haw Hao Hal Han _ (rank & bound & Hwi)].
  destruct (fn_user _ _ _ Hf i Hi) as [[Hu Hr] Hk]. pose proof (transform_kinds _ Hk) as Hin.
  pose proof (fn_new _ _ _ Hf i Hi) as Hid. fold id in Hid.
  destruct (built_leaf _ _ Hb Heach) as (ln' & Hln' & Hll & Hlp). assert (ln' = ln) as -> by congruence.
  split; [lia|congruence|congruence|..].
  - intros id' m [[<- <-]|[Hne Hm]]%lookup_insert_Some.
    + split; [by exists i; split; [lia|]|]. split; [done|]. by apply fed_once_sound.
    + apply Han in Hm as ((j & Hj & ->) & ? & ?). split; [exists j; split; [lia|done]|done].
  - exists (<[each := SetOutputPort (Channel_of_queue q) ln]> ns'). split; [by apply attached_insert|].
    rewrite Hs6, Hns, <- insert_union_l. f_equal. by rewrite insert_union_r.
  - exists (<[id := bound]> rank), (S bound). rewrite Hs3, Hs2, Hs5, Hs6. by apply wiring_append_leaf.
Qed.

Lemma appending_finish s0 creater i N s s' :
  built s0 → appending s0 creater i (leaves_ s0.2) N s →
  s'.1 = s.1 → option_ s'.2 = option_ s.2 → nodes_ s'.2 = nodes_ s.2 → dags_ s'.2 = dags_ s.2 →
  leaves_ s'.2 = dom N → grows s0 s' (leaves_ s0.2) (dom N).
Proof.
  intros Hb [Haw Hao Hal Han (ns' & Hat & Hns) Hwi] Hs1 Hs2 Hs3 Hs4 Hs5.
  assert (dom N = (leaves_ s0.2 ∖ leaves_ s0.2) ∪ dom N) as HL
    by (by rewrite difference_diag_L, (left_id_L ∅ (∪))).
  split; [|congruence|congruence|].
  - apply (built_extend s0 _ (leaves_ s0.2) N (dom N) ns'); try done; [congruence|congruence|..].
    + intros id n Hidn. pose proof (elem_of_dom_2 _ _ _ Hidn) as Hd.
      apply Han in Hidn as (_ & Hnone & [So1 So2 So3 So4 So5]). split; [done|].
      rewrite bool_decide_true by done. split; try done. by rewrite Hs1, Haw.
    + rewrite Hs1, Haw. pose proof (bt_id _ Hb). lia.
    + destruct Hwi as (rank & bound & Hwi). exists rank, bound. by rewrite Hs1, Hs2, Hs3, Hs4.
  - rewrite Hs3, Hns, dom_union_L. intros id [[n Hn]%elem_of_dom|]%elem_of_union; [|set_solver].
    apply elem_of_union_r, elem_of_dom. specialize (Hat id). rewrite Hn in Hat.
    case_decide; [destruct Hat as [q ->]|rewrite Hat]; eauto.
Qed.

Lemma AddTransform_all_spec s creater :
  built s → fresh_nodes s creater (size (leaves_ s.2)) →
  wpB (AddTransform_all creater) s
    (λ new_leaves s', new_leaves = leaves_ s'.2 ∧ grows s s' (leaves_ s.2) new_leaves)
    (λ s', False).
Proof.
  intros Hb Hf. set (count := size (leaves_ s.2)) in *. unfold AddTransform_all. step_B. step_B. step_B.
  assert (length (set_order (leaves_ s.2)) = count) as Hlen by (by rewrite set_order_perm).
  apply (wpB_for_all_with (λ l '(i, NL) s', ∃ D N,
    NoDup l ∧ D ## list_to_set l ∧ D ∪ list_to_set l = leaves_ s.2 ∧ i + length l = count ∧
    NL = dom N ∧ appending s creater i D N s')).
  - intros each l [i NL] s1 (D & N & Hnd & Hdis & HD & Hi & -> & Hap).
    apply NoDup_cons in Hnd as [Hel Hnd]. simpl in Hi, Hdis, HD.
    assert (i < count) as Hlt by lia.
    destruct (ap_nodes _ _ _ _ _ _ Hap) as (ns' & Hat & Hns).
    destruct (built_leaf s each Hb) as (ln & Hln & _); [set_solver|].
    assert (each ∉ D) as HeD by set_solver.
    destruct (appending_lookups _ _ _ _ _ _ _ _ _ _ Hf Hlt Hap HeD Hln Hat Hns) as (HNe & _ & Hs1 & Hs1i).
    destruct s1 as [w1 p1]. cbn [fst snd] in *.
    cbv zeta. step_B. unfold new_node_check. step_B. step_B. cbn [snd]. rewrite Hs1i. step_B.
    step_B. apply (wpB_assert_node _ ln); [done|]. step_B. apply (wpB_node_at _ ln); [done|].
    step_B. step_B. step_B. apply wpB_connect. steps_B.
    exists (D ∪ {[each]}), (<[processor_id_ (creater i) :=
      SetInputPort (Channel_of_queue (length (queues w1))) (creater i)]> N).
    assert (processor_id_ (creater i) ≠ each) as Hne by congruence.
    split; [done|]. split; [set_solver|]. split; [set_solver|]. split; [simpl; lia|].
    split; [set_solver|].
    eapply (appending_step s creater count i D N each ns' ln (w1, p1)); try done; [set_solver|].
    simpl. by rewrite insert_new_None by (by rewrite lookup_insert_ne).
  - intros [i NL] s1 (D & N & _ & _ & HD & Hi & -> & Hap). steps_B. split; [done|].
    assert (D = leaves_ s.2) as -> by set_solver. by eapply appending_finish.
  - exists ∅, ∅. split; [apply set_order_NoDup|]. split; [set_solver|].
    split; [rewrite set_order_set; set_solver|]. split; [lia|]. split; [set_solver|].
    split; try done. exists (nodes_ s.2). split; [apply attached_refl|by rewrite (left_id_L ∅ (∪))].
    apply (bt_wiring _ Hb).
Qed.

(** *** Concatenating leaves *)

Record concatenating s0 (id size : Z) D n s : Prop := {
  co_kind : node_kind n = KConcat;
  co_id : processor_id_ n = id;
  co_size : input_size_ n = size;
  co_out : outq n = None;
  co_ports : multi_wired (inputs_ n) ∧ length (inputs_ n) = base.size D;
  co_world : id_ s.1 = (id + 1)%Z;
  co_option : option_ s.2 = option_ s0.2;
  co_leaves : leaves_ s.2 = leaves_ s0.2 ∖ D;
  co_attached : attached D (nodes_ s0.2) (nodes_ s.2);
  co_wiring : ∃ rank bound,
    wiring (channel_size (option_ s0.2)) (queues s.1) rank bound (dags_ s.2) (<[id := n]> (nodes_ s.2)) ∧
    ∀ a na, nodes_ s0.2 !! a = Some na → rank a < rank id;
}.

Lemma concatenating_ptrs s0 id sz D n s q :
  concatenating s0 id sz D n s → length (queues s.1) ≤ q → q ∉ ptrs (inputs_ n).
Proof.
  intros [Hk _ _ _ _ _ _ _ _ (rank & bound & Hw & _)] Hq Hin.
  destruct (wiring_unused _ _ _ _ _ _ id n q Hw) as [_ Hx]; [apply lookup_insert_eq|done|].
  rewrite expects_concat, decide_True in Hx by (done || by rewrite Hk). done.
Qed.

Lemma concatenating_step s0 id sz D n s each ln s' :
  built s0 → nodes_ s0.2 !! id = None → concatenating s0 id sz D n s →
  each ∈ leaves_ s0.2 → each ∉ D → nodes_ s0.2 !! each = Some ln →
  let q := length (queues s.1) in let n' := AddInputPort (Channel_of_queue q) n in
  id_ s'.1 = id_ s.1 → queues s'.1 = queues s.1 ++ [channel_size (option_ s.2)] →
  option_ s'.2 = option_ s.2 → leaves_ s'.2 = leaves_ s.2 ∖ {[each]} →
  dags_ s'.2 = <[each := default ∅ (dags_ s.2 !! each) ∪ {[id]}]> (dags_ s.2) →
  nodes_ s'.2 = <[each := SetOutputPort (Channel_of_queue q) ln]> (nodes_ s.2) →
  concatenating s0 id sz (D ∪ {[each]}) n' s'.
Proof.
  intros Hb Hid Hco Heach HeD Hln q n' Hs1 Hs2 Hs3 Hs4 Hs5 Hs6.
  pose proof (concatenating_ptrs _ _ _ _ _ _ q Hco) as Hptr.
  destruct Hco as [Hk Hi Hsz Ho [Hp Hl] Hw Hop Hlv Hat (rank & bound & Hwi & Hrank)].
  destruct (built_leaf _ _ Hb Heach) as (ln' & Hln' & [Hlo Hll]). assert (ln' = ln) as -> by congruence.
  pose proof (attached_lookup _ _ _ _ _ Hat Hln HeD) as Hse. assert (each ≠ id) as Hne by congruence.
  split; try done; [..|congruence|congruence| | |].
  - split; [by apply multi_wired_snoc; [|apply Hptr]|]. simpl. rewrite length_app, Hl, size_union, size_singleton by set_solver. done.
  - rewrite Hs4, Hlv. set_solver.
  - rewrite Hs6. by apply attached_insert.
  - exists rank, bound. split; [|done]. rewrite Hs2, Hs5, Hs6, Hop.
    rewrite insert_insert_ne, <- (insert_insert_eq (nodes_ s.2) id n' n) by done.
    apply (wiring_link _ _ _ _ _ _ _ _ ln n); try done.
    + by rewrite lookup_insert_ne.
    + apply lookup_insert_eq.
    + eauto.
    + by apply writes_SetOutputPort.
    + apply expects_AddInputPort; [by rewrite Hk|by apply Hptr].
Qed.

Lemma concatenating_finish s0 id D n s s' :
  built s0 → nodes_ s0.2 !! id = None → id = id_ s0.1 → (id_ s0.1 + 1 < 2 ^ 64)%Z → D ⊆ leaves_ s0.2 →
  concatenating s0 id (Z.of_nat (base.size D)) D n s →
  s'.1 = s.1 → option_ s'.2 = option_ s.2 → dags_ s'.2 = dags_ s.2 →
  nodes_ s'.2 = <[id := n]> (nodes_ s.2) → leaves_ s'.2 = leaves_ s.2 ∪ {[id]} →
  grows s0 s' D {[id]}.
Proof.
  intros Hb Hid -> Hid64 HD [Hk Hi Hsz Ho [Hp Hl] Hw Hop Hlv Hat (rank & bound & Hwi & _)] Hs1 Hs2 Hs3 Hs4 Hs5.
  pose proof (bt_id _ Hb).
  apply (built_one s0 s' D true (nodes_ s.2) (id_ s0.1) n); try done.
  - congruence.
  - by rewrite Hs5, Hlv.
  - split; [done|rewrite Hs1, Hw; lia|by rewrite Hk| |].
    + unfold in_connected. rewrite Hk. simpl. split; [done|]. rewrite Hsz. lia.
    + split; [by rewrite Hk|done].
  - rewrite Hs1, Hw. lia.
  - exists rank, bound. by rewrite Hs1, Hs2, Hs3, Hs4, Hop.
Qed.

Lemma built_id_unused s : built s → nodes_ s.2 !! id_ s.1 = None.
Proof.
  intros Hb. destruct (nodes_ s.2 !! id_ s.1) as [n|] eqn:Hn; [|done].
  apply (bt_nodes _ Hb) in Hn as [_ Hr _ _ _]. lia.
Qed.

Lemma concatenating_start s (sz : Z) :
  built s → (id_ s.1 + 1 < 2 ^ 64)%Z →
  concatenating s (id_ s.1) sz ∅ (make_node (id_ s.1) "concat" sz 0 KConcat inhabitant)
    (World (id_ s.1 + 1) (queues s.1) (abort_queues s.1), s.2).
Proof.
  intros Hb Hid. split; try done; simpl.
  - split; [split; constructor|done].
  - by rewrite difference_empty_L.
  - apply attached_refl.
  - destruct (bt_wiring _ Hb) as (rank & bound & Hw). exists (<[id_ s.1 := bound]> rank), (S bound). split.
    + by apply wiring_add; [|apply built_id_unused|intros; apply unconnected_duties..].
    + intros a na Ha. rewrite fn_lookup_insert, fn_lookup_insert_ne; [by eapply (w_bound _ _ _ _ _ _ Hw)|].
      intros <-. by rewrite built_id_unused in Ha.
Qed.

Lemma ConcatFrom_spec s leaves :
  built s → (id_ s.1 + 1 < 2 ^ 64)%Z → NoDup leaves → leaves ≠ [] →
  wpB (ConcatFrom leaves) s
    (λ id s', id = id_ s.1 ∧ grows s s' (list_to_set leaves) {[id]})
    (λ s', s' = s).
Proof.
  intros Hb Hid Hnd Hne. pose proof (bt_id _ Hb) as Hpos. pose proof (built_id_unused _ Hb) as Hun.
  unfold ConcatFrom. step_B. apply wpB_for_all_check; [|done]. intros Hl.
  set (sz := Z.of_nat (length leaves)).
  assert (sz > 0)%Z as Hsz by (unfold sz; destruct leaves; [done|simpl; lia]).
  unfold make_Concat. destruct s as [w p]. cbn [fst snd] in *. step_B. step_B.
  apply wpB_GenerateId; [lia|done|]. step_B. apply wpB_assert; [by apply bool_decide_true|].
  step_B. cbv zeta. cbn [processor_id_ make_node]. step_B.
  apply (wpB_for_all_with (λ l n s', ∃ D, NoDup l ∧ D ## list_to_set l ∧ D ∪ list_to_set l = list_to_set leaves ∧
    concatenating (w, p) (id_ w) sz D n s')).
  - intros each l n s1 (D & Hnd' & Hdis & HD & Hco). apply NoDup_cons in Hnd' as [Hel Hnd'].
    simpl in Hdis, HD. assert (each ∈ leaves_ p) as Heach.
    { apply Hl. apply (elem_of_list_to_set (C := gset Z)). set_solver. }
    destruct (built_leaf (w, p) each Hb Heach) as (ln & Hln & _).
    assert (each ∉ D) as HeD by set_solver.
    pose proof (attached_lookup _ _ _ _ _ (co_attached _ _ _ _ _ _ Hco) Hln HeD) as Hs1.
    destruct s1 as [w1 p1]. step_B. apply (wpB_node_at _ ln); [done|].
    unfold connect_MultiIOneO. steps_B. exists (D ∪ {[each]}). split; [done|]. split; [set_solver|].
    split; [set_solver|]. by eapply (concatenating_step (w, p) (id_ w) sz D n (w1, p1) each ln).
  - intros n s1 (D & _ & _ & HD & Hco). assert (D = list_to_set leaves) as -> by set_solver.
    steps_B. split; [done|].
    replace sz with (Z.of_nat (size (list_to_set leaves : gset Z))) in Hco
      by (unfold sz; by rewrite size_list_to_set).
    eapply (concatenating_finish (w, p) (id_ w) _ n s1); try done; simpl.
    + intros x Hx%elem_of_list_to_set. by apply Hl.
    + apply insert_new_None. eapply attached_None; [apply Hco|done].
  - exists ∅. split; [done|]. split; [set_solver|]. split; [set_solver|].
    by apply (concatenating_start (w, p)).
Qed.

(** *** Splitting a leaf *)

Definition new_noop (id : Z) : node T U := make_node id "no_op" 0 0 KNoOpTransform inhabitant.

Lemma new_noop_unconnected id : unconnected (new_noop id).
Proof. done. Qed.

Lemma wpB_make_NoOpTransform w p Φ Ψ :
  (0 < id_ w)%Z → (id_ w + 1 < 2 ^ 64)%Z →
  Φ (new_noop (id_ w)) (World (id_ w + 1) (queues w) (abort_queues w), p) →
  wpB make_NoOpTransform (w, p) Φ Ψ.
Proof. intros ? ? HΦ. unfold make_NoOpTransform. step_B. apply wpB_GenerateId; [done|done|]. by step_B. Qed.

(** The state of the loop after [j] outputs of the node [n], which is not yet
    in the pipeline; [N] are the nodes behind the outputs. *)
Record splitting s0 (id : Z) (k : kind T U) (size : Z) (j : nat) n (N : gmap Z (node T U)) s : Prop := {
  sp_kind : node_kind n = k;
  sp_id : processor_id_ n = id;
  sp_size : output_size_ n = size;
  sp_in : inq n = None ∧ input_count_ n = 0%Z;
  sp_ports : multi_wired (outputs_ n) ∧ length (outputs_ n) = j;
  sp_world : (id_ s0.1 ≤ id_ s.1)%Z ∧ (id < id_ s.1)%Z;
  sp_option : option_ s.2 = option_ s0.2;
  sp_leaves : leaves_ s.2 = leaves_ s0.2;
  sp_nodes : nodes_ s.2 = N ∪ nodes_ s0.2;
  sp_new id' m : N !! id' = Some m → nodes_ s0.2 !! id' = None ∧ id' ≠ id ∧ sound s.1 true id' m;
  sp_wiring : ∃ rank bound,
    wiring (channel_size (option_ s0.2)) (queues s.1) rank bound (dags_ s.2) (<[id := n]> (nodes_ s.2)) ∧
    ∀ a na, nodes_ s0.2 !! a = Some na → rank a < rank id;
}.

Lemma sound_world w w' leaf id n : (id_ w ≤ id_ w')%Z → sound w leaf id n → sound w' leaf id n.
Proof. intros Hw [? ? ? ? ?]. split; try done. lia. Qed.

Lemma splitting_unused s0 id k sz j n N s :
  built s0 → splitting s0 id k sz j n N s → nodes_ s.2 !! id_ s.1 = None ∧ id_ s.1 ≠ id ∧ N !! id_ s.1 = None.
Proof.
  intros Hb Hsp. destruct (sp_world _ _ _ _ _ _ _ _ Hsp) as [Hw Hi].
  assert (N !! id_ s.1 = None) as HN.
  { destruct (N !! id_ s.1) as [m|] eqn:Hm; [|done].
    apply (sp_new _ _ _ _ _ _ _ _ Hsp) in Hm as (_ & _ & [_ Hr _ _ _]). lia. }
  split; [|split; [lia|done]]. rewrite (sp_nodes _ _ _ _ _ _ _ _ Hsp). apply lookup_union_None.
  split; [done|]. destruct (nodes_ s0.2 !! id_ s.1) as [m|] eqn:Hm; [|done].
  apply (bt_nodes _ Hb) in Hm as [_ Hr _ _ _]. lia.
Qed.

Lemma splitting_step s0 id k sz j n N s s' :
  built s0 → is_split k = true → splitting s0 id k sz j n N s → (0 < id_ s.1)%Z →
  let q := length (queues s.1) in let n' := AddOutputPort (Channel_of_queue q) n in
  let m := SetInputPort (Channel_of_queue q) (new_noop (id_ s.1)) in
  id_ s'.1 = (id_ s.1 + 1)%Z → queues s'.1 = queues s.1 ++ [channel_size (option_ s.2)] →
  option_ s'.2 = option_ s.2 → leaves_ s'.2 = leaves_ s.2 →
  dags_ s'.2 = <[id := default ∅ (dags_ s.2 !! id) ∪ {[id_ s.1]}]> (dags_ s.2) →
  nodes_ s'.2 = <[id_ s.1 := m]> (nodes_ s.2) →
  splitting s0 id k sz (S j) n' (<[id_ s.1 := m]> N) s'.
Proof.
  intros Hb Hk Hsp Hpos q n' m Hs1 Hs2 Hs3 Hs4 Hs5 Hs6.
  destruct (splitting_unused _ _ _ _ _ _ _ _ Hb Hsp) as (Hun & Hne & HN).
  destruct Hsp as [Hki Hi Hsz Hin [Hp Hl] [Hw Hw'] Hop Hlv Hns Hnew (rank & bound & Hwi & Hrank)].
  assert (nodes_ s0.2 !! id_ s.1 = None) as Hun0 by (rewrite Hns in Hun; by apply lookup_union_None in Hun as [_ ?]).
  split; try done; [|lia|congruence|congruence| | |].
  - split; [|simpl; rewrite length_app, Hl; simpl; lia]. apply multi_wired_snoc; [done|].
    destruct (wiring_unused _ _ _ _ _ _ id n q Hwi) as [Hx _]; [apply lookup_insert_eq|done|].
    rewrite writes_split in Hx by (by rewrite Hki). by case_decide.
  - by rewrite Hs6, Hns, insert_union_l.
  - intros id' m' [[<- <-]|[Hne' Hm']]%lookup_insert_Some.
    + split; [done|]. split; [lia|].
      apply (fed_once_sound _ q (new_noop (id_ s.1))); [apply new_noop_unconnected|simpl; lia|done].
    + apply Hnew in Hm' as (? & ? & ?). split; [done|]. split; [done|]. eapply sound_world; [|done]. lia.
  - exists (<[id_ s.1 := bound]> rank), (S bound). split.
    + rewrite Hs2, Hs5, Hs6, Hop. rewrite insert_insert_ne by done.
      rewrite <- (insert_insert_eq (nodes_ s.2) id n' n).
      apply (wiring_append _ _ _ _ _ _ _ n _ _ (new_noop (id_ s.1))); try done.
      * apply lookup_insert_eq.
      * by rewrite lookup_insert_ne.
      * apply writes_AddOutputPort. by rewrite Hki.
      * by apply append_expects.
    + intros a na Ha. rewrite !fn_lookup_insert_ne; [eauto|done|congruence].
Qed.

Lemma wpB_insert_leaves l s Φ Ψ :
  (∀ s', s'.1 = s.1 → leaves_ s'.2 = leaves_ s.2 ∪ list_to_set l → option_ s'.2 = option_ s.2 →
     nodes_ s'.2 = nodes_ s.2 → dags_ s'.2 = dags_ s.2 → Φ tt s') →
  wpB (for_all l insert_leaf) s Φ Ψ.
Proof.
  revert s. induction l as [|x l IH]; intros s HΦ; simpl.
  - apply wpB_ret, HΦ; try done. set_solver.
  - step_B. step_B. apply IH. intros s' Hs1 Hs2 Hs3 Hs4 Hs5. apply HΦ; try done. rewrite Hs2. simpl. set_solver.
Qed.

Lemma splitting_finish s0 id k sz n N s leaf ln s' :
  let q := length (queues s.1) in
  built s0 → nodes_ s0.2 !! id = None → (0 < id)%Z → is_split k = true → (0 < sz)%Z →
  splitting s0 id k sz (Z.to_nat sz) n N s → leaf ∈ leaves_ s0.2 → nodes_ s0.2 !! leaf = Some ln →
  (id_ s.1 < 2 ^ 64)%Z →
  id_ s'.1 = id_ s.1 → queues s'.1 = queues s.1 ++ [channel_size (option_ s.2)] →
  option_ s'.2 = option_ s.2 → leaves_ s'.2 = (leaves_ s.2 ∖ {[leaf]}) ∪ dom N →
  dags_ s'.2 = <[leaf := default ∅ (dags_ s.2 !! leaf) ∪ {[id]}]> (dags_ s.2) →
  nodes_ s'.2 = <[id := SetInputPort (Channel_of_queue q) n]>
                  (<[leaf := SetOutputPort (Channel_of_queue q) ln]> (nodes_ s.2)) →
  grows s0 s' {[leaf]} (dom N).
Proof.
  intros q Hb Hid Hpos Hk Hsz [Hki Hi Hs [Hin Hc] [Hp Hl] [Hw Hw'] Hop Hlv Hns Hnew (rank & bound & Hwi & Hrank)].
  intros Hleaf Hln H64 Hs1 Hs2 Hs3 Hs4 Hs5 Hs6.
  destruct (built_leaf _ _ Hb Hleaf) as (ln' & Hln' & [Hlo Hll]). assert (ln' = ln) as -> by congruence.
  assert (leaf ≠ id) as Hne by congruence.
  assert (N !! leaf = None) as HNl.
  { destruct (N !! leaf) as [m|] eqn:Hm; [|done]. apply Hnew in Hm as (? & _). congruence. }
  assert (N !! id = None) as HNi.
  { destruct (N !! id) as [m|] eqn:Hm; [|done]. apply Hnew in Hm as (_ & ? & _). done. }
  set (n' := SetInputPort _ n) in *. set (ln'' := SetOutputPort _ ln) in *.
  assert (nodes_ s'.2 = <[id := n']> N ∪ <[leaf := ln'']> (nodes_ s0.2)) as Hnodes.
  { rewrite Hs6, Hns, <- insert_union_l, insert_union_r by done. done. }
  assert (sound s'.1 false id n') as Hso.
  { split; [done|rewrite Hs1; lia|by simpl; rewrite Hki; destruct k|..].
    - unfold in_connected. simpl. rewrite Hki. destruct k; try done; (split; [done|]); simpl; rewrite Hc; done.
    - unfold out_connected. simpl. rewrite Hki, Hk, Hs. destruct k; try done; (split; [done|]); rewrite Hl; lia. }
  split; [|congruence|congruence|].
  - apply (built_extend s0 s' {[leaf]} (<[id := n']> N) (dom N) (<[leaf := ln'']> (nodes_ s0.2)));
      try done; [set_solver| |congruence|set_solver| |rewrite Hs1; pose proof (bt_id _ Hb); lia|].
    + replace {[leaf]} with (∅ ∪ {[leaf]} : gset Z) by set_solver.
      apply attached_insert; [apply attached_refl|done|set_solver].
    + intros id' m [[<- <-]|[Hne' Hm]]%lookup_insert_Some.
      * split; [done|]. rewrite bool_decide_false by (by apply not_elem_of_dom). done.
      * rewrite bool_decide_true by (by eapply elem_of_dom_2). apply Hnew in Hm as (? & _ & ?). split; [done|].
        eapply sound_world; [|done]. lia.
    + exists rank, bound. rewrite Hs3, Hs2, Hs5, Hs6, Hop. rewrite insert_insert_ne by done.
      rewrite <- (insert_insert_eq (nodes_ s.2) id n' n).
      assert (nodes_ s.2 !! leaf = Some ln) by (by rewrite Hns, lookup_union_r).
      apply (wiring_link _ _ _ _ _ _ _ _ ln n); try done.
      * by rewrite lookup_insert_ne.
      * apply lookup_insert_eq.
      * eauto.
      * by apply writes_SetOutputPort.
      * apply expects_SetInputPort; [unfold one_input; rewrite Hki, Hk; btauto|rewrite Hc; lia|by right].
  - rewrite Hnodes. set_solver.
Qed.

Lemma splitting_start s n w :
  built s → unconnected n → is_split (node_kind n) = true → nodes_ s.2 !! processor_id_ n = None →
  (id_ s.1 ≤ id_ w)%Z → (processor_id_ n < id_ w)%Z → queues w = queues s.1 →
  splitting s (processor_id_ n) (node_kind n) (output_size_ n) 0 n ∅ (w, s.2).
Proof.
  intros Hb Hu Hk Hid Hw Hi Hq.
  split; try done; simpl.
  - apply unconnected_input; [done|]. unfold one_input. rewrite Hk. btauto.
  - rewrite (un_outs _ Hu). split; [split; constructor|done].
  - by rewrite (left_id_L ∅ (∪)).
  - destruct (bt_wiring _ Hb) as (rank & bound & Hwi).
    exists (<[processor_id_ n := bound]> rank), (S bound). rewrite Hq. split.
    + by apply wiring_add; [|done|intros; apply unconnected_duties..].
    + intros a na Ha. rewrite fn_lookup_insert, fn_lookup_insert_ne; [by eapply (w_bound _ _ _ _ _ _ Hwi)|].
      intros <-. by rewrite Ha in Hid.
Qed.

(** The common part of [DispatchFrom] and [ForkFrom]. *)
Lemma split_spec s leaf n s1 :
  let id := processor_id_ n in
  built s → is_split (node_kind n) = true → (0 < output_size_ n)%Z → (0 < id)%Z → nodes_ s.2 !! id = None →
  leaf ∈ leaves_ s.2 → (id_ s1.1 + output_size_ n < 2 ^ 64)%Z →
  splitting s id (node_kind n) (output_size_ n) 0 n ∅ s1 →
  wpB ('(n', result) ← for_all_with (seq 0 (Z.to_nat (output_size_ n))) (n, ∅)
                         (λ _ '(n, result), add_output id n result);
       attach leaf id n' result) s1
    (λ result s', result ⊆ leaves_ s'.2 ∧ grows s s' {[leaf]} result) (λ _, False).
Proof.
  intros id Hb Hk Hsz Hpos Hid Hleaf H64 Hstart. destruct (built_leaf _ _ Hb Hleaf) as (ln & Hln & _).
  pose proof (bt_id _ Hb) as Hw0. set (sz := output_size_ n) in *. step_B.
  apply (wpB_for_all_with (λ l '(n1, result) s', ∃ j N, j + length l = Z.to_nat sz ∧ result = dom N ∧
    (id_ s'.1 = id_ s1.1 + Z.of_nat j)%Z ∧ splitting s id (node_kind n) sz j n1 N s')).
  - intros i l [n1 result] s2 (j & N & Hj & -> & Hids & Hsp). simpl in Hj.
    destruct (splitting_unused _ _ _ _ _ _ _ _ Hb Hsp) as (Hun & _ & _).
    destruct (sp_world _ _ _ _ _ _ _ _ Hsp) as [Hw _]. destruct s2 as [w2 p2]. cbn [fst snd] in *.
    unfold add_output. step_B. apply wpB_make_NoOpTransform; [lia|lia|].
    unfold connect_OneIMultiO. steps_B. cbn [processor_id_ SetInputPort set_input_count set_input_port new_noop make_node].
    exists (S j), (<[id_ w2 := SetInputPort (Channel_of_queue (length (queues w2))) (new_noop (id_ w2))]> N).
    split; [lia|]. split; [set_solver|]. split; [simpl; lia|].
    apply (splitting_step s id (node_kind n) sz j n1 N (w2, p2)); try done; [simpl; lia|].
    simpl. by rewrite insert_new_None.
  - intros [n1 result] s2 (j & N & Hj & -> & Hids & Hsp). simpl in Hj. assert (j = Z.to_nat sz) as -> by lia.
    assert (nodes_ s2.2 !! leaf = Some ln ∧ nodes_ s2.2 !! id = None) as [Hs2 Hs2i].
    { rewrite (sp_nodes _ _ _ _ _ _ _ _ Hsp). pose proof (sp_new _ _ _ _ _ _ _ _ Hsp) as Hnew.
      split; [rewrite lookup_union_r; [done|]|apply lookup_union_None; split; [|done]].
      - destruct (N !! leaf) eqn:Hm; [|done]. apply Hnew in Hm as (? & _). congruence.
      - destruct (N !! id) eqn:Hm; [|done]. apply Hnew in Hm as (_ & ? & _). done. }
    destruct s2 as [w2 p2]. cbn [fst snd] in *. assert (leaf ≠ id) by congruence.
    unfold attach. step_B. apply (wpB_node_at _ ln); [done|]. step_B. step_B. step_B. apply wpB_connect.
    cbv zeta. steps_B. apply wpB_insert_leaves. rewrite set_order_set. simpl. intros s3 H3w H3l H3o H3n H3d. steps_B.
    assert (leaves_ s3.2 = leaves_ p2 ∖ {[leaf]} ∪ dom N) as H3l' by (rewrite H3l; done).
    split; [simpl; rewrite H3l'; set_solver|].
    eapply (splitting_finish s id (node_kind n) sz n1 N (w2, p2) leaf ln); try done; simpl;
      rewrite ?H3w, ?H3n, ?H3d; try done; [simpl; lia|].
    by rewrite insert_new_None by (by rewrite lookup_insert_ne).
  - exists 0, ∅. rewrite length_seq. split; [lia|]. split; [set_solver|]. split; [lia|done].
Qed.

Lemma DispatchFrom_spec s leaf n :
  built s → user_node s n → is_split (node_kind n) = true → (0 < output_size_ n)%Z →
  nodes_ s.2 !! processor_id_ n = None → (id_ s.1 + output_size_ n < 2 ^ 64)%Z →
  wpB (DispatchFrom leaf n) s
    (λ result s', leaf ∈ leaves_ s.2 ∧ grows s s' {[leaf]} result) (λ s', s' = s).
Proof.
  intros Hb [Hu Hr] Hk Hsz Hid H64. unfold DispatchFrom. step_B. apply wpB_leaf_check; [|done]. intros Hleaf.
  cbv zeta. pose proof (split_spec s leaf n s Hb Hk Hsz) as Hsp.
  eapply (wpB_weaken _ _ (λ result s', result ⊆ leaves_ s'.2 ∧ grows s s' {[leaf]} result) _ (λ _, False)); [|done|].
  - by intros result s' [_ ?].
  - apply Hsp; try done; [lia|]. destruct s as [w p]. apply (splitting_start (w, p)); try done; simpl in *; lia.
Qed.

Lemma ForkFrom_spec s leaf sz :
  built s → (0 < sz)%Z → (id_ s.1 + 1 + sz < 2 ^ 64)%Z →
  wpB (ForkFrom leaf sz) s
    (λ result s', leaf ∈ leaves_ s.2 ∧ grows s s' {[leaf]} result) (λ s', s' = s).
Proof.
  intros Hb Hsz H64. pose proof (bt_id _ Hb) as Hpos. pose proof (built_id_unused _ Hb) as Hun.
  unfold ForkFrom. step_B. apply wpB_leaf_check; [|done]. intros Hleaf.
  unfold make_Fork. destruct s as [w p]. cbn [fst snd] in *. step_B. step_B. apply wpB_GenerateId; [lia|lia|].
  step_B. apply wpB_assert; [apply bool_decide_true; lia|]. step_B. cbv zeta.
  set (n := make_node _ _ _ _ _ _).
  eapply (wpB_weaken _ _ (λ result s', result ⊆ leaves_ s'.2 ∧ grows (w, p) s' {[leaf]} result) _ (λ _, False)); [|done|].
  - by intros result s' [_ ?].
  - apply (split_spec (w, p) leaf n); try done; simpl; try lia.
    apply (splitting_start (w, p) n); try done; simpl; lia.
Qed.

(** *** Merging with a NoOp *)

Lemma built_world s w :
  built s → (id_ s.1 ≤ id_ w < 2 ^ 64)%Z → queues w = queues s.1 → built (w, s.2).
Proof.
  intros [Hw Hn Hl Hid] Hids Hq. split; simpl; [|..|done|lia].
  - destruct Hw as (rank & bound & Hw). exists rank, bound. simpl. by rewrite Hq.
  - intros id n Hidn. eapply sound_world; [|by apply Hn]. lia.
Qed.

Lemma noop_user_node s : built s → (id_ s.1 + 1 < 2 ^ 64)%Z →
  let s1 := (World (id_ s.1 + 1) (queues s.1) (abort_queues s.1), s.2) in
  built s1 ∧ user_node s1 (new_noop (id_ s.1)).
Proof.
  intros Hb H64 s1. pose proof (bt_id _ Hb). split; [apply built_world; try done; simpl; lia|].
  split; [apply new_noop_unconnected|]. simpl. lia.
Qed.

Lemma grows_world s s1 s' D L : s1.2 = s.2 → grows s1 s' D L → grows s s' D L.
Proof. intros Hs [Hb Ho Hl Hn]. split; [done|congruence|congruence|]. by rewrite <- Hs. Qed.

Lemma Merge_noop_spec s :
  built s → (id_ s.1 + 1 < 2 ^ 64)%Z →
  wpB Merge_noop s (λ id s', id = id_ s.1 ∧ grows s s' (leaves_ s.2) {[id]})
    (λ s', s'.2 = s.2 ∧ built s').
Proof.
  intros Hb H64. pose proof (bt_id _ Hb). destruct (noop_user_node _ Hb H64) as [Hb1 Hu].
  unfold Merge_noop. destruct s as [w p]. step_B. apply wpB_make_NoOpTransform; [simpl in *; lia|done|].
  eapply (wpB_weaken _ _ _ _ _ _); [| |by apply (merge_spec _ _ true)]; simpl.
  - intros id s' (-> & Hg & _). split; [done|].
    by refine (grows_world _ _ _ _ _ _ Hg).
  - intros s' ->. done.
Qed.

Lemma Merge_noop_leaves_spec s D :
  built s → (id_ s.1 + 1 < 2 ^ 64)%Z → D ≠ ∅ →
  wpB (Merge_noop_leaves D) s (λ id s', id = id_ s.1 ∧ grows s s' D {[id]})
    (λ s', s'.2 = s.2 ∧ built s').
Proof.
  intros Hb H64 HD. pose proof (bt_id _ Hb). destruct (noop_user_node _ Hb H64) as [Hb1 Hu].
  unfold Merge_noop_leaves. destruct s as [w p]. step_B. apply wpB_make_NoOpTransform; [simpl in *; lia|done|].
  eapply (wpB_weaken _ _ _ _ _ _); [| |by apply (merge_to_spec _ _ true)]; simpl.
  - intros id s' (-> & Hg & _). split; [done|].
    by refine (grows_world _ _ _ _ _ _ Hg).
  - intros s' ->. done.
Qed.

End ops.
