(* ===== verification/Builder.v ===== *)
(** * Building and launching pipelines

    The interface of [Pipeline] as a set of calls, the invariant of every
    sequence of calls, networks that are closed or open to channels of the user,
    and what [Run] launches. *)

From Stdlib Require Import Btauto.
From stdpp Require Import base functions gmap strings fin_maps fin_sets list.
From S2P Require Import Prelude Events Coro Processor Nodes PortLogic NodeProtocol Pipeline PipelineInv PipelineOps.

Section builder.
Context {T U : Type} `{Inhabited U} `{HashOrderLaws}.
Implicit Types (n : node T U) (p : Pipeline T U) (w : world) (s : state T U) (D L : gset Z)
  (ns : gmap Z (node T U)).

(** The calls a program makes while it builds a pipeline; [Construct] is the
    construction of a [Processor], [NewChannel] that of a [Channel] for the
    ports to the outside, which [CallSetInputChannel] and
    [CallSetOutputChannel] set on a [ChannelSource] and a [ChannelSink] of the
    pipeline. *)
Inductive api : Type :=
| Construct
| NewChannel (capacity : Z)
| CallSetInputChannel (id : Z) (c : channel)
| CallSetOutputChannel (id : Z) (c : channel)
| CallAddSource n
| CallAddTransform (leaf : Z) n
| CallAddTransform_all (creater : nat → node T U)
| CallSetSink n
| CallSetSink_leaves n D
| CallMerge n
| CallMerge_leaves n D
| CallMerge_noop
| CallMerge_noop_leaves D
| CallDispatchFrom (leaf : Z) n
| CallConcatFrom (leaves : list Z)
| CallForkFrom (leaf size : Z)
| CallBindExecutor (id ex : Z)
| CallSetAbortChannel (c : channel).

Definition ignore {A} (m : B T U A) : B T U unit := m ;; mret tt.

Definition exec (a : api) : B T U unit :=
  match a with
  | Construct => ignore GenerateId
  | NewChannel capacity => ignore (make_queue capacity)
  | CallSetInputChannel id c => n ← node_at id; store_node id (SetInputChannel c n)
  | CallSetOutputChannel id c => n ← node_at id; store_node id (SetOutputChannel c n)
  | CallAddSource n => ignore (AddSource n)
  | CallAddTransform leaf n => ignore (AddTransform leaf n)
  | CallAddTransform_all creater => ignore (AddTransform_all creater)
  | CallSetSink n => ignore (SetSink n)
  | CallSetSink_leaves n D => ignore (SetSink_leaves n D)
  | CallMerge n => ignore (Merge n)
  | CallMerge_leaves n D => ignore (Merge_leaves n D)
  | CallMerge_noop => ignore Merge_noop
  | CallMerge_noop_leaves D => ignore (Merge_noop_leaves D)
  | CallDispatchFrom leaf n => ignore (DispatchFrom leaf n)
  | CallConcatFrom leaves => ignore (ConcatFrom leaves)
  | CallForkFrom leaf size => ignore (ForkFrom leaf size)
  | CallBindExecutor id ex => BindExecutorForProcessor id (Some ex)
  | CallSetAbortChannel c => SetAbortChannel c
  end.

(** What a call may be given: nodes fresh from their constructors (of a class
    the parameter's type allows; their ports to the outside may be set), leaves
    to merge that are named, once each, and a positive number of outputs; the
    id counter does not overflow. *)
Definition legal s (a : api) : Prop :=
  match a with
  | Construct => (id_ s.1 + 1 < 2 ^ 64)%Z
  | NewChannel capacity => True
  | CallSetInputChannel id c => ∃ n, nodes_ s.2 !! id = Some n ∧ outside_in (node_kind n) = true
  | CallSetOutputChannel id c => ∃ n, nodes_ s.2 !! id = Some n ∧ outside_out (node_kind n) = true
  | CallAddSource n => user_node s n ∧ is_source (node_kind n) = true
  | CallAddTransform leaf n => user_node s n ∧ is_transform (node_kind n) = true
  | CallAddTransform_all creater => fresh_nodes s creater (size (leaves_ s.2))
  | CallSetSink n => user_node s n ∧ is_sink (node_kind n) = true
  | CallSetSink_leaves n D => user_node s n ∧ is_sink (node_kind n) = true ∧ D ≠ ∅
  | CallMerge n => user_node s n ∧ is_transform (node_kind n) = true
  | CallMerge_leaves n D => user_node s n ∧ is_transform (node_kind n) = true ∧ D ≠ ∅
  | CallMerge_noop => (id_ s.1 + 1 < 2 ^ 64)%Z
  | CallMerge_noop_leaves D => (id_ s.1 + 1 < 2 ^ 64)%Z ∧ D ≠ ∅
  | CallDispatchFrom leaf n =>
      user_node s n ∧ is_split (node_kind n) = true ∧ (0 < output_size_ n)%Z ∧
      nodes_ s.2 !! processor_id_ n = None ∧ (id_ s.1 + output_size_ n < 2 ^ 64)%Z
  | CallConcatFrom leaves => (id_ s.1 + 1 < 2 ^ 64)%Z ∧ NoDup leaves ∧ leaves ≠ []
  | CallForkFrom leaf size => (0 < size)%Z ∧ (id_ s.1 + 1 + size < 2 ^ 64)%Z
  | CallBindExecutor id ex => True
  | CallSetAbortChannel c => True
  end.

(** Replacing a node by one with the same duties. *)
Lemma wiring_same cap qs rank bound d ns id n n' :
  wiring cap qs rank bound d ns → ns !! id = Some n →
  (∀ q, inner_writes n' q = inner_writes n q) → (∀ q, inner_expects n' q = inner_expects n q) →
  wiring cap qs rank bound d (<[id := n']> ns).
Proof.
  intros [Hb Hr Hc He Hk Hd] Hid Hw Hx.
  assert (∀ a m, <[id := n']> ns !! a = Some m → ∃ m0, ns !! a = Some m0 ∧
    (∀ q, inner_writes m q = inner_writes m0 q) ∧ (∀ q, inner_expects m q = inner_expects m0 q)) as Hold.
  { intros a m [[<- <-]|[Hne Hm]]%lookup_insert_Some; [by exists n|by exists m]. }
  assert (∀ a m, ns !! a = Some m → ∃ m0, <[id := n']> ns !! a = Some m0 ∧
    (∀ q, inner_writes m q = inner_writes m0 q) ∧ (∀ q, inner_expects m q = inner_expects m0 q)) as Hnew.
  { intros a m Hm. destruct (decide (a = id)) as [->|Hne].
    - exists n'. rewrite lookup_insert_eq. simplify_eq. split; [done|]. split; intros; by rewrite ?Hw, ?Hx.
    - exists m. by rewrite lookup_insert_ne. }
  split.
  - intros q. pose proof (sum_over_update (λ n, inner_writes n q) ns id n n' Hid) as H1'.
    pose proof (sum_over_update (λ n, inner_expects n q) ns id n n' Hid) as H2'. simpl in *.
    rewrite Hw in H1'. rewrite Hx in H2'. specialize (Hb q). lia.
  - intros q a b na nb (na0 & Ha & _ & Hxa)%Hold (nb0 & Hb' & _ & Hxb)%Hold. rewrite Hxa, Hxb. eauto.
  - intros q a m (m0 & Hm & Hwm & Hxm)%Hold. rewrite Hwm, Hxm. eauto.
  - intros a b. rewrite He. split; intros (q & na & nb & Ha & Hb' & Hwa & Hxb).
    + apply Hnew in Ha as (na0 & Ha & Hwa' & _). apply Hnew in Hb' as (nb0 & Hb' & _ & Hxb').
      exists q, na0, nb0. by rewrite <- Hwa', <- Hxb'.
    + apply Hold in Ha as (na0 & Ha & Hwa' & _). apply Hold in Hb' as (nb0 & Hb' & _ & Hxb').
      exists q, na0, nb0. by rewrite <- Hwa', <- Hxb'.
  - intros q a b na nb (na0 & Ha & Hwa & _)%Hold (nb0 & Hb' & _ & Hxb)%Hold. rewrite Hwa, Hxb. eauto.
  - intros a m (m0 & Hm & _)%Hold. eauto.
Qed.

(** ... that is connected in the same way. *)
Lemma built_replace s id n n' :
  built s → nodes_ s.2 !! id = Some n →
  (∀ q, inner_writes n' q = inner_writes n q) → (∀ q, inner_expects n' q = inner_expects n q) →
  (∀ leaf, sound s.1 leaf id n → sound s.1 leaf id n') →
  built (s.1, set_nodes (<[id := n']> (nodes_ s.2)) s.2).
Proof.
  intros [(rank & bound & Hw) Hns Hl Hid] Hn Hw' Hx' Hs. split; simpl; [|..|done].
  - exists rank, bound. simpl. by apply (wiring_same _ _ _ _ _ _ _ n).
  - intros id' m [[<- <-]|[Hne Hm]]%lookup_insert_Some; [|by apply Hns]. by apply Hs, Hns.
  - by rewrite dom_insert_lookup_L.
Qed.

Lemma BindExecutor_spec s id ex :
  built s →
  wpB (BindExecutorForProcessor id (Some ex)) s (λ _ s', built s') (λ s', s' = s).
Proof.
  intros Hb. unfold BindExecutorForProcessor. step_B. step_B. destruct (nodes_ s.2 !! id) as [n|] eqn:Hn; [|done].
  steps_B. apply (built_replace s id n); try done. intros leaf [? ? ? ? ?]. by split.
Qed.

(** Setting a port to the outside. *)
Lemma outside_in_sound w leaf id n c :
  outside_in (node_kind n) = true → sound w leaf id n → sound w leaf id (SetInputChannel c n).
Proof. intros Hk [? ? ? Hi ?]. split; try done. unfold in_connected in *. simpl. by destruct (node_kind n). Qed.
Lemma outside_out_sound w leaf id n c :
  outside_out (node_kind n) = true → sound w leaf id n → sound w leaf id (SetOutputChannel c n).
Proof.
  intros Hk [? ? ? ? Ho]. split; try done. destruct leaf.
  - destruct Ho as [Ho _]. by apply one_output_inside in Ho; rewrite Hk in Ho.
  - unfold out_connected in *. simpl. by destruct (node_kind n).
Qed.

Lemma SetInputChannel_spec s id n c :
  built s → nodes_ s.2 !! id = Some n → outside_in (node_kind n) = true →
  wpB (n ← node_at id; store_node id (SetInputChannel c n)) s (λ _ s', built s') (λ s', s' = s).
Proof.
  intros Hb Hn Hk. step_B. apply (wpB_node_at _ n); [done|]. unfold store_node. step_B.
  apply (built_replace s id n); try done; [|intros; by apply outside_in_sound].
  intros q. unfold inner_expects. simpl. by rewrite Hk.
Qed.
Lemma SetOutputChannel_spec s id n c :
  built s → nodes_ s.2 !! id = Some n → outside_out (node_kind n) = true →
  wpB (n ← node_at id; store_node id (SetOutputChannel c n)) s (λ _ s', built s') (λ s', s' = s).
Proof.
  intros Hb Hn Hk. step_B. apply (wpB_node_at _ n); [done|]. unfold store_node. step_B.
  apply (built_replace s id n); try done; [|intros; by apply outside_out_sound].
  intros q. unfold inner_writes. simpl. by rewrite Hk.
Qed.

(** A channel of the user is one more queue, which no node uses. *)
Lemma NewChannel_spec s capacity :
  built s → wpB (make_queue capacity) s (λ _ s', built s') (λ s', s' = s).
Proof.
  intros [(rank & bound & Hw) Hns Hl Hid]. destruct s as [w p]. apply wpB_make_queue.
  split; [exists rank, bound; by apply wiring_new_queue|..|done|done].
  intros id n Hn. eapply sound_world; [|by apply Hns]. done.
Qed.

(** The outcome of a legal call. *)
Definition call_ok s s' (r : outcome unit) : Prop :=
  built s' ∧ (r = Ok tt ∨ (∃ e, r = Throw e) ∧ s'.2 = s.2).

Lemma wpB_ignore {A} (m : B T U A) s Φ Ψ :
  wpB m s (λ _ s', Φ tt s') Ψ → wpB (ignore m) s Φ Ψ.
Proof. intros Hm. unfold ignore. apply wpB_bind. eapply wpB_mono; [|exact Hm]. by intros. Qed.

Lemma call_ok_wpB s (m : B T U unit) :
  wpB m s (λ _ s', built s') (λ s', s'.2 = s.2 ∧ built s') → call_ok s (m s).1 (m s).2.
Proof.
  unfold wpB, call_ok. destruct (m s) as [s' [[]|e|c]]; simpl; [eauto| |done].
  intros [? ?]. split; [done|]. eauto.
Qed.

Ltac by_spec lem :=
  apply wpB_ignore; eapply (wpB_weaken _ _ _ _ _ _); [| |by eapply lem];
  [simpl; intros; destruct_and?; try done; by eapply gr_built|simpl; intros; simplify_eq/=; try done; naive_solver].

Lemma exec_ok s a : built s → legal s a → call_ok s (exec a s).1 (exec a s).2.
Proof.
  intros Hb Ha. apply call_ok_wpB. pose proof (bt_id _ Hb).
  destruct a; simpl in Ha; cbn [exec]; destruct_and?.
  - apply wpB_ignore. destruct s as [w p]. apply wpB_GenerateId; simpl in *; [lia|done|].
    apply (built_world (w, p)); try done. simpl. lia.
  - apply wpB_ignore. eapply (wpB_weaken _ _ _ _ _ _); [| |by apply NewChannel_spec]; simpl; intros; by subst.
  - destruct Ha as (n & Hn & Hk).
    eapply (wpB_weaken _ _ _ _ _ _); [| |by eapply SetInputChannel_spec]; simpl; intros; by subst.
  - destruct Ha as (n & Hn & Hk).
    eapply (wpB_weaken _ _ _ _ _ _); [| |by eapply SetOutputChannel_spec]; simpl; intros; by subst.
  - by_spec (AddSource_spec s n).
  - by_spec (AddTransform_spec s leaf n).
  - by_spec (AddTransform_all_spec s creater).
  - by_spec (SetSink_spec s n).
  - by_spec (SetSink_leaves_spec s n D).
  - by_spec (merge_spec s n true).
  - by_spec (merge_to_spec s n true D).
  - by_spec (Merge_noop_spec s).
  - by_spec (Merge_noop_leaves_spec s D).
  - by_spec (DispatchFrom_spec s leaf n).
  - by_spec (ConcatFrom_spec s leaves).
  - by_spec (ForkFrom_spec s leaf size).
  - eapply (wpB_weaken _ _ _ _ _ _); [| |by apply BindExecutor_spec]; simpl; intros; by subst.
  - unfold SetAbortChannel. step_B. destruct Hb as [Hw Hns Hl Hid]. by split.
Qed.

(** *** Sequences of calls *)

(** The states a program can reach from an empty pipeline; a call that throws
    is caught and the program goes on. *)
Inductive reaches (option : PipelineOption) : state T U → Prop :=
| reaches_init w : (0 < id_ w < 2 ^ 64)%Z → reaches option (w, Pipeline_init option)
| reaches_call s a : reaches option s → legal s a → reaches option (exec a s).1.

Lemma reaches_built option s : reaches option s → built s.
Proof.
  induction 1 as [w Hw|s a _ IH Ha]; [by apply built_init|]. by apply exec_ok.
Qed.
#[local] Hint Resolve reaches_built : tunnel.

Fixpoint exec_all (l : list api) s : state T U :=
  match l with [] => s | a :: l => exec_all l (exec a s).1 end.
Fixpoint legal_all (l : list api) s : Prop :=
  match l with [] => True | a :: l => legal s a ∧ legal_all l (exec a s).1 end.

Lemma reaches_all option l s : reaches option s → legal_all l s → reaches option (exec_all l s).
Proof.
  revert s. induction l as [|a l IH]; intros s Hs Hl; [done|]. simpl in *. destruct Hl.
  apply IH; [by constructor|done].
Qed.

(** C4: Every sequence of calls of the interface of [Pipeline], made with fresh
    nodes of the classes of [kind] (those with several outputs having a positive
    number of them) and non-empty sets of distinct leaves, keeps the pipeline well
    formed: no call dereferences a null pointer or fails an assertion, a call
    that throws leaves the pipeline as it was, and afterwards every queue
    between its nodes has one reader that expects as many ends of file as the queue has writers, the
    recorded edges are exactly the writer-reader pairs and contain no cycle,
    every node has its inputs connected, exactly the leaves lack an output. *)
Theorem builder_wellformed option s a :
  reaches option s → legal s a →
  built (exec a s).1 ∧ ((exec a s).2 = Ok tt ∨ (∃ e, (exec a s).2 = Throw e) ∧ (exec a s).1.2 = s.2).
Proof. intros Hs Ha. apply exec_ok; eauto with tunnel. Qed.

(** The writers of the queues a node reads. *)
Lemma built_writers s id n q :
  built s → nodes_ s.2 !! id = Some n → 0 < inner_expects n q →
  Σ[m ∈ nodes_ s.2] inner_writes m q = inner_expects n q.
Proof.
  intros Hb Hn Hx. destruct (bt_wiring _ Hb) as (rank & bound & [Hbal Hr _ _ _ _]). rewrite Hbal.
  apply (sum_over_single (λ m, inner_expects m q) _ id n Hn). intros j m Hm Hne. apply Nat.le_0_r, Nat.nlt_ge. intros Hpos.
  destruct Hne. by eapply (Hr q).
Qed.

Lemma writers_size ns q : Σ[m ∈ ns] inner_writes m q ≤ size ns.
Proof.
  induction ns as [|i m ns Hi IH] using map_ind; [done|]. rewrite sum_over_insert, map_size_insert_None by done.
  assert (inner_writes m q ≤ 1); [|lia]. unfold inner_writes, writes. repeat case_match; lia.
Qed.

Lemma writers_bounded s q : built s → (Z.of_nat (Σ[m ∈ nodes_ s.2] inner_writes m q) < 2 ^ 64)%Z.
Proof.
  intros Hb. pose proof (built_size s Hb). pose proof (bt_id s Hb). pose proof (writers_size (nodes_ s.2) q). lia.
Qed.

(** C12: The representation of the nodes of a pipeline, in every state that calls
    of the interface reach: ids are positive, unequal and below the counter,
    which has not wrapped; a node with one input has a non-null input port and
    [input_count_] is the number of the nodes that write to it, not wrapped;
    that of a [ChannelSource] is 1; a [Concat] has as many inputs as
    [input_size_] says, all distinct and non-null, with one writer each; a
    [Dispatch] or [Fork] has as many distinct and non-null outputs as
    [output_size_] says; and exactly the leaves have a null output port. *)
Theorem builder_types option s id n :
  reaches option s → nodes_ s.2 !! id = Some n →
  (processor_id_ n = id ∧ 0 < id < id_ s.1 ∧ id_ s.1 < 2 ^ 64)%Z ∧
  (one_input (node_kind n) = true → ∃ q, inq n = Some q ∧
     input_count_ n = Z.of_nat (Σ[m ∈ nodes_ s.2] inner_writes m q) ∧ (0 < input_count_ n < 2 ^ 64)%Z) ∧
  (outside_in (node_kind n) = true → input_count_ n = 1%Z) ∧
  (is_concat (node_kind n) = true →
     multi_wired (inputs_ n) ∧ Z.of_nat (length (inputs_ n)) = input_size_ n ∧
     ∀ q, q ∈ ptrs (inputs_ n) → Σ[m ∈ nodes_ s.2] inner_writes m q = 1) ∧
  (is_split (node_kind n) = true →
     multi_wired (outputs_ n) ∧ Z.of_nat (length (outputs_ n)) = output_size_ n ∧ (0 < output_size_ n)%Z) ∧
  (one_output (node_kind n) = true → (id ∈ leaves_ s.2 ↔ outq n = None)).
Proof.
  intros Hb%reaches_built Hn. destruct (bt_nodes _ Hb id n Hn) as [Hid Hrange Hcount Hin Hout].
  pose proof (bt_id _ Hb) as H64. split; [split; [done|lia]|]. split; [|split; [done|split; [|split]]].
  - intros Hk. assert (in_wired n) as [Hq Hpos].
    { unfold in_connected in Hin. by destruct (node_kind n). }
    destruct (inq n) as [q|] eqn:Hi; [|done]. exists q. split; [done|].
    assert (inner_expects n q = Z.to_nat (input_count_ n)) as Hx by (by rewrite expects_one_input, Hi, decide_True).
    pose proof (built_writers s id n q Hb Hn) as Hw. pose proof (writers_bounded s q Hb). lia.
  - intros Hk. unfold in_connected in Hin. assert (is_source (node_kind n) = false) as Hs by (by destruct (node_kind n)).
    rewrite Hs, Hk in Hin. destruct Hin as [Hm Hl]. split_and!; [done..|]. intros q Hq.
    assert (inner_expects n q = 1) as Hx by (by rewrite expects_concat, decide_True).
    rewrite (built_writers s id n q Hb Hn) by lia. done.
  - intros Hk. unfold out_connected, leafy, one_output in Hout. case_bool_decide; [by destruct Hout, (node_kind n)|].
    by destruct (node_kind n).
  - intros Hk. case_bool_decide as Hl; [by split; [destruct Hout|]|]. split; [done|]. intros Ho.
    unfold out_connected, out_wired in Hout. by destruct (node_kind n).
Qed.

(** *** Completed pipelines *)

(** A closed network: every node is connected on both sides and passes the
    checks of [before_work]; the number of writers of a queue is the number of
    ends of file its only reader expects; there is no cycle; the capacities of
    its queues satisfy [cap]. *)
Record closed_network (cap : Z → Prop) (qs : list Z) ns : Prop := {
  cn_wired id n : ns !! id = Some n → wired n ∧ before_work (node_kind n) n = None;
  cn_balance q : Σ[n ∈ ns] writes n q = Σ[n ∈ ns] expects n q;
  cn_reader q a b na nb :
    ns !! a = Some na → ns !! b = Some nb → 0 < expects na q → 0 < expects nb q → a = b;
  cn_acyclic : ∃ rank : Z → nat, ∀ q a b na nb,
    ns !! a = Some na → ns !! b = Some nb → 0 < writes na q → 0 < expects nb q → rank a < rank b;
  cn_cap q a n : ns !! a = Some n → 0 < writes n q + expects n q → ∃ c, qs !! q = Some c ∧ cap c;
}.

(** A node of a completed pipeline, its port to the outside excepted. *)
Definition connected n : Prop :=
  in_connected n ∧ out_connected n ∧ (outside_in (node_kind n) = true → input_count_ n = 1%Z).

(** The same without the ports to the outside. *)
Record open_network (cap : Z → Prop) (qs : list Z) ns : Prop := {
  on_connected id n : ns !! id = Some n → connected n;
  on_balance q : Σ[n ∈ ns] inner_writes n q = Σ[n ∈ ns] inner_expects n q;
  on_reader q a b na nb :
    ns !! a = Some na → ns !! b = Some nb → 0 < inner_expects na q → 0 < inner_expects nb q → a = b;
  on_acyclic : ∃ rank : Z → nat, ∀ q a b na nb,
    ns !! a = Some na → ns !! b = Some nb → 0 < inner_writes na q → 0 < inner_expects nb q → rank a < rank b;
  on_cap q a n : ns !! a = Some n → 0 < inner_writes n q + inner_expects n q → ∃ c, qs !! q = Some c ∧ cap c;
}.

Lemma built_open s :
  built s → leaves_ s.2 = ∅ → open_network (eq (channel_size (option_ s.2))) (queues s.1) (nodes_ s.2).
Proof.
  intros [(rank & bound & [Hb Hr Hc He Hk Hd]) Hns _ _] Hl. split; try done.
  - intros id n Hn. apply Hns in Hn. rewrite Hl, bool_decide_false in Hn by set_solver. by destruct Hn.
  - by exists rank.
  - intros q a n Hn Hq. exists (channel_size (option_ s.2)). eauto.
Qed.

(** A pipeline without [ChannelSource]s and [ChannelSink]s. *)
Definition self_contained ns : Prop :=
  map_Forall (λ _ n, outside_in (node_kind n) = false ∧ outside_out (node_kind n) = false) ns.
#[global] Instance self_contained_dec ns : Decision (self_contained ns).
Proof. unfold self_contained. apply _. Defined.

Lemma inner_writes_inside n q : outside_out (node_kind n) = false → inner_writes n q = writes n q.
Proof. unfold inner_writes. by intros ->. Qed.
Lemma inner_expects_inside n q : outside_in (node_kind n) = false → inner_expects n q = expects n q.
Proof. unfold inner_expects. by intros ->. Qed.

(** A connected node whose ports to the outside are set. *)
Lemma connected_wired n :
  connected n → (outside_in (node_kind n) = true → inq n ≠ None) → (outside_out (node_kind n) = true → outq n ≠ None) →
  wired n ∧ before_work (node_kind n) n = None.
Proof.
  intros (Hi & Ho & Hc) Hin Hout. unfold in_connected in Hi. unfold out_connected in Ho.
  unfold wired, before_work, before_work_MultiIOneO, before_work_OneIMultiO, before_work_ChannelSource, before_work_ChannelSink.
  unfold in_wired, out_wired, inq, outq, Channel_bool in *.
  destruct (node_kind n); simpl in *; try done; destruct_and?; try case_decide; try done.
  - specialize (Hin eq_refl). destruct (queue_ptr (input_port n)); [|done]. rewrite (Hc eq_refl). done.
  - specialize (Hout eq_refl). destruct (queue_ptr (output_port n)); done.
Qed.

Lemma open_closed cap qs ns : open_network cap qs ns → self_contained ns → closed_network cap qs ns.
Proof.
  intros [Hn Hb Hr (rank & Hrank) Hc] Hs.
  assert (∀ id n q, ns !! id = Some n → inner_writes n q = writes n q ∧ inner_expects n q = expects n q) as Hin.
  { intros id n q [? ?]%Hs. auto using inner_writes_inside, inner_expects_inside. }
  split.
  - intros id n Hidn. apply connected_wired; [by eapply Hn|..]; apply Hs in Hidn as [? ?]; congruence.
  - intros q. rewrite <- (sum_over_ext (λ n, inner_writes n q)), Hb by (intros; by eapply Hin).
    apply sum_over_ext. intros; by eapply Hin.
  - intros q a b na nb Ha Hb'. destruct (Hin a na q Ha) as [_ <-], (Hin b nb q Hb') as [_ <-]. eauto.
  - exists rank. intros q a b na nb Ha Hb'. destruct (Hin a na q Ha) as [<- _], (Hin b nb q Hb') as [_ <-]. eauto.
  - intros q a n Ha. destruct (Hin a n q Ha) as [<- <-]. eauto.
Qed.

Lemma built_closed s :
  built s → leaves_ s.2 = ∅ → self_contained (nodes_ s.2) →
  closed_network (eq (channel_size (option_ s.2))) (queues s.1) (nodes_ s.2).
Proof. intros Hb Hl Hs. apply open_closed; [by apply built_open|done]. Qed.

(** A completed pipeline (no leaves) without [ChannelSource]s and
    [ChannelSink]s is a closed network, whatever calls built it, with queues of the capacity its option gives. *)
Theorem completed_closed option s :
  reaches option s → IsCompleted s.2 = true → self_contained (nodes_ s.2) →
  closed_network (eq (channel_size (option_ s.2))) (queues s.1) (nodes_ s.2).
Proof.
  intros Hs Hl%bool_decide_eq_true. apply built_closed; eauto with tunnel.
Qed.

(** *** [Run] *)

(** The abort channel [Run] uses, and a node as [Run] launches it. *)
Definition run_abort_channel (garbage : Z) s : channel :=
  if Channel_bool (abort_channel_ s.2) then abort_channel_ s.2
  else Channel_of_capacity garbage (length (abort_queues s.1)).

Definition launched (garbage : Z) s n : node T U :=
  if bind_abort_channel (option_ s.2) then BindAbortChannel (run_abort_channel garbage s) n else n.

Lemma map_order_fmap {A A'} (f : A → A') (m : gmap Z A) :
  map_order (f <$> m) ≡ₚ prod_map id f <$> map_order m.
Proof. rewrite !map_order_perm. by rewrite map_to_list_fmap. Qed.

(** The list given to [collectAllPara]. *)
Lemma launch_list ex (g : node T U → node T U) ns :
  (∀ n, ex_ (g n) = ex_ n) →
  (λ each : Z * node T U, (default ex (ex_ each.2), each.2)) <$> map_order (g <$> ns) ≡ₚ
  (λ each : Z * node T U, (default ex (ex_ each.2), g each.2)) <$> map_to_list ns.
Proof.
  intros Hg. rewrite map_order_fmap, map_order_perm, <- list_fmap_compose.
  apply reflexive_eq, list_fmap_ext. intros i [id n] _. simpl. by rewrite Hg.
Qed.

Lemma Run_launch_ok garbage ex s :
  leaves_ s.2 = ∅ → nodes_ s.2 ≠ ∅ →
  wpB (Run_launch garbage (Some ex)) s (λ l s',
    queues s'.1 = queues s.1 ∧ nodes_ s'.2 = launched garbage s <$> nodes_ s.2 ∧
    l ≡ₚ (λ each : Z * node T U, (default ex (ex_ each.2), launched garbage s each.2)) <$> map_to_list (nodes_ s.2))
    (λ _, False).
Proof.
  intros Hl Hn. unfold Run_launch. step_B. step_B. unfold IsCompleted. rewrite bool_decide_true by done. cbn [negb].
  step_B. step_B. rewrite decide_False by done. step_B. step_B. step_B.
  assert (∀ w, queues w = queues s.1 → wpB (bind ← get (λ p, bind_abort_channel (option_ p));
         (if bind : bool then update (λ p, set_nodes (BindAbortChannel (run_abort_channel garbage s) <$> nodes_ p) p)
          else mret tt) ;;
         nodes ← get nodes_;
         mret ((λ each : Z * node T U, (default ex (ex_ each.2), each.2)) <$> map_order nodes)) (w, s.2)
      (λ l s', queues s'.1 = queues s.1 ∧ nodes_ s'.2 = launched garbage s <$> nodes_ s.2 ∧
        l ≡ₚ (λ each : Z * node T U, (default ex (ex_ each.2), launched garbage s each.2)) <$> map_to_list (nodes_ s.2))
      (λ _, False)) as Hrest.
  { intros w Hq. step_B. step_B. step_B. unfold launched. cbn [snd].
    destruct (bind_abort_channel (option_ s.2)); steps_B; simpl; (split; [done|split; [by rewrite ?map_fmap_id|]]).
    - by apply launch_list.
    - by rewrite <- (launch_list ex id) by done; rewrite map_fmap_id. }
  unfold run_abort_channel, GetAbortChannel in *. destruct (Channel_bool (abort_channel_ s.2)) eqn:Hc.
  - step_B. destruct s as [w p]. by apply Hrest.
  - destruct s as [w p]. step_B. unfold make_abort_queue. by apply Hrest.
Qed.

Lemma Run_launch_returns garbage ex s :
  leaves_ s.2 = ∅ → nodes_ s.2 ≠ ∅ →
  ∃ s' l, Run_launch garbage (Some ex) s = (s', Ok l) ∧ queues s'.1 = queues s.1 ∧
    nodes_ s'.2 = launched garbage s <$> nodes_ s.2 ∧
    l ≡ₚ (λ each : Z * node T U, (default ex (ex_ each.2), launched garbage s each.2)) <$> map_to_list (nodes_ s.2).
Proof.
  intros Hl Hn. pose proof (Run_launch_ok garbage ex s Hl Hn) as Hrun. unfold wpB in Hrun.
  destruct (Run_launch garbage (Some ex) s) as [s' [l|e|c]]; [|done..]. by exists s', l.
Qed.

(** Nodes that behave alike towards the network. *)
Record alike n n' : Prop := {
  al_kind : node_kind n' = node_kind n;
  al_wired : wired n → wired n';
  al_check : before_work (node_kind n) n' = before_work (node_kind n) n;
  al_writes q : writes n' q = writes n q;
  al_expects q : expects n' q = expects n q;
}.

Lemma launched_alike garbage s n : alike n (launched garbage s n).
Proof. unfold launched. by destruct (bind_abort_channel (option_ s.2)). Qed.

(** A launched node that passes its check has an abort channel. *)
Lemma launched_bound garbage s n :
  bind_abort_channel (option_ s.2) = true →
  before_work (node_kind (launched garbage s n)) (launched garbage s n) = None → may_end (launched garbage s n) = false.
Proof.
  intros Hbind Hch. unfold may_end. rewrite Hch. unfold launched, run_abort_channel. rewrite Hbind. simpl.
  destruct (Channel_bool (abort_channel_ s.2)) eqn:Hc; [by rewrite Hc|done].
Qed.

Lemma closed_network_alike cap qs ns ns' :
  closed_network cap qs ns → (∀ id, option_Forall2 alike (ns !! id) (ns' !! id)) → closed_network cap qs ns'.
Proof.
  intros [Hn Hb Hr (rank & Hrank) Hc] Hal.
  assert (∀ id n', ns' !! id = Some n' → ∃ n, ns !! id = Some n ∧ alike n n') as Hold.
  { intros id n' Hn'. specialize (Hal id). rewrite Hn' in Hal. inversion Hal; simplify_eq. eauto. }
  assert (∀ (f : node T U → nat), (∀ n n', alike n n' → f n' = f n) → sum_over f ns' = sum_over f ns) as Hsum.
  { intros f Hf. apply (sum_over_reindex f ns ns' id); [|done|].
    - intros id n' (n & ? & ?)%Hold. exists n. auto.
    - intros id n Hidn _. exists id. split; [|done]. specialize (Hal id). rewrite Hidn in Hal.
      inversion Hal; simplify_eq. apply elem_of_dom. eauto. }
  split.
  - intros id n' (n & Hidn & [Hk Hw Hch _ _])%Hold. rewrite Hk, Hch. apply Hn in Hidn as [? ?]. auto.
  - intros q. rewrite (Hsum (λ n, writes n q)), (Hsum (λ n, expects n q)) by (intros ? ? []; done). apply Hb.
  - intros q a b na nb (na0 & Ha & [])%Hold (nb0 & Hb' & [])%Hold. rewrite al_expects0, al_expects1. eauto.
  - exists rank. intros q a b na nb (na0 & Ha & [])%Hold (nb0 & Hb' & [])%Hold. rewrite al_writes0, al_expects1. eauto.
  - intros q a n (n0 & Hn0 & [])%Hold. rewrite al_writes0, al_expects0. eauto.
Qed.

Lemma closed_network_fmap cap qs ns (g : node T U → node T U) :
  (∀ n, alike n (g n)) → closed_network cap qs ns → closed_network cap qs (g <$> ns).
Proof.
  intros Hg Hcn. eapply closed_network_alike; [exact Hcn|]. intros id. rewrite lookup_fmap.
  destruct (ns !! id); constructor. apply Hg.
Qed.

Lemma Run_launch_spec cap garbage ex s :
  closed_network cap (queues s.1) (nodes_ s.2) → leaves_ s.2 = ∅ → nodes_ s.2 ≠ ∅ →
  ∃ s' l, Run_launch garbage (Some ex) s = (s', Ok l) ∧ queues s'.1 = queues s.1 ∧
    l ≡ₚ (λ each : Z * node T U, (default ex (ex_ each.2), launched garbage s each.2)) <$> map_to_list (nodes_ s.2) ∧
    nodes_ s'.2 = launched garbage s <$> nodes_ s.2 ∧
    closed_network cap (queues s.1) (nodes_ s'.2) ∧
    (bind_abort_channel (option_ s.2) = true → ∀ id n, nodes_ s'.2 !! id = Some n → may_end n = false).
Proof.
  intros Hcn Hl Hn. destruct (Run_launch_returns garbage ex s Hl Hn) as (s' & l & Hrun & Hq & Hns & Hperm).
  assert (closed_network cap (queues s.1) (nodes_ s'.2)) as Hclosed.
  { rewrite Hns. apply closed_network_fmap; [|done]. apply launched_alike. }
  exists s', l. do 5 (split; [done|]).
  intros Hbind id n Hidn. destruct (cn_wired _ _ _ Hclosed _ _ Hidn) as [_ Hch].
  rewrite Hns in Hidn. apply lookup_fmap_Some in Hidn as (n0 & <- & _). by apply launched_bound.
Qed.

(** C28: [Run] on a completed, non-empty pipeline without [ChannelSource]s and
    [ChannelSink]s launches every node exactly once, on the executor bound to it
    or else on the current one; the launched nodes form a closed network, and with [bind_abort_channel] none of them can
    end the process. *)
Theorem Run_launches option garbage ex s :
  reaches option s → IsCompleted s.2 = true → nodes_ s.2 ≠ ∅ → self_contained (nodes_ s.2) →
  ∃ s' l, Run_launch garbage (Some ex) s = (s', Ok l) ∧
    l ≡ₚ (λ each : Z * node T U, (default ex (ex_ each.2), launched garbage s each.2)) <$> map_to_list (nodes_ s.2) ∧
    closed_network (eq (channel_size (option_ s.2))) (queues s.1) (nodes_ s'.2) ∧
    (bind_abort_channel (option_ s.2) = true → ∀ id n, nodes_ s'.2 !! id = Some n → may_end n = false).
Proof.
  intros Hs Hl%bool_decide_eq_true Hn Hsc.
  destruct (Run_launch_spec _ garbage ex s (built_closed _ (reaches_built _ _ Hs) Hl Hsc) Hl Hn) as (s' & l & ? & _ & ? & _ & ? & ?).
  by exists s', l.
Qed.

(** [Run] throws, and leaves everything as it is, when the pipeline has
    leaves, when it has no nodes, and when there is no executor, in this order
    of precedence. *)
Theorem Run_errors garbage ex s :
  (leaves_ s.2 ≠ ∅ → Run_launch garbage ex s = (s, Throw "try to run incompleted pipeline")) ∧
  (leaves_ s.2 = ∅ → nodes_ s.2 = ∅ → Run_launch garbage ex s = (s, Throw "try to run empty pipeline")) ∧
  (leaves_ s.2 = ∅ → nodes_ s.2 ≠ ∅ →
     Run_launch garbage None s = (s, Throw "pipeline can not run without executor")).
Proof.
  unfold Run_launch, mbind, B_bind, get, IsCompleted. simpl. split; [|split].
  - intros Hl. by rewrite bool_decide_false.
  - intros Hl Hn. rewrite bool_decide_true by done. simpl. by rewrite decide_True.
  - intros Hl Hn. rewrite bool_decide_true by done. simpl. by rewrite decide_False.
Qed.

Lemma Run_results_loop_keeps (l : list (node T U)) (lazy_results : list (attempt unit)) results :
  length lazy_results = length l → Run_results_loop l lazy_results results = Ok results.
Proof.
  revert lazy_results. induction l as [|n l IH]; intros [|r rs] Hlen; try done. simpl in *. apply IH. lia.
Qed.

(** Whatever the nodes' results are, the vector [Run] returns is empty: the
    loop over the results never appends to it. *)
Theorem Run_results_empty (l : list (node T U)) (lazy_results : list (attempt unit)) :
  length lazy_results = length l → Run_results l lazy_results = Ok [].
Proof. intros Hlen. by apply Run_results_loop_keeps. Qed.

End builder.

(** ** A pipeline *)

#[global] Instance sorted_order : HashOrder := {|
  set_order X := elements X;
  map_order A m := map_to_list m;
|}.
#[global] Instance sorted_order_laws : HashOrderLaws.
Proof. split; done. Qed.

Module SamplePipeline.

Definition option : PipelineOption := MkPipelineOption true 2 "sample".
Definition start : state Z unit := (World 10 [] [], Pipeline_init option).

(** Two sources merged into a filter, forked into two branches, which are
    concatenated and read by a sink. *)
Definition source (id : Z) : node Z unit := make_node id "source" 0 0 KEmptySource tt.
Definition filter : node Z unit := make_node 3 "filter" 0 0 (KFilter (λ u x, (u, Value (Z.odd x)))) tt.
Definition sink : node Z unit := make_node 4 "sink" 0 0 KDumpSink tt.

Definition calls : list (api (T := Z) (U := unit)) :=
  [ CallAddSource (source 1); CallAddSource (source 2); CallMerge_leaves filter {[1; 2]}%Z;
    CallForkFrom 3 2; CallConcatFrom [11; 12]%Z; CallBindExecutor 4 7; CallSetSink sink ].

Definition finished : state Z unit := exec_all calls start.

Lemma calls_legal : legal_all calls start.
Proof.
  unfold calls. cbn [legal_all]. repeat (split; [|]); try done.
  all: first [by apply (bool_decide_unpack _)|vm_compute; intuition congruence].
Qed.

Lemma finished_reaches : reaches option finished.
Proof. apply reaches_all; [|apply calls_legal]. by apply (reaches_init option). Qed.

Lemma builder_wellformed_witness :
  built (exec (CallForkFrom 4 2) finished).1 ∧
  ((exec (CallForkFrom 4 2) finished).2 = Ok tt ∨
   (∃ e, (exec (CallForkFrom 4 2) finished).2 = Throw e) ∧ (exec (CallForkFrom 4 2) finished).1.2 = finished.2).
Proof.
  apply (builder_wellformed option finished (CallForkFrom 4 2)).
  - apply finished_reaches.
  - vm_compute. intuition congruence.
Defined.

(** The filter, which two sources feed, after all calls. *)
Lemma builder_types_witness :
  ∃ n, nodes_ finished.2 !! 3%Z = Some n ∧ (processor_id_ n = 3 ∧ 0 < 3 < id_ finished.1 ∧ id_ finished.1 < 2 ^ 64)%Z ∧
    ∃ q, inq n = Some q ∧ input_count_ n = Z.of_nat (Σ[m ∈ nodes_ finished.2] inner_writes m q) ∧ input_count_ n = 2%Z.
Proof.
  destruct (nodes_ finished.2 !! 3%Z) as [n|] eqn:Hn; [|vm_compute in Hn; discriminate]. exists n. split; [done|].
  destruct (builder_types option finished 3 n finished_reaches Hn) as (Hid & Hone & _). split; [exact Hid|].
  vm_compute in Hn. injection Hn as <-. destruct (Hone eq_refl) as (q & Hq & Hc & _). exists q. split_and!; done.
Defined.

Lemma completed_closed_witness :
  size (nodes_ finished.2) = 8 ∧
  closed_network (eq (channel_size (option_ finished.2))) (queues finished.1) (nodes_ finished.2).
Proof.
  split; [vm_compute; reflexivity|].
  apply (completed_closed option finished); [apply finished_reaches|vm_compute; reflexivity|].
  decide_now.
Defined.

Lemma Run_launches_witness :
  ∃ s' l, Run_launch 0 (Some 1%Z) finished = (s', Ok l) ∧
    l ≡ₚ (λ each : Z * node Z unit, (default 1%Z (ex_ each.2), launched 0 finished each.2))
           <$> map_to_list (nodes_ finished.2) ∧
    closed_network (eq (channel_size (option_ finished.2))) (queues finished.1) (nodes_ s'.2) ∧
    (bind_abort_channel (option_ finished.2) = true →
     ∀ id n, nodes_ s'.2 !! id = Some n → may_end n = false).
Proof.
  apply (Run_launches option 0 1 finished).
  - apply finished_reaches.
  - vm_compute. reflexivity.
  - intros He. apply (f_equal size) in He. vm_compute in He. discriminate.
  - decide_now.
Defined.

Lemma Run_errors_witness :
  Run_launch 0 (Some 1%Z) start = (start, Throw "try to run empty pipeline") ∧
  Run_launch 0 None finished = (finished, Throw "pipeline can not run without executor").
Proof.
  split.
  - apply (Run_errors 0 (Some 1%Z) start); vm_compute; reflexivity.
  - apply (Run_errors 0 None finished); [vm_compute; reflexivity|].
    intros He. apply (f_equal size) in He. vm_compute in He. discriminate.
Defined.

Lemma Run_results_empty_witness :
  Run_results [source 1; sink] [Value tt; Raised "error"] = Ok [].
Proof. apply (Run_results_empty [source 1; sink] [Value tt; Raised "error"]). reflexivity. Defined.

End SamplePipeline.
