(* ===== verification/Frame.v ===== *)
(** * What a call of the builder leaves alone

    A call only adds nodes it was given or has constructed, and connects ports
    only to queues it has allocated ([tracks]).  So [sources_] and [sinks_] list
    the nodes of these classes, [dags_] has entries for nodes with successors
    only ([tidy]), and two pipelines of one program share neither nodes nor
    queues ([pair_ok]), in whatever order the program makes its calls
    ([pair_reaches]). *)

From stdpp Require Import base functions gmap strings fin_maps fin_sets list.
From S2P Require Import Prelude Events Coro Processor Nodes PortLogic NodeProtocol Pipeline PipelineInv PipelineOps Builder.

Section frame.
Context {T U : Type} `{Inhabited U} `{HashOrderLaws}.
Implicit Types (n : node T U) (p : Pipeline T U) (w : world) (s : state T U) (D L : gset Z)
  (ns : gmap Z (node T U)).

(** The queues a node reads or writes in its pipeline. *)
Definition uses n q : Prop := 0 < inner_writes n q + inner_expects n q.

Lemma uses_iff n q : uses n q ↔ 0 < inner_writes n q ∨ 0 < inner_expects n q.
Proof. unfold uses. lia. Qed.

Lemma uses_SetOutputPort n q q' : uses (SetOutputPort (Channel_of_queue q) n) q' → q' = q ∨ uses n q'.
Proof.
  rewrite !uses_iff. intros [Hw|Hx]; [|by right; right]. unfold inner_writes, writes, out_duty, outq in *. simpl in *.
  destruct (node_kind n); simpl in *; try case_decide; try lia; set_solver.
Qed.
Lemma uses_SetInputPort n q q' : uses (SetInputPort (Channel_of_queue q) n) q' → q' = q ∨ uses n q'.
Proof.
  rewrite !uses_iff. intros [Hw|Hx]; [by right; left|]. destruct (decide (q' = q)) as [->|Hne]; [by left|right; right].
  unfold inner_expects, expects, in_duty, inq in *. simpl in *.
  destruct (node_kind n); simpl in *; try done; try lia;
    rewrite lookup_total_singleton_ne in Hx by done; simpl in Hx; lia.
Qed.
Lemma uses_AddInputPort n q q' : uses (AddInputPort (Channel_of_queue q) n) q' → q' = q ∨ uses n q'.
Proof.
  rewrite !uses_iff. intros [Hw|Hx]; [by right; left|]. destruct (decide (q' = q)) as [->|Hne]; [by left|right; right].
  destruct (is_concat (node_kind n)) eqn:Hk; [|unfold inner_expects, expects, in_duty in *; simpl in *; by destruct (node_kind n)].
  rewrite expects_concat in * by done. simpl in Hx. rewrite ptrs_app in Hx. simpl in Hx.
  repeat case_decide; try lia; set_solver.
Qed.
Lemma uses_AddOutputPort n q q' : uses (AddOutputPort (Channel_of_queue q) n) q' → q' = q ∨ uses n q'.
Proof.
  rewrite !uses_iff. intros [Hw|Hx]; [|by right; right]. destruct (decide (q' = q)) as [->|Hne]; [by left|right; left].
  destruct (is_split (node_kind n)) eqn:Hk; [|unfold inner_writes, writes, out_duty in *; simpl in *; by destruct (node_kind n)].
  rewrite writes_split in * by done. simpl in Hw. rewrite ptrs_app in Hw. simpl in Hw.
  repeat case_decide; try lia; set_solver.
Qed.
Lemma uses_unconnected n q : unconnected n → ¬ uses n q.
Proof. intros Hu. unfold uses. destruct (unconnected_duties n Hu q) as [-> ->]. lia. Qed.

Lemma uses_SetInputChannel n c q : outside_in (node_kind n) = true → uses (SetInputChannel c n) q → uses n q.
Proof. intros Hk. unfold uses, inner_expects. simpl. by rewrite Hk. Qed.
Lemma uses_SetOutputChannel n c q : outside_out (node_kind n) = true → uses (SetOutputChannel c n) q → uses n q.
Proof. intros Hk. unfold uses, inner_writes. simpl. by rewrite Hk. Qed.

(** ** Partial correctness of builder actions

    [Ψ] holds of the state in which the action throws. *)
Definition wlpB {A} (m : B T U A) s (Φ : A → state T U → Prop) (Ψ : state T U → Prop) : Prop :=
  match m s with
  | (s', Ok a) => Φ a s'
  | (s', Throw _) => Ψ s'
  | (s', Crash _) => True
  end.

Lemma wlpB_bind {A A'} (m : B T U A) (f : A → B T U A') s Φ Ψ :
  wlpB m s (λ a s', wlpB (f a) s' Φ Ψ) Ψ → wlpB (m ≫= f) s Φ Ψ.
Proof. unfold wlpB, mbind, B_bind. by destruct (m s) as [s' [a|e|c]]. Qed.
Lemma wlpB_mono {A} (m : B T U A) s (Φ Φ' : A → _) Ψ :
  (∀ a s', Φ a s' → Φ' a s') → wlpB m s Φ Ψ → wlpB m s Φ' Ψ.
Proof. unfold wlpB. intros HΦ. destruct (m s) as [s' [a|e|c]]; auto. Qed.
Lemma wlpB_ret {A} (a : A) s Φ Ψ : Φ a s → wlpB (mret a) s Φ Ψ.
Proof. done. Qed.
Lemma wlpB_get {A} (f : Pipeline T U → A) s Φ Ψ : Φ (f s.2) s → wlpB (get f) s Φ Ψ.
Proof. done. Qed.
Lemma wlpB_update f s Φ Ψ : Φ tt (s.1, f s.2) → wlpB (update f) s Φ Ψ.
Proof. done. Qed.
Lemma wlpB_new_node_check id s Φ Ψ :
  Ψ s → (nodes_ s.2 !! id = None → Φ tt s) → wlpB (new_node_check id) s Φ Ψ.
Proof. intros HΨ HΦ. apply wlpB_bind, wlpB_get. destruct (nodes_ s.2 !! id); [done|]. by apply HΦ. Qed.
Lemma wlpB_leaf_check id s Φ Ψ : Ψ s → Φ tt s → wlpB (leaf_check id) s Φ Ψ.
Proof. intros HΨ HΦ. apply wlpB_bind, wlpB_get. by case_decide. Qed.
Lemma wlpB_leaf_checks l s Φ Ψ : Ψ s → Φ tt s → wlpB (for_all l leaf_check) s Φ Ψ.
Proof.
  intros HΨ HΦ. induction l as [|id l IH]; [done|]. simpl. apply wlpB_bind, wlpB_leaf_check; [done|exact IH].
Qed.
Lemma wlpB_assert b s Φ Ψ : Φ tt s → wlpB (assert_that b) s Φ Ψ.
Proof. intros. by destruct b. Qed.
Lemma wlpB_assert_node id s Φ Ψ : Φ tt s → wlpB (assert_node id) s Φ Ψ.
Proof. intros. apply wlpB_bind, wlpB_get. by apply wlpB_assert. Qed.
Lemma wlpB_node_at id s Φ Ψ : (∀ n, nodes_ s.2 !! id = Some n → Φ n s) → wlpB (node_at id) s Φ Ψ.
Proof. intros HΦ. apply wlpB_bind, wlpB_get. destruct (nodes_ s.2 !! id) eqn:Hn; [|done]. by apply HΦ. Qed.
Lemma wlpB_for_all_with {A S} (I : list A → S → state T U → Prop) l (body : A → S → B T U S) x s Φ Ψ :
  (∀ a l x s, I (a :: l) x s → wlpB (body a x) s (λ x' s', I l x' s') Ψ) →
  (∀ x s, I [] x s → Φ x s) → I l x s → wlpB (for_all_with l x body) s Φ Ψ.
Proof.
  intros Hbody Hend. revert x s. induction l as [|a l IH]; intros x s Hs; simpl; [by apply wlpB_ret, Hend|].
  apply wlpB_bind. eapply wlpB_mono; [|by apply Hbody]. intros x' s' Hs'. by apply IH.
Qed.

(** ** The world only grows *)

Definition later w w' : Prop := queues w `prefix_of` queues w' ∧ (id_ w ≤ id_ w')%Z.

#[global] Instance later_preorder : PreOrder later.
Proof. split; [done|]. intros w1 w2 w3 [? ?] [? ?]. split; [by etrans|lia]. Qed.

(** ** The nodes and queues of one pipeline *)

(** The lists of sources and sinks name the nodes of these classes; a node
    without successors has no entry in [dags_]. *)
Record tidy p : Prop := {
  ti_classes id n : nodes_ p !! id = Some n →
    (is_source (node_kind n) = true ↔ id ∈ sources_ p) ∧ (is_sink (node_kind n) = true ↔ id ∈ sinks_ p);
  ti_ends id : id ∈ sources_ p ∨ id ∈ sinks_ p → id ∈ dom (nodes_ p);
  ti_edges a : dags_ p !! a ≠ Some ∅;
  ti_nodup : NoDup (sources_ p) ∧ NoDup (sinks_ p);
}.

Lemma tidy_init option : tidy (Pipeline_init option).
Proof. split; simpl; [intros; by simplify_map_eq|set_solver|done|by split; constructor]. Qed.

(** A call started in [s0].  The nodes have ids in [Q] and use queues in [P];
    both hold of the ids and the queues to come.  [sources], [sinks]: the nodes
    of these classes; [c]: the id counter. *)
Section tracks.
Context s0 (P : qid → Prop) (Q : Z → Prop).
Implicit Types (sources sinks : list Z) (c : Z).

Definition fine n : Prop := ∀ q, uses n q → P q.
Definition classed sources sinks (id : Z) n : Prop :=
  (is_source (node_kind n) = true ↔ id ∈ sources) ∧ (is_sink (node_kind n) = true ↔ id ∈ sinks).

Record tracks sources sinks c s : Prop := {
  t_queues : queues s0.1 `prefix_of` queues s.1;
  t_id : id_ s.1 = c ∧ (id_ s0.1 ≤ c)%Z;
  t_later q : length (queues s.1) ≤ q → P q;
  t_ids id : (c ≤ id)%Z → Q id;
  t_node id n : nodes_ s.2 !! id = Some n → Q id ∧ fine n ∧ classed sources sinks id n;
  t_edges a : dags_ s.2 !! a ≠ Some ∅;
  t_dom : dom (nodes_ s0.2) ⊆ dom (nodes_ s.2);
  t_ends : sources_ s.2 = sources_ s0.2 ∧ sinks_ s.2 = sinks_ s0.2;
}.

Lemma tracks_world sources sinks c s : tracks sources sinks c s → later s0.1 s.1.
Proof. intros [? [? ?]]. split; [done|lia]. Qed.

Lemma fine_unconnected n : unconnected n → fine n.
Proof. intros Hn q Hq. by apply uses_unconnected in Hq. Qed.

(** *** Rules *)

Lemma tracks_make_queue sources sinks c k s Φ Ψ :
  tracks sources sinks c s →
  (∀ q s', P q → tracks sources sinks c s' → s'.2 = s.2 → Φ q s') → wlpB (make_queue k) s Φ Ψ.
Proof.
  destruct s as [w p]. intros [Hq Hc Hl Hi Hn Hk Hd He] HΦ. apply HΦ; [by apply Hl| |done]. split; simpl in *; auto.
  - by apply prefix_app_r.
  - intros q. rewrite length_app. simpl. intros. apply Hl. lia.
Qed.

Lemma tracks_GenerateId sources sinks c s Φ Ψ :
  tracks sources sinks c s → (0 < c)%Z → (c + 1 < 2 ^ 64)%Z →
  (∀ s', Q c → tracks sources sinks (c + 1) s' → s'.2 = s.2 → Φ c s') → wlpB GenerateId s Φ Ψ.
Proof.
  destruct s as [w p]. intros [Hq [Hc Hc0] Hl Hi Hn Hk Hd He] Hc1 Hc2 HΦ. simpl in Hc. subst c.
  apply HΦ; [by apply Hi; lia| |done]. wrap_id. split; simpl in *; auto; [lia|]. intros id Hid. apply Hi. lia.
Qed.

Lemma tracks_edge sources sinks c a b s Φ Ψ :
  tracks sources sinks c s →
  (∀ s', tracks sources sinks c s' → nodes_ s'.2 = nodes_ s.2 → Φ tt s') → wlpB (add_edge a b) s Φ Ψ.
Proof.
  intros [] HΦ. apply wlpB_update, HΦ; [|done]. split; simpl; auto.
  intros e [[_ He]|[_ He]]%lookup_insert_Some; [set_solver|by eapply t_edges0].
Qed.

(** Changes of the leaves. *)
Lemma tracks_leaves sources sinks c (lv : Pipeline T U → gset Z) s Φ Ψ :
  tracks sources sinks c s →
  (∀ s', tracks sources sinks c s' → nodes_ s'.2 = nodes_ s.2 → Φ tt s') →
  wlpB (update (λ p, set_leaves (lv p) p)) s Φ Ψ.
Proof. intros [] HΦ. apply wlpB_update, HΦ; [|done]. by split. Qed.

Lemma tracks_store sources sinks c id n n' s Φ Ψ :
  tracks sources sinks c s → nodes_ s.2 !! id = Some n → node_kind n' = node_kind n → fine n' →
  (∀ s', tracks sources sinks c s' → dom (nodes_ s'.2) = dom (nodes_ s.2) → Φ tt s') →
  wlpB (store_node id n') s Φ Ψ.
Proof.
  intros [Hq Hc Hl Hi Hn Hk Hd He] Hid Hkind Hf HΦ.
  assert (dom (<[id := n']> (nodes_ s.2)) = dom (nodes_ s.2)) as Hdom by (apply dom_insert_lookup_L; eauto).
  apply wlpB_update, HΦ; [|done]. split; simpl; rewrite ?Hdom; auto.
  intros id' m [[<- <-]|[Hne Hm]]%lookup_insert_Some; [|by apply Hn].
  destruct (Hn id n Hid) as (? & _ & ?). split_and!; try done. unfold classed. by rewrite Hkind.
Qed.

Lemma tracks_insert sources sinks c id n s Φ Ψ :
  tracks sources sinks c s → fine n → (nodes_ s.2 !! id = None → Q id ∧ classed sources sinks id n) →
  (∀ s', tracks sources sinks c s' → id ∈ dom (nodes_ s'.2) → Φ tt s') →
  wlpB (insert_node id n) s Φ Ψ.
Proof.
  intros [Hq Hc Hl Hi Hn Hk Hd He] Hf Hnew HΦ. apply wlpB_update.
  unfold insert_new. destruct (nodes_ s.2 !! id) as [n0|] eqn:Hid.
  - apply elem_of_dom_2 in Hid. apply HΦ; [|done]. by split.
  - apply HΦ; simpl; [|set_solver]. split; simpl; auto.
    + intros id' m [[<- <-]|[Hne Hm]]%lookup_insert_Some; [|by apply Hn]. split_and!; [|done|]; by apply Hnew.
    + rewrite dom_insert_L. set_solver.
Qed.

(** A node that is neither a source nor a sink. *)
Lemma inner_classed c s id n :
  tidy s0.2 → tracks (sources_ s0.2) (sinks_ s0.2) c s → is_source (node_kind n) = false →
  is_sink (node_kind n) = false → nodes_ s.2 !! id = None → classed (sources_ s0.2) (sinks_ s0.2) id n.
Proof.
  intros Ht Htr Hk1 Hk2 Hid. assert (id ∉ dom (nodes_ s0.2)) as Hnot.
  { intros Hin%(t_dom _ _ _ _ Htr). by apply not_elem_of_dom in Hid. }
  unfold classed. rewrite Hk1, Hk2. pose proof (ti_ends _ Ht id). naive_solver.
Qed.

(** *** Parts of the operations *)

Abbreviation thrown := (λ s, later s0.1 s.1).

Lemma connect_leaf_tracks sources sinks c q id each n s Φ :
  tracks sources sinks c s → P q → fine n →
  (∀ n' s', node_kind n' = node_kind n → fine n' → tracks sources sinks c s' → Φ n' s') →
  wlpB (connect_leaf q id each n) s Φ thrown.
Proof.
  intros Ht Hq Hn HΦ. unfold connect_leaf. apply wlpB_bind, wlpB_node_at. intros leaf Hleaf. simpl.
  destruct (t_node _ _ _ _ Ht _ _ Hleaf) as (_ & Hf & _).
  apply wlpB_bind. eapply tracks_store; [done|done|done|by intros ? [->|]%uses_SetOutputPort; auto|].
  intros s1 Ht1 Hd1. apply wlpB_bind. eapply tracks_edge; [done|].
  intros s2 Ht2 _. apply wlpB_ret, HΦ; [done|by intros ? [->|]%uses_SetInputPort; auto|done].
Qed.

(** A leaf connected to a new node by a new queue. *)
Lemma link_tracks {A} sources sinks c each to n conn setter (K : node T U → B T U A) s Φ :
  conn = (λ a b k, q ← make_queue k; mret (SetOutputPort (Channel_of_queue q) a, setter (Channel_of_queue q) b)) →
  (∀ ch m, node_kind (setter ch m) = node_kind m) →
  (∀ m q q', uses (setter (Channel_of_queue q) m) q' → q' = q ∨ uses m q') →
  tracks sources sinks c s → fine n →
  (∀ n' s', node_kind n' = node_kind n → fine n' → tracks sources sinks c s' →
     dom (nodes_ s'.2) = dom (nodes_ s.2) → wlpB (K n') s' Φ thrown) →
  wlpB (leaf ← node_at each; size ← get (λ p, channel_size (option_ p));
        '(leaf', n') ← conn leaf n size; store_node each leaf' ;; add_edge each to ;; K n') s Φ thrown.
Proof.
  intros -> Hkind Huses Ht Hn HK. apply wlpB_bind, wlpB_node_at. intros leaf Hleaf.
  destruct (t_node _ _ _ _ Ht _ _ Hleaf) as (_ & Hf & _). apply wlpB_bind, wlpB_get.
  apply wlpB_bind, wlpB_bind. eapply tracks_make_queue; [done|]. intros q s1 Hq Ht1 Hs1. apply wlpB_ret.
  apply wlpB_bind. eapply tracks_store; [done|by rewrite Hs1|done|by intros ? [->|]%uses_SetOutputPort; auto|].
  intros s2 Ht2 Hd2. rewrite Hs1 in Hd2. apply wlpB_bind.
  eapply tracks_edge; [done|].
  intros s3 Ht3 Hs3. apply HK; [done|by intros ? [->|]%Huses; auto|done|by rewrite Hs3].
Qed.

Lemma merge_to_tracks sources sinks c leaf n D s :
  let id := processor_id_ n in
  later s0.1 s.1 → fine n →
  (nodes_ s.2 !! id = None → tracks sources sinks c s ∧ Q id ∧ classed sources sinks id n) →
  wlpB (merge_to leaf n D) s
    (λ r s', r = id ∧ nodes_ s.2 !! id = None ∧ tracks sources sinks c s' ∧ id ∈ dom (nodes_ s'.2)) thrown.
Proof.
  intros id Hl Hf Hs. unfold merge_to. fold id. apply wlpB_bind, wlpB_new_node_check; [done|].
  intros Hid. destruct (Hs Hid) as (Ht & HQ & Hc). apply wlpB_bind, wlpB_leaf_checks; [done|].
  apply wlpB_bind, wlpB_get, wlpB_bind. eapply tracks_make_queue; [done|]. intros q s1 Hq Ht1 _.
  apply wlpB_bind. apply (wlpB_for_all_with (λ _ n' s', node_kind n' = node_kind n ∧ fine n' ∧ tracks sources sinks c s')).
  - intros each _ n1 s2 (Hk1 & Hf1 & Ht2). apply wlpB_bind. eapply connect_leaf_tracks; [done..|].
    intros n2 s3 Hk2 Hf2 Ht3. apply wlpB_bind. eapply (tracks_leaves _ _ _ _ s3); [done|].
    intros s4 Ht4 _. apply wlpB_ret. by rewrite Hk2.
  - intros n1 s2 (Hk1 & Hf1 & Ht2). apply wlpB_bind. eapply tracks_insert; [done|done|..].
    { intros _. split; [done|]. unfold classed. by rewrite Hk1. }
    intros s3 Ht3 Hin. apply wlpB_bind. destruct leaf; [|by apply wlpB_ret, wlpB_ret].
    eapply (tracks_leaves _ _ _ _ s3); [done|]. intros s4 Ht4 Hn4. apply wlpB_ret. by rewrite Hn4.
  - done.
Qed.

Lemma merge_tracks sources sinks c leaf n s :
  let id := processor_id_ n in
  later s0.1 s.1 → fine n →
  (nodes_ s.2 !! id = None → tracks sources sinks c s ∧ Q id ∧ classed sources sinks id n) →
  wlpB (merge leaf n) s
    (λ r s', r = id ∧ nodes_ s.2 !! id = None ∧ tracks sources sinks c s' ∧ id ∈ dom (nodes_ s'.2)) thrown.
Proof.
  intros id Hl Hf Hs. unfold merge. fold id. apply wlpB_bind, wlpB_get. case_decide; [done|].
  apply wlpB_bind, wlpB_new_node_check; [done|].
  intros Hid. destruct (Hs Hid) as (Ht & HQ & Hc).
  apply wlpB_bind, wlpB_get, wlpB_bind. eapply tracks_make_queue; [done|]. intros q s1 Hq Ht1 _.
  apply wlpB_bind. apply (wlpB_for_all_with (λ _ n' s', node_kind n' = node_kind n ∧ fine n' ∧ tracks sources sinks c s')).
  - intros each _ n1 s2 (Hk1 & Hf1 & Ht2). eapply connect_leaf_tracks; [done..|].
    intros n2 s3 Hk2 Hf2 Ht3. by rewrite Hk2.
  - intros n1 s2 (Hk1 & Hf1 & Ht2). apply wlpB_bind. eapply (tracks_leaves _ _ _ _ s2); [done|].
    intros s3 Ht3 _. apply wlpB_bind. eapply tracks_insert; [done|done|..].
    { intros _. split; [done|]. unfold classed. by rewrite Hk1. }
    intros s4 Ht4 Hin. apply wlpB_bind. destruct leaf; [|by apply wlpB_ret, wlpB_ret].
    eapply (tracks_leaves _ _ _ _ s4); [done|]. intros s5 Ht5 Hn5. apply wlpB_ret. by rewrite Hn5.
  - done.
Qed.

End tracks.

(** ** The calls *)

Section calls.
Context s0 (P : qid → Prop) (Q : Z → Prop).
Hypothesis Htidy : tidy s0.2.
Hypothesis Hpos : (0 < id_ s0.1)%Z.

#[local] Abbreviation follows := (tracks s0 P Q (sources_ s0.2) (sinks_ s0.2)).
#[local] Abbreviation thrown := (λ s, later s0.1 s.1).

Definition inner n : Prop := is_source (node_kind n) = false ∧ is_sink (node_kind n) = false.

Lemma follows_insert c id n s Φ :
  follows c s → fine P n → Q id → inner n →
  (∀ s', follows c s' → Φ tt s') → wlpB (insert_node id n) s Φ thrown.
Proof.
  intros Ht Hf HQ [Hk1 Hk2] HΦ. eapply tracks_insert; [done|done|..|auto].
  intros Hid. split; [done|]. by eapply inner_classed.
Qed.

Lemma make_noop_follows c s Φ :
  follows c s → (0 < c)%Z → (c + 1 < 2 ^ 64)%Z →
  (∀ s', Q c → follows (c + 1) s' → s'.2 = s.2 → Φ (new_noop c) s') → wlpB make_NoOpTransform s Φ thrown.
Proof.
  intros Ht Hc Hc1 HΦ. unfold make_NoOpTransform. apply wlpB_bind. eapply tracks_GenerateId; [done..|].
  intros s' HQ Ht' Hs'. by apply wlpB_ret, HΦ.
Qed.

Lemma AddTransform_follows c leaf n s :
  follows c s → fine P n → Q (processor_id_ n) → inner n →
  wlpB (AddTransform leaf n) s (λ _ s', follows c s') thrown.
Proof.
  intros Ht Hf HQ Hin. pose proof (tracks_world _ _ _ _ _ _ _ Ht) as Hl. unfold AddTransform.
  apply wlpB_bind, wlpB_new_node_check; [done|]. intros Hid.
  apply wlpB_bind, wlpB_leaf_check; [done|]. apply wlpB_bind, wlpB_assert_node.
  eapply (link_tracks _ _ _ _ _ _ _ _ _ connect SetInputPort); [done|done|apply uses_SetInputPort|done..|].
  intros n' s1 Hk1 Hf1 Ht1 _. apply wlpB_bind. eapply (tracks_leaves _ _ _ _ _ _ _ s1); [done|]. intros s2 Ht2 _.
  apply wlpB_bind. eapply (tracks_leaves _ _ _ _ _ _ _ s2); [done|]. intros s3 Ht3 _.
  apply wlpB_bind. eapply follows_insert; [done|done|done|by unfold inner; rewrite Hk1|]. intros s4 Ht4.
  apply wlpB_ret. done.
Qed.

Lemma AddTransform_all_follows c (creater : nat → node T U) s :
  follows c s →
  (∀ i, i < size (leaves_ s.2) → fine P (creater i) ∧ Q (processor_id_ (creater i)) ∧ inner (creater i)) →
  wlpB (AddTransform_all creater) s (λ _ s', follows c s') thrown.
Proof.
  intros Ht Hnew. unfold AddTransform_all. apply wlpB_bind, wlpB_get, wlpB_bind.
  apply (wlpB_for_all_with (λ l '(i, _) s', i + length l = size (leaves_ s.2) ∧ follows c s')).
  - intros each l [i nl] s1 [Hi Ht1]. simpl in Hi. destruct (Hnew i) as (Hf & HQ & Hin); [lia|].
    apply wlpB_bind, wlpB_new_node_check; [by eapply tracks_world|]. intros Hid. apply wlpB_bind, wlpB_assert_node.
    eapply (link_tracks _ _ _ _ _ _ _ _ _ connect SetInputPort); [done|done|apply uses_SetInputPort|done..|].
    intros n' s2 Hk2 Hf2 Ht2 _. apply wlpB_bind.
    eapply follows_insert; [done|done|done|by unfold inner; rewrite Hk2|]. intros s3 Ht3.
    apply wlpB_ret. split; [simpl; lia|]. done.
  - intros [i nl] s1 [_ Ht1]. apply wlpB_bind. eapply (tracks_leaves _ _ _ _ _ _ _ s1); [done|]. done.
  - split; [|done]. simpl. unfold size, set_size. simpl. by rewrite set_order_perm.
Qed.

Lemma add_output_follows c from n result s :
  follows c s → (0 < c)%Z → (c + 1 < 2 ^ 64)%Z → fine P n →
  wlpB (add_output from n result) s
    (λ r s', node_kind r.1 = node_kind n ∧ fine P r.1 ∧ follows (c + 1) s') thrown.
Proof.
  intros Ht Hc Hc1 Hf. unfold add_output. apply wlpB_bind. eapply make_noop_follows; [done..|].
  intros s1 HQ Ht1 _. apply wlpB_bind, wlpB_get. apply wlpB_bind. unfold connect_OneIMultiO. apply wlpB_bind.
  eapply tracks_make_queue; [done|]. intros q s2 Hq Ht2 _. apply wlpB_ret. simpl. apply wlpB_bind.
  eapply tracks_edge; [done|]. intros s3 Ht3 _. apply wlpB_bind.
  eapply follows_insert; [done| |done|done|].
  { intros q' [->|Hq']%uses_SetInputPort; [done|]. by apply uses_unconnected in Hq'; [|apply new_noop_unconnected]. }
  intros s4 Ht4. apply wlpB_ret. split; [done|]. split; [by intros ? [->|]%uses_AddOutputPort; auto|].
  done.
Qed.

(** The common part of [DispatchFrom] and [ForkFrom]. *)
Lemma split_follows c (k : nat) leaf from n s :
  follows c s → (0 < c)%Z → (c + Z.of_nat k < 2 ^ 64)%Z → fine P n → Q from → inner n →
  wlpB ('(n', result) ← for_all_with (seq 0 k) (n, ∅) (λ _ '(n, result), add_output from n result);
        attach leaf from n' result) s (λ _ s', ∃ c, follows c s') thrown.
Proof.
  intros Ht Hc Hk Hf HQ Hin. apply wlpB_bind.
  apply (wlpB_for_all_with (λ l r s', node_kind r.1 = node_kind n ∧ fine P r.1 ∧
    follows (c + Z.of_nat k - Z.of_nat (length l)) s' ∧ length l ≤ k)).
  - intros i l [n1 r1] s1 (Hk1 & Hf1 & Ht1 & Hl). simpl in *.
    eapply wlpB_mono; [|eapply add_output_follows; [done|lia|lia|done]].
    intros [n2 r2] s2 (Hk2 & Hf2 & Ht2). simpl in *. split; [congruence|]. split; [done|]. split; [|lia].
    replace (c + Z.of_nat k - Z.of_nat (length l))%Z
      with (c + Z.of_nat k - Z.of_nat (S (length l)) + 1)%Z by lia. done.
  - intros [n1 r1] s1 (Hk1 & Hf1 & Ht1 & Hl). simpl in *. unfold attach.
    eapply (link_tracks _ _ _ _ _ _ _ _ _ connect SetInputPort); [done|done|apply uses_SetInputPort|done..|].
    intros n2 s2 Hk2 Hf2 Ht2 _. apply wlpB_bind. eapply (tracks_leaves _ _ _ _ _ _ _ s2); [done|]. intros s3 Ht3 _.
    apply wlpB_bind. assert (∀ l s, follows (c + Z.of_nat k - Z.of_nat 0) s →
      wlpB (for_all l insert_leaf) s (λ _ s', follows (c + Z.of_nat k - Z.of_nat 0) s') thrown) as Hleaves.
    { induction l as [|x l IH]; intros s' Hs'; [done|]. simpl. apply wlpB_bind.
      eapply (tracks_leaves _ _ _ _ _ _ _ s'); [done|]. intros s'' Hs'' _. by apply IH. }
    eapply wlpB_mono; [|by apply Hleaves]. intros [] s4 Ht4. apply wlpB_bind.
    eapply follows_insert; [done|done|done|unfold inner; rewrite Hk2, Hk1; apply Hin|]. intros s5 Ht5. apply wlpB_ret.
    by eexists.
  - rewrite length_seq. split; [done|]. split; [done|]. split; [|lia].
    replace (c + Z.of_nat k - Z.of_nat k)%Z with c by lia. done.
Qed.

Lemma ConcatFrom_follows c leaves s :
  follows c s → (0 < c)%Z → (c + 1 < 2 ^ 64)%Z →
  wlpB (ConcatFrom leaves) s (λ _ s', follows (c + 1) s') thrown.
Proof.
  intros Ht Hc Hc1. unfold ConcatFrom. apply wlpB_bind, wlpB_leaf_checks; [by eapply tracks_world|].
  apply wlpB_bind. unfold make_Concat. apply wlpB_bind. eapply tracks_GenerateId; [done..|]. intros s1 HQ Ht1 _.
  apply wlpB_bind, wlpB_assert, wlpB_ret. set (n := make_node _ _ _ _ _ _). apply wlpB_bind.
  apply (wlpB_for_all_with (λ _ n' s', node_kind n' = node_kind n ∧ fine P n' ∧ follows (c + 1) s')).
  - intros each _ n1 s2 (Hk1 & Hf1 & Ht2).
    eapply (link_tracks _ _ _ _ _ _ _ _ _ connect_MultiIOneO AddInputPort); [done|done|apply uses_AddInputPort|done..|].
    intros n2 s3 Hk2 Hf2 Ht3 _. apply wlpB_bind. eapply (tracks_leaves _ _ _ _ _ _ _ s3); [done|]. intros s4 Ht4 _.
    apply wlpB_ret. by rewrite Hk2.
  - intros n1 s2 (Hk1 & Hf1 & Ht2). apply wlpB_bind. eapply (tracks_leaves _ _ _ _ _ _ _ s2); [done|]. intros s3 Ht3 _.
    apply wlpB_bind. eapply follows_insert; [done|done|done|by unfold inner; rewrite Hk1|]. intros s4 Ht4.
    apply wlpB_ret. done.
  - split; [done|]. split; [|done]. apply fine_unconnected. by split.
Qed.

(** *** Every call *)

(** The nodes a call is given. *)
Definition given s (a : api) n : Prop :=
  match a with
  | CallAddSource m | CallAddTransform _ m | CallSetSink m | CallSetSink_leaves m _
  | CallMerge m | CallMerge_leaves m _ | CallDispatchFrom _ m => n = m
  | CallAddTransform_all creater => ∃ i, i < size (leaves_ s.2) ∧ n = creater i
  | _ => False
  end.

Hypothesis Hstart : follows (id_ s0.1) s0.

Record kept s : Prop := {
  ke_world : later s0.1 s.1;
  ke_tidy : tidy s.2;
  ke_nodes id n : nodes_ s.2 !! id = Some n → Q id ∧ fine P n;
}.

Lemma follows_kept c s : follows c s → kept s.
Proof.
  intros Ht. pose proof (tracks_world _ _ _ _ _ _ _ Ht) as Hl. destruct Ht as [_ _ _ _ Hn Hk Hd [He1 He2]].
  split; [done|split|]; rewrite ?He1, ?He2.
  - intros id n Hid. by apply Hn in Hid as (_ & _ & ?).
  - intros id Hid. by apply Hd, Htidy.
  - exact Hk.
  - apply Htidy.
  - intros id n Hid. by apply Hn in Hid as (? & ? & _).
Qed.

(** A new source or sink. *)
Lemma kept_end sources sinks c s s' :
  tracks s0 P Q sources sinks c s → s'.1 = s.1 → nodes_ s'.2 = nodes_ s.2 → dags_ s'.2 = dags_ s.2 →
  sources_ s'.2 = sources → sinks_ s'.2 = sinks → NoDup sources → NoDup sinks →
  (∀ id, id ∈ sources ∨ id ∈ sinks → id ∈ dom (nodes_ s.2)) → kept s'.
Proof.
  intros Ht Hw Hn Hd Hso Hsi Hnd1 Hnd2 He. pose proof (tracks_world _ _ _ _ _ _ _ Ht) as Hl.
  destruct Ht as [_ _ _ _ Hnode Hk _ _]. split; [by rewrite Hw|split|]; rewrite ?Hn, ?Hd, ?Hso, ?Hsi; try done.
  - intros id n Hid. by apply Hnode in Hid as (_ & _ & ?).
  - intros id n Hid. by apply Hnode in Hid as (? & ? & _).
Qed.

Lemma relabel_source c id :
  follows c s0 → nodes_ s0.2 !! id = None → tracks s0 P Q (sources_ s0.2 ++ [id]) (sinks_ s0.2) c s0.
Proof.
  intros [] Hid. split; auto. intros id' n Hn. destruct (t_node0 id' n Hn) as (? & ? & [Hso Hsi]).
  split_and!; try done. assert (id' ≠ id) by congruence. split; [|done]. rewrite Hso. set_solver.
Qed.
Lemma relabel_sink c id :
  follows c s0 → nodes_ s0.2 !! id = None → tracks s0 P Q (sources_ s0.2) (sinks_ s0.2 ++ [id]) c s0.
Proof.
  intros [] Hid. split; auto. intros id' n Hn. destruct (t_node0 id' n Hn) as (? & ? & [Hso Hsi]).
  split_and!; try done. assert (id' ≠ id) by congruence. split; [done|]. rewrite Hsi. set_solver.
Qed.

(** An id that is new is in neither list. *)
Lemma ends_new id : nodes_ s0.2 !! id = None → (id ∉ sources_ s0.2) ∧ (id ∉ sinks_ s0.2).
Proof.
  intros Hid. apply not_elem_of_dom in Hid. pose proof (ti_ends _ Htidy id). naive_solver.
Qed.

Lemma ends_snoc (l : list Z) id : NoDup l → id ∉ l → NoDup (l ++ [id]).
Proof. intros. apply NoDup_app. split; [done|]. split; [set_solver|apply NoDup_singleton]. Qed.

Lemma AddSource_kept n :
  fine P n → Q (processor_id_ n) → is_source (node_kind n) = true →
  wlpB (AddSource n) s0 (λ _ s', kept s') thrown.
Proof.
  intros Hf HQ Hk. unfold AddSource. apply wlpB_bind, wlpB_new_node_check; [done|]. intros Hid.
  destruct (ends_new _ Hid) as [Hso Hsi]. destruct (ti_nodup _ Htidy) as [Hnd1 Hnd2].
  pose proof (relabel_source _ _ Hstart Hid) as Ht. apply wlpB_bind. eapply tracks_insert; [done|done|..].
  { intros _. split; [done|]. split; [set_solver|]. split; [by destruct (node_kind n)|done]. }
  intros s1 Ht1 Hin. apply wlpB_bind.
  eapply (tracks_leaves _ _ _ _ _ _ _ s1); [done|]. intros s2 Ht2 Hn2. apply wlpB_bind, wlpB_update, wlpB_ret.
  destruct (t_ends _ _ _ _ _ _ _ Ht2) as [He1 He2].
  eapply (kept_end (sources_ s0.2 ++ [processor_id_ n]) (sinks_ s0.2) _ s2); simpl; try done;
    [by rewrite He1|by apply ends_snoc|].
  intros id [[Hold| ->%list_elem_of_singleton]%elem_of_app|Hold]; [|by rewrite Hn2|];
    apply (t_dom _ _ _ _ _ _ _ Ht2), Htidy; auto.
Qed.

(** The end of both versions of [SetSink]. *)
Lemma sink_kept c r n s :
  let id := processor_id_ n in
  r = id ∧ nodes_ s0.2 !! id = None ∧ tracks s0 P Q (sources_ s0.2) (sinks_ s0.2 ++ [id]) c s ∧ id ∈ dom (nodes_ s.2) →
  wlpB (update (λ p, set_sinks (sinks_ p ++ [r]) p) ;; mret r) s (λ _ s', kept s') thrown.
Proof.
  intros id (-> & Hid & Ht & Hin). destruct (ends_new _ Hid) as [Hso Hsi]. destruct (ti_nodup _ Htidy) as [Hnd1 Hnd2].
  apply wlpB_bind, wlpB_update, wlpB_ret. destruct (t_ends _ _ _ _ _ _ _ Ht) as [He1 He2].
  eapply (kept_end (sources_ s0.2) (sinks_ s0.2 ++ [id]) _ s); simpl; try done;
    [by rewrite He2|by apply ends_snoc|].
  intros id' [Hold|[Hold| ->%list_elem_of_singleton]%elem_of_app]; [| |done];
    apply (t_dom _ _ _ _ _ _ _ Ht), Htidy; auto.
Qed.

Lemma sink_start n :
  fine P n → Q (processor_id_ n) → is_sink (node_kind n) = true → nodes_ s0.2 !! processor_id_ n = None →
  tracks s0 P Q (sources_ s0.2) (sinks_ s0.2 ++ [processor_id_ n]) (id_ s0.1) s0 ∧ Q (processor_id_ n) ∧
  classed (sources_ s0.2) (sinks_ s0.2 ++ [processor_id_ n]) (processor_id_ n) n.
Proof.
  intros Hf HQ Hk Hid. destruct (ends_new _ Hid) as [Hso Hsi]. split; [by apply relabel_sink|]. split; [done|].
  split; [split; [by destruct (node_kind n)|done]|set_solver].
Qed.

Lemma inner_start n :
  Q (processor_id_ n) → inner n → ∀ c s, follows c s → nodes_ s.2 !! processor_id_ n = None →
  follows c s ∧ Q (processor_id_ n) ∧ classed (sources_ s0.2) (sinks_ s0.2) (processor_id_ n) n.
Proof. intros HQ [Hk1 Hk2] c s Ht Hid. split; [done|]. split; [done|]. by eapply inner_classed. Qed.

Lemma transform_inner n : is_transform (node_kind n) = true → inner n.
Proof. unfold inner. by destruct (node_kind n). Qed.
Lemma split_inner n : is_split (node_kind n) = true → inner n.
Proof. unfold inner. by destruct (node_kind n). Qed.

Lemma wlpB_ignore {A} (m : B T U A) s (Φ : state T U → Prop) Ψ :
  wlpB m s (λ _ s', Φ s') Ψ → wlpB (ignore m) s (λ _ s', Φ s') Ψ.
Proof. intros Hm. apply wlpB_bind. eapply wlpB_mono; [|exact Hm]. by intros. Qed.

Lemma wlpB_kept {A} (m : B T U A) s c :
  wlpB m s (λ _ s', follows c s') thrown → wlpB m s (λ _ s', kept s') thrown.
Proof. apply wlpB_mono. intros _ s'. apply follows_kept. Qed.

(** The end of both versions of [merge] with a node that is not a sink. *)
Lemma merged_kept (m : B T U Z) s c id (X : Prop) (Y : state T U → Prop) :
  wlpB m s (λ r s', r = id ∧ X ∧ follows c s' ∧ Y s') thrown → wlpB m s (λ _ s', kept s') thrown.
Proof. apply wlpB_mono. intros r s' (_ & _ & Ht & _). by eapply follows_kept. Qed.

(** Setting a port to the outside. *)
Lemma port_kept id (f : node T U → node T U) :
  (∀ n, nodes_ s0.2 !! id = Some n → node_kind (f n) = node_kind n ∧ ∀ q, uses (f n) q → uses n q) →
  wlpB (n ← node_at id; store_node id (f n)) s0 (λ _ s', kept s') thrown.
Proof.
  intros Hf. apply wlpB_bind, wlpB_node_at. intros n Hn. destruct (Hf n Hn) as [Hk Hu].
  destruct (t_node _ _ _ _ _ _ _ Hstart _ _ Hn) as (_ & Hfine & _).
  eapply tracks_store; [done|done|done|by intros q Hq%Hu; apply Hfine|]. intros s' Ht' _. by eapply follows_kept.
Qed.

Lemma exec_kept a :
  legal s0 a → (∀ n, given s0 a n → Q (processor_id_ n)) → wlpB (exec a) s0 (λ _ s', kept s') thrown.
Proof.
  intros Ha HQ. assert (∀ n, user_node s0 n → fine P n) as Hfine by (intros n [? _]; by apply fine_unconnected).
  destruct a as [|cap|id ch|id ch|n|leaf n|creater|n|n D|n|n D| |D|leaf n|leaves|leaf sz|id ex|ch];
    simpl in Ha, HQ; cbn [exec]; destruct_and?; try apply wlpB_ignore;
    try (pose proof (HQ _ eq_refl) as HQn).
  - eapply tracks_GenerateId; [done|lia|done|]. intros s' _ Ht' _. by eapply follows_kept.
  - eapply tracks_make_queue; [done|]. intros q s' _ Ht' _. by eapply follows_kept.
  - destruct Ha as (n & Hn & Hk). apply port_kept. intros m Hm. simplify_eq. split; [done|].
    intros q. by apply uses_SetInputChannel.
  - destruct Ha as (n & Hn & Hk). apply port_kept. intros m Hm. simplify_eq. split; [done|].
    intros q. by apply uses_SetOutputChannel.
  - apply AddSource_kept; auto.
  - eapply wlpB_kept, AddTransform_follows; eauto using transform_inner.
  - eapply wlpB_kept, AddTransform_all_follows; [done|]. intros i Hi.
    destruct Ha as [Hu _ _]. destruct (Hu i Hi) as [? ?]. split_and!; eauto using transform_inner.
  - apply wlpB_bind. eapply wlpB_mono; [|eapply merge_tracks; [done|auto|]].
    + intros r s'. apply sink_kept.
    + intros Hid. apply sink_start; auto.
  - apply wlpB_bind. eapply wlpB_mono; [|eapply merge_to_tracks; [done|auto|]].
    + intros r s'. apply sink_kept.
    + intros Hid. apply sink_start; auto.
  - eapply merged_kept, merge_tracks; [done|auto|apply inner_start; eauto using transform_inner].
  - eapply merged_kept, merge_to_tracks; [done|auto|apply inner_start; eauto using transform_inner].
  - apply wlpB_bind. eapply make_noop_follows; [done|lia|done|]. intros s1 HQ1 Ht1 _.
    eapply merged_kept, merge_tracks; [by eapply tracks_world| |by apply inner_start].
    apply fine_unconnected, new_noop_unconnected.
  - apply wlpB_bind. eapply make_noop_follows; [done|lia|done|]. intros s1 HQ1 Ht1 _.
    eapply merged_kept, merge_to_tracks; [by eapply tracks_world| |by apply inner_start].
    apply fine_unconnected, new_noop_unconnected.
  - apply wlpB_bind, wlpB_leaf_check; [done|]. eapply wlpB_mono; [|eapply split_follows; eauto using split_inner; lia].
    intros r s' [c Ht]. by eapply follows_kept.
  - eapply wlpB_kept, ConcatFrom_follows; [done|lia|done].
  - apply wlpB_bind, wlpB_leaf_check; [done|]. apply wlpB_bind. unfold make_Fork. apply wlpB_bind.
    eapply tracks_GenerateId; [done|lia|lia|]. intros s1 HQ1 Ht1 _. apply wlpB_bind, wlpB_assert, wlpB_ret.
    eapply wlpB_mono; [|eapply split_follows; [done|lia|lia| |done|done]].
    + intros r s' [c Ht]. by eapply follows_kept.
    + apply fine_unconnected. by split.
  - apply wlpB_bind, wlpB_get. destruct (nodes_ s0.2 !! id) as [n|] eqn:Hn; [|done].
    destruct (t_node _ _ _ _ _ _ _ Hstart _ _ Hn) as (_ & Hf & _).
    eapply tracks_store; [done|done|done|exact Hf|]. intros s' Ht' _. by eapply follows_kept.
  - apply wlpB_update. eapply (follows_kept (id_ s0.1)). destruct Hstart. by split.
Qed.

End calls.

(** ** Two pipelines of one program *)

Definition apart p p' : Prop :=
  dom (nodes_ p) ## dom (nodes_ p') ∧
  ∀ id n id' n' q, nodes_ p !! id = Some n → nodes_ p' !! id' = Some n' → uses n q → ¬ uses n' q.

Record pair_ok w p p' : Prop := {
  pa_left : built (w, p) ∧ tidy p;
  pa_right : built (w, p') ∧ tidy p';
  pa_apart : apart p p';
}.

Lemma apart_sym p p' : apart p p' → apart p' p.
Proof. intros [Hd Hu]. split; [by symmetry|]. intros id n id' n' q Hn Hn' Hq Hq'. by eapply Hu. Qed.
Lemma pair_ok_sym w p p' : pair_ok w p p' → pair_ok w p' p.
Proof. intros [? ? ?]. split; auto using apart_sym. Qed.

Lemma wiring_prefix cap qs qs' rank bound d ns :
  wiring cap qs rank bound d ns → qs `prefix_of` qs' → wiring cap qs' rank bound d ns.
Proof.
  intros [Hb Hr Hc He Hk Hd] Hq. split; try done. intros q a n Hn Hu. eapply prefix_lookup_Some; eauto.
Qed.

Lemma built_later w w' p : built (w, p) → later w w' → (id_ w' < 2 ^ 64)%Z → built (w', p).
Proof.
  intros [(rank & bound & Hw) Hn Hl Hid] [Hq Hi] H64. split; simpl in *; [|..|done|lia].
  - exists rank, bound. by eapply wiring_prefix.
  - intros id n Hidn. eapply sound_world; [|by apply Hn]. done.
Qed.

(** The queues in use have been allocated. *)
Lemma built_uses w p id n q : built (w, p) → nodes_ p !! id = Some n → uses n q → q < length (queues w).
Proof.
  intros [(rank & bound & Hw) _ _ _] Hn Hq. eapply lookup_lt_Some, (w_cap _ _ _ _ _ _ Hw); eauto.
Qed.

(** The other pipeline is not concerned by a call. *)
Lemma pair_ok_start w p p' :
  pair_ok w p p' →
  tracks (w, p) (λ q, ∀ id n, nodes_ p' !! id = Some n → ¬ uses n q) (λ id, id ∉ dom (nodes_ p'))
    (sources_ p) (sinks_ p) (id_ w) (w, p).
Proof.
  intros [[Hb Ht] [Hb' Ht'] [Hd Hu]]. split; simpl; try done.
  - intros q Hq id n Hn Hq'. eapply built_uses in Hb'; [|done..]. lia.
  - intros id Hid [n Hn]%elem_of_dom. apply (bt_nodes _ Hb') in Hn as [_ Hr _ _ _]. simpl in Hr. lia.
  - intros id n Hn. split; [apply elem_of_dom_2 in Hn; set_solver|]. split; [|by apply Ht].
    intros q Hq id' n' Hn'. by eapply Hu.
  - apply Ht.
Qed.

Lemma exec_pair w p p' a :
  pair_ok w p p' → legal (w, p) a → (∀ n, given (w, p) a n → processor_id_ n ∉ dom (nodes_ p')) →
  pair_ok (exec a (w, p)).1.1 (exec a (w, p)).1.2 p'.
Proof.
  intros Hp Ha Hg. pose proof (pair_ok_start _ _ _ Hp) as Hstart. destruct Hp as [[Hb Ht] [Hb' Ht'] Hap].
  destruct (exec_ok _ _ Hb Ha) as [Hbs Hout].
  pose proof (exec_kept (w, p) _ _ Ht (proj1 (bt_id _ Hb)) Hstart a Ha Hg) as Hk. unfold wlpB in Hk.
  destruct (exec a (w, p)) as [[w1 p1] [[]|e|c]]; simpl in *; [..|naive_solver].
  - destruct Hk as [Hl Ht1 Hn]. split; [done| |split].
    + split; [|done]. eapply built_later; [done..|]. apply (bt_id _ Hbs).
    + intros id [n Hidn]%elem_of_dom. by apply Hn in Hidn as [? _].
    + intros id n id' n' q Hidn Hn' Hq. apply Hn in Hidn as [_ Hf]. by eapply Hf.
  - destruct Hout as [?|[_ ->]]; [done|]. split; [done| |done].
    split; [|done]. eapply built_later; [done..|]. apply (bt_id _ Hbs).
Qed.

(** A program that builds two pipelines: their calls alternate in any way; a
    node given to one of them is not given to the other; the rest of the program
    may allocate ids and queues at any time. *)
Inductive pair_reaches (option option' : PipelineOption) : world → Pipeline T U → Pipeline T U → Prop :=
| pair_init w : (0 < id_ w < 2 ^ 64)%Z →
    pair_reaches option option' w (Pipeline_init option) (Pipeline_init option')
| pair_first w p p' a : pair_reaches option option' w p p' → legal (w, p) a →
    (∀ n, given (w, p) a n → processor_id_ n ∉ dom (nodes_ p')) →
    pair_reaches option option' (exec a (w, p)).1.1 (exec a (w, p)).1.2 p'
| pair_second w p p' a : pair_reaches option option' w p p' → legal (w, p') a →
    (∀ n, given (w, p') a n → processor_id_ n ∉ dom (nodes_ p)) →
    pair_reaches option option' (exec a (w, p')).1.1 p (exec a (w, p')).1.2
| pair_later w w' p p' : pair_reaches option option' w p p' → later w w' → (id_ w' < 2 ^ 64)%Z →
    pair_reaches option option' w' p p'.

Lemma pair_reaches_ok option option' w p p' : pair_reaches option option' w p p' → pair_ok w p p'.
Proof.
  induction 1 as [w Hw|w p p' a _ IH Ha Hg|w p p' a _ IH Ha Hg|w w' p p' _ IH Hl H64].
  - split; [split; [by apply built_init|apply tidy_init]..|]. split; [set_solver|]. intros; by simplify_map_eq.
  - by apply exec_pair.
  - apply pair_ok_sym, exec_pair; [by apply pair_ok_sym|done|done].
  - destruct IH as [[? ?] [? ?] ?]. split; [..|done]; (split; [by eapply built_later|done]).
Qed.

(** The calls of such a program as a list; [true]: a call on the first pipeline. *)
Definition pair_state : Type := world * Pipeline T U * Pipeline T U.
Definition pair_exec (x : bool * api) (st : pair_state) : pair_state :=
  let '(w, p, p') := st in
  if x.1 then let s := (exec x.2 (w, p)).1 in (s.1, s.2, p') else let s := (exec x.2 (w, p')).1 in (s.1, p, s.2).
Definition pair_legal (x : bool * api) (st : pair_state) : Prop :=
  let '(w, p, p') := st in
  let '(mine, other) := if x.1 : bool then (p, p') else (p', p) in
  legal (w, mine) x.2 ∧ ∀ n, given (w, mine) x.2 n → processor_id_ n ∉ dom (nodes_ other).

Fixpoint pair_exec_all (l : list (bool * api)) (st : pair_state) : pair_state :=
  match l with [] => st | x :: l => pair_exec_all l (pair_exec x st) end.
Fixpoint pair_legal_all (l : list (bool * api)) (st : pair_state) : Prop :=
  match l with [] => True | x :: l => pair_legal x st ∧ pair_legal_all l (pair_exec x st) end.

Lemma pair_reaches_all option option' l st :
  pair_reaches option option' st.1.1 st.1.2 st.2 → pair_legal_all l st →
  let st' := pair_exec_all l st in pair_reaches option option' st'.1.1 st'.1.2 st'.2.
Proof.
  revert st. induction l as [|[[] a] l IH]; intros [[w p] p'] Hp Hl; [done|..]; simpl in *; destruct Hl as [[Ha Hg] Hl];
    apply IH; try done; simpl.
  - by apply pair_first.
  - by apply pair_second.
Qed.

Lemma pair_reaches_calls option option' l w p p' w1 p1 p1' :
  pair_reaches option option' w p p' → pair_legal_all l (w, p, p') →
  pair_exec_all l (w, p, p') = (w1, p1, p1') → pair_reaches option option' w1 p1 p1'.
Proof.
  intros Hp Hl He. pose proof (pair_reaches_all option option' l (w, p, p') Hp Hl) as Hr. by rewrite He in Hr.
Qed.

Lemma pair_next_call (x : bool * api) l st st' :
  pair_exec x st = st' → pair_legal x st → pair_legal_all l st' → pair_legal_all (x :: l) st.
Proof. by intros <-. Qed.

End frame.

(** A concrete list of calls is legal: the state after each call is evaluated. *)
Ltac pair_next_call :=
  lazymatch goal with
  | |- pair_legal_all (?x :: ?l) ?st =>
      let st' := eval vm_compute in (pair_exec x st) in
      apply (pair_next_call x l st st'); [vm_compute; reflexivity|split|]
  end.
Ltac pair_calls_legal :=
  repeat pair_next_call; [..|done];
  (first [by intros n []|intros n ->; decide_now|cbn [legal snd]; repeat (split; [|])]);
  (first [done|decide_now|eexists; split; [vm_compute; reflexivity|reflexivity]]).
