(* ===== verification/Merge.v ===== *)
(** * Merging pipelines: [MergePipeline]

    Two completed pipelines that share neither nodes nor queues are merged into
    one network: the sinks of the left one and the sources of the right
    one become one NoOp each, which reads what the sink read and writes where
    the source wrote.  The edges, the sources and the sinks are again exact, so
    the result can be merged further. *)

From stdpp Require Import base functions gmap strings fin_maps fin_sets list.
From S2P Require Import Prelude Events Coro Processor Nodes PortLogic NodeProtocol Pipeline PipelineInv PipelineOps Builder Frame.

Section merge.
Context {T U : Type} `{Inhabited U} `{HashOrderLaws}.
Implicit Types (n : node T U) (p : Pipeline T U) (w : world) (s : state T U) (ns : gmap Z (node T U))
  (q : qid) (cap : Z → Prop).

(** ** Networks under other names *)

(** The writer-reader pairs. *)
Definition feeds ns (a b : Z) : Prop :=
  ∃ q na nb, ns !! a = Some na ∧ ns !! b = Some nb ∧ 0 < inner_writes na q ∧ 0 < inner_expects nb q.

(** A network [ns'] whose nodes read as the node [rd] of [ns] and write as the
    node [wr]. *)
Record renamed ns ns' (rd wr : Z → Z) : Prop := {
  rn_node id n : ns' !! id = Some n → ∃ nr nw, ns !! rd id = Some nr ∧ ns !! wr id = Some nw ∧
    (∀ q, inner_expects n q = inner_expects nr q) ∧ (∀ q, inner_writes n q = inner_writes nw q);
  rn_rd_inj a b : a ∈ dom ns' → b ∈ dom ns' → rd a = rd b → a = b;
  rn_wr_inj a b : a ∈ dom ns' → b ∈ dom ns' → wr a = wr b → a = b;
  rn_rd q a n : ns !! a = Some n → 0 < inner_expects n q → ∃ id, id ∈ dom ns' ∧ rd id = a;
  rn_wr q a n : ns !! a = Some n → 0 < inner_writes n q → ∃ id, id ∈ dom ns' ∧ wr id = a;
}.

Lemma renamed_feeds ns ns' rd wr a b :
  renamed ns ns' rd wr → feeds ns' a b ↔ a ∈ dom ns' ∧ b ∈ dom ns' ∧ feeds ns (wr a) (rd b).
Proof.
  intros Hrn. split.
  - intros (q & na & nb & Ha & Hb & Hw & Hx). split; [by eapply elem_of_dom_2|]. split; [by eapply elem_of_dom_2|].
    destruct (rn_node _ _ _ _ Hrn _ _ Ha) as (_ & nw & _ & Hnw & _ & Hwr).
    destruct (rn_node _ _ _ _ Hrn _ _ Hb) as (nr & _ & Hnr & _ & Hrd & _).
    exists q, nw, nr. by rewrite <- Hwr, <- Hrd.
  - intros ([na Ha]%elem_of_dom & [nb Hb]%elem_of_dom & q & nw & nr & Hnw & Hnr & Hw & Hx).
    destruct (rn_node _ _ _ _ Hrn _ _ Ha) as (_ & nw' & _ & Hnw' & _ & Hwr).
    destruct (rn_node _ _ _ _ Hrn _ _ Hb) as (nr' & _ & Hnr' & _ & Hrd & _). simplify_eq.
    exists q, na, nb. by rewrite Hwr, Hrd.
Qed.

Lemma open_renamed cap qs ns ns' rd wr (rank : Z → nat) :
  open_network cap qs ns → renamed ns ns' rd wr →
  (∀ id n, ns' !! id = Some n → connected n) →
  (∀ a b, feeds ns a b → rank a < rank b) → (∀ id, id ∈ dom ns' → rank (rd id) ≤ rank (wr id)) →
  open_network cap qs ns'.
Proof.
  intros [_ Hb Hr _ Hc] Hrn Hn Hrank Hle. pose proof (rn_node _ _ _ _ Hrn) as Hnode. split; [done|..].
  - intros q. transitivity (sum_over (λ n, inner_writes n q) ns); [|rewrite Hb; symmetry].
    + apply (sum_over_reindex _ _ _ wr); [|apply Hrn|intros i x Hi Hx; by eapply (rn_wr _ _ _ _ Hrn)].
      intros j y (nr & nw & _ & ? & _ & Hx)%Hnode. eauto.
    + apply (sum_over_reindex _ _ _ rd); [|apply Hrn|intros i x Hi Hx; by eapply (rn_rd _ _ _ _ Hrn)].
      intros j y (nr & nw & ? & _ & Hx & _)%Hnode. eauto.
  - intros q a b na nb Ha Hb'. pose proof (elem_of_dom_2 _ _ _ Ha). pose proof (elem_of_dom_2 _ _ _ Hb').
    apply Hnode in Ha as (nra & _ & Hra & _ & Hxa & _). apply Hnode in Hb' as (nrb & _ & Hrb & _ & Hxb & _).
    rewrite Hxa, Hxb. intros Hqa Hqb. apply (rn_rd_inj _ _ _ _ Hrn); [done..|]. by eapply (Hr q).
  - exists (λ id, rank (rd id)). intros q a b na nb Ha Hb' Hw Hx.
    assert (feeds ns' a b) as Hf by (by exists q, na, nb).
    apply (renamed_feeds _ _ _ _ _ _ Hrn) in Hf as (Hda & Hdb & Hf). apply Hrank in Hf. apply Hle in Hda. lia.
  - intros q a n (nr & nw & Hnr & Hnw & Hx & Hw)%Hnode Hq. rewrite Hx, Hw in Hq.
    destruct (decide (0 < inner_expects nr q)); [by eapply (Hc q); [exact Hnr|lia]|]. eapply (Hc q); [exact Hnw|lia].
Qed.

(** ** Disjoint networks *)

Definition apart_nodes ns ns' : Prop :=
  ns ##ₘ ns' ∧ ∀ a n b n' q, ns !! a = Some n → ns' !! b = Some n' → uses n q → ¬ uses n' q.

Lemma ranks_bounded (X : gset Z) (rank : Z → nat) : ∃ bound, ∀ a, a ∈ X → rank a < bound.
Proof.
  induction X as [|a X Ha [bound IH]] using set_ind_L; [exists 0; set_solver|].
  exists (S (rank a + bound)). intros b [->%elem_of_singleton|Hb%IH]%elem_of_union; lia.
Qed.

Lemma feeds_union ns ns' a b : apart_nodes ns ns' → feeds (ns ∪ ns') a b ↔ feeds ns a b ∨ feeds ns' a b.
Proof.
  intros [Hd Hu]. split.
  - intros (q & na & nb & Ha & Hb & Hw & Hx). apply lookup_union_Some in Ha, Hb; [|done..].
    destruct Ha as [Ha|Ha], Hb as [Hb|Hb].
    + left. by exists q, na, nb.
    + exfalso. eapply (Hu a na b nb q); try done; unfold uses; lia.
    + exfalso. eapply (Hu b nb a na q); try done; unfold uses; lia.
    + right. by exists q, na, nb.
  - intros [(q & na & nb & Ha & Hb & Hq)|(q & na & nb & Ha & Hb & Hq)]; exists q, na, nb;
      rewrite !lookup_union_Some by done; auto.
Qed.

(** The union, with the nodes of the right network ranked above the others. *)
Lemma open_union capL capR qs ns ns' :
  open_network capL qs ns → open_network capR qs ns' → apart_nodes ns ns' →
  open_network (λ c, capL c ∨ capR c) qs (ns ∪ ns') ∧
  ∃ rank : Z → nat, (∀ a b, feeds (ns ∪ ns') a b → rank a < rank b) ∧
    ∀ a b, a ∈ dom ns → b ∈ dom ns' → rank a ≤ rank b.
Proof.
  intros [Hn Hb Hr (rl & Hrl) Hc] [Hn' Hb' Hr' (rr & Hrr) Hc'] Hap. pose proof Hap as [Hd Hu].
  assert (∃ rank : Z → nat, (∀ a b, feeds (ns ∪ ns') a b → rank a < rank b) ∧
    ∀ a b, a ∈ dom ns → b ∈ dom ns' → rank a ≤ rank b) as (rank & Hrank & Hle).
  { destruct (ranks_bounded (dom ns) rl) as [bound Hbound].
    exists (λ a, if decide (a ∈ dom ns) then rl a else bound + rr a). split.
    - intros a b [(q & na & nb & Ha & Hb'' & Hw & Hx)|(q & na & nb & Ha & Hb'' & Hw & Hx)]%feeds_union; [..|done].
      + rewrite !decide_True by (by eapply elem_of_dom_2). by eapply Hrl.
      + assert (∀ e m, ns' !! e = Some m → e ∉ dom ns) as Hnot.
        { intros e m He [m' Hm]%elem_of_dom. by eapply (map_disjoint_spec ns ns'). }
        rewrite !decide_False by eauto. apply Nat.add_lt_mono_l. by eapply Hrr.
    - intros a b Ha Hb''. rewrite decide_True, decide_False; [apply Hbound in Ha; lia| |done].
      apply map_disjoint_dom in Hd. set_solver. }
  split; [|by exists rank]. split.
  - intros id n [Hid|Hid]%lookup_union_Some; eauto.
  - intros q. rewrite !sum_over_union by done. by rewrite Hb, Hb'.
  - intros q a b na nb [Ha|Ha]%lookup_union_Some [Hb''|Hb'']%lookup_union_Some Hqa Hqb; try done; eauto.
    + exfalso. eapply (Hu a na b nb q); try done; unfold uses; lia.
    + exfalso. eapply (Hu b nb a na q); try done; unfold uses; lia.
  - exists rank. intros q a b na nb Ha Hb'' Hw Hx. apply Hrank. by exists q, na, nb.
  - intros q a n [Ha|Ha]%lookup_union_Some Hq; [..|done].
    + destruct (Hc q a n Ha Hq) as (c & ? & ?). eauto.
    + destruct (Hc' q a n Ha Hq) as (c & ? & ?). eauto.
Qed.

(** ** Completed pipelines *)

Record assembled cap w p : Prop := {
  as_leaves : leaves_ p = ∅;
  as_open : open_network cap (queues w) (nodes_ p);
  as_ids id n : nodes_ p !! id = Some n → processor_id_ n = id ∧ (0 < id < id_ w)%Z;
  as_tidy : tidy p;
  as_edges a b : b ∈ default ∅ (dags_ p !! a) ↔ feeds (nodes_ p) a b;
}.

Lemma built_assembled w p :
  built (w, p) → tidy p → leaves_ p = ∅ → assembled (eq (channel_size (option_ p))) w p.
Proof.
  intros Hb Ht Hl. split; [done|by apply (built_open (w, p))|..|done|].
  - intros id n [? ? _ _ _]%(bt_nodes _ Hb). done.
  - intros a b. destruct (bt_wiring _ Hb) as (rank & bound & Hw). apply (w_edges _ _ _ _ _ _ Hw).
Qed.

Lemma assembled_later cap w w' p : assembled cap w p → later w w' → assembled cap w' p.
Proof.
  intros [Hl [Hn Hb Hr Ha Hc] Hi Ht He] [Hq Hid]. split; try done; [split; try done|].
  - intros q a n Hna Hu. destruct (Hc q a n Hna Hu) as (c & Hl' & ?). exists c. split; [|done].
    by eapply prefix_lookup_Some.
  - intros id n Hidn. destruct (Hi id n Hidn). split; [done|lia].
Qed.

Lemma feeds_dom ns a b : feeds ns a b → a ∈ dom ns ∧ b ∈ dom ns.
Proof. intros (q & na & nb & Ha & Hb & _). split; by eapply elem_of_dom_2. Qed.

Lemma assembled_key cap w p a : assembled cap w p → a ∈ dom (dags_ p) → a ∈ dom (nodes_ p).
Proof.
  intros [_ _ _ Ht He] [X HX]%elem_of_dom. destruct (set_choose_L X) as [b Hb].
  { intros ->. by apply (ti_edges _ Ht a). }
  apply (feeds_dom _ a b), He. by rewrite HX.
Qed.

Lemma feeds_source cap w p a b : assembled cap w p → feeds (nodes_ p) a b → b ∉ sources_ p.
Proof.
  intros Hp (q & na & nb & _ & Hb & _ & Hx) Hin. apply (ti_classes _ (as_tidy _ _ _ Hp) b nb Hb) in Hin.
  rewrite expects_source in Hx by done. lia.
Qed.
Lemma feeds_sink cap w p a b : assembled cap w p → feeds (nodes_ p) a b → a ∉ sinks_ p.
Proof.
  intros Hp (q & na & nb & Ha & _ & Hw & _) Hin. apply (ti_classes _ (as_tidy _ _ _ Hp) a na Ha) in Hin.
  rewrite writes_sink in Hw by done. lia.
Qed.

(** ** The NoOp that replaces a sink and a source *)

Definition fuse (id : Z) (sink source : node T U) : node T U :=
  BindAbortChannel (abort_port sink)
    (set_output_port (output_port source)
      (set_input_port (input_port sink) (set_input_count (input_count_ sink) (new_noop id)))).

Lemma expects_fuse id sink source q : is_sink (node_kind sink) = true → inner_expects (fuse id sink source) q = inner_expects sink q.
Proof.
  intros Hk. rewrite !expects_one_input; [done| |done]. unfold one_input. by rewrite Hk.
Qed.
Lemma writes_fuse id sink source q :
  is_source (node_kind source) = true → inner_writes (fuse id sink source) q = inner_writes source q.
Proof.
  intros Hk. rewrite !writes_one_output; [done| |done]. unfold one_output. by rewrite Hk.
Qed.
Lemma fuse_connected id sink source :
  is_sink (node_kind sink) = true → connected sink → is_source (node_kind source) = true → connected source →
  connected (fuse id sink source).
Proof.
  intros Hk1 (Hi & _ & _) Hk2 (_ & Ho & _). unfold in_connected in Hi. unfold out_connected in Ho.
  split; [by destruct (node_kind sink)|]. split; [by destruct (node_kind source)|done].
Qed.

(** ** The edges *)

(** The new names of sinks. *)
Definition rename (l : list (Z * Z)) (x : Z) : Z :=
  foldl (λ x '(o, n), if decide (x = o) then n else x) x l.

Lemma rename_other l x : x ∉ l.*1 → rename l x = x.
Proof.
  induction l as [|[o n] l IH]; [done|]. simpl. intros [Hne Hx]%not_elem_of_cons. by rewrite decide_False, IH.
Qed.
Lemma rename_at (l : list (Z * Z)) (i : nat) (o n : Z) :
  NoDup l.*1 → (∀ o n : Z, (o, n) ∈ l → n ∉ l.*1) → l !! i = Some (o, n) → rename l o = n.
Proof.
  revert i. induction l as [|[o' n'] l IH]; intros i Hnd Hnew Hi; [done|].
  apply NoDup_cons in Hnd as [Ho Hnd]. simpl in *. destruct i as [|i]; simpl in Hi.
  - simplify_eq. rewrite decide_True by done. apply rename_other. assert (n ∉ o :: l.*1); [|set_solver].
    eapply Hnew. by left.
  - assert (o ∈ l.*1) as Hin by (apply list_elem_of_fmap; exists (o, n); split; [done|by eapply list_elem_of_lookup_2]).
    rewrite decide_False by (by intros ->). apply (IH i); try done.
    intros o1 n1 Hin1. assert (n1 ∉ o' :: l.*1); [|set_solver]. eapply Hnew. by right.
Qed.

Lemma replace_sink_map (o n : Z) (X : gset Z) : replace_sink o n X = set_map (λ x, if decide (x = o) then n else x) X.
Proof.
  apply set_eq. intros y. rewrite elem_of_map. unfold replace_sink. destruct (decide (o ∈ X)) as [Ho|Ho].
  - split.
    + intros [[Hy Hne]%elem_of_difference| ->%elem_of_singleton]%elem_of_union; [exists y|exists o];
        case_decide; set_solver.
    + intros (x & -> & Hx). case_decide; set_solver.
  - split; [intros Hy; exists y; case_decide; set_solver|]. intros (x & -> & Hx). case_decide; set_solver.
Qed.

Lemma replace_sinks_map l (d : gmap Z (gset Z)) :
  foldl (λ d '(o, n), replace_sink o n <$> d) d l = set_map (rename l) <$> d.
Proof.
  revert d. induction l as [|[o n] l IH]; intros d; simpl.
  - rewrite <- (map_fmap_id d) at 1. apply map_fmap_ext. intros _ X _. apply set_eq. set_solver.
  - rewrite IH, <- map_fmap_compose. apply map_fmap_ext. intros _ X _. simpl. rewrite replace_sink_map.
    apply set_eq. intros y. rewrite !elem_of_map. setoid_rewrite elem_of_map. naive_solver.
Qed.

Lemma ReplaceSinkIdInDags_spec d olds news s Φ Ψ :
  length olds = length news → Φ (set_map (rename (zip olds news)) <$> d) s →
  wpB (ReplaceSinkIdInDags (T := T) (U := U) d olds news) s Φ Ψ.
Proof.
  intros Hl HΦ. unfold ReplaceSinkIdInDags. step_B. apply wpB_assert; [by apply bool_decide_true|]. step_B.
  by rewrite replace_sinks_map.
Qed.

(** The edges of the right pipeline after [i] of its sources have been given
    the ids from [c] on. *)
Definition moved (c : Z) (sources : list Z) (d : gmap Z (gset Z)) (i : nat) (a : Z) : option (gset Z) :=
  if decide (c ≤ a)%Z then
    (if decide (a < c + Z.of_nat i)%Z then sources !! Z.to_nat (a - c) ≫= (d !!.) else None)
  else if decide (a ∈ firstn i sources) then None else d !! a.

Section moving.
Context (c : Z) (sources : list Z) (d : gmap Z (gset Z)).
Hypothesis Hnd : NoDup sources.
Hypothesis Hsources : ∀ a, a ∈ sources → (a < c)%Z.
Hypothesis Hkeys : ∀ a, a ∈ dom d → (a < c)%Z.

Record moving (i : nat) (D add : gmap Z (gset Z)) : Prop := {
  mv_edges a : D !! a = moved c sources d i a;
  mv_add a : a ∈ dom add → a ∈ dom D ∧ (c ≤ a < c + Z.of_nat i)%Z;
}.

Lemma moving_start : moving 0 d ∅.
Proof.
  split; [|set_solver]. intros a. unfold moved. rewrite firstn_O. case_decide; [|by rewrite decide_False by set_solver].
  rewrite decide_False by lia. apply not_elem_of_dom. intros Ha%Hkeys. lia.
Qed.

Lemma moved_step i old a :
  sources !! i = Some old →
  moved c sources d (S i) a = if decide (a = c + Z.of_nat i)%Z then d !! old
                              else if decide (a = old) then None else moved c sources d i a.
Proof.
  intros Hi. assert (old < c)%Z as Hold by (apply Hsources; by eapply list_elem_of_lookup_2).
  unfold moved. destruct (decide (a = c + Z.of_nat i)%Z) as [->|Hne].
  - rewrite !decide_True by lia. replace (Z.to_nat (c + Z.of_nat i - c)) with i by lia. by rewrite Hi.
  - destruct (decide (c ≤ a)%Z).
    + rewrite (decide_False (P := a = old)) by lia. by repeat case_decide; try lia.
    + rewrite (take_S_r sources i old) by done. destruct (decide (a = old)) as [->|Hne'].
      * rewrite decide_True by set_solver. done.
      * repeat case_decide; try done; set_solver.
Qed.

Lemma moving_old i old D add : sources !! i = Some old → moving i D add → D !! old = d !! old.
Proof.
  intros Hi [HD _]. rewrite HD. unfold moved. assert (old < c)%Z by (apply Hsources; by eapply list_elem_of_lookup_2).
  rewrite decide_False by lia. rewrite decide_False; [done|]. intros (j & Hj & Hj')%elem_of_take.
  assert (j = i); [by eapply NoDup_lookup|lia].
Qed.

(** What [publish] makes of one turn. *)
Lemma moving_publish i old D add :
  sources !! i = Some old → moving i D add →
  let r := match d !! old with
           | Some to => publish (delete old D) (insert_new (c + Z.of_nat i)%Z to add)
           | None => publish D add
           end in moving (S i) r.1 r.2.
Proof.
  intros Hi Hm. pose proof (moving_old _ _ _ _ Hi Hm) as Hold. destruct Hm as [HD Hadd].
  assert (old < c)%Z as Hlt by (apply Hsources; by eapply list_elem_of_lookup_2).
  assert (∀ a, D !! a = None → add !! a = None) as Hnone.
  { intros a Ha%not_elem_of_dom. apply not_elem_of_dom. intros Hin. by destruct (Hadd a Hin). }
  assert (D !! (c + Z.of_nat i)%Z = None) as Hnew.
  { rewrite HD. unfold moved. rewrite decide_True, decide_False by lia. done. }
  destruct (d !! old) as [to|] eqn:Hto; simpl.
  - rewrite insert_new_None by auto. split.
    + intros a. rewrite (moved_step _ old), <- HD by done. rewrite lookup_union.
      destruct (decide (a = c + Z.of_nat i)%Z) as [->|Hne].
      { rewrite lookup_insert_eq, lookup_delete_ne, Hnew by lia. done. }
      rewrite lookup_insert_ne by done. destruct (decide (a = old)) as [->|Hne'].
      { rewrite lookup_delete_eq. rewrite (left_id_L None _). apply not_elem_of_dom. intros Hin%Hadd. lia. }
      rewrite lookup_delete_ne by done. destruct (D !! a) eqn:Ha; [by destruct (add !! a)|]. by rewrite Hnone.
    + intros a Ha%dom_imap_subseteq. rewrite dom_insert_L in Ha.
      apply elem_of_union in Ha as [->%elem_of_singleton|Ha]; [split; [set_solver|lia]|].
      destruct (Hadd a Ha) as [HaD Hr]. split; [|lia]. rewrite dom_union_L, dom_delete_L.
      assert (a ≠ old) by lia. set_solver.
  - split.
    + intros a. rewrite (moved_step _ old), <- HD by done. rewrite lookup_union.
      destruct (D !! a) eqn:Ha.
      * rewrite decide_False, decide_False by congruence. by destruct (add !! a).
      * rewrite Hnone by done. by repeat case_decide; rewrite ?Hto.
    + intros a Ha%dom_imap_subseteq. destruct (Hadd a Ha). split; [set_solver|lia].
Qed.

Lemma ReplaceSourceIdInDags_spec s Φ Ψ :
  (∀ D, (∀ a, D !! a = moved c sources d (length sources) a) → Φ D s) →
  wpB (ReplaceSourceIdInDags (T := T) (U := U) d sources (seqZ c (Z.of_nat (length sources)))) s Φ Ψ.
Proof.
  intros HΦ. unfold ReplaceSourceIdInDags. step_B.
  apply (wpB_for_all_with (λ l r s', s' = s ∧ ∃ i, i + length l = length sources ∧
    l = imap (λ j x, (i + j, x)) (drop i sources) ∧ moving i r.1 r.2)).
  - intros [i' y] l [D add] s' (-> & i & Hi & Hl & Hm). simpl in Hi, Hm.
    destruct (drop i sources) as [|old rest] eqn:Hdrop; [done|]. simpl in Hl. injection Hl as -> -> Hl.
    rewrite Nat.add_0_r. assert (sources !! i = Some old) as Hold.
    { replace i with (i + 0) by lia. by rewrite <- lookup_drop, Hdrop. }
    rewrite (moving_old _ _ _ _ Hold Hm). pose proof (moving_publish _ _ _ _ Hold Hm) as Hp. simpl in Hp.
    assert (∀ r, moving (S i) r.1 r.2 → s = s ∧ ∃ i0, i0 + length l = length sources ∧
      l = imap (λ j x, (i0 + j, x)) (drop i0 sources) ∧ moving i0 r.1 r.2) as Hnext.
    { intros r Hm'. split; [done|]. exists (S i). split; [lia|]. split; [|done].
      replace (drop (S i) sources) with rest.
      2: { rewrite <- Nat.add_1_r, <- drop_drop, Hdrop. done. }
      rewrite Hl. apply imap_ext. intros. simpl. f_equal. lia. }
    destruct (d !! old) as [to|].
    + rewrite lookup_seqZ_lt by (apply lookup_lt_Some in Hold; lia). apply wpB_ret. by apply Hnext.
    + apply wpB_ret. by apply Hnext.
  - intros [D add] s' (-> & i & Hi & _ & Hm). simpl in Hi. assert (i = length sources) as -> by lia.
    step_B. apply HΦ, Hm.
  - split; [done|]. exists 0. rewrite length_imap. split; [done|]. split; [done|]. apply moving_start.
Qed.

End moving.

(** ** The loops *)

Section loops.
Context (left right : Pipeline T U) w (capL capR : Z → Prop).
Hypothesis HL : assembled capL w left.
Hypothesis HR : assembled capR w right.
Hypothesis Hlen : length (sinks_ left) = length (sources_ right).
Hypothesis Hpos : (0 < id_ w)%Z.
Hypothesis H64 : (id_ w + Z.of_nat (length (sinks_ left)) < 2 ^ 64)%Z.

#[local] Abbreviation k := (length (sinks_ left)).

Definition fused (i : nat) n : Prop :=
  ∃ a b na nb, sinks_ left !! i = Some a ∧ sources_ right !! i = Some b ∧
    nodes_ left !! a = Some na ∧ nodes_ right !! b = Some nb ∧
    is_sink (node_kind na) = true ∧ is_source (node_kind nb) = true ∧ n = fuse (id_ w + Z.of_nat i) na nb.

(** [m] is [ns] but for the nodes taken at the first [i] places of [l]. *)
Definition taken (l : list Z) (i : nat) ns (m : slots) : Prop :=
  ∀ id, (∀ j, j < i → l !! j ≠ Some id) → m !! id = Some <$> ns !! id.

Lemma taken_step l i ns m id :
  NoDup l → l !! i = Some id → taken l i ns m →
  (take id m).1 = ns !! id ∧ taken l (S i) ns (take id m).2.
Proof.
  intros Hnd Hi Hm. split.
  - unfold take. cbn [fst]. rewrite (Hm id); [by destruct (ns !! id)|]. intros j Hj Hj'.
    assert (j = i); [by eapply NoDup_lookup|lia].
  - intros id' Hid'. unfold take, slots in *. cbn [snd]. rewrite lookup_insert_ne; [apply Hm; auto with lia|].
    intros <-. by apply (Hid' i); [lia|].
Qed.

Lemma sink_at i : i < k → ∃ a na, sinks_ left !! i = Some a ∧ nodes_ left !! a = Some na ∧ is_sink (node_kind na) = true.
Proof.
  intros [a Ha]%lookup_lt_is_Some. assert (a ∈ sinks_ left) as Hin by (by eapply list_elem_of_lookup_2).
  destruct (proj1 (elem_of_dom _ _) (ti_ends _ (as_tidy _ _ _ HL) a (or_intror Hin))) as [na Hna].
  exists a, na. split_and!; try done. by apply (ti_classes _ (as_tidy _ _ _ HL) a na Hna).
Qed.
Lemma source_at i : i < k → ∃ b nb, sources_ right !! i = Some b ∧ nodes_ right !! b = Some nb ∧ is_source (node_kind nb) = true.
Proof.
  rewrite Hlen. intros [b Hb]%lookup_lt_is_Some. assert (b ∈ sources_ right) as Hin by (by eapply list_elem_of_lookup_2).
  destruct (proj1 (elem_of_dom _ _) (ti_ends _ (as_tidy _ _ _ HR) b (or_introl Hin))) as [nb Hnb].
  exists b, nb. split_and!; try done. by apply (ti_classes _ (as_tidy _ _ _ HR) b nb Hnb).
Qed.

(** The state after [i] turns of the loop of [merge_ends]. *)
Record merging (p0 : Pipeline T U) (i : nat) (lnodes rnodes : slots) (noops : list (node T U)) s : Prop := {
  mg_pipeline : s.2 = p0;
  mg_world : s.1 = World (id_ w + Z.of_nat i) (queues w) (abort_queues w);
  mg_left : taken (sinks_ left) i (nodes_ left) lnodes;
  mg_right : taken (sources_ right) i (nodes_ right) rnodes;
  mg_count : length noops = i;
  mg_noops j n : noops !! j = Some n → fused j n;
}.

Lemma merge_ends_spec p0 :
  wpB (merge_ends left right) (w, p0)
    (λ '(lnodes, rnodes, noops) s, merging p0 k lnodes rnodes noops s) (λ _, False).
Proof.
  unfold merge_ends, GetSinks.
  apply (wpB_for_all_with (λ l '(lnodes, rnodes, noops) s,
    ∃ i, i + length l = k ∧ l = seq i (length l) ∧ merging p0 i lnodes rnodes noops s)).
  - intros i' l [[ln rn] noops] s (i & Hi & Hl & [Hp Hw Hml Hmr Hc Hn]). simpl in Hi, Hl. injection Hl as -> Hl.
    destruct (sink_at i) as (a & na & Ha & Hna & Hka); [lia|]. destruct (source_at i) as (b & nb & Hb & Hnb & Hkb); [lia|].
    rewrite Ha, Hb. destruct (ti_nodup _ (as_tidy _ _ _ HL)) as [_ Hnd1]. destruct (ti_nodup _ (as_tidy _ _ _ HR)) as [Hnd2 _].
    destruct (taken_step _ _ _ _ _ Hnd1 Ha Hml) as [Hta Hml']. destruct (taken_step _ _ _ _ _ Hnd2 Hb Hmr) as [Htb Hmr'].
    destruct (take a ln) as [sink ln'], (take b rn) as [source rn']. simpl in Hta, Htb, Hml', Hmr'. subst sink source.
    rewrite Hna, Hnb. unfold MergeSinkAndSource. step_B. step_B. destruct s as [w1 p1]. simpl in Hw, Hp. subst w1 p1.
    apply wpB_make_NoOpTransform; simpl; [lia|lia|]. step_B. step_B.
    exists (S i). split; [lia|]. split; [done|]. split; simpl; try done.
    + f_equal. lia.
    + rewrite length_app. simpl. lia.
    + intros j n [[_ Hj]|[-> <-]]%lookup_snoc_Some; [by apply Hn|]. rewrite Hc. by exists a, b, na, nb.
  - intros [[ln rn] noops] s (i & Hi & _ & Hm). simpl in Hi. by replace k with i by lia.
  - exists 0. rewrite length_seq. split; [done|]. split; [done|]. split; simpl; try done.
    + destruct w. simpl. f_equal. lia.
    + intros id _. unfold slots. by rewrite lookup_fmap.
    + intros id _. unfold slots. by rewrite lookup_fmap.
Qed.

(** ** The merged network *)

Section merged.
Context (lnodes rnodes : slots (T := T) (U := U)) (noops : list (node T U)).
Hypothesis Hap : apart left right.
Hypothesis Hml : taken (sinks_ left) k (nodes_ left) lnodes.
Hypothesis Hmr : taken (sources_ right) k (nodes_ right) rnodes.
Hypothesis Hcount : length noops = k.
Hypothesis Hnoops : ∀ j n, noops !! j = Some n → fused j n.

#[local] Abbreviation c := (id_ w).

Definition merged_nodes : gmap Z (node T U) :=
  omap id (filter (λ kv, IsSink kv.1 left = false) lnodes)
    ∪ omap id (filter (λ kv, IsSource kv.1 right = false) rnodes)
    ∪ list_to_map ((λ n, (processor_id_ n, n)) <$> noops).

Lemma noop_ids : processor_id_ <$> noops = seqZ c (Z.of_nat k).
Proof.
  apply list_eq. intros i. rewrite list_lookup_fmap. destruct (noops !! i) as [n|] eqn:Hn; simpl.
  - apply lookup_lt_Some in Hn as Hlt. apply Hnoops in Hn as (a & b & na & nb & _ & _ & _ & _ & _ & _ & ->).
    symmetry. apply lookup_seqZ_lt. lia.
  - apply lookup_ge_None in Hn. symmetry. apply lookup_seqZ_ge. lia.
Qed.

Lemma side_lookup (l : list Z) ns (m : slots (T := T) (U := U)) (P : Z → bool) x n :
  (∀ y, P y = false ↔ y ∉ l) → taken l (length l) ns m →
  omap (M := gmap Z) id (filter (λ kv, P kv.1 = false) m) !! x = Some n ↔ (x ∉ l) ∧ ns !! x = Some n.
Proof.
  intros HP Hm. rewrite lookup_omap. unfold slots in *.
  assert (x ∉ l → m !! x = Some <$> ns !! x) as Hx.
  { intros Hx. apply Hm. intros j _ Hj. by apply Hx; eapply list_elem_of_lookup_2. }
  destruct (decide (x ∈ l)) as [Hin|Hin].
  - rewrite (proj2 (map_lookup_filter_None _ _ _)); [naive_solver|]. right. simpl. intros y _ Hf. by apply HP in Hf.
  - rewrite map_lookup_filter, Hx by done. destruct (ns !! x) as [y|]; simpl; [|naive_solver].
    rewrite option_guard_True by (by apply HP). simpl. naive_solver.
Qed.

Lemma left_lookup x n :
  omap (M := gmap Z) id (filter (λ kv, IsSink kv.1 left = false) lnodes) !! x = Some n ↔
  (x ∉ sinks_ left) ∧ nodes_ left !! x = Some n.
Proof. apply (side_lookup _ _ _ (λ y, IsSink y left)); [|done]. intros y. apply bool_decide_eq_false. Qed.
Lemma right_lookup x n :
  omap (M := gmap Z) id (filter (λ kv, IsSource kv.1 right = false) rnodes) !! x = Some n ↔
  (x ∉ sources_ right) ∧ nodes_ right !! x = Some n.
Proof.
  apply (side_lookup _ _ _ (λ y, IsSource y right)); [intros y; apply bool_decide_eq_false|]. by rewrite <- Hlen.
Qed.
Lemma noop_lookup x n :
  (list_to_map ((λ n, (processor_id_ n, n)) <$> noops) : gmap Z (node T U)) !! x = Some n ↔
  ∃ i, x = (c + Z.of_nat i)%Z ∧ noops !! i = Some n.
Proof.
  rewrite <- elem_of_list_to_map by (rewrite <- list_fmap_compose; change (fst ∘ _) with (@processor_id_ T U);
    rewrite noop_ids; apply NoDup_seqZ).
  rewrite list_elem_of_fmap. split.
  - intros (n' & [= -> ->] & (i & Hi)%list_elem_of_lookup_1). exists i. split; [|done].
    by apply Hnoops in Hi as (a & b & na & nb & _ & _ & _ & _ & _ & _ & ->).
  - intros (i & -> & Hi). exists n. split; [|by eapply list_elem_of_lookup_2].
    by apply Hnoops in Hi as (a & b & na & nb & _ & _ & _ & _ & _ & _ & ->).
Qed.

Lemma left_below x n : nodes_ left !! x = Some n → (x < c)%Z.
Proof. intros Hx. apply (as_ids _ _ _ HL) in Hx. lia. Qed.
Lemma right_below x n : nodes_ right !! x = Some n → (x < c)%Z.
Proof. intros Hx. apply (as_ids _ _ _ HR) in Hx. lia. Qed.
Lemma not_both x n n' : nodes_ left !! x = Some n → nodes_ right !! x = Some n' → False.
Proof. intros Hl%elem_of_dom_2 Hr%elem_of_dom_2. destruct Hap as [Hd _]. set_solver. Qed.

(** Where a node of the merged pipeline comes from. *)
Inductive origin (x : Z) n : Prop :=
| origin_left : x ∉ sinks_ left → nodes_ left !! x = Some n → origin x n
| origin_right : x ∉ sources_ right → nodes_ right !! x = Some n → origin x n
| origin_noop i : x = (c + Z.of_nat i)%Z → i < k → fused i n → origin x n.

Lemma merged_origin x n : merged_nodes !! x = Some n ↔
  ((x ∉ sinks_ left) ∧ nodes_ left !! x = Some n) ∨ ((x ∉ sources_ right) ∧ nodes_ right !! x = Some n) ∨
  ∃ i, x = (c + Z.of_nat i)%Z ∧ noops !! i = Some n.
Proof.
  unfold merged_nodes. rewrite !lookup_union_Some.
  - rewrite left_lookup, right_lookup, noop_lookup. naive_solver.
  - apply map_disjoint_spec. intros y m m' [_ Hm]%left_lookup [_ Hm']%right_lookup. by eapply not_both.
  - apply map_disjoint_spec. intros y m m' Hm (i & -> & _)%noop_lookup.
    apply lookup_union_Some_raw in Hm as [[_ Hm%left_below]%left_lookup|[_ [_ Hm%right_below]%right_lookup]]; lia.
Qed.

Lemma merged_cases x n : merged_nodes !! x = Some n → origin x n.
Proof.
  intros [[? ?]|[[? ?]|(i & -> & Hi)]]%merged_origin; [by apply origin_left|by apply origin_right|].
  apply (origin_noop _ _ i); [done| |by apply Hnoops]. apply lookup_lt_Some in Hi. lia.
Qed.

Lemma merged_nodes_spec x n : merged_nodes !! x = Some n ↔ origin x n.
Proof.
  split; [apply merged_cases|]. intros Ho. apply merged_origin.
  destruct Ho as [Hx Hn|Hx Hn|i -> Hi Hf]; [by left|by right; left|]. right. right. exists i. split; [done|].
  rewrite <- Hcount in Hi. apply lookup_lt_is_Some in Hi as [m Hm]. rewrite Hm. f_equal. apply Hnoops in Hm.
  destruct Hf as (a & b & na & nb & ? & ? & ? & ? & _ & _ & ->), Hm as (a' & b' & na' & nb' & ? & ? & ? & ? & _ & _ & ->).
  by simplify_eq.
Qed.

Lemma merged_left x n : x ∉ sinks_ left → nodes_ left !! x = Some n → x ∈ dom merged_nodes.
Proof. intros. apply elem_of_dom. exists n. apply merged_origin. by left. Qed.
Lemma merged_right x n : x ∉ sources_ right → nodes_ right !! x = Some n → x ∈ dom merged_nodes.
Proof. intros. apply elem_of_dom. exists n. apply merged_origin. right. by left. Qed.
Lemma merged_noop i : i < k → (c + Z.of_nat i)%Z ∈ dom merged_nodes.
Proof.
  intros Hi. rewrite <- Hcount in Hi. apply lookup_lt_is_Some in Hi as [n Hn]. apply elem_of_dom. exists n.
  apply merged_origin. right. right. by exists i.
Qed.

(** The nodes that the merged nodes read and write for. *)
Definition rd (x : Z) : Z := if decide (c ≤ x)%Z then default x (sinks_ left !! Z.to_nat (x - c)) else x.
Definition wr (x : Z) : Z := if decide (c ≤ x)%Z then default x (sources_ right !! Z.to_nat (x - c)) else x.

Lemma rd_old x : (x < c)%Z → rd x = x.
Proof. intros. unfold rd. by rewrite decide_False by lia. Qed.
Lemma wr_old x : (x < c)%Z → wr x = x.
Proof. intros. unfold wr. by rewrite decide_False by lia. Qed.
Lemma rd_noop i a : sinks_ left !! i = Some a → rd (c + Z.of_nat i) = a.
Proof.
  intros Ha. unfold rd. rewrite decide_True by lia. replace (Z.to_nat _) with i by lia. by rewrite Ha.
Qed.
Lemma wr_noop i b : sources_ right !! i = Some b → wr (c + Z.of_nat i) = b.
Proof.
  intros Hb. unfold wr. rewrite decide_True by lia. replace (Z.to_nat _) with i by lia. by rewrite Hb.
Qed.

#[local] Abbreviation both := (nodes_ left ∪ nodes_ right).

Lemma both_disjoint : nodes_ left ##ₘ nodes_ right.
Proof. apply map_disjoint_dom, Hap. Qed.
Lemma both_left x n : nodes_ left !! x = Some n → both !! x = Some n.
Proof. intros. by apply lookup_union_Some_l. Qed.
Lemma both_right x n : nodes_ right !! x = Some n → both !! x = Some n.
Proof. intros. by apply lookup_union_Some_r; [apply both_disjoint|]. Qed.

(** Of the merged nodes, those that read for a node of the left pipeline. *)
Lemma rd_spec x n : origin x n → ∃ nr, both !! rd x = Some nr ∧ (∀ q, inner_expects n q = inner_expects nr q).
Proof.
  intros [Hx Hn|Hx Hn|i -> Hi (a & b & na & nb & Ha & _ & Hna & _ & Hk & _ & ->)].
  - exists n. rewrite rd_old by (by eapply left_below). by split; [apply both_left|].
  - exists n. rewrite rd_old by (by eapply right_below). by split; [apply both_right|].
  - exists na. rewrite (rd_noop _ _ Ha). split; [by apply both_left|]. intros q. by apply expects_fuse.
Qed.
Lemma wr_spec x n : origin x n → ∃ nw, both !! wr x = Some nw ∧ (∀ q, inner_writes n q = inner_writes nw q).
Proof.
  intros [Hx Hn|Hx Hn|i -> Hi (a & b & na & nb & _ & Hb & _ & Hnb & _ & Hk & ->)].
  - exists n. rewrite wr_old by (by eapply left_below). by split; [apply both_left|].
  - exists n. rewrite wr_old by (by eapply right_below). by split; [apply both_right|].
  - exists nb. rewrite (wr_noop _ _ Hb). split; [by apply both_right|]. intros q. by apply writes_fuse.
Qed.

(** [rd] and [wr] are injective: a NoOp reads for a sink, which is not merged. *)
Lemma rd_case x n : origin x n →
  (x < c)%Z ∧ rd x = x ∧ (x ∉ sinks_ left) ∨ ∃ i, x = (c + Z.of_nat i)%Z ∧ sinks_ left !! i = Some (rd x).
Proof.
  intros [Hx Hn|Hx Hn|i -> Hi (a & b & na & nb & Ha & _)].
  - left. apply left_below in Hn as Hc. by rewrite rd_old.
  - left. apply right_below in Hn as Hc. rewrite rd_old by done. split_and!; try done. intros Hin.
    destruct (proj1 (elem_of_dom _ _) (ti_ends _ (as_tidy _ _ _ HL) x (or_intror Hin))) as [m Hm]. by eapply not_both.
  - right. exists i. by rewrite (rd_noop _ _ Ha).
Qed.
Lemma wr_case x n : origin x n →
  (x < c)%Z ∧ wr x = x ∧ (x ∉ sources_ right) ∨ ∃ i, x = (c + Z.of_nat i)%Z ∧ sources_ right !! i = Some (wr x).
Proof.
  intros [Hx Hn|Hx Hn|i -> Hi (a & b & na & nb & _ & Hb & _)].
  - left. apply left_below in Hn as Hc. rewrite wr_old by done. split_and!; try done. intros Hin.
    destruct (proj1 (elem_of_dom _ _) (ti_ends _ (as_tidy _ _ _ HR) x (or_introl Hin))) as [m Hm]. by eapply not_both.
  - left. apply right_below in Hn as Hc. by rewrite wr_old.
  - right. exists i. by rewrite (wr_noop _ _ Hb).
Qed.

Lemma reindex_inj (l : list Z) (h : Z → Z) x y :
  NoDup l →
  (x < c)%Z ∧ h x = x ∧ (x ∉ l) ∨ (∃ i, x = (c + Z.of_nat i)%Z ∧ l !! i = Some (h x)) →
  (y < c)%Z ∧ h y = y ∧ (y ∉ l) ∨ (∃ i, y = (c + Z.of_nat i)%Z ∧ l !! i = Some (h y)) →
  h x = h y → x = y.
Proof.
  intros Hnd [(Hx & Hhx & Hlx)|(i & -> & Hi)] [(Hy & Hhy & Hly)|(j & -> & Hj)] He.
  - congruence.
  - apply list_elem_of_lookup_2 in Hj. by rewrite <- He, Hhx in Hj.
  - apply list_elem_of_lookup_2 in Hi. by rewrite He, Hhy in Hi.
  - rewrite He in Hi. by rewrite (NoDup_lookup _ _ _ _ Hnd Hi Hj).
Qed.

Lemma merged_reader q a n : both !! a = Some n → 0 < inner_expects n q → ∃ x, x ∈ dom merged_nodes ∧ rd x = a.
Proof.
  intros [Ha|Ha]%lookup_union_Some Hx; [..|apply both_disjoint].
  - destruct (decide (a ∈ sinks_ left)) as [(i & Hi)%list_elem_of_lookup_1|Hin].
    + exists (c + Z.of_nat i)%Z. split; [apply merged_noop; by eapply lookup_lt_Some|by apply rd_noop].
    + exists a. split; [by eapply merged_left|]. apply rd_old. by eapply left_below.
  - exists a. split; [|apply rd_old; by eapply right_below]. eapply merged_right; [|done]. intros Hin.
    apply (ti_classes _ (as_tidy _ _ _ HR) a n Ha) in Hin. rewrite expects_source in Hx by done. lia.
Qed.
Lemma merged_writer q a n : both !! a = Some n → 0 < inner_writes n q → ∃ x, x ∈ dom merged_nodes ∧ wr x = a.
Proof.
  intros [Ha|Ha]%lookup_union_Some Hw; [..|apply both_disjoint].
  - exists a. split; [|apply wr_old; by eapply left_below]. eapply merged_left; [|done]. intros Hin.
    apply (ti_classes _ (as_tidy _ _ _ HL) a n Ha) in Hin. rewrite writes_sink in Hw by done. lia.
  - destruct (decide (a ∈ sources_ right)) as [(i & Hi)%list_elem_of_lookup_1|Hin].
    + exists (c + Z.of_nat i)%Z. split; [apply merged_noop; rewrite Hlen; by eapply lookup_lt_Some|by apply wr_noop].
    + exists a. split; [by eapply merged_right|]. apply wr_old. by eapply right_below.
Qed.

Lemma merged_renamed : renamed both merged_nodes rd wr.
Proof.
  destruct (ti_nodup _ (as_tidy _ _ _ HL)) as [_ Hnd1]. destruct (ti_nodup _ (as_tidy _ _ _ HR)) as [Hnd2 _].
  split.
  - intros x n Hx%merged_cases. destruct (rd_spec _ _ Hx) as (nr & ? & ?), (wr_spec _ _ Hx) as (nw & ? & ?). eauto 10.
  - intros x y [n Hx%merged_cases]%elem_of_dom [m Hy%merged_cases]%elem_of_dom.
    apply (reindex_inj _ rd _ _ Hnd1); by eapply rd_case.
  - intros x y [n Hx%merged_cases]%elem_of_dom [m Hy%merged_cases]%elem_of_dom.
    apply (reindex_inj _ wr _ _ Hnd2); by eapply wr_case.
  - apply merged_reader.
  - apply merged_writer.
Qed.

Lemma both_apart : apart_nodes (nodes_ left) (nodes_ right).
Proof. split; [apply both_disjoint|apply Hap]. Qed.

Lemma merged_open : open_network (λ z, capL z ∨ capR z) (queues w) merged_nodes.
Proof.
  destruct (open_union _ _ _ _ _ (as_open _ _ _ HL) (as_open _ _ _ HR) both_apart) as (Hc & rank & Hrank & Hle).
  apply (open_renamed _ _ _ _ _ _ rank Hc merged_renamed); [|done|].
  - intros x n [_ Hn|_ Hn|i _ _ (a & b & na & nb & _ & _ & Hna & Hnb & Hk1 & Hk2 & ->)]%merged_cases.
    + by apply (on_connected _ _ _ (as_open _ _ _ HL) x).
    + by apply (on_connected _ _ _ (as_open _ _ _ HR) x).
    + apply fuse_connected; try done.
      * by apply (on_connected _ _ _ (as_open _ _ _ HL) a).
      * by apply (on_connected _ _ _ (as_open _ _ _ HR) b).
  - intros x [n [_ Hn|_ Hn|i -> Hi (a & b & na & nb & Ha & Hb & Hna & Hnb & _)]%merged_cases]%elem_of_dom.
    + apply left_below in Hn. by rewrite rd_old, wr_old.
    + apply right_below in Hn. by rewrite rd_old, wr_old.
    + rewrite (rd_noop _ _ Ha), (wr_noop _ _ Hb). apply Hle; by eapply elem_of_dom_2.
Qed.

(** *** The edges of the merged pipeline *)

Section edges.
Context (rdags : gmap Z (gset Z)).
Hypothesis Hrdags : ∀ a, rdags !! a = moved c (sources_ right) (dags_ right) (length (sources_ right)) a.

Definition renames : list (Z * Z) := zip (sinks_ left) (seqZ c (Z.of_nat k)).
Definition ldags : gmap Z (gset Z) := set_map (rename renames) <$> dags_ left.

Lemma left_sinks a : a ∈ sinks_ left → ∃ n, nodes_ left !! a = Some n.
Proof. intros Ha. by apply elem_of_dom, (ti_ends _ (as_tidy _ _ _ HL)); right. Qed.
Lemma right_sources a : a ∈ sources_ right → ∃ n, nodes_ right !! a = Some n.
Proof. intros Ha. by apply elem_of_dom, (ti_ends _ (as_tidy _ _ _ HR)); left. Qed.

Lemma renames_fst : renames.*1 = sinks_ left.
Proof. apply fst_zip. rewrite length_seqZ. lia. Qed.

Lemma rename_left x : x ∉ sinks_ left → rename renames x = x.
Proof. intros Hx. apply rename_other. by rewrite renames_fst. Qed.
Lemma rename_sink i a : sinks_ left !! i = Some a → rename renames a = (c + Z.of_nat i)%Z.
Proof.
  intros Ha. apply (rename_at _ i).
  - rewrite renames_fst. apply (ti_nodup _ (as_tidy _ _ _ HL)).
  - intros o x (j & Hj)%list_elem_of_lookup_1. rewrite renames_fst.
    apply lookup_zip_with_Some in Hj as (? & ? & [= -> ->] & _ & Hx).
    apply lookup_seqZ in Hx as [-> _]. intros [n Hn%left_below]%left_sinks. lia.
  - apply lookup_zip_with_Some. exists a, (c + Z.of_nat i)%Z. split_and!; try done.
    apply lookup_seqZ_lt. apply lookup_lt_Some in Ha. lia.
Qed.

Lemma ldags_spec a b : b ∈ default ∅ (ldags !! a) ↔ ∃ b0, feeds (nodes_ left) a b0 ∧ b = rename renames b0.
Proof.
  setoid_rewrite <- (as_edges _ _ _ HL). unfold ldags. rewrite lookup_fmap. destruct (dags_ left !! a) as [X|]; simpl; [|set_solver].
  rewrite elem_of_map. naive_solver.
Qed.

Lemma rdags_spec a b : b ∈ default ∅ (rdags !! a) ↔ (a ∉ sources_ right) ∧ feeds (nodes_ right) (wr a) b.
Proof.
  rewrite <- (as_edges _ _ _ HR), Hrdags. unfold moved, wr. destruct (decide (c ≤ a)%Z) as [Hc|Hc].
  - assert (a ∉ sources_ right) as Hns by (intros [n Hn%right_below]%right_sources; lia).
    case_decide as Hlt.
    + destruct (lookup_lt_is_Some_2 (sources_ right) (Z.to_nat (a - c))) as [x Hx]; [lia|]. rewrite Hx. naive_solver.
    + rewrite (lookup_ge_None_2 (sources_ right)) by lia. simpl.
      destruct (dags_ right !! a) as [X|] eqn:Ha; simpl; [|set_solver].
      apply elem_of_dom_2, (assembled_key _ _ _ _ HR), elem_of_dom in Ha as [n Hn%right_below]. lia.
  - rewrite firstn_all. case_decide; simpl; set_solver.
Qed.

Lemma union_edges a b :
  b ∈ default ∅ ((ldags ∪ rdags) !! a) ↔ b ∈ default ∅ (ldags !! a) ∨ b ∈ default ∅ (rdags !! a).
Proof.
  rewrite lookup_union. destruct (ldags !! a) as [X|] eqn:Hl.
  - apply elem_of_dom_2 in Hl. unfold ldags in Hl. rewrite dom_fmap in Hl.
    apply (assembled_key _ _ _ _ HL), elem_of_dom in Hl as [n Hn].
    assert (b ∉ default ∅ (rdags !! a)) as Hno.
    { rewrite rdags_spec. intros [_ [[m Hm]%elem_of_dom _]%feeds_dom].
      rewrite wr_old in Hm by (by eapply left_below). by eapply not_both. }
    destruct (rdags !! a); simpl in *; set_solver.
  - destruct (rdags !! a); simpl; set_solver.
Qed.

Lemma left_edge a b : feeds (nodes_ left) a b →
  let x := rename renames b in a ∈ dom merged_nodes ∧ x ∈ dom merged_nodes ∧ wr a = a ∧ rd x = b.
Proof.
  intros Hf. pose proof (feeds_sink _ _ _ _ _ HL Hf) as Hs.
  apply feeds_dom in Hf as [[na Ha]%elem_of_dom [nb Hb]%elem_of_dom].
  split; [by eapply merged_left|]. rewrite wr_old by (by eapply left_below).
  destruct (decide (b ∈ sinks_ left)) as [(i & Hi)%list_elem_of_lookup_1|Hin].
  - rewrite (rename_sink _ _ Hi), (rd_noop _ _ Hi). split; [|done]. apply merged_noop. by eapply lookup_lt_Some.
  - rewrite rename_left, rd_old by (done || by eapply left_below). split; [|done]. by eapply merged_left.
Qed.
Lemma right_edge a b : a ∉ sources_ right → feeds (nodes_ right) (wr a) b →
  a ∈ dom merged_nodes ∧ b ∈ dom merged_nodes ∧ rd b = b.
Proof.
  intros Hs Hf. pose proof (feeds_source _ _ _ _ _ HR Hf) as Hs'.
  apply feeds_dom in Hf as [[na Ha]%elem_of_dom [nb Hb]%elem_of_dom].
  rewrite rd_old by (by eapply right_below). split; [|split; [by eapply merged_right|done]].
  unfold wr in Ha. case_decide as Hc; [|by eapply merged_right].
  destruct (sources_ right !! Z.to_nat (a - c)) as [x|] eqn:Hx; simpl in Ha; [|apply right_below in Ha; lia].
  replace a with (c + Z.of_nat (Z.to_nat (a - c)))%Z by lia. apply merged_noop. rewrite Hlen. by eapply lookup_lt_Some.
Qed.

(** A merged node writes for a node of the left pipeline only if it is one. *)
Lemma wr_left a n m : origin a n → nodes_ left !! wr a = Some m → wr a = a ∧ nodes_ left !! a = Some n.
Proof.
  intros [Hx Hn|Hx Hn|i -> Hi (x & b & na & nb & _ & Hb & _ & Hnb & _)] Hm.
  - rewrite wr_old by (by eapply left_below). done.
  - rewrite wr_old in Hm by (by eapply right_below). exfalso. by eapply not_both.
  - rewrite (wr_noop _ _ Hb) in Hm. exfalso. by eapply not_both.
Qed.
Lemma rd_right b n m : origin b n → nodes_ right !! rd b = Some m → rd b = b.
Proof.
  intros [Hx Hn|Hx Hn|i -> Hi (x & y & na & nb & Hx & _ & Hna & _)] Hm.
  - rewrite rd_old by (by eapply left_below). done.
  - rewrite rd_old by (by eapply right_below). done.
  - rewrite (rd_noop _ _ Hx) in Hm. exfalso. by eapply not_both.
Qed.
Lemma rename_rd b n m : origin b n → nodes_ left !! rd b = Some m → rename renames (rd b) = b.
Proof.
  intros [Hx Hn|Hx Hn|i -> Hi (x & y & na & nb & Hx & _ & Hna & _)] Hm.
  - rewrite rd_old by (by eapply left_below). by apply rename_left.
  - rewrite rd_old in Hm by (by eapply right_below). exfalso. by eapply not_both.
  - rewrite (rd_noop _ _ Hx). by apply rename_sink.
Qed.
Lemma origin_not_source a n : origin a n → a ∉ sources_ right.
Proof.
  intros [Hx Hn|Hx Hn|i -> Hi _]; [|done|]; intros [m Hm]%right_sources; [by eapply not_both|].
  apply right_below in Hm. lia.
Qed.

Lemma merged_edges a b : b ∈ default ∅ ((ldags ∪ rdags) !! a) ↔ feeds merged_nodes a b.
Proof.
  rewrite union_edges, ldags_spec, rdags_spec, (renamed_feeds _ _ _ _ _ _ merged_renamed), (feeds_union _ _ _ _ both_apart).
  split.
  - intros [(b0 & Hf & ->)|[Hs Hf]].
    + destruct (left_edge _ _ Hf) as (? & ? & -> & ->). auto.
    + destruct (right_edge _ _ Hs Hf) as (? & ? & ->). auto.
  - intros ([na Ha%merged_cases]%elem_of_dom & [nb Hb%merged_cases]%elem_of_dom & [Hf|Hf]);
      pose proof (feeds_dom _ _ _ Hf) as [[m Hm]%elem_of_dom [m' Hm']%elem_of_dom].
    + left. exists (rd b). destruct (wr_left _ _ _ Ha Hm) as [He _]. rewrite He in Hf. split; [done|].
      symmetry. by eapply rename_rd.
    + right. split; [by eapply origin_not_source|]. by rewrite (rd_right _ _ _ Hb Hm') in Hf.
Qed.

Lemma merged_nonempty a : (ldags ∪ rdags) !! a ≠ Some ∅.
Proof.
  intros [Hl|[_ Hr]]%lookup_union_Some_raw.
  - apply lookup_fmap_Some in Hl as (X & HX & Hd). apply (ti_edges _ (as_tidy _ _ _ HL) a). rewrite Hd. f_equal.
    apply set_eq. intros y. split; [|set_solver]. intros Hy.
    assert (rename renames y ∈ (∅ : gset Z)); [rewrite <- HX; by apply elem_of_map_2|set_solver].
  - rewrite Hrdags in Hr. unfold moved in Hr. repeat case_decide; try done.
    + apply bind_Some in Hr as (x & _ & Hx). by apply (ti_edges _ (as_tidy _ _ _ HR) x).
    + by apply (ti_edges _ (as_tidy _ _ _ HR) a).
Qed.

(** *** The merged pipeline *)

#[local] Abbreviation merged_pipeline := (merged left right lnodes rnodes noops ldags rdags).

Lemma merged_classes x n : merged_nodes !! x = Some n →
  (is_source (node_kind n) = true ↔ x ∈ sources_ left) ∧ (is_sink (node_kind n) = true ↔ x ∈ sinks_ right).
Proof.
  pose proof (ti_ends _ (as_tidy _ _ _ HL) x) as Hl. pose proof (ti_ends _ (as_tidy _ _ _ HR) x) as Hr.
  rewrite elem_of_dom in Hl, Hr. intros [Hx Hn|Hx Hn|i -> Hi (a & b & na & nb & _ & _ & _ & _ & _ & _ & ->)]%merged_cases.
  - destruct (ti_classes _ (as_tidy _ _ _ HL) _ _ Hn) as [Hso Hsi]. split; [done|]. rewrite Hsi. split; [done|].
    intros Hin. destruct Hr as [m Hm]; [by right|]. exfalso. by eapply not_both.
  - destruct (ti_classes _ (as_tidy _ _ _ HR) _ _ Hn) as [Hso Hsi]. split; [|done]. rewrite Hso. split; [done|].
    intros Hin. destruct Hl as [m Hm]; [by left|]. exfalso. by eapply not_both.
  - split; (split; [done|intros Hin]).
    + destruct Hl as [m Hm%left_below]; [by left|lia].
    + destruct Hr as [m Hm%right_below]; [by right|lia].
Qed.

Lemma merged_tidy : tidy merged_pipeline.
Proof.
  destruct (ti_nodup _ (as_tidy _ _ _ HL)) as [Hnd1 _]. destruct (ti_nodup _ (as_tidy _ _ _ HR)) as [_ Hnd2].
  split; simpl; [apply merged_classes| |apply merged_nonempty|done].
  intros x [Hin|Hin].
  - destruct (proj1 (elem_of_dom _ _) (ti_ends _ (as_tidy _ _ _ HL) x (or_introl Hin))) as [n Hn].
    eapply merged_left; [|done]. intros Hin'. destruct (ti_classes _ (as_tidy _ _ _ HL) _ _ Hn) as [Hso Hsi].
    apply Hso in Hin. apply Hsi in Hin'. by destruct (node_kind n).
  - destruct (proj1 (elem_of_dom _ _) (ti_ends _ (as_tidy _ _ _ HR) x (or_intror Hin))) as [n Hn].
    eapply merged_right; [|done]. intros Hin'. destruct (ti_classes _ (as_tidy _ _ _ HR) _ _ Hn) as [Hso Hsi].
    apply Hso in Hin'. apply Hsi in Hin. by destruct (node_kind n).
Qed.

Lemma merged_assembled w' :
  queues w' = queues w → id_ w' = (c + Z.of_nat k)%Z → assembled (λ z, capL z ∨ capR z) w' merged_pipeline.
Proof.
  intros Hq Hid. split; [done|rewrite Hq; apply merged_open|..|apply merged_tidy|apply merged_edges].
  intros x n [_ Hn|_ Hn|i -> Hi (a & b & na & nb & _ & _ & _ & _ & _ & _ & ->)]%merged_cases.
  - apply (as_ids _ _ _ HL) in Hn. destruct Hn. split; [done|lia].
  - apply (as_ids _ _ _ HR) in Hn. destruct Hn. split; [done|lia].
  - split; [done|]. lia.
Qed.

End edges.

End merged.

(** ** [MergePipeline] *)

Lemma MergePipeline_spec p0 :
  apart left right → nodes_ left ≠ ∅ → nodes_ right ≠ ∅ →
  wpB (MergePipeline left right) (w, p0) (λ p s,
    s = (World (id_ w + Z.of_nat k) (queues w) (abort_queues w), p0) ∧
    assembled (λ z, capL z ∨ capR z) s.1 p ∧ (∀ x n, nodes_ p !! x = Some n ↔ origin x n) ∧
    sources_ p = sources_ left ∧ sinks_ p = sinks_ right) (λ _, False).
Proof.
  intros Hap Hl Hr. unfold MergePipeline, IsCompleted, GetProcessorSize, GetSinks, GetSources.
  rewrite !bool_decide_true by (by eapply as_leaves). cbn [andb negb].
  rewrite !decide_False by (rewrite ?map_size_empty_iff; auto). step_B.
  eapply wpB_mono; [|apply merge_ends_spec]. intros [[lnodes rnodes] noops] s1 [Hp Hw Hml Hmr Hc Hn].
  destruct s1 as [w1 p1]. simpl in Hp, Hw. subst w1 p1. rewrite (noop_ids _ Hc Hn).
  step_B. apply ReplaceSinkIdInDags_spec; [rewrite length_seqZ; lia|]. step_B. rewrite Hlen.
  apply (ReplaceSourceIdInDags_spec (id_ w)).
  { apply (ti_nodup _ (as_tidy _ _ _ HR)). }
  { intros a Ha. destruct (right_sources a Ha) as [m Hm]. by eapply right_below. }
  { intros a Ha. apply (assembled_key _ _ _ _ HR), elem_of_dom in Ha as [m Hm]. by eapply right_below. }
  intros rdags Hrd. step_B. rewrite <- Hlen. split; [done|].
  change (set_map _ <$> dags_ left) with ldags. split; [|split; [|done]].
  - by apply merged_assembled.
  - intros x n. by apply merged_nodes_spec.
Qed.

End loops.

(** *** Errors, and merging with an empty pipeline *)

Lemma MergePipeline_throws left right s :
  (¬ (leaves_ left = ∅ ∧ leaves_ right = ∅) →
   MergePipeline left right s = (s, Throw "can only merge two completed pipeline")) ∧
  (leaves_ left = ∅ → leaves_ right = ∅ → nodes_ left = ∅ → MergePipeline left right s = (s, Ok right)) ∧
  (leaves_ left = ∅ → leaves_ right = ∅ → nodes_ left ≠ ∅ → nodes_ right = ∅ →
   MergePipeline left right s = (s, Ok left)) ∧
  (leaves_ left = ∅ → leaves_ right = ∅ → nodes_ left ≠ ∅ → nodes_ right ≠ ∅ →
   length (sinks_ left) ≠ length (sources_ right) →
   MergePipeline left right s = (s, Throw "the number of sources and sinks in the merged pipeline is not equal")).
Proof.
  unfold MergePipeline, IsCompleted, GetProcessorSize, GetSinks, GetSources. split_and!.
  - intros Hno. rewrite <- bool_decide_and. by rewrite bool_decide_false.
  - intros Hl Hr Hn. rewrite !bool_decide_true by done. simpl. by rewrite decide_True by (by rewrite map_size_empty_iff).
  - intros Hl Hr Hn Hn'. rewrite !bool_decide_true by done. simpl. rewrite decide_False by (by rewrite map_size_empty_iff).
    by rewrite decide_True by (by rewrite map_size_empty_iff).
  - intros Hl Hr Hn Hn' Hne. rewrite !bool_decide_true by done. simpl.
    rewrite !decide_False by (by rewrite map_size_empty_iff). by rewrite decide_True.
Qed.

Lemma open_weaken cap cap' qs ns : (∀ z, cap z → cap' z) → open_network cap qs ns → open_network cap' qs ns.
Proof.
  intros Hc [? ? ? ? Hcap]. split; try done. intros q a n Hn Hq. destruct (Hcap q a n Hn Hq) as (z & ? & ?). eauto.
Qed.
Lemma assembled_weaken cap cap' w p : (∀ z, cap z → cap' z) → assembled cap w p → assembled cap' w p.
Proof. intros Hc []. split; try done. by eapply open_weaken. Qed.

(** Whenever [MergePipeline] returns, the result is complete. *)
Lemma MergePipeline_assembled capL capR w left right p0 s p :
  assembled capL w left → assembled capR w right → apart left right → (0 < id_ w)%Z →
  (id_ w + Z.of_nat (length (sinks_ left)) < 2 ^ 64)%Z →
  MergePipeline left right (w, p0) = (s, Ok p) → assembled (λ z, capL z ∨ capR z) s.1 p.
Proof.
  intros HL HR Hap Hpos H64 Hm. destruct (MergePipeline_throws left right (w, p0)) as (_ & He1 & He2 & He3).
  pose proof (as_leaves _ _ _ HL) as Hl. pose proof (as_leaves _ _ _ HR) as Hr.
  destruct (decide (nodes_ left = ∅)) as [Hn|Hn].
  { rewrite He1 in Hm by done. simplify_eq. eapply assembled_weaken; [|done]. auto. }
  destruct (decide (nodes_ right = ∅)) as [Hn'|Hn'].
  { rewrite He2 in Hm by done. simplify_eq. eapply assembled_weaken; [|done]. auto. }
  destruct (decide (length (sinks_ left) = length (sources_ right))) as [Hlen|Hlen]; [|by rewrite He3 in Hm].
  pose proof (MergePipeline_spec _ _ _ _ _ HL HR Hlen Hpos H64 p0 Hap Hn Hn') as Hwp.
  unfold wpB in Hwp. rewrite Hm in Hwp. by destruct Hwp as (_ & ? & _).
Qed.

Lemma pair_assembled option option' w left right :
  pair_reaches option option' w left right → leaves_ left = ∅ → leaves_ right = ∅ →
  assembled (eq (channel_size (option_ left))) w left ∧ assembled (eq (channel_size (option_ right))) w right ∧
  apart left right ∧ (0 < id_ w)%Z.
Proof.
  intros [[Hb1 Ht1] [Hb2 Ht2] Hap]%pair_reaches_ok Hl Hr.
  split_and!; [by apply built_assembled..|done|apply (bt_id _ Hb1)].
Qed.

Lemma merge_network option option' w left right p0 s p :
  pair_reaches option option' w left right → (id_ w + Z.of_nat (length (sinks_ left)) < 2 ^ 64)%Z →
  MergePipeline left right (w, p0) = (s, Ok p) →
  open_network (λ z, channel_size (option_ left) = z ∨ channel_size (option_ right) = z) (queues s.1) (nodes_ p).
Proof.
  intros Hp H64 Hm. destruct (decide (leaves_ left = ∅ ∧ leaves_ right = ∅)) as [[Hl Hr]|Hno].
  - destruct (pair_assembled _ _ _ _ _ Hp Hl Hr) as (HL & HR & Hap & Hpos).
    by eapply as_open, MergePipeline_assembled.
  - destruct (MergePipeline_throws left right (w, p0)) as [He _]. by rewrite He in Hm.
Qed.

(** C8: [MergePipeline] on two pipelines that a program has built, in whatever
    order it made its calls: it throws, and changes nothing, if one of them has
    leaves; an empty pipeline is neutral; it throws if the left one has not as
    many sinks as the right one has sources; otherwise the i-th sink and the
    i-th source are replaced by one NoOp with a new id, which reads what the
    sink read and writes what the source wrote, and all other nodes are kept
    as they are.  The result is complete: a network without cycles in which
    every queue between its nodes has one reader that expects as many ends of file as the
    queue has writers, whose edges, sources and sinks are exact. *)
Theorem MergePipeline_correct option option' w left right p0 :
  pair_reaches option option' w left right →
  let completed := leaves_ left = ∅ ∧ leaves_ right = ∅ in
  let k := length (sinks_ left) in
  (¬ completed → MergePipeline left right (w, p0) = ((w, p0), Throw "can only merge two completed pipeline")) ∧
  (completed → nodes_ left = ∅ → MergePipeline left right (w, p0) = ((w, p0), Ok right)) ∧
  (completed → nodes_ left ≠ ∅ → nodes_ right = ∅ → MergePipeline left right (w, p0) = ((w, p0), Ok left)) ∧
  (completed → nodes_ left ≠ ∅ → nodes_ right ≠ ∅ → k ≠ length (sources_ right) →
     MergePipeline left right (w, p0) =
       ((w, p0), Throw "the number of sources and sinks in the merged pipeline is not equal")) ∧
  (completed → nodes_ left ≠ ∅ → nodes_ right ≠ ∅ → k = length (sources_ right) →
   (id_ w + Z.of_nat k < 2 ^ 64)%Z →
   let w' := World (id_ w + Z.of_nat k) (queues w) (abort_queues w) in
   ∃ p, MergePipeline left right (w, p0) = ((w', p0), Ok p) ∧
     (∀ x n, nodes_ p !! x = Some n ↔ origin left right w x n) ∧
     sources_ p = sources_ left ∧ sinks_ p = sinks_ right ∧
     assembled (λ z, z = channel_size (option_ left) ∨ z = channel_size (option_ right)) w' p).
Proof.
  intros Hp completed k. destruct (MergePipeline_throws left right (w, p0)) as (He0 & He1 & He2 & He3).
  split; [done|]. split; [by intros [? ?]; apply He1|]. split; [by intros [? ?]; apply He2|].
  split; [by intros [? ?]; apply He3|]. intros [Hl Hr] Hn Hn' Hlen H64 w'.
  destruct (pair_assembled _ _ _ _ _ Hp Hl Hr) as (HL & HR & Hap & Hpos).
  pose proof (MergePipeline_spec _ _ _ _ _ HL HR Hlen Hpos H64 p0 Hap Hn Hn') as Hwp. unfold wpB in Hwp.
  destruct (MergePipeline left right (w, p0)) as [s [p|e|c]]; [|done..]. destruct Hwp as (-> & Ha & Ho & Hso & Hsi).
  exists p. split_and!; try done. eapply assembled_weaken; [|exact Ha]. intros z [<-|<-]; auto.
Qed.

End merge.

(** ** Two pipelines *)

Module SampleMerge.

Definition first : PipelineOption := MkPipelineOption true 2 "first".
Definition second : PipelineOption := MkPipelineOption true 3 "second".
Definition start : pair_state (T := Z) (U := Z) := (World 10 [] [], Pipeline_init first, Pipeline_init second).

(** A source of the numbers below [m]; its state is the next one. *)
Definition numbers (id m : Z) : node Z Z :=
  make_node id "numbers" 0 0
    (KSource (λ u, if decide (u < m)%Z then ((u + 1)%Z, Value (Some u)) else (u, Value None))) 0%Z.
Definition empty (id : Z) : node Z Z := make_node id "empty" 0 0 KEmptySource 0%Z.
Definition filter (id : Z) : node Z Z := make_node id "filter" 0 0 (KFilter (λ u x, (u, Value (Z.odd x)))) 0%Z.
Definition sink (id : Z) : node Z Z := make_node id "sink" 0 0 KDumpSink 0%Z.

(** A source forked into two sinks, and two sources merged into a filter before
    a sink; the calls alternate. *)
Definition calls : list (bool * api (T := Z) (U := Z)) :=
  [ (true, CallAddSource (numbers 1 4)); (false, CallAddSource (empty 4)); (true, CallForkFrom 1 2);
    (false, CallAddSource (empty 5)); (false, CallMerge (filter 6)); (true, CallSetSink_leaves (sink 2) {[11]}%Z);
    (false, CallSetSink (sink 7)); (true, CallSetSink (sink 3)) ].

Definition finished : pair_state := pair_exec_all calls start.
Definition world := finished.1.1.
Definition left := finished.1.2.
Definition right := finished.2.

Lemma sample_calls_legal : pair_legal_all calls start.
Proof. unfold calls, start. pair_calls_legal. Qed.

Lemma pair_finished_reaches : pair_reaches first second world left right.
Proof.
  unfold world, left, right, finished.
  refine (pair_reaches_all first second calls start _ sample_calls_legal). by apply pair_init.
Qed.

Lemma MergePipeline_correct_witness :
  let w' := World (id_ world + 2) (queues world) (abort_queues world) in
  ∃ p, MergePipeline left right (world, left) = ((w', left), Ok p) ∧
    (∀ x n, nodes_ p !! x = Some n ↔ origin left right world x n) ∧
    sources_ p = [1%Z] ∧ sinks_ p = [7%Z] ∧ assembled (λ z, z = 2%Z ∨ z = 3%Z) w' p.
Proof.
  destruct (MergePipeline_correct first second world left right left pair_finished_reaches) as (_ & _ & _ & _ & Hok).
  destruct Hok as (p & Hp); [split; vm_compute; reflexivity|..|by exists p].
  - intros He. apply (f_equal size) in He. vm_compute in He. discriminate.
  - intros He. apply (f_equal size) in He. vm_compute in He. discriminate.
  - vm_compute. reflexivity.
  - vm_compute. reflexivity.
Defined.

End SampleMerge.
