(* ===== verification/Network.v ===== *)
(** * A running pipeline

    The coroutines of a launched pipeline, interleaved in any order over the
    shared queues ([running]), with the invariant that ties their duties to the
    contents of the queues ([net_inv]), and the theorems on every state of every
    interleaving.  A step of a coroutine is one operation on a queue (the
    atomic operations of [Queue], which the implementation refines), a reading
    of the clock or one more turn of a loop. *)

From stdpp Require Import base functions gmap strings fin_maps fin_sets list.
From S2P Require Import Prelude Queue Events Coro Processor Nodes PortLogic NodeProtocol Pipeline PipelineInv Builder Frame Merge.

Section network.
Context {T U : Type} (GetTransferredBytes : T → Z).
Implicit Types (n : node T U) (ns : gmap Z (node T U)) (g : ghost T) (G : gmap Z (ghost T)).

Abbreviation thread := (prog T (node T U * attempt unit)).

(** [traces] records what each coroutine has read and written. *)
Record config := Config {
  threads : gmap Z thread;
  contents : gmap qid (list (option T));
  aborts : gmap aqid (list (option Z));
  traces : gmap Z (list (event T));
}.

Definition set_thread (i : Z) (p : thread) (c : config) : config :=
  Config (<[i := p]> (threads c)) (contents c) (aborts c) (traces c).
Definition set_contents (q : qid) (l : list (option T)) (c : config) : config :=
  Config (threads c) (<[q := l]> (contents c)) (aborts c) (traces c).
Definition set_aborts (a : aqid) (l : list (option Z)) (c : config) : config :=
  Config (threads c) (contents c) (<[a := l]> (aborts c)) (traces c).
Definition record_event (i : Z) (e : event T) (c : config) : config :=
  Config (threads c) (contents c) (aborts c) (<[i := traces c !!! i ++ [e]]> (traces c)).

(** [qs] and [aqs] are the capacities of the queues. *)
Definition step_thread (qs aqs : list Z) (now i : Z) (c : config) : option config :=
  p ← threads c !! i;
  match p with
  | Ret _ | Die _ => None
  | QPop q k =>
      match spec_call Pop (contents c !!! q) (qs !!! q) with
      | Some (PopResult v, l) => Some (record_event i (Got q v) (set_contents q l (set_thread i (k v) c)))
      | _ => None
      end
  | QPush q v k =>
      match spec_call (Push v) (contents c !!! q) (qs !!! q) with
      | Some (_, l) => Some (record_event i (Put q v) (set_contents q l (set_thread i k c)))
      | None => None
      end
  | QTryPop a k =>
      match spec_call TryPop (aborts c !!! a) (aqs !!! a) with
      | Some (TryPopResult r, l) => Some (set_aborts a l (set_thread i (k r) c))
      | _ => None
      end
  | QTryPush a v k =>
      match spec_call (TryPush v) (aborts c !!! a) (aqs !!! a) with
      | Some (TryPushResult b, l) => Some (set_aborts a l (set_thread i (k b) c))
      | _ => None
      end
  | Now k => Some (set_thread i (k now) c)
  | Loop body s k => Some (set_thread i (unroll body s k) c)
  end.

Definition is_die (p : thread) : bool := match p with Die _ => true | _ => false end.

(** The coroutines as [Run] launches them. *)
Definition launch ns : config := Config (work_with_exception GetTransferredBytes <$> ns) ∅ ∅ ∅.

Inductive runs (qs aqs : list Z) ns : config → Prop :=
| runs_launch : runs qs aqs ns (launch ns)
| runs_step now i c c' : runs qs aqs ns c → step_thread qs aqs now i c = Some c' → runs qs aqs ns c'.

(** ** The invariant *)

Definition is_open g (q : qid) : nat := if decide (q ∈ opened g) then 1 else 0.
Definition awaits g (q : qid) : nat := remaining g !!! q.

(** What a queue has received, with the writers: [log] lists the writes in
    their order. *)
Definition by_writer (i : Z) (log : list (Z * option T)) : list (option T) :=
  omap (λ e, if decide (e.1 = i) then Some e.2 else None) log.

Record net_inv (qs : list Z) ns G c : Prop := {
  ni_dom i : is_Some (G !! i) ↔ is_Some (threads c !! i);
  ni_wp i p g : threads c !! i = Some p → G !! i = Some g →
    ∃ n, ns !! i = Some n ∧ may_abort g = may_end n ∧ trace g = traces c !!! i ∧
      (∀ q, is_open g q ≤ writes n q) ∧ (∀ q, awaits g q ≤ expects n q) ∧
      WP p g (λ '(n', r) g', finishes n n' r g');
  ni_balance q : Σ[g ∈ G] is_open g q + eofs (contents c !!! q) = Σ[g ∈ G] awaits g q;
  ni_bound q : (Z.of_nat (length (contents c !!! q)) ≤ Z.max 0 (qs !!! q))%Z;
  ni_last q : (∃ i g, G !! i = Some g ∧ 0 < is_open g q) ∨
    contents c !!! q = [] ∨ last (contents c !!! q) = Some None;
  ni_data q : ∃ log : list (Z * option T),
    (∀ i, put q (traces c !!! i) = by_writer i log) ∧
    (∀ i n, ns !! i = Some n → 0 < expects n q → got q (traces c !!! i) ++ contents c !!! q = log.*2);
}.

(** *** The duties after an operation *)

Lemma is_open_pop g q v q' : is_open (after_pop q v g) q' = is_open g q'.
Proof. done. Qed.

Lemma awaits_pop g q v q' :
  0 < awaits g q →
  awaits (after_pop q v g) q' + (if decide (q' = q) then if is_eof v then 1 else 0 else 0) = awaits g q'.
Proof.
  intros Hq. unfold awaits, after_pop. destruct v as [x|]; simpl; [case_decide; lia|].
  destruct (decide (q' = q)) as [->|Hne].
  - rewrite lookup_total_insert, decide_True by done. unfold awaits in Hq. lia.
  - by rewrite lookup_total_insert_ne.
Qed.

Lemma is_open_push g q v q' :
  0 < is_open g q →
  is_open (after_push q v g) q' + (if decide (q' = q) then if is_eof v then 1 else 0 else 0) = is_open g q'.
Proof.
  unfold is_open, after_push. intros Hq. destruct v as [x|]; simpl; [destruct (decide (q' = q)); lia|].
  destruct (decide (q' = q)) as [->|Hne].
  - rewrite (decide_False (P := q ∈ opened g ∖ {[q]})) by set_solver. case_decide; lia.
  - destruct (decide (q' ∈ opened g)); [rewrite decide_True by set_solver|rewrite decide_False by set_solver]; done.
Qed.

Lemma awaits_push g q v q' : awaits (after_push q v g) q' = awaits g q'.
Proof. done. Qed.

Lemma eofs_cons v (l : list (option T)) : eofs (v :: l) = (if is_eof v then 1 else 0) + eofs l.
Proof. by destruct v. Qed.

Lemma by_writer_snoc i log j v :
  by_writer i (log ++ [(j, v)]) = by_writer i log ++ (if decide (j = i) then [v] else []).
Proof. unfold by_writer. rewrite omap_app. simpl. by case_decide. Qed.

(** *** Steps *)

(** A step that does not touch the data queues. *)
Lemma net_inv_quiet qs ns G c i p p' g ab :
  net_inv qs ns G c → threads c !! i = Some p → G !! i = Some g →
  (∀ Φ, WP p g Φ → WP p' g Φ) →
  net_inv qs ns G (Config (<[i := p']> (threads c)) (contents c) ab (traces c)).
Proof.
  intros [Hd Hw Hb Hbd Hl Hdt] Hp Hg Hpp. split; simpl; try done.
  - intros j. rewrite Hd. destruct (decide (j = i)) as [->|Hne].
    + rewrite lookup_insert_eq, Hp. done.
    + by rewrite lookup_insert_ne.
  - intros j pj gj [[<- <-]|[Hne Hj]]%lookup_insert_Some Hgj; [|by apply Hw].
    destruct (Hw i p g Hp Hg) as (n & Hn & Hm & Ht & Ho & Ha & Hwp). simplify_eq.
    exists n. repeat split; try done. by apply Hpp.
Qed.

Lemma threads_update_dom G (m : gmap Z thread) i g g' p p' :
  (∀ j, is_Some (G !! j) ↔ is_Some (m !! j)) → G !! i = Some g → m !! i = Some p →
  ∀ j, is_Some (<[i := g']> G !! j) ↔ is_Some (<[i := p']> m !! j).
Proof.
  intros Hd Hg Hp j. rewrite !lookup_insert_is_Some', Hd. done.
Qed.

Lemma net_inv_pop cap qs ns G c i q k g v l :
  closed_network cap qs ns → net_inv qs ns G c → threads c !! i = Some (QPop q k) → G !! i = Some g →
  contents c !!! q = v :: l →
  net_inv qs ns (<[i := after_pop q v g]> G) (record_event i (Got q v) (set_contents q l (set_thread i (k v) c))).
Proof.
  intros Hcn [Hd Hw Hb Hbd Hl Hdt] Hp Hg Hq.
  destruct (Hw _ _ _ Hp Hg) as (n & Hn & Hm & Ht & Ho & Ha & [Hpos Hwp]%WP_QPop_inv).
  assert (∀ q', awaits (after_pop q v g) q' ≤ awaits g q') as Hle.
  { intros q'. rewrite <- (awaits_pop g q v q' Hpos). lia. }
  split.
  - by apply (threads_update_dom G (threads c) i g _ (QPop q k)).
  - simpl. intros j pj gj [[<- <-]|[Hne Hj]]%lookup_insert_Some Hgj.
    + rewrite lookup_insert_eq in Hgj. injection Hgj as <-. exists n. split; [done|]. split; [done|].
      rewrite total_insert, decide_True by done. simpl. rewrite Ht. split; [done|]. split; [done|].
      split; [intros q'; etransitivity; [apply Hle|apply Ha]|apply Hwp].
    + rewrite lookup_insert_ne in Hgj by done. rewrite total_insert, decide_False by done. by apply Hw.
  - intros q'. simpl. rewrite total_insert. specialize (Hb q').
    pose proof (sum_over_update (λ g, is_open g q') G i g (after_pop q v g) Hg) as H1. simpl in H1.
    pose proof (sum_over_update (λ g, awaits g q') G i g (after_pop q v g) Hg) as H2. simpl in H2.
    rewrite is_open_pop in H1. pose proof (awaits_pop g q v q' Hpos) as H3.
    destruct (decide (q' = q)) as [->|]; [|lia]. rewrite Hq, eofs_cons in Hb. lia.
  - intros q'. simpl. rewrite total_insert. specialize (Hbd q'). case_decide; [|done]. subst.
    rewrite Hq in Hbd. simpl in Hbd. lia.
  - intros q'. simpl. rewrite total_insert. destruct (Hl q') as [(j & gj & Hgj & Hoj)|Hlast].
    + left. destruct (decide (j = i)) as [->|Hne].
      * exists i, (after_pop q v g). rewrite lookup_insert_eq. split; [done|]. simplify_eq. done.
      * exists j, gj. by rewrite lookup_insert_ne.
    + right. case_decide; [subst|done]. rewrite Hq in Hlast. destruct Hlast as [|Hlast]; [done|].
      destruct l as [|y l]; [by left|right]. by rewrite last_cons_cons in Hlast.
  - intros q'. destruct (Hdt q') as (log & Hput & Hgot). exists log. split.
    + intros j. simpl. rewrite total_insert. case_decide; [subst|apply Hput].
      rewrite put_app, app_nil_r. apply Hput.
    + intros j nj Hnj Hx. simpl. rewrite !total_insert.
      destruct (decide (q' = q)) as [->|Hne].
      * assert (j = i) as ->.
        { apply (cn_reader _ _ _ Hcn q j i nj n); try done. specialize (Ha q). unfold awaits in Ha. lia. }
        rewrite decide_True, got_app by done. simpl. rewrite decide_True by done.
        rewrite <- (Hgot i nj Hnj Hx), Hq, <- app_assoc. done.
      * case_decide; [subst|by apply (Hgot j nj)]. rewrite got_app. simpl.
        rewrite (decide_False (P := q = q')), app_nil_r by done. by apply (Hgot i nj).
Qed.

(** The log of a queue after a write. *)
Lemma data_push ns c (tr := traces c) i q v :
  (∀ q, ∃ log : list (Z * option T),
    (∀ i, put q (tr !!! i) = by_writer i log) ∧
    (∀ i n, ns !! i = Some n → 0 < expects n q → got q (tr !!! i) ++ contents c !!! q = log.*2)) →
  ∀ q', let tr' := <[i := tr !!! i ++ [Put q v]]> tr in
  ∃ log : list (Z * option T),
    (∀ j, put q' (tr' !!! j) = by_writer j log) ∧
    (∀ j n, ns !! j = Some n → 0 < expects n q' →
       got q' (tr' !!! j) ++ <[q := contents c !!! q ++ [v]]> (contents c) !!! q' = log.*2).
Proof.
  intros Hdt q' tr'. destruct (Hdt q') as (log & Hput & Hgot). unfold tr'.
  destruct (decide (q' = q)) as [->|Hne].
  - exists (log ++ [(i, v)]). split.
    + intros j. rewrite total_insert, by_writer_snoc, <- Hput.
      destruct (decide (j = i)) as [->|]; [|rewrite decide_False, app_nil_r by congruence; done].
      rewrite put_app, decide_True by done. simpl. by rewrite decide_True.
    + intros j nj Hnj Hx. rewrite !total_insert, (decide_True (P := q = q)), fmap_app by done.
      rewrite <- (Hgot j nj Hnj Hx). simpl. rewrite app_assoc. case_decide; [subst|done].
      by rewrite got_app, app_nil_r.
  - exists log. split.
    + intros j. rewrite total_insert, <- Hput. case_decide; [subst|done]. rewrite put_app. simpl.
      rewrite decide_False, app_nil_r by congruence. done.
    + intros j nj Hnj Hx. rewrite !total_insert, (decide_False (P := q' = q)) by done.
      rewrite <- (Hgot j nj Hnj Hx). case_decide; [subst|done]. by rewrite got_app, app_nil_r.
Qed.

Lemma is_open_in g q : q ∈ opened g → is_open g q = 1.
Proof. intros Hin. unfold is_open. by rewrite decide_True. Qed.

Lemma net_inv_push qs ns G c i q v k g :
  net_inv qs ns G c → threads c !! i = Some (QPush q v k) → G !! i = Some g →
  (Z.of_nat (length (contents c !!! q)) < qs !!! q)%Z →
  net_inv qs ns (<[i := after_push q v g]> G)
    (record_event i (Put q v) (set_contents q (contents c !!! q ++ [v]) (set_thread i k c))).
Proof.
  intros [Hd Hw Hb Hbd Hl Hdt] Hp Hg Hroom.
  destruct (Hw _ _ _ Hp Hg) as (n & Hn & Hm & Ht & Ho & Ha & [Hin Hwp]%WP_QPush_inv).
  pose proof (is_open_in g q Hin) as Hone. assert (0 < is_open g q) as Hpos by lia.
  assert (∀ q', is_open (after_push q v g) q' ≤ is_open g q') as Hle.
  { intros q'. rewrite <- (is_open_push g q v q' Hpos). lia. }
  split.
  - by apply (threads_update_dom G (threads c) i g _ (QPush q v k)).
  - simpl. intros j pj gj [[<- <-]|[Hne Hj]]%lookup_insert_Some Hgj.
    + rewrite lookup_insert_eq in Hgj. injection Hgj as <-. exists n. split; [done|]. split; [done|].
      rewrite total_insert, decide_True by done. simpl. rewrite Ht. split; [done|].
      split; [intros q'; etransitivity; [apply Hle|apply Ho]|done].
    + rewrite lookup_insert_ne in Hgj by done. rewrite total_insert, decide_False by done. by apply Hw.
  - intros q'. simpl. rewrite total_insert. specialize (Hb q').
    pose proof (sum_over_update (λ g, is_open g q') G i g (after_push q v g) Hg) as H1. simpl in H1.
    pose proof (sum_over_update (λ g, awaits g q') G i g (after_push q v g) Hg) as H2. simpl in H2.
    rewrite awaits_push in H2. pose proof (is_open_push g q v q' Hpos) as H3.
    destruct (decide (q' = q)) as [->|]; [|lia]. rewrite eofs_app, eofs_cons. simpl. lia.
  - intros q'. simpl. rewrite total_insert. specialize (Hbd q'). case_decide; [|done]. subst.
    rewrite length_app. simpl. lia.
  - intros q'. simpl. rewrite total_insert. destruct (decide (q' = q)) as [->|Hne].
    + destruct v as [x|]; [left; exists i, (after_push q (Some x) g); by rewrite lookup_insert_eq|].
      right. right. by rewrite last_snoc.
    + destruct (Hl q') as [(j & gj & Hgj & Hoj)|Hlast]; [left|by right].
      destruct (decide (j = i)) as [->|Hji]; [|exists j, gj; by rewrite lookup_insert_ne].
      exists i, (after_push q v g). rewrite lookup_insert_eq. split; [done|]. simplify_eq.
      pose proof (is_open_push g q v q' Hpos). rewrite decide_False in * by done. lia.
  - exact (data_push ns c i q v Hdt).
Qed.

Lemma net_inv_launch cap qs ns : closed_network cap qs ns → net_inv qs ns (duty <$> ns) (launch ns).
Proof.
  intros Hcn. split; simpl.
  - intros i. by rewrite !lookup_fmap, !fmap_is_Some.
  - intros i p g (n & <- & Hn)%lookup_fmap_Some (n' & <- & Hn')%lookup_fmap_Some. simplify_eq.
    exists n. split; [done|]. split; [done|]. rewrite lookup_total_empty. split; [done|].
    split; [done|]. split; [done|]. apply work_with_exception_spec. by apply (cn_wired _ _ _ Hcn) in Hn as [? _].
  - intros q. rewrite lookup_total_empty, !sum_over_fmap. simpl. rewrite Nat.add_0_r.
    apply (cn_balance _ _ _ Hcn q).
  - intros q. rewrite lookup_total_empty. simpl. lia.
  - intros q. right. left. by rewrite lookup_total_empty.
  - intros q. exists []. split; intros; by rewrite ?lookup_total_empty.
Qed.

Lemma net_inv_step cap qs aqs ns G c now i c' :
  closed_network cap qs ns → net_inv qs ns G c → step_thread qs aqs now i c = Some c' →
  ∃ G', net_inv qs ns G' c'.
Proof.
  intros Hcn Hinv Hstep. unfold step_thread in Hstep.
  destruct (threads c !! i) as [p|] eqn:Hp; simpl in Hstep; [|done].
  destruct (proj2 (ni_dom _ _ _ _ Hinv i)) as [g Hg]; [by rewrite Hp|].
  destruct p as [a|q k|q v k|a k|a v k|k|cr|S R body s k]; try done.
  - destruct (contents c !!! q) as [|v l] eqn:Hq; simpl in Hstep; [done|]. simplify_eq.
    exists (<[i := after_pop q v g]> G). by eapply net_inv_pop.
  - simpl in Hstep. case_decide; simplify_eq. exists (<[i := after_push q v g]> G). by apply net_inv_push.
  - exists G. destruct (aborts c !!! a) as [|x l]; simpl in Hstep; simplify_eq;
      apply (net_inv_quiet qs ns G c i _ _ g _ Hinv Hp Hg); intros Φ HΦ; by eapply WP_QTryPop_inv.
  - exists G. simpl in Hstep. case_decide; simplify_eq;
      apply (net_inv_quiet qs ns G c i _ _ g _ Hinv Hp Hg); intros Φ HΦ; by eapply WP_QTryPush_inv.
  - simplify_eq. exists G. apply (net_inv_quiet qs ns G c i _ _ g _ Hinv Hp Hg). intros Φ HΦ. by eapply WP_Now_inv.
  - simplify_eq. exists G. apply (net_inv_quiet qs ns G c i _ _ g _ Hinv Hp Hg). intros Φ HΦ. by apply WP_Loop_inv.
Qed.

Lemma runs_inv cap qs aqs ns c :
  closed_network cap qs ns → runs qs aqs ns c → ∃ G, net_inv qs ns G c.
Proof.
  intros Hcn. induction 1 as [|now i c c' _ [G HG] Hstep].
  - eexists. by eapply net_inv_launch.
  - by eapply net_inv_step.
Qed.

Lemma step_keeps_threads qs aqs now i c c' j :
  step_thread qs aqs now i c = Some c' → is_Some (threads c !! j) → is_Some (threads c' !! j).
Proof.
  unfold step_thread. destruct (threads c !! i) as [p|] eqn:Hp; simpl; [|done]. intros Hstep Hj.
  destruct p as [a|q k|q v k|a k|a v k|k|cr|S R body s k]; try done;
    repeat (case_match; try done); simplify_eq/=; rewrite lookup_insert_is_Some'; by right.
Qed.

(** ** Theorems *)

(** The writes to [q] by the coroutines, in some order that keeps the order of
    each of them. *)
Definition interleaves (q : qid) (tr : gmap Z (list (event T))) (l : list (option T)) : Prop :=
  ∃ log : list (Z * option T), log.*2 = l ∧ ∀ i, put q (tr !!! i) = by_writer i log.

(** What holds in every state: the process is ended only by [std::abort] in a
    node that may do so, no queue exceeds its capacity, and what the reader of
    a queue has read, followed by what is still in the queue, is an
    interleaving of what its writers have written. *)
Record safe (qs : list Z) ns c : Prop := {
  safe_die i cr : threads c !! i = Some (Die cr) → cr = StdAbort ∧ ∃ n, ns !! i = Some n ∧ may_end n = true;
  safe_bound q : (Z.of_nat (length (contents c !!! q)) ≤ Z.max 0 (qs !!! q))%Z;
  safe_data q i n : ns !! i = Some n → 0 < expects n q →
    interleaves q (traces c) (got q (traces c !!! i) ++ contents c !!! q);
}.

Lemma runs_safe cap qs aqs ns c : closed_network cap qs ns → runs qs aqs ns c → safe qs ns c.
Proof.
  intros Hcn Hr. destruct (runs_inv _ _ _ _ _ Hcn Hr) as [G [Hd Hw Hb Hbd Hl Hdt]].
  split; [|done|].
  - intros i cr Hi. destruct (proj2 (Hd i)) as [g Hg]; [by rewrite Hi|].
    destruct (Hw _ _ _ Hi Hg) as (n & Hn & Hm & _ & _ & _ & [-> Ha]%WP_Die_inv).
    split; [done|]. exists n. by rewrite <- Hm.
  - intros q i n Hn Hx. destruct (Hdt q) as (log & Hput & Hgot). exists log. split; [|done].
    symmetry. by apply (Hgot i n).
Qed.

(** *** The end *)

Definition finished (c : config) : Prop := ∀ i p, threads c !! i = Some p → ∃ r, p = Ret r.

Lemma last_eof (l : list (option T)) : last l = Some None → 0 < eofs l.
Proof.
  intros Hl. apply last_Some in Hl as [l' ->]. rewrite eofs_app. simpl. lia.
Qed.

Lemma settled_done g q : settled g → is_open g q = 0 ∧ awaits g q = 0.
Proof.
  intros [Hr Ho]. split; [|apply Hr]. unfold is_open. rewrite Ho. by rewrite decide_False by set_solver.
Qed.

(** What holds when all coroutines have returned: every queue is empty, every
    node has a result, the nodes that returned without an exception did what
    their class promises, and the reader of a queue has read an interleaving of
    all that its writers wrote. *)
Definition final_state ns c : Prop :=
  (∀ q, contents c !!! q = []) ∧
  (∀ i n, ns !! i = Some n → ∃ n' r, threads c !! i = Some (Ret (n', r)) ∧
     (r = Value tt → behaves n (user_state n') (traces c !!! i)) ∧
     ∀ q, 0 < expects n q → interleaves q (traces c) (got q (traces c !!! i))).

Lemma runs_final cap qs aqs ns c :
  closed_network cap qs ns → runs qs aqs ns c → finished c → final_state ns c.
Proof.
  intros Hcn Hr Hf. destruct (runs_inv _ _ _ _ _ Hcn Hr) as [G [Hd Hw Hb Hbd Hl Hdt]].
  assert (∀ i g, G !! i = Some g → settled g) as Hset.
  { intros i g Hg. destruct (proj1 (Hd i)) as [p Hp]; [by rewrite Hg|]. destruct (Hf _ _ Hp) as [[n' r] ->].
    destruct (Hw _ _ _ Hp Hg) as (n & _ & _ & _ & _ & _ & [? _]%WP_Ret_inv). done. }
  assert (∀ q, contents c !!! q = []) as Hempty.
  { intros q. destruct (Hl q) as [(i & g & Hg & Ho)|[Hnil|Hlast%last_eof]]; [|done|].
    - destruct (settled_done g q (Hset _ _ Hg)). lia.
    - specialize (Hb q). rewrite !sum_over_zero in Hb; [lia|..];
        intros i g Hg; by destruct (settled_done g q (Hset _ _ Hg)). }
  split; [done|]. intros i n Hn.
  assert (is_Some (threads c !! i)) as [p Hp].
  { clear -Hr Hn Hcn. induction Hr as [|now j c c' _ IH Hstep].
    - simpl. rewrite lookup_fmap, Hn. eauto.
    - by apply (step_keeps_threads qs aqs now j c). }
  destruct (Hf _ _ Hp) as [[n' r] ->]. destruct (proj2 (Hd i)) as [g Hg]; [by rewrite Hp|].
  destruct (Hw _ _ _ Hp Hg) as (n0 & Hn0 & _ & Ht & _ & _ & [_ Hbeh]%WP_Ret_inv). simplify_eq.
  exists n', r. split; [done|]. rewrite <- Ht. split; [done|].
  intros q Hx. destruct (Hdt q) as (log & Hput & Hgot). exists log. split; [|done].
  rewrite Ht, <- (Hgot i n Hn Hx), Hempty. by rewrite app_nil_r.
Qed.

(** *** Progress *)

(** Why a coroutine cannot take a step. *)
Inductive stuck (qs : list Z) (c : config) : thread → Prop :=
| stuck_ret r : stuck qs c (Ret r)
| stuck_die cr : stuck qs c (Die cr)
| stuck_pop q k : contents c !!! q = [] → stuck qs c (QPop q k)
| stuck_push q v k : (qs !!! q ≤ Z.of_nat (length (contents c !!! q)))%Z → stuck qs c (QPush q v k).

Lemma step_none qs aqs now i c p :
  threads c !! i = Some p → step_thread qs aqs now i c = None → stuck qs c p.
Proof.
  unfold step_thread. intros ->. simpl.
  destruct p as [a|q k|q v k|a k|a v k|k|cr|S R body s k]; try done; intros Hs; try by constructor.
  - constructor. by destruct (contents c !!! q).
  - simpl in Hs. case_decide; [done|]. constructor. lia.
  - by destruct (aborts c !!! a).
  - simpl in Hs. by case_decide.
Qed.

Lemma rank_bounded (rank : Z → nat) ns : ∃ N, ∀ i n, ns !! i = Some n → rank i ≤ N.
Proof.
  induction ns as [|i n ns Hi [N IH]] using map_ind; [by exists 0|]. exists (max (rank i) N).
  intros j m [[<- <-]|[_ Hj]]%lookup_insert_Some; [lia|]. apply IH in Hj. lia.
Qed.

Lemma expects_unique n q q' :
  is_concat (node_kind n) = false → 0 < expects n q → 0 < expects n q' → q = q'.
Proof.
  intros Hc. unfold expects, in_duty.
  destruct (node_kind n); try done; destruct (inq n) as [q0|]; try (rewrite ?lookup_total_empty; simpl; lia);
    rewrite <- insert_empty, !total_insert, !lookup_total_empty; repeat case_decide; simpl; congruence || lia.
Qed.

Definition is_ret (p : thread) : bool := match p with Ret _ => true | _ => false end.

(** A [Concat] waits for an element of an empty input while another of its inputs
    is full and a writer waits there for room. *)
Definition concat_blocked (qs : list Z) ns c : Prop :=
  ∃ j n q k q' i v k',
    ns !! j = Some n ∧ is_concat (node_kind n) = true ∧ 0 < expects n q ∧ 0 < expects n q' ∧
    threads c !! j = Some (QPop q k) ∧ contents c !!! q = [] ∧
    threads c !! i = Some (QPush q' v k') ∧ contents c !!! q' ≠ [] ∧
    (qs !!! q' ≤ Z.of_nat (length (contents c !!! q')))%Z.

Section progress.
Context (cap : Z → Prop) (qs : list Z) ns G (c : config).
Hypothesis Hcn : closed_network cap qs ns.
Hypothesis Hcap : ∀ k, cap k → (1 ≤ k)%Z.
Hypothesis Hinv : net_inv qs ns G c.
Hypothesis Hstuck : ∀ i p, threads c !! i = Some p → stuck qs c p.
Hypothesis Hlive : ∀ i cr, threads c !! i ≠ Some (Die cr).

(** A coroutine with duties on a queue is stuck on a queue of its own. *)
Lemma busy i g q :
  G !! i = Some g → 0 < is_open g q + awaits g q →
  ∃ n, ns !! i = Some n ∧ is_open g q ≤ writes n q ∧ awaits g q ≤ expects n q ∧
    ((∃ q' k, threads c !! i = Some (QPop q' k) ∧ contents c !!! q' = [] ∧
        0 < awaits g q' ∧ 0 < expects n q') ∨
     (∃ q' v k, threads c !! i = Some (QPush q' v k) ∧ 0 < is_open g q' ∧ 0 < writes n q' ∧
        contents c !!! q' ≠ [] ∧ (qs !!! q' ≤ Z.of_nat (length (contents c !!! q')))%Z)).
Proof using Hcn Hcap Hinv Hstuck Hlive.
  intros Hg Hduty. destruct (proj1 (ni_dom _ _ _ _ Hinv i)) as [p Hp]; [by rewrite Hg|].
  destruct (ni_wp _ _ _ _ Hinv _ _ _ Hp Hg) as (n & Hn & _ & _ & Ho & Ha & Hwp).
  exists n. split; [done|]. split; [apply Ho|]. split; [apply Ha|].
  pose proof (Hstuck _ _ Hp) as Hs. inversion Hs as [[n' r]|cr|q' k He|q' v k He]; subst.
  - apply WP_Ret_inv in Hwp as [Hset _]. destruct (settled_done g q Hset). lia.
  - by destruct (Hlive i cr).
  - left. exists q', k. apply WP_QPop_inv in Hwp as [Hpos _]. specialize (Ha q').
    unfold awaits in *. repeat split; [done|done|lia|lia].
  - right. exists q', v, k. apply WP_QPush_inv in Hwp as [Hin _].
    apply is_open_in in Hin as Ho1.
    specialize (Ho q'). split; [done|]. split; [lia|]. split; [lia|]. split; [|done].
    destruct (cn_cap _ _ _ Hcn q' i n Hn) as (k' & Hk' & Hpos%Hcap); [lia|].
    apply list_lookup_total_correct in Hk'. rewrite Hk' in He. intros Hnil. rewrite Hnil in He. simpl in He. lia.
Qed.

Lemma blocked_push rank (N : nat) :
  (∀ q a b na nb, ns !! a = Some na → ns !! b = Some nb → 0 < writes na q → 0 < expects nb q → rank a < rank b) →
  (∀ i n, ns !! i = Some n → rank i ≤ N) →
  ∀ m i q v k g n, N - rank i < m → ns !! i = Some n → G !! i = Some g → threads c !! i = Some (QPush q v k) →
    0 < is_open g q → 0 < writes n q → contents c !!! q ≠ [] →
    (qs !!! q ≤ Z.of_nat (length (contents c !!! q)))%Z → concat_blocked qs ns c.
Proof using Hcn Hcap Hinv Hstuck Hlive.
  intros Hrank HN. induction m as [|m IH]; intros i q v k g n Hm Hn Hg Hp Ho Hw Hne Hfull; [lia|].
  pose proof (ni_balance _ _ _ _ Hinv q) as Hb. pose proof (sum_over_le (λ g, is_open g q) G i g Hg) as Hle.
  simpl in Hle. destruct (sum_over_pos (λ g, awaits g q) G) as (j & gj & Hgj & Hj); [lia|].
  destruct (busy j gj q Hgj) as (nj & Hnj & Hoj & Haj & Hcase); [lia|].
  assert (rank i < rank j) as Hij by (apply (Hrank q i j n nj Hn Hnj); lia).
  destruct Hcase as [(q' & k' & Hpj & He & _ & Hxj)|(q' & v' & k' & Hpj & Hoj' & Hwj & Hej & Hfj)].
  - exists j, nj, q', k', q, i, v, k. assert (0 < expects nj q) by lia. split_and!; try done.
    destruct (is_concat (node_kind nj)) eqn:Hc; [done|]. destruct Hne. by rewrite (expects_unique nj q q').
  - pose proof (HN j nj Hnj). apply (IH j q' v' k' gj nj); eauto with lia.
Qed.

Lemma blocked_pop rank (N : nat) :
  (∀ q a b na nb, ns !! a = Some na → ns !! b = Some nb → 0 < writes na q → 0 < expects nb q → rank a < rank b) →
  (∀ i n, ns !! i = Some n → rank i ≤ N) →
  ∀ m i q k g n, rank i < m → ns !! i = Some n → G !! i = Some g → threads c !! i = Some (QPop q k) →
    contents c !!! q = [] → 0 < awaits g q → 0 < expects n q → concat_blocked qs ns c.
Proof using Hcn Hcap Hinv Hstuck Hlive.
  intros Hrank HN. induction m as [|m IH]; intros i q k g n Hm Hn Hg Hp He Ha Hx; [lia|].
  pose proof (ni_balance _ _ _ _ Hinv q) as Hb. pose proof (sum_over_le (λ g, awaits g q) G i g Hg) as Hle.
  simpl in Hle. rewrite He in Hb. simpl in Hb.
  destruct (sum_over_pos (λ g, is_open g q) G) as (j & gj & Hgj & Hj); [lia|].
  destruct (busy j gj q Hgj) as (nj & Hnj & Hoj & Haj & Hcase); [lia|].
  assert (rank j < rank i) as Hij by (apply (Hrank q j i nj n Hnj Hn); lia).
  destruct Hcase as [(q' & k' & Hpj & Hej & Hawj & Hxj)|(q' & v' & k' & Hpj & Hoj' & Hwj & Hej & Hfj)].
  - apply (IH j q' k' gj nj); eauto with lia.
  - apply (blocked_push rank N Hrank HN (S (N - rank j)) j q' v' k' gj nj); eauto with lia.
Qed.

Lemma stuck_finished : finished c ∨ concat_blocked qs ns c.
Proof using Hcn Hcap Hinv Hstuck Hlive.
  destruct (cn_acyclic _ _ _ Hcn) as [rank Hrank]. destruct (rank_bounded rank ns) as [N HN].
  destruct (decide (map_Forall (λ _ p, is_ret p = true) (threads c))) as [Hall|Hex].
  { left. intros i p Hp. apply Hall in Hp. destruct p as [r| | | | | | |]; try done. by exists r. }
  right. apply map_not_Forall in Hex; [|apply _]. destruct Hex as (i & p & Hp & Hr). destruct (proj2 (ni_dom _ _ _ _ Hinv i)) as [g Hg]; [by rewrite Hp|].
  destruct (ni_wp _ _ _ _ Hinv _ _ _ Hp Hg) as (n & Hn & _ & _ & Ho & Ha & Hwp).
  pose proof (Hstuck _ _ Hp) as Hs. inversion Hs as [r|cr|q k He|q v k He]; subst; [done|by destruct (Hlive i cr)|..].
  - apply WP_QPop_inv in Hwp as [Hpos _]. specialize (Ha q). unfold awaits in *.
    apply (blocked_pop rank N Hrank HN (S (rank i)) i q k g n); unfold awaits; auto with lia.
  - apply WP_QPush_inv in Hwp as [Hin _]. apply is_open_in in Hin as Ho1.
    destruct (busy i g q Hg) as (n' & Hn' & _ & _ & [(q' & k' & Hp' & _)|(q' & v' & k' & Hp' & H1 & H2 & H3 & H4)]); [lia|congruence|].
    by apply (blocked_push rank N Hrank HN (S (N - rank i)) i q' v' k' g n'); auto with lia.
Qed.

End progress.

(** A state without a next step, whatever the classes of the nodes. *)
Lemma runs_stuck cap qs aqs ns c :
  closed_network cap qs ns → (∀ k, cap k → (1 ≤ k)%Z) → runs qs aqs ns c →
  finished c ∨ (∃ i, threads c !! i = Some (Die StdAbort)) ∨
  (∃ now i c', step_thread qs aqs now i c = Some c') ∨ concat_blocked qs ns c.
Proof.
  intros Hcn Hcap Hr. destruct (runs_inv _ _ _ _ _ Hcn Hr) as [G HG].
  destruct (decide (set_Exists (λ i, is_Some (step_thread qs aqs 0 i c)) (dom (threads c)))) as [(i & _ & c' & Hs)|Hno].
  { right. right. left. by exists 0%Z, i, c'. }
  destruct (decide (map_Exists (λ _ p, is_die p = true) (threads c))) as [(i & p & Hp & Hd)|Hnd].
  { right. left. exists i. destruct p as [| | | | | |cr|]; try done.
    destruct (proj2 (ni_dom _ _ _ _ HG i)) as [g Hg]; [by rewrite Hp|].
    by destruct (ni_wp _ _ _ _ HG _ _ _ Hp Hg) as (n & _ & _ & _ & _ & _ & [-> _]%WP_Die_inv). }
  destruct (stuck_finished cap qs ns G c) as [Hf|Hc]; [done|done|done|..|by left|by right; right; right].
  - intros i p Hp. apply (step_none qs aqs 0 i c p Hp). apply eq_None_not_Some. intros Hs. apply Hno.
    exists i. split; [by apply elem_of_dom_2 in Hp|done].
  - intros i cr Hp. apply Hnd. by exists i, (Die cr).
Qed.

Lemma runs_progress cap qs aqs ns c :
  closed_network cap qs ns → (∀ k, cap k → (1 ≤ k)%Z) →
  (∀ i n, ns !! i = Some n → is_concat (node_kind n) = false) →
  runs qs aqs ns c →
  finished c ∨ (∃ i, threads c !! i = Some (Die StdAbort)) ∨
  ∃ now i c', step_thread qs aqs now i c = Some c'.
Proof.
  intros Hcn Hcap Hone Hr. destruct (runs_stuck _ _ _ _ _ Hcn Hcap Hr) as [?|[?|[?|Hc]]]; auto.
  destruct Hc as (j & n & q & k & q' & i & v & k' & Hn & Hk & _). by rewrite (Hone j n Hn) in Hk.
Qed.

(** *** A scheduler *)

(** One step of each coroutine in turn, for a number of rounds; a coroutine
    that cannot take a step is passed over. *)
Definition try_step (qs aqs : list Z) (now : Z) (c : config) (i : Z) : config :=
  default c (step_thread qs aqs now i c).
Fixpoint rounds (qs aqs : list Z) (ids : list Z) (fuel : nat) (c : config) : config :=
  match fuel with
  | 0 => c
  | S fuel => rounds qs aqs ids fuel (foldl (try_step qs aqs 0) c ids)
  end.

Lemma runs_rounds qs aqs ns ids fuel c : runs qs aqs ns c → runs qs aqs ns (rounds qs aqs ids fuel c).
Proof.
  revert c. induction fuel as [|fuel IH]; intros c Hc; [done|]. simpl. apply IH. clear IH.
  revert c Hc. induction ids as [|i ids IH]; intros c Hc; [done|]. simpl. apply IH. unfold try_step.
  destruct (step_thread qs aqs 0 i c) as [c'|] eqn:Hs; [|done]. by apply (runs_step _ _ _ 0 i c c').
Qed.

(** Decision procedures for the ends of a run. *)
Definition finished_b (c : config) : bool := forallb (λ ip, is_ret ip.2) (map_to_list (threads c)).
Definition is_stuck (qs : list Z) (c : config) (p : thread) : bool :=
  match p with
  | Ret _ | Die _ => true
  | QPop q _ => match contents c !!! q with [] => true | _ => false end
  | QPush q _ _ => bool_decide (qs !!! q ≤ Z.of_nat (length (contents c !!! q)))%Z
  | _ => false
  end.
Definition stuck_b (qs : list Z) (c : config) : bool := forallb (λ ip, is_stuck qs c ip.2) (map_to_list (threads c)).

Lemma finished_b_spec c : finished_b c = true ↔ finished c.
Proof.
  unfold finished_b, finished. rewrite forallb_forall. split.
  - intros Hf i p Hp. assert (is_ret p = true) as Hr by (by apply (Hf (i, p)), list_elem_of_In, elem_of_map_to_list).
    destruct p as [r| | | | | | |]; try done. by exists r.
  - intros Hf [i p] Hp%list_elem_of_In%elem_of_map_to_list. simpl. by destruct (Hf i p Hp) as [r ->].
Qed.

Lemma stuck_b_spec qs aqs c : stuck_b qs c = true → ∀ now i, step_thread qs aqs now i c = None.
Proof.
  unfold stuck_b. rewrite forallb_forall. intros Hs now i. unfold step_thread.
  destruct (threads c !! i) as [p|] eqn:Hp; [|done]. simpl.
  assert (is_stuck qs c p = true) as Hp' by (by apply (Hs (i, p)), list_elem_of_In, elem_of_map_to_list).
  destruct p as [a|q k|q v k|a k|a v k|k|cr|S R body st k]; try done; simpl in *.
  - by destruct (contents c !!! q).
  - apply bool_decide_eq_true in Hp'. by rewrite decide_False by lia.
Qed.

End network.

(** ** The theorems, for pipelines built through the interface *)

Section pipelines.
Context {T U : Type} (GetTransferredBytes : T → Z) `{Inhabited U} `{HashOrderLaws}.
Implicit Types (s : state T U) (c : config (T := T) (U := U)).

(** [c] is a state of the coroutines that [Run] has launched. *)
Definition running (garbage ex : Z) s (s' : state T U) c : Prop :=
  (∃ l, Run_launch garbage (Some ex) s = (s', Ok l)) ∧
  runs GetTransferredBytes (queues s'.1) (abort_queues s'.1) (nodes_ s'.2) c.

Lemma running_completed garbage ex s s' c : running garbage ex s s' c → leaves_ s.2 = ∅ ∧ nodes_ s.2 ≠ ∅.
Proof.
  intros [[l Hl] _]. unfold Run_launch, mbind, B_bind, get, IsCompleted in Hl. simpl in Hl.
  destruct (decide (leaves_ s.2 = ∅)) as [Hlv|Hlv]; [|by rewrite bool_decide_false in Hl]. split; [done|].
  intros Hns. rewrite bool_decide_true in Hl by done. simpl in Hl. by rewrite decide_True in Hl.
Qed.

Lemma running_launched garbage ex s s' c :
  running garbage ex s s' c → nodes_ s'.2 = launched garbage s <$> nodes_ s.2.
Proof.
  intros Hr. destruct (running_completed _ _ _ _ _ Hr) as [Hlv Hns]. destruct Hr as [[l Hl] _].
  destruct (Run_launch_returns garbage ex s Hlv Hns) as (s1 & l1 & Hrun & _ & Hn & _). rewrite Hrun in Hl. by simplify_eq.
Qed.

Lemma running_network cap garbage ex s s' c :
  closed_network cap (queues s.1) (nodes_ s.2) → running garbage ex s s' c →
  closed_network cap (queues s'.1) (nodes_ s'.2) ∧
  (bind_abort_channel (option_ s.2) = true → ∀ id n, nodes_ s'.2 !! id = Some n → may_end n = false) ∧
  nodes_ s'.2 = launched garbage s <$> nodes_ s.2.
Proof.
  intros Hcn Hr. destruct (running_completed _ _ _ _ _ Hr) as [Hlv Hns]. destruct Hr as [[l Hl] _].
  destruct (Run_launch_spec _ garbage ex s Hcn Hlv Hns) as (s1 & l1 & Hrun & Hq & _ & Hn & Hc & Hm).
  rewrite Hrun in Hl. simplify_eq. by rewrite Hq.
Qed.

Lemma reaches_closed option garbage ex s s' c :
  reaches option s → self_contained (nodes_ s.2) → running garbage ex s s' c →
  closed_network (eq (channel_size (option_ s.2))) (queues s.1) (nodes_ s.2).
Proof.
  intros Hs Hsc Hr. apply built_closed; [by eapply reaches_built| |done]. by eapply running_completed.
Qed.

Lemma running_closed option garbage ex s s' c :
  reaches option s → self_contained (nodes_ s.2) → running garbage ex s s' c →
  closed_network (eq (channel_size (option_ s.2))) (queues s'.1) (nodes_ s'.2) ∧
  (bind_abort_channel (option_ s.2) = true → ∀ id n, nodes_ s'.2 !! id = Some n → may_end n = false) ∧
  nodes_ s'.2 = launched garbage s <$> nodes_ s.2.
Proof.
  intros Hs Hsc Hr. eapply running_network; [|done]. by eapply reaches_closed.
Qed.

Lemma launch_running garbage ex s :
  leaves_ s.2 = ∅ → nodes_ s.2 ≠ ∅ →
  let s' := (Run_launch garbage (Some ex) s).1 in
  running garbage ex s s' (launch GetTransferredBytes (nodes_ s'.2)).
Proof.
  intros Hlv Hns. split; [|constructor].
  destruct (Run_launch_returns garbage ex s Hlv Hns) as (s' & l & Hrun & _). exists l. by rewrite Hrun.
Qed.

(** Only [std::abort] ends the process, if [bind_abort_channel] is not set. *)
Lemma running_dies cap garbage ex s s' c i cr :
  closed_network cap (queues s.1) (nodes_ s.2) → running garbage ex s s' c → threads c !! i = Some (Die cr) →
  cr = StdAbort ∧ bind_abort_channel (option_ s.2) = false.
Proof.
  intros Hcn Hr Hi. destruct (running_network _ _ _ _ _ _ Hcn Hr) as (Hc & Hm & _).
  destruct (runs_safe _ _ _ _ _ _ Hc (proj2 Hr)) as [Hdie _ _].
  destruct (Hdie i cr Hi) as (-> & n & Hn & He). split; [done|]. apply not_true_is_false. intros Hb.
  by rewrite (Hm Hb i n Hn) in He.
Qed.

Lemma running_progress cap garbage ex s s' c :
  closed_network cap (queues s.1) (nodes_ s.2) → running garbage ex s s' c → (∀ z, cap z → (1 ≤ z)%Z) →
  (∀ i n, nodes_ s.2 !! i = Some n → is_concat (node_kind n) = false) →
  finished c ∨ (∃ now i c', step_thread (queues s'.1) (abort_queues s'.1) now i c = Some c') ∨
  (∃ i, threads c !! i = Some (Die StdAbort)) ∧ bind_abort_channel (option_ s.2) = false.
Proof.
  intros Hcn Hr Hcap Hone. destruct (running_network _ _ _ _ _ _ Hcn Hr) as (Hc & Hm & Hns).
  destruct (runs_progress GetTransferredBytes _ _ (abort_queues s'.1) _ c Hc) as [?|[(i & Hi)|?]]; eauto.
  - intros i n. rewrite Hns. intros (n0 & <- & Hn0)%lookup_fmap_Some. apply Hone in Hn0.
    unfold launched. by destruct (bind_abort_channel (option_ s.2)).
  - apply Hr.
  - right. right. split; [eauto|]. by eapply running_dies.
Qed.

(** C1: However the coroutines of a pipeline without [ChannelSource]s and
    [ChannelSink]s are interleaved, no coroutine
    dereferences a null pointer or fails an assertion, the process is not ended
    if [bind_abort_channel] is set and ended only by [std::abort] otherwise, no
    queue exceeds [channel_size], and what the reader of a queue has read,
    followed by what is still in the queue, is an interleaving of what its
    writers have written: nothing is lost, duplicated or reordered. *)
Theorem network_safety option garbage ex s s' c :
  reaches option s → self_contained (nodes_ s.2) → running garbage ex s s' c →
  (∀ i cr, threads c !! i = Some (Die cr) → cr = StdAbort ∧ bind_abort_channel (option_ s.2) = false) ∧
  (∀ q, (Z.of_nat (length (contents c !!! q)) ≤ Z.max 0 (queues s'.1 !!! q))%Z) ∧
  (∀ q i n, nodes_ s'.2 !! i = Some n → 0 < expects n q →
     queues s'.1 !! q = Some (channel_size (option_ s.2)) ∧
     interleaves q (traces c) (got q (traces c !!! i) ++ contents c !!! q)).
Proof.
  intros Hs Hsc Hr. destruct (running_closed _ _ _ _ _ _ Hs Hsc Hr) as (Hc & _ & _).
  destruct (runs_safe _ _ _ _ _ _ Hc (proj2 Hr)) as [_ Hbound Hdata]. split; [|split; [done|]].
  - intros i cr Hi. eapply running_dies; [|done..]. by eapply reaches_closed.
  - intros q i n Hn Hx. split; [|eauto]. destruct (cn_cap _ _ _ Hc q i n Hn) as (k & ? & ->); [lia|done].
Qed.

(** C2: When all coroutines of a pipeline that is not joined to others by
    channels have returned, every queue is empty,
    every node has a result, the nodes that returned without an exception did
    what their class promises, and the reader of a queue has read an
    interleaving of all that its writers wrote. *)
Theorem network_finished option garbage ex s s' c :
  reaches option s → self_contained (nodes_ s.2) → running garbage ex s s' c → finished c → final_state (nodes_ s'.2) c.
Proof.
  intros Hs Hsc Hr. destruct (running_closed _ _ _ _ _ _ Hs Hsc Hr) as (Hc & _).
  by apply (runs_final _ _ _ _ _ _ Hc (proj2 Hr)).
Qed.

(** C3: A pipeline without [Concat], [ChannelSource] and [ChannelSink] nodes and with a positive [channel_size]
    cannot deadlock: in every state reached by any interleaving, all coroutines
    have returned, or some coroutine can take a step, or the process has been
    ended by [std::abort], which [bind_abort_channel] excludes. *)
Theorem network_no_deadlock option garbage ex s s' c :
  reaches option s → self_contained (nodes_ s.2) → running garbage ex s s' c → (1 ≤ channel_size (option_ s.2))%Z →
  (∀ i n, nodes_ s.2 !! i = Some n → is_concat (node_kind n) = false) →
  finished c ∨ (∃ now i c', step_thread (queues s'.1) (abort_queues s'.1) now i c = Some c') ∨
  (∃ i, threads c !! i = Some (Die StdAbort)) ∧ bind_abort_channel (option_ s.2) = false.
Proof.
  intros Hs Hsc Hr Hcap Hone. eapply running_progress; [|done| |done].
  - by eapply reaches_closed.
  - by intros z <-.
Qed.

(** C36: The shape of every deadlock: in a pipeline with a positive [channel_size]
    and without [ChannelSource]s and [ChannelSink]s, a state in which no
    coroutine can take a step, not all have returned and none has ended the
    process has a [Concat] that waits for an element of an empty input while
    another of its inputs is full and a writer waits there for room. *)
Theorem deadlock_shape option garbage ex s s' c :
  reaches option s → self_contained (nodes_ s.2) → running garbage ex s s' c → (1 ≤ channel_size (option_ s.2))%Z →
  ¬ finished c → (∀ i, threads c !! i ≠ Some (Die StdAbort)) →
  (∀ now i, step_thread (queues s'.1) (abort_queues s'.1) now i c = None) →
  concat_blocked (queues s'.1) (nodes_ s'.2) c.
Proof.
  intros Hs Hsc Hr Hsize Hf Hd Hstep. destruct (running_closed _ _ _ _ _ _ Hs Hsc Hr) as (Hc & _).
  destruct (runs_stuck _ _ _ _ _ _ Hc ltac:(by intros k <-) (proj2 Hr)) as [?|[[i Hi]|[(now & i & c' & Hn)|?]]]; [done| | |done].
  - by destruct (Hd i).
  - by rewrite Hstep in Hn.
Qed.

(** C9: A merged pipeline, if no [ChannelSource] or [ChannelSink] is left in it,
    runs as one that was built: however its coroutines
    are interleaved, no coroutine dereferences a null pointer or fails an
    assertion; what the reader of a queue has read, followed by what is still
    in the queue, is an interleaving of what its writers have written, across
    the NoOps that join the two pipelines as well; when all coroutines have
    returned, every queue is empty and the nodes without exception did what
    their class promises; and without [Concat] nodes and with positive channel
    sizes there is no deadlock. *)
Theorem merged_network option option' w left right p0 s p garbage ex s' c :
  pair_reaches option option' w left right → (id_ w + Z.of_nat (length (sinks_ left)) < 2 ^ 64)%Z →
  MergePipeline left right (w, p0) = (s, Ok p) → self_contained (nodes_ p) → running garbage ex (s.1, p) s' c →
  (∀ i cr, threads c !! i = Some (Die cr) → cr = StdAbort ∧ bind_abort_channel (option_ p) = false) ∧
  (∀ q i n, nodes_ s'.2 !! i = Some n → 0 < expects n q →
     interleaves q (traces c) (got q (traces c !!! i) ++ contents c !!! q)) ∧
  (finished c → final_state (nodes_ s'.2) c) ∧
  ((1 ≤ channel_size (option_ left))%Z → (1 ≤ channel_size (option_ right))%Z →
   (∀ i n, nodes_ p !! i = Some n → is_concat (node_kind n) = false) →
   finished c ∨ (∃ now i c', step_thread (queues s'.1) (abort_queues s'.1) now i c = Some c') ∨
   (∃ i, threads c !! i = Some (Die StdAbort)) ∧ bind_abort_channel (option_ p) = false).
Proof.
  intros Hp H64 Hm Hsc Hr. pose proof (open_closed _ _ _ (merge_network _ _ _ _ _ _ _ _ Hp H64 Hm) Hsc) as Hcn.
  destruct (running_network _ _ _ (s.1, p) _ _ Hcn Hr) as (Hc & _ & _).
  destruct (runs_safe _ _ _ _ _ _ Hc (proj2 Hr)) as [_ _ Hdata]. split_and!; [|eauto|..].
  - intros i cr Hi. by eapply (running_dies _ _ _ (s.1, p)).
  - intros Hf. by apply (runs_final _ _ _ _ _ _ Hc (proj2 Hr)).
  - intros Hl Hri Hone. eapply (running_progress _ _ _ (s.1, p)); [done|done| |done]. by intros z [<-|<-].
Qed.

End pipelines.

(** ** Pipelines at work *)

Module SampleRun.

Definition bytes (x : Z) : Z := 8.

(** A source of the numbers below [n]; its state is the next one. *)
Definition numbers (n : Z) : kind Z Z :=
  KSource (λ u, if decide (u < n)%Z then ((u + 1)%Z, Value (Some u)) else (u, Value None)).
Definition source (id n : Z) : node Z Z := make_node id "numbers" 0 0 (numbers n) 0%Z.
Definition drop_odd (id : Z) : node Z Z := make_node id "drop_odd" 0 0 (KFilter (λ u x, (u, Value (Z.odd x)))) 0%Z.
Definition sink (id : Z) : node Z Z := make_node id "sink" 0 0 KDumpSink 0%Z.

Definition option : PipelineOption := MkPipelineOption true 1 "run".
Definition start : state Z Z := (World 10 [] [], Pipeline_init option).

(** Two sources merged into a filter, forked and merged again into a sink. *)
Definition merging : list (api (T := Z) (U := Z)) :=
  [ CallAddSource (source 1 3); CallAddSource (source 2 4); CallMerge (drop_odd 3);
    CallForkFrom 3 2; CallSetSink (sink 4) ].
(** A source, forked and concatenated into a sink. *)
Definition diamond : list (api (T := Z) (U := Z)) :=
  [ CallAddSource (source 1 9); CallForkFrom 1 2; CallConcatFrom [11; 12]%Z; CallSetSink (sink 4) ].

Definition built_of (calls : list (api (T := Z) (U := Z))) : state Z Z := exec_all calls start.
Definition launched_of (calls : list (api (T := Z) (U := Z))) : state Z Z :=
  (Run_launch 0 (Some 1%Z) (built_of calls)).1.

Lemma merging_legal : legal_all merging start.
Proof.
  unfold merging. cbn [legal_all]. repeat (split; [|]); try done.
  all: first [by apply (bool_decide_unpack _)|vm_compute; intuition congruence].
Qed.
Lemma diamond_legal : legal_all diamond start.
Proof.
  unfold diamond. cbn [legal_all]. repeat (split; [|]); try done.
  all: first [by apply (bool_decide_unpack _)|vm_compute; intuition congruence].
Qed.

Definition run_of (calls : list (api (T := Z) (U := Z))) (fuel : nat) : config (T := Z) (U := Z) :=
  let s := launched_of calls in
  rounds (queues s.1) (abort_queues s.1) (elements (dom (nodes_ s.2))) fuel (launch bytes (nodes_ s.2)).

Lemma run_of_running calls fuel :
  legal_all calls start → leaves_ (built_of calls).2 = ∅ → nodes_ (built_of calls).2 ≠ ∅ →
  reaches option (built_of calls) ∧ running bytes 0 1 (built_of calls) (launched_of calls) (run_of calls fuel).
Proof.
  intros Hl Hlv Hns. assert (reaches option (built_of calls)) as Hs.
  { apply reaches_all; [|done]. by apply (reaches_init option). }
  split; [done|]. split; [|apply runs_rounds; constructor].
  apply (launch_running bytes 0 1 (built_of calls) Hlv Hns).
Qed.

Lemma merging_contained : self_contained (nodes_ (built_of merging).2).
Proof. decide_now. Qed.
Lemma diamond_contained : self_contained (nodes_ (built_of diamond).2).
Proof. decide_now. Qed.

Lemma merging_run fuel :
  reaches option (built_of merging) ∧
  running bytes 0 1 (built_of merging) (launched_of merging) (run_of merging fuel).
Proof.
  apply run_of_running; [apply merging_legal|vm_compute; reflexivity|].
  intros He. apply (f_equal size) in He. vm_compute in He. discriminate.
Qed.

Lemma diamond_run fuel :
  reaches option (built_of diamond) ∧
  running bytes 0 1 (built_of diamond) (launched_of diamond) (run_of diamond fuel).
Proof.
  apply run_of_running; [apply diamond_legal|vm_compute; reflexivity|].
  intros He. apply (f_equal size) in He. vm_compute in He. discriminate.
Qed.

Lemma network_safety_witness :
  (∀ i cr, threads (run_of diamond 20) !! i = Some (Die cr) →
     cr = StdAbort ∧ bind_abort_channel (option_ (built_of diamond).2) = false) ∧
  (∀ q, (Z.of_nat (length (contents (run_of diamond 20) !!! q)) ≤ Z.max 0 (queues (launched_of diamond).1 !!! q))%Z) ∧
  (∀ q i n, nodes_ (launched_of diamond).2 !! i = Some n → 0 < expects n q →
     queues (launched_of diamond).1 !! q = Some (channel_size (option_ (built_of diamond).2)) ∧
     interleaves q (traces (run_of diamond 20))
       (got q (traces (run_of diamond 20) !!! i) ++ contents (run_of diamond 20) !!! q)).
Proof.
  apply (network_safety bytes option 0 1 (built_of diamond) (launched_of diamond) (run_of diamond 20)).
  - apply (diamond_run 20).
  - apply diamond_contained.
  - apply (diamond_run 20).
Defined.

(** The sink of [merging] has read two copies of the even numbers of both
    sources. *)
Lemma network_finished_witness :
  final_state (nodes_ (launched_of merging).2) (run_of merging 300) ∧
  got 4 (traces (run_of merging 300) !!! 4%Z) =
    (Some <$> [0; 0; 0; 0; 2; 2; 2; 2]%Z) ++ [None; None].
Proof.
  split; [|vm_compute; reflexivity].
  apply (network_finished bytes option 0 1 (built_of merging) (launched_of merging) (run_of merging 300)).
  - apply (merging_run 300).
  - apply merging_contained.
  - apply (merging_run 300).
  - apply finished_b_spec. vm_compute. reflexivity.
Defined.

Lemma network_no_deadlock_witness :
  finished (run_of merging 25) ∨
  (∃ now i c', step_thread (queues (launched_of merging).1) (abort_queues (launched_of merging).1) now i
                 (run_of merging 25) = Some c') ∨
  (∃ i, threads (run_of merging 25) !! i = Some (Die StdAbort)) ∧
  bind_abort_channel (option_ (built_of merging).2) = false.
Proof.
  apply (network_no_deadlock bytes option 0 1 (built_of merging) (launched_of merging) (run_of merging 25)).
  - apply (merging_run 25).
  - apply merging_contained.
  - apply (merging_run 25).
  - vm_compute. discriminate.
  - apply map_Forall_lookup, (bool_decide_unpack _). vm_compute. reflexivity.
Defined.

Lemma diamond_alive i : threads (run_of diamond 300) !! i ≠ Some (Die StdAbort).
Proof.
  intros Hd. destruct (diamond_run 300) as [Hs Hr].
  destruct (running_closed _ _ _ _ _ _ _ Hs diamond_contained Hr) as (Hc & Hm & _).
  destruct (runs_safe _ _ _ _ _ _ Hc (proj2 Hr)) as [Hdie _ _].
  destruct (Hdie _ _ Hd) as (_ & n & Hn & He). rewrite (Hm eq_refl i n Hn) in He. discriminate.
Qed.

(** Such a deadlock: a source of nine numbers, forked into two branches that are
    concatenated, with [channel_size] 1. *)
Lemma deadlock_shape_witness :
  channel_size (option_ (built_of diamond).2) = 1%Z ∧
  (∀ now i, step_thread (queues (launched_of diamond).1) (abort_queues (launched_of diamond).1) now i (run_of diamond 300) = None) ∧
  ¬ finished (run_of diamond 300) ∧
  concat_blocked (queues (launched_of diamond).1) (nodes_ (launched_of diamond).2) (run_of diamond 300).
Proof.
  assert (∀ now i, step_thread (queues (launched_of diamond).1) (abort_queues (launched_of diamond).1) now i
            (run_of diamond 300) = None) as Hstuck by (apply stuck_b_spec; vm_compute; reflexivity).
  assert (¬ finished (run_of diamond 300)) as Hf by (intros Hf%finished_b_spec; vm_compute in Hf; discriminate).
  split; [vm_compute; reflexivity|]. split; [exact Hstuck|]. split; [exact Hf|].
  apply (deadlock_shape bytes option 0 1 (built_of diamond) (launched_of diamond) (run_of diamond 300)).
  - apply (diamond_run 300).
  - apply diamond_contained.
  - apply (diamond_run 300).
  - vm_compute. discriminate.
  - exact Hf.
  - apply diamond_alive.
  - exact Hstuck.
Defined.

(** *** A merged pipeline *)

Definition merge_of_two : state Z Z * outcome (Pipeline Z Z) :=
  MergePipeline SampleMerge.left SampleMerge.right (SampleMerge.world, SampleMerge.left).
Definition joined : Pipeline Z Z := match merge_of_two.2 with Ok p => p | _ => SampleMerge.left end.
Definition joined_start : state Z Z := (Run_launch 0 (Some 1%Z) (merge_of_two.1.1, joined)).1.
Definition joined_run (fuel : nat) : config (T := Z) (U := Z) :=
  rounds (queues joined_start.1) (abort_queues joined_start.1) (elements (dom (nodes_ joined_start.2))) fuel
    (launch bytes (nodes_ joined_start.2)).

Lemma joined_merge :
  MergePipeline SampleMerge.left SampleMerge.right (SampleMerge.world, SampleMerge.left) = (merge_of_two.1, Ok joined).
Proof. vm_compute. reflexivity. Qed.

Lemma joined_running fuel : running bytes 0 1 (merge_of_two.1.1, joined) joined_start (joined_run fuel).
Proof.
  split; [|apply runs_rounds; constructor].
  destruct (Run_launch_returns 0 1 (merge_of_two.1.1, joined)) as (s' & l & Hrun & _).
  - vm_compute. reflexivity.
  - intros He. apply (f_equal size) in He. vm_compute in He. discriminate.
  - exists l. unfold joined_start. by rewrite Hrun.
Qed.

(** The even numbers of the left source have passed both NoOps and reached the
    sink of the right pipeline, which the run leaves with empty queues. *)
Lemma merged_network_witness :
  (∀ i cr, threads (joined_run 100) !! i = Some (Die cr) → cr = StdAbort ∧ bind_abort_channel (option_ joined) = false) ∧
  (∀ q i n, nodes_ joined_start.2 !! i = Some n → 0 < expects n q →
     interleaves q (traces (joined_run 100)) (got q (traces (joined_run 100) !!! i) ++ contents (joined_run 100) !!! q)) ∧
  final_state (nodes_ joined_start.2) (joined_run 100) ∧
  got 5 (traces (joined_run 100) !!! 7%Z) = (Some <$> [0; 0; 2; 2]%Z) ++ [None].
Proof.
  destruct (merged_network bytes SampleMerge.first SampleMerge.second SampleMerge.world SampleMerge.left SampleMerge.right
      SampleMerge.left merge_of_two.1 joined 0 1 joined_start (joined_run 100) SampleMerge.pair_finished_reaches)
    as (Hdie & Hdata & Hfin & _).
  - vm_compute. reflexivity.
  - apply joined_merge.
  - decide_now.
  - apply joined_running.
  - split; [done|]. split; [done|]. split; [|vm_compute; reflexivity].
    apply Hfin, finished_b_spec. vm_compute. reflexivity.
Defined.

End SampleRun.
