(* ===== verification/Termination.v ===== *)
(** * Termination of pipelines

    Every run of a closed network whose sources end is finite, whatever the
    interleaving.  A coroutine takes finitely many steps for each element it
    reads ([halts]); it reads what the coroutines before it have written; and
    the network has no cycle.  With the absence of deadlock, every run that is
    not stopped ends with all coroutines returned, and without exceptions if
    the user's functions throw none. *)

From Stdlib Require Import Sorted.
From stdpp Require Import base functions gmap strings fin_maps fin_sets list sorting.
From S2P Require Import Prelude Queue Events Coro Processor Nodes PortLogic NodeProtocol NodeRun Pipeline PipelineInv Builder Frame Merge Network.

(** ** Coroutines that halt *)

Section halts.
Context {T : Type}.

(** With [n] elements to be read, [p] halts or waits for more; a result comes
    with the number of elements that are left.  A loop has an invariant and an
    order in which its turns decrease. *)
Fixpoint halts {A} (n : nat) (p : prog T A) (Φ : A → nat → Prop) : Prop :=
  match p with
  | Ret a => Φ a n
  | QPop q k => match n with 0 => True | S m => ∀ v, halts m (k v) Φ end
  | QPush q v k => halts n k Φ
  | QTryPop q k => ∀ r, halts n (k r) Φ
  | QTryPush q v k => ∀ b, halts n (k b) Φ
  | Now k => ∀ t, halts n (k t) Φ
  | Die c => True
  | Loop body s k =>
      ∃ (I : _ → nat → Prop) (lt : _ * nat → _ * nat → Prop), well_founded lt ∧ I s n ∧
        ∀ s n, I s n → halts n (body s) (λ r m, match r with
                                                | inl s' => I s' m ∧ lt (s', m) (s, n)
                                                | inr r => halts m (k r) Φ
                                                end)
  end.

Lemma halts_mono {A} n (p : prog T A) (Φ Ψ : A → nat → Prop) :
  (∀ a m, Φ a m → Ψ a m) → halts n p Φ → halts n p Ψ.
Proof.
  revert n Φ Ψ. induction p as [A a|A q k IH|A q v k IH|A q k IH|A q v k IH|A k IH|A c|A S R body IHb s k IHk];
    intros n Φ Ψ HΦ; simpl; eauto.
  - destruct n; eauto.
  - intros (I & lt & Hwf & Hs & Hb). exists I, lt. split; [done|]. split; [done|]. intros s' m Hs'.
    eapply IHb; [|by apply Hb]. intros [s''|r]; simpl; eauto.
Qed.

Lemma halts_pbind {A B} n (p : prog T A) (f : A → prog T B) Φ :
  halts n p (λ a m, halts m (f a) Φ) → halts n (pbind f p) Φ.
Proof.
  revert n. induction p as [A a|A q k IH|A q v k IH|A q k IH|A q v k IH|A k IH|A c|A S R body IHb s k IHk];
    intros n; simpl; eauto.
  - destruct n; eauto.
  - intros (I & lt & Hwf & Hs & Hb). exists I, lt. split; [done|]. split; [done|]. intros s' m Hs'.
    eapply halts_mono; [|by apply Hb]. intros [s''|r]; simpl; eauto.
Qed.

Lemma halts_rets {A} n (P : A → Prop) (p : prog T A) (Φ : A → nat → Prop) :
  rets P p → halts n p Φ → halts n p (λ a m, Φ a m ∧ P a).
Proof.
  revert n P Φ. induction p as [A a|A q k IH|A q v k IH|A q k IH|A q v k IH|A k IH|A c|A S R body IHb s k IHk];
    intros n P Φ; simpl; try (by eauto).
  - destruct n; eauto.
  - intros (J & Hj & HJ) (I & lt & Hwf & Hs & Hb). exists (λ s m, I s m ∧ J s), lt. split; [done|].
    split; [done|]. intros s' m [Hs' Hj']. eapply halts_mono; [|by apply (IHb _ _ _ _ (HJ _ Hj') (Hb _ _ Hs'))].
    intros [s''|r] m'; simpl; [naive_solver|]. intros [Hk Hr]. by apply IHk.
Qed.

(** A coroutine all of whose loop turns read halts. *)
Lemma productive_halts {A} n (P : A → Prop) (p : prog T A) :
  productive p → unpopped P p → halts n p (λ a m, m ≤ n ∧ (P a ∨ m < n)).
Proof.
  revert n P. induction p as [A a|A q k IH|A q v k IH|A q k IH|A q v k IH|A k IH|A c|A S R body IHb s k IHk];
    intros n P; simpl; eauto.
  - intros Hk _. destruct n as [|n]; [done|]. intros v.
    eapply halts_mono; [|apply (IH v n (λ _, True)); [done|by apply unpopped_True]]. simpl. intros a m [? _]. lia.
  - intros [Hb Hk] Hu. exists (λ s' m, s' = s ∧ m = n ∨ m < n), (λ x y, x.2 < y.2). split; [|split; [by left|]].
    { apply (wf_projected lt snd); [done|]. apply lt_wf. }
    intros s' m [[-> ->]|Hlt].
    + eapply halts_mono; [|apply (IHb s n (λ r, match r with inl _ => False | inr r => unpopped P (k r) end));
        [apply Hb|done]].
      intros [s''|r] m [Hle Hor]; simpl; [destruct Hor; [done|]; simpl; lia|].
      destruct Hor as [Hr|Hlt]; [eapply halts_mono; [|by apply (IHk r m P)]; simpl; naive_solver lia|].
      eapply halts_mono; [|apply (IHk r m (λ _, True)); [done|by apply unpopped_True]]. simpl. intros a m'. lia.
    + eapply halts_mono; [|apply (IHb s' m (λ r, match r with inl _ => False | inr _ => True end)); apply Hb].
      intros [s''|r] m' [Hle Hor]; simpl; [destruct Hor; [done|]; lia|].
      eapply halts_mono; [|apply (IHk r m' (λ _, True)); [done|by apply unpopped_True]]. simpl. intros a m''. lia.
Qed.

(** *** Steps of a coroutine *)

(** [y] is [x] after one step: a read takes one of the elements. *)
Definition next {A} (y x : nat * prog T A) : Prop :=
  match x.2 with
  | Ret _ | Die _ => False
  | QPop q k => ∃ v, x.1 = S y.1 ∧ y.2 = k v
  | QPush q v k => y = (x.1, k)
  | QTryPop q k => ∃ r, y = (x.1, k r)
  | QTryPush q v k => ∃ b, y = (x.1, k b)
  | Now k => ∃ t, y = (x.1, k t)
  | Loop body s k => y = (x.1, unroll body s k)
  end.

Lemma loop_acc {A S R} (body : S → prog T (S + R)) (k : R → prog T A) I lt Φ s n :
  (∀ s B (f : S + R → prog T B) n Φ, halts n (body s) Φ → (∀ a m, Φ a m → Acc next (m, f a)) →
     Acc next (n, pbind f (body s))) →
  well_founded lt →
  (∀ s n, I s n → halts n (body s) (λ r m, match r with
                                           | inl s' => I s' m ∧ lt (s', m) (s, n)
                                           | inr r => Φ r m
                                           end)) →
  (∀ r m, Φ r m → Acc next (m, k r)) → I s n → Acc next (n, Loop body s k).
Proof.
  intros Hbind Hwf Hb Hk. remember (s, n) as x eqn:Hx. revert s n Hx.
  induction (Hwf x) as [x _ IH]. intros s n -> HI. constructor. intros [m p] Hn.
  unfold next in Hn. simpl in Hn. simplify_eq.
  refine (Hbind s _ _ n _ (Hb s n HI) _). intros [s'|r] m; simpl; [|apply Hk]. intros [HI' Hlt]. by eapply IH.
Qed.

Lemma halts_acc_bind {A} (p : prog T A) B (f : A → prog T B) n Φ :
  halts n p Φ → (∀ a m, Φ a m → Acc next (m, f a)) → Acc next (n, pbind f p).
Proof.
  revert B f n Φ. induction p as [A a|A q k IH|A q v k IH|A q k IH|A q v k IH|A k IH|A c|A S R body IHb s k IHk];
    intros B f n Φ; simpl; intros Hp Hf; [by apply Hf|..|].
  1-6: constructor; intros [m p]; unfold next; simpl.
  - intros (v & -> & ->). by eapply IH.
  - intros [= -> ->]. by eapply IH.
  - intros (r & [= -> ->]). by eapply IH.
  - intros (b & [= -> ->]). by eapply IH.
  - intros (t & [= -> ->]). by eapply IH.
  - done.
  - destruct Hp as (I & lt & Hwf & HI & Hb).
    refine (loop_acc _ _ I lt (λ r m, halts m (k r) Φ) s n IHb Hwf Hb _ HI). intros r m Hr. by eapply IHk.
Qed.

Lemma halts_acc {A} (p : prog T A) n Φ : halts n p Φ → Acc next (n, p).
Proof.
  revert n Φ. induction p as [A a|A q k IH|A q v k IH|A q k IH|A q v k IH|A k IH|A c|A S R body _ s k IHk];
    intros n Φ; simpl; intros Hp; constructor; intros [m p]; unfold next; simpl.
  - done.
  - intros (v & -> & ->). by eapply IH.
  - intros [= -> ->]. by eapply IH.
  - intros (r & [= -> ->]). by eapply IH.
  - intros (b & [= -> ->]). by eapply IH.
  - intros (t & [= -> ->]). by eapply IH.
  - done.
  - intros [= -> ->]. destruct Hp as (I & lt & Hwf & HI & Hb).
    eapply (halts_acc_bind _ _ _ n); [by apply Hb|]. intros [s'|r] m; simpl.
    + intros [HI' _]. refine (loop_acc _ _ I lt (λ r m, halts m (k r) Φ) s' m _ Hwf Hb _ HI').
      * intros s1 B f n' Ψ. apply halts_acc_bind.
      * intros r m' Hr. by eapply IHk.
    + intros Hr. by eapply IHk.
Qed.

End halts.

(** ** The node classes halt *)

Section nodes.
Context {T U : Type} (GetTransferredBytes : T → Z).
Implicit Types (n : node T U).

(** A user's source ends: from [u], [generate] returns finitely many values
    before an end of file or an exception. *)
Definition yields (generate : U → U * attempt (option T)) (u' u : U) : Prop :=
  ∃ x, generate u = (u', Value (Some x)).
Definition source_ends (k : kind T U) (u : U) : Prop :=
  match k with KSource generate => Acc (yields generate) u | _ => True end.

Lemma guarded_wf {A B} (R : B → B → Prop) (f : A → B) : well_founded (λ y x, Acc R (f x) ∧ R (f y) (f x)).
Proof.
  intros x. constructor. intros y [Hacc Hy]. apply (Acc_inv Hacc) in Hy. clear x Hacc.
  remember (f y) as b eqn:Hb. revert y Hb. induction Hy as [b _ IH]. intros y ->.
  constructor. intros z [_ Hz]. by eapply IH.
Qed.

Lemma prodM_halts {A} (m : M T U A) n k (Φ : node T U * attempt A → nat → Prop) :
  prodM m → (∀ a k, Φ a k) → halts k (m n) Φ.
Proof.
  intros Hm HΦ. eapply halts_mono; [|apply (productive_halts k (λ _, True)); [apply Hm|apply unpopped_True, Hm]].
  intros a k' _. apply HΦ.
Qed.

Lemma halts_bindM {A B} (m : M T U A) (f : A → M T U B) n k Φ :
  halts k (m n) (λ nr k', match nr.2 with
                          | Value a => halts k' (f a nr.1) Φ
                          | Raised e => Φ (nr.1, Raised e) k'
                          end) →
  halts k ((m ≫= f) n) Φ.
Proof. intros Hm. apply halts_pbind. eapply halts_mono; [|exact Hm]. by intros [n' [a|e]] k'. Qed.

Lemma work_Source_halts generate n k (Φ : node T U * attempt unit → nat → Prop) :
  Acc (yields generate) (user_state n) → (∀ a k, Φ a k) →
  halts k (work_Source GetTransferredBytes (call_user generate) n) Φ.
Proof.
  intros Hacc HΦ. exists (λ n _, Acc (yields generate) (user_state n)).
  exists (λ y x, Acc (yields generate) (user_state x.1) ∧ yields generate (user_state y.1) (user_state x.1)).
  split; [apply (guarded_wf _ (λ x : node T U * nat, user_state x.1))|]. split; [done|]. clear n k Hacc.
  intros n k Hacc. apply halts_pbind. unfold mbind, M_bind. apply halts_pbind. unfold call_user.
  destruct (generate (user_state n)) as [u [v|e]] eqn:Hg; simpl; [|done].
  apply halts_pbind. eapply (halts_mono _ _ (λ nr _, True ∧ user_state nr.1 = u)).
  - intros [n' [[]|e]] m [_ Hu]; simpl in *; [|done]. destruct v as [x|]; simpl; [|done].
    rewrite Hu. assert (yields generate u (user_state n)) as Hy by (by exists x).
    split; [by eapply Acc_inv|done].
  - apply halts_rets; [exact (user_kept_Push GetTransferredBytes v RefOutput (set_user_state u n))|]. by apply prodM_halts; [apply prodM_Push_port|].
Qed.

Lemma work_halts k n j (Φ : node T U * attempt unit → nat → Prop) :
  source_ends k (user_state n) → (∀ a j, Φ a j) → halts j (work GetTransferredBytes k n) Φ.
Proof.
  intros Hs HΦ. destruct k; try (by apply prodM_halts; [by apply prodM_work|]). by apply work_Source_halts.
Qed.

Lemma node_halts n j :
  source_ends (node_kind n) (user_state n) →
  halts j (work_with_exception GetTransferredBytes n) (λ _ _, True).
Proof.
  intros Hs. unfold work_with_exception. destruct (before_work (node_kind n) n); [done|].
  apply halts_bindM. intros t. apply halts_bindM. simpl. apply halts_bindM, halts_pbind, work_halts; [done|].
  intros [n' r] k. simpl. by apply prodM_halts; [apply prodM_after_work|].
Qed.

End nodes.

(** ** The network halts *)

(** The coroutines in the order of the data. *)
Definition upstream (rank : Z → nat) (i j : Z) : Prop := rank i ≤ rank j.
#[local] Instance upstream_dec rank i j : Decision (upstream rank i j).
Proof. unfold upstream. apply _. Defined.
#[local] Instance upstream_trans rank : Transitive (upstream rank).
Proof. intros i j k. unfold upstream. lia. Qed.
#[local] Instance upstream_total rank : Total (upstream rank).
Proof. intros i j. unfold upstream. lia. Qed.

Section network.
Context {T U : Type} (GetTransferredBytes : T → Z).
Context (cap : Z → Prop) (qs aqs : list Z) (ns : gmap Z (node T U)).
Hypothesis Hcn : closed_network cap qs ns.
Implicit Types (c : config (T := T) (U := U)) (n : node T U).

(** [c'] is [c] after a step of one of the coroutines of [l]. *)
Definition moves_in (l : list Z) (c' c : config (T := T) (U := U)) : Prop :=
  ∃ now i, i ∈ l ∧ step_thread qs aqs now i c = Some c'.

(** The elements in the queues that [n] reads. *)
Definition load n c : nat :=
  sum_list_with (λ q, if decide (0 < expects n q) then length (contents c !!! q) else 0) (seq 0 (length qs)).

Record ready c : Prop := {
  ready_inv : ∃ G, net_inv qs ns G c;
  ready_dom i : is_Some (ns !! i) → is_Some (threads c !! i);
  ready_halts i p k : threads c !! i = Some p → Acc next (k, p);
}.

Lemma sum_list_with_eq {A} (f g : A → nat) l :
  (∀ x, x ∈ l → f x = g x) → sum_list_with f l = sum_list_with g l.
Proof.
  induction l as [|x l IH]; intros Hfg; [done|]. simpl. rewrite Hfg by (by left). rewrite IH; [done|].
  intros y Hy. apply Hfg. by right.
Qed.

Lemma sum_list_with_one {A} (f g : A → nat) l x :
  NoDup l → x ∈ l → f x = S (g x) → (∀ y, y ≠ x → f y = g y) → sum_list_with f l = S (sum_list_with g l).
Proof.
  intros Hnd Hx Hfx Hfg. induction Hnd as [|y l Hy _ IH]; [by apply not_elem_of_nil in Hx|].
  simpl. apply elem_of_cons in Hx as [<-|Hx].
  - rewrite Hfx, (sum_list_with_eq f g); [done|]. intros z Hz. apply Hfg. congruence.
  - rewrite IH by done. rewrite Hfg by congruence. lia.
Qed.

Lemma load_eq n c c' :
  (∀ q, 0 < expects n q → length (contents c' !!! q) = length (contents c !!! q)) → load n c' = load n c.
Proof. intros Hq. apply sum_list_with_eq. intros q _. case_decide; auto. Qed.

Lemma load_pop i n c c' q v l :
  ns !! i = Some n → 0 < expects n q → contents c !!! q = v :: l → contents c' = <[q := l]> (contents c) →
  load n c = S (load n c').
Proof using Hcn.
  intros Hn Hx Hq Hc'. unfold load. apply (sum_list_with_one _ _ _ q); [apply NoDup_seq|..].
  - destruct (cn_cap _ _ _ Hcn q i n Hn) as (z & Hz%lookup_lt_Some & _); [lia|]. apply elem_of_seq. lia.
  - rewrite Hc', total_insert, Hq. by rewrite !decide_True.
  - intros q' Hne. by rewrite Hc', lookup_total_insert_ne by done.
Qed.

(** What a step of coroutine [i] does to its program and to the queues. *)
Lemma step_effect c now i c' p :
  threads c !! i = Some p → step_thread qs aqs now i c = Some c' →
  ∃ p', threads c' = <[i := p']> (threads c) ∧
    match p with
    | QPop q k => ∃ v l, p' = k v ∧ contents c !!! q = v :: l ∧ contents c' = <[q := l]> (contents c)
    | QPush q v k => p' = k ∧ contents c' = <[q := contents c !!! q ++ [v]]> (contents c)
    | _ => (∀ k, next (k, p') (k, p)) ∧ contents c' = contents c
    end.
Proof.
  intros Hp Hs. unfold step_thread in Hs. rewrite Hp in Hs. simpl in Hs.
  destruct p as [a|q k|q v k|a k|a v k|k|cr|S R body s k]; try done.
  - destruct (contents c !!! q) as [|v l] eqn:Hq; simpl in Hs; [done|]. simplify_eq. eexists. split; [done|].
    by exists v, l.
  - simpl in Hs. case_decide; simplify_eq. by eexists.
  - destruct (aborts c !!! a) as [|x l]; simpl in Hs; simplify_eq; eexists; (split; [done|]); (split; [|done]);
      intros j; by eexists.
  - simpl in Hs. case_decide; simplify_eq; eexists; (split; [done|]); (split; [|done]); intros j; by eexists.
  - simplify_eq. eexists. split; [done|]. split; [|done]. intros j. by eexists.
  - simplify_eq. by eexists.
Qed.

Lemma step_thread_some c now i c' : step_thread qs aqs now i c = Some c' → is_Some (threads c !! i).
Proof. unfold step_thread. by destruct (threads c !! i). Qed.

(** The duties of a coroutine about to read or to write. *)
Lemma ready_thread c i p :
  ready c → threads c !! i = Some p →
  ∃ n, ns !! i = Some n ∧
    match p with QPop q _ => 0 < expects n q | QPush q _ _ => 0 < writes n q | _ => True end.
Proof.
  intros [[G HG] _ _] Hp. destruct (proj2 (ni_dom _ _ _ _ HG i)) as [g Hg]; [by rewrite Hp|].
  destruct (ni_wp _ _ _ _ HG _ _ _ Hp Hg) as (n & Hn & _ & _ & Ho & Ha & Hwp). exists n. split; [done|].
  destruct p as [|q k|q v k| | | | |]; try done.
  - apply WP_QPop_inv in Hwp as [Hpos _]. specialize (Ha q). unfold awaits in Ha. lia.
  - apply WP_QPush_inv in Hwp as [Hin%is_open_in _]. specialize (Ho q). lia.
Qed.

Lemma ready_step c now i c' : ready c → step_thread qs aqs now i c = Some c' → ready c'.
Proof using Hcn.
  intros [[G HG] Hd Hh] Hs. split.
  - by eapply net_inv_step.
  - intros j Hj. eapply step_keeps_threads; eauto.
  - intros j pj k. destruct (step_thread_some _ _ _ _ Hs) as [p Hp].
    destruct (step_effect _ _ _ _ _ Hp Hs) as (p' & -> & Hn).
    intros [[<- <-]|[_ Hj]]%lookup_insert_Some; [|eauto].
    destruct p; try (by eapply (Acc_inv (Hh _ _ k Hp)), Hn).
    + destruct Hn as (v & l & -> & _). eapply (Acc_inv (Hh _ _ (S k) Hp)). by exists v.
    + destruct Hn as [-> _]. by eapply (Acc_inv (Hh _ _ k Hp)).
Qed.

Section order.
Context (rank : Z → nat).
Hypothesis Hrank : ∀ q a b na nb,
  ns !! a = Some na → ns !! b = Some nb → 0 < writes na q → 0 < expects nb q → rank a < rank b.

(** The steps of a coroutine do not change the queues of one before it. *)
Lemma load_behind c now i j c' n :
  ready c → step_thread qs aqs now j c = Some c' → ns !! i = Some n → rank i ≤ rank j → i ≠ j →
  load n c' = load n c ∧ threads c' !! i = threads c !! i.
Proof using Hcn Hrank.
  intros Hc Hs Hn Hij Hne. destruct (step_thread_some _ _ _ _ Hs) as [p Hp].
  destruct (ready_thread _ _ _ Hc Hp) as (nj & Hnj & Hduty).
  destruct (step_effect _ _ _ _ _ Hp Hs) as (p' & -> & He). split; [|by apply lookup_insert_ne].
  apply load_eq. intros q Hx. destruct p as [|q' k|q' v k| | | | |]; try (by destruct He as [_ ->]).
  - destruct He as (v & l & _ & _ & ->). rewrite lookup_total_insert_ne; [done|]. intros ->.
    by pose proof (cn_reader _ _ _ Hcn q i j n nj Hn Hnj Hx Hduty).
  - destruct He as [_ ->]. rewrite lookup_total_insert_ne; [done|]. intros ->.
    pose proof (Hrank q j i nj n Hnj Hn Hduty Hx). lia.
Qed.

Lemma load_own c now i c' n p :
  ready c → ns !! i = Some n → threads c !! i = Some p → step_thread qs aqs now i c = Some c' →
  ∃ p', threads c' !! i = Some p' ∧ next (load n c', p') (load n c, p).
Proof using Hcn Hrank.
  intros Hc Hn Hp Hs. destruct (ready_thread _ _ _ Hc Hp) as (n' & Hn' & Hduty). simplify_eq.
  destruct (step_effect _ _ _ _ _ Hp Hs) as (p' & -> & He). exists p'. split; [apply lookup_insert_eq|].
  destruct p as [|q k|q v k| | | | |]; try (destruct He as [He Hct]; by rewrite (load_eq n c c') by (by rewrite Hct)).
  - destruct He as (v & l & -> & Hq & Hct). exists v. split; [|done]. by eapply load_pop.
  - destruct He as [-> Hct]. rewrite (load_eq n c c'); [done|]. intros q' Hx. rewrite Hct, lookup_total_insert_ne; [done|].
    intros ->. pose proof (Hrank q' i i n n Hn Hn Hduty Hx). lia.
Qed.

Lemma moves_in_acc l :
  NoDup l → StronglySorted (upstream rank) l → (∀ i, i ∈ l → is_Some (ns !! i)) →
  ∀ c, ready c → Acc (moves_in l) c.
Proof using Hcn Hrank.
  intros Hnd Hsorted. induction Hsorted as [|i l _ IH Hfirst]; intros Hin c Hc.
  { constructor. intros c' (now & j & Hj & _). by apply not_elem_of_nil in Hj. }
  apply NoDup_cons in Hnd as [Hnot Hnd]. rewrite Forall_forall in Hfirst.
  assert (∀ c, ready c → Acc (moves_in l) c) as Hrest by (intros; apply IH; set_solver). clear IH.
  destruct (Hin i) as [n Hn]; [by left|]. destruct (ready_dom _ Hc i) as [p Hp]; [done|].
  pose proof (ready_halts _ Hc i p (load n c) Hp) as Hacc. remember (load n c, p) as x eqn:Hx.
  revert c p Hx Hc Hp. induction Hacc as [x _ IHx]. intros c p -> Hc Hp.
  pose proof (Hrest c Hc) as Hr. remember (load n c) as k eqn:Hk. revert Hk Hc Hp.
  induction Hr as [c _ IHr]. intros -> Hc Hp. constructor. intros c' (now & j & Hj & Hs).
  pose proof (ready_step _ _ _ _ Hc Hs) as Hc'. apply elem_of_cons in Hj as [->|Hj].
  - destruct (load_own _ _ _ _ _ _ Hc Hn Hp Hs) as (p' & Hp' & Hnext). by eapply IHx.
  - destruct (load_behind _ _ i _ _ n Hc Hs Hn) as [Hl Ht]; [by apply Hfirst|by intros ->|].
    apply IHr; [by exists now, j|done|done|by rewrite Ht].
Qed.

End order.

(** One step of the network. *)
Definition moves c' c : Prop := ∃ now i, step_thread qs aqs now i c = Some c'.

Lemma ready_acc c : ready c → Acc moves c.
Proof using Hcn.
  intros Hc. destruct (cn_acyclic _ _ _ Hcn) as [rank Hrank].
  set (l := merge_sort (upstream rank) (elements (dom ns))).
  assert (∀ i, i ∈ l ↔ is_Some (ns !! i)) as Hl.
  { intros i. unfold l. by rewrite merge_sort_Permutation, elem_of_elements, elem_of_dom. }
  assert (Acc (moves_in l) c) as Hacc.
  { apply (moves_in_acc rank Hrank); [| |by intros i ?%Hl|done].
    - unfold l. rewrite merge_sort_Permutation. apply NoDup_elements.
    - apply (StronglySorted_merge_sort _). }
  revert Hc. induction Hacc as [c _ IH]. intros Hc. constructor. intros c' (now & i & Hs).
  apply IH; [|by eapply ready_step]. exists now, i. split; [|done]. apply Hl.
  destruct (step_thread_some _ _ _ _ Hs) as [p Hp]. destruct (ready_thread _ _ _ Hc Hp) as (n & -> & _). done.
Qed.

Hypothesis Hsources : ∀ i n, ns !! i = Some n → source_ends (node_kind n) (user_state n).

Lemma launch_ready : ready (launch GetTransferredBytes ns).
Proof using Hcn Hsources.
  split.
  - eexists. by eapply net_inv_launch.
  - intros i. simpl. by rewrite lookup_fmap, fmap_is_Some.
  - intros i p k (n & <- & Hn)%lookup_fmap_Some. by eapply halts_acc, node_halts, Hsources.
Qed.

Lemma runs_ready c : runs GetTransferredBytes qs aqs ns c → ready c.
Proof using Hcn Hsources. induction 1; [apply launch_ready|by eapply ready_step]. Qed.

Lemma runs_acc c : runs GetTransferredBytes qs aqs ns c → Acc moves c.
Proof using Hcn Hsources. intros Hr. by apply ready_acc, runs_ready. Qed.

End network.

(** *** Without exceptions *)

Section calm.
Context {T U : Type} (GetTransferredBytes : T → Z) (qs aqs : list Z) (ns : gmap Z (node T U)).
Hypothesis Hbefore : ∀ i n, ns !! i = Some n → before_work (node_kind n) n = None.
Hypothesis Hnt : ∀ i n, ns !! i = Some n → never_throws (node_kind n).

(** Nothing is thrown, no abort message is sent and the process is not ended. *)
Lemma runs_calm c :
  runs GetTransferredBytes qs aqs ns c →
  (∀ a, aborts c !!! a = []) ∧
  ∀ i p, threads c !! i = Some p → unaborted (λ nr, ∃ a, nr.2 = Value a) p.
Proof using Hbefore Hnt.
  induction 1 as [|now i c c' _ [Ha Hu] Hs].
  - split; [intros a; simpl; by rewrite lookup_total_empty|]. intros i p (n & <- & Hn)%lookup_fmap_Some.
    apply calm_work_with_exception; eauto.
  - unfold step_thread in Hs. destruct (threads c !! i) as [p|] eqn:Hp; simpl in Hs; [|done].
    apply Hu in Hp. destruct p as [a|q k|q v k|a k|a v k|k|cr|S R body s k]; try done; simpl in Hp.
    + destruct (contents c !!! q) as [|v l]; simpl in Hs; simplify_eq. split; [done|]. simpl.
      intros j pj [[<- <-]|[_ Hj]]%lookup_insert_Some; eauto.
    + simpl in Hs. case_decide; simplify_eq. split; [done|]. simpl.
      intros j pj [[<- <-]|[_ Hj]]%lookup_insert_Some; eauto.
    + rewrite Ha in Hs. simpl in Hs. simplify_eq. split; [intros a'; simpl; rewrite total_insert; by case_decide|].
      simpl. intros j pj [[<- <-]|[_ Hj]]%lookup_insert_Some; eauto.
    + simplify_eq. split; [done|]. simpl. intros j pj [[<- <-]|[_ Hj]]%lookup_insert_Some; eauto.
    + simplify_eq. split; [done|]. simpl. intros j pj [[<- <-]|[_ Hj]]%lookup_insert_Some; [|eauto].
      destruct Hp as (I & HI & Hb). eapply unaborted_pbind; [by apply Hb|].
      intros [s'|r]; [|done]. intros Hs'. by exists I.
Qed.

End calm.

(** ** Every run completes *)

(** [P] holds after finitely many steps, however they are chosen. *)
Inductive inevitably {A} (step : A → A → Prop) (P : A → Prop) (x : A) : Prop :=
| inevitably_now : P x → inevitably step P x
| inevitably_later y : step y x → (∀ y, step y x → inevitably step P y) → inevitably step P x.

Lemma inevitably_acc {A} (step : A → A → Prop) (I P : A → Prop) x :
  Acc step x → (∀ x y, I x → step y x → I y) → (∀ x, I x → P x ∨ ∃ y, step y x) → I x → inevitably step P x.
Proof.
  intros Hacc Hinv Hprog. induction Hacc as [x _ IH]. intros Hx.
  destruct (Hprog x Hx) as [HP|[y Hy]]; [by left|]. right with y; eauto.
Qed.

(** All coroutines have returned, without an exception, and done what their
    class promises. *)
Definition succeeded {T U} (ns : gmap Z (node T U)) c : Prop :=
  (∀ q, contents c !!! q = []) ∧
  ∀ i n, ns !! i = Some n → ∃ n', threads c !! i = Some (Ret (n', Value tt)) ∧
    behaves n (user_state n') (traces c !!! i) ∧
    ∀ q, 0 < expects n q → interleaves q (traces c) (got q (traces c !!! i)).

Section closed.
Context {T U : Type} (GetTransferredBytes : T → Z).
Context (cap : Z → Prop) (qs aqs : list Z) (ns : gmap Z (node T U)).
Hypothesis Hcn : closed_network cap qs ns.
Hypothesis Hcap : ∀ z, cap z → (1 ≤ z)%Z.
Hypothesis Hone : ∀ i n, ns !! i = Some n → is_concat (node_kind n) = false.
Hypothesis Hsources : ∀ i n, ns !! i = Some n → source_ends (node_kind n) (user_state n).

Lemma runs_inevitably c (P : config → Prop) :
  (∀ c, runs GetTransferredBytes qs aqs ns c → finished c → P c) →
  (∀ c, runs GetTransferredBytes qs aqs ns c → ¬ ∃ i, threads c !! i = Some (Die StdAbort)) →
  runs GetTransferredBytes qs aqs ns c → inevitably (moves qs aqs) P c.
Proof using Hcn Hcap Hone Hsources.
  intros HP Hlive Hr. apply (inevitably_acc _ (runs GetTransferredBytes qs aqs ns)); [by eapply runs_acc|..|done].
  - intros x y Hx (now & i & Hs). by eapply runs_step.
  - intros c1 Hr1. destruct (runs_progress _ _ _ _ _ c1 Hcn Hcap Hone Hr1) as [Hf|[Hd|(now & i & c2 & Hm)]].
    + left. auto.
    + by destruct (Hlive c1 Hr1).
    + right. exists c2. by exists now, i.
Qed.

Lemma runs_completes c :
  (∀ i n, ns !! i = Some n → may_end n = false) → runs GetTransferredBytes qs aqs ns c →
  inevitably (moves qs aqs) (final_state ns) c.
Proof using Hcn Hcap Hone Hsources.
  intros Hm. apply runs_inevitably.
  - intros c1 Hr1 Hf. by apply (runs_final _ _ _ _ _ _ Hcn Hr1).
  - intros c1 Hr1 [i Hd]. destruct (runs_safe _ _ _ _ _ _ Hcn Hr1) as [Hdie _ _].
    destruct (Hdie _ _ Hd) as (_ & n & Hn & He). by rewrite (Hm i n Hn) in He.
Qed.

Section calm.
Hypothesis Hnt : ∀ i n, ns !! i = Some n → never_throws (node_kind n).

Lemma runs_unaborted c i p :
  runs GetTransferredBytes qs aqs ns c → threads c !! i = Some p →
  unaborted (λ nr : node T U * attempt unit, ∃ a, nr.2 = Value a) p.
Proof using Hcn Hnt.
  intros Hr. eapply runs_calm; [|exact Hnt|exact Hr]. intros j n Hn. by apply (cn_wired _ _ _ Hcn j).
Qed.

Lemma finished_succeeds c : runs GetTransferredBytes qs aqs ns c → finished c → succeeded ns c.
Proof using Hcn Hnt.
  intros Hr Hf. destruct (runs_final _ _ _ _ _ _ Hcn Hr Hf) as [He Hfin]. split; [done|].
  intros i n Hn. destruct (Hfin i n Hn) as (n' & r & Hp & Hb & Hi). exists n'.
  destruct (runs_unaborted _ _ _ Hr Hp) as [[] Ha]. simpl in Ha. subst r. auto.
Qed.

Lemma runs_succeeds c :
  runs GetTransferredBytes qs aqs ns c → inevitably (moves qs aqs) (succeeded ns) c.
Proof using Hcn Hcap Hone Hsources Hnt.
  apply runs_inevitably; [apply finished_succeeds|].
  intros c1 Hr1 [i Hd]. by apply (runs_unaborted _ _ _ Hr1 Hd).
Qed.

End calm.

End closed.

Section pipelines.
Context {T U : Type} (GetTransferredBytes : T → Z) `{Inhabited U} `{HashOrderLaws}.
Implicit Types (s : state T U) (c : config (T := T) (U := U)).

(** The sources of a pipeline end. *)
Definition sources_end s : Prop :=
  ∀ i n, nodes_ s.2 !! i = Some n → source_ends (node_kind n) (user_state n).

(** [Run] does not change the class and the state of a node. *)
Lemma launched_kind garbage s n (P : kind T U → U → Prop) :
  P (node_kind n) (user_state n) → P (node_kind (launched garbage s n)) (user_state (launched garbage s n)).
Proof. unfold launched. by destruct (bind_abort_channel _). Qed.

Lemma running_nodes garbage ex s s' c (P : kind T U → U → Prop) :
  running GetTransferredBytes garbage ex s s' c →
  (∀ i n, nodes_ s.2 !! i = Some n → P (node_kind n) (user_state n)) →
  ∀ i n, nodes_ s'.2 !! i = Some n → P (node_kind n) (user_state n).
Proof.
  intros Hr HP i n. rewrite (running_launched _ _ _ _ _ _ Hr).
  intros (n0 & <- & Hn)%lookup_fmap_Some. by eapply launched_kind, HP.
Qed.

(** C7: Every run of a pipeline (without [ChannelSource]s and [ChannelSink]s) is
    finite, however its coroutines are
    interleaved and whether or not they throw, if its sources end: no coroutine
    loops without reading, and what one reads has been written by those before
    it. *)
Theorem network_halts option garbage ex s s' c :
  reaches option s → self_contained (nodes_ s.2) → running GetTransferredBytes garbage ex s s' c → sources_end s →
  Acc (moves (queues s'.1) (abort_queues s'.1)) c.
Proof.
  intros Hs Hsc Hr Hend. destruct (running_closed _ _ _ _ _ _ _ Hs Hsc Hr) as (Hc & _ & _).
  eapply runs_acc; [exact Hc| |apply Hr]. by eapply (running_nodes garbage ex s s' c source_ends).
Qed.

(** C5: Every run of a pipeline completes, with [bind_abort_channel] set, a
    positive [channel_size], no [Concat], [ChannelSource] and [ChannelSink] nodes
    and sources that end: whatever the
    interleaving and whatever the user's functions throw, after finitely many
    steps all coroutines have returned, every queue is empty, and the nodes that
    returned without an exception did what their class promises. *)
Theorem network_completes option garbage ex s s' c :
  reaches option s → self_contained (nodes_ s.2) → running GetTransferredBytes garbage ex s s' c → (1 ≤ channel_size (option_ s.2))%Z →
  (∀ i n, nodes_ s.2 !! i = Some n → is_concat (node_kind n) = false) → sources_end s →
  bind_abort_channel (option_ s.2) = true →
  inevitably (moves (queues s'.1) (abort_queues s'.1)) (final_state (nodes_ s'.2)) c.
Proof.
  intros Hs Hsc Hr Hsize Hone Hend Hbind. destruct (running_closed _ _ _ _ _ _ _ Hs Hsc Hr) as (Hc & Hm & _).
  eapply runs_completes; [exact Hc|by intros z <-|..|by apply Hm|apply Hr].
  - by apply (running_nodes garbage ex s s' c (λ k _, is_concat k = false)).
  - by apply (running_nodes garbage ex s s' c source_ends).
Qed.

(** C6: In a pipeline without [Concat], [ChannelSource] and [ChannelSink] nodes,
    with a positive [channel_size], sources that end and user functions that never
    throw, every run succeeds, whether or not [bind_abort_channel] is set: after
    finitely many steps, whatever the interleaving, all coroutines have returned
    without an exception and done what their class promises. *)
Theorem network_succeeds option garbage ex s s' c :
  reaches option s → self_contained (nodes_ s.2) → running GetTransferredBytes garbage ex s s' c → (1 ≤ channel_size (option_ s.2))%Z →
  (∀ i n, nodes_ s.2 !! i = Some n → is_concat (node_kind n) = false) → sources_end s →
  (∀ i n, nodes_ s.2 !! i = Some n → never_throws (node_kind n)) →
  inevitably (moves (queues s'.1) (abort_queues s'.1)) (succeeded (nodes_ s'.2)) c.
Proof.
  intros Hs Hsc Hr Hsize Hone Hend Hnt. destruct (running_closed _ _ _ _ _ _ _ Hs Hsc Hr) as (Hc & _ & _).
  eapply runs_succeeds; [exact Hc|by intros z <-|..|apply Hr].
  - by apply (running_nodes garbage ex s s' c (λ k _, is_concat k = false)).
  - by apply (running_nodes garbage ex s s' c source_ends).
  - by apply (running_nodes garbage ex s s' c (λ k _, never_throws k)).
Qed.

End pipelines.

(** ** Pipelines that complete *)

Module SampleTermination.
Import SampleRun.

Lemma numbers_end n u : source_ends (numbers n) u.
Proof.
  simpl. remember (Z.to_nat (n - u)) as k eqn:Hk. revert u Hk. induction k as [k IH] using lt_wf_ind.
  intros u ->. constructor. intros u' [x Hx]. case_decide; simplify_eq. eapply IH; [|done]. lia.
Qed.

Lemma merging_sources_end : sources_end (built_of merging).
Proof.
  intros i n Hn. apply elem_of_map_to_list in Hn. vm_compute in Hn.
  repeat (apply elem_of_cons in Hn as [[= -> ->]|Hn];
          [first [exact I|exact (numbers_end 3 0)|exact (numbers_end 4 0)]|]).
  by apply not_elem_of_nil in Hn.
Qed.

Lemma network_halts_witness :
  Acc (moves (queues (launched_of merging).1) (abort_queues (launched_of merging).1)) (run_of merging 25).
Proof.
  apply (network_halts bytes option 0 1 (built_of merging) (launched_of merging) (run_of merging 25)).
  - apply (merging_run 25).
  - apply merging_contained.
  - apply (merging_run 25).
  - apply merging_sources_end.
Defined.

(** A filter that throws at the third number. *)
Definition throwing : list (api (T := Z) (U := Z)) :=
  [ CallAddSource (source 1 5);
    CallAddTransform 1 (make_node 3 "throwing" 0 0
      (KFilter (λ u x, (u, if decide (x = 2)%Z then Raised "third" else Value false))) 0%Z);
    CallSetSink (sink 4) ].

Lemma throwing_legal : legal_all throwing start.
Proof.
  unfold throwing. cbn [legal_all]. repeat (split; [|]); try done.
  all: first [by apply (bool_decide_unpack _)|vm_compute; intuition congruence].
Qed.

Lemma throwing_contained : self_contained (nodes_ (built_of throwing).2).
Proof. decide_now. Qed.

Lemma throwing_run fuel :
  reaches option (built_of throwing) ∧
  running bytes 0 1 (built_of throwing) (launched_of throwing) (run_of throwing fuel).
Proof.
  apply run_of_running; [apply throwing_legal|vm_compute; reflexivity|].
  intros He. apply (f_equal size) in He. vm_compute in He. discriminate.
Qed.

Lemma throwing_sources_end : sources_end (built_of throwing).
Proof.
  intros i n Hn. apply elem_of_map_to_list in Hn. vm_compute in Hn.
  repeat (apply elem_of_cons in Hn as [[= -> ->]|Hn]; [first [exact I|exact (numbers_end 5 0)]|]).
  by apply not_elem_of_nil in Hn.
Qed.

(** All coroutines return; two numbers have reached the sink when the filter
    throws. *)
Lemma network_completes_witness :
  inevitably (moves (queues (launched_of throwing).1) (abort_queues (launched_of throwing).1))
    (final_state (nodes_ (launched_of throwing).2)) (run_of throwing 1) ∧
  finished (run_of throwing 300) ∧
  got 1 (traces (run_of throwing 300) !!! 4%Z) = [Some 0; Some 1]%Z ++ [None].
Proof.
  split; [|split; [apply finished_b_spec; vm_compute; reflexivity|vm_compute; reflexivity]].
  apply (network_completes bytes option 0 1 (built_of throwing) (launched_of throwing) (run_of throwing 1)).
  - apply (throwing_run 1).
  - apply throwing_contained.
  - apply (throwing_run 1).
  - vm_compute. discriminate.
  - apply map_Forall_lookup, (bool_decide_unpack _). vm_compute. reflexivity.
  - apply throwing_sources_end.
  - vm_compute. reflexivity.
Defined.

Lemma network_succeeds_witness :
  inevitably (moves (queues (launched_of merging).1) (abort_queues (launched_of merging).1))
    (succeeded (nodes_ (launched_of merging).2)) (run_of merging 1).
Proof.
  apply (network_succeeds bytes option 0 1 (built_of merging) (launched_of merging) (run_of merging 1)).
  - apply (merging_run 1).
  - apply merging_contained.
  - apply (merging_run 1).
  - vm_compute. discriminate.
  - apply map_Forall_lookup, (bool_decide_unpack _). vm_compute. reflexivity.
  - apply merging_sources_end.
  - intros i n Hn. apply elem_of_map_to_list in Hn. vm_compute in Hn.
    repeat (apply elem_of_cons in Hn as [[= -> ->]|Hn]; [simpl; intros; try case_match; try (by eexists); exact I|]).
    by apply not_elem_of_nil in Hn.
Defined.

End SampleTermination.
