(* ===== verification/Flow.v ===== *)
(** * What flows through a network

    The data that the reader of a queue has read is, up to the order in which
    its writers were interleaved, the data they have written ([flow]).  With what
    the class of each node promises ([behaves]), the results of a whole network
    follow from its wiring. *)

From stdpp Require Import base functions gmap strings fin_maps fin_sets list.
From S2P Require Import Prelude Queue Events Coro Processor Nodes PortLogic NodeProtocol NodeRun Pipeline PipelineInv Builder Frame Merge Network Termination.

(** ** The writers of a queue *)

Section writers.
Context {T U : Type} (GetTransferredBytes : T → Z) (cap : Z → Prop) (qs aqs : list Z) (ns : gmap Z (node T U)).
Hypothesis Hcn : closed_network cap qs ns.

(** Only the nodes that are wired to a queue write to it. *)
Lemma runs_put c i q :
  runs GetTransferredBytes qs aqs ns c → put q (traces c !!! i) ≠ [] →
  ∃ n, ns !! i = Some n ∧ 0 < writes n q.
Proof using Hcn.
  induction 1 as [|now j c c' Hr IH Hs]; [simpl; by rewrite lookup_total_empty|].
  destruct (runs_inv _ _ _ _ _ _ Hcn Hr) as [G HG].
  unfold step_thread in Hs. destruct (threads c !! j) as [p|] eqn:Hp; simpl in Hs; [|done].
  destruct p as [a|q' k|q' v k|a k|a v k|k|cr|S R body s k]; try done.
  - destruct (contents c !!! q') as [|v l]; simpl in Hs; simplify_eq. simpl. rewrite total_insert.
    case_decide; [subst|done]. by rewrite put_app, app_nil_r.
  - simpl in Hs. case_decide; simplify_eq. simpl. rewrite total_insert. case_decide; [subst|done].
    destruct (decide (q' = q)) as [->|Hne]; [|rewrite put_app; simpl; rewrite decide_False, app_nil_r by done; done].
    intros _. destruct (proj2 (ni_dom _ _ _ _ HG j)) as [g Hg]; [by rewrite Hp|].
    destruct (ni_wp _ _ _ _ HG _ _ _ Hp Hg) as (n & Hn & _ & _ & Ho & _ & [Hin%is_open_in _]%WP_QPush_inv).
    exists n. split; [done|]. specialize (Ho q). lia.
  - destruct (aborts c !!! a); simpl in Hs; simplify_eq; done.
  - simpl in Hs. case_decide; simplify_eq; done.
  - by simplify_eq.
  - by simplify_eq.
Qed.

End writers.

(** ** Interleavings as permutations *)

Section interleaving.
Context {T : Type}.

Lemma by_writer_other (W : list Z) (log : list (Z * option T)) :
  (∀ i, i ∉ W → by_writer i log = []) → Forall (λ e, e.1 ∈ W) log.
Proof.
  intros Hout. apply Forall_forall. intros [i v] Hin. simpl. destruct (decide (i ∈ W)) as [|Hi]; [done|].
  apply Hout in Hi. assert (v ∈ by_writer i log) as Hv; [|rewrite Hi in Hv; by apply not_elem_of_nil in Hv].
  apply list_elem_of_omap. exists (i, v). split; [done|]. simpl. by rewrite decide_True.
Qed.

Lemma log_by_writer (W : list Z) (log : list (Z * option T)) :
  NoDup W → Forall (λ e, e.1 ∈ W) log → log.*2 ≡ₚ concat ((λ i, by_writer i log) <$> W).
Proof.
  intros Hnd Hin. induction Hin as [|[j v] log Hj _ IH].
  { simpl. clear. induction W; [done|]. simpl. done. }
  simpl in *. rewrite IH. clear IH. induction Hnd as [|i W Hi Hnd IH]; [by apply not_elem_of_nil in Hj|].
  simpl. destruct (decide (j = i)) as [->|Hne].
  - simpl. apply reflexive_eq. do 3 f_equal. apply Forall_fmap_ext_1, Forall_forall. intros k Hk.
    by rewrite decide_False by congruence.
  - apply elem_of_cons in Hj as [|Hj]; [done|]. rewrite <- IH by done. by rewrite Permutation_middle.
Qed.

Lemma interleaves_perm (W : list Z) q (tr : gmap Z (list (event T))) l :
  NoDup W → (∀ i, i ∉ W → put q (tr !!! i) = []) → interleaves q tr l →
  l ≡ₚ concat ((λ i, put q (tr !!! i)) <$> W).
Proof.
  intros Hnd Hout (log & <- & Hlog). rewrite (log_by_writer W); [|done|].
  - apply reflexive_eq. f_equal. apply list_fmap_ext. intros _ i _. by rewrite Hlog.
  - apply by_writer_other. intros i Hi. rewrite <- Hlog. by apply Hout.
Qed.

Lemma data_concat (ls : list (list (option T))) : data (concat ls) = concat (data <$> ls).
Proof. induction ls as [|l ls IH]; [done|]. simpl. unfold data in *. by rewrite omap_app, IH. Qed.

#[global] Instance data_proper : Proper ((≡ₚ) ==> (≡ₚ)) (@data T).
Proof. intros l l' Hl. unfold data. by rewrite Hl. Qed.

Lemma data_ended (xs : list T) : data (ended xs) = xs.
Proof.
  unfold ended, data. rewrite omap_app. simpl. rewrite app_nil_r. induction xs as [|x xs IH]; [done|]. simpl. by f_equal.
Qed.

End interleaving.

(** ** Finished networks *)

Section finished.
Context {T U : Type} (GetTransferredBytes : T → Z) (cap : Z → Prop) (qs aqs : list Z) (ns : gmap Z (node T U)).
Hypothesis Hcn : closed_network cap qs ns.

(** The data that node [i] has read from and written to [q]. *)
Definition read c (i : Z) (q : qid) : list T := data (got q (traces (U := U) c !!! i)).
Definition wrote c (i : Z) (q : qid) : list T := data (put q (traces (U := U) c !!! i)).

(** The nodes that are wired to write to [q]. *)
Definition writers (q : qid) : list Z := (filter (λ jn, q ∈ out_duty jn.2) (map_to_list ns)).*1.

Lemma flow c q i n :
  runs GetTransferredBytes qs aqs ns c → succeeded ns c → ns !! i = Some n → 0 < expects n q →
  read c i q ≡ₚ concat ((λ j, wrote c j q) <$> writers q).
Proof using Hcn.
  intros Hr [_ Hs] Hn Hx. destruct (Hs i n Hn) as (_ & _ & _ & Hint). apply Hint in Hx. unfold read, wrote.
  rewrite (interleaves_perm (writers q) q (traces c)); [..|exact Hx].
  - rewrite data_concat, <- list_fmap_compose. done.
  - unfold writers. eapply NoDup_fmap_fst; [|by apply NoDup_filter, NoDup_map_to_list].
    intros j n1 n2 [_ H1]%list_elem_of_filter [_ H2]%list_elem_of_filter.
    apply elem_of_map_to_list in H1, H2. by simplify_eq.
  - intros j Hj. destruct (put q (traces c !!! j)) eqn:Hput; [done|]. destruct Hj.
    destruct (runs_put GetTransferredBytes cap qs aqs ns Hcn c j q Hr) as (m & Hm & Hw); [by rewrite Hput|].
    apply list_elem_of_fmap. exists (j, m). split; [done|]. apply list_elem_of_filter.
    split; [|by apply elem_of_map_to_list]. unfold writes in Hw. simpl. by case_decide; [|lia].
Qed.

End finished.

(** ** Results of a pipeline *)

(** What a finished run without exceptions has computed: every node did what its
    class promises, and the reader of a queue has read what its writers wrote. *)
Record results {T U} (ns : gmap Z (node T U)) c : Prop := {
  rs_node i n : ns !! i = Some n → ∃ n', threads c !! i = Some (Ret (n', Value tt)) ∧
    behaves n (user_state n') (traces c !!! i);
  rs_flow q i n : ns !! i = Some n → 0 < expects n q →
    read c i q ≡ₚ concat ((λ j, wrote c j q) <$> writers ns q);
}.

Section pipelines.
Context {T U : Type} (GetTransferredBytes : T → Z) `{Inhabited U} `{HashOrderLaws}.
Implicit Types (s : state T U) (c : config (T := T) (U := U)).

Lemma writers_fmap (f : node T U → node T U) ns q :
  (∀ n, out_duty (f n) = out_duty n) → writers (f <$> ns) q = writers ns q.
Proof.
  intros Hf. unfold writers. rewrite map_to_list_fmap.
  induction (map_to_list ns) as [|[i n] l IH]; [done|]. rewrite fmap_cons, !filter_cons. simpl. rewrite Hf.
  case_decide; [simpl; f_equal|]; exact IH.
Qed.

Lemma inevitably_mono {A} (step : A → A → Prop) (I P Q : A → Prop) x :
  (∀ x y, I x → step y x → I y) → (∀ x, I x → P x → Q x) → I x → inevitably step P x → inevitably step Q x.
Proof.
  intros Hinv HPQ Hx Hp. induction Hp as [x Hp|x y Hy _ IH]; [left; auto|right with y; eauto].
Qed.

Lemma succeeded_results cap qs aqs (ns : gmap Z (node T U)) c :
  closed_network cap qs ns → runs GetTransferredBytes qs aqs ns c → succeeded ns c → results ns c.
Proof.
  intros Hcn Hr Hs. split; [|intros q i n Hn Hx; by eapply flow].
  intros i n Hn. destruct (proj2 Hs i n Hn) as (n' & Hp & Hb & _). eauto.
Qed.

(** Every run of a network comes to such results, whatever the interleaving. *)
Lemma runs_computes cap qs aqs (ns : gmap Z (node T U)) c :
  closed_network cap qs ns → (∀ z, cap z → (1 ≤ z)%Z) → (∀ i n, ns !! i = Some n → is_concat (node_kind n) = false) →
  (∀ i n, ns !! i = Some n → source_ends (node_kind n) (user_state n)) →
  (∀ i n, ns !! i = Some n → never_throws (node_kind n)) → runs GetTransferredBytes qs aqs ns c →
  inevitably (moves qs aqs) (results ns) c.
Proof.
  intros Hcn Hcap Hone Hend Hnt Hr.
  eapply (inevitably_mono _ (runs GetTransferredBytes qs aqs ns)); [| |done|by eapply runs_succeeds].
  - intros x y Hx (now & i & Hs). by eapply runs_step.
  - intros c1 Hr1. by eapply succeeded_results.
Qed.

Lemma results_fmap (f : node T U → node T U) ns c :
  (∀ n, out_duty (f n) = out_duty n) → (∀ n q, expects (f n) q = expects n q) →
  (∀ n u tr, behaves (f n) u tr → behaves n u tr) → results (f <$> ns) c → results ns c.
Proof.
  intros Ho Hx Hb [Hnode Hflow]. split.
  - intros i n Hn. destruct (Hnode i (f n)) as (n' & Hp & Hbn); [by rewrite lookup_fmap, Hn|]. eauto.
  - intros q i n Hn Hxn. rewrite <- (writers_fmap f) by done. apply (Hflow q i (f n)); [by rewrite lookup_fmap, Hn|].
    by rewrite Hx.
Qed.

Lemma running_computes option garbage ex s s' c :
  reaches option s → self_contained (nodes_ s.2) → running GetTransferredBytes garbage ex s s' c → (1 ≤ channel_size (option_ s.2))%Z →
  (∀ i n, nodes_ s.2 !! i = Some n → is_concat (node_kind n) = false) → sources_end s →
  (∀ i n, nodes_ s.2 !! i = Some n → never_throws (node_kind n)) →
  inevitably (moves (queues s'.1) (abort_queues s'.1)) (results (nodes_ s.2)) c.
Proof.
  intros Hs Hsc Hr Hsize Hone Hend Hnt. destruct (running_closed _ _ _ _ _ _ _ Hs Hsc Hr) as (Hc & _ & Hns).
  eapply (inevitably_mono _ (λ _, True) (results (nodes_ s'.2))); [done| |done|].
  - intros c1 _. rewrite Hns. apply results_fmap; unfold launched; by destruct (bind_abort_channel _).
  - eapply runs_computes; [exact Hc|by intros z <-|..|apply Hr].
    + by apply (running_nodes GetTransferredBytes garbage ex s s' c (λ k _, is_concat k = false)).
    + by apply (running_nodes GetTransferredBytes garbage ex s s' c source_ends).
    + by apply (running_nodes GetTransferredBytes garbage ex s s' c (λ k _, never_throws k)).
Qed.

End pipelines.

(** ** Pipelines given by a table *)

(** What a node is connected to: [in_ends] counts the ends of file it expects
    from each queue. *)
Record wires (T U : Type) := Wires {
  w_kind : kind T U;
  w_state : U;
  in_ends : gmap qid nat;
  w_in : option qid;
  w_out : option qid;
  w_outs : list qid;
  w_size : Z;
}.
Arguments Wires {T U} _ _ _ _ _ _ _.
Arguments w_kind {T U} _.
Arguments w_state {T U} _.
Arguments in_ends {T U} _.
Arguments w_in {T U} _.
Arguments w_out {T U} _.
Arguments w_outs {T U} _.
Arguments w_size {T U} _.

Definition ports {T U} (n : node T U) : wires T U :=
  Wires (node_kind n) (user_state n) (in_duty n) (inq n) (outq n) (ptrs (outputs_ n)) (output_size_ n).

Section table.
Context {T U : Type} (ns : gmap Z (node T U)) (table : list (Z * wires T U)).
Hypothesis Htable : ports <$> ns = list_to_map table.
Implicit Types (i : Z) (w : wires T U).

Lemma table_at i w : list_to_map (M := gmap Z (wires T U)) table !! i = Some w → ∃ n, ns !! i = Some n ∧ ports n = w.
Proof using Htable. rewrite <- Htable. intros (n & <- & Hn)%lookup_fmap_Some. eauto. Qed.

(** What holds of the nodes of the table. *)
Lemma table_nodes (P : wires T U → Prop) :
  Forall (λ iw, P iw.2) table → ∀ i n, ns !! i = Some n → P (ports n).
Proof using Htable.
  rewrite Forall_forall. intros HP i n Hn.
  assert ((i, ports n) ∈ table) as Hin; [|by apply HP in Hin].
  apply elem_of_list_to_map_2. rewrite <- Htable, lookup_fmap, Hn. done.
Qed.

Context (c : config (T := T) (U := U)).
Hypothesis Hc : results ns c.

(** Node [i] has returned; its state is [u]. *)
Definition ended_in i (u : U) : Prop := ∃ n', threads c !! i = Some (Ret (n', Value tt)) ∧ user_state n' = u.

Lemma node_result i k u0 d qi qo outs size :
  list_to_map (M := gmap Z (wires T U)) table !! i = Some (Wires k u0 d qi qo outs size) →
  ∃ u n, ended_in i u ∧ behaves n u (traces c !!! i) ∧ node_kind n = k ∧ user_state n = u0 ∧
    inq n = qi ∧ outq n = qo ∧ ptrs (outputs_ n) = outs ∧ output_size_ n = size.
Proof using Hc Htable.
  intros (n & Hn & Hw)%table_at. injection Hw as Hk Hu Hd Hi Ho Hs Hz. destruct (rs_node _ _ Hc i n Hn) as (n' & Hp & Hb).
  exists (user_state n'), n. unfold ended_in. eauto 10.
Qed.

Lemma queue_flow i w q W :
  list_to_map (M := gmap Z (wires T U)) table !! i = Some w → 0 < in_ends w !!! q → writers ns q = W →
  read c i q ≡ₚ concat ((λ j, wrote c j q) <$> W).
Proof using Hc Htable.
  intros (n & Hn & <-)%table_at Hx <-. by apply (rs_flow _ _ Hc q i n Hn).
Qed.

End table.

(** Splits a property of all nodes of a table. *)
Ltac each_node tac := repeat (apply Forall_cons_2; [cbn [snd]; tac|]); apply Forall_nil_2.

(** ** Checking a network

    A network given by a table of nodes, whoever has wired it, is closed if a
    finite check succeeds. *)

Section check.
Context {T U : Type}.
Implicit Types (n : node T U) (ns : gmap Z (node T U)).

Definition duties_below (N : nat) n : Prop :=
  map_Forall (λ q _, q < N) (in_duty n) ∧ set_Forall (λ q, q < N) (out_duty n).

#[global] Instance wired_dec n : Decision (wired n).
Proof. unfold wired, in_wired, out_wired, multi_wired. destruct (node_kind n); apply _. Defined.

(** The writers and the reader of a queue. *)
Definition queue_ok (rank : Z → nat) ns (q : qid) : Prop :=
  Σ[n ∈ ns] writes n q = Σ[n ∈ ns] expects n q ∧
  map_Forall (λ b nb, 0 < expects nb q →
    map_Forall (λ a na, (0 < expects na q → a = b) ∧ (0 < writes na q → rank a < rank b)) ns) ns.

Definition network_ok (qs : list Z) (rank : Z → nat) ns : bool :=
  bool_decide (
    map_Forall (λ _ n, wired n ∧ before_work (node_kind n) n = None ∧ duties_below (length qs) n) ns ∧
    Forall (λ z, 1 ≤ z)%Z qs ∧
    Forall (queue_ok rank ns) (seq 0 (length qs))).

Lemma duties_below_spec N n q : duties_below N n → 0 < writes n q + expects n q → q < N.
Proof.
  intros [Hin Hout] Hq. unfold writes, expects in Hq. case_decide as Hw; [by apply Hout|].
  rewrite lookup_total_alt in Hq. destruct (in_duty n !! q) eqn:Hd; [by eapply Hin|]. simpl in Hq. lia.
Qed.

Lemma network_ok_closed qs rank ns :
  network_ok qs rank ns = true → closed_network (λ z, 1 ≤ z)%Z qs ns.
Proof.
  intros (Hns & Hcap & Hqs)%bool_decide_eq_true. rewrite Forall_forall in Hqs.
  assert (∀ i n q, ns !! i = Some n → 0 < writes n q + expects n q → q < length qs) as Hlt.
  { intros i n q (_ & _ & Hd)%Hns. by apply duties_below_spec. }
  assert (∀ q, q < length qs → queue_ok rank ns q) as Hok by (intros q Hq; apply Hqs, elem_of_seq; lia).
  split.
  - intros i n (? & ? & _)%Hns. done.
  - intros q. destruct (decide (q < length qs)) as [Hq|Hq]; [by apply Hok|].
    rewrite !sum_over_zero; [done|..]; intros i n Hn; apply Nat.le_0_r, Nat.nlt_ge; intros Hpos;
      destruct Hq; eapply Hlt; try done; lia.
  - intros q a b na nb Ha Hb Hxa Hxb. destruct (Hok q) as [_ Hr]; [eapply Hlt; [exact Ha|lia]|].
    by apply (Hr b nb Hb Hxb a na Ha).
  - exists rank. intros q a b na nb Ha Hb Hw Hx. destruct (Hok q) as [_ Hr]; [eapply Hlt; [exact Ha|lia]|].
    by apply (Hr b nb Hb Hx a na Ha).
  - intros q a n Hn Hq. destruct (lookup_lt_is_Some_2 qs q) as [z Hz]; [by eapply Hlt|]. exists z. split; [done|].
    rewrite Forall_forall in Hcap. by eapply Hcap, list_elem_of_lookup_2.
Qed.

(** C17: Pipelines joined through [ChannelSource] and [ChannelSink], or wired in
    any other way: if the executable check of their nodes succeeds (which
    includes that all queues have a positive capacity), every interleaving of
    their coroutines is safe.  If moreover there is no [Concat] node, the sources
    end and the user's functions do not throw, every run ends with all nodes
    returned, all queues empty, and the reader of every queue having read a
    permutation of what its writers wrote. *)
Theorem checked_network (GetTransferredBytes : T → Z) qs aqs rank ns c :
  network_ok qs rank ns = true → runs GetTransferredBytes qs aqs ns c →
  safe qs ns c ∧
  ((∀ i n, ns !! i = Some n → is_concat (node_kind n) = false) →
   (∀ i n, ns !! i = Some n → source_ends (node_kind n) (user_state n)) →
   (∀ i n, ns !! i = Some n → never_throws (node_kind n)) →
   inevitably (moves qs aqs) (λ c', succeeded ns c' ∧ results ns c') c).
Proof.
  intros Hok%network_ok_closed Hr. split; [by eapply runs_safe|]. intros Hone Hend Hnt.
  eapply (inevitably_mono _ (runs GetTransferredBytes qs aqs ns)); [| |done|].
  - intros x y Hx (now & i & Hs). by eapply runs_step.
  - intros c1 Hr1 Hs. split; [exact Hs|]. by eapply succeeded_results.
  - by eapply runs_succeeds.
Qed.

End check.
