(* ===== verification/Link.v ===== *)
(** * Pipelines joined by channels

    A [ChannelSink] writes to, and a [ChannelSource] reads from, a channel the
    user has set.  Two pipelines of one program whose [ChannelSink]s and
    [ChannelSource]s are bound to the same channels ([linked]) form one closed
    network, so that the theorems of [Network], [Termination] and [Flow] hold
    for the two together.  A pipeline that a transform runs between its own
    input and output ([embeds]) takes the transform's place in the network. *)

From stdpp Require Import base functions gmap strings fin_maps fin_sets list.
From S2P Require Import Prelude Events Coro Processor Nodes PortLogic NodeProtocol NodeRun Pipeline PipelineInv PipelineOps Builder Frame Merge Network Termination Flow.

Section outer.
Context {T U : Type}.
Implicit Types (n : node T U) (ns : gmap Z (node T U)) (q : qid).

(** ** The ports to the outside *)

Definition outer_writes n q : nat := if outside_out (node_kind n) then writes n q else 0.
Definition outer_expects n q : nat := if outside_in (node_kind n) then expects n q else 0.

Lemma writes_split_ports n q : writes n q = inner_writes n q + outer_writes n q.
Proof. unfold inner_writes, outer_writes. destruct (outside_out (node_kind n)); lia. Qed.
Lemma expects_split_ports n q : expects n q = inner_expects n q + outer_expects n q.
Proof. unfold inner_expects, outer_expects. destruct (outside_in (node_kind n)); lia. Qed.

Lemma sum_writes_split ns q : Σ[n ∈ ns] writes n q =
  (Σ[n ∈ ns] inner_writes n q) + (Σ[n ∈ ns] outer_writes n q).
Proof.
  rewrite <- sum_over_plus. apply sum_over_ext. intros. apply writes_split_ports.
Qed.
Lemma sum_expects_split ns q : Σ[n ∈ ns] expects n q =
  (Σ[n ∈ ns] inner_expects n q) + (Σ[n ∈ ns] outer_expects n q).
Proof.
  rewrite <- sum_over_plus. apply sum_over_ext. intros. apply expects_split_ports.
Qed.


(** A port that is set to an allocated queue. *)
Definition port_set (qs : list Z) (o : option qid) : Prop :=
  match o with Some q => q < length qs | None => False end.
#[global] Instance port_set_dec qs o : Decision (port_set qs o).
Proof. destruct o; simpl; apply _. Defined.

Definition ports_set (qs : list Z) n : Prop :=
  (outside_in (node_kind n) = true → port_set qs (inq n)) ∧ (outside_out (node_kind n) = true → port_set qs (outq n)).


Lemma outer_or_inner n q : 0 < expects n q → 0 < inner_expects n q ∨ 0 < outer_expects n q.
Proof. rewrite expects_split_ports. lia. Qed.



(** ** Two linked pipelines *)

(** The queue [q] joins [ns] and [ns'], or is not used as a port to the outside. *)
Definition joins (cap : Z → Prop) (qs : list Z) ns ns' q : Prop :=
  Σ[n ∈ ns] outer_writes n q = Σ[n ∈ ns'] outer_expects n q ∧ Σ[n ∈ ns'] outer_expects n q ≤ 1 ∧
  (0 < Σ[n ∈ ns'] outer_expects n q →
   Σ[n ∈ ns] inner_writes n q = 0 ∧ Σ[n ∈ ns'] inner_writes n q = 0 ∧
   match qs !! q with Some c => cap c | None => False end).

(** The [ChannelSink]s of [ns] and the [ChannelSource]s of [ns'] are bound to the
    same channels, one of each to a channel, which are not queues the builder
    has made. *)
Definition linked (cap : Z → Prop) (qs : list Z) ns ns' : Prop :=
  map_Forall (λ _ n, outside_in (node_kind n) = false ∧ ports_set qs n) ns ∧
  map_Forall (λ _ n, outside_out (node_kind n) = false ∧ ports_set qs n) ns' ∧
  Forall (joins cap qs ns ns') (seq 0 (length qs)).

#[global] Instance ports_set_dec qs n : Decision (ports_set qs n).
Proof. unfold ports_set. apply _. Defined.
#[global] Instance joins_dec cap `{∀ z, Decision (cap z)} qs ns ns' q : Decision (joins cap qs ns ns' q).
Proof. unfold joins. destruct (qs !! q); apply _. Defined.
#[global] Instance linked_dec cap `{∀ z, Decision (cap z)} qs ns ns' : Decision (linked cap qs ns ns').
Proof. unfold linked. apply _. Defined.



(** ** A pipeline in the place of a transform *)

(** The nodes of a pipeline between the queues [qi] and [qo]: it has one
    [ChannelSource], bound to [qi], and one [ChannelSink], bound to [qo]. *)
Definition embeds (qi qo : qid) ns : Prop :=
  map_Forall (λ _ n, (outside_in (node_kind n) = true → inq n = Some qi) ∧
                     (outside_out (node_kind n) = true → outq n = Some qo)) ns ∧
  Σ[n ∈ ns] (if outside_in (node_kind n) then 1 else 0) = 1 ∧
  Σ[n ∈ ns] (if outside_out (node_kind n) then 1 else 0) = 1.

#[global] Instance embeds_dec qi qo ns : Decision (embeds qi qo ns).
Proof. unfold embeds. apply _. Defined.

Lemma embeds_expects qi qo ns n i q :
  embeds qi qo ns → ns !! i = Some n → connected n →
  outer_expects n q = if decide (q = qi) then if outside_in (node_kind n) then 1 else 0 else 0.
Proof.
  intros (Hp & _ & _) Hi (_ & _ & Hc). destruct (Hp i n Hi) as [Hin _]. unfold outer_expects, expects, in_duty.
  destruct (node_kind n); simpl; try (by case_decide). rewrite (Hin eq_refl), (Hc eq_refl), lookup_total_singleton.
  repeat case_decide; by subst.
Qed.
Lemma embeds_writes qi qo ns n i q :
  embeds qi qo ns → ns !! i = Some n →
  outer_writes n q = if decide (q = qo) then if outside_out (node_kind n) then 1 else 0 else 0.
Proof.
  intros (Hp & _ & _) Hi. destruct (Hp i n Hi) as [_ Hout]. unfold outer_writes, writes, out_duty.
  destruct (node_kind n); simpl; try (by case_decide). rewrite (Hout eq_refl). repeat case_decide; set_solver.
Qed.

Lemma embeds_sum_expects qi qo ns q :
  embeds qi qo ns → (∀ i n, ns !! i = Some n → connected n) →
  Σ[n ∈ ns] outer_expects n q = if decide (q = qi) then 1 else 0.
Proof.
  intros He Hc. erewrite sum_over_ext; [|intros i n Hn; by eapply embeds_expects; eauto].
  case_decide; [apply He|]. by apply sum_over_zero.
Qed.
Lemma embeds_sum_writes qi qo ns q :
  embeds qi qo ns → Σ[n ∈ ns] outer_writes n q = if decide (q = qo) then 1 else 0.
Proof.
  intros He. erewrite sum_over_ext; [|intros i n Hn; by eapply embeds_writes; eauto].
  case_decide; [apply He|]. by apply sum_over_zero.
Qed.

Section embed.
Context (cap : Z → Prop) (qs : list Z) (ns sub : gmap Z (node T U)) (t : Z) (nt : node T U) (qi qo : qid).
Hypothesis Hcn : closed_network cap qs ns.
Hypothesis Hon : open_network cap qs sub.
Hypothesis Hd : ns ##ₘ sub.
Hypothesis Hap : ∀ a n b m q, ns !! a = Some n → sub !! b = Some m → 0 < writes n q + expects n q →
  inner_writes m q = 0 ∧ inner_expects m q = 0.
Hypothesis Ht : ns !! t = Some nt.
Hypothesis Hwt : ∀ q, writes nt q = if decide (q = qo) then 1 else 0.
Hypothesis Hxt : ∀ q, expects nt q = if decide (q = qi) then 1 else 0.
Hypothesis Hem : embeds qi qo sub.

#[local] Abbreviation flat := (delete t ns ∪ sub).

Lemma flat_disjoint : delete t ns ##ₘ sub.
Proof. by apply map_disjoint_delete_l. Qed.

Lemma flat_cases a n : flat !! a = Some n → (a ≠ t ∧ ns !! a = Some n) ∨ sub !! a = Some n.
Proof. intros [[? ?]%lookup_delete_Some|?]%lookup_union_Some; auto using flat_disjoint. Qed.

(** A node of [sub] on a queue of the other network is one of its ends. *)
Lemma sub_outer_expects b m q a n :
  sub !! b = Some m → ns !! a = Some n → 0 < writes n q + expects n q → 0 < expects m q → q = qi.
Proof.
  intros Hb Ha Hq Hx. rewrite expects_split_ports, (proj2 (Hap _ _ _ _ _ Ha Hb Hq)) in Hx.
  rewrite (embeds_expects _ _ _ _ _ _ Hem Hb) in Hx by (by eapply (on_connected _ _ _ Hon)). by case_decide; [|simpl in Hx; lia].
Qed.
Lemma sub_outer_writes b m q a n :
  sub !! b = Some m → ns !! a = Some n → 0 < writes n q + expects n q → 0 < writes m q → q = qo.
Proof.
  intros Hb Ha Hq Hw. rewrite writes_split_ports, (proj1 (Hap _ _ _ _ _ Ha Hb Hq)) in Hw.
  rewrite (embeds_writes _ _ _ _ _ _ Hem Hb) in Hw. by case_decide; [|simpl in Hw; lia].
Qed.

(** An end of [sub] is on a queue of the transform. *)
Lemma sub_ends b m q :
  sub !! b = Some m → 0 < outer_writes m q + outer_expects m q → 0 < writes nt q + expects nt q.
Proof.
  intros Hb. rewrite (embeds_writes _ _ _ _ _ _ Hem Hb), (embeds_expects _ _ _ _ _ _ Hem Hb), Hwt, Hxt
    by (by eapply (on_connected _ _ _ Hon)).
  repeat case_decide; lia.
Qed.

(** A queue of [sub] is used at its ends or inside, not both. *)
Lemma sub_inside a na b nb q :
  sub !! a = Some na → sub !! b = Some nb → 0 < inner_writes na q + inner_expects na q →
  outer_writes nb q = 0 ∧ outer_expects nb q = 0.
Proof.
  intros Ha Hb Hq. destruct (decide (0 < outer_writes nb q + outer_expects nb q)) as [Ho|]; [|lia].
  apply (sub_ends b nb q Hb) in Ho. destruct (Hap t nt a na q Ht Ha Ho). lia.
Qed.

Lemma sub_reader q a b na nb :
  sub !! a = Some na → sub !! b = Some nb → 0 < expects na q → 0 < expects nb q → a = b.
Proof.
  intros Ha Hb [Hqa|Hqa]%outer_or_inner [Hqb|Hqb]%outer_or_inner.
  - by eapply (on_reader _ _ _ Hon q).
  - destruct (sub_inside a na b nb q); [done..|lia|lia].
  - destruct (sub_inside b nb a na q); [done..|lia|lia].
  - destruct (decide (a = b)); [done|]. pose proof (sum_over_two (λ n, outer_expects n q) sub a b na nb Ha Hb) as H2.
    rewrite (embeds_sum_expects _ _ _ _ Hem) in H2 by (intros; by eapply (on_connected _ _ _ Hon)).
    simpl in H2. case_decide; lia.
Qed.

Lemma ends_differ : qi ≠ qo.
Proof.
  intros He. destruct (cn_acyclic _ _ _ Hcn) as [rank Hrank]. pose proof (Hrank qi t t nt nt Ht Ht) as Hr.
  rewrite Hwt, Hxt, !decide_True in Hr by done. lia.
Qed.

Lemma sub_edge q a b na nb :
  sub !! a = Some na → sub !! b = Some nb → 0 < writes na q → 0 < expects nb q →
  0 < inner_writes na q ∧ 0 < inner_expects nb q.
Proof.
  intros Ha Hb Hw Hx. pose proof (sub_inside a na b nb q Ha Hb). pose proof (sub_inside b nb a na q Hb Ha).
  pose proof ends_differ. rewrite writes_split_ports in Hw. rewrite expects_split_ports in Hx.
  pose proof (embeds_writes _ _ _ _ _ q Hem Ha) as Hwa.
  pose proof (embeds_expects _ _ _ _ _ q Hem Hb) as Hxb. specialize (Hxb ltac:(by eapply (on_connected _ _ _ Hon))).
  repeat case_decide; subst; try done; lia.
Qed.

Lemma flat_acyclic : ∃ rank : Z → nat, ∀ q a b na nb,
  flat !! a = Some na → flat !! b = Some nb → 0 < writes na q → 0 < expects nb q → rank a < rank b.
Proof.
  destruct (cn_acyclic _ _ _ Hcn) as [R HR], (on_acyclic _ _ _ Hon) as [r Hr].
  destruct (ranks_bounded (dom sub) r) as [B HB].
  exists (λ x, if decide (x ∈ dom sub) then R t * S B + r x else R x * S B).
  assert (∀ x m, ns !! x = Some m → x ∉ dom sub) as Hnot.
  { intros x m Hx [m' Hm]%elem_of_dom. by eapply (map_disjoint_spec ns sub). }
  assert (∀ x y, x < y → x * S B + B < y * S B) as Hscale by (intros; nia).
  intros q a b na nb [[_ Ha]|Ha]%flat_cases [[_ Hb]|Hb]%flat_cases Hw Hx.
  - rewrite !decide_False by eauto. specialize (Hscale _ _ (HR q a b na nb Ha Hb Hw Hx)). lia.
  - rewrite decide_False by eauto. rewrite decide_True by (by eapply elem_of_dom_2).
    assert (q = qi) as -> by exact (sub_outer_expects b nb q a na Hb Ha ltac:(lia) Hx).
    assert (R a < R t) as Hlt by (eapply (HR qi); [done..|rewrite Hxt, decide_True by done; lia]).
    specialize (Hscale _ _ Hlt). lia.
  - rewrite decide_True by (by eapply elem_of_dom_2). rewrite decide_False by eauto.
    assert (q = qo) as -> by exact (sub_outer_writes a na q b nb Ha Hb ltac:(lia) Hw).
    assert (R t < R b) as Hlt by (eapply (HR qo); [done..|rewrite Hwt, decide_True by done; lia|done]).
    specialize (Hscale _ _ Hlt). apply elem_of_dom_2, HB in Ha. lia.
  - rewrite !decide_True by (by eapply elem_of_dom_2). destruct (sub_edge q a b na nb Ha Hb Hw Hx).
    specialize (Hr q a b na nb). apply Nat.add_lt_mono_l. auto.
Qed.

Lemma flat_balance q : Σ[n ∈ flat] writes n q = Σ[n ∈ flat] expects n q.
Proof.
  rewrite !sum_over_union by apply flat_disjoint.
  rewrite (sum_writes_split sub), (sum_expects_split sub), (on_balance _ _ _ Hon), (embeds_sum_writes _ _ _ _ Hem).
  rewrite (embeds_sum_expects _ _ _ _ Hem) by (intros; by eapply (on_connected _ _ _ Hon)).
  pose proof (cn_balance _ _ _ Hcn q) as Hb.
  rewrite (sum_over_delete (λ n, writes n q) ns t nt Ht), (sum_over_delete (λ n, expects n q) ns t nt Ht), Hwt, Hxt in Hb. lia.
Qed.

Lemma embed_flat_closed : closed_network cap qs flat.
Proof.
  split; [|apply flat_balance| |apply flat_acyclic|].
  - intros a n [[_ Ha]|Ha]%flat_cases; [by eapply (cn_wired _ _ _ Hcn)|].
    destruct Hem as [Hports _]. destruct (Hports a n Ha) as [Hi Ho].
    apply connected_wired; [by eapply (on_connected _ _ _ Hon)|..]; intros Hk; rewrite ?(Hi Hk), ?(Ho Hk); done.
  - intros q a b na nb [[Hat Ha]|Ha]%flat_cases [[Hbt Hb]|Hb]%flat_cases Hxa Hxb.
    + by eapply (cn_reader _ _ _ Hcn q).
    + destruct Hat. assert (q = qi) as -> by exact (sub_outer_expects b nb q a na Hb Ha ltac:(lia) Hxb).
      eapply (cn_reader _ _ _ Hcn qi); [done..|]. rewrite Hxt, decide_True by done. lia.
    + destruct Hbt. assert (q = qi) as -> by exact (sub_outer_expects a na q b nb Ha Hb ltac:(lia) Hxa).
      eapply (cn_reader _ _ _ Hcn qi); [done..|]. rewrite Hxt, decide_True by done. lia.
    + by eapply (sub_reader q).
  - intros q a n [[_ Ha]|Ha]%flat_cases Hq; [by eapply (cn_cap _ _ _ Hcn)|].
    rewrite writes_split_ports, expects_split_ports in Hq.
    destruct (decide (0 < inner_writes n q + inner_expects n q)); [by eapply (on_cap _ _ _ Hon)|].
    eapply (cn_cap _ _ _ Hcn q t); [done|]. eapply sub_ends; [done|lia].
Qed.

End embed.

End outer.

(** ** Running two pipelines together *)

Section pipelines.
Context {T U : Type} (GetTransferredBytes : T → Z) `{Inhabited U} `{HashOrderLaws}.
Implicit Types (n : node T U) (ns : gmap Z (node T U)) (p left right outer sub : Pipeline T U) (w : world) (s : state T U)
  (c : config (T := T) (U := U)).

(** What is promised of a state [c] of the coroutines of the nodes [ns], which
    [Run] has made of the nodes [A] and [B] of two pipelines; [bound]: both have
    [bind_abort_channel] set. *)
Definition sound_run (qs aqs : list Z) (A B ns : gmap Z (node T U)) (bound : Prop) c : Prop :=
  let all := λ i n, A !! i = Some n ∨ B !! i = Some n in
  safe qs ns c ∧
  ((∀ i n, all i n → is_concat (node_kind n) = false) →
   (∀ i n, all i n → source_ends (node_kind n) (user_state n)) →
   (bound → inevitably (moves qs aqs) (final_state ns) c) ∧
   ((∀ i n, all i n → never_throws (node_kind n)) → inevitably (moves qs aqs) (results ns) c)).

Lemma launched_union_alike (f g : node T U → node T U) ns ns' :
  ns ##ₘ ns' → (∀ n, alike n (f n)) → (∀ n, alike n (g n)) →
  ∀ id, option_Forall2 alike ((ns ∪ ns') !! id) (((f <$> ns) ∪ (g <$> ns')) !! id).
Proof.
  intros Hd Hf Hg id. rewrite !lookup_union, !lookup_fmap.
  destruct (ns !! id) as [n|] eqn:Hn, (ns' !! id) as [n'|] eqn:Hn'; simpl; constructor; auto.
Qed.

Section launched.
Context (A B : gmap Z (node T U)) (garbage garbage' : Z) (s s' : state T U).
Hypothesis Hd : A ##ₘ B.
#[local] Abbreviation both := ((launched garbage s <$> A) ∪ (launched garbage' s' <$> B)).

(** A property of the classes and states of all nodes. *)
Lemma both_launched (P : kind T U → U → Prop) :
  (∀ i n, A !! i = Some n ∨ B !! i = Some n → P (node_kind n) (user_state n)) →
  ∀ i n, both !! i = Some n → P (node_kind n) (user_state n).
Proof using Hd.
  intros HP i n [Hi|Hi]%lookup_union_Some; [..|by apply map_disjoint_fmap];
    apply lookup_fmap_Some in Hi as (m & <- & Hm); apply launched_kind; eauto.
Qed.

Lemma both_closed cap qs : closed_network cap qs (A ∪ B) → closed_network cap qs both.
Proof using Hd.
  intros Hcn. eapply closed_network_alike; [exact Hcn|]. apply launched_union_alike; [done|apply launched_alike..].
Qed.

Lemma both_bound cap qs :
  closed_network cap qs both → bind_abort_channel (option_ s.2) = true → bind_abort_channel (option_ s'.2) = true →
  ∀ i n, both !! i = Some n → may_end n = false.
Proof using Hd.
  intros Hcn Hb Hb' i n Hi. destruct (cn_wired _ _ _ Hcn i n Hi) as [_ Hch].
  apply lookup_union_Some in Hi; [|by apply map_disjoint_fmap].
  destruct Hi as [(m & <- & _)%lookup_fmap_Some|(m & <- & _)%lookup_fmap_Some]; by apply launched_bound.
Qed.

Lemma both_sound_run cap qs aqs c :
  closed_network cap qs (A ∪ B) → (∀ z, cap z → (1 ≤ z)%Z) → runs GetTransferredBytes qs aqs both c →
  sound_run qs aqs A B both
    (bind_abort_channel (option_ s.2) = true ∧ bind_abort_channel (option_ s'.2) = true) c.
Proof using Hd.
  intros Hcn%both_closed Hcap Hr. split; [by eapply runs_safe|]. intros Hone Hsrc.
  pose proof (both_launched (λ k _, is_concat k = false) Hone) as Hone'. pose proof (both_launched source_ends Hsrc) as Hsrc'.
  split.
  - intros [Hb Hb']. eapply runs_completes; [exact Hcn|done..|by eapply both_bound|done].
  - intros Hnt. eapply runs_computes; [exact Hcn|done..| |done]. exact (both_launched (λ k _, never_throws k) Hnt).
Qed.

End launched.

Lemma pair_apart_nodes option option' w left right :
  pair_reaches option option' w left right → apart_nodes (nodes_ left) (nodes_ right).
Proof. intros [_ _ [Hd Hu]]%pair_reaches_ok. split; [by apply map_disjoint_dom|done]. Qed.

Lemma pair_open option option' w left right :
  pair_reaches option option' w left right → leaves_ left = ∅ → leaves_ right = ∅ →
  open_network (eq (channel_size (option_ left))) (queues w) (nodes_ left) ∧
  open_network (eq (channel_size (option_ right))) (queues w) (nodes_ right).
Proof.
  intros [[Hb _] [Hb' _] _]%pair_reaches_ok HL HR.
  split; [exact (built_open (w, left) Hb HL)|exact (built_open (w, right) Hb' HR)].
Qed.


(** *** A transform that runs a pipeline *)

Lemma transform_duties n qi qo :
  is_transform (node_kind n) = true → input_count_ n = 1%Z → inq n = Some qi → outq n = Some qo →
  (∀ q, writes n q = if decide (q = qo) then 1 else 0) ∧ (∀ q, expects n q = if decide (q = qi) then 1 else 0).
Proof.
  intros Hk Hc Hi Ho. split; intros q.
  - rewrite <- inner_writes_inside by (by destruct (node_kind n)).
    rewrite writes_one_output by (by destruct (node_kind n)). rewrite Ho. repeat case_decide; by simplify_eq.
  - rewrite <- inner_expects_inside by (by destruct (node_kind n)).
    rewrite expects_one_input by (by destruct (node_kind n)). rewrite Hi, Hc. repeat case_decide; by simplify_eq.
Qed.

Lemma closed_weaken (cap cap' : Z → Prop) qs ns :
  (∀ z, cap z → cap' z) → closed_network cap qs ns → closed_network cap' qs ns.
Proof. intros Hc [? ? ? ? Hcap]. split; try done. intros q a n Hn Hq. destruct (Hcap q a n Hn Hq) as (z & ? & ?). eauto. Qed.

Lemma self_contained_apart ns ns' :
  self_contained ns → apart_nodes ns ns' →
  ∀ a n b m q, ns !! a = Some n → ns' !! b = Some m → 0 < writes n q + expects n q →
    inner_writes m q = 0 ∧ inner_expects m q = 0.
Proof.
  intros Hs [_ Hu] a n b m q Ha Hb Hq. destruct (Hs a n Ha) as [Hi Ho].
  rewrite <- inner_writes_inside, <- inner_expects_inside in Hq by done.
  specialize (Hu a n b m q Ha Hb Hq). unfold uses in Hu. lia.
Qed.

(** C11: A transform whose [work] builds a pipeline with one [ChannelSource] on
    its own input and one [ChannelSink] on its own output, and runs it: if one
    node writes to the input, the nodes of that pipeline take the place of the
    transform.  However the coroutines of both pipelines are interleaved, none
    of them dereferences a null pointer or fails an assertion and no queue loses,
    duplicates or reorders data; without [Concat] nodes and with sources that
    end, all coroutines return after finitely many steps, whatever the user's
    functions throw, if [bind_abort_channel] is set for both pipelines; and if
    no function throws, every run ends with every node returned without an
    exception, having done what its class promises, and the reader of each queue
    having read a permutation of what its writers wrote.  The channel sizes of
    both pipelines are positive, and the outer one has no [ChannelSource] or
    [ChannelSink] of its own; the coroutine of the transform itself, which only waits, is
    not one of those that are interleaved. *)
Theorem embedded_pipeline option option' w w0 outer sub t nt qi qo garbage garbage' ex ex' s l s' l' c :
  pair_reaches option option' w outer sub →
  IsCompleted outer = true → IsCompleted sub = true → self_contained (nodes_ outer) →
  nodes_ outer !! t = Some nt → is_transform (node_kind nt) = true → input_count_ nt = 1%Z →
  inq nt = Some qi → outq nt = Some qo → embeds qi qo (nodes_ sub) →
  (1 ≤ channel_size (option_ outer))%Z → (1 ≤ channel_size (option_ sub))%Z →
  Run_launch garbage (Some ex) (w0, outer) = (s, Ok l) → Run_launch garbage' (Some ex') (w, sub) = (s', Ok l') →
  let ns := delete t (nodes_ s.2) ∪ nodes_ s'.2 in
  runs GetTransferredBytes (queues s'.1) (abort_queues s'.1) ns c →
  sound_run (queues s'.1) (abort_queues s'.1) (delete t (nodes_ outer)) (nodes_ sub) ns
    (bind_abort_channel (option_ outer) = true ∧ bind_abort_channel (option_ sub) = true) c.
Proof.
  intros Hp Hl%bool_decide_eq_true Hr%bool_decide_eq_true Hsc Ht Hk Hc Hi Ho Hem Hsl Hsr Hrun Hrun' ns. subst ns.
  assert (nodes_ outer ≠ ∅) as Hn by (intros He; by rewrite He in Ht).
  assert (nodes_ sub ≠ ∅) as Hn' by (intros He; destruct Hem as (_ & Hone & _); by rewrite He, sum_over_empty in Hone).
  destruct (Run_launch_returns garbage ex (w0, outer) Hl Hn) as (s1 & l1 & Hrun1 & _ & Hns & _).
  destruct (Run_launch_returns garbage' ex' (w, sub) Hr Hn') as (s2 & l2 & Hrun2 & Hq & Hns' & _).
  rewrite Hrun1 in Hrun. rewrite Hrun2 in Hrun'. simplify_eq. rewrite Hns, Hns', Hq, <- fmap_delete.
  pose proof (pair_apart_nodes _ _ _ _ _ Hp) as Hap. destruct (pair_open _ _ _ _ _ Hp Hl Hr) as [HL HR].
  apply (both_sound_run _ _ garbage garbage' (w0, outer) (w, sub) (map_disjoint_delete_l _ _ _ (proj1 Hap)) (λ z, 1 ≤ z)%Z); [|done].
  destruct (transform_duties nt qi qo Hk Hc Hi Ho) as [Hwt Hxt].
  apply (embed_flat_closed _ _ _ _ t nt qi qo); try done.
  - eapply closed_weaken; [|by apply open_closed]. by intros z <-.
  - eapply open_weaken; [|exact HR]. by intros z <-.
  - apply Hap.
  - by apply self_contained_apart.
Qed.

End pipelines.

(** ** Two linked pipelines *)

Module SampleLink.
Import SampleMerge.









End SampleLink.
