(* ===== verification/Examples.v ===== *)
(** * The examples

    [example/number_handle.cc] and [example/hello_world.cc]: their node classes
    and their [main] up to [Run], with what every run of them computes, however
    the coroutines are interleaved.  Writes to the standard output are collected
    in the state of the sink. *)

From stdpp Require Import base functions gmap strings fin_maps fin_sets list.
From S2P Require Import Prelude Queue Events Coro Processor Nodes PortLogic NodeProtocol NodeRun Pipeline PipelineInv Builder Frame Merge Network Termination Flow.

(** A program that builds a pipeline and runs it, up to the launch of the
    coroutines. *)
Lemma build_then_launch {T U} `{Inhabited U} {A} (build : B T U unit) (s s1 : state T U) (text : Pipeline T U → A) garbage ex :
  build s = (s1, Ok tt) →
  (build ;; x ← get text; l ← Run_launch garbage (Some ex); mret (x, l)) s =
  (prod_map id (λ r, match r with Ok l => Ok (text s1.2, l) | Throw e => Throw e | Crash c => Crash c end)
     (Run_launch garbage (Some ex) s1)).
Proof.
  intros Hb. unfold mbind, B_bind. rewrite Hb. simpl.
  by destruct (Run_launch garbage (Some ex) s1) as [s2 [l|e|c]].
Qed.

Lemma pair_with_fst {A B} (x : A * B) a b : x = (a, b) → x = (x.1, b).
Proof. by intros ->. Qed.

(** ** [number_handle.cc] *)

Module NumberHandle.

(** The data members of the node classes: one [int] each, or none.  Signed
    overflow is undefined: [overflow] records that an operation has left the
    range of [int]. *)
Record num_state := NumState { num : Z; overflow : bool }.
#[global] Instance num_state_inhabited : Inhabited num_state := populate (NumState 0 false).

Definition int_ (r : Z) : Z := to_signed 32 (wrap 32 r).
Definition in_int (r : Z) : bool := bool_decide (sint_range 32 r).

(** [a += b] on the member. *)
Definition add_num (v : Z) (u : num_state) : num_state :=
  NumState (int_ (num u + v)) (overflow u || negb (in_int (num u + v))).

Definition NumSource_generate (u : num_state) : num_state * attempt (option Z) :=
  if decide (num u < 100)%Z then
    let u := add_num 1 u in (u, Value (Some (num u)))
  else (u, Value None).

Definition NumSink_consume (u : num_state) (v : Z) : num_state * attempt unit := (add_num v u, Value tt).

Definition NumTransform_transform (u : num_state) (value : Z) : num_state * attempt Z :=
  (NumState (num u) (overflow u || negb (in_int (value * 2))), Value (int_ (value * 2))).

(** [v % 2 == 0]: the remainder of C++ has the sign of [v]. *)
Definition NumFilter_filter (u : num_state) (v : Z) : num_state * attempt bool :=
  (u, Value (bool_decide (Z.rem v 2 = 0)%Z)).

(** [static_cast<size_t>(value)] *)
Definition NumDispatch_dispatch (u : num_state) (value : Z) : num_state * attempt Z :=
  (u, Value (u64 value)).

Definition NumAccumulate_consume (u : num_state) (v : Z) : num_state * attempt unit := (add_num v u, Value tt).
Definition NumAccumulate_generate (u : num_state) : num_state * attempt Z := (u, Value (num u)).

Definition zero : num_state := NumState 0 false.
Definition NumSource (id : Z) (name : string) : node Z num_state :=
  make_node id name 0 0 (KSource NumSource_generate) zero.
Definition NumSink (id : Z) (name : string) : node Z num_state :=
  make_node id name 0 0 (KSink NumSink_consume) zero.
Definition NumTransform (id : Z) (name : string) : node Z num_state :=
  make_node id name 0 0 (KSimpleTransform NumTransform_transform) zero.
Definition NumFilter (id : Z) (name : string) : node Z num_state :=
  make_node id name 0 0 (KFilter NumFilter_filter) zero.
Definition NumDispatch (id size : Z) (name : string) : node Z num_state :=
  make_node id name 0 size (KDispatch NumDispatch_dispatch) zero.
Definition NumAccumulate (id : Z) (name : string) : node Z num_state :=
  make_node id name 0 0 (KAccumulate NumAccumulate_consume NumAccumulate_generate) zero.

Definition number_handle_option : PipelineOption := MkPipelineOption true default_channel_size "number_handle_pipeline".

(** The part of [main] that builds the pipeline; the lambda given to
    [AddTransform] creates four nodes. *)
Definition number_handle_build : B Z num_state unit :=
  i ← GenerateId; s1_id ← AddSource (NumSource i "source1");
  i ← GenerateId; AddTransform s1_id (NumTransform i "transform") ;;
  i ← GenerateId; s2_id ← AddSource (NumSource i "source2");
  i ← GenerateId; AddTransform s2_id (NumFilter i "filter") ;;
  next_id ← Merge_noop;
  i ← GenerateId; DispatchFrom next_id (NumDispatch i 4 "dispatch") ;;
  i ← GenerateId; GenerateId ;; GenerateId ;; GenerateId ;;
  AddTransform_all (λ k, NumAccumulate (i + Z.of_nat k) "accumulate") ;;
  i ← GenerateId; SetSink (NumSink i "sink") ;;
  mret tt.

(** [main], up to the launch of the coroutines by [Run]; [files] is what
    [DumpToFile] has written. *)
Definition number_handle_main (writable : string → bool) (garbage ex : Z) :
    B Z num_state (gmap string string * list (Z * node Z num_state)) :=
  number_handle_build ;;
  files ← get (λ p, DumpToFile writable "number_pipeline.txt" p ∅);
  l ← Run_launch garbage (Some ex);
  mret (files, l).

Definition start : state Z num_state := (World 1 [] [], Pipeline_init number_handle_option).
Definition pipeline : state Z num_state := (number_handle_build start).1.

(** The calls that build the pipeline. *)
Definition calls : list (api (T := Z) (U := num_state)) :=
  [ Construct; CallAddSource (NumSource 1 "source1");
    Construct; CallAddTransform 1 (NumTransform 2 "transform");
    Construct; CallAddSource (NumSource 3 "source2");
    Construct; CallAddTransform 3 (NumFilter 4 "filter");
    CallMerge_noop;
    Construct; CallDispatchFrom 5 (NumDispatch 6 4 "dispatch");
    Construct; Construct; Construct; Construct;
    CallAddTransform_all (λ k, NumAccumulate (11 + Z.of_nat k) "accumulate");
    Construct; CallSetSink (NumSink 15 "sink") ].

(** The shape of the pipeline does not depend on what the nodes compute. *)
Ltac shape :=
  unfold number_handle_build, calls, NumSource, NumSink, NumTransform, NumFilter, NumDispatch, NumAccumulate;
  generalize NumSource_generate NumSink_consume NumTransform_transform NumFilter_filter
    NumDispatch_dispatch NumAccumulate_consume NumAccumulate_generate; intros.

Lemma number_build_calls : number_handle_build start = (exec_all calls start, Ok tt).
Proof. shape. vm_compute. reflexivity. Qed.

Lemma number_calls_legal : legal_all calls start.
Proof.
  shape. cbn [legal_all]. repeat (split; [|]); try done.
  all: first [by apply (bool_decide_unpack _)|vm_compute; intuition congruence|idtac].
  split.
  - intros i Hi. assert (i < 4) as H4 by exact Hi. clear Hi. split; [|done].
    do 4 (destruct i as [|i]; [split; [by split|vm_compute; intuition congruence]|]). lia.
  - intros i Hi. assert (i < 4) as H4 by exact Hi. clear Hi.
    do 4 (destruct i as [|i]; [vm_compute; reflexivity|]). lia.
  - intros i j _ _ Hij. simpl in Hij. lia.
Qed.

Lemma pipeline_reaches : reaches number_handle_option pipeline.
Proof.
  unfold pipeline. rewrite number_build_calls. apply reaches_all; [by apply (reaches_init number_handle_option)|apply number_calls_legal].
Qed.

(** *** The wiring *)

Definition source (o : qid) : wires Z num_state := Wires (KSource NumSource_generate) zero ∅ None (Some o) [] 0.
Definition middle (k : kind Z num_state) (i : qid) (count : nat) (o : qid) : wires Z num_state :=
  Wires k zero {[i := count]} (Some i) (Some o) [] 0.
Definition no_op : kind Z num_state := KNoOpTransform.
Definition accumulate : kind Z num_state := KAccumulate NumAccumulate_consume NumAccumulate_generate.

Definition split4 : wires Z num_state :=
  Wires (KDispatch NumDispatch_dispatch) zero {[7 := 1]} (Some 7) None [3; 4; 5; 6] 4.
Definition last_node : wires Z num_state := Wires (KSink NumSink_consume) zero {[12 := 4]} (Some 12) None [] 0.

Definition table : list (Z * wires Z num_state) :=
  [ (1%Z, source 0); (2%Z, middle (KSimpleTransform NumTransform_transform) 0 1 2);
    (3%Z, source 1); (4%Z, middle (KFilter NumFilter_filter) 1 1 2);
    (5%Z, middle no_op 2 2 7); (6%Z, split4);
    (7%Z, middle no_op 3 1 8); (8%Z, middle no_op 4 1 11); (9%Z, middle no_op 5 1 9); (10%Z, middle no_op 6 1 10);
    (11%Z, middle accumulate 8 1 12); (12%Z, middle accumulate 9 1 12);
    (13%Z, middle accumulate 10 1 12); (14%Z, middle accumulate 11 1 12);
    (15%Z, last_node) ].

Lemma pipeline_table : ports <$> nodes_ pipeline.2 = list_to_map table.
Proof. unfold pipeline, table, source, middle, split4, last_node, accumulate. shape. vm_compute. reflexivity. Qed.

Definition writers_table : list (list Z) :=
  [[1]; [3]; [4; 2]; [6]; [6]; [6]; [6]; [5]; [7]; [9]; [10]; [8]; [11; 13; 14; 12]]%Z.

Lemma pipeline_writers q W : writers_table !! q = Some W → writers (nodes_ pipeline.2) q = W.
Proof.
  assert (writers (nodes_ pipeline.2) <$> seq 0 13 = writers_table) as <-.
  { unfold pipeline. shape. vm_compute. reflexivity. }
  rewrite list_lookup_fmap. intros (q' & [-> _]%lookup_seq & ->)%fmap_Some. done.
Qed.

(** *** What the nodes compute *)

Definition total (l : list Z) : Z := foldr Z.add 0%Z l.
Definition naturals (l : list Z) : Prop := Forall (λ x, 0 ≤ x)%Z l.

Lemma total_app l l' : total (l ++ l') = (total l + total l')%Z.
Proof. induction l as [|x l IH]; simpl; [done|]. unfold total in *. simpl. lia. Qed.
Lemma total_one x : total [x] = x.
Proof. unfold total. simpl. lia. Qed.
#[local] Instance total_proper : Proper ((≡ₚ) ==> (=)) total.
Proof. intros l l' Hl. induction Hl; unfold total in *; simpl; lia. Qed.
#[local] Instance naturals_proper : Proper ((≡ₚ) ==> iff) naturals.
Proof. intros l l' Hl. unfold naturals. by rewrite Hl. Qed.
Lemma naturals_filter (P : Z → Prop) `{∀ x, Decision (P x)} l : naturals l → naturals (filter P l).
Proof. unfold naturals. rewrite !Forall_forall. intros Hl x [_ Hx]%list_elem_of_filter. auto. Qed.
Lemma total_naturals l : naturals l → (0 ≤ total l)%Z.
Proof. induction 1; unfold total in *; simpl; lia. Qed.

Lemma int_id r : sint_range 32 r → int_ r = r.
Proof. intros Hr. by apply to_signed_wrap. Qed.

Lemma add_num_ok v u :
  sint_range 32 (num u + v) → overflow u = false → add_num v u = NumState (num u + v) false.
Proof. intros Hr Hu. unfold add_num, in_int. by rewrite int_id, Hu, bool_decide_true. Qed.

(** [NumSink] and [NumAccumulate] *)
Lemma folds_add (f : num_state → Z → num_state * attempt unit) xs ys u :
  (∀ u v, f u v = (add_num v u, Value tt)) → folds (NodeProtocol.calls f) zero xs ys u →
  naturals xs → (total xs < 2 ^ 31)%Z → u = NumState (total xs) false.
Proof.
  intros Hf. induction 1 as [|xs ys u x y u' _ IH Hx]; [done|]. intros [Hn [Hx0 _]%Forall_cons]%Forall_app Ht.
  unfold NodeProtocol.calls in Hx. rewrite Hf in Hx. simplify_eq.
  rewrite total_app, total_one in *. pose proof (total_naturals _ Hn).
  rewrite IH by (done || lia). apply add_num_ok; [unfold sint_range; simpl; lia|done].
Qed.

(** [NumSource] *)
Lemma NumSource_values xs u u' :
  generates (returns NumSource_generate) zero xs u → NumSource_generate u = (u', Value None) →
  xs = seqZ 1 100 ∧ overflow u' = false.
Proof.
  intros Hg Hend.
  assert (xs = seqZ 1 (num u) ∧ 0 ≤ num u ≤ 100 ∧ overflow u = false)%Z as (-> & Hu & Ho).
  { clear Hend. induction Hg as [|xs u x u1 _ (-> & Hu & Ho) Hx]; [done|].
    unfold returns, NumSource_generate in Hx. case_decide; [|done].
    rewrite add_num_ok in Hx; [|unfold sint_range; simpl; lia|done]. simplify_eq. simpl. split; [|split; [lia|done]].
    rewrite (seqZ_app 1 (num u) 1) by lia. f_equal. rewrite seqZ_cons by lia. f_equal. lia. }
  unfold NumSource_generate in Hend. case_decide; [done|]. simplify_eq. split; [|done]. f_equal. lia.
Qed.

Lemma NumTransform_values xs ys u :
  folds (NodeProtocol.calls NumTransform_transform) zero xs ys u → Forall (λ x, 0 ≤ x ≤ 100)%Z xs →
  ys = (λ x, x * 2)%Z <$> xs ∧ overflow u = false.
Proof.
  induction 1 as [|xs ys u x y u' _ IH Hx]; [done|]. intros [Hn [Hx0 _]%Forall_cons]%Forall_app.
  destruct (IH Hn) as [-> Hu]. unfold NodeProtocol.calls, NumTransform_transform in Hx. simplify_eq.
  unfold in_int. rewrite int_id, bool_decide_true, fmap_app by (unfold sint_range; lia). simpl. by rewrite Hu.
Qed.

Lemma NumFilter_values xs bs u :
  folds (NodeProtocol.calls NumFilter_filter) zero xs bs u →
  length bs = length xs ∧ NodeProtocol.kept xs bs = filter (λ x, Z.rem x 2 ≠ 0)%Z xs ∧ u = zero.
Proof.
  induction 1 as [|xs bs u x b u' _ (Hl & IH & ->) Hx]; [done|].
  unfold NodeProtocol.calls, NumFilter_filter in Hx. simplify_eq. rewrite !length_app. split; [simpl; lia|].
  split; [|done]. unfold NodeProtocol.kept in *. rewrite zip_with_app, !filter_app, fmap_app, IH by done. f_equal.
  simpl. rewrite !filter_cons, !filter_nil. simpl. repeat case_decide; by repeat case_bool_decide.
Qed.

Lemma NumDispatch_values xs ds u i :
  folds (NodeProtocol.calls NumDispatch_dispatch) zero xs ds u →
  length ds = length xs ∧ dispatched 4 i xs ds = filter (λ x, u64 (u64 x) `mod` 4 = i)%Z xs ∧ u = zero.
Proof.
  induction 1 as [|xs bs u x b u' _ (Hl & IH & ->) Hx]; [done|].
  unfold NodeProtocol.calls, NumDispatch_dispatch in Hx. simplify_eq. rewrite !length_app. split; [simpl; lia|].
  split; [|done]. unfold dispatched in *. rewrite zip_with_app, !filter_app, fmap_app, IH by done. f_equal.
  simpl. rewrite !filter_cons, !filter_nil. simpl. by repeat case_decide.
Qed.

(** Nothing is lost between the outputs of [NumDispatch]. *)
Lemma dispatch_total (f : Z → Z) xs :
  (∀ x, 0 ≤ f x < 4)%Z →
  (total (filter (λ x, f x = 0) xs) + total (filter (λ x, f x = 1) xs) +
   total (filter (λ x, f x = 2) xs) + total (filter (λ x, f x = 3) xs) = total xs)%Z.
Proof.
  intros Hf. induction xs as [|x xs IH]; [done|]. rewrite !filter_cons. specialize (Hf x).
  repeat case_decide; try lia; unfold total in *; simpl; lia.
Qed.

(** *** Results *)

Section results.
Context (c : config (T := Z) (U := num_state)).
Hypothesis Hc : results (nodes_ pipeline.2) c.

Abbreviation table_map := (list_to_map (M := gmap Z (wires Z num_state)) table).
Abbreviation node_result := (node_result _ _ pipeline_table c Hc).
Abbreviation ended_in := (ended_in c).

(** Queue [q] into node [i], whose writers are [W]. *)
Ltac flow_of i q :=
  let H := fresh "Hflow" in
  pose proof (queue_flow _ _ pipeline_table c Hc i _ q _ eq_refl ltac:(vm_compute; lia)
                (pipeline_writers q _ eq_refl)) as H;
  cbn [fmap list_fmap concat] in H; rewrite ?app_nil_r in H.

Lemma number_source_result i q :
  table_map !! i = Some (source q) →
  wrote c i q = seqZ 1 100 ∧ ∃ u, ended_in i u ∧ overflow u = false.
Proof using Hc.
  intros (u & n & Hu & Hb & Hk & Hu0 & Hi & Ho & _)%node_result. unfold behaves in Hb.
  rewrite Hk, Hu0, Ho in Hb. destruct Hb as (xs & u1 & Hg & Hend & Hput).
  destruct (NumSource_values _ _ _ Hg Hend) as [-> Hov]. split; [|eauto]. unfold wrote. by rewrite Hput, data_ended.
Qed.

Lemma no_op_result i qi m qo :
  table_map !! i = Some (middle no_op qi m qo) →
  wrote c i qo = read c i qi.
Proof using Hc.
  intros (u & n & Hu & Hb & Hk & Hu0 & Hi & Ho & _)%node_result. unfold behaves in Hb.
  rewrite Hk, Hi, Ho in Hb. unfold wrote, read. by rewrite Hb, data_ended.
Qed.

Lemma accumulate_result i qi m qo :
  table_map !! i = Some (middle accumulate qi m qo) →
  naturals (read c i qi) → (total (read c i qi) < 2 ^ 31)%Z →
  wrote c i qo = [total (read c i qi)] ∧ ∃ u, ended_in i u ∧ overflow u = false.
Proof using Hc.
  intros (u & n & Hu & Hb & Hk & Hu0 & Hi & Ho & _)%node_result Hn Ht. unfold behaves in Hb.
  rewrite Hk, Hu0, Hi, Ho in Hb. destruct Hb as (ys & u1 & y & Hf & Hg & Hput).
  apply folds_add in Hf as ->; [|done..]. unfold NumAccumulate_generate in Hg. simplify_eq. split; [|eauto].
  unfold wrote. by rewrite Hput, data_ended.
Qed.

(** The transform doubles, the filter drops the even numbers. *)
Lemma merged_values :
  ∃ l, wrote c 2 2 ++ wrote c 4 2 ≡ₚ l ∧ naturals l ∧ total l = 12600%Z ∧
    (∃ u, ended_in 2 u ∧ overflow u = false).
Proof using Hc.
  destruct (number_source_result 1 0 eq_refl) as [H1 _]. destruct (number_source_result 3 1 eq_refl) as [H3 _].
  flow_of 2%Z 0. flow_of 4%Z 1. rewrite H1 in Hflow. rewrite H3 in Hflow0.
  destruct (node_result 2 _ _ _ _ _ _ _ eq_refl) as (u & n & Hu & Hb & Hk & Hu0 & Hi & Ho & _).
  unfold behaves in Hb. rewrite Hk, Hu0, Hi, Ho in Hb. destruct Hb as (ys & Hf & Hput).
  apply NumTransform_values in Hf as [-> Hov].
  2: { fold (read c 2 0). rewrite Hflow. apply Forall_seqZ. lia. }
  destruct (node_result 4 _ _ _ _ _ _ _ eq_refl) as (u4 & n4 & Hu4 & Hb & Hk4 & Hu04 & Hi4 & Ho4 & _).
  unfold behaves in Hb. rewrite Hk4, Hu04, Hi4, Ho4 in Hb. destruct Hb as (bs & Hf & Hput4).
  apply NumFilter_values in Hf as (_ & Hkept & _). rewrite Hkept in Hput4.
  eexists. split; [|split; [|split; [|eauto]]].
  - unfold wrote. rewrite Hput, Hput4, !data_ended. fold (read c 2 0) (read c 4 1). rewrite Hflow, Hflow0. reflexivity.
  - apply (bool_decide_unpack _). vm_compute. reflexivity.
  - vm_compute. reflexivity.
Qed.

(** The numbers that reach the outputs of the dispatch. *)
Lemma dispatch_values :
  (∀ q, q ∈ [3; 4; 5; 6] → naturals (wrote c 6 q)) ∧
  (total (wrote c 6 3) + total (wrote c 6 4) + total (wrote c 6 5) + total (wrote c 6 6) = 12600)%Z ∧
  ended_in 6 zero.
Proof using Hc.
  destruct merged_values as (l & Hl & Hnat & Htot & _).
  pose proof (no_op_result 5 2 2 7 eq_refl) as H5. flow_of 5%Z 2. flow_of 6%Z 7. rewrite H5 in Hflow0.
  rewrite (Permutation_app_comm (wrote c 4 2)), Hl in Hflow. rewrite Hflow in Hflow0.
  destruct (node_result 6 _ _ _ _ _ _ _ eq_refl) as (u & n & Hu & Hb & Hk & Hu0 & Hi & _ & Ho & Hz).
  unfold behaves in Hb. rewrite Hk, Hu0, Hi, Ho, Hz in Hb. destruct Hb as (ds & Hf & Hput).
  assert (∀ i q, [3; 4; 5; 6] !! i = Some q →
    wrote c 6 q = filter (λ x, u64 (u64 x) `mod` 4 = Z.of_nat i)%Z (read c 6 7)) as Hout.
  { intros i q Hq. unfold wrote. rewrite (Hput i q Hq), data_ended. by apply (NumDispatch_values _ _ u (Z.of_nat i)). }
  rewrite <- Hflow0 in Hnat, Htot. split_and!.
  - intros q [i Hq]%list_elem_of_lookup_1. rewrite (Hout i q Hq). by apply naturals_filter.
  - rewrite (Hout 0 3 eq_refl), (Hout 1 4 eq_refl), (Hout 2 5 eq_refl), (Hout 3 6 eq_refl), <- Htot.
    apply (dispatch_total (λ x, u64 (u64 x) `mod` 4)%Z). intros x. apply Z.mod_pos_bound. lia.
  - by destruct (NumDispatch_values _ _ _ 0%Z Hf) as (_ & _ & <-).
Qed.

Lemma small_total q : q ∈ [3; 4; 5; 6] → (total (wrote c 6 q) ≤ 12600)%Z.
Proof using Hc.
  intros Hq. destruct dispatch_values as (Hnat & Htot & _).
  pose proof (total_naturals _ (Hnat 3 ltac:(set_solver))). pose proof (total_naturals _ (Hnat 4 ltac:(set_solver))).
  pose proof (total_naturals _ (Hnat 5 ltac:(set_solver))). pose proof (total_naturals _ (Hnat 6 ltac:(set_solver))).
  repeat (apply elem_of_cons in Hq as [->|Hq]; [lia|]). by apply not_elem_of_nil in Hq.
Qed.

(** An output of the dispatch, behind its NoOp and its accumulate. *)
Lemma branch_result no acc q q' :
  q ∈ [3; 4; 5; 6] →
  table_map !! no = Some (middle no_op q 1 q') →
  table_map !! acc = Some (middle accumulate q' 1 12) →
  read c no q ≡ₚ wrote c 6 q → read c acc q' ≡ₚ wrote c no q' →
  wrote c acc 12 = [total (wrote c 6 q)] ∧ ∃ u, ended_in acc u ∧ overflow u = false.
Proof using Hc.
  intros Hq Hno Hacc H1 H2. rewrite (no_op_result _ _ _ _ Hno), H1 in H2.
  destruct dispatch_values as (Hnat & _). specialize (Hnat q Hq). pose proof (small_total q Hq).
  rewrite <- H2 in *. apply (accumulate_result _ _ _ _ Hacc); [done|lia].
Qed.

Ltac branch no acc q q' H := 
  flow_of no q; flow_of acc q'; destruct (branch_result no acc q q') as [H ?]; [set_solver|done|done|done|done|].

(** The nodes that calculate. *)
Definition calculating : list Z := [1; 2; 3; 11; 12; 13; 14; 15]%Z.

Lemma number_sink_result :
  ended_in 15 (NumState 12600 false) ∧ ∀ i, i ∈ calculating → ∃ u, ended_in i u ∧ overflow u = false.
Proof using Hc.
  destruct dispatch_values as (_ & Htot & _). destruct merged_values as (_ & _ & _ & _ & ?).
  destruct (number_source_result 1 0 eq_refl) as [_ ?]. destruct (number_source_result 3 1 eq_refl) as [_ ?].
  branch 7%Z 11%Z 3 8 Hq3. branch 8%Z 14%Z 4 11 Hq4. branch 9%Z 12%Z 5 9 Hq5. branch 10%Z 13%Z 6 10 Hq6.
  flow_of 15%Z 12. rewrite Hq3, Hq4, Hq5, Hq6 in *.
  match goal with H : read c 15 12 ≡ₚ _ |- _ => rename H into Hread end.
  assert (ended_in 15 (NumState 12600 false)) as Hsink; [|split; [done|]].
  - destruct (node_result 15 _ _ _ _ _ _ _ eq_refl) as (u & n & Hu & Hb & Hk & Hu0 & Hi & _).
    unfold behaves in Hb. rewrite Hk, Hu0, Hi in Hb. destruct Hb as [ys Hf].
    assert (total (read c 15 12) = 12600%Z) as Ht.
    { rewrite Hread, !total_app, !total_one. lia. }
    apply folds_add in Hf; fold (read c 15 12) in *; [by rewrite Hf, Ht in Hu|done|..|by rewrite Ht].
    rewrite Hread. destruct dispatch_values as (Hnat & _ & _). unfold naturals. rewrite !Forall_app, !Forall_singleton.
    split_and!; apply total_naturals, Hnat; set_solver.
  - intros i Hi. repeat (apply elem_of_cons in Hi as [->|Hi]; [by eauto|]). by apply not_elem_of_nil in Hi.
Qed.

End results.

Lemma NumSource_ends u : (0 ≤ num u)%Z → Acc (yields NumSource_generate) u.
Proof.
  remember (Z.to_nat (100 - num u)) as k eqn:Hk. revert u Hk. induction k as [k IH] using lt_wf_ind.
  intros u -> Hu. constructor. intros u1 [x Hx]. unfold NumSource_generate in Hx. case_decide; [|done].
  simplify_eq. assert (num (add_num 1 u) = num u + 1)%Z as Hadd by (apply int_id; unfold sint_range; lia).
  eapply IH; [|done|]; rewrite Hadd; lia.
Qed.

Lemma pipeline_sources_end : sources_end pipeline.
Proof.
  refine (table_nodes _ _ pipeline_table (λ w, source_ends (w_kind w) (w_state w)) _).
  each_node ltac:(first [exact I|by apply NumSource_ends]).
Qed.

Lemma pipeline_never_throws i n : nodes_ pipeline.2 !! i = Some n → never_throws (node_kind n).
Proof.
  refine (table_nodes _ _ pipeline_table (λ w, never_throws (w_kind w)) _ i n).
  each_node ltac:(simpl; first [by eexists|intros u; unfold NumSource_generate; case_decide; by eexists|split; by eexists]).
Qed.

Lemma pipeline_no_concat i n : nodes_ pipeline.2 !! i = Some n → is_concat (node_kind n) = false.
Proof. refine (table_nodes _ _ pipeline_table (λ w, is_concat (w_kind w) = false) _ i n). each_node done. Qed.

Lemma pipeline_completed : leaves_ pipeline.2 = ∅ ∧ nodes_ pipeline.2 ≠ ∅.
Proof.
  unfold pipeline. shape. split; [vm_compute; reflexivity|].
  intros He. apply (f_equal size) in He. vm_compute in He. discriminate.
Qed.

Lemma build_pipeline : number_handle_build start = (pipeline, Ok tt).
Proof. exact (pair_with_fst _ _ _ number_build_calls). Qed.

Lemma pipeline_contained : self_contained (nodes_ pipeline.2).
Proof. decide_now. Qed.

Lemma number_main_launches writable garbage ex :
  ∃ s' files l, number_handle_main writable garbage ex start = (s', Ok (files, l)) ∧
    Run_launch garbage (Some ex) pipeline = (s', Ok l).
Proof.
  destruct pipeline_completed as [Hlv Hns].
  destruct (Run_launch_returns garbage ex _ Hlv Hns) as (s' & l & Hrun & _).
  exists s', (DumpToFile writable "number_pipeline.txt" pipeline.2 ∅), l. split; [|done].
  unfold number_handle_main. by rewrite (build_then_launch _ _ _ _ _ _ build_pipeline), Hrun.
Qed.

(** C16: [number_handle]: [main] reaches [Run], every run ends, however the
    coroutines are interleaved, with all of them returned without an exception,
    and leaves [5050 * 2 + 2500] in [result], as the program says; none of the
    additions and multiplications of the nodes that calculate overflows. *)
Theorem number_handle_result writable garbage ex :
  ∃ s' files l, number_handle_main writable garbage ex start = (s', Ok (files, l)) ∧
    ∀ GetTransferredBytes c, runs GetTransferredBytes (queues s'.1) (abort_queues s'.1) (nodes_ s'.2) c →
      inevitably (moves (queues s'.1) (abort_queues s'.1))
        (λ c', (∀ i, is_Some (nodes_ s'.2 !! i) → ∃ u, ended_in c' i u) ∧
               ended_in c' 15 (NumState (5050 * 2 + 2500) false) ∧
               ∀ i, i ∈ calculating → ∃ u, ended_in c' i u ∧ overflow u = false) c.
Proof.
  destruct (number_main_launches writable garbage ex) as (s' & files & l & Hm & Hl). exists s', files, l. split; [done|].
  intros GetTransferredBytes c Hr. assert (running GetTransferredBytes garbage ex pipeline s' c) as Hrun by (split; [by exists l|done]).
  eapply (inevitably_mono _ (λ _, True)); [done| |done|].
  - intros c1 _ Hc1. split; [|by apply number_sink_result]. rewrite (running_launched _ _ _ _ _ _ Hrun).
    intros i [n (m & _ & Hn)%lookup_fmap_Some]. destruct (rs_node _ _ Hc1 i m Hn) as (n' & Hp & _). exists (user_state n'), n'. split; [exact Hp|reflexivity].
  - apply (running_computes GetTransferredBytes number_handle_option garbage ex); [apply pipeline_reaches|apply pipeline_contained|done|by vm_compute| |..].
    + apply pipeline_no_concat.
    + apply pipeline_sources_end.
    + apply pipeline_never_throws.
Qed.

End NumberHandle.

(** ** [hello_world.cc] *)

Module HelloWorld.

(** [eof] of [MySource]; the lines that [MySink] has written to [std::cout]. *)
Record hello_state := HelloState { eof : bool; printed : list string }.
#[global] Instance hello_state_inhabited : Inhabited hello_state := populate (HelloState false []).

Definition MySink_consume (u : hello_state) (value : string) : hello_state * attempt unit :=
  (HelloState (eof u) (printed u ++ [value]), Value tt).
Definition MySource_generate (u : hello_state) : hello_state * attempt (option string) :=
  if eof u then (u, Value None) else (HelloState true (printed u), Value (Some "hello world"%string)).

Definition initial : hello_state := HelloState false [].
Definition MySource (id : Z) : node string hello_state :=
  make_node id "source" 0 0 (KSource MySource_generate) initial.
Definition MySink (id : Z) : node string hello_state :=
  make_node id "sink" 0 0 (KSink MySink_consume) initial.

(** [main], up to the launch of the coroutines by [Run]. *)
Definition hello_world_build : B string hello_state unit :=
  i ← GenerateId; AddSource (MySource i) ;;
  i ← GenerateId; SetSink (MySink i) ;;
  mret tt.
Definition hello_world_main (garbage ex : Z) : B string hello_state (list (Z * node string hello_state)) :=
  hello_world_build ;; Run_launch garbage (Some ex).

Definition start : state string hello_state := (World 1 [] [], Pipeline_init PipelineOption_default).
Definition pipe : state string hello_state := (hello_world_build start).1.

Definition calls : list (api (T := string) (U := hello_state)) :=
  [ Construct; CallAddSource (MySource 1); Construct; CallSetSink (MySink 2) ].

Lemma hello_build_calls : hello_world_build start = (exec_all calls start, Ok tt).
Proof. vm_compute. reflexivity. Qed.

Lemma hello_calls_legal : legal_all calls start.
Proof.
  unfold calls. cbn [legal_all]. repeat (split; [|]); try done.
  all: first [by apply (bool_decide_unpack _)|vm_compute; intuition congruence].
Qed.

Lemma pipe_reaches : reaches PipelineOption_default pipe.
Proof.
  unfold pipe. rewrite hello_build_calls. apply reaches_all; [by apply reaches_init|apply hello_calls_legal].
Qed.

Definition table : list (Z * wires string hello_state) :=
  [ (1%Z, Wires (KSource MySource_generate) initial ∅ None (Some 0) [] 0);
    (2%Z, Wires (KSink MySink_consume) initial {[0 := 1]} (Some 0) None [] 0) ].

Lemma pipe_table : ports <$> nodes_ pipe.2 = list_to_map table.
Proof. vm_compute. reflexivity. Qed.

Lemma MySource_values xs u u' :
  generates (returns MySource_generate) initial xs u → MySource_generate u = (u', Value None) → xs = ["hello world"].
Proof.
  intros Hg Hend. unfold MySource_generate in Hend. destruct (eof u) eqn:He; [|done]. clear u' Hend.
  assert (xs = if eof u then ["hello world"%string] else []) as ->; [|by rewrite He]. clear He.
  induction Hg as [|xs u x u1 _ -> Hx]; [done|]. unfold returns, MySource_generate in Hx.
  destruct (eof u); by simplify_eq.
Qed.

Lemma MySink_values u0 xs ys u :
  folds (NodeProtocol.calls MySink_consume) u0 xs ys u → printed u = printed u0 ++ xs.
Proof.
  induction 1 as [|xs ys u x y u' _ IH Hx]; [by rewrite app_nil_r|].
  unfold NodeProtocol.calls, MySink_consume in Hx. simplify_eq. simpl. by rewrite IH, <- app_assoc.
Qed.

Lemma MySource_ends u : Acc (yields MySource_generate) u.
Proof.
  constructor. intros u1 [x Hx]. unfold MySource_generate in Hx. destruct (eof u); [done|]. simplify_eq.
  constructor. intros u2 [x Hx]. done.
Qed.

Lemma pipe_completed : leaves_ pipe.2 = ∅ ∧ nodes_ pipe.2 ≠ ∅.
Proof.
  split; [vm_compute; reflexivity|].
  intros He. apply (f_equal size) in He. vm_compute in He. discriminate.
Qed.

Lemma pipe_contained : self_contained (nodes_ pipe.2).
Proof. decide_now. Qed.

Lemma hello_main_launches garbage ex :
  ∃ s' l, hello_world_main garbage ex start = (s', Ok l) ∧ Run_launch garbage (Some ex) pipe = (s', Ok l).
Proof.
  destruct pipe_completed as [Hlv Hns].
  destruct (Run_launch_returns garbage ex _ Hlv Hns) as (s' & l & Hrun & _).
  exists s', l. split; [|done]. unfold hello_world_main, mbind, B_bind.
  by rewrite (pair_with_fst _ _ _ hello_build_calls : _ = (pipe, Ok tt)), Hrun.
Qed.

Section results.
Context (c : config (T := string) (U := hello_state)).
Hypothesis Hc : results (nodes_ pipe.2) c.

Lemma hello_source_result : wrote c 1 0 = ["hello world"].
Proof using Hc.
  destruct (node_result _ _ pipe_table c Hc 1 _ _ _ _ _ _ _ eq_refl) as (u & n & _ & Hb & Hk & Hu0 & _ & Ho & _).
  unfold behaves in Hb. rewrite Hk, Hu0, Ho in Hb. destruct Hb as (xs & u' & Hg & Hend & Hput).
  unfold wrote. by rewrite Hput, data_ended, (MySource_values _ _ _ Hg Hend).
Qed.

Lemma hello_sink_result : ∃ u, ended_in c 2 u ∧ printed u = ["hello world"].
Proof using Hc.
  assert (writers (nodes_ pipe.2) 0 = [1%Z]) as HW by (vm_compute; reflexivity).
  pose proof (queue_flow _ _ pipe_table c Hc 2 _ 0 _ eq_refl ltac:(vm_compute; lia) HW) as Hflow.
  simpl in Hflow. rewrite hello_source_result in Hflow. apply Permutation_singleton_r in Hflow.
  destruct (node_result _ _ pipe_table c Hc 2 _ _ _ _ _ _ _ eq_refl) as (u & n & Hu & Hb & Hk & Hu0 & Hi & _).
  unfold behaves in Hb. rewrite Hk, Hu0, Hi in Hb. destruct Hb as [ys Hf]. exists u. split; [done|].
  apply MySink_values in Hf. fold (read c 2 0) in Hf. by rewrite Hflow in Hf.
Qed.

End results.

(** [hello_world]: [main] reaches [Run], and every run ends and prints
    [hello world], once. *)
Theorem hello_world_result garbage ex :
  ∃ s' l, hello_world_main garbage ex start = (s', Ok l) ∧
    ∀ GetTransferredBytes c, runs GetTransferredBytes (queues s'.1) (abort_queues s'.1) (nodes_ s'.2) c →
      inevitably (moves (queues s'.1) (abort_queues s'.1))
        (λ c', ∃ u, ended_in c' 2 u ∧ printed u = ["hello world"]) c.
Proof.
  destruct (hello_main_launches garbage ex) as (s' & l & Hm & Hl). exists s', l. split; [done|].
  intros GetTransferredBytes c Hr.
  assert (running GetTransferredBytes garbage ex pipe s' c) as Hrun by (split; [by exists l|done]).
  eapply (inevitably_mono _ (λ _, True)); [done| |done|].
  - intros c1 _. apply hello_sink_result.
  - apply (running_computes GetTransferredBytes PipelineOption_default garbage ex); [apply pipe_reaches|apply pipe_contained|done|by vm_compute|..].
    + refine (table_nodes _ _ pipe_table (λ w, is_concat (w_kind w) = false) _). each_node done.
    + refine (table_nodes _ _ pipe_table (λ w, source_ends (w_kind w) (w_state w)) _).
      each_node ltac:(first [exact I|apply MySource_ends]).
    + refine (table_nodes _ _ pipe_table (λ w, never_throws (w_kind w)) _).
      each_node ltac:(simpl; first [by eexists|intros u; unfold MySource_generate; destruct (eof u); by eexists]).
Qed.

End HelloWorld.
