(* ===== verification/Embed.v ===== *)
(** * A pipeline inside a node

    [example/embed_pipeline.cc]: a transform whose [work] builds a pipeline
    between its own input and output with a [ChannelSource] and a
    [ChannelSink], runs it and waits for it.  The coroutines of both pipelines
    are interleaved; the inner ones exist from the moment the transform starts
    to work.  Their queues and nodes together form a closed network, so that the
    theorems of [Network] and [Termination] apply. *)

From stdpp Require Import base functions gmap strings fin_maps fin_sets list.
From S2P Require Import Prelude Queue Events Coro Processor Nodes PortLogic NodeProtocol NodeRun Pipeline PipelineInv Builder Frame Merge Network Termination Flow Link Examples.

Module EmbedPipeline.

(** ** The program *)

(** The classes [MySource] and [MySink] are those of [hello_world.cc]. *)
Abbreviation line_state := HelloWorld.hello_state.
Definition MySource (id : Z) : node string line_state := HelloWorld.MySource id.
Definition MySink (id : Z) : node string line_state := HelloWorld.MySink id.

(** [MyTransform] as the builder sees it: a [Transform].  Its [work] is
    [MyTransform_launch] and [MyTransform_finish]. *)
Definition MyTransform (id : Z) : node string line_state :=
  make_node id "transform" 0 0 KNoOpTransform HelloWorld.initial.

Definition embed_build : B string line_state unit :=
  i ← GenerateId; id ← AddSource (MySource i);
  i ← GenerateId; AddTransform id (MyTransform i) ;;
  i ← GenerateId; SetSink (MySink i) ;;
  mret tt.

(** [main], up to the launch of the coroutines by [Run], with what it prints
    before. *)
Definition embed_main (garbage ex : Z) : B string line_state (string * list (Z * node string line_state)) :=
  embed_build ;;
  text ← get Dump;
  l ← Run_launch garbage (Some ex);
  mret (text, l).

(** [MyTransform::work] up to the [co_await] of [Run], for the node [n]. *)
Definition sub_pipeline_build (n : node string line_state) : B string line_state unit :=
  let input_channel := input_port n in
  let output_channel := output_port n in
  i ← GenerateId;
  let source := SetInputChannel input_channel (make_node i "channel_source" 0 0 KChannelSource HelloWorld.initial) in
  id ← AddSource source;
  ForkFrom id 3 ;;
  i ← GenerateId;
  let sink := SetOutputChannel output_channel (make_node i "channel_sink" 0 0 KChannelSink HelloWorld.initial) in
  SetSink sink ;;
  mret tt.

Definition MyTransform_launch (n : node string line_state) (garbage ex : Z) (w : world) :
    state string line_state * outcome (list (Z * node string line_state)) :=
  (sub_pipeline_build n ;; Run_launch garbage (Some ex)) (w, Pipeline_init PipelineOption_default).

(** [MyTransform::work] after it: the first error of the result is thrown. *)
Fixpoint rethrow_errors (result : list ProcessorWorkResult) : attempt unit :=
  match result with
  | [] => Value tt
  | each :: result =>
      match work_result each with
      | Raised e => Raised e
      | Value _ => rethrow_errors result
      end
  end.
Definition MyTransform_finish (inner : list (node string line_state * attempt unit)) : outcome (attempt unit) :=
  result ← Run_results (fst <$> inner) (snd <$> inner);
  Ok (rethrow_errors result).

(** ** Its runs *)

Abbreviation config := (config (T := string) (U := line_state)).

(** Where [MyTransform::work] stands: not started, waiting for the nodes of its
    pipeline, or returned. *)
Inductive phase := NotStarted | Awaiting (inner : gmap Z (node string line_state)) | Returned (r : attempt unit).

Record embedded := Embedded { net : config; now_world : world; at_phase : phase }.

Section runs.
Context (GetTransferredBytes : string → Z) (garbage ex : Z).

(** The identifier of the transform. *)
Definition transform_id : Z := 2.

Definition returned (c : config) (i : Z) : option (node string line_state * attempt unit) :=
  match threads c !! i with Some (Ret r) => Some r | _ => None end.

Definition add_threads (m : gmap Z (prog string (node string line_state * attempt unit))) (c : config) : config :=
  Config (threads c ∪ m) (contents c) (aborts c) (traces c).

(** A step of the transform [n]. *)
Definition transform_step (n : node string line_state) (e : embedded) : option embedded :=
  match at_phase e with
  | NotStarted =>
      match MyTransform_launch n garbage ex (now_world e) with
      | (s, Ok _) =>
          Some (Embedded (add_threads (work_with_exception GetTransferredBytes <$> nodes_ s.2) (net e)) s.1
                  (Awaiting (nodes_ s.2)))
      | _ => None
      end
  | Awaiting inner =>
      results ← mapM (λ each : Z * node string line_state, returned (net e) each.1) (map_order inner);
      match MyTransform_finish results with
      | Ok r => Some (Embedded (net e) (now_world e) (Returned r))
      | _ => None
      end
  | Returned _ => None
  end.

Definition embed_step (n : node string line_state) (now i : Z) (e : embedded) : option embedded :=
  if decide (i = transform_id) then transform_step n e
  else c' ← step_thread (queues (now_world e)) (abort_queues (now_world e)) now i (net e);
       Some (Embedded c' (now_world e) (at_phase e)).

Definition embed_moves (n : node string line_state) (e' e : embedded) : Prop := ∃ now i, embed_step n now i e = Some e'.

(** The coroutines of the outer pipeline but the transform, which has not
    started. *)
Definition embed_init (s : state string line_state) : embedded :=
  Embedded (launch GetTransferredBytes (delete transform_id (nodes_ s.2))) s.1 NotStarted.

Inductive embed_runs (n : node string line_state) (s : state string line_state) : embedded → Prop :=
| embed_start : embed_runs n s (embed_init s)
| embed_next e e' : embed_runs n s e → embed_moves n e' e → embed_runs n s e'.

End runs.

(** ** The network of both pipelines *)

Definition start : state string line_state := (World 1 [] [], Pipeline_init PipelineOption_default).
Definition outer : state string line_state := (embed_build start).1.
Definition begun : state string line_state := (Run_launch 0 (Some 0%Z) outer).1.
Definition the_transform : node string line_state := default (MyTransform 0) (nodes_ begun.2 !! transform_id).
Definition sub : state string line_state := (MyTransform_launch the_transform 0 0 begun.1).1.
Definition flat_nodes : gmap Z (node string line_state) := delete transform_id (nodes_ begun.2) ∪ nodes_ sub.2.

Lemma embed_launches garbage ex : ∃ l, embed_main garbage ex start = (begun, Ok (Dump outer.2, l)).
Proof. eexists. vm_compute. reflexivity. Qed.

Lemma sub_launches garbage ex : ∃ l, MyTransform_launch the_transform garbage ex begun.1 = (sub, Ok l).
Proof. eexists. vm_compute. reflexivity. Qed.

Lemma transform_node : nodes_ begun.2 !! transform_id = Some the_transform.
Proof. vm_compute. reflexivity. Qed.

(** The position of a node on its way from the source to the sink. *)
Definition flat_rank (i : Z) : nat := nth (Z.to_nat i) [0; 0; 0; 5; 1; 2; 3; 3; 3; 4] 0.

Lemma flat_closed : closed_network (λ z, 1 ≤ z)%Z (queues sub.1) flat_nodes.
Proof. apply (network_ok_closed _ flat_rank). vm_compute. reflexivity. Qed.

Definition table : list (Z * wires string line_state) :=
  let u := HelloWorld.initial in
  [ (1%Z, Wires (KSource HelloWorld.MySource_generate) u ∅ None (Some 0) [] 0);
    (3%Z, Wires (KSink HelloWorld.MySink_consume) u {[1 := 1]} (Some 1) None [] 0);
    (4%Z, Wires KChannelSource u {[0 := 1]} (Some 0) (Some 5) [] 0);
    (5%Z, Wires KFork u {[5 := 1]} (Some 5) None [2; 3; 4] 3);
    (6%Z, Wires KNoOpTransform u {[2 := 1]} (Some 2) (Some 6) [] 0);
    (7%Z, Wires KNoOpTransform u {[3 := 1]} (Some 3) (Some 6) [] 0);
    (8%Z, Wires KNoOpTransform u {[4 := 1]} (Some 4) (Some 6) [] 0);
    (9%Z, Wires KChannelSink u {[6 := 3]} (Some 6) (Some 1) [] 0) ].

Lemma flat_table : ports <$> flat_nodes = list_to_map table.
Proof. vm_compute. reflexivity. Qed.

Definition writers_table : list (list Z) := [[1]; [9]; [5]; [5]; [5]; [4]; [7; 6; 8]]%Z.
Lemma flat_writers q W : writers_table !! q = Some W → writers flat_nodes q = W.
Proof.
  assert (writers flat_nodes <$> seq 0 7 = writers_table) as <- by (vm_compute; reflexivity).
  rewrite list_lookup_fmap. intros (q' & [-> _]%lookup_seq & ->)%fmap_Some. done.
Qed.

Lemma flat_no_concat i n : flat_nodes !! i = Some n → is_concat (node_kind n) = false.
Proof. refine (table_nodes _ _ flat_table (λ w, is_concat (w_kind w) = false) _ i n). each_node done. Qed.
Lemma flat_sources_end i n : flat_nodes !! i = Some n → source_ends (node_kind n) (user_state n).
Proof.
  refine (table_nodes _ _ flat_table (λ w, source_ends (w_kind w) (w_state w)) _ i n).
  each_node ltac:(first [exact I|apply HelloWorld.MySource_ends]).
Qed.
Lemma flat_never_throws i n : flat_nodes !! i = Some n → never_throws (node_kind n).
Proof.
  refine (table_nodes _ _ flat_table (λ w, never_throws (w_kind w)) _ i n).
  each_node ltac:(simpl; first [done|by eexists|intros u; unfold HelloWorld.MySource_generate; destruct (HelloWorld.eof u); by eexists]).
Qed.

Lemma flat_no_transform : flat_nodes !! transform_id = None.
Proof. vm_compute. reflexivity. Qed.

(** All queues of the program have the same capacity. *)
Lemma queues_grow q : queues begun.1 !!! q = queues sub.1 !!! q.
Proof. do 7 (destruct q as [|q]; [vm_compute; reflexivity|]). vm_compute. reflexivity. Qed.

(** The network of both pipelines at its start. *)
Lemma checked_network_witness :
  let c := launch (λ _, 11%Z) flat_nodes in
  safe (queues sub.1) flat_nodes c ∧
  inevitably (moves (queues sub.1) (abort_queues sub.1)) (λ c', succeeded flat_nodes c' ∧ results flat_nodes c') c.
Proof.
  destruct (checked_network (λ _, 11%Z) (queues sub.1) (abort_queues sub.1) flat_rank flat_nodes
    (launch (λ _, 11%Z) flat_nodes)) as [Hsafe Hends].
  - vm_compute. reflexivity.
  - constructor.
  - split; [exact Hsafe|]. apply Hends; [apply flat_no_concat|apply flat_sources_end|apply flat_never_throws].
Defined.

(** The same pipelines, by the calls of the builder's interface: the second one
    is built after [Run] of the first one. *)
Definition new_source (c : channel) (id : Z) : node string line_state :=
  SetInputChannel c (make_node id "channel_source" 0 0 KChannelSource HelloWorld.initial).
Definition new_sink (c : channel) (id : Z) : node string line_state :=
  SetOutputChannel c (make_node id "channel_sink" 0 0 KChannelSink HelloWorld.initial).
Definition outer_calls : list (bool * api (T := string) (U := line_state)) :=
  [ (true, Construct); (true, CallAddSource (MySource 1)); (true, Construct); (true, CallAddTransform 1 (MyTransform 2));
    (true, Construct); (true, CallSetSink (MySink 3)) ].
Definition sub_calls : list (bool * api (T := string) (U := line_state)) :=
  [ (false, Construct); (false, CallAddSource (new_source (Channel_of_queue 0) 4)); (false, CallForkFrom 4 3);
    (false, Construct); (false, CallSetSink (new_sink (Channel_of_queue 1) 9)) ].

Definition sub_built : state string line_state :=
  (sub_pipeline_build the_transform (begun.1, Pipeline_init PipelineOption_default)).1.
Definition outer_start : pair_state (T := string) (U := line_state) :=
  (World 1 [] [], Pipeline_init PipelineOption_default, Pipeline_init PipelineOption_default).
Definition sub_start : pair_state (T := string) (U := line_state) := (begun.1, outer.2, Pipeline_init PipelineOption_default).

Lemma outer_calls_legal : pair_legal_all outer_calls outer_start.
Proof. unfold outer_calls, outer_start. pair_calls_legal. Qed.
Lemma sub_calls_legal : pair_legal_all sub_calls sub_start.
Proof. unfold sub_calls. pair_calls_legal. Qed.

Lemma sub_reaches : pair_reaches PipelineOption_default PipelineOption_default sub_built.1 outer.2 sub_built.2.
Proof.
  eapply (pair_reaches_calls _ _ sub_calls); [|apply sub_calls_legal|vm_compute; reflexivity].
  apply (pair_later _ _ outer.1).
  - eapply (pair_reaches_calls _ _ outer_calls); [|apply outer_calls_legal|vm_compute; reflexivity]. by apply pair_init.
  - split; [exists []; vm_compute; reflexivity|vm_compute; discriminate].
  - vm_compute. reflexivity.
Qed.

(** The runs of both pipelines of the program. *)
Lemma embedded_pipeline_witness :
  let c := launch (λ _, 11%Z) flat_nodes in
  sound_run (queues sub.1) (abort_queues sub.1) (delete transform_id (nodes_ outer.2)) (nodes_ sub_built.2) flat_nodes
    (bind_abort_channel (option_ outer.2) = true ∧ bind_abort_channel (option_ sub_built.2) = true) c.
Proof.
  destruct (embed_launches 0 0) as [l Hl]. destruct (sub_launches 0 0) as [l' Hl'].
  eapply (embedded_pipeline (λ _, 11%Z) PipelineOption_default PipelineOption_default sub_built.1 outer.1 outer.2 sub_built.2
    transform_id (default (MyTransform 0) (nodes_ outer.2 !! transform_id)) 0 1 0 0 0 0 begun _ sub).
  - apply sub_reaches.
  - vm_compute. reflexivity.
  - vm_compute. reflexivity.
  - decide_now.
  - vm_compute. reflexivity.
  - vm_compute. reflexivity.
  - vm_compute. reflexivity.
  - vm_compute. reflexivity.
  - vm_compute. reflexivity.
  - decide_now.
  - vm_compute. discriminate.
  - vm_compute. discriminate.
  - vm_compute. reflexivity.
  - vm_compute. reflexivity.
  - constructor.
Defined.

#[local] Opaque outer begun the_transform sub.

(** *** What is printed *)

Section results.
Context (c : config).
Hypothesis Hc : results flat_nodes c.

Ltac flow_of i q :=
  let H := fresh "Hflow" in
  pose proof (queue_flow _ _ flat_table c Hc i _ q _ eq_refl ltac:(vm_compute; lia) (flat_writers q _ eq_refl)) as H;
  cbn [fmap list_fmap concat] in H; rewrite ?app_nil_r in H.

(** The nodes that hand on what they read. *)
Lemma relay_result i k qi m qo :
  list_to_map (M := gmap Z (wires string line_state)) table !! i =
    Some (Wires k HelloWorld.initial {[qi := m]} (Some qi) (Some qo) [] 0%Z) →
  match k with KChannelSource | KChannelSink | KNoOpTransform => True | _ => False end →
  wrote c i qo = read c i qi.
Proof using Hc.
  intros (u & n & Hu & Hb & Hk & Hu0 & Hi & Ho & _)%(node_result _ _ flat_table c Hc) Hkind.
  unfold behaves in Hb. rewrite Hk, Hi, Ho in Hb. unfold wrote, read.
  destruct k; try done; by rewrite Hb, data_ended.
Qed.

Lemma fork_result q : q ∈ [2; 3; 4] → wrote c 5 q = read c 5 5.
Proof using Hc.
  intros [i Hq]%list_elem_of_lookup_1.
  destruct (node_result _ _ flat_table c Hc 5 _ _ _ _ _ _ _ eq_refl) as (u & n & Hu & Hb & Hk & Hu0 & Hi & _ & Ho & _).
  unfold behaves in Hb. rewrite Hk, Hi, Ho in Hb. unfold wrote, read. by rewrite (Hb i q Hq), data_ended.
Qed.

Lemma source_wrote : wrote c 1 0 = ["hello world"].
Proof using Hc.
  destruct (node_result _ _ flat_table c Hc 1 _ _ _ _ _ _ _ eq_refl) as (u & n & _ & Hb & Hk & Hu0 & _ & Ho & _).
  unfold behaves in Hb. rewrite Hk, Hu0, Ho in Hb. destruct Hb as (xs & u' & Hg & Hend & Hput).
  unfold wrote. by rewrite Hput, data_ended, (HelloWorld.MySource_values _ _ _ Hg Hend).
Qed.

Lemma sink_printed : ∃ u, ended_in c 3 u ∧ HelloWorld.printed u = replicate 3 "hello world".
Proof using Hc.
  assert (read c 5 5 = ["hello world"]) as H5.
  { flow_of 4%Z 0. flow_of 5%Z 5. rewrite source_wrote in Hflow. apply Permutation_singleton_r in Hflow.
    rewrite (relay_result 4 _ 0 1 5 eq_refl I), Hflow in Hflow0. by apply Permutation_singleton_r in Hflow0. }
  assert (∀ i q, q ∈ [2; 3; 4] → read c i q ≡ₚ wrote c 5 q → read c i q = ["hello world"]) as Hread.
  { intros i q Hq Hp. rewrite (fork_result q Hq), H5 in Hp. by apply Permutation_singleton_r in Hp. }
  assert (read c 9 6 ≡ₚ replicate 3 "hello world") as H9.
  { flow_of 9%Z 6. rewrite (relay_result 6 _ 2 1 6 eq_refl I), (relay_result 7 _ 3 1 6 eq_refl I),
      (relay_result 8 _ 4 1 6 eq_refl I) in Hflow.
    flow_of 6%Z 2. flow_of 7%Z 3. flow_of 8%Z 4.
    rewrite (Hread 6%Z 2), (Hread 7%Z 3), (Hread 8%Z 4) in Hflow by (done || set_solver). done. }
  flow_of 3%Z 1. rewrite (relay_result 9 _ 6 3 1 eq_refl I), H9 in Hflow.
  destruct (node_result _ _ flat_table c Hc 3 _ _ _ _ _ _ _ eq_refl) as (u & n & Hu & Hb & Hk & Hu0 & Hi & _).
  unfold behaves in Hb. rewrite Hk, Hu0, Hi in Hb. destruct Hb as [ys Hf]. exists u. split; [done|].
  apply HelloWorld.MySink_values in Hf. fold (read c 3 1) in Hf. rewrite Hf.
  symmetry. apply (replicate_Permutation 3). by rewrite Hflow.
Qed.

End results.

(** ** The runs of the program are runs of the network *)

Section refinement.
Context (GetTransferredBytes : string → Z) (garbage ex : Z).

Abbreviation qs := (queues sub.1).
Abbreviation aqs := (abort_queues sub.1).
Abbreviation flat_runs := (runs GetTransferredBytes qs aqs flat_nodes).
Abbreviation embed_moves := (embed_moves GetTransferredBytes garbage ex the_transform).

(** The network in the state of the program: the coroutines of the inner
    pipeline have not moved before the transform starts. *)
Definition flat (e : embedded) : config :=
  match at_phase e with
  | NotStarted => add_threads (work_with_exception GetTransferredBytes <$> nodes_ sub.2) (net e)
  | _ => net e
  end.

Definition phase_ok (e : embedded) : Prop :=
  match at_phase e with
  | NotStarted => now_world e = begun.1
  | Awaiting inner => now_world e = sub.1 ∧ inner = nodes_ sub.2
  | Returned r => now_world e = sub.1 ∧ r = Value tt
  end.

Definition phases_left (e : embedded) : nat :=
  match at_phase e with NotStarted => 2 | Awaiting _ => 1 | Returned _ => 0 end.

Definition embed_inv (e : embedded) : Prop := flat_runs (flat e) ∧ phase_ok e.

Lemma embed_inv_init : embed_inv (embed_init GetTransferredBytes begun).
Proof.
  split; [|done]. assert (flat (embed_init GetTransferredBytes begun) = launch GetTransferredBytes flat_nodes) as ->.
  { unfold flat, launch, add_threads. simpl. unfold flat_nodes. by rewrite map_fmap_union. }
  constructor.
Qed.

Lemma set_thread_add i p m (c : config) : set_thread i p (add_threads m c) = add_threads m (set_thread i p c).
Proof. unfold set_thread, add_threads. simpl. by rewrite insert_union_l. Qed.

(** A step is possible in a larger network as well, if it does not write to an
    abort channel. *)
Lemma step_more (qs0 aqs0 qs1 aqs1 : list Z) now i (c c' : config) m :
  (∀ q, qs0 !!! q = qs1 !!! q) → (∀ a v k, threads c !! i ≠ Some (QTryPush a v k)) →
  step_thread qs0 aqs0 now i c = Some c' →
  step_thread qs1 aqs1 now i (add_threads m c) = Some (add_threads m c').
Proof.
  intros Hqs Htry Hs. unfold step_thread in *. simpl.
  destruct (threads c !! i) as [p|] eqn:Hp; [|done].
  rewrite (lookup_union_Some_l _ _ _ _ Hp). simpl in *.
  destruct p as [a|q k|q v k|a k|a v k|k|cr|S R body st k]; try done; simpl in *.
  - destruct (contents c !!! q) as [|v l']; simplify_eq. by rewrite set_thread_add.
  - rewrite <- Hqs. case_decide; simplify_eq. by rewrite set_thread_add.
  - destruct (aborts c !!! a) as [|v l']; simplify_eq; by rewrite set_thread_add.
  - by destruct (Htry a v k).
  - simplify_eq. by rewrite set_thread_add.
  - simplify_eq. by rewrite set_thread_add.
Qed.

Lemma no_try_push e i a v k : embed_inv e → threads (net e) !! i ≠ Some (QTryPush a v k).
Proof.
  intros [Hr _] Hp. assert (threads (flat e) !! i = Some (QTryPush a v k)) as Hf.
  { unfold flat. destruct (at_phase e); [simpl; by apply lookup_union_Some_l|done..]. }
  by apply (runs_unaborted GetTransferredBytes _ _ _ _ flat_closed flat_never_throws _ _ _ Hr Hf).
Qed.

Lemma finish_value l r : MyTransform_finish l = Ok r → r = Value tt.
Proof.
  unfold MyTransform_finish, Run_results. rewrite Run_results_loop_keeps by (by rewrite !length_fmap).
  simpl. by intros [= <-].
Qed.

Lemma transform_step_inv n e e' :
  transform_step GetTransferredBytes garbage ex n e = Some e' →
  (at_phase e = NotStarted ∧ ∃ s l, MyTransform_launch n garbage ex (now_world e) = (s, Ok l) ∧
     e' = Embedded (add_threads (work_with_exception GetTransferredBytes <$> nodes_ s.2) (net e)) s.1 (Awaiting (nodes_ s.2))) ∨
  ∃ inner, at_phase e = Awaiting inner ∧ e' = Embedded (net e) (now_world e) (Returned (Value tt)).
Proof.
  unfold transform_step. destruct (at_phase e) as [|inner|r]; [|intros (l & _ & Hf)%bind_Some|done].
  - destruct (MyTransform_launch n garbage ex (now_world e)) as [s [l|x|x]]; [|done..]. intros [= <-]. left. eauto.
  - destruct (MyTransform_finish l) as [r|x|x] eqn:Hr; [|done..]. apply finish_value in Hr as ->.
    injection Hf as <-. right. eauto.
Qed.

Lemma transform_refines e e' :
  embed_inv e → transform_step GetTransferredBytes garbage ex the_transform e = Some e' →
  embed_inv e' ∧ flat e' = flat e ∧ phases_left e' < phases_left e.
Proof.
  intros [Hr Hph] [(Hat & s & l & Hl & ->)|(inner & Hat & ->)]%transform_step_inv;
    unfold phase_ok, phases_left, embed_inv in *; rewrite Hat in Hph |- *.
  - assert (s = sub) as ->.
    { destruct (sub_launches garbage ex) as [l' Hl']. rewrite Hph, Hl' in Hl. congruence. }
    assert (flat e = add_threads (work_with_exception GetTransferredBytes <$> nodes_ sub.2) (net e)) as Hflat.
    { unfold flat. by rewrite Hat. }
    rewrite Hflat in Hr |- *. repeat split; [exact Hr|simpl; lia].
  - destruct Hph as [Hw ->]. assert (flat e = net e) as Hflat by (unfold flat; by rewrite Hat).
    rewrite Hflat in Hr |- *. repeat split; [exact Hr|exact Hw|simpl; lia].
Qed.

Lemma embed_refines e e' :
  embed_inv e → embed_moves e' e →
  embed_inv e' ∧ (moves qs aqs (flat e') (flat e) ∨ flat e' = flat e ∧ phases_left e' < phases_left e).
Proof.
  intros Hinv (now & i & Hs). unfold embed_step in Hs. case_decide as Hi.
  { destruct (transform_refines e e' Hinv Hs). auto. }
  apply bind_Some in Hs as (c' & Hst & Hs). injection Hs as <-. pose proof Hinv as [Hr Hph].
  assert (step_thread qs aqs now i (flat e) = Some (flat (Embedded c' (now_world e) (at_phase e)))) as Hflat.
  { unfold flat, phase_ok in *. cbn [at_phase net].
    destruct (at_phase e) as [|inner|r]; [|destruct Hph as [Hw _]; by rewrite Hw in Hst..].
    rewrite Hph in Hst. eapply step_more; [apply queues_grow| |done]. intros a v k. by apply no_try_push. }
  split; [|left; by exists now, i]. split; [by eapply runs_step|done].
Qed.

Lemma embed_acc e : embed_inv e → Acc embed_moves e.
Proof.
  intros Hinv. pose proof (runs_acc GetTransferredBytes _ _ _ _ flat_closed flat_sources_end _ (proj1 Hinv)) as Hacc.
  remember (flat e) as c eqn:Hc. revert e Hc Hinv. induction Hacc as [c _ IH]. intros e Hc Hinv.
  remember (phases_left e) as k eqn:Hk. revert e Hc Hinv Hk. induction k as [k IHk] using lt_wf_ind.
  intros e -> Hinv ->. constructor. intros e' He'. destruct (embed_refines e e' Hinv He') as [Hinv' [Hm|[Hf Hlt]]].
  - by eapply IH.
  - by eapply IHk.
Qed.

(** *** The end *)

(** The transform has returned without an exception, all other coroutines have
    returned, and three lines have been printed. *)
Definition embed_done (e : embedded) : Prop :=
  at_phase e = Returned (Value tt) ∧ finished (net e) ∧
  ∃ u, ended_in (net e) 3 u ∧ HelloWorld.printed u = replicate 3 "hello world".

Lemma thread_not_transform c i p : flat_runs c → threads c !! i = Some p → i ≠ transform_id.
Proof.
  intros Hr Hp ->. destruct (runs_inv _ _ _ _ _ _ flat_closed Hr) as [G HG].
  destruct (proj2 (ni_dom _ _ _ _ HG transform_id)) as [g Hg]; [by rewrite Hp|].
  destruct (ni_wp _ _ _ _ HG _ _ _ Hp Hg) as (n & Hn & _). by rewrite flat_no_transform in Hn.
Qed.

Lemma inner_returned c :
  flat_runs c → finished c →
  ∃ l, mapM (λ each : Z * node string line_state, returned c each.1) (map_order (nodes_ sub.2)) = Some l.
Proof.
  intros Hr Hf. apply mapM_is_Some_2. apply Forall_forall. intros [i n] Hin.
  assert (is_Some (threads c !! i)) as [p Hp].
  { apply (ready_dom _ _ _ (runs_ready GetTransferredBytes _ _ _ _ flat_closed flat_sources_end _ Hr)).
    rewrite map_order_perm in Hin. apply elem_of_map_to_list in Hin. unfold flat_nodes. rewrite lookup_union_is_Some. eauto. }
  unfold returned. simpl. rewrite Hp. destruct (Hf i p Hp) as [r ->]. done.
Qed.

Lemma flat_progress c :
  flat_runs c → finished c ∨ ∃ now i c', i ≠ transform_id ∧ step_thread qs aqs now i c = Some c'.
Proof.
  intros Hr. destruct (runs_progress _ _ _ _ _ _ flat_closed (λ z Hz, Hz) flat_no_concat Hr)
    as [Hf|[[i Hd]|(now & i & c' & Hm)]]; [by left|exfalso|right].
  - pose proof (runs_unaborted GetTransferredBytes _ _ _ _ flat_closed flat_never_throws c i _ Hr Hd) as Hu.
    exact (Hu eq_refl).
  - exists now, i, c'. split; [|done]. destruct (step_thread_some _ _ _ _ _ _ Hm) as [p Hp].
    by eapply thread_not_transform.
Qed.

Lemma flat_finished c :
  flat_runs c → finished c → ∃ u, ended_in c 3 u ∧ HelloWorld.printed u = replicate 3 "hello world".
Proof.
  intros Hr Hf. apply sink_printed. apply (succeeded_results _ _ _ _ _ _ flat_closed Hr).
  exact (finished_succeeds _ _ _ _ _ flat_closed flat_never_throws c Hr Hf).
Qed.

(** A coroutine other than the transform. *)
Lemma embed_thread_step e now i c' :
  now_world e = sub.1 → i ≠ transform_id → step_thread qs aqs now i (net e) = Some c' → ∃ e', embed_moves e' e.
Proof.
  intros Hw Hi Hs. exists (Embedded c' (now_world e) (at_phase e)), now, i. unfold embed_step.
  rewrite decide_False by done. by rewrite Hw, Hs.
Qed.

(** The transform starts, and goes on when its pipeline has ended. *)
Lemma transform_starts e : at_phase e = NotStarted → now_world e = begun.1 → ∃ e', embed_moves e' e.
Proof.
  intros Hat Hw. destruct (sub_launches garbage ex) as [l Hl].
  eexists (Embedded _ _ _), 0%Z, transform_id. unfold embed_step. rewrite decide_True by done.
  unfold transform_step. rewrite Hat, Hw, Hl. reflexivity.
Qed.

Lemma transform_goes_on e inner l :
  at_phase e = Awaiting inner →
  mapM (λ each : Z * node string line_state, returned (net e) each.1) (map_order inner) = Some l → ∃ e', embed_moves e' e.
Proof.
  intros Hat Hl. exists (Embedded (net e) (now_world e) (Returned (Value tt))), 0%Z, transform_id.
  unfold embed_step. rewrite decide_True by done. unfold transform_step. rewrite Hat, Hl. cbn [mbind option_bind].
  unfold MyTransform_finish, Run_results. by rewrite Run_results_loop_keeps by (by rewrite !length_fmap).
Qed.

Lemma embed_progress e : embed_inv e → embed_done e ∨ ∃ e', embed_moves e' e.
Proof.
  intros [Hr Hph]. unfold phase_ok in Hph. unfold flat in Hr. destruct (at_phase e) as [|inner|r] eqn:Hat.
  - right. by apply transform_starts.
  - right. destruct Hph as [Hw ->]. destruct (flat_progress _ Hr) as [Hf|(now & i & c' & Hi & Hs)].
    + destruct (inner_returned _ Hr Hf) as [l Hl]. by apply (transform_goes_on e (nodes_ sub.2) l).
    + by apply (embed_thread_step e now i c').
  - destruct Hph as [Hw ->]. destruct (flat_progress _ Hr) as [Hf|(now & i & c' & Hi & Hs)].
    + left. split; [done|]. split; [done|]. by apply flat_finished.
    + right. by apply (embed_thread_step e now i c').
Qed.

End refinement.

(** C18: [embed_pipeline]: [main] reaches [Run]; however the coroutines of the
    outer pipeline and of the pipeline inside [MyTransform] are interleaved, and
    whenever the transform starts, the program ends: all coroutines of both
    pipelines have returned, [MyTransform] has returned normally (the vector in
    which it looks for errors is always empty), and [hello world] has been printed
    three times, once for each branch of the fork. *)
Theorem embed_pipeline_result garbage ex :
  ∃ s n text l, embed_main garbage ex start = (s, Ok (text, l)) ∧ nodes_ s.2 !! transform_id = Some n ∧
    ∀ GetTransferredBytes e, embed_runs GetTransferredBytes garbage ex n s e →
      inevitably (embed_moves GetTransferredBytes garbage ex n) embed_done e.
Proof.
  destruct (embed_launches garbage ex) as [l Hl]. exists begun, the_transform, (Dump outer.2), l.
  split; [done|]. split; [apply transform_node|]. intros GetTransferredBytes e Hr.
  assert (embed_inv GetTransferredBytes e) as Hinv.
  { induction Hr as [|e e' _ IH Hm]; [apply embed_inv_init|by eapply embed_refines]. }
  apply (inevitably_acc _ (embed_inv GetTransferredBytes)); [by apply embed_acc|..|done].
  - intros x y Hx Hy. by eapply embed_refines.
  - apply embed_progress.
Qed.

End EmbedPipeline.
