(* ===== verification/Executor.v ===== *)
(** * The executor: [executor/tunnel_executor.h]

    A pool of workers, each with a task queue, a mutex and a condition
    variable.  [schedule] pushes to the first queue that is not full, starting
    from a random one, under the lock of that queue; a worker pops from its own
    queue or steals from the others without a lock, and sleeps when it finds
    nothing.  The state has one program counter per thread: the workers, the
    threads that call [schedule] from outside, and the one that calls [Stop].
    One step of a thread is one access to the shared state.  The timers are in
    [Timer]. *)

From stdpp Require Import base gmap strings fin_maps list.
From S2P Require Import Prelude.

(** ** The task queue *)

(** What the executor uses of [rigtorp::MPMCQueue]: a bounded queue whose
    [try_push] fails only when it is full and whose [try_pop] fails only when it
    is empty. *)
Class MPMCQueue (Func Q : Type) := {
  mpmc_new : Z → Q;
  try_push : Func → Q → option Q;
  try_pop : Q → option (Func * Q);
  items : Q → list Func;
  room : Q → Z;
  mpmc_new_items c : items (mpmc_new c) = [];
  mpmc_new_room c : room (mpmc_new c) = c;
  try_push_Some f q q' : try_push f q = Some q' → items q' = items q ++ [f] ∧ room q' = room q;
  try_push_None f q : try_push f q = None → (room q ≤ Z.of_nat (length (items q)))%Z;
  try_pop_Some q f q' : try_pop q = Some (f, q') → items q = f :: items q' ∧ room q' = room q;
  try_pop_None q : try_pop q = None → items q = [];
}.
#[global] Hint Mode MPMCQueue - ! : typeclass_instances.

Section executor.
Context {Func Q : Type} `{MPMCQueue Func Q}.

(** ** State *)

Inductive thread := TWorker (worker_id : nat) | TCaller (j : nat) | TStopper.

#[global] Instance thread_eq_dec : EqDecision thread.
Proof. solve_decision. Defined.
#[global] Instance thread_countable : Countable thread.
Proof.
  refine (inj_countable' (λ t, match t with TWorker w => inl (inl w) | TCaller j => inl (inr j) | TStopper => inr () end)
    (λ x, match x with inl (inl w) => TWorker w | inl (inr j) => TCaller j | inr _ => TStopper end) _).
  by intros [].
Defined.

(** Where a call of [schedule] is: about to lock the mutex of the [i]-th queue
    it tries, before [try_push], after it and before the unlock, before the
    notification, or at its end. *)
Inductive schedule_pc :=
| SLock (func : Func) (worker_index i : nat)
| SPush (func : Func) (worker_index i : nat)
| SUnlock (try_push_id : nat)
| SNotify (try_push_id : nat)
| SReturn (succ : bool).

(** Where a thread is.  The workers ([stopping] is [stop_when_try_pop_failed]):
    in [TryPopStartFrom] at its [i]-th queue; with a task, before
    [WakeUpNextWorker]; in a task, which may be in a call of [schedule]; before
    the lock; in the predicate of [wait], at the test of [stop_] and in
    [TryPopStartFrom]; after [wait] with a task; asleep; woken up and before the
    lock; ended.  A caller is in [schedule].  [Stop]: before the [i]-th lock;
    before [stop_ = true]; before the [i]-th unlock and notification; joining;
    ended. *)
Inductive pc :=
| WScan (i : nat) (stopping : bool)
| WWake (func : Func) (stopping : bool)
| WRun (func : Func) (stopping : bool) (call : option schedule_pc)
| WLock
| WCheck
| WPred (i : nat)
| WGot (func : Func)
| WSleep
| WWoken
| WReturned
| InSchedule (s : schedule_pc)
| PLock (i : nat)
| PSet
| PUnlock (i : nat)
| PNotify (i : nat)
| PJoin
| PDone.

(** [accepted] are the tasks whose push succeeded, [executed] those that have
    run; [late]: a thread outside the pool has pushed after [stop_] was set. *)
Record TunnelExecutor := Executor {
  stop_ : bool;
  task_queue_ : list Q;
  muts_ : list (option thread);
  threads : gmap thread pc;
  accepted : list Func;
  executed : list Func;
  late : bool;
}.

Implicit Types (st : TunnelExecutor) (t : thread) (p : pc) (q w i n : nat).

Definition GetThreadNum st : nat := length (task_queue_ st).

Definition set_pc t p st : TunnelExecutor :=
  Executor (stop_ st) (task_queue_ st) (muts_ st) (<[t := p]> (threads st)) (accepted st) (executed st) (late st).
Definition set_mut q (o : option thread) st : TunnelExecutor :=
  Executor (stop_ st) (task_queue_ st) (<[q := o]> (muts_ st)) (threads st) (accepted st) (executed st) (late st).
Definition set_queue q (x : Q) st : TunnelExecutor :=
  Executor (stop_ st) (<[q := x]> (task_queue_ st)) (muts_ st) (threads st) (accepted st) (executed st) (late st).
Definition set_stop st : TunnelExecutor :=
  Executor true (task_queue_ st) (muts_ st) (threads st) (accepted st) (executed st) (late st).
Definition accept t (f : Func) st : TunnelExecutor :=
  let outside := match t with TWorker _ => false | _ => true end in
  Executor (stop_ st) (task_queue_ st) (muts_ st) (threads st) (accepted st ++ [f]) (executed st)
    (late st || (outside && stop_ st)).
Definition executes (f : Func) st : TunnelExecutor :=
  Executor (stop_ st) (task_queue_ st) (muts_ st) (threads st) (accepted st) (executed st ++ [f]) (late st).
Definition forget t st : TunnelExecutor :=
  Executor (stop_ st) (task_queue_ st) (muts_ st) (delete t (threads st)) (accepted st) (executed st) (late st).

(** [muts_[q]->lock()] by [t], which waits while another thread has the lock. *)
Definition lock q t st : option TunnelExecutor :=
  match muts_ st !! q with Some None => Some (set_mut q (Some t) st) | _ => None end.
Definition unlock q st : TunnelExecutor := set_mut q None st.

(** [cvs_[q]->notify_one()]: only worker [q] waits on this variable. *)
Definition notify_one q st : TunnelExecutor :=
  match threads st !! TWorker q with Some WSleep => set_pc (TWorker q) WWoken st | _ => st end.

(** ** Operations *)

(** The index from which [schedule] starts: [id] is the worker that calls it,
    [rn] and [r] are the random numbers. *)
Definition start_index (id : option nat) (rn r : nat) : nat :=
  match id with
  | Some first => if decide (rn = 0) then r else first
  | None => r
  end.

(** One step of [schedule(func)] in thread [t]. *)
Definition schedule_step t (s : schedule_pc) st : option (TunnelExecutor * schedule_pc) :=
  let n := GetThreadNum st in
  match s with
  | SLock func ix i =>
      if decide (i < n) then st ← lock ((ix + i) mod n) t st; Some (st, SPush func ix i)
      else Some (st, SReturn false)
  | SPush func ix i =>
      let q := (ix + i) mod n in
      x ← task_queue_ st !! q;
      match try_push func x with
      | Some x => Some (accept t func (set_queue q x st), SUnlock q)
      | None => Some (unlock q st, SLock func ix (S i))
      end
  | SUnlock q => Some (unlock q st, SNotify q)
  | SNotify q => Some (notify_one q st, SReturn true)
  | SReturn _ => None
  end.

(** The [i]-th turn of [TryPopStartFrom(index, func)]. *)
Definition try_pop_at index i st : option (option (Func * TunnelExecutor)) :=
  let q := (index + i) mod GetThreadNum st in
  x ← task_queue_ st !! q;
  Some (match try_pop x with Some (f, x) => Some (f, set_queue q x st) | None => None end).

Definition WakeUpNextWorker index st : TunnelExecutor := notify_one ((index + 1) mod GetThreadNum st) st.

(** What a thread does next, where it has a choice: a task ends, or calls
    [schedule(func)] with the random numbers [rn] and [r]. *)
Inductive choice := Next | Call (func : Func) (rn r : nat).

Definition WorkerMain w p (c : choice) st : option TunnelExecutor :=
  let self := TWorker w in
  let n := GetThreadNum st in
  match p with
  | WScan i stopping =>
      if decide (i < n) then
        o ← try_pop_at w i st;
        Some (match o with
              | Some (f, st) => set_pc self (WWake f stopping) st
              | None => set_pc self (WScan (S i) stopping) st
              end)
      else if stopping then Some (set_pc self WReturned st)
      else Some (set_pc self WLock st)
  | WWake f stopping => Some (set_pc self (WRun f stopping None) (WakeUpNextWorker w st))
  | WRun f stopping None =>
      match c with
      | Next => Some (set_pc self (WScan 0 stopping) (executes f st))
      | Call g rn r =>
          if decide (r < n) then Some (set_pc self (WRun f stopping (Some (SLock g (start_index (Some w) rn r) 0))) st)
          else None
      end
  | WRun f stopping (Some (SReturn _)) => Some (set_pc self (WRun f stopping None) st)
  | WRun f stopping (Some s) =>
      '(st, s) ← schedule_step self s st;
      Some (set_pc self (WRun f stopping (Some s)) st)
  | WLock => st ← lock w self st; Some (set_pc self WCheck st)
  | WCheck =>
      if stop_ st then Some (set_pc self (WScan 0 true) (unlock w st))
      else Some (set_pc self (WPred 0) st)
  | WPred i =>
      if decide (i < n) then
        o ← try_pop_at w i st;
        Some (match o with
              | Some (f, st) => set_pc self (WGot f) st
              | None => set_pc self (WPred (S i)) st
              end)
      else Some (set_pc self WSleep (unlock w st))
  | WGot f =>
      if stop_ st then Some (set_pc self (WScan 0 true) (unlock w st))
      else Some (set_pc self (WRun f false None) (unlock w st))
  | WWoken => st ← lock w self st; Some (set_pc self WCheck st)
  | _ => None
  end.

(** A call of [schedule] from outside the pool. *)
Definition schedule_from j p st : option TunnelExecutor :=
  match p with
  | InSchedule (SReturn _) => Some (forget (TCaller j) st)
  | InSchedule s =>
      '(st, s) ← schedule_step (TCaller j) s st;
      Some (set_pc (TCaller j) (InSchedule s) st)
  | _ => None
  end.

Definition all_returned st : Prop :=
  Forall (λ w, threads st !! TWorker w = Some WReturned) (seq 0 (GetThreadNum st)).
#[global] Instance pc_eq_returned st w : Decision (threads st !! TWorker w = Some WReturned).
Proof. destruct (threads st !! TWorker w) as [[]|]; (left; reflexivity) || (right; discriminate). Defined.

Definition Stop_step p st : option TunnelExecutor :=
  let n := GetThreadNum st in
  match p with
  | PLock i =>
      if decide (i < n) then st ← lock i TStopper st; Some (set_pc TStopper (PLock (S i)) st)
      else Some (set_pc TStopper PSet st)
  | PSet => Some (set_pc TStopper (PUnlock 0) (set_stop st))
  | PUnlock i =>
      if decide (i < n) then Some (set_pc TStopper (PNotify i) (unlock i st))
      else Some (set_pc TStopper PJoin st)
  | PNotify i => Some (set_pc TStopper (PUnlock (S i)) (notify_one i st))
  | PJoin =>
      if decide (Forall (λ w, threads st !! TWorker w = Some WReturned) (seq 0 n))
      then Some (set_pc TStopper PDone st) else None
  | _ => None
  end.

(** One step of thread [t]. *)
Definition thread_step t (c : choice) st : option TunnelExecutor :=
  p ← threads st !! t;
  match t with
  | TWorker w => WorkerMain w p c st
  | TCaller j => schedule_from j p st
  | TStopper => Stop_step p st
  end.

(** The start of [schedule(func)] in a thread outside the pool, and of [Stop],
    [timer_manager_.Stop()] having returned. *)
Definition schedule j (func : Func) (rn r : nat) st : option TunnelExecutor :=
  match threads st !! TCaller j with
  | None => if decide (r < GetThreadNum st)
            then Some (set_pc (TCaller j) (InSchedule (SLock func (start_index None rn r) 0)) st) else None
  | Some _ => None
  end.
Definition Stop st : option TunnelExecutor :=
  match threads st !! TStopper with None => Some (set_pc TStopper (PLock 0) st) | Some _ => None end.

(** [~TunnelExecutor]: the start of [Stop] if it has not been called; otherwise
    the members are destroyed at once. *)
Definition destructor st : option TunnelExecutor := if stop_ st then Some st else Stop st.

(** The constructor, after all workers have started. *)
Definition queue_capacity : Z := 102400.
Definition TunnelExecutor_init (thread_num : nat) : TunnelExecutor :=
  Executor false (replicate thread_num (mpmc_new (Func := Func) queue_capacity)) (replicate thread_num None)
    (list_to_map ((λ w, (TWorker w, WScan 0 false)) <$> seq 0 thread_num)) [] [] false.

(** Threads run in any order; a condition variable may wake up a thread without
    a notification. *)
Inductive reach (thread_num : nat) : TunnelExecutor → Prop :=
| reach_init : reach thread_num (TunnelExecutor_init thread_num)
| reach_step t c st st' : reach thread_num st → thread_step t c st = Some st' → reach thread_num st'
| reach_schedule j f rn r st st' : reach thread_num st → schedule j f rn r st = Some st' → reach thread_num st'
| reach_Stop st st' : reach thread_num st → Stop st = Some st' → reach thread_num st'
| reach_spurious w st : reach thread_num st → threads st !! TWorker w = Some WSleep →
    reach thread_num (set_pc (TWorker w) WWoken st).

(** ** The invariant *)

Definition schedule_holds n (s : schedule_pc) q : Prop :=
  match s with SPush _ ix i => q = (ix + i) mod n | SUnlock q' => q = q' | _ => False end.

(** The mutexes a thread has. *)
Definition holds n t p q : Prop :=
  match p with
  | WCheck | WPred _ | WGot _ => t = TWorker q
  | WRun _ _ (Some s) | InSchedule s => schedule_holds n s q
  | PLock i => q < i
  | PSet => True
  | PUnlock i => i ≤ q
  | PNotify i => i < q
  | _ => False
  end.

Definition schedule_ok n (s : schedule_pc) : Prop :=
  match s with SUnlock q | SNotify q => q < n | _ => True end.
Definition items_at (qs : list Q) q : list Func := default [] (items <$> qs !! q).

(** What is known where a thread is, with [stop_] and the queues. *)
Definition worker_ok n (stop : bool) (qs : list Q) w p : Prop :=
  match p with
  | WScan _ b | WWake _ b => b = true → stop = true
  | WRun _ b c => (b = true → stop = true) ∧ (∀ s, c = Some s → schedule_ok n s)
  | WPred i => stop = false ∧ (0 < i → items_at qs w = [])
  | WGot _ => stop = false
  | WReturned => stop = true
  | WLock | WCheck | WSleep | WWoken => True
  | _ => False
  end.
Definition pc_ok n stop qs t p : Prop :=
  match t with
  | TWorker w => w < n ∧ worker_ok n stop qs w p
  | TCaller _ => match p with InSchedule s => schedule_ok n s | _ => False end
  | TStopper =>
      match p with
      | PLock _ | PSet => stop = false
      | PUnlock _ | PNotify _ | PJoin | PDone => stop = true
      | _ => False
      end
  end.

Definition mutex_ok n (muts : list (option thread)) (ts : gmap thread pc) : Prop :=
  ∀ q t, q < n → muts !! q = Some (Some t) ↔ ∃ p, ts !! t = Some p ∧ holds n t p q.

(** A thread that will notify worker [q], and [Stop] before it has. *)
Definition notifying p q : Prop :=
  match p with
  | WRun _ _ (Some (SUnlock q' | SNotify q')) | InSchedule (SUnlock q' | SNotify q') => q = q'
  | _ => False
  end.
Definition releasing p q : Prop := match p with PUnlock i | PNotify i => i ≤ q | _ => False end.

(** A worker that will look at queue [q] before it ends. *)
Definition covers n w p q : Prop :=
  match p with
  | WReturned => False
  | WScan i true => ∀ k, k < i → q ≠ (w + k) mod n
  | _ => True
  end.

Record inv n st : Prop := {
  v_pos : 0 < n;
  v_queues : length (task_queue_ st) = n;
  v_muts : length (muts_ st) = n;
  v_workers w : w < n → is_Some (threads st !! TWorker w);
  v_pc t p : threads st !! t = Some p → pc_ok n (stop_ st) (task_queue_ st) t p;
  v_mutex : mutex_ok n (muts_ st) (threads st);
  v_wake w : threads st !! TWorker w = Some WSleep → items_at (task_queue_ st) w ≠ [] →
    ∃ t p, threads st !! t = Some p ∧ notifying p w;
  v_wake_stop w : threads st !! TWorker w = Some WSleep → stop_ st = true →
    ∃ p, threads st !! TStopper = Some p ∧ releasing p w;
  v_cover q : q < n → items_at (task_queue_ st) q ≠ [] →
    late st = true ∨ ∃ w p, threads st !! TWorker w = Some p ∧ covers n w p q;
  v_stop : stop_ st = true → is_Some (threads st !! TStopper);
}.

(** *** The initial state *)

Lemma init_threads n t p :
  threads (TunnelExecutor_init n) !! t = Some p ↔ ∃ w, t = TWorker w ∧ w < n ∧ p = WScan 0 false.
Proof.
  simpl. rewrite <- elem_of_list_to_map.
  - rewrite list_elem_of_fmap. setoid_rewrite elem_of_seq. split; [|naive_solver lia].
    intros (w & [= -> ->] & Hw). exists w. split; [done|]. split; [lia|done].
  - rewrite <- list_fmap_compose. apply NoDup_fmap_2; [by intros ?? [=]|apply NoDup_seq].
Qed.

Lemma init_items n q : items_at (task_queue_ (TunnelExecutor_init n)) q = [].
Proof.
  unfold items_at. simpl. destruct (replicate n _ !! q) as [x|] eqn:Hx; [|done].
  apply lookup_replicate in Hx as [-> _]. simpl. apply mpmc_new_items.
Qed.

Lemma pool_inv_init n : 0 < n → inv n (TunnelExecutor_init n).
Proof.
  intros Hn. split; try (by rewrite ?init_items); try (simpl; by rewrite ?length_replicate).
  - intros w Hw. exists (WScan 0 false). apply init_threads. by exists w.
  - intros t p (w & -> & Hw & ->)%init_threads. done.
  - intros q t Hq. simpl. rewrite lookup_replicate. split; [naive_solver|].
    intros (p & (w & -> & Hw & ->)%init_threads & []).
  - intros w (w' & _ & _ & [=])%init_threads.
  - intros q Hq Hi. by rewrite init_items in Hi.
Qed.

(** *** Steps of one thread *)

(** How the locks change when thread [t] goes from [p] to [p']: not at all, or by
    one that it takes or gives back. *)
Inductive lock_change n t p p' (muts : list (option thread)) : list (option thread) → Prop :=
| lock_same : (∀ q, q < n → holds n t p' q ↔ holds n t p q) → lock_change n t p p' muts muts
| lock_taken q0 : muts !! q0 = Some None →
    (∀ q, q < n → holds n t p' q ↔ holds n t p q ∨ q = q0) → lock_change n t p p' muts (<[q0 := Some t]> muts)
| lock_given q0 : q0 < n → holds n t p q0 →
    (∀ q, q < n → holds n t p' q ↔ holds n t p q ∧ q ≠ q0) → lock_change n t p p' muts (<[q0 := None]> muts).

Lemma mutex_change n t p p' muts muts' ts :
  length muts = n → mutex_ok n muts ts → ts !! t = Some p → lock_change n t p p' muts muts' →
  length muts' = n ∧ mutex_ok n muts' (<[t := p']> ts).
Proof.
  intros Hl Hm Ht Hch.
  assert (∀ q t', q < n → muts !! q = Some (Some t') ∧ t' ≠ t ↔ ∃ p0, ts !! t' = Some p0 ∧ holds n t' p0 q ∧ t' ≠ t) as Hoth.
  { intros q t' Hq. rewrite (Hm q t' Hq). naive_solver. }
  assert (∀ q, q < n → muts !! q = Some (Some t) ↔ holds n t p q) as Hself.
  { intros q Hq. rewrite (Hm q t Hq). naive_solver. }
  assert (∀ muts', (∀ q, q < n → muts' !! q = Some (Some t) ↔ holds n t p' q) →
    (∀ q t', q < n → t' ≠ t → muts' !! q = Some (Some t') ↔ muts !! q = Some (Some t')) →
    mutex_ok n muts' (<[t := p']> ts)) as Hmk.
  { intros m H1 H2 q t' Hq. destruct (decide (t' = t)) as [->|Hne].
    - rewrite (H1 q Hq). rewrite lookup_insert_eq. naive_solver.
    - rewrite (H2 q t' Hq Hne), lookup_insert_ne by done. apply Hm, Hq. }
  destruct Hch as [Hs|q0 Hf Hs|q0 Hq0 Hh Hs].
  - split; [done|]. apply Hmk; [|done]. intros q Hq. by rewrite Hself, Hs.
  - split; [by rewrite length_insert|]. assert (q0 < length muts) as Hq0 by (by apply lookup_lt_Some in Hf). apply Hmk.
    + intros q Hq. rewrite (Hs q Hq). destruct (decide (q = q0)) as [->|Hne]; [rewrite list_lookup_insert_eq by done; naive_solver|].
      rewrite list_lookup_insert_ne, Hself by done. naive_solver.
    + intros q t' Hq Hne. destruct (decide (q = q0)) as [->|Hne']; [|by rewrite list_lookup_insert_ne].
      rewrite list_lookup_insert_eq by done. rewrite Hf. naive_solver.
  - split; [by rewrite length_insert|]. apply Hmk.
    + intros q Hq. rewrite (Hs q Hq). destruct (decide (q = q0)) as [->|Hne].
      * rewrite list_lookup_insert_eq by lia. naive_solver.
      * rewrite list_lookup_insert_ne, Hself by done. naive_solver.
    + intros q t' Hq Hne. destruct (decide (q = q0)) as [->|Hne']; [|by rewrite list_lookup_insert_ne].
      rewrite list_lookup_insert_eq by lia. apply (Hself q0 Hq0) in Hh. rewrite Hh. naive_solver.
Qed.

(** A step of [t] from [p] to [p'] that leaves the queues and [stop_]. *)
Record moves n st t p p' muts' : Prop := {
  mv_locks : lock_change n t p p' (muts_ st) muts';
  mv_ok : pc_ok n (stop_ st) (task_queue_ st) t p';
  mv_sleep w : t = TWorker w → p' = WSleep → items_at (task_queue_ st) w = [] ∧ stop_ st = false;
  mv_notify w : notifying p w → notifying p' w ∨ threads st !! TWorker w ≠ Some WSleep;
  mv_release w : w < n → releasing p w → releasing p' w ∨ threads st !! TWorker w ≠ Some WSleep;
  mv_cover w q : t = TWorker w → q < n → items_at (task_queue_ st) q ≠ [] → covers n w p q → covers n w p' q;
}.

Lemma inv_moves n st t p p' muts' acc ex :
  inv n st → threads st !! t = Some p → moves n st t p p' muts' →
  inv n (Executor (stop_ st) (task_queue_ st) muts' (<[t := p']> (threads st)) acc ex (late st)).
Proof.
  intros [Hpos Hlq Hlm Hw Hpc Hmu Hwk Hws Hcov Hst] Ht [Hlk Hok Hsl Hnt Hrl Hcv].
  destruct (mutex_change n t p p' _ _ _ Hlm Hmu Ht Hlk) as [Hlm' Hmu']. split; simpl; try done.
  - intros w Hlt. rewrite lookup_insert_is_Some'. right. by apply Hw.
  - intros t0 p0 [[<- <-]|[Hne H0]]%lookup_insert_Some; [done|by apply Hpc].
  - intros w [[Heq ->]|[Hne H0]]%lookup_insert_Some Hi; [by destruct (Hsl w Heq eq_refl)|].
    destruct (Hwk w H0 Hi) as (t0 & p0 & H1 & H2). destruct (decide (t0 = t)) as [->|Hne'].
    + assert (p0 = p) as -> by congruence. destruct (Hnt w H2); [|done]. exists t, p'. by rewrite lookup_insert_eq.
    + exists t0, p0. by rewrite lookup_insert_ne.
  - intros w [[Heq ->]|[Hne H0]]%lookup_insert_Some Hs; [destruct (Hsl w Heq eq_refl); congruence|].
    destruct (Hws w H0 Hs) as (p0 & H1 & H2). destruct (decide (t = TStopper)) as [->|Hne'].
    + assert (p0 = p) as -> by congruence. assert (w < n) as Hlt by (by destruct (Hpc _ _ H0)). destruct (Hrl w Hlt H2); [|done].
      exists p'. by rewrite lookup_insert_eq.
    + exists p0. by rewrite lookup_insert_ne.
  - intros q Hq Hi. destruct (Hcov q Hq Hi) as [|(w & p0 & H1 & H2)]; [by left|]. right.
    destruct (decide (t = TWorker w)) as [->|Hne].
    + assert (p0 = p) as -> by congruence. exists w, p'. rewrite lookup_insert_eq. split; [done|]. by eapply Hcv.
    + exists w, p0. by rewrite lookup_insert_ne.
  - intros Hs. rewrite lookup_insert_is_Some'. auto.
Qed.

Lemma inv_woken n st w :
  inv n st → threads st !! TWorker w = Some WSleep → inv n (set_pc (TWorker w) WWoken st).
Proof.
  intros Hinv Ht. apply (inv_moves n st _ WSleep); try done. split; simpl; try done.
  - by apply lock_same.
  - by destruct (v_pc _ _ Hinv _ _ Ht).
Qed.

Lemma inv_notify n st q : inv n st → inv n (notify_one q st).
Proof.
  intros Hinv. unfold notify_one. destruct (threads st !! TWorker q) as [[]|] eqn:Hq; try done. by apply inv_woken.
Qed.

Lemma notify_awake q st : threads (notify_one q st) !! TWorker q ≠ Some WSleep.
Proof.
  unfold notify_one. destruct (threads st !! TWorker q) as [[]|] eqn:Hq; try congruence. simpl. by rewrite lookup_insert_eq.
Qed.

Lemma notify_other q st t p : threads st !! t = Some p → p ≠ WSleep → threads (notify_one q st) !! t = Some p.
Proof.
  intros Ht Hp. unfold notify_one. destruct (threads st !! TWorker q) as [[]|] eqn:Hq; try done. simpl.
  rewrite lookup_insert_ne; congruence.
Qed.

Lemma notify_fields q st :
  stop_ (notify_one q st) = stop_ st ∧ task_queue_ (notify_one q st) = task_queue_ st ∧
  muts_ (notify_one q st) = muts_ st.
Proof. unfold notify_one. by destruct (threads st !! TWorker q) as [[]|]. Qed.

(** A queue from which a task was taken. *)
Lemma items_at_insert (qs : list Q) q x w :
  q < length qs → items_at (<[q := x]> qs) w = if decide (w = q) then items x else items_at qs w.
Proof.
  intros Hq. unfold items_at. case_decide as Hw; [subst; by rewrite list_lookup_insert_eq|].
  by rewrite list_lookup_insert_ne.
Qed.

Lemma pc_ok_queues n stop qs qs' t p :
  (∀ w, t = TWorker w → items_at qs w = [] → items_at qs' w = [] ∨ ∀ i, p ≠ WPred i) →
  pc_ok n stop qs t p → pc_ok n stop qs' t p.
Proof.
  intros He. destruct t as [w| |]; [|done..]. intros [Hw Hp]. split; [done|].
  destruct p; simpl in *; try done. destruct Hp as [Hs Hi]. split; [done|]. intros Hpos.
  destruct (He w eq_refl (Hi Hpos)) as [|Hno]; [done|]. by destruct (Hno i).
Qed.

Lemma inv_pop n st q x f x' :
  inv n st → task_queue_ st !! q = Some x → items x = f :: items x' → inv n (set_queue q x' st).
Proof.
  intros [Hpos Hlq Hlm Hw Hpc Hmu Hwk Hws Hcov Hst] Hx Hf.
  assert (q < length (task_queue_ st)) as Hq by (by apply lookup_lt_Some in Hx).
  assert (∀ w, items_at (task_queue_ st) w = [] → items_at (<[q := x']> (task_queue_ st)) w = []) as Hsh.
  { intros w. rewrite items_at_insert by done. case_decide as Hwq; [|done]. subst w. unfold items_at. rewrite Hx. simpl. by rewrite Hf. }
  split; simpl; try done.
  - by rewrite length_insert.
  - intros t p Ht. eapply pc_ok_queues; [|by apply Hpc]. auto.
  - intros w Hs Hi. apply Hwk; [done|]. intros He. by apply Hi, Hsh.
  - intros w Hlt Hi. apply Hcov; [done|]. intros He. by apply Hi, Hsh.
Qed.

(** The thread outside or inside the pool that is in [schedule]. *)
Definition call_pc (k : option (Func * bool)) (s : schedule_pc) : pc :=
  match k with Some (f, b) => WRun f b (Some s) | None => InSchedule s end.

Lemma pc_ok_call n stop qs t k s s' :
  pc_ok n stop qs t (call_pc k s) → schedule_ok n s' → pc_ok n stop qs t (call_pc k s').
Proof.
  destruct t as [w|j|], k as [[f b]|]; simpl; try done.
  intros (Hw & Hb & _) Hs. split; [done|]. split; [done|]. by intros ? [= <-].
Qed.

(** Nobody waits in its predicate on a queue whose mutex another thread has. *)
Lemma exclusive n st t p q t' p' :
  inv n st → q < n → threads st !! t = Some p → holds n t p q → threads st !! t' = Some p' → holds n t' p' q → t = t'.
Proof.
  intros Hinv Hq Ht Hh Ht' Hh'.
  assert (muts_ st !! q = Some (Some t)) as H1 by (apply (v_mutex _ _ Hinv q t Hq); eauto).
  assert (muts_ st !! q = Some (Some t')) as H2 by (apply (v_mutex _ _ Hinv q t' Hq); eauto). congruence.
Qed.

(** Who looks at a queue after a push. *)
Lemma cover_push n st t k f ix i q :
  inv n st → threads st !! t = Some (call_pc k (SPush f ix i)) → q < n →
  late st || (match t with TWorker _ => false | _ => true end && stop_ st) = true ∨
  ∃ w p, <[t := call_pc k (SUnlock ((ix + i) mod n))]> (threads st) !! TWorker w = Some p ∧ covers n w p q.
Proof.
  intros Hinv Ht Hq. pose proof (v_pc _ _ Hinv _ _ Ht) as Hok. destruct t as [w|j|].
  - right. eexists w, _. rewrite lookup_insert_eq. split; [done|]. destruct k as [[]|]; [done|by destruct Hok].
  - destruct (stop_ st) eqn:Hs; [left; apply orb_true_r|]. right.
    destruct (v_workers _ _ Hinv 0 (v_pos _ _ Hinv)) as [p Hp]. exists 0, p. rewrite lookup_insert_ne by done.
    split; [done|]. destruct (v_pc _ _ Hinv _ _ Hp) as [_ Hp']. rewrite Hs in Hp'.
    destruct p as [? []| | | | | | | | | | | | | | | |]; simpl in *; try done. by specialize (Hp' eq_refl).
  - by destruct k as [[]|].
Qed.

Lemma inv_push n st t k f ix i x x' (q := (ix + i) mod n) :
  inv n st → threads st !! t = Some (call_pc k (SPush f ix i)) → task_queue_ st !! q = Some x →
  items x' = items x ++ [f] → inv n (set_pc t (call_pc k (SUnlock q)) (accept t f (set_queue q x' st))).
Proof.
  intros Hinv Ht Hx Hf. pose proof Hinv as [Hpos Hlq Hlm Hw Hpc Hmu Hwk Hws Hcov Hst].
  assert (q < n) as Hq by (apply Nat.mod_upper_bound; lia).
  assert (holds n t (call_pc k (SPush f ix i)) q) as Hh by (by destruct k as [[]|]).
  pose proof (Hpc _ _ Ht) as Hok.
  destruct (mutex_change n t _ (call_pc k (SUnlock q)) (muts_ st) (muts_ st) _ Hlm Hmu Ht) as [_ Hmu'].
  { apply lock_same. intros q'. by destruct k as [[]|]. }
  split; simpl; try done.
  - by rewrite length_insert.
  - intros w Hlt. rewrite lookup_insert_is_Some'. right. by apply Hw.
  - intros t0 p0 [[<- <-]|[Hne H0]]%lookup_insert_Some.
    + eapply pc_ok_queues; [|by eapply pc_ok_call]. intros w _ _. right. by destruct k as [[]|].
    + eapply pc_ok_queues; [|by apply Hpc]. intros w -> Hi. rewrite items_at_insert by lia. case_decide as Hwq; [|by left].
      right. intros i' ->. subst w. destruct Hne. exact (exclusive n st t _ q _ _ Hinv Hq Ht Hh H0 eq_refl).
  - intros w H0 Hi. assert (threads st !! TWorker w = Some WSleep) as H0'.
    { apply lookup_insert_Some in H0 as [[_ H0]|[_ H0]]; [by destruct k as [[]|]|done]. }
    destruct (decide (w = q)) as [->|Hne]; [exists t, (call_pc k (SUnlock q)); rewrite lookup_insert_eq; by destruct k as [[]|]|].
    rewrite items_at_insert, decide_False in Hi by lia. destruct (Hwk w H0' Hi) as (t0 & p0 & H1 & H2).
    exists t0, p0. rewrite lookup_insert_ne; [done|]. intros <-. assert (p0 = call_pc k (SPush f ix i)) as -> by congruence.
    by destruct k as [[]|].
  - intros w H0 Hs. apply lookup_insert_Some in H0 as [[_ H0]|[_ H0]]; [by destruct k as [[]|]|].
    destruct (Hws w H0 Hs) as (p0 & H1 & H2). exists p0. rewrite lookup_insert_ne; [done|]. intros ->. simpl in Hok.
    rewrite H1 in Ht. simplify_eq. by destruct k as [[]|].
  - intros q' Hq' Hi. by apply (cover_push n st t k f ix i q').
  - intros Hs. rewrite lookup_insert_is_Some'. auto.
Qed.

Lemma inv_set_stop n st :
  inv n st → threads st !! TStopper = Some PSet → inv n (set_pc TStopper (PUnlock 0) (set_stop st)).
Proof.
  intros Hinv Ht. pose proof Hinv as [Hpos Hlq Hlm Hw Hpc Hmu Hwk Hws Hcov Hst].
  destruct (mutex_change n TStopper PSet (PUnlock 0) (muts_ st) (muts_ st) _ Hlm Hmu Ht) as [_ Hmu'].
  { apply lock_same. intros q _. simpl. split; [done|lia]. }
  split; simpl; try done.
  - intros w Hlt. rewrite lookup_insert_is_Some'. right. by apply Hw.
  - intros t p [[<- <-]|[Hne H0]]%lookup_insert_Some; [done|]. pose proof (Hpc _ _ H0) as Hok.
    destruct t as [w|j|]; [|done..]. destruct Hok as [Hlt Hok]. split; [done|].
    assert (holds n (TWorker w) p w → False) as Hno.
    { intros Hh. by pose proof (exclusive n st TStopper PSet w (TWorker w) p Hinv Hlt Ht I H0 Hh). }
    destruct p; simpl in *; naive_solver.
  - intros w [[? _]|[Hne H0]]%lookup_insert_Some Hi; [done|]. destruct (Hwk w H0 Hi) as (t0 & p0 & H1 & H2).
    exists t0, p0. rewrite lookup_insert_ne; [done|]. intros <-. assert (p0 = PSet) as -> by congruence. done.
  - intros w _ _. exists (PUnlock 0). rewrite lookup_insert_eq. split; [done|]. simpl. lia.
  - intros q Hq Hi. destruct (Hcov q Hq Hi) as [|(w & p0 & H1 & H2)]; [by left|]. right.
    exists w, p0. by rewrite lookup_insert_ne.
  - intros _. by rewrite lookup_insert_eq.
Qed.

(** A thread appears before its first lock, and disappears after its last. *)
Lemma inv_appear n st t p :
  inv n st → threads st !! t = None → (∀ q, ¬ holds n t p q) → p ≠ WSleep → pc_ok n (stop_ st) (task_queue_ st) t p →
  inv n (set_pc t p st).
Proof.
  intros [Hpos Hlq Hlm Hw Hpc Hmu Hwk Hws Hcov Hst] Ht Hh Hp Hok. split; simpl; try done.
  - intros w Hlt. rewrite lookup_insert_is_Some'. right. by apply Hw.
  - intros t0 p0 [[<- <-]|[Hne H0]]%lookup_insert_Some; [done|by apply Hpc].
  - intros q t0 Hq. rewrite (Hmu q t0 Hq). split; intros (p0 & H1 & H2).
    + exists p0. rewrite lookup_insert_ne; [done|congruence].
    + apply lookup_insert_Some in H1 as [[<- <-]|[Hne H1]]; [by destruct (Hh q)|eauto].
  - intros w [[_ ?]|[Hne H0]]%lookup_insert_Some Hi; [done|]. destruct (Hwk w H0 Hi) as (t0 & p0 & H1 & H2).
    exists t0, p0. rewrite lookup_insert_ne; [done|congruence].
  - intros w [[_ ?]|[Hne H0]]%lookup_insert_Some Hi; [done|]. destruct (Hws w H0 Hi) as (p0 & H1 & H2).
    exists p0. rewrite lookup_insert_ne; [done|congruence].
  - intros q Hq Hi. destruct (Hcov q Hq Hi) as [|(w & p0 & H1 & H2)]; [by left|]. right.
    exists w, p0. rewrite lookup_insert_ne; [done|congruence].
  - intros Hs. rewrite lookup_insert_is_Some'. auto.
Qed.

Lemma inv_forget n st j b :
  inv n st → threads st !! TCaller j = Some (InSchedule (SReturn b)) → inv n (forget (TCaller j) st).
Proof.
  intros [Hpos Hlq Hlm Hw Hpc Hmu Hwk Hws Hcov Hst] Ht. split; simpl; try done.
  - intros w Hlt. rewrite lookup_delete_ne by done. by apply Hw.
  - intros t0 p0 [Hne H0]%lookup_delete_Some. by apply Hpc.
  - intros q t0 Hq. rewrite (Hmu q t0 Hq). split; intros (p0 & H1 & H2).
    + exists p0. rewrite lookup_delete_ne; [done|]. intros <-. by assert (p0 = InSchedule (SReturn b)) as -> by congruence.
    + apply lookup_delete_Some in H1 as [_ H1]. eauto.
  - intros w [_ H0]%lookup_delete_Some Hi. destruct (Hwk w H0 Hi) as (t0 & p0 & H1 & H2).
    exists t0, p0. rewrite lookup_delete_ne; [done|]. intros <-. by assert (p0 = InSchedule (SReturn b)) as -> by congruence.
  - intros w [_ H0]%lookup_delete_Some Hi. destruct (Hws w H0 Hi) as (p0 & H1 & H2).
    exists p0. by rewrite lookup_delete_ne.
  - intros q Hq Hi. destruct (Hcov q Hq Hi) as [|(w & p0 & H1 & H2)]; [by left|]. right.
    exists w, p0. by rewrite lookup_delete_ne.
  - intros Hs. rewrite lookup_delete_ne by done. auto.
Qed.

(** *** [schedule] *)

Lemma lock_Some q t st st' : lock q t st = Some st' → muts_ st !! q = Some None ∧ st' = set_mut q (Some t) st.
Proof. unfold lock. destruct (muts_ st !! q) as [[]|]; naive_solver. Qed.

Lemma inv_call n st t k s s' muts' :
  inv n st → threads st !! t = Some (call_pc k s) →
  lock_change n t (call_pc k s) (call_pc k s') (muts_ st) muts' → schedule_ok n s' →
  (∀ w, notifying (call_pc k s) w → notifying (call_pc k s') w ∨ threads st !! TWorker w ≠ Some WSleep) →
  inv n (Executor (stop_ st) (task_queue_ st) muts' (<[t := call_pc k s']> (threads st))
           (accepted st) (executed st) (late st)).
Proof.
  intros Hinv Ht Hl Hs Hn. apply (inv_moves n st t (call_pc k s)); [done..|]. split; try done.
  - eapply pc_ok_call; [|done]. by apply (v_pc _ _ Hinv).
  - intros w _. by destruct k as [[]|].
  - intros w _. by destruct k as [[]|].
  - intros w q _ _ _ _. by destruct k as [[]|].
Qed.

Lemma inv_schedule_step n st t k s st' s' :
  inv n st → threads st !! t = Some (call_pc k s) → schedule_step t s st = Some (st', s') →
  inv n (set_pc t (call_pc k s') st').
Proof.
  intros Hinv Ht. pose proof (v_pc _ _ Hinv _ _ Ht) as Hok. pose proof (v_queues _ _ Hinv) as Hlq.
  pose proof (v_pos _ _ Hinv) as Hpos.
  unfold schedule_step, GetThreadNum. rewrite Hlq. destruct s as [f ix i|f ix i|q|q|b]; simpl.
  - case_decide as Hi; [|intros [= <- <-]].
    + destruct (lock _ t st) as [st1|] eqn:Hl; simpl; [|done]. intros [= <- <-]. apply lock_Some in Hl as [Hfree ->].
      apply (inv_call n st t k (SLock f ix i)); try done; [|by destruct k as [[]|]].
      apply lock_taken; [done|]. intros q Hq. destruct k as [[]|]; simpl; naive_solver.
    + apply (inv_call n st t k (SLock f ix i)); try done; [|by destruct k as [[]|]].
      apply lock_same. intros q Hq. by destruct k as [[]|].
  - destruct (task_queue_ st !! _) as [x|] eqn:Hx; simpl; [|done]. destruct (try_push f x) as [x'|] eqn:Hp.
    + intros [= <- <-]. apply try_push_Some in Hp as [Hp _]. by eapply inv_push.
    + intros [= <- <-]. apply (inv_call n st t k (SPush f ix i)); try done; [|by destruct k as [[]|]].
      apply lock_given; [by apply Nat.mod_upper_bound; lia|by destruct k as [[]|]|].
      intros q Hq. destruct k as [[]|]; simpl; naive_solver.
  - intros [= <- <-]. assert (q < n) as Hq by (destruct t, k as [[]|]; simpl in Hok; naive_solver).
    apply (inv_call n st t k (SUnlock q)); try done.
    + apply lock_given; [done|by destruct k as [[]|]|]. intros q' Hq'. destruct k as [[]|]; simpl; naive_solver.
    + intros w Hn. left. by destruct k as [[]|].
  - intros [= <- <-].
    apply (inv_call n (notify_one q st) t k (SNotify q)); [by apply inv_notify| |..|done|].
    + apply notify_other; [done|by destruct k as [[]|]].
    + apply lock_same. intros q' Hq'. by destruct k as [[]|].
    + intros w Hw. right. assert (w = q) as -> by (by destruct k as [[]|]). apply notify_awake.
  - done.
Qed.

(** *** The workers *)

Lemma try_pop_at_spec n st w i o :
  inv n st → try_pop_at w i st = Some o →
  match o with
  | Some (f, st') => ∃ x x', task_queue_ st !! ((w + i) mod n) = Some x ∧ items x = f :: items x' ∧
      st' = set_queue ((w + i) mod n) x' st
  | None => items_at (task_queue_ st) ((w + i) mod n) = []
  end.
Proof.
  intros Hinv. unfold try_pop_at, GetThreadNum. rewrite (v_queues _ _ Hinv).
  destruct (task_queue_ st !! _) as [x|] eqn:Hx; simpl; [|done]. intros [= <-].
  destruct (try_pop x) as [[f x']|] eqn:Hp.
  - apply try_pop_Some in Hp as [Hp _]. by exists x, x'.
  - unfold items_at. rewrite Hx. simpl. by apply try_pop_None.
Qed.

Lemma inv_worker n st w p p' muts' acc ex :
  inv n st → threads st !! TWorker w = Some p → lock_change n (TWorker w) p p' (muts_ st) muts' →
  worker_ok n (stop_ st) (task_queue_ st) w p' →
  (p' = WSleep → items_at (task_queue_ st) w = [] ∧ stop_ st = false) →
  (∀ q, notifying p q → False) →
  (∀ q, q < n → items_at (task_queue_ st) q ≠ [] → covers n w p q → covers n w p' q) →
  inv n (Executor (stop_ st) (task_queue_ st) muts' (<[TWorker w := p']> (threads st)) acc ex (late st)).
Proof.
  intros Hinv Ht Hl Hok Hsl Hno Hcv. destruct (v_pc _ _ Hinv _ _ Ht) as [Hw Hp].
  apply (inv_moves n st (TWorker w) p); [done..|]. split; try done.
  - intros w' [= <-]. done.
  - intros w' Hn. by destruct (Hno w').
  - intros w' _. by destruct p.
  - intros w' q [= <-]. apply Hcv.
Qed.

(** A worker that has seen every queue empty covers none. *)
Lemma mod_cover n w q : q < n → ∃ k, k < n ∧ q = (w + k) mod n.
Proof.
  intros Hq. exists ((q + (n - w mod n)) mod n). split; [apply Nat.mod_upper_bound; lia|].
  rewrite Nat.Div0.add_mod_idemp_r. pose proof (Nat.mod_upper_bound w n ltac:(lia)) as Hlt.
  rewrite <- Nat.Div0.add_mod_idemp_l. replace (w mod n + (q + (n - w mod n))) with (q + 1 * n) by lia.
  rewrite Nat.Div0.mod_add. by rewrite Nat.mod_small.
Qed.

Lemma inv_scan n st w i b st' :
  inv n st → threads st !! TWorker w = Some (WScan i b) → WorkerMain w (WScan i b) Next st = Some st' → inv n st'.
Proof.
  intros Hinv Ht. destruct (v_pc _ _ Hinv _ _ Ht) as [Hw Hp]. simpl. unfold GetThreadNum. rewrite (v_queues _ _ Hinv).
  case_decide as Hi.
  - destruct (try_pop_at w i st) as [o|] eqn:Ho; simpl; [|done]. intros [= <-].
    pose proof (try_pop_at_spec n st w i o Hinv Ho) as Hs. destruct o as [[f st1]|].
    + destruct Hs as (x & x' & Hx & Hf & ->).
      apply (inv_worker n (set_queue _ x' st) w (WScan i b)); try done; [by eapply inv_pop|by apply lock_same].
    + apply (inv_worker n st w (WScan i b)); try done; [by apply lock_same|].
      intros q Hq Hne. destruct b; simpl; [|done]. intros Hall k Hk.
      destruct (decide (k = i)) as [->|]; [congruence|]. apply Hall. lia.
  - destruct b; intros [= <-].
    + apply (inv_worker n st w (WScan i true)); [done|done|by apply lock_same|by apply Hp|done|done|].
      intros q Hq _ Hall. destruct (mod_cover n w q Hq) as (k & Hk & Hqk). apply (Hall k); [lia|done].
    + apply (inv_worker n st w (WScan i false)); try done. by apply lock_same.
Qed.

Lemma inv_pred n st w i st' :
  inv n st → threads st !! TWorker w = Some (WPred i) → WorkerMain w (WPred i) Next st = Some st' → inv n st'.
Proof.
  intros Hinv Ht. destruct (v_pc _ _ Hinv _ _ Ht) as [Hw [Hs Hi0]]. simpl. unfold GetThreadNum. rewrite (v_queues _ _ Hinv).
  case_decide as Hi.
  - destruct (try_pop_at w i st) as [o|] eqn:Ho; simpl; [|done]. intros [= <-].
    pose proof (try_pop_at_spec n st w i o Hinv Ho) as Hsp. destruct o as [[f st1]|].
    + destruct Hsp as (x & x' & Hx & Hf & ->).
      apply (inv_worker n (set_queue _ x' st) w (WPred i)); try done; [by eapply inv_pop|by apply lock_same].
    + apply (inv_worker n st w (WPred i)); try done; [by apply lock_same|]. split; [done|]. intros _.
      destruct i as [|i]; [|apply Hi0; lia]. rewrite Nat.add_0_r, Nat.mod_small in Hsp by done. done.
  - intros [= <-]. pose proof (v_pos _ _ Hinv). apply (inv_worker n st w (WPred i)); try done.
    + apply lock_given; [done|done|]. intros q Hq. simpl. naive_solver.
    + intros _. split; [apply Hi0; lia|done].
Qed.

Lemma inv_WorkerMain n st w p c st' :
  inv n st → threads st !! TWorker w = Some p → WorkerMain w p c st = Some st' → inv n st'.
Proof.
  intros Hinv Ht. destruct (v_pc _ _ Hinv _ _ Ht) as [Hw Hp].
  assert (∀ q, q < n → TWorker w = TWorker q ↔ False ∨ q = w) as Htake by naive_solver.
  assert (∀ q, q < n → False ↔ TWorker w = TWorker q ∧ q ≠ w) as Hgive by naive_solver.
  destruct p as [i b|f b|f b call| | |i|f| | | |s|i| |i|i| |]; try done.
  - by apply inv_scan.
  - intros [= <-]. unfold WakeUpNextWorker. set (q := (w + 1) mod _). destruct (notify_fields q st) as (Hs & Hqs & _).
    apply (inv_worker n (notify_one q st) w (WWake f b)); try done; [by apply inv_notify|by apply notify_other|by apply lock_same|].
    rewrite Hs. by split.
  - destruct call as [s|]; simpl.
    + destruct Hp as [Hb _]. destruct s as [g ix i|g ix i|q|q|r].
      1-4: destruct (schedule_step _ _ st) as [[st1 s1]|] eqn:Hs; simpl; [|done]; intros [= <-];
        exact (inv_schedule_step n st (TWorker w) (Some (f, b)) _ st1 s1 Hinv Ht Hs).
      intros [= <-]. apply (inv_worker n st w (WRun f b (Some (SReturn r)))); try done. by apply lock_same.
    + destruct Hp as [Hb _]. destruct c as [|g rn r].
      * intros [= <-]. apply (inv_worker n st w (WRun f b None)); try done; [by apply lock_same|].
        intros q Hq _ _. destruct b; simpl; [|done]. intros k Hk. lia.
      * case_decide; [|done]. intros [= <-]. apply (inv_worker n st w (WRun f b None)); try done; [by apply lock_same|].
        split; [done|]. by intros ? [= <-].
  - simpl. destruct (lock w _ st) as [st1|] eqn:Hl; simpl; [|done]. intros [= <-]. apply lock_Some in Hl as [Hfree ->].
    apply (inv_worker n st w WLock); try done. by apply lock_taken.
  - simpl. destruct (stop_ st) eqn:Hs; intros [= <-].
    + apply (inv_worker n st w WCheck); simpl; try done; [by apply lock_given|]. intros q Hq _ _ k Hk. lia.
    + apply (inv_worker n st w WCheck); simpl; try done; [by apply lock_same|]. split; [done|lia].
  - by apply inv_pred.
  - simpl in *. rewrite Hp. intros [= <-]. rewrite <- Hp. apply (inv_worker n st w (WGot f)); try done.
    by apply lock_given.
  - simpl. destruct (lock w _ st) as [st1|] eqn:Hl; simpl; [|done]. intros [= <-]. apply lock_Some in Hl as [Hfree ->].
    apply (inv_worker n st w WWoken); try done. by apply lock_taken.
Qed.

(** *** [Stop] and the callers *)

Lemma inv_stopper n st p p' muts' :
  inv n st → threads st !! TStopper = Some p → lock_change n TStopper p p' (muts_ st) muts' →
  pc_ok n (stop_ st) (task_queue_ st) TStopper p' →
  (∀ w, w < n → releasing p w → releasing p' w ∨ threads st !! TWorker w ≠ Some WSleep) →
  inv n (Executor (stop_ st) (task_queue_ st) muts' (<[TStopper := p']> (threads st))
           (accepted st) (executed st) (late st)).
Proof.
  intros Hinv Ht Hl Hok Hr. pose proof (v_pc _ _ Hinv _ _ Ht) as Hp.
  apply (inv_moves n st TStopper p); [done..|]. split; try done. intros w Hn. by destruct p.
Qed.

Lemma inv_Stop_step n st p st' :
  inv n st → threads st !! TStopper = Some p → Stop_step p st = Some st' → inv n st'.
Proof.
  intros Hinv Ht. pose proof (v_pc _ _ Hinv _ _ Ht) as Hp. pose proof (v_queues _ _ Hinv) as Hlq.
  unfold Stop_step, GetThreadNum. rewrite Hlq. destruct p as [| | | | | | | | | | |i| |i|i| |]; try done.
  - case_decide as Hi.
    + destruct (lock i _ st) as [st1|] eqn:Hl; simpl; [|done]. intros [= <-]. apply lock_Some in Hl as [Hfree ->].
      apply (inv_stopper n st (PLock i)); try done. apply lock_taken; [done|]. intros q Hq. simpl. lia.
    + intros [= <-]. apply (inv_stopper n st (PLock i)); try done. apply lock_same. intros q Hq. simpl. split; [lia|done].
  - intros [= <-]. by apply inv_set_stop.
  - case_decide as Hi; intros [= <-].
    + apply (inv_stopper n st (PUnlock i)); try done; [|by left].
      apply lock_given; [done|simpl; lia|]. intros q Hq. simpl. lia.
    + apply (inv_stopper n st (PUnlock i)); try done.
      * apply lock_same. intros q Hq. simpl. split; [done|lia].
      * simpl. lia.
  - intros [= <-]. destruct (notify_fields i st) as (Hs & Hqs & _).
    apply (inv_stopper n (notify_one i st) (PNotify i)); [by apply inv_notify|by apply notify_other|..].
    + apply lock_same. intros q Hq. simpl. lia.
    + by rewrite Hs.
    + intros w Hw Hr. simpl in *. destruct (decide (w = i)) as [->|Hne]; [right; apply notify_awake|left; lia].
  - case_decide; [|done]. intros [= <-]. apply (inv_stopper n st PJoin); try done. by apply lock_same.
Qed.

Lemma inv_thread_step n st t c st' : inv n st → thread_step t c st = Some st' → inv n st'.
Proof.
  intros Hinv. unfold thread_step. destruct (threads st !! t) as [p|] eqn:Ht; simpl; [|done].
  destruct t as [w|j|]; [by apply inv_WorkerMain| |by apply inv_Stop_step].
  pose proof (v_pc _ _ Hinv _ _ Ht) as Hp. destruct p as [| | | | | | | | | |s| | | | | |]; try done.
  destruct s as [g ix i|g ix i|q|q|r]; unfold schedule_from.
  1-4: destruct (schedule_step _ _ st) as [[st1 s1]|] eqn:Hs; simpl; [|done]; intros [= <-];
    exact (inv_schedule_step n st (TCaller j) None _ st1 s1 Hinv Ht Hs).
  intros [= <-]. by eapply inv_forget.
Qed.

Lemma reach_inv n st : 0 < n → reach n st → inv n st.
Proof.
  intros Hn. induction 1 as [|t c st st' _ IH Hs|j f rn r st st' _ IH Hs|st st' _ IH Hs|w st _ IH Hs].
  - by apply pool_inv_init.
  - by eapply inv_thread_step.
  - unfold schedule in Hs. destruct (threads st !! TCaller j) eqn:Hj; [done|]. case_decide; [|done].
    injection Hs as <-. apply inv_appear; [done|done|by intros q []|done|done].
  - unfold Stop in Hs. destruct (threads st !! TStopper) eqn:Hj; [done|]. injection Hs as <-.
    apply inv_appear; try done; [intros q; simpl; lia|]. simpl. apply not_true_is_false. intros Hs.
    destruct (v_stop _ _ IH Hs). congruence.
  - by apply inv_woken.
Qed.

(** ** Every task has one place *)

Definition held_by p : list Func := match p with WWake f _ | WRun f _ _ | WGot f => [f] | _ => [] end.
Definition held (ts : gmap thread pc) : list Func := (map_to_list ts).*2 ≫= held_by.
Definition queued (qs : list Q) : list Func := qs ≫= items.

Definition tasks_ok st : Prop := executed st ++ held (threads st) ++ queued (task_queue_ st) ≡ₚ accepted st.

Lemma held_new ts t p : ts !! t = None → held (<[t := p]> ts) ≡ₚ held_by p ++ held ts.
Proof. intros Ht. unfold held. by rewrite map_to_list_insert. Qed.
Lemma held_delete ts t p : ts !! t = Some p → held ts ≡ₚ held_by p ++ held (delete t ts).
Proof. intros Ht. rewrite <- (insert_delete_id ts t p Ht) at 1. apply held_new, lookup_delete_eq. Qed.
Lemma held_insert ts t p : held (<[t := p]> ts) ≡ₚ held_by p ++ held (delete t ts).
Proof. rewrite <- insert_delete_eq. apply held_new, lookup_delete_eq. Qed.
Lemma held_nil ts : (∀ t p, ts !! t = Some p → held_by p = []) → held ts = [].
Proof.
  intros Hts. unfold held. assert (∀ p, p ∈ (map_to_list ts).*2 → held_by p = []) as Hl.
  { intros p ([t p'] & -> & Ht)%list_elem_of_fmap. apply elem_of_map_to_list in Ht. by eapply Hts. }
  induction (map_to_list ts).*2 as [|p l IH]; [done|]. simpl. rewrite (Hl p) by (by left). apply IH.
  intros p' Hp'. apply Hl. by right.
Qed.
Lemma held_same ts t p p' : ts !! t = Some p → held_by p' = held_by p → held (<[t := p']> ts) ≡ₚ held ts.
Proof. intros Ht He. by rewrite held_insert, He, <- held_delete. Qed.

Lemma queued_delete qs q x : qs !! q = Some x → queued qs ≡ₚ items x ++ queued (delete q qs).
Proof. intros Hq. unfold queued. by rewrite (delete_Permutation qs q x Hq) at 1. Qed.
Lemma queued_insert qs q x x' : qs !! q = Some x → queued (<[q := x']> qs) ≡ₚ items x' ++ queued (delete q qs).
Proof.
  intros Hq. assert (q < length qs) as Hlt by (by apply lookup_lt_Some in Hq).
  rewrite (queued_delete (<[q := x']> qs) q x') by (by apply list_lookup_insert_eq).
  by rewrite list_delete_insert.
Qed.

Lemma held_notify q st : held (threads (notify_one q st)) ≡ₚ held (threads st).
Proof.
  unfold notify_one. destruct (threads st !! TWorker q) as [[]|] eqn:Hq; try done. by apply (held_same _ _ WSleep).
Qed.
Lemma tasks_notify q st : tasks_ok st → tasks_ok (notify_one q st).
Proof.
  unfold tasks_ok. intros Ht. rewrite held_notify. unfold notify_one. by destruct (threads st !! TWorker q) as [[]|].
Qed.

Lemma tasks_move st t p p' muts' :
  tasks_ok st → threads st !! t = Some p → held_by p' = held_by p →
  tasks_ok (Executor (stop_ st) (task_queue_ st) muts' (<[t := p']> (threads st)) (accepted st) (executed st) (late st)).
Proof. unfold tasks_ok. simpl. intros Hok Ht He. by rewrite (held_same _ _ p). Qed.

Lemma tasks_pop st t p p' q x x' f :
  tasks_ok st → threads st !! t = Some p → held_by p = [] → held_by p' = [f] →
  task_queue_ st !! q = Some x → items x = f :: items x' → tasks_ok (set_pc t p' (set_queue q x' st)).
Proof.
  unfold tasks_ok. simpl. intros Hok Ht Hp Hp' Hx Hf. rewrite <- Hok.
  rewrite held_insert, (held_delete _ _ _ Ht), (queued_insert _ _ _ _ Hx), (queued_delete _ _ _ Hx), Hp, Hp', Hf.
  simpl. apply Permutation_app_head, Permutation_middle.
Qed.

Lemma tasks_push st t p p' q x x' f :
  tasks_ok st → threads st !! t = Some p → held_by p' = held_by p →
  task_queue_ st !! q = Some x → items x' = items x ++ [f] → tasks_ok (set_pc t p' (accept t f (set_queue q x' st))).
Proof.
  unfold tasks_ok. simpl. intros Hok Ht Hp Hx Hf. rewrite <- Hok.
  rewrite (held_same _ _ _ _ Ht Hp), (queued_insert _ _ _ _ Hx), (queued_delete _ _ _ Hx), Hf.
  rewrite <- !app_assoc. do 2 apply Permutation_app_head. apply Permutation_app_head, Permutation_app_comm.
Qed.

Lemma tasks_run st t f p p' :
  tasks_ok st → threads st !! t = Some p → held_by p = [f] → held_by p' = [] → tasks_ok (set_pc t p' (executes f st)).
Proof.
  unfold tasks_ok. simpl. intros Hok Ht Hp Hp'. rewrite <- Hok.
  rewrite held_insert, (held_delete _ _ _ Ht), Hp, Hp'. by rewrite <- app_assoc.
Qed.

Lemma tasks_schedule_step n st t k s st' s' :
  inv n st → tasks_ok st → threads st !! t = Some (call_pc k s) → schedule_step t s st = Some (st', s') →
  tasks_ok (set_pc t (call_pc k s') st').
Proof.
  intros Hinv Hok Ht. assert (∀ a b, held_by (call_pc k a) = held_by (call_pc k b)) as He by (intros; by destruct k as [[]|]).
  unfold schedule_step. destruct s as [f ix i|f ix i|q|q|b]; simpl.
  - case_decide; [|intros [= <- <-]; by eapply tasks_move].
    destruct (lock _ t st) as [st1|] eqn:Hl; simpl; [|done]. intros [= <- <-]. apply lock_Some in Hl as [_ ->].
    by eapply (tasks_move st).
  - destruct (task_queue_ st !! _) as [x|] eqn:Hx; simpl; [|done]. destruct (try_push f x) as [x'|] eqn:Hp; intros [= <- <-].
    + apply try_push_Some in Hp as [Hp _]. by eapply tasks_push.
    + by eapply (tasks_move st).
  - intros [= <- <-]. by eapply (tasks_move st).
  - intros [= <- <-]. eapply (tasks_move (notify_one q st)); [by apply tasks_notify|apply notify_other; [done|]|done].
    by destruct k as [[]|].
  - done.
Qed.

Lemma tasks_WorkerMain n st w p c st' :
  inv n st → tasks_ok st → threads st !! TWorker w = Some p → WorkerMain w p c st = Some st' → tasks_ok st'.
Proof.
  intros Hinv Hok Ht. destruct (v_pc _ _ Hinv _ _ Ht) as [Hw Hp].
  destruct p as [i b|f b|f b call| | |i|f| | | |s|i| |i|i| |]; try done; simpl.
  - case_decide; [|destruct b; intros [= <-]; by eapply tasks_move].
    destruct (try_pop_at w i st) as [o|] eqn:Ho; simpl; [|done]. intros [= <-].
    pose proof (try_pop_at_spec n st w i o Hinv Ho) as Hs. destruct o as [[f st1]|]; [|by eapply tasks_move].
    destruct Hs as (x & x' & Hx & Hf & ->). by eapply tasks_pop.
  - intros [= <-]. eapply (tasks_move (notify_one _ st)); [by apply tasks_notify|by apply notify_other|done].
  - destruct call as [s|].
    + destruct s as [g ix i|g ix i|q|q|r].
      1-4: destruct (schedule_step _ _ st) as [[st1 s1]|] eqn:Hs; simpl; [|done]; intros [= <-];
        exact (tasks_schedule_step n st (TWorker w) (Some (f, b)) _ st1 s1 Hinv Hok Ht Hs).
      intros [= <-]. by eapply tasks_move.
    + destruct c as [|g rn r]; [intros [= <-]; by eapply tasks_run|]. case_decide; [|done]. intros [= <-]. by eapply tasks_move.
  - destruct (lock w _ st) as [st1|] eqn:Hl; simpl; [|done]. intros [= <-]. apply lock_Some in Hl as [_ ->].
    by eapply (tasks_move st).
  - destruct (stop_ st); intros [= <-]; by eapply (tasks_move st).
  - case_decide; [|intros [= <-]; by eapply (tasks_move st)].
    destruct (try_pop_at w i st) as [o|] eqn:Ho; simpl; [|done]. intros [= <-].
    pose proof (try_pop_at_spec n st w i o Hinv Ho) as Hs. destruct o as [[f st1]|]; [|by eapply tasks_move].
    destruct Hs as (x & x' & Hx & Hf & ->). by eapply tasks_pop.
  - simpl in Hp. rewrite Hp. intros [= <-]. by eapply (tasks_move st).
  - destruct (lock w _ st) as [st1|] eqn:Hl; simpl; [|done]. intros [= <-]. apply lock_Some in Hl as [_ ->].
    by eapply (tasks_move st).
Qed.

Lemma tasks_thread_step n st t c st' : inv n st → tasks_ok st → thread_step t c st = Some st' → tasks_ok st'.
Proof.
  intros Hinv Hok. unfold thread_step. destruct (threads st !! t) as [p|] eqn:Ht; simpl; [|done].
  pose proof (v_pc _ _ Hinv _ _ Ht) as Hp. destruct t as [w|j|]; [by eapply tasks_WorkerMain|..].
  - destruct p as [| | | | | | | | | |s| | | | | |]; try done. destruct s as [g ix i|g ix i|q|q|r]; unfold schedule_from.
    1-4: destruct (schedule_step _ _ st) as [[st1 s1]|] eqn:Hs; simpl; [|done]; intros [= <-];
      exact (tasks_schedule_step n st (TCaller j) None _ st1 s1 Hinv Hok Ht Hs).
    intros [= <-]. unfold tasks_ok in *. simpl. by rewrite <- Hok, (held_delete _ _ _ Ht).
  - unfold Stop_step. destruct p as [| | | | | | | | | | |i| |i|i| |]; try done.
    + case_decide; [|intros [= <-]; by eapply tasks_move]. destruct (lock i _ st) as [st1|] eqn:Hl; simpl; [|done].
      intros [= <-]. apply lock_Some in Hl as [_ ->]. by eapply (tasks_move st).
    + intros [= <-]. unfold tasks_ok in *. simpl. by rewrite (held_same _ _ _ _ Ht).
    + case_decide; intros [= <-]; by eapply (tasks_move st).
    + intros [= <-]. eapply (tasks_move (notify_one i st)); [by apply tasks_notify|by apply notify_other|done].
    + case_decide; [|done]. intros [= <-]. by eapply (tasks_move st).
Qed.

Lemma tasks_init n : tasks_ok (TunnelExecutor_init n).
Proof.
  unfold tasks_ok. rewrite held_nil; simpl.
  - unfold queued. induction n as [|n IH]; [done|]. simpl. by rewrite mpmc_new_items.
  - by intros t p (w & -> & _ & ->)%init_threads.
Qed.

Lemma reach_tasks n st : 0 < n → reach n st → tasks_ok st.
Proof.
  intros Hn Hr. induction Hr as [|t c st st' Hr IH Hs|j f rn r st st' Hr IH Hs|st st' Hr IH Hs|w st Hr IH Hs].
  - apply tasks_init.
  - eapply tasks_thread_step; [|done..]. by apply reach_inv.
  - unfold schedule in Hs. destruct (threads st !! TCaller j) eqn:Hj; [done|]. case_decide; [|done].
    injection Hs as <-. unfold tasks_ok in *. simpl. by rewrite held_new.
  - unfold Stop in Hs. destruct (threads st !! TStopper) eqn:Hj; [done|]. injection Hs as <-.
    unfold tasks_ok in *. simpl. by rewrite held_new.
  - by eapply tasks_move.
Qed.

(** *** The other threads *)

Definition others t st st' : Prop := ∀ t', t' ≠ t →
  threads st' !! t' = threads st !! t' ∨ (threads st !! t' = Some WSleep ∧ threads st' !! t' = Some WWoken).

Lemma others_set_pc t p st st' : others t st st' → others t st (set_pc t p st').
Proof. intros Ho t' Hne. simpl. rewrite lookup_insert_ne by done. by apply Ho. Qed.
Lemma others_same t st st' : threads st' = threads st → others t st st'.
Proof. intros He t' _. left. by rewrite He. Qed.
Lemma others_notify t q st : others t st (notify_one q st).
Proof.
  intros t' _. unfold notify_one. destruct (threads st !! TWorker q) as [[]|] eqn:Hq; auto.
  simpl. destruct (decide (t' = TWorker q)) as [->|Hne]; [right; by rewrite lookup_insert_eq|left; by rewrite lookup_insert_ne].
Qed.

Lemma schedule_others t s st st' s' : schedule_step t s st = Some (st', s') → others t st st'.
Proof.
  unfold schedule_step. destruct s as [f ix i|f ix i|q|q|b]; simpl.
  - case_decide; [|intros [= <- <-]; by apply others_same].
    destruct (lock _ t st) as [st1|] eqn:Hl; simpl; [|done]. intros [= <- <-]. apply lock_Some in Hl as [_ ->]. by apply others_same.
  - destruct (task_queue_ st !! _) as [x|]; simpl; [|done]. destruct (try_push f x); intros [= <- <-]; by apply others_same.
  - intros [= <- <-]. by apply others_same.
  - intros [= <- <-]. apply others_notify.
  - done.
Qed.

Lemma try_pop_threads w i st o f st' : try_pop_at w i st = Some o → o = Some (f, st') → threads st' = threads st.
Proof.
  unfold try_pop_at. destruct (task_queue_ st !! _) as [x|]; simpl; [|done]. intros [= <-].
  destruct (try_pop x) as [[g x']|]; [|done]. by intros [= <- <-].
Qed.

Lemma WorkerMain_others w p c st st' : WorkerMain w p c st = Some st' → others (TWorker w) st st'.
Proof.
  destruct p as [i b|f b|f b call| | |i|f| | | |s|i| |i|i| |]; try done; simpl.
  - case_decide; [|destruct b; intros [= <-]; by apply others_set_pc, others_same].
    destruct (try_pop_at w i st) as [[[f st1]|]|] eqn:Ho; simpl; [..|done]; intros [= <-]; apply others_set_pc, others_same; [|done].
    by eapply try_pop_threads.
  - intros [= <-]. apply others_set_pc, others_notify.
  - destruct call as [s|].
    + destruct s as [g ix i|g ix i|q|q|r].
      1-4: destruct (schedule_step _ _ st) as [[st1 s1]|] eqn:Hs; simpl; [|done]; intros [= <-];
        by eapply others_set_pc, schedule_others.
      intros [= <-]. by apply others_set_pc, others_same.
    + destruct c as [|g rn r]; [|case_decide; [|done]]; intros [= <-]; by apply others_set_pc, others_same.
  - destruct (lock w _ st) as [st1|] eqn:Hl; simpl; [|done]. intros [= <-]. apply lock_Some in Hl as [_ ->].
    by apply others_set_pc, others_same.
  - destruct (stop_ st); intros [= <-]; by apply others_set_pc, others_same.
  - case_decide; [|intros [= <-]; by apply others_set_pc, others_same].
    destruct (try_pop_at w i st) as [[[f st1]|]|] eqn:Ho; simpl; [..|done]; intros [= <-]; apply others_set_pc, others_same; [|done].
    by eapply try_pop_threads.
  - destruct (stop_ st); intros [= <-]; by apply others_set_pc, others_same.
  - destruct (lock w _ st) as [st1|] eqn:Hl; simpl; [|done]. intros [= <-]. apply lock_Some in Hl as [_ ->].
    by apply others_set_pc, others_same.
Qed.

Lemma Stop_step_others p st st' : Stop_step p st = Some st' → others TStopper st st'.
Proof.
  unfold Stop_step. destruct p as [| | | | | | | | | | |i| |i|i| |]; try done.
  - case_decide; [|intros [= <-]; by apply others_set_pc, others_same]. destruct (lock i _ st) as [st1|] eqn:Hl; simpl; [|done].
    intros [= <-]. apply lock_Some in Hl as [_ ->]. by apply others_set_pc, others_same.
  - intros [= <-]. by apply others_set_pc, others_same.
  - case_decide; intros [= <-]; by apply others_set_pc, others_same.
  - intros [= <-]. apply others_set_pc, others_notify.
  - case_decide; [|done]. intros [= <-]. by apply others_set_pc, others_same.
Qed.

Lemma thread_others t c st st' : thread_step t c st = Some st' → others t st st'.
Proof.
  unfold thread_step. destruct (threads st !! t) as [p|]; simpl; [|done].
  destruct t as [w|j|]; [apply WorkerMain_others| |apply Stop_step_others].
  unfold schedule_from. destruct p as [| | | | | | | | | |s| | | | | |]; try done. destruct s as [g ix i|g ix i|q|q|r].
  1-4: destruct (schedule_step _ _ st) as [[st1 s1]|] eqn:Hs; simpl; [|done]; intros [= <-];
    by eapply others_set_pc, schedule_others.
  intros [= <-] t' Hne. left. simpl. by rewrite lookup_delete_ne.
Qed.

(** A worker that has ended stays so. *)
Lemma returned_stays t c st st' w :
  thread_step t c st = Some st' → threads st !! TWorker w = Some WReturned → threads st' !! TWorker w = Some WReturned.
Proof.
  intros Hs Hw. destruct (decide (TWorker w = t)) as [<-|Hne].
  - unfold thread_step in Hs. by rewrite Hw in Hs.
  - destruct (thread_others _ _ _ _ Hs _ Hne) as [->|[? _]]; [done|congruence].
Qed.

(** [Stop] returns after all workers have ended. *)
Lemma stopped_returned n st :
  0 < n → reach n st → threads st !! TStopper = Some PDone → ∀ w, w < n → threads st !! TWorker w = Some WReturned.
Proof.
  intros Hn Hr. induction Hr as [|t c st st' Hr IH Hs|j f rn r st st' Hr IH Hs|st st' Hr IH Hs|w st Hr IH Hs].
  - intros (w & [=] & _)%init_threads.
  - pose proof (reach_inv n st Hn Hr) as Hinv. intros Hd. destruct (decide (t = TStopper)) as [->|Hne].
    + unfold thread_step in Hs. destruct (threads st !! TStopper) as [p|] eqn:Hp; simpl in Hs; [|done].
      unfold Stop_step, GetThreadNum in Hs. rewrite (v_queues _ _ Hinv) in Hs.
      destruct p as [| | | | | | | | | | |i| |i|i| |]; try done; try case_decide as Hc; simplify_eq;
        try (destruct (lock i TStopper st); simpl in Hs; [|done]; simplify_eq); simpl in Hd; rewrite lookup_insert_eq in Hd; try done.
      intros w Hw. simpl. rewrite lookup_insert_ne by done. rewrite Forall_forall in Hc. apply Hc, elem_of_seq. lia.
    + intros w Hw. eapply returned_stays; [done|]. apply IH; [|done].
      destruct (thread_others _ _ _ _ Hs TStopper) as [Heq|[_ ?]]; [done|congruence..].
  - unfold schedule in Hs. destruct (threads st !! TCaller j) eqn:Hj; [done|]. case_decide; [|done].
    injection Hs as <-. simpl. rewrite lookup_insert_ne by done. intros Hd w Hw. rewrite lookup_insert_ne by done. by apply IH.
  - unfold Stop in Hs. destruct (threads st !! TStopper) eqn:Hj; [done|]. injection Hs as <-. simpl. by rewrite lookup_insert_eq.
  - simpl. rewrite lookup_insert_ne by done. intros Hd w' Hw'. pose proof (IH Hd w' Hw') as Hret.
    rewrite lookup_insert_ne; [done|]. intros [= ->]. congruence.
Qed.

(** *** When no thread can run *)

Definition stuck st : Prop := ∀ t, thread_step t Next st = None.

Lemma queue_exists n st i : inv n st → ∃ x, task_queue_ st !! (i mod n) = Some x.
Proof.
  intros Hinv. pose proof (v_pos _ _ Hinv). apply lookup_lt_is_Some_2. rewrite (v_queues _ _ Hinv).
  apply Nat.mod_upper_bound. lia.
Qed.
Lemma try_pop_runs n st w i : inv n st → ∃ o, try_pop_at w i st = Some o.
Proof.
  intros Hinv. unfold try_pop_at, GetThreadNum. rewrite (v_queues _ _ Hinv).
  destruct (queue_exists n st (w + i) Hinv) as [x ->]. by eexists.
Qed.

(** A worker or caller that has a lock can run. *)
Lemma holder_runs n st t p q :
  inv n st → threads st !! t = Some p → t ≠ TStopper → holds n t p q → thread_step t Next st ≠ None.
Proof.
  intros Hinv Ht Hne Hh. pose proof (v_pc _ _ Hinv _ _ Ht) as Hok. unfold thread_step. rewrite Ht. simpl.
  assert (∀ t' s, schedule_holds n s q → ∃ x, schedule_step t' s st = Some x) as Hsch.
  { intros t' s. unfold schedule_step, GetThreadNum. rewrite (v_queues _ _ Hinv). destruct s as [g ix i|g ix i|q'|q'|r]; simpl; try done.
    - intros _. destruct (queue_exists n st (ix + i) Hinv) as [x ->]. simpl. destruct (try_push g x); by eexists.
    - intros _. by eexists. }
  destruct t as [w|j|]; [..|done].
  - destruct p as [i b|f b|f b call| | |i|f| | | |s|i| |i|i| |]; simpl in *; try done; try (by destruct Hok); [destruct call as [s|]; [|done]|..].
    + destruct (Hsch (TWorker w) s Hh) as [[st1 s1] Hx]. destruct s; simpl in Hh; try done; by rewrite Hx.
    + by destruct (stop_ st).
    + case_decide; [|done]. destruct (try_pop_runs n st w i Hinv) as [o ->]. done.
    + by destruct (stop_ st).
  - destruct p as [| | | | | | | | | |s| | | | | |]; simpl in *; try done.
    destruct (Hsch (TCaller j) s Hh) as [[st1 s1] Hx]. destruct s; simpl in Hh; try done; by rewrite Hx.
Qed.

Lemma stuck_free n st : inv n st → stuck st → ∀ q, q < n → muts_ st !! q = Some None.
Proof.
  intros Hinv Hst. assert (∀ q t p, q < n → t ≠ TStopper → threads st !! t = Some p → ¬ holds n t p q) as Hno.
  { intros q t p Hq Hne Ht Hh. by eapply holder_runs. }
  assert (∀ q, q < n → muts_ st !! q = Some None ∨ muts_ st !! q = Some (Some TStopper)) as Hm.
  { intros q Hq. destruct (lookup_lt_is_Some_2 (muts_ st) q) as [o Ho]; [by rewrite (v_muts _ _ Hinv)|].
    rewrite Ho. destruct o as [t|]; [right|by left]. destruct (decide (t = TStopper)) as [->|Hne]; [done|].
    apply (v_mutex _ _ Hinv q t Hq) in Ho as (p & Hp & Hh). by destruct (Hno q t p). }
  intros q Hq. destruct (Hm q Hq) as [|Hq']; [done|]. exfalso.
  apply (v_mutex _ _ Hinv q TStopper Hq) in Hq' as (p & Hp & Hh). pose proof (v_pc _ _ Hinv _ _ Hp) as Hok.
  specialize (Hst TStopper). unfold thread_step in Hst. rewrite Hp in Hst. simpl in Hst.
  unfold Stop_step, GetThreadNum in Hst. rewrite (v_queues _ _ Hinv) in Hst.
  destruct p as [| | | | | | | | | | |i| |i|i| |]; try done; case_decide as Hi; try done.
  unfold lock in Hst. destruct (Hm i Hi) as [Hf|Hf]; rewrite Hf in Hst; [done|].
  apply (v_mutex _ _ Hinv i TStopper Hi) in Hf as (p & Hp' & Hh'). rewrite Hp in Hp'. simplify_eq. simpl in Hh'. lia.
Qed.

(** What is left when no thread can run. *)
Lemma stuck_threads n st :
  inv n st → stuck st →
  (∀ w, w < n → threads st !! TWorker w = Some WSleep ∨ threads st !! TWorker w = Some WReturned) ∧
  (∀ j, threads st !! TCaller j = None) ∧
  (threads st !! TStopper = None ∨ threads st !! TStopper = Some PDone).
Proof.
  intros Hinv Hst. pose proof (stuck_free n st Hinv Hst) as Hfree.
  assert (∀ t q, q < n → lock q t st ≠ None) as Hlock by (intros t q Hq; unfold lock; by rewrite (Hfree q Hq)).
  pose proof (v_pos _ _ Hinv) as Hpos.
  assert (∀ t s, (∀ r, s ≠ SReturn r) → schedule_step t s st ≠ None) as Hsch.
  { intros t s Hs. unfold schedule_step, GetThreadNum. rewrite (v_queues _ _ Hinv). destruct s as [g ix i|g ix i|q'|q'|r]; try done.
    - case_decide; [|done]. destruct (lock ((ix + i) mod n) t st) eqn:Hl; [done|]. by apply (Hlock t ((ix + i) mod n)) in Hl; [|apply Nat.mod_upper_bound; lia].
    - destruct (queue_exists n st (ix + i) Hinv) as [x ->]. simpl. by destruct (try_push g x).
    - by destruct (Hs r). }
  assert (∀ w, w < n → threads st !! TWorker w = Some WSleep ∨ threads st !! TWorker w = Some WReturned) as Hworkers.
  { intros w Hw. destruct (v_workers _ _ Hinv w Hw) as [p Hp]. rewrite Hp.
    destruct (v_pc _ _ Hinv _ _ Hp) as [_ Hok]. specialize (Hst (TWorker w)). unfold thread_step in Hst. rewrite Hp in Hst.
    cbn [mbind option_bind] in Hst.
    destruct p as [i b|f b|f b [s|]| | |i|f| | | | | | | | | |]; try done; try (by auto); exfalso; simpl in Hst.
    - case_decide; [destruct (try_pop_runs n st w i Hinv) as [o Ho]; by rewrite Ho in Hst|by destruct b].
    - destruct s as [g ix i|g ix i|q|q|r]; try done.
      all: match type of Hst with context [schedule_step ?t ?s ?x] => destruct (schedule_step t s x) as [[]|] eqn:Hs; [done|] end.
      all: by apply Hsch in Hs.
    - destruct (lock w _ st) eqn:Hl; [done|]. by apply Hlock in Hl.
    - by destruct (stop_ st).
    - case_decide; [destruct (try_pop_runs n st w i Hinv) as [o Ho]; by rewrite Ho in Hst|done].
    - by destruct (stop_ st).
    - destruct (lock w _ st) eqn:Hl; [done|]. by apply Hlock in Hl. }
  split; [done|]. split.
  - intros j. destruct (threads st !! TCaller j) as [p|] eqn:Hp; [exfalso|done]. pose proof (v_pc _ _ Hinv _ _ Hp) as Hok.
    specialize (Hst (TCaller j)). unfold thread_step in Hst. rewrite Hp in Hst. cbn [mbind option_bind] in Hst.
    destruct p as [| | | | | | | | | |s| | | | | |]; try done. destruct s as [g ix i|g ix i|q|q|r]; unfold schedule_from in Hst; try done.
    all: match type of Hst with context [schedule_step ?t ?s ?x] => destruct (schedule_step t s x) as [[]|] eqn:Hs; [done|] end.
    all: by apply Hsch in Hs.
  - destruct (threads st !! TStopper) as [p|] eqn:Hp; [right|by left]. pose proof (v_pc _ _ Hinv _ _ Hp) as Hok.
    specialize (Hst TStopper). unfold thread_step in Hst. rewrite Hp in Hst. cbn [mbind option_bind] in Hst.
    unfold Stop_step, GetThreadNum in Hst. rewrite (v_queues _ _ Hinv) in Hst.
    destruct p as [| | | | | | | | | | |i| |i|i| |]; try done; exfalso; case_decide as Hc; try done.
    + destruct (lock i _ st) eqn:Hl; [done|]. by apply Hlock in Hl.
    + apply Hc, Forall_forall. intros w [_ Hw]%elem_of_seq. destruct (Hworkers w Hw) as [Hs|]; [|done].
      destruct (v_wake_stop _ _ Hinv w Hs Hok) as (p & Hp' & Hr). rewrite Hp in Hp'. by simplify_eq.
Qed.

Lemma stuck_empty n st :
  inv n st → stuck st → late st = false → (∀ q, q < n → items_at (task_queue_ st) q = []) ∧ held (threads st) = [].
Proof.
  intros Hinv Hst Hl. destruct (stuck_threads n st Hinv Hst) as (Hw & Hc & Hs).
  assert (∀ t p, threads st !! t = Some p → p = WSleep ∨ p = WReturned ∨ p = PDone) as Hall.
  { intros [w|j|] p Hp; [|by rewrite Hc in Hp|destruct Hs; naive_solver].
    destruct (v_pc _ _ Hinv _ _ Hp) as [Hlt _]. destruct (Hw w Hlt); naive_solver. }
  split.
  - intros q Hq. destruct (items_at (task_queue_ st) q) as [|f l] eqn:Hi; [done|]. exfalso.
    assert (items_at (task_queue_ st) q ≠ []) as Hi' by (by rewrite Hi). destruct (Hw q Hq) as [Hsl|Hret].
    + destruct (v_wake _ _ Hinv q Hsl Hi') as (t & p & Hp & Hn). destruct (Hall t p Hp) as [->|[->| ->]]; done.
    + destruct (v_cover _ _ Hinv q Hq Hi') as [|(w & p & Hp & Hcv)]; [congruence|].
      destruct (v_pc _ _ Hinv _ _ Hret) as [_ Hst']. simpl in Hst'.
      destruct (Hall (TWorker w) p Hp) as [->|[->| ->]]; [|done..|by destruct (v_pc _ _ Hinv _ _ Hp)].
      destruct (v_wake_stop _ _ Hinv w Hp Hst') as (p & Hp' & Hr). destruct (Hall _ _ Hp') as [->|[->| ->]]; done.
  - apply held_nil. intros t p Hp. by destruct (Hall _ _ Hp) as [->|[->| ->]].
Qed.

Lemma queued_empty (qs : list Q) : (∀ q, q < length qs → items_at qs q = []) → queued qs = [].
Proof.
  induction qs as [|x qs IH]; intros Hq; [done|]. pose proof (Hq 0 ltac:(simpl; lia)) as H0. unfold items_at in H0. simpl in H0.
  unfold queued. simpl. rewrite H0. apply IH. intros q Hlt. apply (Hq (S q)). simpl. lia.
Qed.

(** ** Guarantees *)

(** C25: no task is lost or run twice.  In every state the tasks whose push has
    succeeded are, each once, those that were executed, those a worker holds,
    and those in the queues, whatever the order of the steps, of steals, of
    spurious wake-ups and of [Stop]. *)
Theorem executor_exactly_once n st :
  0 < n → reach n st → executed st ++ held (threads st) ++ queued (task_queue_ st) ≡ₚ accepted st.
Proof. intros Hn Hr. by apply (reach_tasks n). Qed.

(** C26: no deadlock and no lost wake-up.  When no thread can run, every worker
    sleeps or has ended, no call of [schedule] is left unfinished, and [Stop] was
    not called or has returned; and unless a thread outside the pool has pushed
    after [stop_] was set, every accepted task was executed. *)
Theorem executor_no_lost_wakeup n st :
  0 < n → reach n st → stuck st →
  (∀ w, w < n → threads st !! TWorker w = Some WSleep ∨ threads st !! TWorker w = Some WReturned) ∧
  (∀ j, threads st !! TCaller j = None) ∧
  (threads st !! TStopper = None ∨ threads st !! TStopper = Some PDone) ∧
  (late st = false → executed st ≡ₚ accepted st).
Proof.
  intros Hn Hr Hst. pose proof (reach_inv n st Hn Hr) as Hinv. destruct (stuck_threads n st Hinv Hst) as (Hw & Hc & Hs).
  split; [done|]. split; [done|]. split; [done|]. intros Hl. destruct (stuck_empty n st Hinv Hst Hl) as [Hq Hh].
  pose proof (reach_tasks n st Hn Hr) as Ht. unfold tasks_ok in Ht. rewrite Hh, queued_empty in Ht.
  - by rewrite !app_nil_r in Ht.
  - by rewrite (v_queues _ _ Hinv).
Qed.

(** *** After [Stop] *)

(** Whatever the threads of the pool and those outside it do next. *)
Inductive pool_move st : TunnelExecutor → Prop :=
| move_step t c st' : thread_step t c st = Some st' → pool_move st st'
| move_schedule j f rn r st' : schedule j f rn r st = Some st' → pool_move st st'
| move_Stop st' : Stop st = Some st' → pool_move st st'
| move_spurious w : threads st !! TWorker w = Some WSleep → pool_move st (set_pc (TWorker w) WWoken st).

Lemma pool_moves_reach n st st' : reach n st → rtc pool_move st st' → reach n st'.
Proof.
  intros Hr Hm. induction Hm as [|st st1 st' Hm _ IH]; [done|]. apply IH.
  destruct Hm; eauto using reach_step, reach_schedule, reach_Stop, reach_spurious.
Qed.

Lemma notify_one_lists q st : executed (notify_one q st) = executed st ∧ accepted (notify_one q st) = accepted st.
Proof. unfold notify_one. by destruct (threads st !! TWorker q) as [[]|]. Qed.

Lemma schedule_step_lists t s st st' s' :
  schedule_step t s st = Some (st', s') → executed st' = executed st ∧ accepted st `prefix_of` accepted st'.
Proof.
  unfold schedule_step. destruct s as [f ix i|f ix i|q|q|b]; simpl.
  - case_decide; [|by intros [= <- <-]]. destruct (lock _ t st) as [st1|] eqn:Hl; simpl; [|done].
    intros [= <- <-]. by apply lock_Some in Hl as [_ ->].
  - destruct (task_queue_ st !! _) as [x|]; simpl; [|done]. destruct (try_push f x); intros [= <- <-]; simpl; [|done].
    split; [done|]. by apply prefix_app_r.
  - by intros [= <- <-].
  - intros [= <- <-]. destruct (notify_one_lists q st) as [-> ->]. done.
  - done.
Qed.

(** After [Stop] has returned only the callers of [schedule] move. *)
Lemma done_move n st st' :
  0 < n → reach n st → threads st !! TStopper = Some PDone → pool_move st st' →
  threads st' !! TStopper = Some PDone ∧ executed st' = executed st ∧ accepted st `prefix_of` accepted st'.
Proof.
  intros Hn Hr Hd Hm. pose proof (stopped_returned n st Hn Hr Hd) as Hw. pose proof (reach_inv n st Hn Hr) as Hinv.
  assert (∀ w p, threads st !! TWorker w = Some p → p = WReturned) as Hall.
  { intros w p Hp. destruct (v_pc _ _ Hinv _ _ Hp) as [Hlt _]. specialize (Hw w Hlt). congruence. }
  destruct Hm as [t c st' Hs|j f rn r st' Hs|st' Hs|w Hs].
  - assert (threads st' !! TStopper = Some PDone) as Hd'.
    { destruct (decide (TStopper = t)) as [<-|Hne]; [unfold thread_step in Hs; by rewrite Hd in Hs|].
      destruct (thread_others _ _ _ _ Hs TStopper Hne) as [->|[? _]]; [done|congruence]. }
    split; [done|]. unfold thread_step in Hs. destruct (threads st !! t) as [p|] eqn:Hp; simpl in Hs; [|done].
    destruct t as [w|j|]; [by rewrite (Hall w p Hp) in Hs| |by simplify_eq].
    unfold schedule_from in Hs. destruct p as [| | | | | | | | | |s| | | | | |]; try done. destruct s as [g ix i|g ix i|q|q|r].
    1-4: destruct (schedule_step _ _ st) as [[st1 s1]|] eqn:Hs1; simpl in Hs; [|done]; injection Hs as <-;
      by apply (schedule_step_lists _ _ _ _ _ Hs1).
    by injection Hs as <-.
  - unfold schedule in Hs. destruct (threads st !! TCaller j); [done|]. case_decide; [|done]. injection Hs as <-.
    simpl. by rewrite lookup_insert_ne.
  - unfold Stop in Hs. by rewrite Hd in Hs.
  - by apply Hall in Hs.
Qed.

Lemma done_moves n st st' :
  0 < n → reach n st → threads st !! TStopper = Some PDone → rtc pool_move st st' →
  threads st' !! TStopper = Some PDone ∧ executed st' = executed st ∧ accepted st `prefix_of` accepted st'.
Proof.
  intros Hn Hr Hd Hm. induction Hm as [|st st1 st' Hm _ IH]; [done|].
  destruct (done_move n st st1 Hn Hr Hd Hm) as (Hd1 & He & Hp).
  destruct IH as (Hd' & He' & Hp'); [|done|split; [done|split; [congruence|by etrans]]].
  eapply pool_moves_reach; [exact Hr|]. by apply rtc_once.
Qed.

(** A call of [schedule] that no other call disturbs, on a queue with room. *)
Lemma schedule_alone n st j f r x x' :
  reach n st → 0 < n → threads st !! TCaller j = None → r < n → muts_ st !! r = Some None →
  task_queue_ st !! r = Some x → try_push f x = Some x' →
  ∃ st', rtc pool_move st st' ∧ threads st' !! TCaller j = Some (InSchedule (SReturn true)) ∧
    accepted st' = accepted st ++ [f].
Proof.
  intros Hr Hn Hj Hrn Hmut Hx Hpush. pose proof (v_queues _ _ (reach_inv n st Hn Hr)) as Hlen.
  assert ((r + 0) mod n = r) as Hmod by (rewrite Nat.add_0_r; by apply Nat.mod_small).
  set (at_ s st := set_pc (TCaller j) (InSchedule s) st).
  set (st1 := at_ (SLock f r 0) st). set (st2 := at_ (SPush f r 0) (set_mut r (Some (TCaller j)) st1)).
  set (st3 := at_ (SUnlock r) (accept (TCaller j) f (set_queue r x' st2))).
  set (st4 := at_ (SNotify r) (unlock r st3)). exists (at_ (SReturn true) (notify_one r st4)).
  assert (∀ s st0, threads (at_ s st0) !! TCaller j = Some (InSchedule s)) as Hat by (intros; apply lookup_insert_eq).
  split; [|split; [apply Hat|simpl; by destruct (notify_one_lists r st4) as [_ ->]]].
  eapply rtc_l; [apply (move_schedule _ j f 0 r st1)|].
  { unfold schedule. by rewrite Hj, decide_True by (unfold GetThreadNum; lia). }
  eapply rtc_l; [apply (move_step _ (TCaller j) Next st2)|].
  { unfold thread_step. rewrite (Hat (SLock f r 0) st : threads st1 !! _ = _). simpl. unfold GetThreadNum. simpl.
    rewrite Hlen, decide_True, Hmod by done. unfold lock. simpl. by rewrite Hmut. }
  eapply rtc_l; [apply (move_step _ (TCaller j) Next st3)|].
  { unfold thread_step. rewrite (Hat (SPush f r 0) _ : threads st2 !! _ = _). simpl. unfold GetThreadNum. simpl.
    rewrite Hlen, Hmod, Hx. simpl. by rewrite Hpush. }
  eapply rtc_l; [apply (move_step _ (TCaller j) Next st4)|].
  { unfold thread_step. by rewrite (Hat (SUnlock r) _ : threads st3 !! _ = _). }
  apply rtc_once, (move_step _ (TCaller j) Next). unfold thread_step. by rewrite (Hat (SNotify r) _ : threads st4 !! _ = _).
Qed.

(** C38: [schedule] does not look at [stop_].  After [Stop] has returned, whatever
    threads do next, no task is executed any more; yet a call of [schedule] from
    outside, with no other call going on and room in the queue it tries first,
    is carried out as before: it returns true, with its task accepted, and that
    task is never run. *)
Theorem executor_late_task_lost n st j f r x :
  0 < n → reach n st → threads st !! TStopper = Some PDone →
  (∀ j, threads st !! TCaller j = None) → r < n → task_queue_ st !! r = Some x →
  (Z.of_nat (length (items x)) < room x)%Z →
  ∃ st', rtc pool_move st st' ∧ threads st' !! TCaller j = Some (InSchedule (SReturn true)) ∧
    accepted st' = accepted st ++ [f] ∧
    ∀ st'', rtc pool_move st' st'' → accepted st' `prefix_of` accepted st'' ∧ executed st'' = executed st.
Proof.
  intros Hn Hr Hd Hcallers Hrn Hx Hroom. pose proof (reach_inv n st Hn Hr) as Hinv.
  destruct (try_push f x) as [x'|] eqn:Hpush; [|apply try_push_None in Hpush; lia].
  assert (muts_ st !! r = Some None) as Hmut.
  { destruct (lookup_lt_is_Some_2 (muts_ st) r) as [[t|] Hm]; [rewrite (v_muts _ _ Hinv); lia| |done].
    apply (v_mutex _ _ Hinv r t Hrn) in Hm as (p & Hp & Hh). destruct t as [w|j'|]; [|by rewrite Hcallers in Hp|by simplify_eq].
    destruct (v_pc _ _ Hinv _ _ Hp) as [Hlt _]. rewrite (stopped_returned n st Hn Hr Hd w Hlt) in Hp. by simplify_eq. }
  destruct (schedule_alone n st j f r x x') as (st' & Hm & Hj & Ha); [done..|]. exists st'. split_and!; try done.
  intros st'' Hm'. destruct (done_moves n st st' Hn Hr Hd Hm) as (Hd' & He & _).
  destruct (done_moves n st' st'') as (_ & He' & Hp); [done|by eapply pool_moves_reach|done..|]. split; [done|congruence].
Qed.

(** The destructor, when no call of [Stop] is unfinished: it calls [Stop], or
    [Stop] has returned, and then it does nothing and finds no thread that
    could still use the members. *)
Theorem executor_destructor n st :
  0 < n → reach n st → threads st !! TStopper = None ∨ threads st !! TStopper = Some PDone →
  (∃ st', destructor st = Some st' ∧ reach n st' ∧ threads st' !! TStopper = Some (PLock 0)) ∨
  (destructor st = Some st ∧ ∀ w, w < n → threads st !! TWorker w = Some WReturned).
Proof.
  intros Hn Hr. pose proof (reach_inv n st Hn Hr) as Hinv. unfold destructor. intros [Hs|Hs].
  - left. destruct (stop_ st) eqn:Hst; [by destruct (v_stop _ _ Hinv Hst); congruence|]. unfold Stop. rewrite Hs.
    eexists. split; [done|]. split; [|apply lookup_insert_eq]. eapply reach_Stop; [done|]. unfold Stop. by rewrite Hs.
  - right. assert (stop_ st = true) as -> by exact (v_pc _ _ Hinv _ _ Hs). split; [done|]. by apply stopped_returned.
Qed.

(** C27: [Stop] drains the pool.  When it has returned, all workers have ended,
    and unless a thread outside the pool has pushed after [stop_] was set, the
    queues are empty and every accepted task was executed, those scheduled by
    tasks during the shutdown included. *)
Theorem executor_stop_drains n st :
  0 < n → reach n st → threads st !! TStopper = Some PDone →
  (∀ w, w < n → threads st !! TWorker w = Some WReturned) ∧
  (late st = false → (∀ q, q < n → items_at (task_queue_ st) q = []) ∧ executed st ≡ₚ accepted st).
Proof.
  intros Hn Hr Hd. pose proof (stopped_returned n st Hn Hr Hd) as Hw. pose proof (reach_inv n st Hn Hr) as Hinv.
  split; [done|]. intros Hl.
  assert (∀ w p, threads st !! TWorker w = Some p → p = WReturned) as Hall.
  { intros w p Hp. destruct (v_pc _ _ Hinv _ _ Hp) as [Hlt _]. specialize (Hw w Hlt). congruence. }
  assert (∀ q, q < n → items_at (task_queue_ st) q = []) as Hq.
  { intros q Hlt. destruct (items_at (task_queue_ st) q) eqn:Hi; [done|]. exfalso.
    destruct (v_cover _ _ Hinv q Hlt) as [|(w & p & Hp & Hcv)]; [by rewrite Hi|congruence|]. by rewrite (Hall w p Hp) in Hcv. }
  split; [done|]. pose proof (reach_tasks n st Hn Hr) as Ht. unfold tasks_ok in Ht. rewrite held_nil, queued_empty in Ht.
  - by rewrite !app_nil_r in Ht.
  - by rewrite (v_queues _ _ Hinv).
  - intros [w|j|] p Hp; [by rewrite (Hall w p Hp)|..]; pose proof (v_pc _ _ Hinv _ _ Hp) as Hok; by destruct p.
Qed.

End executor.

(** ** The start of the workers *)

(** The constructor waits until the timer thread and all workers have counted
    themselves in [finished].  Its mutex and its condition variable are local
    variables, which are gone when it returns. *)
Inductive start_pc := IStart | INotify | IMain.

Record starting := Starting {
  finished : nat;
  timer_started : bool;
  starting_workers : list start_pc;
  constructed : bool;
}.

Definition starting_init (thread_num : nat) : starting := Starting 0 false (replicate thread_num IStart) false.

(** A worker counts itself under the lock, and notifies after the unlock. *)
Definition start_worker (w : nat) (st : starting) : option (outcome starting) :=
  match starting_workers st !! w with
  | Some IStart =>
      Some (Ok (Starting (finished st + 1) (timer_started st) (<[w := INotify]> (starting_workers st)) (constructed st)))
  | Some INotify =>
      if constructed st then Some (Crash UndefinedBehaviour)
      else Some (Ok (Starting (finished st) (timer_started st) (<[w := IMain]> (starting_workers st)) (constructed st)))
  | _ => None
  end.

(** [TimerManager::Run]: the timer thread notifies under the lock. *)
Definition start_timer (st : starting) : option (outcome starting) :=
  if timer_started st then None
  else Some (Ok (Starting (finished st + 1) true (starting_workers st) (constructed st))).

(** The predicate of the constructor's [wait], and its return. *)
Definition construct (st : starting) : option (outcome starting) :=
  if decide (finished st = length (starting_workers st) + 1 ∧ constructed st = false)
  then Some (Ok (Starting (finished st) (timer_started st) (starting_workers st) true)) else None.

Inductive start_reach (n : nat) : starting → Prop :=
| start_reach_init : start_reach n (starting_init n)
| start_reach_worker w st st' : start_reach n st → start_worker w st = Some (Ok st') → start_reach n st'
| start_reach_timer st st' : start_reach n st → start_timer st = Some (Ok st') → start_reach n st'
| start_reach_construct st st' : start_reach n st → construct st = Some (Ok st') → start_reach n st'.

Definition counted (p : start_pc) : bool := match p with IStart => false | _ => true end.

Lemma count_started (l : list start_pc) w p p' :
  l !! w = Some p →
  length (filter counted (<[w := p']> l)) + (if counted p then 1 else 0) =
  length (filter counted l) + (if counted p' then 1 else 0).
Proof.
  intros Hw. assert (w < length l) as Hlt by (by apply lookup_lt_Some in Hw).
  pose proof (delete_Permutation l w p Hw) as H1.
  pose proof (delete_Permutation (<[w := p']> l) w p' ltac:(by apply list_lookup_insert_eq)) as H2.
  rewrite list_delete_insert in H2.
  rewrite (filter_Permutation _ _ _ H1) at 1. rewrite (filter_Permutation _ _ _ H2), !filter_cons.
  destruct p, p'; simpl; lia.
Qed.

Lemma start_counts n st :
  start_reach n st →
  length (starting_workers st) = n ∧
  finished st = length (filter counted (starting_workers st)) + (if timer_started st then 1 else 0) ∧
  (constructed st = true → finished st = n + 1).
Proof.
  induction 1 as [|w st st' _ (Hl & Hf & Hc) Hs|st st' _ (Hl & Hf & Hc) Hs|st st' _ (Hl & Hf & Hc) Hs].
  - simpl. split; [apply length_replicate|]. split; [|done]. induction n as [|n IH]; [done|]. simpl. by rewrite filter_cons.
  - unfold start_worker in Hs. destruct (starting_workers st !! w) as [p|] eqn:Hw; [|done].
    pose proof (count_started _ w p INotify Hw) as H1. pose proof (count_started _ w p IMain Hw) as H2.
    pose proof (length_filter counted (<[w := INotify]> (starting_workers st))) as Hle. rewrite length_insert in Hle.
    destruct p; [|destruct (constructed st) eqn:Hcs; [done|]|done]; injection Hs as <-; simpl in *; rewrite length_insert;
      (split; [done|]); (split; [lia|]); [|done]. intros Hd. specialize (Hc Hd). destruct (timer_started st); lia.
  - unfold start_timer in Hs. destruct (timer_started st) eqn:Ht; [done|]. injection Hs as <-. simpl.
    split; [done|]. split; [lia|]. intros Hd. specialize (Hc Hd). pose proof (length_filter counted (starting_workers st)). lia.
  - unfold construct in Hs. case_decide as Hd; [|done]. injection Hs as <-. simpl. destruct Hd. by subst.
Qed.

Lemma start_all n st :
  start_reach n st → constructed st = true →
  timer_started st = true ∧ Forall (λ p, counted p = true) (starting_workers st).
Proof.
  intros Hr Hc. destruct (start_counts n st Hr) as (Hl & Hf & Hfin). specialize (Hfin Hc).
  pose proof (length_filter counted (starting_workers st)) as Hle. destruct (timer_started st); [|lia]. split; [done|].
  assert (length (filter counted (starting_workers st)) = length (starting_workers st)) as He by lia.
  apply Forall_forall. intros p Hp. clear -He Hp. induction (starting_workers st) as [|p0 l IH]; [by apply not_elem_of_nil in Hp|].
  rewrite filter_cons in He. pose proof (length_filter counted l). destruct (decide (counted p0)) as [Hd|]; simpl in He; [|lia].
  apply elem_of_cons in Hp as [->|Hp]; [by apply Is_true_true|]. apply IH; [lia|done].
Qed.

(** The first [k] workers have counted themselves and not yet notified. *)
Lemma start_first n k :
  k ≤ n → ∃ st, start_reach n st ∧ timer_started st = false ∧ constructed st = false ∧ finished st = k ∧
    length (starting_workers st) = n ∧
    ∀ w, w < n → starting_workers st !! w = Some (if decide (w < k) then INotify else IStart).
Proof.
  induction k as [|k IH]; intros Hk.
  - exists (starting_init n). split; [constructor|]. simpl. rewrite length_replicate. split_and!; try done.
    intros w Hw. by apply lookup_replicate.
  - destruct IH as (st & Hr & Ht & Hc & Hf & Hl & Hw); [lia|].
    eexists. split; [apply (start_reach_worker n k st); [done|]|].
    { unfold start_worker. rewrite (Hw k), decide_False by lia. done. }
    simpl. rewrite length_insert. split_and!; [done..|lia|done|]. intros w Hlt.
    destruct (decide (w = k)) as [->|Hne]; [rewrite list_lookup_insert_eq, decide_True by lia; done|].
    rewrite list_lookup_insert_ne, Hw by lia. repeat case_decide; (done || lia).
Qed.

(** C37: the constructor of the executor returns only after the timer thread and
    every worker have counted themselves; but a worker notifies after it has
    released the lock, so with any number of workers there is a run in which the
    constructor has returned, and its condition variable is gone, when the last
    worker notifies it. *)
Theorem executor_start n :
  0 < n →
  (∀ st, start_reach n st → constructed st = true →
     timer_started st = true ∧ Forall (λ p, counted p = true) (starting_workers st)) ∧
  (∃ st, start_reach n st ∧ constructed st = true ∧ start_worker (n - 1) st = Some (Crash UndefinedBehaviour)).
Proof.
  intros Hn. split; [apply start_all|]. destruct (start_first n n) as (st & Hr & Ht & Hc & Hf & Hl & Hw); [lia|].
  exists (Starting (finished st + 1) true (starting_workers st) true).
  split; [apply (start_reach_construct n (Starting (finished st + 1) true (starting_workers st) (constructed st)))|].
  - apply (start_reach_timer n st); [done|]. unfold start_timer. by rewrite Ht.
  - unfold construct. simpl. by rewrite decide_True by (split; [lia|done]).
  - split; [done|]. unfold start_worker. simpl. rewrite (Hw (n - 1)), decide_True by lia. done.
Qed.

(** ** Runs of a pool *)

Module SamplePool.

(** A bounded queue as a list. *)
#[local] Instance list_mpmc : MPMCQueue nat (Z * list nat).
Proof.
  refine {| mpmc_new c := (c, []); items q := q.2; room q := q.1;
            try_push f q := if decide (q.1 ≤ Z.of_nat (length q.2))%Z then None else Some (q.1, q.2 ++ [f]);
            try_pop q := match q.2 with [] => None | f :: l => Some (f, (q.1, l)) end |}; try done.
  - intros f q q'. case_decide; [done|]. by intros [= <-].
  - intros f q. by case_decide.
  - intros [c [|g l]] f q'; [done|]. by intros [= <- <-].
  - intros [c [|g l]]; [done|]. done.
Defined.

Abbreviation pool := (@TunnelExecutor nat (Z * list nat)).

Inductive act := ASchedule (j f r : nat) | AStop | AStep (t : thread) | ACall (w f r : nat).

Definition do1 (a : act) (st : pool) : option pool :=
  match a with
  | ASchedule j f r => schedule j f 0 r st
  | AStop => Stop st
  | AStep t => thread_step t Next st
  | ACall w f r => thread_step (TWorker w) (Call f 0 r) st
  end.

(** The actions that are possible, in order. *)
Fixpoint do (l : list act) (st : pool) : pool :=
  match l with [] => st | a :: l => do l (default st (do1 a st)) end.

Lemma do_reach n l st : reach n st → reach n (do l st).
Proof.
  revert st. induction l as [|a l IH]; intros st Hr; simpl; [done|]. apply IH.
  destruct (do1 a st) as [st1|] eqn:H1; simpl; [|done]. destruct a; simpl in H1;
    [by eapply reach_schedule|by eapply reach_Stop|by eapply reach_step..].
Qed.

(** All threads in turn, [k] times. *)
Fixpoint rounds (k : nat) : list act :=
  match k with
  | 0 => []
  | S k => AStep (TWorker 0) :: AStep (TCaller 0) :: AStep (TWorker 1) :: AStep TStopper :: rounds k
  end.

Definition start : pool := TunnelExecutor_init 2.

(** Task 1 comes from outside; [Stop] sets [stop_] while it runs, and it
    schedules task 2 before the locks are given back. *)
Definition stopped : pool :=
  do (rounds 20 ++ ASchedule 0 1 1 :: rounds 7 ++ AStop :: replicate 4 (AStep TStopper) ++ ACall 1 2 0 :: rounds 60) start.
Lemma stopped_reach : reach 2 stopped.
Proof. apply do_reach. constructor. Qed.

Example stopped_tasks : accepted stopped = [1; 2] ∧ executed stopped = [1; 2] ∧ late stopped = false.
Proof. vm_compute. repeat split. Qed.

Lemma executor_exactly_once_witness :
  executed stopped ++ held (threads stopped) ++ queued (task_queue_ stopped) ≡ₚ accepted stopped.
Proof. apply (executor_exactly_once 2 stopped); [lia|apply stopped_reach]. Defined.

Lemma pool_stuck (st : pool) (ts : list thread) :
  (∀ t, t ∈ ts → thread_step t Next st = None) → (∀ t p, threads st !! t = Some p → t ∈ ts) → stuck st.
Proof.
  intros H1 H2 t. destruct (threads st !! t) as [p|] eqn:Ht; [apply H1; by eapply H2|].
  unfold thread_step. by rewrite Ht.
Qed.

Lemma pool_threads (st : pool) (ts : list thread) :
  (map_to_list (threads st)).*1 = ts → ∀ t p, threads st !! t = Some p → t ∈ ts.
Proof.
  intros <- t p Hp. apply list_elem_of_fmap. exists (t, p). split; [done|]. by apply elem_of_map_to_list.
Qed.

Lemma stopped_stuck : stuck stopped.
Proof.
  apply (pool_stuck _ [TStopper; TWorker 1; TWorker 0]).
  - apply Forall_forall. repeat constructor.
  - apply pool_threads. vm_compute. reflexivity.
Qed.

Lemma executor_no_lost_wakeup_witness :
  (∀ j, threads stopped !! TCaller j = None) ∧ executed stopped ≡ₚ accepted stopped.
Proof.
  destruct (executor_no_lost_wakeup 2 stopped ltac:(lia) stopped_reach stopped_stuck) as (_ & Hj & _ & Hl).
  split; [exact Hj|apply Hl; vm_compute; reflexivity].
Defined.

Lemma executor_stop_drains_witness :
  threads stopped !! TWorker 0 = Some WReturned ∧ executed stopped ≡ₚ accepted stopped.
Proof.
  destruct (executor_stop_drains 2 stopped ltac:(lia) stopped_reach ltac:(vm_compute; reflexivity)) as [Hw Hl].
  split; [apply Hw; lia|apply Hl; vm_compute; reflexivity].
Defined.

Lemma executor_start_witness :
  (∀ st, start_reach 2 st → constructed st = true →
     timer_started st = true ∧ Forall (λ p, counted p = true) (starting_workers st)) ∧
  (∃ st, start_reach 2 st ∧ constructed st = true ∧ start_worker 1 st = Some (Crash UndefinedBehaviour)).
Proof. apply (executor_start 2). lia. Defined.

(** Task 3 comes after [Stop] has returned. *)
Lemma executor_late_task_lost_witness :
  executed stopped = [1; 2] ∧
  ∃ st' : pool, rtc pool_move stopped st' ∧ threads st' !! TCaller 0 = Some (InSchedule (SReturn true)) ∧
    accepted st' = accepted stopped ++ [3] ∧
    ∀ st'', rtc pool_move st' st'' → accepted st' `prefix_of` accepted st'' ∧ executed st'' = executed stopped.
Proof.
  split; [vm_compute; reflexivity|].
  apply (executor_late_task_lost 2 stopped 0 3 1 (102400%Z, [])).
  - lia.
  - apply stopped_reach.
  - vm_compute. reflexivity.
  - intros j. assert (threads stopped = {[TStopper := PDone; TWorker 1 := WReturned; TWorker 0 := WReturned]}) as ->
      by (vm_compute; reflexivity). by simplify_map_eq.
  - lia.
  - vm_compute. reflexivity.
  - vm_compute. reflexivity.
Defined.

End SamplePool.
