(* ===== verification/Timer.v ===== *)
(** * The timers of the executor: [executor/timer.h]

    [TimerManager] and the completion handler of [TimerManager::PushTimer] in
    [executor/tunnel_executor.h]: the thread that runs the [io_context] of the
    timers, the callers of [PushTimer] and a thread in [Stop], one access to
    shared state at a time.  What [executor_->schedule] does with a task is in
    [Executor]; here its result is a choice of the environment. *)

From stdpp Require Import base strings list relations.
From S2P Require Import Prelude Termination.

Section timers.
Context {Func : Type}.

(** ** State *)






(** ** Operations *)








(** ** Runs *)






(** ** The invariant *)







(** ** After [Stop] *)



(** ** [Stop] returns *)








End timers.

(** ** A run *)

Module SampleTimers.




End SampleTimers.
