(* ===== verification/Server.v ===== *)
(** * The switcher program

    [src/switcher_server.cc] with the constructor, [Start] and [Stop] of
    [Switcher]: the flags, the set-up, and the life of the server between its
    main thread, the thread that runs the [io_context], the clients and the
    arrival of a signal.  The coroutines that serve the clients are those of
    [Switcher]: a step of the thread of the [io_context] may be one of theirs. *)

From stdpp Require Import base gmap strings list relations.
From S2P Require Import Prelude Wire Events Sockets Switcher SwitcherInv.

#[local] Open Scope Z_scope.

(** ** Set-up *)

(** [DEFINE_string] and [DEFINE_int32] *)
Record flags := Flags { FLAGS_ip : string; FLAGS_port : Z; FLAGS_logfile : string }.
Definition default_flags : flags := Flags "127.0.0.1" 12345 "switcher.log".

Section setup.
(** gflags: the flags after parsing a command line; asio: an address from its
    text, or an exception. *)
Context (ParseCommandLineFlags : list string → flags → flags).
Context {address : Type} (from_string : string → outcome address).

Record endpoint := Endpoint { ep_address : address; ep_port : Z }.

(** The [int32] flag is converted to the [uint16_t] parameter. *)
Definition CreateEndPoint (ip : string) (port : Z) : outcome endpoint :=
  a ← from_string ip; Ok (Endpoint a (wrap 16 port)).

(** [main] up to the constructor of [Switcher]: the log file and the endpoint. *)
Definition server_setup (argv : list string) : outcome (string * endpoint) :=
  let fl := default_flags in
  let log := ("logs/" +:+ FLAGS_logfile fl)%string in
  let fl := ParseCommandLineFlags argv fl in
  ep ← CreateEndPoint (FLAGS_ip fl) (FLAGS_port fl);
  Ok (log, ep).

(** The log file does not depend on the command line: [FLAGS_logfile] is read
    before the flags are parsed.  A port outside the range of [uint16_t] is
    taken modulo [2 ^ 16]. *)
Lemma server_setup_flags argv log ep :
  server_setup argv = Ok (log, ep) →
  log = "logs/switcher.log" ∧ uint_range 16 (ep_port ep) ∧
  ep_port ep = FLAGS_port (ParseCommandLineFlags argv default_flags) `mod` 65536.
Proof.
  unfold server_setup, CreateEndPoint. destruct (from_string _) as [a|e|cr]; simpl; [|done..].
  intros [= <- <-]. split; [done|]. split; [by apply wrap_range|done].
Qed.

End setup.

(** ** Fair executions *)

Section fairness.
#[local] Open Scope nat_scope.
Context {A : Type} (step : A → A → Prop).

(** An execution, in which nothing may happen for a while; [step y x] is a step
    from [x] to [y]. *)
Definition execution (run : nat → A) : Prop := ∀ n, run (S n) = run n ∨ step (run (S n)) (run n).

(** The steps [h] are not enabled forever without being taken. *)
Definition fair (h : A → A → Prop) (run : nat → A) : Prop :=
  ∀ n, ∃ m, n ≤ m ∧ (h (run (S m)) (run m) ∨ ¬ ∃ y, h y (run m)).

(** If the steps [h] are enabled in all states of [I], which is left only to
    [Q], and lead to [Q], then [Q] is reached. *)
Lemma fair_reaches (h : A → A → Prop) (I Q : A → Prop) run n :
  execution run → fair h run → (∀ y, I y → ∃ z, h z y) → (∀ y z, I y → step z y → I z ∨ Q z) →
  (∀ y z, I y → h z y → Q z) → I (run n) → ∃ m, n ≤ m ∧ Q (run m).
Proof.
  intros Hex Hf He Hs Hh HI. destruct (Hf n) as (m & Hm & Hd).
  assert (∀ k, (∃ m, n ≤ m ∧ Q (run m)) ∨ I (run (k + n))) as Hk.
  { induction k as [|k [IH|IH]]; [by right|by left|]. destruct (Hex (k + n)) as [Heq|Hst].
    - right. by rewrite Nat.add_succ_l, Heq.
    - destruct (Hs _ _ IH Hst) as [Hn|HQ]; [by right|]. left. exists (S (k + n)). split; [lia|done]. }
  destruct (Hk (m - n)) as [?|HIm]; [done|]. replace (m - n + n) with m in HIm by lia.
  destruct Hd as [Hd|Hd]; [|by destruct Hd; apply He]. exists (S m). split; [lia|by eapply Hh].
Qed.

End fairness.

(** ** The life of the server *)

(** Where the main thread stands. *)
Inductive main_pc := MainStart | MainWait | MainReset | MainStop | MainJoin | MainReturn.
#[export] Instance main_pc_eq_dec : EqDecision main_pc.
Proof. solve_decision. Defined.

(** The process has ended otherwise than by the return of [main]: by
    [std::exit], or because a coroutine has crashed. *)
Inductive ending := Exit (code : Z) | Crashed (c : crash).

Record server := Server {
  main_at : main_pc;
  guard_ : bool;            (* the work guard of the [io_context] *)
  stopped : bool;           (* [ctx_.stop()] *)
  accepting : bool;         (* the coroutine [start_accept] has not ended *)
  signal_pending : bool;    (* [signals.async_wait] has not completed *)
  event_count : EventCount;
  worker_runs : bool;       (* [worker_] is in [ctx_.run()] *)
  clients : Switcher;       (* [datas_], the sockets and the coroutines of the clients *)
  ended : option ending;
}.

(** The constructor of [Switcher], [EventCount ec(1)] and [async_wait]. *)
Definition server_init : outcome server :=
  ec ← EventCount_init 1;
  Ok (Server MainStart true false false true ec true Switcher_init None).

Definition set_main (p : main_pc) (s : server) : server :=
  Server p (guard_ s) (stopped s) (accepting s) (signal_pending s) (event_count s) (worker_runs s) (clients s) (ended s).
Definition set_clients (st : Switcher) (s : server) : server :=
  Server (main_at s) (guard_ s) (stopped s) (accepting s) (signal_pending s) (event_count s) (worker_runs s) st (ended s).

(** [Switcher::Start] *)
Definition Switcher_Start (s : server) : server :=
  Server (main_at s) (guard_ s) (stopped s) true (signal_pending s) (event_count s) (worker_runs s) (clients s) (ended s).
(** [Switcher::Stop]: [guard_.reset()], [ctx_.stop()], [worker_.join()] *)
Definition guard_reset (s : server) : server :=
  Server (main_at s) false (stopped s) (accepting s) (signal_pending s) (event_count s) (worker_runs s) (clients s) (ended s).
Definition ctx_stop (s : server) : server :=
  Server (main_at s) (guard_ s) true (accepting s) (signal_pending s) (event_count s) (worker_runs s) (clients s) (ended s).

(** The main thread; [None] while it is blocked. *)
Definition main_step (s : server) : option server :=
  match main_at s with
  | MainStart => Some (set_main MainWait (Switcher_Start s))
  | MainWait => if Wait_done (event_count s) then Some (set_main MainReset s) else None
  | MainReset => Some (set_main MainStop (guard_reset s))
  | MainStop => Some (set_main MainJoin (ctx_stop s))
  | MainJoin => if worker_runs s then None else Some (set_main MainReturn s)
  | MainReturn => None
  end.

(** [ctx_.run()] returns, when the context is stopped or when nothing holds it:
    the guard, [start_accept], the signal set, or a coroutine of a client. *)
Definition run_returns (s : server) : option server :=
  if worker_runs s && (stopped s || negb (guard_ s || accepting s || signal_pending s || (0 <? length (tasks (clients s)))%nat)) then
    Some (Server (main_at s) (guard_ s) (stopped s) (accepting s) (signal_pending s) (event_count s) false (clients s) (ended s))
  else None.

Section life.
Context (asio : Asio) `{Platform} (get_remote_ipport : sid → cpp_string).

(** What [ctx_.run()] does while the context is not stopped: the handler of the
    signal, a turn of [start_accept], its end by an exception (which
    [asio::detached] drops), the next part of a coroutine of a client, and a
    handler whose exception leaves [run] and is caught in the thread. *)
Inductive worker_action := HandleSignal | Accept (i : sid) (s : socket) | AcceptEnds | RunTask (k : nat) | HandlerThrows.

Definition worker_step (a : worker_action) (s : server) : option server :=
  if negb (worker_runs s) || stopped s then None else
  match a with
  | HandleSignal =>
      if signal_pending s then
        Some (Server (main_at s) (guard_ s) (stopped s) (accepting s) false (Succ (event_count s)) (worker_runs s) (clients s) (ended s))
      else None
  | Accept i c =>
      if accepting s && bool_decide (sockets (clients s) !! i = None) && is_open c
      then Some (set_clients (start_accept i c (clients s)) s) else None
  | AcceptEnds =>
      if accepting s then
        Some (Server (main_at s) (guard_ s) (stopped s) false (signal_pending s) (event_count s) (worker_runs s) (clients s) (ended s))
      else None
  | RunTask k =>
      '(st, o) ← server_step asio get_remote_ipport k (clients s);
      match o with
      | Crash c => Some (Server (main_at s) (guard_ s) (stopped s) (accepting s) (signal_pending s) (event_count s)
                          (worker_runs s) (clients s) (Some (Crashed c)))
      | _ => Some (set_clients st s)
      end
  | HandlerThrows =>
      Some (Server (main_at s) (guard_ s) (stopped s) (accepting s) (signal_pending s) (event_count s) false (clients s)
             (Some (Exit (-1))))
  end.

(** The steps of the main thread, the return of [run] and the other steps of its
    thread; none after the end of the process. *)
Definition main_moves (s' s : server) : Prop := ended s = None ∧ main_step s = Some s'.
Definition returns (s' s : server) : Prop := ended s = None ∧ run_returns s = Some s'.
Definition worker_moves (s' s : server) : Prop := ended s = None ∧ ∃ a, worker_step a s = Some s'.

(** A client sends bytes, reads some, or breaks off. *)
Definition client_moves (s' s : server) : Prop :=
  ended s = None ∧ ∃ i c c', sockets (clients s) !! i = Some c ∧ is_open c' = is_open c ∧
    s' = set_clients (set_socket i c' (clients s)) s.

Definition server_moves (s' s : server) : Prop :=
  main_moves s' s ∨ returns s' s ∨ worker_moves s' s ∨ client_moves s' s.

Inductive server_runs : server → Prop :=
| server_starts s : server_init = Ok s → server_runs s
| server_moved s s' : server_runs s → server_moves s' s → server_runs s'.

(** *** The invariant *)

Definition past_wait (p : main_pc) : bool := match p with MainStart | MainWait => false | _ => true end.

Record server_inv (s : server) : Prop := {
  sv_guard : guard_ s = match main_at s with MainStart | MainWait | MainReset => true | _ => false end;
  sv_stopped : stopped s = match main_at s with MainJoin | MainReturn => true | _ => false end;
  sv_count : event_count s = MkEventCount 1 (if signal_pending s then 0 else 1) 0;
  sv_signal : past_wait (main_at s) = true → signal_pending s = false;
  sv_worker : worker_runs s = false → ended s ≠ None ∨ guard_ s = false;
  sv_joined : main_at s = MainReturn → worker_runs s = false;
  sv_clients : served asio get_remote_ipport (clients s);
}.

Lemma server_inv_main s s' : server_inv s → main_moves s' s → server_inv s'.
Proof.
  intros [Hg Hst Hc Hsig Hw Hj Hcl] [He Hm]. unfold main_step in Hm.
  destruct (main_at s) eqn:Hp; [|destruct (Wait_done _) eqn:Hd; [|done]|..|destruct (worker_runs s) eqn:Hwk; [done|]|done];
    injection Hm as <-; split; simpl; try done; try naive_solver.
  intros _. rewrite Hc in Hd. by destruct (signal_pending s).
Qed.

Lemma server_inv_returns s s' : server_inv s → returns s' s → server_inv s'.
Proof.
  intros [Hg Hst Hc Hsig Hw Hj Hcl] [He Hm]. unfold run_returns in Hm. destruct (worker_runs s); [|done].
  destruct (_ && _) eqn:Hr; [|done]. injection Hm as <-. split; simpl; try done.
  intros _. right. rewrite Hst, Hg in *. destruct (main_at s); naive_solver.
Qed.

Lemma server_inv_worker s s' : server_inv s → worker_moves s' s → server_inv s'.
Proof.
  intros [Hg Hst Hc Hsig Hw Hj Hcl] (He & a & Hm). unfold worker_step in Hm.
  destruct (worker_runs s) eqn:Hwk, (stopped s) eqn:Hs; simpl in Hm; try done.
  destruct a as [|i c| |k|].
  - destruct (signal_pending s) eqn:Hsp; [|done]. injection Hm as <-. split; simpl; rewrite ?Hwk, ?Hs; try done. by rewrite Hc.
  - destruct (_ && _) eqn:Ha; [|done]. injection Hm as <-. split; simpl; rewrite ?Hwk, ?Hs; try done.
    apply andb_true_iff in Ha as [[_ Hi%bool_decide_eq_true]%andb_true_iff Ho]. by apply served_accept.
  - destruct (accepting s); [|done]. injection Hm as <-. split; simpl; rewrite ?Hwk, ?Hs; done.
  - destruct (server_step asio get_remote_ipport k (clients s)) as [[st o]|] eqn:Hk; simpl in Hm; [|done].
    destruct o as [[]|e|c]; injection Hm as <-; split; simpl; rewrite ?Hwk, ?Hs; try done; [by eapply served_step|].
    destruct (served_inv _ _ _ Hcl) as [R HR]. destruct (server_step_ok _ _ _ _ _ _ HR Hk) as [_ Hn]. by destruct (Hn e).
  - injection Hm as <-. split; simpl; rewrite ?Hwk, ?Hs; try done. intros _. by left.
Qed.

Lemma server_inv_client s s' : server_inv s → client_moves s' s → server_inv s'.
Proof.
  intros [Hg Hst Hc Hsig Hw Hj Hcl] (He & i & c & c' & Hi & Ho & ->). split; simpl; try done. by eapply served_client.
Qed.

Lemma server_inv_moves s s' : server_inv s → server_moves s' s → server_inv s'.
Proof.
  intros Hs [Hm|[Hm|[Hm|Hm]]];
    eauto using server_inv_main, server_inv_returns, server_inv_worker, server_inv_client.
Qed.

Lemma server_runs_inv s : server_runs s → server_inv s.
Proof.
  induction 1 as [s Hs|s s' _ IH Hm]; [|by eapply server_inv_moves]. vm_compute in Hs. injection Hs as <-.
  split; try done. apply served_init.
Qed.

(** *** The end of the server *)

(** [main] has returned, or the process has ended otherwise. *)
Definition server_over (s : server) : Prop := main_at s = MainReturn ∨ ended s ≠ None.

Definition main_left (p : main_pc) : nat :=
  match p with MainStart => 5 | MainWait => 4 | MainReset => 3 | MainStop => 2 | MainJoin => 1 | MainReturn => 0 end.
Definition steps_left (s : server) : nat := main_left (main_at s) + Nat.b2n (worker_runs s).

(** A signal has been handled and the process runs. *)
Record signalled (s : server) : Prop := {
  sg_inv : server_inv s;
  sg_signal : signal_pending s = false;
  sg_alive : ended s = None;
}.

(** The steps of the main thread and the return of [run] bring the end nearer. *)
Definition helpful (joining : bool) (s' s : server) : Prop := if joining then returns s' s else main_moves s' s.
Definition joining (s : server) : bool := bool_decide (main_at s = MainJoin) && worker_runs s.

Lemma main_step_left s s' :
  main_step s = Some s' →
  (steps_left s' < steps_left s)%nat ∧ signal_pending s' = signal_pending s ∧ ended s' = ended s.
Proof.
  unfold main_step, steps_left. destruct (main_at s) eqn:Hp; intros Hm; repeat (case_match; try done); simplify_eq; simpl;
    (split; [simplify_eq/=; repeat match goal with E : worker_runs _ = _ |- _ => rewrite E end; simpl; lia|done]).
Qed.

Lemma helpful_left b s s' : signalled s → helpful b s' s → signalled s' ∧ (steps_left s' < steps_left s)%nat.
Proof.
  intros [Hi Hs He]. destruct b; intros Hm.
  - pose proof (server_inv_returns _ _ Hi Hm) as Hi'. destruct Hm as [_ Hm]. unfold run_returns in Hm.
    destruct (worker_runs s) eqn:Hw; [|done]. case_match; [|done]. simplify_eq.
    split; [by split|]. unfold steps_left. simpl. rewrite Hw. simpl. lia.
  - pose proof (server_inv_main _ _ Hi Hm) as Hi'. destruct Hm as [_ Hm].
    destruct (main_step_left _ _ Hm) as (Hl & Hs' & He'). split; [split; [done|congruence..]|done].
Qed.

Lemma helpful_enabled s : signalled s → main_at s ≠ MainReturn → ∃ s', helpful (joining s) s' s.
Proof.
  intros [Hi Hs He] Hp. unfold joining, helpful, main_moves, returns, main_step, run_returns.
  pose proof (sv_stopped _ Hi) as Hst. destruct (main_at s) eqn:Hm; try done; simpl; [eauto|..|eauto|eauto|].
  - rewrite (sv_count _ Hi), Hs. eauto.
  - destruct (worker_runs s); simpl; [rewrite Hst; simpl|]; eauto.
Qed.

Lemma worker_frame s s' :
  worker_moves s' s → main_at s' = main_at s ∧ stopped s = false ∧ (signal_pending s = false → signal_pending s' = false) ∧
    (ended s' ≠ None ∨ worker_runs s' = worker_runs s).
Proof.
  intros (_ & a & Hm). unfold worker_step in Hm. destruct (worker_runs s) eqn:Hw, (stopped s) eqn:Hs; simpl in Hm; try done.
  destruct a as [|i c| |k|]; [| | |destruct (server_step _ _ k _) as [[st []]|]|]; simpl in Hm; repeat (case_match; try done);
    simplify_eq; simpl; rewrite ?Hw; repeat split; auto.
Qed.

(** After a signal a step ends the server, brings it nearer to its end, or
    leaves the main thread and the return of [run] where they are. *)
Lemma signalled_moves s s' :
  signalled s → server_moves s' s →
  server_over s' ∨ signalled s' ∧ ((steps_left s' < steps_left s)%nat ∨
    main_at s' = main_at s ∧ worker_runs s' = worker_runs s).
Proof.
  intros Hsig Hm. destruct Hm as [Hm|[Hm|Hm]]; [right..|].
  - destruct (helpful_left false _ _ Hsig Hm). auto.
  - destruct (helpful_left true _ _ Hsig Hm). auto.
  - pose proof (server_inv_moves _ _ (sg_inv _ Hsig) (or_intror (or_intror Hm))) as Hi'. destruct Hsig as [Hi Hs He].
    destruct Hm as [Hm|(_ & i & c & c' & _ & _ & ->)]; [|right; split; [by split|by right]].
    destruct (worker_frame _ _ Hm) as (Hp & _ & Hs' & Hw). destruct (ended s') eqn:He'; [left; right; congruence|].
    right. split; [split; auto|]. right. by destruct Hw.
Qed.

(** Every fair execution ends. *)
Lemma signalled_ends run n :
  execution server_moves run → fair main_moves run → fair returns run → signalled (run n) → ∃ m, server_over (run m).
Proof.
  intros Hex Hfm Hfr. remember (steps_left (run n)) as k eqn:Hk. revert n Hk. induction k as [k IH] using lt_wf_ind.
  intros n -> Hs. destruct (decide (main_at (run n) = MainReturn)) as [Hr|Hr]; [exists n; by left|].
  set (I s := signalled s ∧ main_at s = main_at (run n) ∧ worker_runs s = worker_runs (run n)).
  set (Q s := server_over s ∨ signalled s ∧ (steps_left s < steps_left (run n))%nat).
  assert (∀ y, I y → steps_left y = steps_left (run n) ∧ joining y = joining (run n)) as HI.
  { intros y (_ & Hp & Hw). unfold steps_left, joining. by rewrite Hp, Hw. }
  destruct (fair_reaches server_moves (helpful (joining (run n))) I Q run n) as (m & _ & [Ho|[Hm Hl]]);
    [done|by destruct (joining (run n))|..|by exists m|by eapply IH].
  - intros y Hy. destruct (HI y Hy) as [_ <-]. destruct Hy as (Hy & Hp & _). apply helpful_enabled; [done|by rewrite Hp].
  - intros y z Hy Hm. destruct (HI y Hy) as [Hl _]. destruct Hy as (Hy & Hp & Hw).
    destruct (signalled_moves _ _ Hy Hm) as [Ho|[Hz [Hl'|[Hp' Hw']]]]; [by right; left|right; right; by rewrite <- Hl|left].
    split; [done|]. split; congruence.
  - intros y z Hy Hm. destruct (HI y Hy) as [Hl _]. destruct Hy as (Hy & _). right. rewrite <- Hl. by eapply helpful_left.
  - by split.
Qed.

(** *** After [ctx_.stop()] *)

Lemma stopped_frame s s' :
  stopped s = true → server_moves s' s →
  stopped s' = true ∧ tasks (clients s') = tasks (clients s) ∧ datas_ (clients s') = datas_ (clients s).
Proof.
  intros Hs [[_ Hm]|[[_ Hm]|[Hm|Hm]]].
  - unfold main_step in Hm. repeat (case_match; try done); simplify_eq; done.
  - unfold run_returns in Hm. case_match; by simplify_eq.
  - destruct (worker_frame _ _ Hm) as (_ & Hf & _). congruence.
  - by destruct Hm as (_ & i & c & c' & _ & _ & ->).
Qed.

Lemma stopped_clients s s' :
  stopped s = true → rtc (flip server_moves) s s' →
  tasks (clients s') = tasks (clients s) ∧ datas_ (clients s') = datas_ (clients s).
Proof.
  intros Hs Hr. induction Hr as [s|s s1 s2 Hm _ IH]; [done|]. destruct (stopped_frame _ _ Hs Hm) as (Hs1 & <- & <-). by apply IH.
Qed.

(** C24: The life of the switcher program with its clients, whatever the
    interleaving of its threads, the connections, the bytes that arrive and the
    signal.  The coroutines of the clients do what [switcher_places] says of
    them.  As long as no signal has been handled, the main thread has not passed
    its [Wait] and the thread of the [io_context] runs, unless the process has
    ended.  Once a signal has been handled, every execution in which the main
    thread is not passed over forever when it can go on, nor the return of [run],
    comes to an end, however many clients there are: [main] returns, or the
    process has ended by [std::exit] after an exception that left [run] or by the
    crash of a coroutine.  After [ctx_.stop()] the coroutines of the clients and
    the table of waiting sockets stay as they are.  [main] returns only after a
    signal, with the [io_context] stopped and its thread joined. *)
Theorem server_lifecycle s :
  server_runs s →
  served asio get_remote_ipport (clients s) ∧
  (signal_pending s = true → past_wait (main_at s) = false ∧ (worker_runs s = true ∨ ended s ≠ None)) ∧
  (signal_pending s = false → ∀ run, run 0%nat = s → execution server_moves run →
     fair main_moves run → fair returns run → ∃ n, server_over (run n)) ∧
  (stopped s = true → ∀ s', rtc (flip server_moves) s s' →
     tasks (clients s') = tasks (clients s) ∧ datas_ (clients s') = datas_ (clients s)) ∧
  (main_at s = MainReturn → signal_pending s = false ∧ stopped s = true ∧ worker_runs s = false).
Proof.
  intros Hs%server_runs_inv. split; [apply (sv_clients _ Hs)|]. split; [|split; [|split]].
  - intros Hp. destruct Hs as [Hg _ _ Hsig Hw _ _].
    destruct (past_wait (main_at s)) eqn:Hm; [by rewrite Hsig in Hp|]. split; [done|].
    destruct (worker_runs s); [by left|right]. destruct (Hw eq_refl) as [?|Hgf]; [done|].
    rewrite Hg in Hgf. by destruct (main_at s).
  - intros Hp run <- Hex Hfm Hfr. destruct (ended (run 0%nat)) eqn:He; [exists 0%nat; right; congruence|].
    by apply (signalled_ends run 0).
  - intros Hst s' Hr. by apply stopped_clients.
  - intros Hm. destruct Hs as [_ Hst _ Hsig _ Hj _]. rewrite Hm in *. auto.
Qed.

End life.

(** ** A run *)

Module SampleProgram.

(** The signal is handled while [main] waits, with the client of [SampleServer]
    connected; its request has not been handled. *)
Definition at_signal : server :=
  Server MainWait true false true false (MkEventCount 1 1 0) true SampleServer.attacked None.

Definition later (n : nat) : server :=
  let st := SampleServer.attacked in
  match n with
  | 0%nat => at_signal
  | 1%nat => Server MainReset true false true false (MkEventCount 1 1 0) true st None
  | 2%nat => Server MainStop false false true false (MkEventCount 1 1 0) true st None
  | 3%nat => Server MainJoin false true true false (MkEventCount 1 1 0) true st None
  | 4%nat => Server MainJoin false true true false (MkEventCount 1 1 0) false st None
  | _ => Server MainReturn false true true false (MkEventCount 1 1 0) false st None
  end.

Abbreviation sample_runs := (@server_runs stream_asio little_host SampleServer.peers).
Abbreviation sample_moves := (@server_moves stream_asio little_host SampleServer.peers).

Lemma at_signal_runs : sample_runs at_signal.
Proof.
  pose (waits b st := Server MainWait true false true b (MkEventCount 1 (if b then 0 else 1) 0) true st None).
  apply (server_moved _ _ (waits true SampleServer.attacked)); [|by right; right; left; split; [|exists HandleSignal]].
  apply (server_moved _ _ (waits true SampleServer.accepted)).
  - apply (server_moved _ _ (waits true Switcher_init)).
    + apply (server_moved _ _ (Server MainStart true false false true (MkEventCount 1 0 0) true Switcher_init None)); [|by left].
      by apply server_starts.
    + right; right; left. split; [done|]. by exists (Accept 0 (Socket [] ec_none [] ec_none true)).
  - right; right; right. split; [done|].
    exists 0%nat, (Socket [] ec_none [] ec_none true), (Socket SampleServer.odd_bytes ec_none [] ec_none true).
    by split; [vm_compute|].
Qed.

Lemma later_execution : execution sample_moves later.
Proof.
  intros n. do 5 (destruct n as [|n]; [right; first [by left; split|by right; left; split]|]). by left.
Qed.

Lemma later_fair h : (∀ y, ¬ h y (later 5)) → fair h later.
Proof. intros Hh n. exists (5 + n)%nat. split; [lia|]. right. intros [y Hy]. by apply (Hh y). Qed.

Lemma server_lifecycle_witness :
  @served stream_asio little_host SampleServer.peers (clients at_signal) ∧ ∃ n, server_over (later n).
Proof.
  destruct (@server_lifecycle stream_asio little_host SampleServer.peers at_signal at_signal_runs) as (Hs & _ & Hin & _).
  split; [exact Hs|]. apply (Hin eq_refl later eq_refl later_execution); apply later_fair; intros y [_ Hy]; discriminate Hy.
Defined.

End SampleProgram.
